(* ===== verification/_CoqProject ===== *)
-Q . S2P
Prelude.v
Effects.v
GoStd.v
Helpers.v
ClaimTypes.v
DeepCopy.v
Base64.v
Json.v
Http.v
Env.v
Pool.v
SshManager.v
SimTime.v
Sim.v
SshCommands.v
Registry.v
Threads.v
Schedules.v
SshConcurrency.v
SshAccounts.v
SshMonitor.v
SshRaces.v
SshRunner.v
SshRunnerProps.v
AgentClient.v
Controller.v
ControllerProps.v
ReconcileProps.v
Tunnels.v
Forward.v
ForwardInv.v
ForwardProps.v
ForwardSim.v
HandlerBooks.v
Entry.v
AgentEnv.v
Garp.v
NetConfig.v
DhcpClient.v
LeaseJson.v
AgentMem.v
LeaseStore.v
AgentApi.v
Agent.v
AgentThreads.v
AgentFile.v
AgentSafety.v
AgentMarks.v
AgentRestart.v
AgentAlloc.v
AgentRenewal.v
Wire.v
AgentSim.v
AgentMain.v
AgentRaces.v
AgentWitness.v
WireWitness.v
