(* ===== verification/Prelude.v ===== *)
(** * Cilium DHCP WAN-IP operator and router agent: verification library

    The program gives a Kubernetes cluster public addresses from a DHCP server:
    an operator watches PublicIPClaim resources and talks, through an SSH tunnel,
    to an agent on the router, which creates a macvlan interface per claim,
    holds a DHCP lease on it and renews it; the operator adds the address to a
    Cilium pool.  This library models both halves in Rocq, from the Go sources,
    and proves what they guarantee, separately and together.

    ** How code is modelled

    Code is a program ([Effects.proc]): a tree of calls to code that is not the
    program's own, with a continuation for every answer.  The operator threads
    its memory through a state monad ([Effects.M], [Env.Op], [Env.OpE]).  The
    agent, the SSH manager, the SSH tunnel and a running SSH command have several
    goroutines on a shared memory: there a call is either one section under a
    lock or one external call, and goroutines interleave between calls
    (AgentThreads, Threads; Schedules adds whose step each one is, bounds on the
    steps of a goroutine and replayed executions).  Statements about all
    executions are made with weakest preconditions against a specification of
    the environment ([Effects.wp], [espec]), on traces, or by induction over
    interleavings.  An external package is a class of operations with named laws
    for what its documentation promises ([Env.Lib]/[LibLaws], [AgentEnv.AgLib]/
    [AgLaws], [Wire.WireLaws]); Sim and AgentSim are concrete instances at which
    every hypothesis of a theorem is met.

    Integers are [Z] with the wrap-around of their width written out
    ([wrap64s], ...), strings are byte strings, nil maps and pointers are
    [option], [(T, error)] is [result], floats are IEEE binary64, pointers are
    addresses into a heap.  Recursion is structural; the two loops with a fuel
    argument follow the library's own bounds (the hexadecimal digits of a 64-bit
    number, the eight groups of an IPv6 address).  An endless loop is a program
    for one iteration that ends in the state of the next ([Agent.Renewal],
    [SshConcurrency.Loop]); no theorem is about a bounded number of iterations.

    ** The operator (internal/controller, internal/ssh, internal/router, api)

    - Effects, GoStd, Json, Http, Base64: programs and their logics; the parts
      of Go's library that are computed with; JSON decoding; HTTP responses.
    - ClaimTypes: the PublicIPClaim resource (publicipclaim_types.go).
      DeepCopy: its generated copies (zz_generated.deepcopy.go) on a heap of
      typed cells.  Theorem: copies are well typed and isolated.
    - Helpers: sanitizeName, generateUniqueMAC, the default interface name.
      Theorems: generated names and MACs are valid; which names collide.
    - Env: the operator's environment and memory.
    - Pool: ensureIPInPool, removeIPFromPool.  Theorems: what each reads and
      writes, on every branch and under concurrent writers; adding and removing
      is a round trip.
    - SshManager, Registry, SshCommands: manager.go as its callers see it,
      registry.go, commands.go.  Theorems: one manager per address and identity;
      shellQuote yields one word of the shell.
    - Threads, SshConcurrency, SshAccounts, SshMonitor, SshRaces: the manager's
      methods and loops interleaved.  Theorems: connections and the gauge of
      active connections are accounted for with any callers; without Close the
      connection is always watched by exactly one goroutine; with Close the loop
      can crash, or the closed manager can connect again and keep Close waiting.
    - SshRunner, SshRunnerProps: sshCommandRunner.Run and its goroutine.
      Theorems: what it returns and leaves behind; once its context is done it
      waits for nothing but the router, which can hold it for ever.
    - AgentClient: agent_client.go as its callers see it.  Tunnels: tunnels
      never leak.
    - Forward, ForwardInv, ForwardProps, ForwardSim: the goroutines underneath,
      which accept connections and copy bytes.  Theorems: connections are
      neither cut while in use, but by closing the SSH client, nor leaked; Close
      waits for nothing but a dial under way; a cancelled tunnel drains.
      Fairness is not assumed: the theorems bound the steps of each goroutine
      and show who can take one.  A call that waits for the router (opening a
      session, starting or waiting for a command, dialling) is never taken to
      return by itself; closing something is.
    - Controller, ControllerProps, ReconcileProps: Reconcile and everything it
      calls.  Theorems: a finalizer is dropped only after the pool is clean, a
      lease is requested only after its interface was stored, Ready is written
      only with the address in the pool, incomplete specs fail; and what it does
      not do: Failed or interrupted claims are never taken up again, the
      router's uptime is never recorded.
    - HandlerBooks: the handlers, managers and routers recorded for claims
      agree with the registry and the managers after any lookups and deletions,
      as long as the claims of a router log in to it in the same way and are
      deleted with the router they are recorded with; what a deletion leaves
      that does not reach the router; what happens when a login changes.
    - Entry: cmd/main.go and SetupWithManager, from the parsed flags to the exit
      code.  Theorem: the order of the steps and what failures lead to.
    - SimTime, Sim: a concrete environment of the operator.

    ** The agent (internal/agent)

    - AgentEnv, AgentMem, LeaseStore, LeaseJson: the agent's memory, the
      sections on it, the lease store (lease/types.go) and its file format.
    - Garp, NetConfig, DhcpClient, AgentApi: garp.go, config.go, dhcp/client.go
      and api/types.go.  Theorems: the ARP frame, byte order, the file format.
    - Agent: agent.go, handlers, allocation, release, verification, renewal.
    - AgentThreads: its goroutines interleaved.  AgentFile: the state file is
      never torn.  AgentSafety: no goroutine panics, none waits for ever, and
      leases keep their identity.  AgentMarks: operations on an interface
      exclude each other; its link is created, changed and deleted only under
      its mark.
    - AgentRestart: a restart restores the leases.  AgentAlloc: what requests
      for and releases of a lease leave behind on every path, on a router whose
      every call may fail and which keeps a log of the calls, so that what is
      left is stated with the failure that explains it.  AgentRenewal: one
      iteration of the renewal loop: what it asks the DHCP server, what the
      answers do to the lease, the timer and the back-off.
    - AgentRaces: executions that go wrong (a lease that comes back after its
      release, a lease that could not be saved, a null state file, a store
      operation that waits for itself).
    - AgentMain: cmd/agent/main.go, the life of the process.
    - AgentSim, AgentWitness: a concrete router, a scheduler, and the theorems
      at replayed executions.

    ** Together

    - Wire: the operator's client against the agent's own handlers: what an
      address, a status or a release the operator sees says about the router.
      WireWitness: the same at a concrete input.

    ** Not modelled

    Parsing of the command line, logging, registration of the types with the
    API machinery, the settings of the HTTP client, the time a call takes
    (timeouts are failures the environment may answer with at any call, or, for
    the goroutines, calls that may return at any time), deferred calls that run
    while a goroutine panics, and the cancellation of the context given to Start
    of an SSH manager.  In SshManager, which the reconciler calls, the wait of
    Close is one call; the loops it waits for are those of SshConcurrency.  The
    order in which the kernel brings writes to the disk is not modelled.  Reads and writes of a lease object outside the store's
    lock, and a call of a goroutine on a connection, are single steps here; Go
    gives no such promise for data races.

    ** Planned

    The operator's event handlers running beside a reconciliation; the agent's
    goroutines on the general framework of Threads, and from it that Shutdown
    ends the renewals; the list of leases over the wire; a reconciliation after
    a router event as a whole, with the address that stays in the pool; a bound
    on the SSH manager's reconnection back-off. *)

From stdpp Require Export base tactics option list strings gmap pretty.
From Stdlib Require Export ZArith Lia Ascii.

(** ** Results

    A Go function with result type [(T, error)] returns [Ok v] for
    [(v, nil)] and [Err e] for [(_, e)] with [e != nil]. *)

Inductive result (E A : Type) : Type :=
| Ok (a : A)
| Err (e : E).
Arguments Ok {E A} a.
Arguments Err {E A} e.

#[export] Instance result_eq_dec `{EqDecision E, EqDecision A} :
  EqDecision (result E A).
Proof. solve_decision. Defined.

Definition is_ok {E A} (r : result E A) : bool :=
  match r with Ok _ => true | Err _ => false end.

(** ** Bytes and characters

    A Go string is a sequence of bytes: it is a [string] here, whose
    characters are the 256 values of [ascii].  [code] is the byte's value,
    [chr] the byte of a value (taken modulo 256, as a conversion to [byte]). *)

Definition code (c : ascii) : Z := Z.of_N (N_of_ascii c).
Definition chr (z : Z) : ascii := ascii_of_N (Z.to_N (z `mod` 256)).

Lemma code_range c : (0 ≤ code c < 256)%Z.
Proof.
  unfold code. pose proof (N_ascii_bounded c). lia.
Qed.

Lemma chr_code c : chr (code c) = c.
Proof.
  unfold chr. rewrite Z.mod_small by apply code_range.
  unfold code. rewrite N2Z.id. apply ascii_N_embedding.
Qed.

Lemma code_chr z : (0 ≤ z < 256)%Z → code (chr z) = z.
Proof.
  intros Hz. unfold chr, code. rewrite Z.mod_small by lia.
  rewrite N_ascii_embedding by lia. lia.
Qed.

(** The bytes of a string and back. *)
Fixpoint bytes (s : string) : list ascii :=
  match s with
  | EmptyString => []
  | String c s => c :: bytes s
  end.

Fixpoint unbytes (l : list ascii) : string :=
  match l with
  | [] => EmptyString
  | c :: l => String c (unbytes l)
  end.

Lemma bytes_unbytes l : bytes (unbytes l) = l.
Proof. induction l; simpl; congruence. Qed.

Lemma unbytes_bytes s : unbytes (bytes s) = s.
Proof. induction s; simpl; congruence. Qed.

Lemma bytes_app s t : bytes (s +:+ t) = bytes s ++ bytes t.
Proof. induction s as [|c s IH]; [done|]. simpl. by rewrite IH. Qed.

Lemma unbytes_app l k : unbytes (l ++ k) = unbytes l +:+ unbytes k.
Proof. induction l as [|c l IH]; [done|]. simpl. by rewrite IH. Qed.

Lemma length_bytes s : length (bytes s) = String.length s.
Proof. induction s as [|c s IH]; [done|]. simpl. by rewrite IH. Qed.

(** ** Machine integers *)

Definition wrap64s (z : Z) : Z := ((z + 2 ^ 63) `mod` 2 ^ 64 - 2 ^ 63)%Z.
Definition wrap64u (z : Z) : Z := (z `mod` 2 ^ 64)%Z.
Definition wrap16u (z : Z) : Z := (z `mod` 2 ^ 16)%Z.

Lemma wrap64s_small z : (- 2 ^ 63 ≤ z < 2 ^ 63)%Z → wrap64s z = z.
Proof. intros. unfold wrap64s. rewrite Z.mod_small; lia. Qed.

Lemma wrap64u_small z : (0 ≤ z < 2 ^ 64)%Z → wrap64u z = z.
Proof. intros. unfold wrap64u. by rewrite Z.mod_small. Qed.

(** ** Automation *)

Create HintDb go.
Create Rewrite HintDb go_rw.

#[export] Hint Rewrite bytes_unbytes unbytes_bytes bytes_app unbytes_app
  length_bytes chr_code : go_rw.

(** [invert_all] opens every equation between constructors and every
    conjunction or existential of the context. *)
Ltac invert_all :=
  repeat match goal with
  | H : _ ∧ _ |- _ => destruct H
  | H : ∃ _, _ |- _ => destruct H
  | p : _ * _ |- _ => destruct p
  | _ => progress simplify_eq/=
  end.

(** Facts about every value of a small range are checked value by value. *)
Lemma forall_range (n : Z) (P : Z → Prop) :
  Forall P (seqZ 0 n) → ∀ b, (0 ≤ b < n)%Z → P b.
Proof.
  intros HP b Hb. rewrite Forall_forall in HP. apply HP, elem_of_seqZ. lia.
Qed.

Lemma forall_rangeb (n : Z) (P : Z → Prop) `{!∀ b, Decision (P b)} :
  forallb (λ b, bool_decide (P b)) (seqZ 0 n) = true → ∀ b, (0 ≤ b < n)%Z → P b.
Proof.
  intros Hf. apply forall_range, Forall_forall. intros x Hx.
  rewrite forallb_forall in Hf. eapply bool_decide_eq_true, Hf. by apply list_elem_of_In.
Qed.

Lemma elem_of_last {A} (h : list A) x : x ∈ h ++ [x].
Proof. set_solver. Qed.
