(* ===== verification/Effects.v ===== *)
(** * Programs with external calls

    The operator and the agent are sequential Go functions that call code
    which is not theirs: the Kubernetes API server, the kernel, the DHCP
    library, the SSH transport.  A function is a finite tree [proc E A]: it
    returns a value or makes one external call [e : E X] and goes on with
    whatever answer of type [X] it gets.  Nothing is assumed of the answers:
    a theorem about every trace ([runs]) holds for every environment, and a
    theorem that needs a law of the environment states it as an [espec]. *)

From S2P Require Import Prelude.

Inductive proc (E : Type → Type) (A : Type) : Type :=
| Ret (a : A)
| Vis (X : Type) (e : E X) (k : X → proc E A).
Arguments Ret {E A} a.
Arguments Vis {E A X} e k.

Fixpoint proc_bind {E A B} (f : A → proc E B) (p : proc E A) : proc E B :=
  match p with
  | Ret a => f a
  | Vis e k => Vis e (λ x, proc_bind f (k x))
  end.

#[export] Instance proc_mret E : MRet (proc E) := λ A, Ret.
#[export] Instance proc_mbind E : MBind (proc E) := λ A B, proc_bind.

Definition trigger {E X} (e : E X) : proc E X := Vis e Ret.

(** ** Traces *)

(** One external call with the answer it got. *)
Definition event (E : Type → Type) : Type := {X : Type & (E X * X)%type}.
Definition Ev {E X} (e : E X) (x : X) : event E := existT X (e, x).

(** [runs p tr a]: with the answers recorded in [tr], [p] returns [a]. *)
Inductive runs {E A} : proc E A → list (event E) → A → Prop :=
| runs_ret a : runs (Ret a) [] a
| runs_vis X (e : E X) k x tr a :
    runs (k x) tr a → runs (Vis e k) (Ev e x :: tr) a.

(** Reading a trace backwards. *)
Lemma runs_vis_inv {E A X} (e : E X) (k : X → proc E A) tr a :
  runs (Vis e k) tr a → ∃ x tr', tr = Ev e x :: tr' ∧ runs (k x) tr' a.
Proof.
  enough (∀ p, runs p tr a → match p with
    | Ret _ => True
    | Vis e k => ∃ x tr', tr = Ev e x :: tr' ∧ runs (k x) tr' a end) as H by apply (H (Vis e k)).
  intros p Hp. destruct Hp; [done|]. by eauto.
Qed.

Lemma runs_ret_inv {E A} (a b : A) (tr : list (event E)) : runs (Ret a) tr b → tr = [] ∧ b = a.
Proof.
  enough (∀ p, runs p tr b → match p with Ret a => tr = [] ∧ b = a | _ => True end) as H
    by apply (H (Ret a)).
  intros p Hp. by destruct Hp.
Qed.

Lemma runs_bind_inv {E A B} (p : proc E A) (f : A → proc E B) tr b :
  runs (p ≫= f) tr b → ∃ tr1 a tr2, runs p tr1 a ∧ runs (f a) tr2 b ∧ tr = tr1 ++ tr2.
Proof.
  revert tr. induction p as [a|X e k IH]; intros tr Hr; simpl in Hr.
  - exists [], a, tr. split; [constructor|done].
  - apply runs_vis_inv in Hr as (x & tr' & -> & Hr). apply IH in Hr as (tr1 & a & tr2 & H1 & H2 & ->).
    exists (Ev e x :: tr1), a, tr2. split; [by constructor|done].
Qed.

Lemma runs_trigger_inv {E X} (e : E X) tr x : runs (trigger e) tr x → tr = [Ev e x].
Proof.
  intros Hr. apply runs_vis_inv in Hr as (y & tr' & -> & Hr). by apply runs_ret_inv in Hr as [-> ->].
Qed.

(** ** Weakest preconditions against a specification of the environment *)

Record espec (E : Type → Type) (W : Type) := ESpec {
  es_pre : ∀ X, E X → W → Prop;
  es_post : ∀ X, E X → W → X → W → Prop;
}.
Arguments ESpec {E W} es_pre es_post.
Arguments es_pre {E W} _ {X} _ _.
Arguments es_post {E W} _ {X} _ _ _ _.

Fixpoint wp {E W A} (Σ : espec E W) (p : proc E A) (Q : A → W → Prop) (w : W) : Prop :=
  match p with
  | Ret a => Q a w
  | Vis e k => es_pre Σ e w ∧ ∀ x w', es_post Σ e w x w' → wp Σ (k x) Q w'
  end.

Section wp.
Context {E : Type → Type} {W : Type} (Σ : espec E W).

Lemma wp_mono {A} (p : proc E A) (Q Q' : A → W → Prop) w :
  wp Σ p Q w → (∀ a w', Q a w' → Q' a w') → wp Σ p Q' w.
Proof.
  revert w. induction p as [a|X e k IH]; simpl; [by eauto|].
  intros w [Hpre Hk] HQ. split; [done|]. intros. eapply IH; eauto.
Qed.

Lemma wp_bind {A B} (p : proc E A) (f : A → proc E B) Q w :
  wp Σ (p ≫= f) Q w ↔ wp Σ p (λ a, wp Σ (f a) Q) w.
Proof.
  revert w. induction p as [a|X e k IH]; intros w; simpl; [done|].
  split; intros [Hpre Hk]; (split; [done|]); intros x w' Hpost;
    specialize (Hk x w' Hpost); by apply IH.
Qed.

Lemma wp_conj {A} (p : proc E A) (Q1 Q2 : A → W → Prop) w :
  wp Σ p Q1 w → wp Σ p Q2 w → wp Σ p (λ a w', Q1 a w' ∧ Q2 a w') w.
Proof.
  revert w. induction p as [a|X e k IH]; simpl; [done|].
  intros w [? H1] [? H2]. split; [done|]. eauto.
Qed.

Lemma wp_ret {A} (a : A) (Q : A → W → Prop) w : wp Σ (mret a) Q w ↔ Q a w.
Proof. done. Qed.

Lemma wp_trigger {X} (e : E X) (Q : X → W → Prop) w :
  wp Σ (trigger e) Q w ↔ es_pre Σ e w ∧ ∀ x w', es_post Σ e w x w' → Q x w'.
Proof. done. Qed.
End wp.

(** ** Histories: the environment may answer anything *)

(** [proto P]: calls are free to answer anything; the history so far is the
    ghost state, and the call [e] may only be made when [P] allows it. *)
Definition proto {E} (P : ∀ X, list (event E) → E X → Prop) : espec E (list (event E)) :=
  ESpec (λ X e h, P X h e) (λ X e h x h', h' = h ++ [Ev e x]).

Definition ev_ok {E} (P : ∀ X, list (event E) → E X → Prop)
    (h : list (event E)) (o : event E) : Prop :=
  match o with existT X (e, x) => P X h e end.

(** A program that satisfies its protocol in the sense of [wp] satisfies it on
    every trace: each call is allowed by the calls before it, and the result
    is related to the whole trace. *)
Lemma wp_runs {E A} P (p : proc E A) Q h tr a :
  wp (proto P) p Q h → runs p tr a →
  Q a (h ++ tr) ∧ ∀ i o, tr !! i = Some o → ev_ok P (h ++ take i tr) o.
Proof.
  intros Hwp Hr. revert h Hwp.
  induction Hr as [a|X e k x tr a Hr IH]; intros h Hwp; simpl in *.
  - rewrite app_nil_r. split; [done|]. intros i o Hi. by rewrite lookup_nil in Hi.
  - destruct Hwp as [Hpre Hk].
    destruct (IH _ (Hk x _ eq_refl)) as [HQ Hall]. rewrite <-app_assoc in HQ.
    split; [done|]. intros [|i] o Hi; simplify_eq/=.
    + by rewrite app_nil_r.
    + specialize (Hall _ _ Hi). by rewrite <-app_assoc in Hall.
Qed.

(** Histories only grow. *)
Lemma wp_grows {E A} P (p : proc E A) (Q : A → list (event E) → Prop) h :
  wp (proto P) p Q h → wp (proto P) p (λ a h', Q a h' ∧ h `prefix_of` h') h.
Proof.
  revert h. induction p as [a|X e k IH]; intros h; simpl; [done|].
  intros [Hpre Hk]. split; [done|]. intros x h' ->.
  eapply wp_mono; [apply IH, Hk; reflexivity|]. intros a h' [HQ Hp]. split; [done|].
  etransitivity; [|exact Hp]. by apply prefix_app_r.
Qed.

(** [steps p tr p']: with the answers recorded in [tr], [p] has come as far as
    [p'].  An execution that is cut short (a crash, a panic, a call that never
    returns) is such a partial execution. *)
Inductive steps {E A} : proc E A → list (event E) → proc E A → Prop :=
| steps_nil p : steps p [] p
| steps_vis X (e : E X) k x tr p :
    steps (k x) tr p → steps (Vis e k) (Ev e x :: tr) p.

Lemma runs_steps {E A} (p : proc E A) tr a : runs p tr a → steps p tr (Ret a).
Proof. induction 1; by constructor. Qed.

Lemma steps_runs {E A} (p : proc E A) tr a : steps p tr (Ret a) → runs p tr a.
Proof.
  remember (Ret a) as q eqn:Hq. induction 1; subst; constructor; auto.
Qed.

(** The protocol is kept on partial executions as well. *)
Lemma wp_steps {E A} P (p : proc E A) Q h tr p' :
  wp (proto P) p Q h → steps p tr p' →
  ∀ i o, tr !! i = Some o → ev_ok P (h ++ take i tr) o.
Proof.
  intros Hwp Hs. revert h Hwp. induction Hs as [p|X e k x tr p' Hs IH]; intros h Hwp i o Hi.
  - by rewrite lookup_nil in Hi.
  - destruct Hwp as [Hpre Hk]. destruct i as [|i]; simplify_eq/=.
    + by rewrite app_nil_r.
    + specialize (IH _ (Hk x _ eq_refl) _ _ Hi). by rewrite <-app_assoc in IH.
Qed.

(** The unrestricted protocol. *)
Definition anything {E : Type → Type} : ∀ X, list (event E) → E X → Prop := λ _ _ _, True.

Lemma wp_trace {E A} (p : proc E A) Q tr a :
  wp (proto anything) p Q [] → runs p tr a → Q a tr.
Proof. intros Hwp Hr. by destruct (wp_runs _ _ _ _ _ _ Hwp Hr). Qed.

(** ** Programs that make only some calls *)

Fixpoint calls {E A} (F : ∀ X, E X → Prop) (p : proc E A) : Prop :=
  match p with
  | Ret _ => True
  | Vis e k => F _ e ∧ ∀ x, calls F (k x)
  end.

Definition ev_sat {E} (F : ∀ X, E X → Prop) (o : event E) : Prop :=
  match o with existT X (e, x) => F X e end.

Lemma calls_bind {E A B} F (p : proc E A) (f : A → proc E B) :
  calls F p → (∀ a, calls F (f a)) → calls F (p ≫= f).
Proof.
  induction p as [a|X e k IH]; simpl; [by eauto|]. intros [He Hk] Hf. split; [done|].
  intros x. by apply IH.
Qed.

Lemma calls_impl {E A} (F G : ∀ X, E X → Prop) (p : proc E A) :
  (∀ X e, F X e → G X e) → calls F p → calls G p.
Proof.
  intros HFG. induction p as [a|X e k IH]; simpl; [done|]. intros [He Hk]. eauto.
Qed.

Lemma calls_runs {E A} F (p : proc E A) tr a :
  calls F p → runs p tr a → Forall (ev_sat F) tr.
Proof. intros Hc Hr. induction Hr; simpl in *; constructor; naive_solver. Qed.

(** Such a program meets every protocol that allows those calls, and adds only
    such calls to the history. *)
Lemma calls_wp {E A} F P (p : proc E A) (Q : A → list (event E) → Prop) h :
  calls F p → (∀ X h e, F X e → P X h e) →
  (∀ a tr, Forall (ev_sat F) tr → Q a (h ++ tr)) → wp (proto P) p Q h.
Proof.
  intros Hc HP. revert h. induction p as [a|X e k IH]; intros h HQ; simpl in *.
  - specialize (HQ a []). rewrite app_nil_r in HQ. by apply HQ.
  - destruct Hc as [He Hk]. split; [by apply HP|]. intros x h' ->. apply IH; [done|].
    intros a tr Htr. rewrite <-app_assoc. apply HQ. by constructor.
Qed.

Lemma calls_ret {E A} (F : ∀ X, E X → Prop) (a : A) : calls F (mret a : proc E A).
Proof. done. Qed.

Lemma calls_trigger {E X} (F : ∀ X, E X → Prop) (e : E X) : F X e → calls F (trigger e).
Proof. by split. Qed.

(** Calls in [F] are allowed under the invariant [I] of the environment and
    keep it. *)
Lemma calls_inv {E W A} F (Σ : espec E W) (I : W → Prop) (p : proc E A) (Q : A → W → Prop) w :
  calls F p →
  (∀ X e w, F X e → I w → es_pre Σ e w ∧ ∀ x w', es_post Σ e w x w' → I w') →
  I w → (∀ a w', I w' → Q a w') → wp Σ p Q w.
Proof.
  intros Hp HI Hw HQ. revert w Hw. induction p as [a|X e k IH]; intros w Hw; simpl; [by apply HQ|].
  destruct Hp as [He Hk]. destruct (HI X e w He Hw) as [Hpre Hpost].
  split; [done|]. intros x w' Hx. apply IH; [apply Hk|by eapply Hpost].
Qed.

(** ** Rely and guarantee on single calls

    [rg F P]: as long as every answer meets [F], every call meets [P]. *)
Definition rg {E} (F : ∀ X, E X → X → Prop) (P : ∀ X, E X → Prop) : espec E unit :=
  ESpec (λ X e _, P X e) (λ X e _ x _, F X e x).

Definition ans_sat {E} (F : ∀ X, E X → X → Prop) (o : event E) : Prop :=
  match o with existT X (e, x) => F X e x end.

Lemma rg_steps {E A} F P (p : proc E A) Q tr p' :
  wp (rg F P) p Q tt → steps p tr p' → Forall (ans_sat F) tr → Forall (ev_sat P) tr.
Proof.
  intros Hwp Hs. induction Hs as [p|X e k x tr p' Hs IH]; intros HF; [constructor|].
  destruct Hwp as [Hpre Hk]. inversion HF as [|o l Ho Hl]; subst.
  constructor; [exact Hpre|]. apply IH; [by apply (Hk x tt)|done].
Qed.

(** ** Running a program against a concrete environment *)

(** A handler answers a call, or has no answer: the call panics or blocks. *)
Definition handler (E : Type → Type) (W : Type) : Type :=
  ∀ X, E X → W → option (X * W).

Fixpoint run {E W A} (h : handler E W) (p : proc E A) (w : W) : option (A * W) :=
  match p with
  | Ret a => Some (a, w)
  | Vis e k => match h _ e w with
               | Some (x, w') => run h (k x) w'
               | None => None
               end
  end.

(** [h] meets [Σ]: an allowed call is answered, as the law says. *)
Definition implements {E W} (h : handler E W) (Σ : espec E W) : Prop :=
  ∀ X (e : E X) w, es_pre Σ e w → ∃ x w', h X e w = Some (x, w') ∧ es_post Σ e w x w'.

Lemma wp_run {E W A} (h : handler E W) Σ (p : proc E A) Q w :
  implements h Σ → wp Σ p Q w → ∃ a w', run h p w = Some (a, w') ∧ Q a w'.
Proof.
  intros Hh. revert w. induction p as [a|X e k IH]; simpl; intros w Hwp; [by eauto|].
  destruct Hwp as [Hpre Hk]. destruct (Hh _ e w Hpre) as (x & w' & -> & Hpost). eauto.
Qed.

(** The same, recording the calls. *)
Fixpoint trace {E W A} (h : handler E W) (p : proc E A) (w : W)
    : option (list (event E) * A * W) :=
  match p with
  | Ret a => Some ([], a, w)
  | Vis e k => match h _ e w with
               | Some (x, w') => '(tr, a, w'') ← trace h (k x) w'; Some (Ev e x :: tr, a, w'')
               | None => None
               end
  end.

Lemma trace_runs {E W A} (h : handler E W) (p : proc E A) w tr a w' :
  trace h p w = Some (tr, a, w') → runs p tr a.
Proof.
  revert w tr. induction p as [a'|X e k IH]; intros w tr H; simplify_eq/=; [constructor|].
  destruct (h X e w) as [[x w1]|]; [|done].
  destruct (trace h (k x) w1) as [[[tr' a1] w2]|] eqn:Ht; simplify_eq/=.
  constructor. by eapply IH.
Qed.

(** ** Programs with in-memory state

    [M S E A] threads the process's own memory [S] through its calls. *)

Definition M (S : Type) (E : Type → Type) (A : Type) : Type := S → proc E (A * S).

#[export] Instance M_mret S E : MRet (M S E) := λ A a s, Ret (a, s).
#[export] Instance M_mbind S E : MBind (M S E) := λ A B f m s, m s ≫= λ '(a, s'), f a s'.

Definition gets {S E A} (f : S → A) : M S E A := λ s, Ret (f s, s).
Definition modify {S E} (f : S → S) : M S E unit := λ s, Ret (tt, f s).
Definition call {S E X} (e : E X) : M S E X := λ s, Vis e (λ x, Ret (x, s)).
Definition lift {S E A} (p : proc E A) : M S E A := λ s, p ≫= λ a, Ret (a, s).

Definition wpM {S E W A} (Σ : espec E W) (m : M S E A) (Q : A → S → W → Prop)
    (s : S) (w : W) : Prop :=
  wp Σ (m s) (λ '(a, s') w', Q a s' w') w.

Section wpM.
Context {S : Type} {E : Type → Type} {W : Type} (Σ : espec E W).

Lemma wpM_ret {A} (a : A) Q (s : S) w : wpM Σ (mret a : M S E A) Q s w ↔ Q a s w.
Proof. done. Qed.

Lemma wpM_bind {A B} (m : M S E A) (f : A → M S E B) Q s w :
  wpM Σ (m ≫= f) Q s w ↔ wpM Σ m (λ a, wpM Σ (f a) Q) s w.
Proof.
  unfold wpM, mbind, M_mbind. rewrite wp_bind.
  split; intros H; (eapply wp_mono; [exact H|]); intros [a s'] w' HQ; exact HQ.
Qed.

Lemma wpM_gets {A} (f : S → A) Q s w : wpM Σ (gets f) Q s w ↔ Q (f s) s w.
Proof. done. Qed.

Lemma wpM_modify (f : S → S) Q s w : wpM Σ (modify f) Q s w ↔ Q tt (f s) w.
Proof. done. Qed.

Lemma wpM_call {X} (e : E X) Q (s : S) w :
  wpM Σ (call e : M S E X) Q s w ↔
  es_pre Σ e w ∧ ∀ x w', es_post Σ e w x w' → Q x s w'.
Proof. done. Qed.

Lemma wpM_lift {A} (p : proc E A) Q (s : S) w :
  wpM Σ (lift p : M S E A) Q s w ↔ wp Σ p (λ a w', Q a s w') w.
Proof. unfold wpM, lift. by rewrite wp_bind. Qed.

Lemma wpM_mono {A} (m : M S E A) (Q Q' : A → S → W → Prop) s w :
  wpM Σ m Q s w → (∀ a s' w', Q a s' w' → Q' a s' w') → wpM Σ m Q' s w.
Proof. intros H HQ. eapply wp_mono; [exact H|]. intros [a s'] w'. apply HQ. Qed.
End wpM.

(** A specification against an arbitrary environment holds of every trace. *)
Lemma wpM_trace {S E A} (m : M S E A) (Q : A → S → list (event E) → Prop) s tr a s' :
  wpM (proto anything) m Q s [] → runs (m s) tr (a, s') → Q a s' tr.
Proof. intros Hwp Hr. exact (wp_trace _ _ _ _ Hwp Hr). Qed.

Lemma wpM_grows {S E A} P (m : M S E A) (Q : A → S → list (event E) → Prop) s h :
  wpM (proto P) m Q s h → wpM (proto P) m (λ a s' h', Q a s' h' ∧ h `prefix_of` h') s h.
Proof. intros H%wp_grows. eapply wp_mono; [exact H|]. by intros [a s'] h'. Qed.

Create Rewrite HintDb wp.
#[export] Hint Rewrite @wpM_ret @wpM_bind @wpM_gets @wpM_modify @wpM_call @wpM_lift : wp.

(** One step of a [wpM] goal: a bind, a pure operation or an external call. *)
Ltac wp_step :=
  first
    [ progress autorewrite with wp
    | match goal with
      | |- _ ∧ _ => split
      | |- ∀ _, _ => intros ?
      end
    | progress simpl ].

(** The same for programs with memory. *)
Definition callsM {S E A} (F : ∀ X, E X → Prop) (m : M S E A) : Prop := ∀ s, calls F (m s).

Section callsM.
Context {S : Type} {E : Type → Type} (F : ∀ X, E X → Prop).

Lemma callsM_bind {A B} (m : M S E A) (f : A → M S E B) :
  callsM F m → (∀ a, callsM F (f a)) → callsM F (m ≫= f).
Proof. intros Hm Hf s. apply calls_bind; [apply Hm|]. intros [a s']. apply Hf. Qed.

Lemma callsM_ret {A} (a : A) : callsM F (mret a : M S E A).
Proof. done. Qed.

Lemma callsM_gets {A} (f : S → A) : callsM F (gets f : M S E A).
Proof. done. Qed.

Lemma callsM_modify (f : S → S) : callsM F (modify f : M S E unit).
Proof. done. Qed.

Lemma callsM_call {X} (e : E X) : F X e → callsM F (call e : M S E X).
Proof. intros He s. by split. Qed.

Lemma callsM_wp {A} P (m : M S E A) (Q : A → S → list (event E) → Prop) s h :
  callsM F m → (∀ X h e, F X e → P X h e) →
  (∀ a s' tr, Forall (ev_sat F) tr → Q a s' (h ++ tr)) → wpM (proto P) m Q s h.
Proof. intros Hm HP HQ. eapply calls_wp; [apply Hm|done|]. intros [a s'] tr. apply HQ. Qed.

Lemma callsM_inv {W A} (Σ : espec E W) (I : W → Prop) (m : M S E A) (Q : A → S → W → Prop) s w :
  callsM F m →
  (∀ X e w, F X e → I w → es_pre Σ e w ∧ ∀ x w', es_post Σ e w x w' → I w') →
  I w → (∀ a s' w', I w' → Q a s' w') → wpM Σ m Q s w.
Proof. intros Hm HI Hw HQ. eapply calls_inv; [apply Hm|exact HI|done|]. intros [a s']. apply HQ. Qed.

(** The same against any environment whose calls in [F] are always allowed. *)
Lemma callsM_any {W A} (Σ : espec E W) (m : M S E A) (Q : A → S → W → Prop) s w :
  callsM F m → (∀ X e w, F X e → es_pre Σ e w) → (∀ a s' w', Q a s' w') → wpM Σ m Q s w.
Proof.
  intros Hm HP HQ. specialize (Hm s). unfold wpM. revert w.
  induction (m s) as [[a s']|X e k IH]; intros w; simpl; [apply HQ|].
  destruct Hm as [He Hk]. split; [by apply HP|]. intros x w' _. apply IH, Hk.
Qed.
End callsM.

Lemma callsM_impl {S E A} (F G : ∀ X, E X → Prop) (m : M S E A) :
  (∀ X e, F X e → G X e) → callsM F m → callsM G m.
Proof. intros HFG Hm s. by eapply calls_impl. Qed.

Create HintDb calls.
#[export] Hint Resolve callsM_ret callsM_gets callsM_modify : calls.

(** Walk through a program: binds, branches and calls. *)
Ltac solve_calls :=
  repeat first
    [ solve [eauto with calls]
    | apply callsM_bind; [|intros ?]
    | apply callsM_call; exact I
    | match goal with |- ∀ _, _ => intros ? end
    | progress simpl
    | case_match ].

(** The same for programs without memory of their own. *)
Create HintDb pcalls.
#[export] Hint Resolve calls_ret : pcalls.

Ltac solve_pcalls :=
  repeat first
    [ solve [eauto with pcalls]
    | match goal with |- True ∧ _ => split; [exact I|] end
    | apply calls_bind; [|intros ?]
    | apply calls_trigger; exact I
    | match goal with |- ∀ _, _ => intros ? end
    | progress cbv beta iota zeta
    | case_match ].

#[global] Typeclasses Opaque M.
