(* ===== verification/GoStd.v ===== *)
(** * The parts of Go's standard library the program computes with

    UTF-8 decoding, decimal and hexadecimal formatting, [net.IP] (printing,
    [ParseIP], [To4], [IsUnspecified]) and [net.HardwareAddr] ([ParseMAC],
    [String]).  Each definition follows the documented algorithm of the
    library ([net], [net/netip], [unicode/utf8], [fmt]). *)

From S2P Require Import Prelude.

Local Open Scope Z_scope.

(** ** Runes

    [rune_chunks l]: the code points a [for range] loop over the string [l]
    yields, each with its bytes; [runes] drops the bytes.  A byte that starts
    no well-formed sequence yields U+FFFD and is skipped. *)

Definition RuneError : Z := 65533.

Definition inr (lo hi : Z) (c : ascii) : bool := (lo <=? code c) && (code c <=? hi).

Fixpoint rune_chunks (l : list ascii) : list (Z * list ascii) :=
  match l with
  | [] => []
  | a :: l1 =>
    if code a <? 128 then (code a, [a]) :: rune_chunks l1 else
    match l1 with
    | [] => (RuneError, [a]) :: rune_chunks l1
    | b :: l2 =>
      if inr 194 223 a && inr 128 191 b
      then ((code a - 192) * 64 + (code b - 128), [a; b]) :: rune_chunks l2 else
      match l2 with
      | [] => (RuneError, [a]) :: rune_chunks l1
      | c :: l3 =>
        if (inr 224 224 a && inr 160 191 b || inr 225 236 a && inr 128 191 b
            || inr 237 237 a && inr 128 159 b || inr 238 239 a && inr 128 191 b)
           && inr 128 191 c
        then ((code a - 224) * 4096 + (code b - 128) * 64 + (code c - 128), [a; b; c])
             :: rune_chunks l3 else
        match l3 with
        | [] => (RuneError, [a]) :: rune_chunks l1
        | d :: l4 =>
          if (inr 240 240 a && inr 144 191 b || inr 241 243 a && inr 128 191 b
              || inr 244 244 a && inr 128 143 b) && inr 128 191 c && inr 128 191 d
          then ((code a - 240) * 262144 + (code b - 128) * 4096
                + (code c - 128) * 64 + (code d - 128), [a; b; c; d]) :: rune_chunks l4
          else (RuneError, [a]) :: rune_chunks l1
        end
      end
    end
  end.

Definition runes (l : list ascii) : list Z := map fst (rune_chunks l).

(** [unicode.ToLower] on ASCII; [tbl] is the case table beyond ASCII. *)
Definition ToLower (tbl : Z → Z) (r : Z) : Z :=
  if r <? 128 then (if (65 <=? r) && (r <=? 90) then r + 32 else r) else tbl r.

(** [unicode.IsSpace]. *)
Definition IsSpace (r : Z) : bool :=
  ((9 <=? r) && (r <=? 13)) || existsb (Z.eqb r)
    [32; 133; 160; 5760; 8232; 8233; 8239; 8287; 12288]
  || ((8192 <=? r) && (r <=? 8202)).

(** [strings.Fields]: the maximal runs of bytes between white space. *)
Fixpoint fields_from (l : list (Z * list ascii)) (cur : list ascii) : list (list ascii) :=
  match l with
  | [] => match cur with [] => [] | _ => [cur] end
  | (r, b) :: l' =>
    if IsSpace r then match cur with [] => fields_from l' [] | _ => cur :: fields_from l' [] end
    else fields_from l' (cur ++ b)
  end.

Definition Fields (s : string) : list string :=
  map unbytes (fields_from (rune_chunks (bytes s)) []).

Fixpoint drop_spaces (l : list (Z * list ascii)) : list (Z * list ascii) :=
  match l with
  | (r, b) :: l' => if IsSpace r then drop_spaces l' else l
  | [] => []
  end.

(** [strings.TrimSpace]. *)
Definition TrimSpace (s : string) : string :=
  let l := rev (drop_spaces (rev (drop_spaces (rune_chunks (bytes s))))) in
  unbytes (l ≫= snd).

Fixpoint is_prefix (p l : list ascii) : bool :=
  match p, l with
  | [], _ => true
  | a :: p', b :: l' => bool_decide (a = b) && is_prefix p' l'
  | _ :: _, [] => false
  end.

Fixpoint contains (p l : list ascii) : bool :=
  is_prefix p l || match l with [] => false | _ :: l' => contains p l' end.

(** [strings.Contains]. *)
Definition Contains (s sub : string) : bool := contains (bytes sub) (bytes s).

(** ** Hexadecimal digits *)

Definition hexdigit (z : Z) : ascii :=
  if z <? 10 then chr (48 + z) else chr (87 + z).

(** The value of a hexadecimal digit of either case. *)
Definition hexval (c : ascii) : option Z :=
  if inr 48 57 c then Some (code c - 48)
  else if inr 97 102 c then Some (code c - 87)
  else if inr 65 70 c then Some (code c - 55)
  else None.

(** [fmt]'s [%02x] of a byte. *)
Definition fmt_02x (b : Z) : list ascii := [hexdigit (b / 16); hexdigit (b mod 16)].

(** Lowercase hexadecimal without leading zeros ([fmt]'s [%x]) of a 64-bit
    value: sixteen digits are enough. *)
Fixpoint hex_digits (fuel : nat) (z : Z) (acc : list ascii) : list ascii :=
  match fuel with
  | O => acc
  | S fuel => let acc' := hexdigit (z mod 16) :: acc in
              if z <? 16 then acc' else hex_digits fuel (z / 16) acc'
  end.

Definition fmt_x (z : Z) : string := unbytes (hex_digits 16 z []).

(** ** [time.Duration.String]

    [frac u prec]: the last [prec] decimal digits of [u] as a fraction without
    trailing zeros (empty when they are all zero). *)
Fixpoint frac_digits (prec : nat) (u : Z) (print : bool) (acc : string) : string * bool :=
  match prec with
  | O => (acc, print)
  | S prec => let d := u mod 10 in
              let print' := print || negb (d =? 0) in
              frac_digits prec (u / 10) print' (if print' then pretty d +:+ acc else acc)
  end.

Definition fmtFrac (u : Z) (prec : nat) : string :=
  let '(s, p) := frac_digits prec u false "" in if p then "." +:+ s else "".

Definition Duration_String (d : Z) : string :=
  let u := Z.abs d in
  let body :=
    if u <? 1000000000 then
      if u =? 0 then "0s"
      else if u <? 1000 then pretty u +:+ "ns"
      else if u <? 1000000 then
        pretty (u / 1000) +:+ fmtFrac u 3 +:+ unbytes [chr 194; chr 181] +:+ "s"
      else pretty (u / 1000000) +:+ fmtFrac u 6 +:+ "ms"
    else
      let secs := u / 1000000000 in
      let mins := secs / 60 in
      let hours := mins / 60 in
      (if 0 <? hours then pretty hours +:+ "h" else "")
      +:+ (if 0 <? mins then pretty (mins mod 60) +:+ "m" else "")
      +:+ pretty (secs mod 60) +:+ fmtFrac u 9 +:+ "s" in
  if d <? 0 then "-" +:+ body else body.

(** ** IP addresses

    [net.IP] is a byte slice: the empty list is [nil]. *)

Definition IP := list Z.

Definition v4InV6Prefix : list Z := [0;0;0;0;0;0;0;0;0;0;255;255].

Definition To4 (ip : IP) : IP :=
  if decide (length ip = 4%nat) then ip
  else if decide (length ip = 16%nat ∧ take 12 ip = v4InV6Prefix) then drop 12 ip
  else [].

Definition IP_Equal (ip x : IP) : bool :=
  if decide (length ip = length x) then bool_decide (ip = x)
  else if decide (length ip = 4%nat ∧ length x = 16%nat) then
    bool_decide (take 12 x = v4InV6Prefix ∧ ip = drop 12 x)
  else if decide (length ip = 16%nat ∧ length x = 4%nat) then
    bool_decide (take 12 ip = v4InV6Prefix ∧ drop 12 ip = x)
  else false.

Definition IPv4zero : IP := v4InV6Prefix ++ [0;0;0;0].
Definition IPv6unspecified : IP := replicate 16 0.

Definition IsUnspecified (ip : IP) : bool :=
  IP_Equal ip IPv4zero || IP_Equal ip IPv6unspecified.

(** *** Parsing *)

Fixpoint parseIPv4Fields (s : list ascii) (prev : option ascii)
    (val digLen : Z) (fields : list Z) : option (list Z) :=
  match s with
  | [] => if decide (length fields < 3)%nat then None else Some (fields ++ [val])
  | c :: s' =>
    if inr 48 57 c then
      if (digLen =? 1) && (val =? 0) then None else
      let val' := val * 10 + (code c - 48) in
      if 255 <? val' then None else parseIPv4Fields s' (Some c) val' (digLen + 1) fields
    else if code c =? 46 then
      if match prev with None => true | Some p => code p =? 46 end
         || match s' with [] => true | _ => false end then None
      else if decide (length fields = 3%nat) then None
      else parseIPv4Fields s' (Some c) 0 0 (fields ++ [val])
    else None
  end.

Definition parseIPv4 (s : list ascii) : option (list Z) := parseIPv4Fields s None 0 0 [].

(** The leading hexadecimal digits of [s], at most four. *)
Fixpoint hex_group (s : list ascii) (off acc : Z) : option (Z * Z * list ascii) :=
  match s with
  | c :: s' =>
    match hexval c with
    | Some d => let acc' := acc * 16 + d in
                if (3 <? off) || (65535 <? acc') then None else hex_group s' (off + 1) acc'
    | None => Some (off, acc, s)
    end
  | [] => Some (off, acc, s)
  end.

(** The group loop of [parseIPv6]: [fuel] is the number of 16-bit groups left. *)
Fixpoint parseIPv6_groups (fuel : nat) (s : list ascii) (ip : list Z) (ellipsis : option nat)
    : option (list ascii * list Z * option nat) :=
  match fuel with
  | O => Some (s, ip, ellipsis)
  | S fuel =>
    match hex_group s 0 0 with
    | None => None
    | Some (off, acc, rest) =>
      if off =? 0 then None else
      match rest with
      | [] => Some ([], ip ++ [acc / 256; acc mod 256], ellipsis)
      | c :: rest' =>
        if code c =? 46 then
          if decide (ellipsis = None ∧ length ip ≠ 12%nat) then None
          else if decide (16 < length ip + 4)%nat then None
          else match parseIPv4 s with
               | None => None
               | Some f => Some ([], ip ++ f, ellipsis)
               end
        else if negb (code c =? 58) then None
        else
          let ip' := ip ++ [acc / 256; acc mod 256] in
          match rest' with
          | [] => None
          | c2 :: rest'' =>
            if code c2 =? 58 then
              match ellipsis, rest'' with
              | Some _, _ => None
              | None, [] => Some ([], ip', Some (length ip'))
              | None, _ => parseIPv6_groups fuel rest'' ip' (Some (length ip'))
              end
            else parseIPv6_groups fuel rest' ip' ellipsis
          end
      end
    end
  end.

(** [parseIPv6] of a string without a zone. *)
Definition parseIPv6 (s : list ascii) : option (list Z) :=
  let '(ell, s1) := match s with
                    | c1 :: c2 :: s' => if (code c1 =? 58) && (code c2 =? 58)
                                        then (Some 0%nat, s') else (None, s)
                    | _ => (None, s)
                    end in
  if decide (ell = Some 0%nat ∧ s1 = []) then Some IPv6unspecified else
  match parseIPv6_groups 8 s1 [] ell with
  | Some ([], ip, ell') =>
    if decide (length ip < 16)%nat then
      match ell' with
      | None => None
      | Some e => Some (take e ip ++ replicate (16 - length ip) 0 ++ drop e ip)
      end
    else match ell' with None => Some ip | Some _ => None end
  | _ => None
  end.

(** The scan of [netip.ParseAddr] for the first of ['.'], [':'], ['%']. *)
Fixpoint addr_kind (s : list ascii) : option ascii :=
  match s with
  | [] => None
  | c :: s' => if (code c =? 46) || (code c =? 58) || (code c =? 37) then Some c
               else addr_kind s'
  end.

(** [net.ParseIP]: [None] is [nil]; an address with a zone is refused. *)
Definition ParseIP (str : string) : option IP :=
  let s := bytes str in
  match addr_kind s with
  | None => None
  | Some k =>
    if code k =? 46 then (λ f, v4InV6Prefix ++ f) <$> parseIPv4 s
    else if code k =? 58 then
      if existsb (λ c, code c =? 37) s then None else parseIPv6 s
    else None
  end.

(** *** Printing *)

(** [netip]'s decimal form of a byte. *)
Definition appendDecimal (x : Z) : list ascii :=
  (if 100 <=? x then [chr (48 + x / 100)] else [])
  ++ (if 10 <=? x then [chr (48 + x / 10 mod 10)] else [])
  ++ [chr (48 + x mod 10)].

Definition dot : ascii := chr 46.
Definition colon : ascii := chr 58.

Definition string4 (f : list Z) : list ascii :=
  match f with
  | [a; b; c; d] => appendDecimal a ++ dot :: appendDecimal b
                    ++ dot :: appendDecimal c ++ dot :: appendDecimal d
  | _ => []
  end.

(** A 16-bit group without leading zeros. *)
Definition appendHex (x : Z) : list ascii :=
  (if 4096 <=? x then [hexdigit (x / 4096)] else [])
  ++ (if 256 <=? x then [hexdigit (x / 256 mod 16)] else [])
  ++ (if 16 <=? x then [hexdigit (x / 16 mod 16)] else [])
  ++ [hexdigit (x mod 16)].

Fixpoint groups16 (ip : list Z) : list Z :=
  match ip with
  | a :: b :: ip' => (a * 256 + b) :: groups16 ip'
  | _ => []
  end.

(** The length of the run of zero groups at the front. *)
Fixpoint zero_run (g : list Z) : nat :=
  match g with
  | 0 :: g' => S (zero_run g')
  | _ => 0%nat
  end.

(** The first longest run of two or more zero groups: its start and end. *)
Fixpoint longest_zeros (i : nat) (g : list Z) (best : option (nat * nat)) : option (nat * nat) :=
  match g with
  | [] => best
  | _ :: g' =>
    let l := zero_run g in
    let best' := if decide (2 ≤ l ∧ match best with None => 0 | Some (s, e) => e - s end < l)%nat
                 then Some (i, (i + l)%nat) else best in
    longest_zeros (S i) g' best'
  end.

Fixpoint print_groups (g : list Z) (first : bool) : list ascii :=
  match g with
  | [] => []
  | x :: g' => (if first then [] else [colon]) ++ appendHex x ++ print_groups g' false
  end.

Definition string6 (ip : list Z) : list ascii :=
  let g := groups16 ip in
  match longest_zeros 0 g None with
  | None => print_groups g true
  | Some (s, e) => print_groups (take s g) true ++ [colon; colon] ++ print_groups (drop e g) true
  end.

Definition hexString (b : list Z) : list ascii := b ≫= fmt_02x.

(** [net.IP.String]. *)
Definition IP_String (ip : IP) : string :=
  if decide (length ip = 0%nat) then "<nil>"
  else if decide (length ip ≠ 4%nat ∧ length ip ≠ 16%nat) then
    unbytes (chr 63 :: hexString ip)
  else if decide (length (To4 ip) = 4%nat) then unbytes (string4 (To4 ip))
  else unbytes (string6 ip).

(** ** Hardware addresses *)

Definition HardwareAddr := list Z.

Definition HardwareAddr_String (a : HardwareAddr) : string :=
  match a with
  | [] => ""
  | b :: a' => unbytes (fmt_02x b ++ (a' ≫= λ x, colon :: fmt_02x x))
  end.

(** Two hexadecimal digits; a third byte, if there is one, must be [e]. *)
Definition xtoi2 (s : list ascii) (e : Z) : option Z :=
  match s with
  | a :: b :: rest =>
    if match rest with [] => false | c :: _ => negb (code c =? e) end then None
    else match hexval a, hexval b with
         | Some x, Some y => Some (x * 16 + y)
         | _, _ => None
         end
  | _ => None
  end.

Fixpoint mac_octets (n : nat) (s : list ascii) (sep : Z) : option (list Z) :=
  match n with
  | O => Some []
  | S n => b ← xtoi2 s sep; l ← mac_octets n (drop 3 s) sep; Some (b :: l)
  end.

Fixpoint mac_pairs (n : nat) (s : list ascii) : option (list Z) :=
  match n with
  | O => Some []
  | S n => a ← xtoi2 (take 2 s) 0; b ← xtoi2 (drop 2 s) 46;
           l ← mac_pairs n (drop 5 s); Some (a :: b :: l)
  end.

(** The lengths of an EUI-48, an EUI-64 and an InfiniBand address. *)
Definition mac_len (n : nat) : Prop := n = 6%nat ∨ n = 8%nat ∨ n = 20%nat.
#[export] Instance mac_len_dec n : Decision (mac_len n).
Proof. unfold mac_len. apply _. Defined.

Definition ParseMAC (str : string) : option HardwareAddr :=
  let s := bytes str in
  let len := length s in
  if decide (len < 14)%nat then None else
  match s !! 2%nat with
  | Some c2 =>
    if (code c2 =? 58) || (code c2 =? 45) then
      if decide ((len + 1) `mod` 3 ≠ 0)%nat then None
      else let n := ((len + 1) / 3)%nat in
           if decide (mac_len n) then mac_octets n s (code c2) else None
    else match s !! 4%nat with
         | Some c4 =>
           if code c4 =? 46 then
             if decide ((len + 1) `mod` 5 ≠ 0)%nat then None
             else let n := (2 * (len + 1) / 5)%nat in
                  if decide (mac_len n) then mac_pairs (n / 2) s else None
           else None
         | None => None
         end
  | None => None
  end.

(** ** Round trips *)

Definition is_byte (b : Z) : Prop := 0 ≤ b < 256.

Lemma hexval_hexdigit z : 0 ≤ z < 16 → hexval (hexdigit z) = Some z.
Proof. apply (forall_rangeb 16 (λ z, hexval (hexdigit z) = Some z)). by vm_compute. Qed.

(** Two lowercase hexadecimal digits read back as the byte, whatever follows
    as long as it starts with the separator. *)
Lemma xtoi2_fmt b rest sep :
  is_byte b → match rest with [] => True | c :: _ => code c = sep end →
  xtoi2 (fmt_02x b ++ rest) sep = Some b.
Proof.
  intros Hb Hrest. unfold is_byte in Hb. simpl.
  rewrite !hexval_hexdigit by (try apply Z.mod_pos_bound; lia || (split; [apply Z.div_pos; lia|apply Z.div_lt_upper_bound; lia])).
  destruct rest as [|c rest].
  - f_equal. pose proof (Z.div_mod b 16). lia.
  - rewrite Hrest, Z.eqb_refl. simpl. f_equal. pose proof (Z.div_mod b 16). lia.
Qed.

(** The decimal form of a byte, read from the start of a field. *)
Lemma parse_octet b rest prev fields :
  is_byte b →
  ∃ c n, parseIPv4Fields (appendDecimal b ++ rest) prev 0 0 fields
         = parseIPv4Fields rest (Some c) b n fields ∧ code c ≠ 46.
Proof.
  intros Hb. revert b Hb. apply (forall_range 256 (λ b, ∃ c n,
    parseIPv4Fields (appendDecimal b ++ rest) prev 0 0 fields
    = parseIPv4Fields rest (Some c) b n fields ∧ code c ≠ 46)).
  cbv [seqZ seq fmap list_fmap]; simpl. repeat constructor; (eexists _, _; split; [reflexivity|by vm_compute]).
Qed.

Lemma appendDecimal_kind b rest :
  is_byte b → addr_kind (appendDecimal b ++ rest) = addr_kind rest.
Proof.
  revert b. apply (forall_range 256 (λ b, addr_kind (appendDecimal b ++ rest) = addr_kind rest)).
  cbv [seqZ seq fmap list_fmap]; simpl. repeat constructor; reflexivity.
Qed.

Lemma appendDecimal_nonempty b rest : ∃ c l, appendDecimal b ++ rest = c :: l.
Proof. unfold appendDecimal. destruct (100 <=? b), (10 <=? b); by eexists _, _. Qed.

(** A dot that ends a field of an address with fewer than four fields. *)
Lemma parse_dot c rest c' val n fields :
  code c ≠ 46 → (length fields < 3)%nat →
  parseIPv4Fields (dot :: c' :: rest) (Some c) val n fields
  = parseIPv4Fields (c' :: rest) (Some dot) 0 0 (fields ++ [val]).
Proof.
  intros Hc Hl. change (code dot) with 46. simpl.
  rewrite (proj2 (Z.eqb_neq _ _) Hc). simpl.
  destruct (decide (length fields = 3%nat)); [lia|done].
Qed.

Lemma parseIPv4_string4 a b c d :
  is_byte a → is_byte b → is_byte c → is_byte d →
  parseIPv4 (string4 [a; b; c; d]) = Some [a; b; c; d].
Proof.
  intros Ha Hb Hc Hd. unfold parseIPv4, string4.
  destruct (parse_octet a (dot :: appendDecimal b ++ dot :: appendDecimal c ++ dot :: appendDecimal d)
              None [] Ha) as (x1 & n1 & -> & H1).
  destruct (appendDecimal_nonempty b (dot :: appendDecimal c ++ dot :: appendDecimal d))
    as (y & l & E). rewrite E, parse_dot, <-E by (simpl; lia). clear y l E.
  destruct (parse_octet b (dot :: appendDecimal c ++ dot :: appendDecimal d)
              (Some dot) ([] ++ [a]) Hb) as (x2 & n2 & -> & H2).
  destruct (appendDecimal_nonempty c (dot :: appendDecimal d))
    as (y & l & E). rewrite E, parse_dot, <-E by (simpl; lia). clear y l E.
  destruct (parse_octet c (dot :: appendDecimal d)
              (Some dot) (([] ++ [a]) ++ [b]) Hc) as (x3 & n3 & -> & H3).
  destruct (appendDecimal_nonempty d []) as (y & l & E). rewrite app_nil_r in E.
  rewrite E, parse_dot, <-E by (simpl; lia).
  destruct (parse_octet d [] (Some dot) ((([] ++ [a]) ++ [b]) ++ [c]) Hd) as (x4 & n4 & E4 & H4).
  rewrite app_nil_r in E4. by rewrite E4.
Qed.

(** Every IPv4 address, in its 4-byte or its 16-byte form, is read back from
    its printed form (in 16-byte form, the one [ParseIP] produces). *)
Lemma ParseIP_String ip :
  Forall is_byte ip → length (To4 ip) = 4%nat →
  ParseIP (IP_String ip) = Some (v4InV6Prefix ++ To4 ip).
Proof.
  intros Hip H4. unfold IP_String.
  assert (Forall is_byte (To4 ip)) as HF.
  { unfold To4. repeat case_decide; [done|by apply Forall_drop|done]. }
  assert (length ip = 4%nat ∨ length ip = 16%nat) as Hlen.
  { unfold To4 in H4. repeat case_decide; naive_solver lia. }
  destruct (decide (length ip = 0%nat)); [lia|].
  destruct (decide (length ip ≠ 4%nat ∧ length ip ≠ 16%nat)); [lia|].
  destruct (decide (length (To4 ip) = 4%nat)); [|done].
  destruct (To4 ip) as [|a [|b [|c [|d []]]]]; try done.
  rewrite !Forall_cons in HF. destruct HF as (Ha & Hb & Hc & Hd & _).
  unfold ParseIP. rewrite bytes_unbytes, parseIPv4_string4 by done.
  unfold string4. by rewrite appendDecimal_kind.
Qed.

(** *** Hardware addresses *)

Lemma mac_octets_fmt (l : list Z) :
  Forall is_byte l →
  mac_octets (length l) (match l with [] => [] | b :: a => fmt_02x b ++ (a ≫= λ x, colon :: fmt_02x x) end) 58
  = Some l.
Proof.
  induction l as [|b l IH]; intros Hl; [done|].
  inversion Hl as [|? ? Hb Hl']; subst. specialize (IH Hl').
  assert (mac_octets (length (b :: l)) (fmt_02x b ++ (l ≫= λ x, colon :: fmt_02x x)) 58
          = l' ← mac_octets (length l) (drop 3 (fmt_02x b ++ (l ≫= λ x, colon :: fmt_02x x))) 58;
            Some (b :: l')) as ->.
  { cbn [mac_octets length]. rewrite xtoi2_fmt; [done..|]. by destruct l. }
  destruct l as [|c l]; [done|].
  change (drop 3 _) with (fmt_02x c ++ (l ≫= λ x, colon :: fmt_02x x)).
  by rewrite IH.
Qed.

Lemma length_mac_string (b : Z) (l : list Z) :
  length (fmt_02x b ++ (l ≫= λ x, colon :: fmt_02x x)) = (2 + 3 * length l)%nat.
Proof.
  induction l as [|c l IH]; [done|].
  rewrite length_app in *. rewrite bind_cons, length_app. simpl in *. lia.
Qed.

(** An EUI-48, EUI-64 or InfiniBand address is read back from its printed
    form. *)
Lemma ParseMAC_String a :
  Forall is_byte a → mac_len (length a) → ParseMAC (HardwareAddr_String a) = Some a.
Proof.
  intros Ha Hlen. destruct a as [|b a]; [destruct Hlen as [|[|]]; done|].
  unfold HardwareAddr_String, ParseMAC. rewrite bytes_unbytes, length_mac_string.
  simpl in Hlen. destruct (decide _) as [?|_]; [destruct Hlen; simpl in *; lia|].
  destruct a as [|c a]; [destruct Hlen as [|[|]]; done|].
  change ((fmt_02x b ++ ((c :: a) ≫= λ x, colon :: fmt_02x x)) !! 2%nat) with (Some colon).
  cbn [orb]. change (code colon =? 58) with true. cbn [orb].
  replace (2 + 3 * length (c :: a) + 1)%nat with (length (b :: c :: a) * 3)%nat by (simpl; lia).
  rewrite Nat.Div0.mod_mul, Nat.div_mul by done.
  rewrite decide_False by lia. rewrite decide_True by done.
  apply (mac_octets_fmt (b :: c :: a)), Ha.
Qed.
