(* ===== verification/Helpers.v ===== *)
(** * Pure helpers of the controller

    [sanitizeName], [generateUniqueMAC] and [coalesceInt] of
    internal/controller/publicipclaim_controller.go, with the schema patterns
    of api/v1alpha1 their results have to match. *)

From S2P Require Import Prelude GoStd.

Local Open Scope Z_scope.

(** The mapping function [sanitizeName] hands to [strings.Map]. *)
Definition sanitize_rune (r : Z) : Z :=
  if ((97 <=? r) && (r <=? 122)) || ((48 <=? r) && (r <=? 57)) || (r =? 45)
  then r else 45.

(** [strings.Map(f, strings.ToLower(name))], cut to its first ten bytes.  The
    mapped runes are ASCII, one byte each. *)
Definition sanitizeName (tbl : Z → Z) (name : string) : string :=
  let sanitized := map (λ r, chr (sanitize_rune (ToLower tbl r))) (runes (bytes name)) in
  unbytes (if decide (10 < length sanitized)%nat then take 10 sanitized else sanitized).

(** The five random bytes are [buf]; [fmt.Sprintf("02:%02x:...")]. *)
Definition generateUniqueMAC (buf : list Z) : string :=
  unbytes ([chr 48; chr 50] ++ (buf ≫= λ b, colon :: fmt_02x b)).

Definition coalesceInt (a b : Z) : Z := if a =? 0 then b else a.

(** The name given to a claim's interface when the spec names none. *)
Definition default_wan_interface (tbl : Z → Z) (name : string) : string :=
  "wan-" +:+ sanitizeName tbl name.

(** ** Schema patterns *)

(** A character of [^[a-z0-9-]+$], the pattern of [spec.router.wanInterface]. *)
Definition ifname_char (c : ascii) : bool :=
  inr 97 122 c || inr 48 57 c || (code c =? 45).

(** [+kubebuilder:validation:MaxLength=15] and the pattern. *)
Definition valid_wan_interface (s : string) : bool :=
  match bytes s with
  | [] => false
  | l => forallb ifname_char l && bool_decide (length l ≤ 15)%nat
  end.

Definition hex_char (c : ascii) : bool := inr 48 57 c || inr 65 70 c || inr 97 102 c.

(** [^([0-9A-Fa-f]{2}:){5}[0-9A-Fa-f]{2}$], the pattern of
    [spec.router.macAddress]: [n] more octets follow the first. *)
Fixpoint mac_pattern (n : nat) (l : list ascii) : bool :=
  match n, l with
  | O, [a; b] => hex_char a && hex_char b
  | S n, a :: b :: c :: l => hex_char a && hex_char b && (code c =? 58) && mac_pattern n l
  | _, _ => false
  end.

Definition valid_mac_address (s : string) : bool := mac_pattern 5 (bytes s).

(** ** Interface names *)

Lemma sanitize_rune_range r :
  let z := sanitize_rune r in (97 ≤ z ≤ 122 ∨ 48 ≤ z ≤ 57 ∨ z = 45) ∧ 0 ≤ z < 256.
Proof.
  unfold sanitize_rune. simpl.
  destruct (((97 <=? r) && (r <=? 122)) || ((48 <=? r) && (r <=? 57)) || (r =? 45)) eqn:E; lia.
Qed.

Lemma ifname_char_code c :
  ifname_char c = true ↔ 97 ≤ code c ≤ 122 ∨ 48 ≤ code c ≤ 57 ∨ code c = 45.
Proof. unfold ifname_char, inr. lia. Qed.

Lemma sanitized_char r : ifname_char (chr (sanitize_rune r)) = true.
Proof.
  pose proof (sanitize_rune_range r) as [H1 H2].
  apply ifname_char_code. rewrite code_chr; lia.
Qed.

Lemma sanitizeName_bytes tbl name :
  bytes (sanitizeName tbl name)
  = take 10 (map (λ r, chr (sanitize_rune (ToLower tbl r))) (runes (bytes name))).
Proof.
  unfold sanitizeName. rewrite bytes_unbytes. case_decide as H; [done|].
  rewrite take_ge; [done|lia].
Qed.

Lemma sanitizeName_chars tbl name :
  Forall (λ c, ifname_char c = true) (bytes (sanitizeName tbl name)).
Proof.
  rewrite sanitizeName_bytes. apply Forall_take, Forall_forall.
  intros c Hc. apply list_elem_of_In, in_map_iff in Hc as (r & <- & _). apply sanitized_char.
Qed.

Lemma sanitizeName_length tbl name : (length (bytes (sanitizeName tbl name)) ≤ 10)%nat.
Proof. rewrite sanitizeName_bytes, length_take. lia. Qed.

(** A byte that is a valid name character is its own rune and its own image. *)
Lemma ifname_char_fixed tbl c :
  ifname_char c = true → chr (sanitize_rune (ToLower tbl (code c))) = c.
Proof.
  intros Hc%ifname_char_code. transitivity (chr (code c)); [|apply chr_code]. f_equal.
  unfold ToLower. rewrite (proj2 (Z.ltb_lt (code c) 128)) by lia.
  replace ((65 <=? code c) && (code c <=? 90)) with false by lia.
  unfold sanitize_rune.
  by replace (((97 <=? code c) && (code c <=? 122)) || ((48 <=? code c) && (code c <=? 57))
              || (code c =? 45)) with true by lia.
Qed.

Lemma runes_ascii l :
  Forall (λ c, code c < 128) l → runes l = map code l.
Proof.
  unfold runes. induction 1 as [|c l Hc Hl IH]; [done|]. simpl.
  rewrite (proj2 (Z.ltb_lt (code c) 128)) by done. simpl. by rewrite IH.
Qed.

Lemma sanitize_valid tbl l :
  Forall (λ c, ifname_char c = true) l →
  map (λ r, chr (sanitize_rune (ToLower tbl r))) (runes l) = l.
Proof.
  intros Hl. rewrite runes_ascii.
  - rewrite map_map. induction Hl as [|c l Hc Hl IH]; [done|].
    simpl. by rewrite ifname_char_fixed, IH.
  - eapply Forall_impl; [exact Hl|]. intros c Hc%ifname_char_code. simpl. lia.
Qed.

(** C32: the interface name generated for a claim satisfies the schema of
    [spec.router.wanInterface] and fits the kernel's 15-byte limit, whatever
    the claim's name and whatever the case table. *)
Theorem default_wan_interface_valid tbl name :
  valid_wan_interface (default_wan_interface tbl name) = true ∧
  (String.length (default_wan_interface tbl name) ≤ 14)%nat.
Proof.
  unfold default_wan_interface, valid_wan_interface. rewrite bytes_app.
  pose proof (sanitizeName_length tbl name) as Hlen.
  assert (String.length ("wan-" +:+ sanitizeName tbl name) ≤ 14)%nat as Hl.
  { rewrite <-length_bytes, bytes_app, length_app. simpl. lia. }
  split; [|done].
  change (bytes "wan-") with ["w"%char; "a"%char; "n"%char; "-"%char]. cbn [app].
  apply andb_true_iff. split.
  - cbn. apply forallb_forall. intros c Hc%list_elem_of_In.
    by eapply (Forall_forall (λ c, ifname_char c = true)); [apply sanitizeName_chars|].
  - apply bool_decide_eq_true. simpl. lia.
Qed.

(** Sanitising leaves an already valid name of at most ten bytes alone, so
    it is idempotent. *)
Lemma sanitizeName_idempotent tbl name :
  sanitizeName tbl (sanitizeName tbl name) = sanitizeName tbl name.
Proof.
  rewrite <-(unbytes_bytes (sanitizeName tbl (sanitizeName tbl name))).
  rewrite sanitizeName_bytes, sanitize_valid by apply sanitizeName_chars.
  rewrite take_ge by apply sanitizeName_length. apply unbytes_bytes.
Qed.

(** The characters of a Kubernetes object name (a DNS subdomain), and a name with
    its dots written as hyphens. *)
Definition name_char (c : ascii) : bool := ifname_char c || (code c =? 46).
Definition dashed (l : list ascii) : list ascii := map (λ c, if code c =? 46 then chr 45 else c) l.

Lemma name_char_image tbl c :
  name_char c = true →
  chr (sanitize_rune (ToLower tbl (code c))) = (if code c =? 46 then chr 45 else c).
Proof.
  unfold name_char. destruct (code c =? 46) eqn:E; [|rewrite orb_false_r; apply ifname_char_fixed].
  intros _. apply Z.eqb_eq in E. rewrite E. reflexivity.
Qed.

Lemma sanitize_name tbl l :
  Forall (λ c, name_char c = true) l →
  map (λ r, chr (sanitize_rune (ToLower tbl r))) (runes l) = dashed l.
Proof.
  intros Hl. rewrite runes_ascii.
  - rewrite map_map. unfold dashed. induction Hl as [|c l Hc Hl IH]; [done|].
    simpl. by rewrite name_char_image, IH.
  - eapply Forall_impl; [exact Hl|]. unfold name_char. intros c Hc.
    apply orb_true_iff in Hc as [Hc%ifname_char_code|Hc%Z.eqb_eq]; simpl; lia.
Qed.

(** C40: which claims get the same generated interface.  Two Kubernetes names give
    the same interface exactly when their first ten characters agree once dots
    are written as hyphens. *)
Theorem default_wan_interface_collides tbl n1 n2 :
  Forall (λ c, name_char c = true) (bytes n1) →
  Forall (λ c, name_char c = true) (bytes n2) →
  take 10 (dashed (bytes n1)) = take 10 (dashed (bytes n2)) ↔
  default_wan_interface tbl n1 = default_wan_interface tbl n2.
Proof.
  intros H1 H2. assert (∀ n, Forall (λ c, name_char c = true) (bytes n) →
    bytes (sanitizeName tbl n) = take 10 (dashed (bytes n))) as Hb.
  { intros n Hn. by rewrite sanitizeName_bytes, sanitize_name. }
  unfold default_wan_interface. rewrite <-(Hb n1), <-(Hb n2) by done. split.
  - intros E. f_equal. by rewrite <-(unbytes_bytes (sanitizeName tbl n1)), E, unbytes_bytes.
  - intros E%(f_equal bytes). rewrite !bytes_app in E. by apply app_inv_head in E.
Qed.

(** ** MAC addresses *)

Lemma generateUniqueMAC_string buf :
  generateUniqueMAC buf = HardwareAddr_String (2 :: buf).
Proof. done. Qed.

Lemma hex_char_hexdigit z : 0 ≤ z < 16 → hex_char (hexdigit z) = true.
Proof. apply (forall_rangeb 16 (λ z, hex_char (hexdigit z) = true)). by vm_compute. Qed.

Lemma fmt_02x_hex b :
  is_byte b → hex_char (hexdigit (b / 16)) = true ∧ hex_char (hexdigit (b mod 16)) = true.
Proof.
  unfold is_byte. intros Hb. split; apply hex_char_hexdigit.
  - split; [apply Z.div_pos; lia|apply Z.div_lt_upper_bound; lia].
  - apply Z.mod_pos_bound. lia.
Qed.

(** C33: every MAC address the operator generates matches the schema pattern,
    is accepted by the agent's [net.ParseMAC], and denotes the locally
    administered unicast address [02:b0:..:b4] of the five random bytes. *)
Theorem generateUniqueMAC_correct buf :
  length buf = 5%nat → Forall is_byte buf →
  valid_mac_address (generateUniqueMAC buf) = true ∧
  ∃ o rest, ParseMAC (generateUniqueMAC buf) = Some (o :: rest) ∧ rest = buf ∧
    Z.testbit o 1 = true ∧ Z.testbit o 0 = false.
Proof.
  intros Hlen Hb. split.
  - destruct buf as [|a [|b [|c [|d [|e []]]]]]; try done.
    rewrite !Forall_cons in Hb. destruct Hb as (Ha & Hb & Hc & Hd & He & _).
    apply fmt_02x_hex in Ha as [A1 A2], Hb as [B1 B2], Hc as [C1 C2], Hd as [D1 D2], He as [E1 E2].
    unfold valid_mac_address, generateUniqueMAC. rewrite bytes_unbytes. simpl.
    by rewrite A1, A2, B1, B2, C1, C2, D1, D2, E1, E2.
  - exists 2, buf. rewrite generateUniqueMAC_string, ParseMAC_String; [done| |].
    + constructor; [|done]. unfold is_byte. lia.
    + left. simpl. by rewrite Hlen.
Qed.

Lemma default_wan_interface_collides_witness :
  default_wan_interface (λ r, r) "public-ip-claim-1" = default_wan_interface (λ r, r) "public.ip-claim-2".
Proof.
  apply (default_wan_interface_collides (λ r, r) "public-ip-claim-1" "public.ip-claim-2");
    [repeat constructor|repeat constructor|reflexivity].
Defined.

Lemma generateUniqueMAC_correct_witness :
  valid_mac_address (generateUniqueMAC [171; 205; 239; 0; 17]) = true ∧
  ∃ o rest, ParseMAC (generateUniqueMAC [171; 205; 239; 0; 17]) = Some (o :: rest) ∧
    rest = [171; 205; 239; 0; 17] ∧ Z.testbit o 1 = true ∧ Z.testbit o 0 = false.
Proof.
  apply (generateUniqueMAC_correct [171; 205; 239; 0; 17]);
    [reflexivity|repeat constructor; done].
Defined.
