(* ===== verification/ClaimTypes.v ===== *)
(** * The PublicIPClaim resource (api/v1alpha1/publicipclaim_types.go)

    The spec and status structures of the custom resource, with the part of
    the object metadata the controller reads or writes. *)

From S2P Require Import Prelude.

Record RouterSpec := {
  Host : string;
  Port : Z;
  User : string;
  SSHSecretRef : string;
  Command : string;
  WanParent : string;
  Spec_WanInterface : string;
  Spec_MacAddress : string;
}.

(** [ClaimPhase], a string restricted by the schema to four values; a status
    that was never written has the empty phase. *)
Inductive ClaimPhase :=
| PhaseNone
| ClaimPhasePending
| ClaimPhaseProvisioning
| ClaimPhaseReady
| ClaimPhaseFailed.

#[export] Instance ClaimPhase_eq_dec : EqDecision ClaimPhase.
Proof. solve_decision. Defined.

Record PublicIPClaimSpec := {
  PoolName : string;
  Router : RouterSpec;
}.

(** The condition types and the condition record the controller fills in. *)
Definition ConditionReady : string := "Ready".
Definition ConditionRecovering : string := "Recovering".

Record Condition := {
  Cond_Type : string;
  Cond_Status : bool;
  Cond_Reason : string;
  Cond_Message : string;
  Cond_ObservedGeneration : Z;
}.

Record PublicIPClaimStatus := {
  Phase : ClaimPhase;
  Message : string;
  AssignedIP : string;
  WanInterface : string;
  MacAddress : string;
  RouterUptime : Z;
  LastVerified : option Z;
  ConfigurationVerified : bool;
  LastReconciliationReason : string;
  ConnectionState : string;
  Conditions : list Condition;
}.

(** The object: [Name], [Namespace], [Generation], [DeletionTimestamp],
    [Finalizers] and [Annotations] are its metadata. *)
Record PublicIPClaim := {
  Name : string;
  Namespace : string;
  Generation : Z;
  DeletionTimestamp : option Z;
  Finalizers : list string;
  Annotations : gmap string string;
  Spec : PublicIPClaimSpec;
  Status : PublicIPClaimStatus;
}.

Definition emptyStatus : PublicIPClaimStatus :=
  {| Phase := PhaseNone; Message := ""; AssignedIP := ""; WanInterface := "";
     MacAddress := ""; RouterUptime := 0; LastVerified := None;
     ConfigurationVerified := false; LastReconciliationReason := "";
     ConnectionState := ""; Conditions := [] |}.

(** ** Field updates: [claim.Status.F = v] and the like *)

Definition set_status (f : PublicIPClaimStatus → PublicIPClaimStatus) (c : PublicIPClaim)
    : PublicIPClaim :=
  {| Name := Name c; Namespace := Namespace c; Generation := Generation c;
     DeletionTimestamp := DeletionTimestamp c; Finalizers := Finalizers c;
     Annotations := Annotations c; Spec := Spec c; Status := f (Status c) |}.

Definition set_finalizers (l : list string) (c : PublicIPClaim) : PublicIPClaim :=
  {| Name := Name c; Namespace := Namespace c; Generation := Generation c;
     DeletionTimestamp := DeletionTimestamp c; Finalizers := l;
     Annotations := Annotations c; Spec := Spec c; Status := Status c |}.

Definition set_annotations (m : gmap string string) (c : PublicIPClaim) : PublicIPClaim :=
  {| Name := Name c; Namespace := Namespace c; Generation := Generation c;
     DeletionTimestamp := DeletionTimestamp c; Finalizers := Finalizers c;
     Annotations := m; Spec := Spec c; Status := Status c |}.

Definition st_phase (v : ClaimPhase) (s : PublicIPClaimStatus) : PublicIPClaimStatus :=
  {| Phase := v; Message := Message s; AssignedIP := AssignedIP s;
     WanInterface := WanInterface s; MacAddress := MacAddress s;
     RouterUptime := RouterUptime s; LastVerified := LastVerified s;
     ConfigurationVerified := ConfigurationVerified s;
     LastReconciliationReason := LastReconciliationReason s;
     ConnectionState := ConnectionState s; Conditions := Conditions s |}.

Definition st_message (v : string) (s : PublicIPClaimStatus) : PublicIPClaimStatus :=
  {| Phase := Phase s; Message := v; AssignedIP := AssignedIP s;
     WanInterface := WanInterface s; MacAddress := MacAddress s;
     RouterUptime := RouterUptime s; LastVerified := LastVerified s;
     ConfigurationVerified := ConfigurationVerified s;
     LastReconciliationReason := LastReconciliationReason s;
     ConnectionState := ConnectionState s; Conditions := Conditions s |}.

Definition st_ip (v : string) (s : PublicIPClaimStatus) : PublicIPClaimStatus :=
  {| Phase := Phase s; Message := Message s; AssignedIP := v;
     WanInterface := WanInterface s; MacAddress := MacAddress s;
     RouterUptime := RouterUptime s; LastVerified := LastVerified s;
     ConfigurationVerified := ConfigurationVerified s;
     LastReconciliationReason := LastReconciliationReason s;
     ConnectionState := ConnectionState s; Conditions := Conditions s |}.

Definition st_wan (v : string) (s : PublicIPClaimStatus) : PublicIPClaimStatus :=
  {| Phase := Phase s; Message := Message s; AssignedIP := AssignedIP s;
     WanInterface := v; MacAddress := MacAddress s;
     RouterUptime := RouterUptime s; LastVerified := LastVerified s;
     ConfigurationVerified := ConfigurationVerified s;
     LastReconciliationReason := LastReconciliationReason s;
     ConnectionState := ConnectionState s; Conditions := Conditions s |}.

Definition st_mac (v : string) (s : PublicIPClaimStatus) : PublicIPClaimStatus :=
  {| Phase := Phase s; Message := Message s; AssignedIP := AssignedIP s;
     WanInterface := WanInterface s; MacAddress := v;
     RouterUptime := RouterUptime s; LastVerified := LastVerified s;
     ConfigurationVerified := ConfigurationVerified s;
     LastReconciliationReason := LastReconciliationReason s;
     ConnectionState := ConnectionState s; Conditions := Conditions s |}.

Definition st_uptime (v : Z) (s : PublicIPClaimStatus) : PublicIPClaimStatus :=
  {| Phase := Phase s; Message := Message s; AssignedIP := AssignedIP s;
     WanInterface := WanInterface s; MacAddress := MacAddress s;
     RouterUptime := v; LastVerified := LastVerified s;
     ConfigurationVerified := ConfigurationVerified s;
     LastReconciliationReason := LastReconciliationReason s;
     ConnectionState := ConnectionState s; Conditions := Conditions s |}.

Definition st_last_verified (v : option Z) (s : PublicIPClaimStatus) : PublicIPClaimStatus :=
  {| Phase := Phase s; Message := Message s; AssignedIP := AssignedIP s;
     WanInterface := WanInterface s; MacAddress := MacAddress s;
     RouterUptime := RouterUptime s; LastVerified := v;
     ConfigurationVerified := ConfigurationVerified s;
     LastReconciliationReason := LastReconciliationReason s;
     ConnectionState := ConnectionState s; Conditions := Conditions s |}.

Definition st_verified (v : bool) (s : PublicIPClaimStatus) : PublicIPClaimStatus :=
  {| Phase := Phase s; Message := Message s; AssignedIP := AssignedIP s;
     WanInterface := WanInterface s; MacAddress := MacAddress s;
     RouterUptime := RouterUptime s; LastVerified := LastVerified s;
     ConfigurationVerified := v;
     LastReconciliationReason := LastReconciliationReason s;
     ConnectionState := ConnectionState s; Conditions := Conditions s |}.

Definition st_reason (v : string) (s : PublicIPClaimStatus) : PublicIPClaimStatus :=
  {| Phase := Phase s; Message := Message s; AssignedIP := AssignedIP s;
     WanInterface := WanInterface s; MacAddress := MacAddress s;
     RouterUptime := RouterUptime s; LastVerified := LastVerified s;
     ConfigurationVerified := ConfigurationVerified s;
     LastReconciliationReason := v;
     ConnectionState := ConnectionState s; Conditions := Conditions s |}.

Definition st_connection (v : string) (s : PublicIPClaimStatus) : PublicIPClaimStatus :=
  {| Phase := Phase s; Message := Message s; AssignedIP := AssignedIP s;
     WanInterface := WanInterface s; MacAddress := MacAddress s;
     RouterUptime := RouterUptime s; LastVerified := LastVerified s;
     ConfigurationVerified := ConfigurationVerified s;
     LastReconciliationReason := LastReconciliationReason s;
     ConnectionState := v; Conditions := Conditions s |}.

Definition st_conditions (v : list Condition) (s : PublicIPClaimStatus) : PublicIPClaimStatus :=
  {| Phase := Phase s; Message := Message s; AssignedIP := AssignedIP s;
     WanInterface := WanInterface s; MacAddress := MacAddress s;
     RouterUptime := RouterUptime s; LastVerified := LastVerified s;
     ConfigurationVerified := ConfigurationVerified s;
     LastReconciliationReason := LastReconciliationReason s;
     ConnectionState := ConnectionState s; Conditions := v |}.

(** A namespaced name, the key of a reconcile request. *)
Record NamespacedName := { nn_namespace : string; nn_name : string }.
#[export] Instance NamespacedName_eq_dec : EqDecision NamespacedName.
Proof. solve_decision. Defined.
