(* ===== verification/DeepCopy.v ===== *)
(** * Deep copies of the claim types (api/v1alpha1/zz_generated.deepcopy.go)

    Copies matter because the controller's cache hands out shared objects.  The
    types are modelled with their references: a pointer or a slice is an address
    into a heap of typed cells.  A [Layout] says when a structure's references
    point to cells of their types, what the structure reads as and which cells
    it reaches; layouts are built by combinators that follow the structures.  On
    a well-typed heap a deep copy exists, is well typed, reads the same and
    shares no cell with the original, so that no write through one is seen
    through the other. *)

From S2P Require Import Prelude ClaimTypes.

(** ** Structures with references *)

(** The fields of a status that hold no reference. *)
Record StatusScalars := {
  ss_Phase : ClaimPhase;
  ss_Message : string;
  ss_AssignedIP : string;
  ss_WanInterface : string;
  ss_MacAddress : string;
  ss_RouterUptime : Z;
  ss_ConfigurationVerified : bool;
  ss_LastReconciliationReason : string;
  ss_ConnectionState : string;
}.

(** A nil pointer or slice is [None]. *)
Record StatusRef := {
  sr_scalars : StatusScalars;
  sr_LastVerified : option nat;
  sr_Conditions : option nat;
}.

(** The metadata types of k8s.io/apimachinery: structures with references of
    their own, to cells of their own. *)
Class MetaTypes := { ObjectMeta : Type; ListMeta : Type; MetaCell : Type }.

Record ClaimRef `{MetaTypes} := {
  cr_Kind : string;
  cr_APIVersion : string;
  cr_Meta : ObjectMeta;
  cr_Spec : PublicIPClaimSpec;
  cr_Status : StatusRef;
}.

Record ClaimListRef `{MetaTypes} := {
  cl_Kind : string;
  cl_APIVersion : string;
  cl_Meta : ListMeta;
  cl_Items : option nat;
}.

(** What an address holds: a time, the elements of a slice, or a part of some
    metadata. *)
Inductive Cell `{MetaTypes} :=
| CTime (t : Z)
| CConditions (l : list Condition)
| CItems (l : list ClaimRef)
| CMeta (m : MetaCell).

Abbreviation Heap := (gmap nat Cell).

(** A copy function: from the receiver's value and the heap to the copy's;
    [None] when a reference is dangling or of the wrong type. *)
Abbreviation copier A := (Heap → A → option (A * Heap)).

(** The copy functions of k8s.io/apimachinery that the generated code calls. *)
Class MetaOps `{MetaTypes} := {
  Time_DeepCopy : copier nat;
  Condition_DeepCopyInto : Condition → Condition;
  ObjectMeta_DeepCopyInto : copier ObjectMeta;
  ListMeta_DeepCopyInto : copier ListMeta;
}.

(** ** The generated functions *)

Section functions.
Context `{MetaOps}.

(** A new cell. *)
Definition alloc (c : Cell) (h : Heap) : nat * Heap := let l := fresh (dom h) in (l, <[l := c]> h).

Definition LastVerified_copy (h : Heap) (p : option nat) : option (option nat * Heap) :=
  match p with
  | None => Some (None, h)
  | Some l => '(l', h') ← Time_DeepCopy h l; Some (Some l', h')
  end.

Definition Conditions_copy (h : Heap) (p : option nat) : option (option nat * Heap) :=
  match p with
  | None => Some (None, h)
  | Some l =>
    match h !! l with
    | Some (CConditions cs) =>
      let '(l', h') := alloc (CConditions (Condition_DeepCopyInto <$> cs)) h in Some (Some l', h')
    | _ => None
    end
  end.

Definition PublicIPClaimStatus_DeepCopyInto (h : Heap) (s : StatusRef) : option (StatusRef * Heap) :=
  '(lv, h1) ← LastVerified_copy h (sr_LastVerified s);
  '(cs, h2) ← Conditions_copy h1 (sr_Conditions s);
  Some ({| sr_scalars := sr_scalars s; sr_LastVerified := lv; sr_Conditions := cs |}, h2).

(** A router specification and a claim's specification hold no reference. *)
Definition RouterSpec_DeepCopyInto (r : RouterSpec) : RouterSpec := r.
Definition PublicIPClaimSpec_DeepCopyInto (s : PublicIPClaimSpec) : PublicIPClaimSpec :=
  {| PoolName := PoolName s; Router := Router s |}.

Definition PublicIPClaim_DeepCopyInto (h : Heap) (c : ClaimRef) : option (ClaimRef * Heap) :=
  '(m, h1) ← ObjectMeta_DeepCopyInto h (cr_Meta c);
  '(st, h2) ← PublicIPClaimStatus_DeepCopyInto h1 (cr_Status c);
  Some ({| cr_Kind := cr_Kind c; cr_APIVersion := cr_APIVersion c; cr_Meta := m; cr_Spec := cr_Spec c;
           cr_Status := st |}, h2).

(** The loop over the elements of a slice. *)
Fixpoint Items_copy (h : Heap) (l : list ClaimRef) : option (list ClaimRef * Heap) :=
  match l with
  | [] => Some ([], h)
  | c :: l' =>
    '(c', h1) ← PublicIPClaim_DeepCopyInto h c;
    '(r, h2) ← Items_copy h1 l';
    Some (c' :: r, h2)
  end.

(** The slice is allocated after the loop that fills it, since a cell is
    written whole. *)
Definition Items_slice_copy (h : Heap) (p : option nat) : option (option nat * Heap) :=
  match p with
  | None => Some (None, h)
  | Some l =>
    match h !! l with
    | Some (CItems cs) =>
      '(cs', h1) ← Items_copy h cs;
      let '(l', h2) := alloc (CItems cs') h1 in Some (Some l', h2)
    | _ => None
    end
  end.

Definition PublicIPClaimList_DeepCopyInto (h : Heap) (x : ClaimListRef) : option (ClaimListRef * Heap) :=
  '(m, h1) ← ListMeta_DeepCopyInto h (cl_Meta x);
  '(items, h2) ← Items_slice_copy h1 (cl_Items x);
  Some ({| cl_Kind := cl_Kind x; cl_APIVersion := cl_APIVersion x; cl_Meta := m; cl_Items := items |}, h2).

(** The pointer versions: nil is copied to nil. *)
Definition DeepCopy {A} (into : Heap → A → option (A * Heap)) (h : Heap) (p : option A)
    : option (option A * Heap) :=
  match p with
  | None => Some (None, h)
  | Some x => '(y, h') ← into h x; Some (Some y, h')
  end.

Definition PublicIPClaim_DeepCopy (h : Heap) (p : option ClaimRef) : option (option ClaimRef * Heap) :=
  DeepCopy PublicIPClaim_DeepCopyInto h p.
Definition PublicIPClaimList_DeepCopy (h : Heap) (p : option ClaimListRef) : option (option ClaimListRef * Heap) :=
  DeepCopy PublicIPClaimList_DeepCopyInto h p.
Definition PublicIPClaimStatus_DeepCopy (h : Heap) (p : option StatusRef) : option (option StatusRef * Heap) :=
  DeepCopy PublicIPClaimStatus_DeepCopyInto h p.
Definition PublicIPClaimSpec_DeepCopy (p : option PublicIPClaimSpec) : option PublicIPClaimSpec :=
  PublicIPClaimSpec_DeepCopyInto <$> p.
Definition RouterSpec_DeepCopy (p : option RouterSpec) : option RouterSpec := RouterSpec_DeepCopyInto <$> p.

(** As a [runtime.Object], an interface value that is nil or holds a pointer to
    one of the two kinds. *)
Inductive Object := OClaim (c : ClaimRef) | OClaimList (x : ClaimListRef).

Definition PublicIPClaim_DeepCopyObject (h : Heap) (p : option ClaimRef) : option (option Object * Heap) :=
  '(c, h') ← PublicIPClaim_DeepCopy h p; Some (option_map OClaim c, h').
Definition PublicIPClaimList_DeepCopyObject (h : Heap) (p : option ClaimListRef)
    : option (option Object * Heap) :=
  '(x, h') ← PublicIPClaimList_DeepCopy h p; Some (option_map OClaimList x, h').
End functions.

(** ** Layouts *)

(** When a value's references are well typed, what it reads as and which cells
    it reaches.  All three depend on the reached cells only, and these exist. *)
Class Layout `{MetaTypes} (A : Type) := {
  View : Type;
  typed : Heap → A → Prop;
  view : Heap → A → View;
  locs : Heap → A → gset nat;
  locs_dom h x : typed h x → locs h x ⊆ dom h;
  locs_frame h g x : typed h x → (∀ l, l ∈ locs h x → g !! l = h !! l) →
    typed g x ∧ view g x = view h x ∧ locs g x = locs h x;
}.
#[export] Hint Mode Layout - ! : typeclass_instances.

Section layouts.
Context `{MetaTypes}.

(** A value without references. *)
Definition flat A : Layout A.
Proof. refine {| View := A; typed _ _ := True; view _ x := x; locs _ _ := ∅ |}; [set_solver | done]. Defined.

Definition both {A B} (LA : Layout A) (LB : Layout B) : Layout (A * B).
Proof.
  refine {| View := @View _ _ LA * @View _ _ LB;
            typed h x := typed h x.1 ∧ typed h x.2;
            view h x := (view h x.1, view h x.2);
            locs h x := locs h x.1 ∪ locs h x.2 |}.
  - intros h x [Ha Hb]. pose proof (locs_dom h _ Ha). pose proof (locs_dom h _ Hb). set_solver.
  - intros h g x [Ha Hb] Hg.
    destruct (locs_frame h g _ Ha) as (? & -> & ->); [set_solver |].
    destruct (locs_frame h g _ Hb) as (? & -> & ->); [set_solver | done].
Defined.

Definition each {A} (L : Layout A) : Layout (list A).
Proof.
  refine {| View := list (@View _ _ L); typed h := Forall (typed h); view h x := view h <$> x;
            locs h x := ⋃ (locs h <$> x) |}.
  - intros h x Hx. induction Hx as [| a x Ha _ IH]; [set_solver |].
    pose proof (locs_dom h _ Ha). cbn. set_solver.
  - intros h g x Hx. induction Hx as [| a x Ha _ IH]; [done |]. cbn. intros Hg.
    destruct (locs_frame h g _ Ha) as (? & -> & ->); [set_solver |].
    destruct IH as (? & -> & ->); [set_solver |]. auto.
Defined.

Definition opt {A} (L : Layout A) : Layout (option A).
Proof.
  refine {| View := option (@View _ _ L); typed h x := from_option (typed h) True x;
            view h x := view h <$> x; locs h x := from_option (locs h) ∅ x |}.
  - intros h [x |]; [apply locs_dom | set_solver].
  - intros h g [x |] Hx Hg; [| done]. cbn in *.
    by destruct (locs_frame h g _ Hx Hg) as (? & -> & ->).
Defined.

(** A reference to a cell of the sort [sel] selects. *)
Definition ref {A} (sel : Cell → option A) (L : Layout A) : Layout nat.
Proof.
  refine {| View := option (@View _ _ L);
            typed h l := ∃ a, h !! l ≫= sel = Some a ∧ typed h a;
            view h l := view h <$> (h !! l ≫= sel);
            locs h l := {[l]} ∪ from_option (locs h) ∅ (h !! l ≫= sel) |}.
  - intros h l (a & Ha & Ht). rewrite Ha. pose proof (locs_dom h _ Ht).
    apply bind_Some in Ha as (c & Hc & _). apply elem_of_dom_2 in Hc. set_solver.
  - intros h g l (a & Ha & Ht). rewrite Ha. cbn. intros Hg. rewrite (Hg l), Ha by set_solver. cbn.
    destruct (locs_frame h g _ Ht) as (? & -> & ->); [set_solver |]. eauto.
Defined.

(** A structure, by its parts. *)
Definition via {A B} (f : A → B) (L : Layout B) : Layout A.
Proof.
  refine {| View := @View _ _ L; typed h x := typed h (f x); view h x := view h (f x);
            locs h x := locs h (f x) |}.
  - intros h x. apply locs_dom.
  - intros h g x. apply locs_frame.
Defined.

(** ** The layouts of the claim types *)

Definition sel_time (c : Cell) : option Z := match c with CTime t => Some t | _ => None end.
Definition sel_conditions (c : Cell) : option (list Condition) :=
  match c with CConditions l => Some l | _ => None end.
Definition sel_items (c : Cell) : option (list ClaimRef) :=
  match c with CItems l => Some l | _ => None end.

Definition TimeL : Layout nat := ref sel_time (flat _).
Definition ConditionsL : Layout nat := ref sel_conditions (flat _).
Definition StatusL : Layout StatusRef :=
  via (λ s, (sr_scalars s, (sr_LastVerified s, sr_Conditions s)))
      (both (flat _) (both (opt TimeL) (opt ConditionsL))).

Definition claim_parts (c : ClaimRef) := ((cr_Kind c, cr_APIVersion c, cr_Spec c), (cr_Meta c, cr_Status c)).
Definition ClaimL (LM : Layout ObjectMeta) : Layout ClaimRef :=
  via claim_parts (both (flat _) (both LM StatusL)).
Definition ItemsL (LM : Layout ObjectMeta) : Layout nat := ref sel_items (each (ClaimL LM)).

Definition list_parts (x : ClaimListRef) := ((cl_Kind x, cl_APIVersion x), (cl_Meta x, cl_Items x)).
Definition ClaimListL (LM : Layout ObjectMeta) (LL : Layout ListMeta) : Layout ClaimListRef :=
  via list_parts (both (flat _) (both LL (opt (ItemsL LM)))).

(** ** What a deep copy is *)

(** The heap is only extended; the copy is well typed, reads as the original
    did, and lives in new cells. *)
Definition fresh_copy {A} (L : Layout A) (h : Heap) (x : A) (y : A) (h' : Heap) : Prop :=
  h ⊆ h' ∧ typed h' y ∧ view h' y = view h x ∧ locs h' y ## dom h.

Definition copy_at {A} (L : Layout A) (f : copier A) (x : A) : Prop :=
  ∀ h, typed h x → ∃ y h', f h x = Some (y, h') ∧ fresh_copy L h x y h'.

Definition copy_ok {A} (L : Layout A) (f : copier A) : Prop := ∀ x, copy_at L f x.

(** The consequence for a program that holds both: writes confined to the cells
    of the copy leave the original as it was, and writes confined to the cells
    of the original leave the copy as it was. *)
Definition isolated_copy {A} (L : Layout A) (h : Heap) (x : A) (y : A) (h' : Heap) : Prop :=
  typed h' y ∧ view h' y = view h x ∧
  (∀ g : Heap, (∀ l, l ∉ locs h' y → g !! l = h' !! l) → typed g x ∧ view g x = view h x) ∧
  (∀ g : Heap, (∀ l, l ∉ locs h x → g !! l = h' !! l) → typed g y ∧ view g y = view h x).

Lemma typed_mono {A} (L : Layout A) (h h' : Heap) (x : A) : h ⊆ h' → typed h x →
  typed h' x ∧ view h' x = view h x ∧ locs h' x = locs h x.
Proof.
  intros Hs Hx. apply locs_frame; [done |]. intros l Hl.
  apply (locs_dom h _ Hx) in Hl. apply elem_of_dom in Hl as [c Hc]. rewrite Hc.
  by eapply lookup_weaken.
Qed.

Lemma fresh_copy_isolated {A} (L : Layout A) (h : Heap) (x y : A) (h' : Heap) :
  typed h x → fresh_copy L h x y h' → isolated_copy L h x y h'.
Proof.
  intros Hx (Hs & Hy & Hv & Hd). destruct (typed_mono L h h' x Hs Hx) as (Hx' & Hvx & Hlx).
  pose proof (locs_dom h x Hx) as Hin. split_and!; [done | done | intros g Hg | intros g Hg].
  - destruct (locs_frame h' g x Hx') as (? & -> & _); [| by rewrite Hvx]. rewrite Hlx.
    intros l Hl. apply Hg. set_solver.
  - destruct (locs_frame h' g y Hy) as (? & -> & _); [| by rewrite Hv].
    intros l Hl. apply Hg. set_solver.
Qed.

(** ** Copying by parts *)

Definition copy_flat {A} : copier A := λ h x, Some (x, h).
Definition copy_both {A B} (f : copier A) (g : copier B) : copier (A * B) := λ h p,
  '(a, h1) ← f h p.1; '(b, h2) ← g h1 p.2; Some ((a, b), h2).
Definition copy_opt {A} (f : copier A) : copier (option A) := λ h p,
  match p with None => Some (None, h) | Some x => '(y, h') ← f h x; Some (Some y, h') end.
Definition copy_each {A} (f : copier A) : copier (list A) :=
  fix go h l :=
    match l with
    | [] => Some ([], h)
    | x :: l' => '(y, h1) ← f h x; '(r, h2) ← go h1 l'; Some (y :: r, h2)
    end.
Definition copy_ref {A} (sel : Cell → option A) (mk : A → Cell) (f : copier A) : copier nat := λ h l,
  a ← h !! l ≫= sel; '(b, h1) ← f h a; Some (alloc (mk b) h1).

Lemma copy_ok_ext {A} (L : Layout A) (f g : copier A) :
  (∀ h x, f h x = g h x) → copy_ok L g → copy_ok L f.
Proof. intros Heq Hg x h Hx. rewrite Heq. by apply Hg. Qed.

Lemma copy_flat_ok A : copy_ok (flat A) copy_flat.
Proof. intros x h _. exists x, h. repeat split; set_solver. Qed.

Lemma copy_both_at {A B} (LA : Layout A) (LB : Layout B) f g a b :
  copy_at LA f a → copy_at LB g b → copy_at (both LA LB) (copy_both f g) (a, b).
Proof.
  intros Hf Hg h [Ha Hb]. cbn in Ha, Hb.
  destruct (Hf h Ha) as (a' & h1 & Ea & Hs1 & Ha' & Va & Da).
  destruct (typed_mono LB h h1 b Hs1 Hb) as (Hb1 & Vb1 & _).
  destruct (Hg h1 Hb1) as (b' & h2 & Eb & Hs2 & Hb' & Vb & Db).
  destruct (typed_mono LA h1 h2 a' Hs2 Ha') as (Ha2 & Va2 & La2).
  exists (a', b'), h2. unfold copy_both. cbn. rewrite Ea. cbn. rewrite Eb. split; [done |].
  pose proof (subseteq_dom h h1 Hs1).
  repeat split; cbn; [by trans h1 | done | done | by rewrite Va2, Va, Vb, Vb1 | rewrite La2; set_solver].
Qed.

Lemma copy_both_ok {A B} (LA : Layout A) (LB : Layout B) f g :
  copy_ok LA f → copy_ok LB g → copy_ok (both LA LB) (copy_both f g).
Proof. intros Hf Hg [a b]. by apply copy_both_at. Qed.

Lemma copy_via_ok {A B} (proj : A → B) (inj : B → A) (L : Layout B) (f : copier A) (g : copier B) :
  (∀ b, proj (inj b) = b) →
  (∀ h x, f h x = ('(b, h') ← g h (proj x); Some (inj b, h'))) →
  copy_ok L g → copy_ok (via proj L) f.
Proof.
  intros Hpi Hf Hg x h Hx. destruct (Hg (proj x) h Hx) as (b & h' & E & Hs & Hb & V & D).
  exists (inj b), h'. rewrite Hf, E. split; [done |].
  repeat split; cbn; rewrite ?Hpi; done.
Qed.

Lemma copy_opt_ok {A} (L : Layout A) f : copy_ok L f → copy_ok (opt L) (copy_opt f).
Proof.
  intros Hf [x |] h Hx; cbn in Hx.
  - destruct (Hf x h Hx) as (y & h' & E & Hs & Hy & V & D). exists (Some y), h'. cbn. rewrite E.
    split; [done |]. repeat split; cbn; [done | done | by rewrite V | done].
  - exists None, h. repeat split; set_solver.
Qed.

Lemma copy_each_ok {A} (L : Layout A) f : copy_ok L f → copy_ok (each L) (copy_each f).
Proof.
  intros Hf l. induction l as [| a l IH]; intros h Hl.
  { exists [], h. repeat split; [done | by constructor | set_solver]. }
  inversion Hl as [| ? ? Ha Hl']; subst. clear Hl.
  destruct (copy_both_at L (each L) f (copy_each f) a l (Hf a) IH h (conj Ha Hl'))
    as ([a' l'] & h' & E & Hs & [Ha' Hl''] & V & D).
  exists (a' :: l'), h'. revert E. unfold copy_both. cbn.
  destruct (f h a) as [[b h1] |]; cbn; [| done].
  destruct (copy_each f h1 l) as [[r h2] |]; cbn; [| done]. intros [= -> -> ->].
  injection V as V1 V2. cbn in V1, V2.
  split; [done |]. repeat split; cbn; [done | by constructor | by f_equal | exact D].
Qed.

Lemma copy_ref_ok {A} (sel : Cell → option A) mk (L : Layout A) f :
  (∀ a, sel (mk a) = Some a) → copy_ok L f → copy_ok (ref sel L) (copy_ref sel mk f).
Proof.
  intros Hsm Hf l h (a & Ha & Ht). destruct (Hf a h Ht) as (b & h1 & E & Hs & Hb & V & D).
  unfold copy_ref. rewrite Ha. cbn. rewrite E. cbn. set (l' := fresh (dom h1)).
  assert (Hl' : l' ∉ dom h1) by apply is_fresh.
  assert (Hsub : h1 ⊆ <[l' := mk b]> h1) by (apply insert_subseteq; by apply not_elem_of_dom).
  destruct (typed_mono L h1 _ b Hsub Hb) as (Hb' & V' & L').
  pose proof (subseteq_dom h h1 Hs).
  exists l', (<[l' := mk b]> h1). split; [done |]. unfold fresh_copy. cbn. rewrite lookup_insert_eq. cbn.
  rewrite Hsm, Ha. cbn. rewrite L', V', V. split_and!; [by trans h1 | eauto | done | set_solver].
Qed.
End layouts.

(** ** The generated functions make deep copies *)

(** What the library documents of its copy functions: they copy the receiver. *)
Class MetaLaws `{MetaOps} (LM : Layout ObjectMeta) (LL : Layout ListMeta) := {
  Time_copies : copy_ok TimeL Time_DeepCopy;
  Condition_copies c : Condition_DeepCopyInto c = c;
  ObjectMeta_copies : copy_ok LM ObjectMeta_DeepCopyInto;
  ListMeta_copies : copy_ok LL ListMeta_DeepCopyInto;
}.

Section copies.
Context `{MetaLaws}.

Lemma Conditions_copies : copy_ok (opt ConditionsL) Conditions_copy.
Proof.
  apply copy_ok_ext with (copy_opt (copy_ref sel_conditions CConditions copy_flat)).
  - intros h [l |]; [| done]. cbn. unfold copy_ref. destruct (h !! l) as [[] |]; try done. cbn.
    rewrite (list_fmap_ext Condition_DeepCopyInto id), list_fmap_id; [done |]. intros. apply Condition_copies.
  - apply copy_opt_ok, copy_ref_ok; [done | apply copy_flat_ok].
Qed.

Lemma Status_copies : copy_ok StatusL PublicIPClaimStatus_DeepCopyInto.
Proof.
  apply (copy_via_ok _ (λ p, {| sr_scalars := p.1; sr_LastVerified := p.2.1; sr_Conditions := p.2.2 |}) _ _
    (copy_both copy_flat (copy_both (copy_opt Time_DeepCopy) Conditions_copy))).
  - by intros [? [? ?]].
  - intros h s. unfold PublicIPClaimStatus_DeepCopyInto, copy_both, copy_flat, LastVerified_copy, copy_opt. cbn.
    destruct (sr_LastVerified s) as [l |]; cbn; [destruct (Time_DeepCopy h l) as [[? h1] |]; cbn; [| done] |];
      by destruct (Conditions_copy _ _) as [[] |].
  - apply copy_both_ok, copy_both_ok; [apply copy_flat_ok | apply copy_opt_ok, Time_copies | apply Conditions_copies].
Qed.

Lemma Claim_copies : copy_ok (ClaimL LM) PublicIPClaim_DeepCopyInto.
Proof.
  apply (copy_via_ok _ (λ p, {| cr_Kind := p.1.1.1; cr_APIVersion := p.1.1.2; cr_Spec := p.1.2;
                                cr_Meta := p.2.1; cr_Status := p.2.2 |}) _ _
    (copy_both copy_flat (copy_both ObjectMeta_DeepCopyInto PublicIPClaimStatus_DeepCopyInto))).
  - by intros [[[? ?] ?] [? ?]].
  - intros h c. unfold PublicIPClaim_DeepCopyInto, copy_both, copy_flat. cbn.
    destruct (ObjectMeta_DeepCopyInto _ _) as [[? h1] |]; cbn; [| done].
    by destruct (PublicIPClaimStatus_DeepCopyInto _ _) as [[] |].
  - apply copy_both_ok, copy_both_ok; [apply copy_flat_ok | apply ObjectMeta_copies | apply Status_copies].
Qed.

Lemma Items_copies : copy_ok (opt (ItemsL LM)) Items_slice_copy.
Proof.
  apply copy_ok_ext with (copy_opt (copy_ref sel_items CItems (copy_each PublicIPClaim_DeepCopyInto))).
  - intros h [l |]; [| done]. cbn. unfold copy_ref. destruct (h !! l) as [[] |]; try done. cbn.
    by destruct (Items_copy h _) as [[] |] eqn:E; change (Items_copy h _) with
      (copy_each PublicIPClaim_DeepCopyInto h l0) in E; rewrite E.
  - apply copy_opt_ok, copy_ref_ok; [done | apply copy_each_ok, Claim_copies].
Qed.

Lemma ClaimList_copies : copy_ok (ClaimListL LM LL) PublicIPClaimList_DeepCopyInto.
Proof.
  apply (copy_via_ok _ (λ p, {| cl_Kind := p.1.1; cl_APIVersion := p.1.2;
                                cl_Meta := p.2.1; cl_Items := p.2.2 |}) _ _
    (copy_both copy_flat (copy_both ListMeta_DeepCopyInto Items_slice_copy))).
  - by intros [[? ?] [? ?]].
  - intros h c. unfold PublicIPClaimList_DeepCopyInto, copy_both, copy_flat. cbn.
    destruct (ListMeta_DeepCopyInto _ _) as [[? h1] |]; cbn; [| done].
    by destruct (Items_slice_copy _ _) as [[] |].
  - apply copy_both_ok, copy_both_ok; [apply copy_flat_ok | apply ListMeta_copies | apply Items_copies].
Qed.

Lemma DeepCopy_isolated {A} (L : Layout A) (f : copier A) h x :
  copy_ok L f → typed h x →
  ∃ y h', DeepCopy f h (Some x) = Some (Some y, h') ∧ isolated_copy L h x y h'.
Proof.
  intros Hf Hx. destruct (Hf x h Hx) as (y & h' & E & Hc). exists y, h'. cbn. rewrite E.
  split; [done | by apply fresh_copy_isolated].
Qed.

(** C27: Deep copies are well typed and isolated.  Of a claim, and of a list of
    claims, whose references point to cells of their types, [DeepCopyObject]
    succeeds and gives a well-typed object of the same kind that reads the same;
    and afterwards no writes confined to the copy's cells change the original,
    nor do writes confined to the original's cells change the copy.  Metadata
    copies are those of the library. *)
Theorem DeepCopy_isolates h (c : ClaimRef) (x : ClaimListRef) :
  @typed _ _ (ClaimL LM) h c → @typed _ _ (ClaimListL LM LL) h x →
  (∃ c' h', PublicIPClaim_DeepCopyObject h (Some c) = Some (Some (OClaim c'), h') ∧
            isolated_copy (ClaimL LM) h c c' h') ∧
  (∃ x' h', PublicIPClaimList_DeepCopyObject h (Some x) = Some (Some (OClaimList x'), h') ∧
            isolated_copy (ClaimListL LM LL) h x x' h').
Proof.
  intros Hc Hx. split.
  - destruct (DeepCopy_isolated _ _ _ _ Claim_copies Hc) as (y & h' & E & Hi). exists y, h'.
    unfold PublicIPClaim_DeepCopyObject, PublicIPClaim_DeepCopy. by rewrite E.
  - destruct (DeepCopy_isolated _ _ _ _ ClaimList_copies Hx) as (y & h' & E & Hi). exists y, h'.
    unfold PublicIPClaimList_DeepCopyObject, PublicIPClaimList_DeepCopy. by rewrite E.
Qed.
End copies.

(** ** A concrete metadata *)

(** Finalizers in a slice, and the count of remaining items behind a pointer. *)
#[local] Instance sim_types : MetaTypes :=
  {| ObjectMeta := string * option nat; ListMeta := option nat; MetaCell := list string + Z |}.

Definition sel_finalizers (c : Cell) : option (list string) := match c with CMeta (inl l) => Some l | _ => None end.
Definition sel_count (c : Cell) : option Z := match c with CMeta (inr n) => Some n | _ => None end.

#[local] Instance sim_meta : MetaOps := {|
  Time_DeepCopy := copy_ref sel_time CTime copy_flat;
  Condition_DeepCopyInto c := c;
  ObjectMeta_DeepCopyInto :=
    copy_both (A:=string) copy_flat (copy_opt (copy_ref sel_finalizers (λ l, CMeta (inl l)) copy_flat));
  ListMeta_DeepCopyInto := copy_opt (copy_ref sel_count (λ n, CMeta (inr n)) copy_flat);
|}.

Definition sim_object : Layout ObjectMeta := both (flat string) (opt (ref sel_finalizers (flat _))).
Definition sim_list : Layout ListMeta := opt (ref sel_count (flat _)).

#[local] Instance sim_laws : MetaLaws sim_object sim_list.
Proof.
  split.
  - apply copy_ref_ok; [done | apply copy_flat_ok].
  - done.
  - apply copy_both_ok; [apply copy_flat_ok | apply copy_opt_ok, copy_ref_ok; [done | apply copy_flat_ok]].
  - apply copy_opt_ok, copy_ref_ok; [done | apply copy_flat_ok].
Qed.

Definition sim_status : StatusRef :=
  {| sr_scalars := {| ss_Phase := ClaimPhaseReady; ss_Message := "ok"; ss_AssignedIP := "203.0.113.7";
       ss_WanInterface := "wan0"; ss_MacAddress := "02:00:00:00:00:01"; ss_RouterUptime := 100;
       ss_ConfigurationVerified := true; ss_LastReconciliationReason := ""; ss_ConnectionState := "Connected" |};
     sr_LastVerified := Some 0; sr_Conditions := Some 1 |}.
Definition sim_claim : ClaimRef :=
  {| cr_Kind := "PublicIPClaim"; cr_APIVersion := "network.serialx.net/v1alpha1"; cr_Meta := ("ip-7", Some 2);
     cr_Spec := {| PoolName := "pool"; Router := {| Host := "192.168.1.1"; Port := 22; User := "root";
       SSHSecretRef := "key"; Command := ""; WanParent := "eth4"; Spec_WanInterface := "";
       Spec_MacAddress := "" |} |};
     cr_Status := sim_status |}.
Definition sim_items : ClaimListRef :=
  {| cl_Kind := "PublicIPClaimList"; cl_APIVersion := "network.serialx.net/v1alpha1"; cl_Meta := Some 3;
     cl_Items := Some 4 |}.
Definition sim_heap : gmap nat Cell :=
  <[0 := CTime 1700000000]> (<[1 := CConditions [{| Cond_Type := "Ready"; Cond_Status := true;
    Cond_Reason := "Assigned"; Cond_Message := ""; Cond_ObservedGeneration := 1 |}]]>
  (<[2 := CMeta (inl ["serialx.net/cleanup-wan-interface"])]> (<[3 := CMeta (inr 0%Z)]> (<[4 := CItems [sim_claim; sim_claim]]> ∅)))).

Lemma sim_claim_typed : @typed _ _ (ClaimL sim_object) sim_heap sim_claim.
Proof.
  split; [exact I | split; [split; [exact I |] | split; [exact I | split]]]; eexists;
    (split; [vm_compute; reflexivity | exact I]).
Qed.

Lemma sim_items_typed : @typed _ _ (ClaimListL sim_object sim_list) sim_heap sim_items.
Proof.
  split; [exact I | split].
  - exists 0%Z. split; [vm_compute; reflexivity | exact I].
  - exists [sim_claim; sim_claim]. split; [vm_compute; reflexivity |].
    repeat constructor; try apply sim_claim_typed.
Qed.

(** Both copies of a claim that a list holds twice. *)
Lemma DeepCopy_isolates_witness :
  (∃ c' h', PublicIPClaim_DeepCopyObject sim_heap (Some sim_claim) = Some (Some (OClaim c'), h') ∧
            isolated_copy (ClaimL sim_object) sim_heap sim_claim c' h') ∧
  (∃ x' h', PublicIPClaimList_DeepCopyObject sim_heap (Some sim_items) = Some (Some (OClaimList x'), h') ∧
            isolated_copy (ClaimListL sim_object sim_list) sim_heap sim_items x' h').
Proof. apply DeepCopy_isolates; [apply sim_claim_typed | apply sim_items_typed]. Defined.
