(* ===== verification/Base64.v ===== *)
(** * Base64 (encoding/base64.StdEncoding)

    How [encoding/json] writes a [[]byte]: the lease file stores MAC addresses
    and DHCP packets in this form.  Every byte sequence is read back from its
    encoding. *)

From S2P Require Import Prelude GoStd.

Local Open Scope Z_scope.

Definition b64digit (z : Z) : ascii :=
  if z <? 26 then chr (65 + z)
  else if z <? 52 then chr (97 + (z - 26))
  else if z <? 62 then chr (48 + (z - 52))
  else if z =? 62 then "+"%char else "/"%char.

Definition b64val (c : ascii) : option Z :=
  let x := code c in
  if (65 <=? x) && (x <=? 90) then Some (x - 65)
  else if (97 <=? x) && (x <=? 122) then Some (x - 97 + 26)
  else if (48 <=? x) && (x <=? 57) then Some (x - 48 + 52)
  else if x =? 43 then Some 62 else if x =? 47 then Some 63 else None.

Definition pad : ascii := "="%char.

Fixpoint EncodeToString (l : list Z) : list ascii :=
  match l with
  | [] => []
  | [a] => [b64digit (a / 4); b64digit ((a mod 4) * 16); pad; pad]
  | [a; b] => [b64digit (a / 4); b64digit ((a mod 4) * 16 + b / 16);
               b64digit ((b mod 16) * 4); pad]
  | a :: b :: c :: l' =>
    b64digit (a / 4) :: b64digit ((a mod 4) * 16 + b / 16)
    :: b64digit ((b mod 16) * 4 + c / 64) :: b64digit (c mod 64) :: EncodeToString l'
  end.

(** Quanta of four characters; padding only in the last one. *)
Fixpoint decode_quanta (s : list ascii) : option (list Z) :=
  match s with
  | [] => Some []
  | c1 :: c2 :: c3 :: c4 :: s' =>
    v1 ← b64val c1; v2 ← b64val c2;
    if Ascii.eqb c3 pad then
      if Ascii.eqb c4 pad then
        match s' with [] => Some [v1 * 4 + v2 / 16] | _ => None end
      else None
    else
      v3 ← b64val c3;
      if Ascii.eqb c4 pad then
        match s' with [] => Some [v1 * 4 + v2 / 16; (v2 mod 16) * 16 + v3 / 4] | _ => None end
      else
        v4 ← b64val c4; rest ← decode_quanta s';
        Some (v1 * 4 + v2 / 16 :: (v2 mod 16) * 16 + v3 / 4 :: (v3 mod 4) * 64 + v4 :: rest)
  | _ => None
  end.

Definition is_newline (c : ascii) : bool := (code c =? 10) || (code c =? 13).

(** Line breaks are ignored. *)
Definition DecodeString (s : list ascii) : option (list Z) :=
  decode_quanta (List.filter (λ c, negb (is_newline c)) s).

(** ** Round trip *)

Lemma b64_digit z :
  0 ≤ z < 64 →
  b64val (b64digit z) = Some z ∧ Ascii.eqb (b64digit z) pad = false ∧
  is_newline (b64digit z) = false.
Proof.
  revert z. apply (forall_rangeb 64 (λ z, b64val (b64digit z) = Some z ∧
    Ascii.eqb (b64digit z) pad = false ∧ is_newline (b64digit z) = false)).
  vm_compute. reflexivity.
Qed.

Lemma three_bytes_ind (P : list Z → Prop) :
  P [] → (∀ a, P [a]) → (∀ a b, P [a; b]) → (∀ a b c l, P l → P (a :: b :: c :: l)) → ∀ l, P l.
Proof.
  intros H0 H1 H2 H3. fix IH 1.
  intros [|a [|b [|c l]]]; [exact H0|apply H1|apply H2|apply H3, IH].
Qed.

(** The four 6-bit groups of three bytes. *)
Lemma six_bits a b c :
  is_byte a → is_byte b → is_byte c →
  0 ≤ a / 4 < 64 ∧ 0 ≤ (a mod 4) * 16 < 64 ∧ 0 ≤ (a mod 4) * 16 + b / 16 < 64 ∧
  0 ≤ (b mod 16) * 4 < 64 ∧ 0 ≤ (b mod 16) * 4 + c / 64 < 64 ∧ 0 ≤ c mod 64 < 64.
Proof. unfold is_byte. intros. Z.div_mod_to_equations. lia. Qed.

(** The three bytes of four 6-bit groups. *)
Lemma three_bytes a b c :
  is_byte a → is_byte b → is_byte c →
  a / 4 * 4 + ((a mod 4) * 16 + b / 16) / 16 = a ∧
  (((a mod 4) * 16 + b / 16) mod 16) * 16 + ((b mod 16) * 4 + c / 64) / 4 = b ∧
  (((b mod 16) * 4 + c / 64) mod 4) * 64 + c mod 64 = c.
Proof. unfold is_byte. intros. Z.div_mod_to_equations. lia. Qed.

Lemma digit_no_newline z : 0 ≤ z < 64 → is_newline (b64digit z) = false.
Proof. intros H. by apply b64_digit. Qed.

Lemma no_newlines l :
  Forall is_byte l → List.filter (λ c, negb (is_newline c)) (EncodeToString l) = EncodeToString l.
Proof.
  induction l as [|a|a b|a b c l IH] using three_bytes_ind; intros Hl; simpl; [done|..];
    rewrite ?Forall_cons in Hl.
  - destruct (six_bits a 0 0) as (? & ? & _); [tauto|done|done|].
    rewrite !digit_no_newline by assumption. done.
  - destruct (six_bits a b 0) as (? & _ & ? & ? & _); [tauto|tauto|done|].
    rewrite !digit_no_newline by assumption. simpl. done.
  - destruct (six_bits a b c) as (? & _ & ? & _ & ? & ?); [tauto..|].
    rewrite !digit_no_newline by assumption. simpl.
    by rewrite IH by tauto.
Qed.

Lemma decode_quanta_encode l : Forall is_byte l → decode_quanta (EncodeToString l) = Some l.
Proof.
  induction l as [|a|a b|a b c l IH] using three_bytes_ind; intros Hl; simpl; [done|..];
    rewrite ?Forall_cons in Hl.
  - destruct (six_bits a 0 0) as (H1 & H2 & _); [tauto|done|done|].
    destruct (three_bytes a 0 0) as (E1 & _); [tauto|done|done|].
    apply b64_digit in H1 as (-> & _), H2 as (-> & _). simpl.
    rewrite Z.add_0_r in E1. by rewrite E1.
  - destruct (six_bits a b 0) as (H1 & _ & H2 & H3 & _); [tauto|tauto|done|].
    destruct (three_bytes a b 0) as (E1 & E2 & _); [tauto|tauto|done|].
    apply b64_digit in H1 as (-> & _), H2 as (-> & _), H3 as (-> & -> & _). simpl.
    rewrite Z.add_0_r in E2. by rewrite E1, E2.
  - destruct (six_bits a b c) as (H1 & _ & H2 & _ & H3 & H4); [tauto..|].
    destruct (three_bytes a b c) as (E1 & E2 & E3); [tauto..|].
    apply b64_digit in H1 as (-> & _), H2 as (-> & _), H3 as (-> & -> & _), H4 as (-> & -> & _).
    simpl. rewrite IH by tauto. simpl. by rewrite E1, E2, E3.
Qed.

(** Every byte sequence is read back from its encoding. *)
Lemma DecodeString_Encode l : Forall is_byte l → DecodeString (EncodeToString l) = Some l.
Proof. intros Hl. unfold DecodeString. by rewrite no_newlines, decode_quanta_encode. Qed.
