(* ===== verification/Json.v ===== *)
(** * JSON values and their decoding into Go structs

    The bodies exchanged by the operator and the router agent, at the level of
    JSON values: an integer literal is [JNum], any other number [JFrac].
    Decoding follows [encoding/json]: members are taken in order, names match
    up to case folding, [null] and unknown names change nothing, and a member
    of the wrong type makes the whole decoding an error. *)

From S2P Require Import Prelude GoStd.

Local Open Scope Z_scope.

Inductive json :=
| JNull
| JBool (b : bool)
| JNum (n : Z)
| JFrac (literal : string)
| JStr (s : string)
| JArr (l : list json)
| JObj (l : list (string * json)).

(** The fold [encoding/json] compares names with, on the runes that can fold
    to ASCII: letters, U+017F and U+212A. *)
Definition fold_rune (r : Z) : Z :=
  if (65 <=? r) && (r <=? 90) then r + 32
  else if r =? 383 then 115 else if r =? 8490 then 107 else r.

Definition fold_name (s : string) : list Z := map fold_rune (runes (bytes s)).

Definition key_match (field key : string) : bool :=
  bool_decide (fold_name field = fold_name key).

(** Decoders of one member: the new value, or [None] on a type error. *)
Definition dec_string (j : json) (old : string) : option string :=
  match j with JStr s => Some s | JNull => Some old | _ => None end.

Definition dec_bool (j : json) (old : bool) : option bool :=
  match j with JBool b => Some b | JNull => Some old | _ => None end.

(** An [int]: 64 bits on the platforms the program is built for. *)
Definition dec_int (j : json) (old : Z) : option Z :=
  match j with
  | JNum n => if decide (- 2 ^ 63 ≤ n < 2 ^ 63) then Some n else None
  | JNull => Some old
  | _ => None
  end.

(** [time.Time.UnmarshalJSON]; [parse] is RFC 3339 parsing. *)
Definition dec_time (parse : string → option Z) (j : json) (old : Z) : option Z :=
  match j with JStr s => parse s | JNull => Some old | _ => None end.

(** Decoding into a struct: [upd] updates the field a name denotes; the
    boolean records whether every member had the right type. *)
Definition dec_members {A} (upd : string → json → A → option A) (l : list (string * json))
    (a : A) : A * bool :=
  fold_left (λ '(a, ok) '(k, j), match upd k j a with
                                 | Some a' => (a', ok)
                                 | None => (a, false)
                                 end) l (a, true).

Definition dec_struct {A} (upd : string → json → A → option A) (zero : A) (j : json)
    : A * bool :=
  match j with
  | JObj l => dec_members upd l zero
  | JNull => (zero, true)
  | _ => (zero, false)
  end.

(** A body: [None] when the bytes are not one JSON value.  [Decode] gives the
    struct (partly filled on an error) and whether there was no error. *)
Definition Decode {A} (upd : string → json → A → option A) (zero : A) (body : option json)
    : A * bool :=
  match body with
  | None => (zero, false)
  | Some j => dec_struct upd zero j
  end.

(** Decide which field a literal name denotes. *)
Ltac keys := repeat
  match goal with
  | |- context [key_match ?a ?b] =>
    let v := eval vm_compute in (key_match a b) in
    replace (key_match a b) with v by (vm_compute; reflexivity); cbv iota
  end.

Lemma dec_members_cons {A} (upd : string → json → A → option A) k j l a a' :
  upd k j a = Some a' → dec_members upd ((k, j) :: l) a = dec_members upd l a'.
Proof. intros H. unfold dec_members. simpl. by rewrite H. Qed.
