(* ===== verification/Http.v ===== *)
(** * HTTP messages between the operator and the agent

    A response is its status and its body as a JSON value ([None] when there
    is no body or it is not JSON); the status codes are those of [net/http]. *)

From S2P Require Import Prelude GoStd Json.

Local Open Scope Z_scope.

Record HttpResponse := { StatusCode : Z; Body : option json }.

Definition StatusOK : Z := 200.
Definition StatusCreated : Z := 201.
Definition StatusNoContent : Z := 204.
Definition StatusBadRequest : Z := 400.
Definition StatusNotFound : Z := 404.
Definition StatusMethodNotAllowed : Z := 405.
Definition StatusConflict : Z := 409.
Definition StatusInternalServerError : Z := 500.
Definition StatusServiceUnavailable : Z := 503.

(** The zero [time.Time] is year 1: a constant of the Unix time line, in
    nanoseconds. *)
Definition zero_time : Z := -62135596800000000000.
