(* ===== verification/Env.v ===== *)
(** * The operator's environment and memory

    What the operator calls but does not implement: the Kubernetes API, the
    dynamic client for Cilium pools, the SSH library, HTTP, random numbers and
    the clock ([OpE]); the pure library functions it relies on ([Lib], with the
    documented laws in [LibLaws]); and the memory of the operator process: the
    SSH connection managers, their registry and the reconciler's bookkeeping
    maps ([Op]). *)

From Stdlib Require Import SpecFloat.
From S2P Require Import Prelude Effects GoStd Json Http ClaimTypes.

Local Open Scope Z_scope.

(** ** Data of external packages *)

(** An API error, with what [apierrors.IsNotFound] says of it. *)
Record apierr := { err_msg : string; IsNotFound : bool }.

(** Unstructured objects: nested Go values of type [interface{}]. *)
Inductive uval :=
| UNil
| UBool (b : bool)
| UInt (n : Z)
| UStr (s : string)
| UList (l : list uval)
| UMap (m : list (string * uval)).

(** The two API versions of CiliumLoadBalancerIPPool. *)
Inductive GVR := gvrPoolV2 | gvrPoolV2a.
#[export] Instance GVR_eq_dec : EqDecision GVR.
Proof. solve_decision. Defined.
#[export] Instance GVR_countable : Countable GVR.
Proof.
  refine (inj_countable' (λ v, match v with gvrPoolV2 => true | gvrPoolV2a => false end)
                         (λ b, if b then gvrPoolV2 else gvrPoolV2a) _).
  by intros [].
Defined.

(** The value of a Go interface, as [reflect] shows it. *)
Inductive Kind := KFunc | KPtr | KMap | KChan | KUnsafePointer | KOther.
Record iface := {
  if_type : string;      (* rv.Type().String() *)
  if_kind : Kind;        (* rv.Kind() *)
  if_pointer : Z;        (* rv.Pointer() *)
  if_repr : string;      (* fmt's %#v *)
}.

(** ** Library functions *)

Class Lib := {
  (* golang.org/x/crypto/ssh *)
  Signer : Type;
  ParsePrivateKey : string → result string Signer;
  PublicKeys : Signer → iface;
  InsecureIgnoreHostKey : iface;
  (* controllerutil, on an object's finalizer list *)
  ContainsFinalizer : list string → string → bool;
  AddFinalizer : list string → string → list string;
  RemoveFinalizer : list string → string → list string;
  (* meta.SetStatusCondition *)
  SetStatusCondition : list Condition → Condition → list Condition;
  (* unstructured.NestedSlice, as "found"; SetNestedSlice; GetName *)
  NestedSlice : uval → list string → option (list uval);
  SetNestedSlice : uval → list uval → list string → result string uval;
  GetName : uval → string;
  (* strconv: the replaceable float parser, and Quote for %q *)
  strconvParseFloat : string → result string spec_float;
  Quote : string → string;
  (* the conversion of an out-of-range float64 to int64, left to the platform *)
  Int64OutOfRange : spec_float → Z;
  (* net.SplitHostPort, only whether it fails *)
  SplitHostPort : string → result string unit;
  (* time: RFC 3339 parsing *)
  ParseTime : string → option Z;
  (* the text of a JSON decoding error *)
  JsonErrorText : option json → string;
  (* unicode: the case table beyond ASCII *)
  CaseTable : Z → Z;
}.

Class LibLaws (L : Lib) : Prop := {
  AddFinalizer_contains l f : ContainsFinalizer (AddFinalizer l f) f = true;
  RemoveFinalizer_contains l f : ContainsFinalizer (RemoveFinalizer l f) f = false;
  SetNestedSlice_get o l path o' :
    SetNestedSlice o l ("spec" :: path) = Ok o' → NestedSlice o' ("spec" :: path) = Some l;
  SetNestedSlice_name o l path o' :
    SetNestedSlice o l ("spec" :: path) = Ok o' → GetName o' = GetName o;
  SetNestedSlice_ok o l l' path :
    NestedSlice o path = Some l → is_ok (SetNestedSlice o l' path) = true;
}.

(** ** SSH managers as data (internal/ssh/manager.go) *)

Inductive EventReason := ReasonReboot | ReasonConnectionDrop | ReasonReconnectSuccess.

Definition reason_string (r : EventReason) : string :=
  match r with
  | ReasonReboot => "reboot"
  | ReasonConnectionDrop => "connection_drop"
  | ReasonReconnectSuccess => "reconnect_success"
  end.

Record Event := { Reason : EventReason; Ev_Err : option string }.

(** [RouterConfig]: durations in nanoseconds; the function-valued fields are
    interface values, [None] for a nil interface. *)
Record RouterConfig := {
  Address : string;
  Username : string;
  AuthMethod : option iface;
  HostKeyCallback : option iface;
  Timeout : Z;
  KeepAliveInterval : Z;
  KeepAliveCommand : string;
  Dial : option iface;
  Runner : option iface;
  MaxBackoff : Z;
  InitialBackoff : Z;
}.

(** The closure [getSSHManager] registers: what it captures. *)
Record Handler := { h_namespace : string; h_name : string }.
#[export] Instance Handler_eq_dec : EqDecision Handler.
Proof. solve_decision. Defined.

(** [Metrics], three atomic counters. *)
Record Metrics := { active : Z; drops : Z; reconnects : Z }.

(** A context is a number; [cancelled] contexts are kept in the process's
    memory.  A connection is the number of an [*ssh.Client]. *)
Definition ctx := nat.
Definition connid := nat.

Record SSHConnectionManager := {
  config : RouterConfig;
  conn : option connid;
  connected : bool;
  reconnecting : bool;
  lastUptime : spec_float;
  started : bool;
  handlers : gmap Z Handler;
  handlerSeq : Z;
  baseCtx : option ctx;
  baseCancel : option ctx;
  mctx : option ctx;
  cancel : option ctx;
  metrics : Metrics;
}.

(** ** The operator's memory *)

(** Managers are shared by pointer: [heap] holds them by address.  A nil
    registry is [None]. *)
Record Op := {
  heap : gmap nat SSHConnectionManager;
  next : nat;
  cancelled : gset ctx;
  SSHRegistry : option (gmap string (gmap string nat));
  sshHandlers : gmap string Z;
  routerAssignments : gmap string string;
  claimManagers : gmap string nat;
}.

(** ** External calls *)

Inductive Task :=
| KeepAliveLoop (m : nat)
| ReconnectLoop (m : nat) (parent : option ctx)
| HandleEvent (h : Handler) (e : Event).

Section calls.
Context `{L : Lib}.

Inductive OpE : Type → Type :=
(* controller-runtime client *)
| GetClaim (k : NamespacedName) : OpE (result apierr PublicIPClaim)
| UpdateClaim (c : PublicIPClaim) : OpE (result apierr PublicIPClaim)
| StatusUpdate (c : PublicIPClaim) : OpE (result apierr PublicIPClaim)
| GetSecret (k : NamespacedName) : OpE (result apierr (gmap string string))
| RecordEvent (typ reason msg : string) : OpE unit
(* dynamic client *)
| PoolGet (v : GVR) (name : string) : OpE (result apierr uval)
| PoolUpdate (v : GVR) (obj : uval) : OpE (result apierr uval)
(* crypto/rand and the clock *)
| RandRead (n : nat) : OpE (list Z)
| Now : OpE Z
| NowRFC3339 : OpE string
(* ssh.Dial with the user and the key; a client's Close; the command runner *)
| SshDial (addr user : string) (auth : iface) : OpE (result string connid)
| SshClose (c : connid) : OpE unit
| RunnerRun (c : connid) (command : string) : OpE (result string string)
(* the tunnel's local listener and HTTP through it *)
| Listen : OpE (result string string)
| NewRequest (method url : string) : OpE (result string unit)
| HttpDo (method url : string) (body : option json) : OpE (result string HttpResponse)
(* a tunnel torn down: cancel, wait for its goroutine, close the SSH client *)
| CloseTunnel (c : connid) : OpE unit
(* goroutines, waiting for them, and panics *)
| Spawn (t : Task) : OpE unit
| WgWait (m : nat) : OpE unit
| Panic (msg : string) : OpE Empty_set.

(** The monad of the operator's code. *)
Definition OpM := M Op OpE.

Definition panic {A} (msg : string) : OpM A :=
  λ _, Vis (Panic msg) (λ x : Empty_set, match x with end).
End calls.

(** ** Updates of the memory *)

Definition set_heap (h : gmap nat SSHConnectionManager) (s : Op) : Op :=
  {| heap := h; next := next s; cancelled := cancelled s; SSHRegistry := SSHRegistry s;
     sshHandlers := sshHandlers s; routerAssignments := routerAssignments s;
     claimManagers := claimManagers s |}.
Definition set_next (n : nat) (s : Op) : Op :=
  {| heap := heap s; next := n; cancelled := cancelled s; SSHRegistry := SSHRegistry s;
     sshHandlers := sshHandlers s; routerAssignments := routerAssignments s;
     claimManagers := claimManagers s |}.
Definition set_cancelled (c : gset ctx) (s : Op) : Op :=
  {| heap := heap s; next := next s; cancelled := c; SSHRegistry := SSHRegistry s;
     sshHandlers := sshHandlers s; routerAssignments := routerAssignments s;
     claimManagers := claimManagers s |}.
Definition set_registry (r : option (gmap string (gmap string nat))) (s : Op) : Op :=
  {| heap := heap s; next := next s; cancelled := cancelled s; SSHRegistry := r;
     sshHandlers := sshHandlers s; routerAssignments := routerAssignments s;
     claimManagers := claimManagers s |}.
Definition set_sshHandlers (m : gmap string Z) (s : Op) : Op :=
  {| heap := heap s; next := next s; cancelled := cancelled s; SSHRegistry := SSHRegistry s;
     sshHandlers := m; routerAssignments := routerAssignments s;
     claimManagers := claimManagers s |}.
Definition set_routerAssignments (m : gmap string string) (s : Op) : Op :=
  {| heap := heap s; next := next s; cancelled := cancelled s; SSHRegistry := SSHRegistry s;
     sshHandlers := sshHandlers s; routerAssignments := m;
     claimManagers := claimManagers s |}.
Definition set_claimManagers (m : gmap string nat) (s : Op) : Op :=
  {| heap := heap s; next := next s; cancelled := cancelled s; SSHRegistry := SSHRegistry s;
     sshHandlers := sshHandlers s; routerAssignments := routerAssignments s;
     claimManagers := m |}.
