(* ===== verification/Pool.v ===== *)
(** * The Cilium pool (ensureIPInPool / removeIPFromPool)

    [defaultEnsureIPInPool] and [defaultRemoveIPFromPool] of
    internal/controller/publicipclaim_controller.go: the operator reads the
    pool object (in API version v2, else v2alpha1), edits the list
    [spec.blocks] and writes the object back.  They are verified against the
    documented concurrency control of the API server ([api_law]): other
    clients may change the pools at any moment, and an update only succeeds
    if the stored object is still the one this client read. *)

From S2P Require Import Prelude Effects GoStd Json Http ClaimTypes Env.

Local Open Scope Z_scope.

Section pool.
Context `{L : Lib}.

Definition blocks_path : list string := ["spec"; "blocks"].

(** [fmt.Sprintf("%s/32", ip)]. *)
Definition cidr32 (ip : string) : string := ip +:+ "/32".

(** [m[k]] of a [map[string]interface{}]. *)
Fixpoint map_get (k : string) (m : list (string * uval)) : uval :=
  match m with
  | [] => UNil
  | (k', v) :: m' => if decide (k = k') then v else map_get k m'
  end.

(** [m["cidr"] == cidr]: an interface compared with a string. *)
Definition has_cidr (cidr : string) (m : list (string * uval)) : bool :=
  match map_get "cidr" m with
  | UStr s => bool_decide (s = cidr)
  | _ => false
  end.

(** The loop of [defaultEnsureIPInPool]: is the block already there?  [None]
    is the panic of [b.(map[string]interface{})] on a block that is no map. *)
Fixpoint find_block (cidr : string) (spec : list uval) : option bool :=
  match spec with
  | [] => Some false
  | UMap m :: spec' => if has_cidr cidr m then Some true else find_block cidr spec'
  | _ :: _ => None
  end.

(** The loop of [defaultRemoveIPFromPool]: the blocks that stay, and whether
    one was removed. *)
Fixpoint remove_blocks (cidr : string) (spec newSpec : list uval) (removed : bool)
    : option (list uval * bool) :=
  match spec with
  | [] => Some (newSpec, removed)
  | UMap m :: spec' =>
    if has_cidr cidr m then remove_blocks cidr spec' newSpec true
    else remove_blocks cidr spec' (newSpec ++ [UMap m]) removed
  | _ :: _ => None
  end.

Definition type_assertion_panic : string :=
  "interface conversion: interface {} is not map[string]interface {}".

(** The rest of [defaultEnsureIPInPool] once the API version is chosen. *)
Definition ensure_in (gvr : GVR) (poolName ip : string) : OpM (result string unit) :=
  r ← call (PoolGet gvr poolName);
  match r with
  | Err e => mret (Err ("failed to get pool " +:+ poolName +:+ ": " +:+ err_msg e))
  | Ok pool =>
    let spec := default [] (NestedSlice pool blocks_path) in
    let cidr := cidr32 ip in
    match find_block cidr spec with
    | None => panic type_assertion_panic
    | Some true => mret (Ok tt)
    | Some false =>
      let spec' := spec ++ [UMap [("cidr", UStr cidr)]] in
      match SetNestedSlice pool spec' blocks_path with
      | Err e => mret (Err ("failed to set blocks in pool: " +:+ e))
      | Ok pool' =>
        r' ← call (PoolUpdate gvr pool');
        match r' with
        | Err e => mret (Err ("failed to update pool " +:+ poolName +:+ ": " +:+ err_msg e))
        | Ok _ => mret (Ok tt)
        end
      end
    end
  end.

Definition defaultEnsureIPInPool (poolName ip : string) : OpM (result string unit) :=
  r ← call (PoolGet gvrPoolV2 poolName);
  match r with
  | Ok _ => ensure_in gvrPoolV2 poolName ip
  | Err e => if IsNotFound e then ensure_in gvrPoolV2a poolName ip
             else mret (Err ("failed to check pool: " +:+ err_msg e))
  end.

(** The rest of [defaultRemoveIPFromPool] once a pool object was read. *)
Definition remove_from (gvr : GVR) (pool : uval) (poolName ip : string)
    : OpM (result string unit) :=
  match NestedSlice pool blocks_path with
  | None | Some [] => mret (Ok tt)
  | Some spec =>
    match remove_blocks (cidr32 ip) spec [] false with
    | None => panic type_assertion_panic
    | Some (_, false) => mret (Ok tt)
    | Some (newSpec, true) =>
      match SetNestedSlice pool newSpec blocks_path with
      | Err e => mret (Err ("failed to set blocks in pool: " +:+ e))
      | Ok pool' =>
        r' ← call (PoolUpdate gvr pool');
        match r' with
        | Err e => mret (Err ("failed to update pool " +:+ poolName +:+ ": " +:+ err_msg e))
        | Ok _ => mret (Ok tt)
        end
      end
    end
  end.

Definition defaultRemoveIPFromPool (poolName ip : string) : OpM (result string unit) :=
  if decide (ip = "") then mret (Ok tt) else
  r ← call (PoolGet gvrPoolV2 poolName);
  match r with
  | Ok pool => remove_from gvrPoolV2 pool poolName ip
  | Err e =>
    if IsNotFound e then
      r' ← call (PoolGet gvrPoolV2a poolName);
      match r' with
      | Ok pool => remove_from gvrPoolV2a pool poolName ip
      | Err e' => if IsNotFound e' then mret (Ok tt)
                  else mret (Err ("failed to get pool " +:+ poolName +:+ ": " +:+ err_msg e'))
      end
    else mret (Err ("failed to get pool " +:+ poolName +:+ ": " +:+ err_msg e))
  end.

(** ** The API server's concurrency control *)

(** What this client did to the pools: a read with its answer; a write of an
    object, with the object it replaced and whether it was acknowledged.  (A
    write that is not acknowledged may have been refused or lost.) *)
Inductive pool_event :=
| Read (v : GVR) (n : string) (r : result apierr uval)
| Wrote (v : GVR) (before : option uval) (o : uval) (acked : bool).

(** [store]: the pools as the server holds them; [seen]: the object this
    client last read, by version and name; [acts]: what this client did. *)
Record PoolW := {
  store : gmap (GVR * string) uval;
  seen : gmap (GVR * string) uval;
  acts : list pool_event;
}.

(** A block list the schema of the pool resource admits. *)
Definition blocks_wf (o : uval) : Prop :=
  ∀ l, NestedSlice o blocks_path = Some l → Forall (λ b, ∃ m, b = UMap m) l.

(** Between two calls other clients may do anything ([st] is arbitrary).  A
    read returns the stored object; an update succeeds only if the stored
    object is still the one last read (its resourceVersion matches), and then
    replaces it.  No call may panic. *)
Definition api_post X (e : OpE X) (w : PoolW) : X → PoolW → Prop :=
  match e in OpE X return X → PoolW → Prop with
  | PoolGet v n => λ r w',
      ∃ st, match r with
      | Ok o => st !! (v, n) = Some o ∧ GetName o = n ∧ blocks_wf o ∧
                w' = {| store := st; seen := <[(v, n) := o]> (seen w); acts := acts w ++ [Read v n r] |}
      | Err e => (IsNotFound e = true → st !! (v, n) = None) ∧
                 w' = {| store := st; seen := seen w; acts := acts w ++ [Read v n r] |}
      end
  | PoolUpdate v o => λ r w',
      ∃ st, match r with
      | Ok _ => st !! (v, GetName o) = seen w !! (v, GetName o) ∧
                w' = {| store := <[(v, GetName o) := o]> st;
                        seen := delete (v, GetName o) (seen w);
                        acts := acts w ++ [Wrote v (st !! (v, GetName o)) o true] |}
      | Err _ => ∃ before, w' = {| store := st; seen := seen w;
                                   acts := acts w ++ [Wrote v before o false] |}
      end
  | _ => λ _ w', ∃ st, w' = {| store := st; seen := seen w; acts := acts w |}
  end.

Definition api_pre X (e : OpE X) (w : PoolW) : Prop :=
  match e with Panic _ => False | _ => True end.

Definition api_law : espec OpE PoolW := ESpec api_pre api_post.

(** ** Block lists *)

Definition is_block (cidr : string) (b : uval) : bool :=
  match b with UMap m => has_cidr cidr m | _ => false end.

Definition all_maps (l : list uval) : Prop := Forall (λ b, ∃ m, b = UMap m) l.

Lemma find_block_spec cidr l :
  all_maps l → find_block cidr l = Some (existsb (is_block cidr) l).
Proof.
  induction 1 as [|b l [m ->] Hl IH]; [done|]. simpl. by destruct (has_cidr cidr m).
Qed.

(** The removal loop is a filter, and it reports whether anything matched. *)
Lemma remove_blocks_spec cidr l acc removed :
  all_maps l →
  remove_blocks cidr l acc removed
  = Some (acc ++ List.filter (λ b, negb (is_block cidr b)) l,
          removed || existsb (is_block cidr) l).
Proof.
  intros Hl. revert acc removed.
  induction Hl as [|b l [m ->] Hl IH]; intros acc removed; simpl.
  - by rewrite app_nil_r, orb_false_r.
  - rewrite !IH. destruct (has_cidr cidr m); simpl.
    + by rewrite orb_true_r.
    + by rewrite <-app_assoc.
Qed.

Lemma existsb_filter_neg cidr l :
  existsb (is_block cidr) (List.filter (λ b, negb (is_block cidr b)) l) = false.
Proof.
  induction l as [|b l IH]; [done|]. simpl.
  destruct (is_block cidr b) eqn:E; simpl; by rewrite ?E.
Qed.

Lemma has_cidr_new cidr : has_cidr cidr [("cidr", UStr cidr)] = true.
Proof. unfold has_cidr. simpl. by rewrite bool_decide_eq_true. Qed.

Lemma all_maps_blocks o : blocks_wf o → all_maps (default [] (NestedSlice o blocks_path)).
Proof.
  unfold blocks_wf, all_maps.
  destruct (NestedSlice o blocks_path); simpl; intros H; [by apply H|constructor].
Qed.

Context {LL : LibLaws L}.

Lemma set_blocks_get o l o' :
  SetNestedSlice o l blocks_path = Ok o' → NestedSlice o' blocks_path = Some l.
Proof. apply SetNestedSlice_get. Qed.

Lemma set_blocks_name o l o' :
  SetNestedSlice o l blocks_path = Ok o' → GetName o' = GetName o.
Proof. apply SetNestedSlice_name. Qed.

(** The blocks of a pool object. *)
Definition blocks (o : uval) : list uval := default [] (NestedSlice o blocks_path).

(** [o'] is [o] with the block list [l]. *)
Definition edited (o : uval) (l : list uval) (o' : uval) : Prop :=
  SetNestedSlice o l blocks_path = Ok o' ∧ NestedSlice o' blocks_path = Some l ∧ GetName o' = GetName o.

Lemma edited_set o l o' : SetNestedSlice o l blocks_path = Ok o' → edited o l o'.
Proof. intros H. split; [done|]. split; [by apply set_blocks_get in H|by apply set_blocks_name in H]. Qed.

(** The end of an operation that has done [h] and has read the object [o] of
    pool [n] in version [v], and whose aim is the block list [l], which differs
    from the one read if [todo].  Success means: nothing was to do, nothing was
    written and [o] was stored; or exactly one write was made and acknowledged,
    it replaced [o] itself by [o] with the blocks [l], and that is stored.
    Failure means that nothing was written, or that the same write was made and
    not acknowledged. *)
Definition settled (h : list pool_event) (v : GVR) (n : string) (o : uval) (todo : bool)
    (l : list uval) (r : result string unit) (w' : PoolW) : Prop :=
  match r with
  | Ok _ => if todo
            then ∃ o', edited o l o' ∧ acts w' = h ++ [Wrote v (Some o) o' true] ∧
                       store w' !! (v, n) = Some o'
            else acts w' = h ∧ store w' !! (v, n) = Some o
  | Err _ => todo = true ∧
             (acts w' = h ∨ ∃ o' b, edited o l o' ∧ acts w' = h ++ [Wrote v b o' false])
  end.

(** The write at the end of both operations. *)
Lemma write_back v n o l h s w :
  GetName o = n → seen w !! (v, n) = Some o → acts w = h →
  wpM api_law (match SetNestedSlice o l blocks_path with
               | Err e => mret (Err ("failed to set blocks in pool: " +:+ e))
               | Ok o' =>
                 r' ← call (PoolUpdate v o');
                 match r' with
                 | Err e => mret (Err ("failed to update pool " +:+ n +:+ ": " +:+ err_msg e))
                 | Ok _ => mret (Ok tt)
                 end
               end : OpM (result string unit))
    (λ r s' w', s' = s ∧ settled h v n o true l r w') s w.
Proof.
  intros Hn Hseen Hh. destruct (SetNestedSlice o l blocks_path) as [o'|e] eqn:Hset.
  - pose proof (edited_set _ _ _ Hset) as He. pose proof He as (_ & _ & Hname).
    rewrite wpM_bind, wpM_call. split; [done|].
    intros [o1|e] w2 [st2 H2]; rewrite wpM_ret; (split; [done|]).
    + destruct H2 as [Hst2 ->]. rewrite Hname, Hn in Hst2 |- *. exists o'. split; [done|].
      simpl. by rewrite Hst2, Hseen, Hh, lookup_insert_eq.
    + destruct H2 as [b ->]. split; [done|]. right. exists o', b. simpl. by rewrite Hh.
  - rewrite wpM_ret. split; [done|]. split; [done|by left].
Qed.

Definition new_block (ip : string) : uval := UMap [("cidr", UStr (cidr32 ip))].
Definition listed (ip : string) (l : list uval) : bool := existsb (is_block (cidr32 ip)) l.
Definition other_blocks (ip : string) (l : list uval) : list uval :=
  List.filter (λ b, negb (is_block (cidr32 ip) b)) l.

(** What [ensureIPInPool] has done: it reads the pool in version v2, then again
    in the version it settles on (v2 unless v2 has no such pool), and the block
    is appended to the blocks read unless it is among them. *)
Definition ensured (h : list pool_event) (n ip : string) (r : result string unit) (w' : PoolW) : Prop :=
  ∃ r0, let h1 := h ++ [Read gvrPoolV2 n r0] in
  match (match r0 with
         | Ok _ => Some gvrPoolV2
         | Err e => if IsNotFound e then Some gvrPoolV2a else None
         end) with
  | None => is_ok r = false ∧ acts w' = h1
  | Some v => ∃ r1, let h2 := h1 ++ [Read v n r1] in
    match r1 with
    | Err _ => is_ok r = false ∧ acts w' = h2
    | Ok o => settled h2 v n o (negb (listed ip (blocks o))) (blocks o ++ [new_block ip]) r w'
    end
  end.

Lemma ensure_in_correct gvr n ip s w :
  wpM api_law (ensure_in gvr n ip) (λ r s' w', s' = s ∧
    ∃ r1, let h2 := acts w ++ [Read gvr n r1] in
    match r1 with
    | Err _ => is_ok r = false ∧ acts w' = h2
    | Ok o => settled h2 gvr n o (negb (listed ip (blocks o))) (blocks o ++ [new_block ip]) r w'
    end) s w.
Proof.
  unfold ensure_in. rewrite wpM_bind, wpM_call. split; [done|].
  intros [pool|e] w1 [st1 H1]; [|destruct H1 as [_ ->]; rewrite wpM_ret; split; [done|]; by exists (Err e)].
  destruct H1 as (Hst & Hn & Hwf & ->). cbv zeta.
  rewrite find_block_spec by by apply all_maps_blocks. fold (blocks pool) (listed ip (blocks pool)).
  destruct (listed ip (blocks pool)) eqn:Hin.
  - rewrite wpM_ret. split; [done|]. exists (Ok pool). by rewrite Hin.
  - eapply wpM_mono; [apply (write_back gvr n); [done|by simpl; rewrite lookup_insert_eq|reflexivity]|].
    intros r s' w' [-> Hr]. split; [done|]. exists (Ok pool). by rewrite Hin.
Qed.

(** C15: what [ensureIPInPool] does to the pools, while other clients write them
    at any time.  It looks the pool up in version v2 and uses v2alpha1 only if
    v2 has no such pool.  It succeeds in one of two ways: the /32 block of the
    address is among the blocks it read, and then it writes nothing; or it is
    not, and then it makes exactly one write, which replaces the very object it
    read, as stored at that moment, by that object with the same blocks in the
    same order and the new block at the end.  So no block of anyone is lost and
    none is added twice.  When it fails it has written nothing, or that same
    object without an acknowledgement.  The operator's memory is untouched, and
    no admissible block makes the code panic. *)
Theorem defaultEnsureIPInPool_correct n ip s w :
  wpM api_law (defaultEnsureIPInPool n ip)
    (λ r s' w', s' = s ∧ ensured (acts w) n ip r w') s w.
Proof.
  unfold defaultEnsureIPInPool. rewrite wpM_bind, wpM_call. split; [done|].
  intros r0 w1 [st1 H1].
  assert (acts w1 = acts w ++ [Read gvrPoolV2 n r0]) as Hd
    by (destruct r0; [destruct H1 as (_ & _ & _ & ->)|destruct H1 as [_ ->]]; done).
  assert (∀ v, (match r0 with
     | Ok _ => Some gvrPoolV2 | Err e => if IsNotFound e then Some gvrPoolV2a else None end) = Some v →
     wpM api_law (ensure_in v n ip) (λ r s' w', s' = s ∧ ensured (acts w) n ip r w') s w1) as Hv.
  { intros v Hv. eapply wpM_mono; [apply ensure_in_correct|]. intros r s' w' [-> Hr]. split; [done|].
    exists r0. cbv zeta. rewrite Hv. by rewrite Hd in Hr. }
  destruct r0 as [pool|e]; [by apply Hv|].
  destruct (IsNotFound e) eqn:Hnf; [by apply Hv|].
  rewrite wpM_ret. split; [done|]. exists (Err e). cbv zeta. by rewrite Hnf.
Qed.

(** What [removeIPFromPool] has done: it reads the pool in version v2 and, only
    if v2 has no such pool, in v2alpha1; without the pool there is nothing to
    do; otherwise the blocks read are kept but for those of the address. *)
Definition removed (h : list pool_event) (n ip : string) (r : result string unit) (w' : PoolW) : Prop :=
  ∃ r0, let h1 := h ++ [Read gvrPoolV2 n r0] in
  match r0 with
  | Ok o => settled h1 gvrPoolV2 n o (listed ip (blocks o)) (other_blocks ip (blocks o)) r w'
  | Err e =>
    if IsNotFound e then
      ∃ r1, let h2 := h1 ++ [Read gvrPoolV2a n r1] in
      match r1 with
      | Ok o => settled h2 gvrPoolV2a n o (listed ip (blocks o)) (other_blocks ip (blocks o)) r w'
      | Err e' => is_ok r = IsNotFound e' ∧ acts w' = h2 ∧
                  (IsNotFound e' = true → store w' !! (gvrPoolV2a, n) = None)
      end
    else is_ok r = false ∧ acts w' = h1
  end.

Lemma filter_absent cidr l :
  existsb (is_block cidr) l = false → List.filter (λ b, negb (is_block cidr b)) l = l.
Proof.
  induction l as [|b l IH]; [done|]. simpl. intros [Hb Hl]%orb_false_iff.
  rewrite Hb. simpl. by rewrite IH.
Qed.

Lemma remove_from_correct gvr pool n ip s w :
  store w !! (gvr, n) = Some pool → seen w !! (gvr, n) = Some pool →
  GetName pool = n → blocks_wf pool →
  wpM api_law (remove_from gvr pool n ip) (λ r s' w', s' = s ∧
    settled (acts w) gvr n pool (listed ip (blocks pool)) (other_blocks ip (blocks pool)) r w') s w.
Proof.
  intros Hst Hseen Hn Hwf. unfold remove_from, blocks.
  pose proof (all_maps_blocks _ Hwf) as Hm.
  destruct (NestedSlice pool blocks_path) as [[|b spec]|] eqn:Hb; [by rewrite wpM_ret| |by rewrite wpM_ret].
  simpl in Hm. rewrite remove_blocks_spec by done. rewrite app_nil_l, orb_false_l.
  cbn [default from_option id]. fold (listed ip (b :: spec)) (other_blocks ip (b :: spec)).
  destruct (listed ip (b :: spec)) eqn:Hin; [|by rewrite wpM_ret].
  by apply write_back.
Qed.

(** C16: what [removeIPFromPool] does to the pools for a non-empty address, while
    other clients write them at any time.  It looks the pool up in version v2,
    and in v2alpha1 only if v2 has no such pool; that neither version has it is
    a success without a write.  Otherwise it succeeds in one of two ways: no
    block it read is for the address, and then it writes nothing; or one is,
    and then it makes exactly one write, which replaces the very object it
    read, as stored at that moment, by that object with exactly the other
    blocks, in order.  When it fails it has written nothing, or that same
    object without an acknowledgement. *)
Theorem defaultRemoveIPFromPool_correct n ip s w :
  ip ≠ "" →
  wpM api_law (defaultRemoveIPFromPool n ip)
    (λ r s' w', s' = s ∧ removed (acts w) n ip r w') s w.
Proof.
  intros Hip. unfold defaultRemoveIPFromPool. rewrite decide_False by done.
  rewrite wpM_bind, wpM_call. split; [done|].
  intros [pool|e] w1 [st1 H1].
  - destruct H1 as (Hst & Hn & Hwf & ->).
    eapply wpM_mono; [apply remove_from_correct; simpl; try done; by rewrite lookup_insert_eq|].
    intros r s' w' [-> Hr]. split; [done|]. by exists (Ok pool).
  - destruct H1 as [_ ->]. destruct (IsNotFound e) eqn:Hnf.
    2:{ rewrite wpM_ret. split; [done|]. exists (Err e). cbv zeta. by rewrite Hnf. }
    rewrite wpM_bind, wpM_call. split; [done|].
    intros [pool|e'] w2 [st2 H2].
    + destruct H2 as (Hst & Hn & Hwf & ->).
      eapply wpM_mono; [apply remove_from_correct; simpl; try done; by rewrite lookup_insert_eq|].
      intros r s' w' [-> Hr]. split; [done|]. exists (Err e). cbv zeta. rewrite Hnf. by exists (Ok pool).
    + destruct H2 as [Hnone ->].
      assert (∀ r, is_ok r = IsNotFound e' → removed (acts w) n ip r {| store := st2; seen := seen w;
        acts := (acts w ++ [Read gvrPoolV2 n (Err e)]) ++ [Read gvrPoolV2a n (Err e')] |}) as Hr.
      { intros r Hr. exists (Err e). cbv zeta. rewrite Hnf. by exists (Err e'). }
      destruct (IsNotFound e') eqn:Hnf'; rewrite wpM_ret; (split; [done|]); by apply Hr.
Qed.

(** ** On a server that is not contended *)

(** A server of pools that no other client writes to: it answers every read
    and performs every update. *)
Definition calm_api : handler OpE (gmap (GVR * string) uval) := λ X e w,
  match e in OpE X return option (X * gmap (GVR * string) uval) with
  | PoolGet v n => Some (match w !! (v, n) with
                         | Some o => Ok o
                         | None => Err {| err_msg := "not found"; IsNotFound := true |}
                         end, w)
  | PoolUpdate v o => Some (Ok o, <[(v, GetName o) := o]> w)
  | _ => None
  end.

Lemma calm_ensure_present (n ip : string) (s : Op) (w : gmap (GVR * string) uval) pool l :
  w !! (gvrPoolV2, n) = Some pool → NestedSlice pool blocks_path = Some l → all_maps l →
  existsb (is_block (cidr32 ip)) l = true →
  run calm_api (defaultEnsureIPInPool n ip s) w = Some ((Ok tt, s), w).
Proof.
  intros Hw Hl Hm Hin. unfold defaultEnsureIPInPool, ensure_in. simpl. rewrite Hw. simpl.
  rewrite Hw, Hl. simpl. by rewrite find_block_spec, Hin.
Qed.

Lemma calm_ensure_absent (n ip : string) (s : Op) (w : gmap (GVR * string) uval) pool l :
  w !! (gvrPoolV2, n) = Some pool → GetName pool = n →
  NestedSlice pool blocks_path = Some l → all_maps l →
  existsb (is_block (cidr32 ip)) l = false →
  ∃ pool', GetName pool' = n ∧
    NestedSlice pool' blocks_path = Some (l ++ [UMap [("cidr", UStr (cidr32 ip))]]) ∧
    run calm_api (defaultEnsureIPInPool n ip s) w
    = Some ((Ok tt, s), <[(gvrPoolV2, n) := pool']> w).
Proof.
  intros Hw Hn Hl Hm Hin. unfold defaultEnsureIPInPool, ensure_in. simpl. rewrite Hw. simpl.
  rewrite Hw, Hl. simpl. rewrite find_block_spec, Hin by done.
  set (l' := l ++ _). pose proof (SetNestedSlice_ok pool l l' blocks_path Hl) as Hok.
  destruct (SetNestedSlice pool l' blocks_path) as [pool'|] eqn:Hset; [|done].
  pose proof (set_blocks_name _ _ _ Hset) as Hname. rewrite Hn in Hname. exists pool'.
  split; [done|]. split; [by apply set_blocks_get in Hset|]. simpl. by rewrite Hname.
Qed.

Lemma calm_remove (n ip : string) (s : Op) (w : gmap (GVR * string) uval) pool l :
  ip ≠ "" → w !! (gvrPoolV2, n) = Some pool → GetName pool = n →
  NestedSlice pool blocks_path = Some l → all_maps l →
  existsb (is_block (cidr32 ip)) l = true →
  ∃ pool', NestedSlice pool' blocks_path
           = Some (List.filter (λ b, negb (is_block (cidr32 ip) b)) l) ∧
    run calm_api (defaultRemoveIPFromPool n ip s) w
    = Some ((Ok tt, s), <[(gvrPoolV2, n) := pool']> w).
Proof.
  intros Hip Hw Hn Hl Hm Hin. unfold defaultRemoveIPFromPool, remove_from.
  rewrite decide_False by done. simpl. rewrite Hw. simpl. rewrite Hl.
  destruct l as [|b l]; [done|]. rewrite remove_blocks_spec, Hin, app_nil_l by done.
  set (l' := List.filter _ _). simpl.
  pose proof (SetNestedSlice_ok pool _ l' blocks_path Hl) as Hok.
  destruct (SetNestedSlice pool l' blocks_path) as [pool'|] eqn:Hset; [|done].
  pose proof (set_blocks_name _ _ _ Hset) as Hname. rewrite Hn in Hname. exists pool'.
  split; [by apply set_blocks_get in Hset|]. simpl. by rewrite Hname.
Qed.

Lemma existsb_app_new ip l :
  existsb (is_block (cidr32 ip)) (l ++ [UMap [("cidr", UStr (cidr32 ip))]]) = true.
Proof. rewrite existsb_app. simpl. by rewrite has_cidr_new, orb_true_r. Qed.

(** Adding an address to an existing pool and removing it again succeeds
    and restores the block list exactly.  On an uncontended server the first
    [ensureIPInPool] appends the /32 block, a second one changes nothing, and
    [removeIPFromPool] brings back the original blocks. *)
Theorem ensure_remove_roundtrip (n ip : string) (s : Op) (w : gmap (GVR * string) uval) pool l :
  ip ≠ "" → w !! (gvrPoolV2, n) = Some pool → GetName pool = n →
  NestedSlice pool blocks_path = Some l → all_maps l →
  existsb (is_block (cidr32 ip)) l = false →
  ∃ pool1 pool2,
    let w1 := <[(gvrPoolV2, n) := pool1]> w in
    let w2 := <[(gvrPoolV2, n) := pool2]> w1 in
    NestedSlice pool1 blocks_path = Some (l ++ [UMap [("cidr", UStr (cidr32 ip))]]) ∧
    NestedSlice pool2 blocks_path = Some l ∧
    run calm_api (defaultEnsureIPInPool n ip s) w = Some ((Ok tt, s), w1) ∧
    run calm_api (defaultEnsureIPInPool n ip s) w1 = Some ((Ok tt, s), w1) ∧
    run calm_api (defaultRemoveIPFromPool n ip s) w1 = Some ((Ok tt, s), w2).
Proof.
  intros Hip Hw Hn Hl Hm Hin.
  destruct (calm_ensure_absent n ip s w pool l) as (pool1 & Hn1 & Hl1 & Hr1); try done.
  assert (all_maps (l ++ [UMap [("cidr", UStr (cidr32 ip))]])) as Hm1.
  { apply Forall_app. split; [done|]. repeat constructor. by eexists. }
  destruct (calm_remove n ip s (<[(gvrPoolV2, n) := pool1]> w) pool1
    (l ++ [UMap [("cidr", UStr (cidr32 ip))]])) as (pool2 & Hl2 & Hr2);
    rewrite ?lookup_insert_eq; try done; [apply existsb_app_new|].
  exists pool1, pool2. cbv zeta. split; [done|]. split.
  { rewrite Hl2, List.filter_app, filter_absent by done. simpl.
    by rewrite has_cidr_new, app_nil_r. }
  split; [done|]. split; [|done].
  eapply calm_ensure_present; [by rewrite lookup_insert_eq|done|done|apply existsb_app_new].
Qed.
End pool.
