(* ===== verification/SshManager.v ===== *)
(** * The SSH connection manager (internal/ssh/manager.go)

    The manager's fields are [SSHConnectionManager] of Env; managers live in
    the process's [heap] and are passed by address, as Go passes pointers.
    The sections the code runs under its mutex are functions on the record
    ([start_locked], [establish_locked], ...); the methods are programs that
    run them between their external calls (dialling, closing, goroutines).
    The same sections drive the interleaving model of SshConcurrency. *)

From Stdlib Require Import SpecFloat.
From S2P Require Import Prelude Effects GoStd Json Http ClaimTypes Env.

Local Open Scope Z_scope.

Definition Second : Z := 1000000000.
Definition Minute : Z := 60 * Second.

(** ** Floating point: IEEE 754 binary64 *)

Definition f64_add (x y : spec_float) : spec_float := SFadd 53 1024 x y.
Definition f64_ltb (x y : spec_float) : bool := SFltb x y.
Definition f64_zero : spec_float := S754_zero false.
Definition f64_one : spec_float := S754_finite false 4503599627370496 (-52).

(** [previous > 0 && uptime+1 < previous]. *)
Definition reboot_detected (previous uptime : spec_float) : bool :=
  f64_ltb f64_zero previous && f64_ltb (f64_add uptime f64_one) previous.

(** ** Sections under the mutex *)

Definition start_locked (base c : ctx) (m : SSHConnectionManager) : SSHConnectionManager :=
  {| config := config m; conn := conn m; connected := connected m;
     reconnecting := reconnecting m; lastUptime := lastUptime m; started := true;
     handlers := handlers m; handlerSeq := handlerSeq m;
     baseCtx := Some base; baseCancel := Some base; mctx := Some c; cancel := Some c;
     metrics := metrics m |}.

(** The new connection is installed; the caller closes the old one. *)
Definition establish_locked (c : connid) (m : SSHConnectionManager) : SSHConnectionManager :=
  {| config := config m; conn := Some c; connected := true; reconnecting := false;
     lastUptime := lastUptime m; started := started m; handlers := handlers m;
     handlerSeq := handlerSeq m; baseCtx := baseCtx m; baseCancel := baseCancel m;
     mctx := mctx m; cancel := cancel m; metrics := metrics m |}.

Definition check_locked (uptime : spec_float) (m : SSHConnectionManager) : SSHConnectionManager :=
  {| config := config m; conn := conn m; connected := connected m;
     reconnecting := reconnecting m; lastUptime := uptime; started := started m;
     handlers := handlers m; handlerSeq := handlerSeq m; baseCtx := baseCtx m;
     baseCancel := baseCancel m; mctx := mctx m; cancel := cancel m; metrics := metrics m |}.

Definition transition_locked (m : SSHConnectionManager) : SSHConnectionManager :=
  {| config := config m; conn := None; connected := false; reconnecting := true;
     lastUptime := lastUptime m; started := started m; handlers := handlers m;
     handlerSeq := handlerSeq m; baseCtx := baseCtx m; baseCancel := baseCancel m;
     mctx := None; cancel := None; metrics := metrics m |}.

(** The end of [reconnectLoop]: [fresh] is the context it creates when the
    manager has none. *)
Definition reconnected_locked (fresh : ctx) (m : SSHConnectionManager) : SSHConnectionManager :=
  let renew := match mctx m, cancel m with Some _, Some _ => false | _, _ => true end in
  {| config := config m; conn := conn m; connected := connected m; reconnecting := false;
     lastUptime := lastUptime m; started := started m; handlers := handlers m;
     handlerSeq := handlerSeq m; baseCtx := baseCtx m; baseCancel := baseCancel m;
     mctx := if renew then Some fresh else mctx m;
     cancel := if renew then Some fresh else cancel m; metrics := metrics m |}.

Definition close_locked (m : SSHConnectionManager) : SSHConnectionManager :=
  {| config := config m; conn := None; connected := false; reconnecting := false;
     lastUptime := lastUptime m; started := false; handlers := handlers m;
     handlerSeq := handlerSeq m; baseCtx := None; baseCancel := None;
     mctx := None; cancel := None; metrics := metrics m |}.

Definition set_handlers (h : gmap Z Handler) (seq : Z) (m : SSHConnectionManager)
    : SSHConnectionManager :=
  {| config := config m; conn := conn m; connected := connected m;
     reconnecting := reconnecting m; lastUptime := lastUptime m; started := started m;
     handlers := h; handlerSeq := seq; baseCtx := baseCtx m; baseCancel := baseCancel m;
     mctx := mctx m; cancel := cancel m; metrics := metrics m |}.

Definition set_metrics (f : Metrics → Metrics) (m : SSHConnectionManager)
    : SSHConnectionManager :=
  {| config := config m; conn := conn m; connected := connected m;
     reconnecting := reconnecting m; lastUptime := lastUptime m; started := started m;
     handlers := handlers m; handlerSeq := handlerSeq m; baseCtx := baseCtx m;
     baseCancel := baseCancel m; mctx := mctx m; cancel := cancel m;
     metrics := f (metrics m) |}.

(** ** Metrics: atomic 64-bit counters *)

Definition IncActive (x : Metrics) : Metrics :=
  {| active := wrap64s (active x + 1); drops := drops x; reconnects := reconnects x |}.
Definition DecActive (x : Metrics) : Metrics :=
  {| active := wrap64s (active x - 1); drops := drops x; reconnects := reconnects x |}.
Definition IncDrops (x : Metrics) : Metrics :=
  {| active := active x; drops := wrap64s (drops x + 1); reconnects := reconnects x |}.
Definition IncReconnects (x : Metrics) : Metrics :=
  {| active := active x; drops := drops x; reconnects := wrap64s (reconnects x + 1) |}.
Definition defaultMetrics : Metrics := {| active := 0; drops := 0; reconnects := 0 |}.

(** [Metrics.Snapshot], on a pointer that may be nil. *)
Record Snapshot := { Active : Z; Drops : Z; Reconnects : Z }.
Definition Metrics_Snapshot (m : option Metrics) : Snapshot :=
  match m with
  | None => {| Active := 0; Drops := 0; Reconnects := 0 |}
  | Some x => {| Active := active x; Drops := drops x; Reconnects := reconnects x |}
  end.

Definition IsConnected (m : SSHConnectionManager) : bool := connected m.
Definition IsReconnecting (m : SSHConnectionManager) : bool := reconnecting m.

(** ** Handlers *)

(** [RegisterHandler] with a non-nil handler: the new identifier and manager.
    [handlerSeq] is a [uint64]. *)
Definition RegisterHandler (h : Handler) (m : SSHConnectionManager)
    : Z * SSHConnectionManager :=
  let id := wrap64u (handlerSeq m + 1) in
  (id, set_handlers (<[id := h]> (handlers m)) id m).

Definition UnregisterHandler (id : Z) (m : SSHConnectionManager) : SSHConnectionManager :=
  if id =? 0 then m else set_handlers (delete id (handlers m)) (handlerSeq m) m.

Definition HandlerCount (m : SSHConnectionManager) : nat := size (handlers m).

(** ** Configuration *)

Section manager.
Context `{L : Lib}.

Definition Validate (c : RouterConfig) : result string unit :=
  if decide (Address c = "") then Err "address must be provided" else
  match SplitHostPort (Address c) with
  | Err e => Err ("address " +:+ Quote (Address c) +:+ " must be host:port: " +:+ e)
  | Ok _ =>
    if decide (Username c = "") then Err "username must be provided" else
    match AuthMethod c with
    | None => Err "auth method must be provided"
    | Some _ => Ok tt
    end
  end.

(** The defaults [NewSSHConnectionManager] fills in. *)
Definition with_defaults (c : RouterConfig) : RouterConfig :=
  {| Address := Address c; Username := Username c; AuthMethod := AuthMethod c;
     HostKeyCallback := HostKeyCallback c;
     Timeout := if Timeout c =? 0 then 30 * Second else Timeout c;
     KeepAliveInterval := if KeepAliveInterval c =? 0 then 30 * Second else KeepAliveInterval c;
     KeepAliveCommand := if decide (KeepAliveCommand c = "") then "cat /proc/uptime"
                         else KeepAliveCommand c;
     Dial := Dial c; Runner := Runner c;
     MaxBackoff := if MaxBackoff c <=? 0 then Minute else MaxBackoff c;
     InitialBackoff := if InitialBackoff c <=? 0 then 2 * Second else InitialBackoff c |}.

Definition fresh_manager (c : RouterConfig) : SSHConnectionManager :=
  {| config := with_defaults c; conn := None; connected := false; reconnecting := false;
     lastUptime := f64_zero; started := false; handlers := ∅; handlerSeq := 0;
     baseCtx := None; baseCancel := None; mctx := None; cancel := None;
     metrics := defaultMetrics |}.

(** ** Access to a manager by its address *)

Definition get_mgr (m : nat) : OpM SSHConnectionManager := λ s,
  match heap s !! m with
  | Some x => Ret (x, s)
  | None => panic "invalid memory address or nil pointer dereference" s
  end.

Definition upd_mgr (m : nat) (f : SSHConnectionManager → SSHConnectionManager) : OpM unit :=
  modify (λ s, set_heap (alter f m (heap s)) s).

Definition cancel_ctx (c : option ctx) : OpM unit :=
  match c with
  | None => mret tt
  | Some c => modify (λ s, set_cancelled ({[c]} ∪ cancelled s) s)
  end.

Definition close_conn (c : option connid) : OpM unit :=
  match c with
  | None => mret tt
  | Some c => call (SshClose c)
  end.

(** A fresh number for a new object of the heap or a new context. *)
Definition fresh : OpM nat := λ s, Ret (next s, set_next (S (next s)) s).

Definition NewSSHConnectionManager (cfg : RouterConfig) : OpM (result string nat) :=
  match Validate cfg with
  | Err e => mret (Err e)
  | Ok _ =>
    l ← fresh;
    _ ← modify (λ s, set_heap (<[l := fresh_manager cfg]> (heap s)) s);
    mret (Ok l)
  end.

(** ** Methods *)

Fixpoint spawn_all (l : list Handler) (ev : Event) : OpM unit :=
  match l with
  | [] => mret tt
  | h :: l' => _ ← call (Spawn (HandleEvent h ev)); spawn_all l' ev
  end.

Definition notifyHandlers (m : nat) (ev : Event) : OpM unit :=
  mgr ← get_mgr m;
  spawn_all (map snd (map_to_list (handlers mgr))) ev.

Definition establishConnection (m : nat) : OpM (result string unit) :=
  mgr ← get_mgr m;
  match AuthMethod (config mgr) with
  | None => panic "nil auth method"
  | Some auth =>
    r ← call (SshDial (Address (config mgr)) (Username (config mgr)) auth);
    match r with
    | Err e => mret (Err ("ssh dial failed: " +:+ e))
    | Ok c =>
      mgr' ← get_mgr m;
      _ ← upd_mgr m (establish_locked c);
      _ ← close_conn (conn mgr');
      _ ← (if connected mgr' then mret tt else upd_mgr m (set_metrics IncActive));
      _ ← upd_mgr m (set_metrics IncReconnects);
      _ ← notifyHandlers m {| Reason := ReasonReconnectSuccess; Ev_Err := None |};
      mret (Ok tt)
    end
  end.

Definition transitionToReconnecting (m : nat) (err : string) : OpM unit :=
  mgr ← get_mgr m;
  if reconnecting mgr then mret tt else
  _ ← upd_mgr m transition_locked;
  _ ← cancel_ctx (cancel mgr);
  _ ← close_conn (conn mgr);
  _ ← (if connected mgr then upd_mgr m (set_metrics DecActive) else mret tt);
  _ ← upd_mgr m (set_metrics IncDrops);
  _ ← notifyHandlers m {| Reason := ReasonConnectionDrop; Ev_Err := Some err |};
  call (Spawn (ReconnectLoop m (baseCtx mgr))).

(** [Start] with a non-nil context. *)
Definition Start (m : nat) : OpM (result string unit) :=
  mgr ← get_mgr m;
  if started mgr then mret (Err "ssh manager already started") else
  base ← fresh;
  c ← fresh;
  _ ← upd_mgr m (start_locked base c);
  r ← establishConnection m;
  match r with
  | Err e =>
    _ ← transitionToReconnecting m e;
    mret (Err ("initial connection failed, reconnecting in background: " +:+ e))
  | Ok _ =>
    _ ← call (Spawn (KeepAliveLoop m));
    mret (Ok tt)
  end.

(** [RunCommand] with a non-nil context. *)
Definition RunCommand (m : nat) (command : string) : OpM (result string string) :=
  mgr ← get_mgr m;
  match conn mgr with
  | None => mret (Err "ssh connection not established")
  | Some c => call (RunnerRun c command)
  end.

Definition parseFloat (value : string) : result string spec_float :=
  match strconvParseFloat (TrimSpace value) with
  | Err e => Err ("parse uptime: " +:+ e)
  | Ok v => Ok v
  end.

Definition parseUptime (out : string) : result string spec_float :=
  match Fields out with
  | [] => Err "empty uptime output"
  | f :: _ => parseFloat f
  end.

Definition checkConnection (m : nat) : OpM (result string unit) :=
  mgr ← get_mgr m;
  match mctx mgr with
  | None => mret (Err "manager context unavailable")
  | Some _ =>
    r ← RunCommand m (KeepAliveCommand (config mgr));
    match r with
    | Err e => mret (Err e)
    | Ok output =>
      match parseUptime output with
      | Err e => mret (Err e)
      | Ok uptime =>
        mgr' ← get_mgr m;
        _ ← upd_mgr m (check_locked uptime);
        _ ← (if reboot_detected (lastUptime mgr') uptime
             then notifyHandlers m {| Reason := ReasonReboot; Ev_Err := None |}
             else mret tt);
        mret (Ok tt)
      end
    end
  end.

Definition Close (m : nat) : OpM unit :=
  mgr ← get_mgr m;
  if negb (started mgr) then mret tt else
  _ ← upd_mgr m close_locked;
  _ ← cancel_ctx (cancel mgr);
  _ ← cancel_ctx (baseCancel mgr);
  _ ← call (WgWait m);
  _ ← close_conn (conn mgr);
  (if connected mgr then upd_mgr m (set_metrics DecActive) else mret tt).
End manager.
