(* ===== verification/SimTime.v ===== *)
(** * Times in the concrete environments

    The sample environments of the operator and of the agent write and read
    times in the same format: the sign and the binary digits.  It models no code
    of the repository. *)

From S2P Require Import Prelude.

Local Open Scope Z_scope.

Fixpoint show_pos (p : positive) : string :=
  match p with xH => "" | xO p => String "0" (show_pos p) | xI p => String "1" (show_pos p) end.
Fixpoint read_pos (s : string) : positive :=
  match s with
  | EmptyString => xH
  | String c s => if Ascii.eqb c "0" then xO (read_pos s) else xI (read_pos s)
  end.
Lemma read_show p : read_pos (show_pos p) = p.
Proof. induction p; simpl; by f_equal. Qed.

Definition show_time (t : Z) : string :=
  match t with Z0 => "Z" | Zpos p => String "+" (show_pos p) | Zneg p => String "-" (show_pos p) end.
Definition read_time (s : string) : option Z :=
  match s with
  | String c s => Some (if Ascii.eqb c "+" then Zpos (read_pos s)
                        else if Ascii.eqb c "-" then Zneg (read_pos s) else 0)
  | EmptyString => None
  end.

Lemma read_show_time t : read_time (show_time t) = Some t.
Proof. destruct t as [|p|p]; simpl; by rewrite ?read_show. Qed.
