(* ===== verification/Sim.v ===== *)
(** * A concrete environment

    A small API server, router and library with the documented behaviour:
    the laws assumed elsewhere hold of it, and programs can be run in it.  It
    is used to show that the hypotheses of the theorems can be met, not as a
    model of code of the repository. *)

From Stdlib Require Import SpecFloat.
From S2P Require Import SimTime Prelude Effects GoStd Helpers Json Http ClaimTypes Env Pool SshManager.

Local Open Scope Z_scope.

(** ** Library functions *)

Fixpoint assoc (k : string) (m : list (string * uval)) : option uval :=
  match m with
  | [] => None
  | (k', v) :: m' => if decide (k = k') then Some v else assoc k m'
  end.

Fixpoint assoc_set (k : string) (v : uval) (m : list (string * uval)) : list (string * uval) :=
  match m with
  | [] => [(k, v)]
  | (k', v') :: m' => if decide (k = k') then (k, v) :: m' else (k', v') :: assoc_set k v m'
  end.

Lemma assoc_set_get k v m k' :
  assoc k' (assoc_set k v m) = if decide (k = k') then Some v else assoc k' m.
Proof.
  induction m as [|[k1 v1] m IH]; simpl.
  - repeat case_decide; naive_solver.
  - destruct (decide (k = k1)); simpl; repeat case_decide; naive_solver.
Qed.

Fixpoint sim_get (path : list string) (o : uval) : option uval :=
  match path, o with
  | [], _ => Some o
  | k :: path', UMap m => v ← assoc k m; sim_get path' v
  | _, _ => None
  end.

Definition sim_NestedSlice (o : uval) (path : list string) : option (list uval) :=
  match sim_get path o with Some (UList l) => Some l | _ => None end.

Fixpoint sim_SetNestedSlice (o : uval) (l : list uval) (path : list string)
    : result string uval :=
  match path with
  | [] => Ok (UList l)
  | k :: path' =>
    match o with
    | UMap m => match sim_SetNestedSlice (default (UMap []) (assoc k m)) l path' with
                | Ok v => Ok (UMap (assoc_set k v m))
                | Err e => Err e
                end
    | _ => Err "value cannot be set because it is not a map"
    end
  end.

Lemma sim_set_get path o l o' :
  sim_SetNestedSlice o l path = Ok o' → sim_NestedSlice o' path = Some l.
Proof.
  revert o o'. induction path as [|k path IH]; intros o o' H; simplify_eq/=; [done|].
  destruct o as [| | | | |m]; try done.
  destruct (sim_SetNestedSlice _ l path) as [v|] eqn:Hs; simplify_eq.
  unfold sim_NestedSlice in *. simpl. rewrite assoc_set_get, decide_True by done.
  apply (IH _ _ Hs).
Qed.

Lemma sim_set_ok path o l l' :
  sim_NestedSlice o path = Some l → is_ok (sim_SetNestedSlice o l' path) = true.
Proof.
  unfold sim_NestedSlice. revert o. induction path as [|k path IH]; intros o H; [done|].
  destruct o as [| | | | |m]; try done. simpl in *.
  destruct (assoc k m) as [v|]; [|done]. simpl in *. specialize (IH v H).
  by destruct (sim_SetNestedSlice v l' path).
Qed.

Definition sim_GetName (o : uval) : string :=
  match sim_get ["metadata"; "name"] o with Some (UStr s) => s | _ => "" end.

Fixpoint sim_SetStatusCondition (l : list Condition) (c : Condition) : list Condition :=
  match l with
  | [] => [c]
  | c' :: l' => if decide (Cond_Type c' = Cond_Type c) then c :: l'
                else c' :: sim_SetStatusCondition l' c
  end.

#[export] Instance SimLib : Lib := {|
  Signer := string;
  ParsePrivateKey k := Ok k;
  PublicKeys _ := {| if_type := "ssh.publicKeyCallback"; if_kind := KFunc;
                     if_pointer := 4198400; if_repr := "" |};
  InsecureIgnoreHostKey := {| if_type := "ssh.HostKeyCallback"; if_kind := KFunc;
                              if_pointer := 4198464; if_repr := "" |};
  ContainsFinalizer l f := bool_decide (f ∈ l);
  AddFinalizer l f := if decide (f ∈ l) then l else l ++ [f];
  RemoveFinalizer l f := List.filter (λ x, negb (bool_decide (x = f))) l;
  SetStatusCondition := sim_SetStatusCondition;
  NestedSlice := sim_NestedSlice;
  SetNestedSlice := sim_SetNestedSlice;
  GetName := sim_GetName;
  strconvParseFloat s := if decide (s = "100.00")
    then Ok (S754_finite false 7036874417766400 (-46)) else Err "invalid syntax";
  Quote s := unbytes [chr 34] +:+ s +:+ unbytes [chr 34];
  Int64OutOfRange _ := - 2 ^ 63;
  SplitHostPort _ := Ok tt;
  ParseTime := read_time;
  JsonErrorText _ := "invalid character";
  CaseTable r := r;
|}.

#[export] Instance SimLaws : LibLaws SimLib.
Proof.
  split.
  - intros l f. apply bool_decide_eq_true. simpl. case_decide; [done|]. set_solver.
  - intros l f. apply bool_decide_eq_false. simpl. intros Hin%list_elem_of_In%filter_In.
    destruct Hin as [_ Hn]. by rewrite bool_decide_eq_true_2 in Hn.
  - intros o l path o'. apply (sim_set_get ("spec" :: path)).
  - intros o l path o' H. destruct o as [| | | | |m]; try done. simpl in H.
    destruct (sim_SetNestedSlice _ l path) as [v|] eqn:Hs; simplify_eq.
    unfold GetName, SimLib, sim_GetName. simpl. by rewrite assoc_set_get.
  - intros o l l' path. apply sim_set_ok.
Qed.

(** ** The environment *)

Record SimW := {
  w_claims : gmap string PublicIPClaim;      (* by name; the resource is cluster-scoped *)
  w_secrets : gmap string (gmap string string);
  w_pools : PoolW;
  w_ip : string;                             (* the address the agent grants *)
  w_leases : gset string;                    (* interfaces with a lease *)
  w_status_fails : bool;                     (* a write of a Ready status is refused *)
}.

Definition up_claims (f : gmap string PublicIPClaim → gmap string PublicIPClaim) (w : SimW) : SimW :=
  {| w_claims := f (w_claims w); w_secrets := w_secrets w; w_pools := w_pools w; w_ip := w_ip w;
     w_leases := w_leases w; w_status_fails := w_status_fails w |}.
Definition up_pools (p : PoolW) (w : SimW) : SimW :=
  {| w_claims := w_claims w; w_secrets := w_secrets w; w_pools := p; w_ip := w_ip w;
     w_leases := w_leases w; w_status_fails := w_status_fails w |}.
Definition up_leases (l : gset string) (w : SimW) : SimW :=
  {| w_claims := w_claims w; w_secrets := w_secrets w; w_pools := w_pools w; w_ip := w_ip w;
     w_leases := l; w_status_fails := w_status_fails w |}.

Definition not_found : apierr := {| err_msg := "not found"; IsNotFound := true |}.
Definition conflict : apierr := {| err_msg := "the object has been modified"; IsNotFound := false |}.

Definition sim_http (method url : string) (body : option json) (w : SimW)
    : HttpResponse * SimW :=
  match body with
  | Some (JObj (("interface", JStr i) :: _)) =>
    if decide (i ∈ w_leases w) then
      ({| StatusCode := 409; Body := Some (JObj [("error", JStr "already has active lease")]) |}, w)
    else
      ({| StatusCode := 201;
          Body := Some (JObj [("ipAddress", JStr (w_ip w)); ("expiresAt", JStr "2025-01-01T00:00:00Z")]) |},
       up_leases ({[i]} ∪ w_leases w) w)
  | _ => if decide (method = "DELETE") then ({| StatusCode := 204; Body := None |}, w)
         else ({| StatusCode := 200;
                  Body := Some (JObj [("ipAddress", JStr (w_ip w)); ("expiresAt", JStr "");
                                      ("renewalCount", JNum 1); ("status", JStr "active");
                                      ("interfaceExists", JBool true)]) |}, w)
  end.

(** The pool part, with no other client interfering. *)
Definition sim_pool_get (v : GVR) (n : string) (p : PoolW) : result apierr uval * PoolW :=
  match store p !! (v, n) with
  | Some o => (Ok o, {| store := store p; seen := <[(v, n) := o]> (seen p);
                        acts := acts p ++ [Read v n (Ok o)] |})
  | None => (Err not_found, {| store := store p; seen := seen p;
                               acts := acts p ++ [Read v n (Err not_found)] |})
  end.

Definition sim_pool_update (v : GVR) (o : uval) (p : PoolW) : result apierr uval * PoolW :=
  (Ok o, {| store := <[(v, sim_GetName o) := o]> (store p);
            seen := delete (v, sim_GetName o) (seen p);
            acts := acts p ++ [Wrote v (store p !! (v, sim_GetName o)) o true] |}).

Definition sim : handler OpE SimW := λ X e w,
  match e in OpE X return option (X * SimW) with
  | GetClaim k => Some (match w_claims w !! nn_name k with
                        | Some c => Ok c | None => Err not_found end, w)
  | UpdateClaim c => Some (Ok c, up_claims <[Name c := c]> w)
  | StatusUpdate c =>
    if w_status_fails w && bool_decide (Phase (Status c) = ClaimPhaseReady)
    then Some (Err conflict, w) else Some (Ok c, up_claims <[Name c := c]> w)
  | GetSecret k => Some (match w_secrets w !! nn_name k with
                         | Some d => Ok d | None => Err not_found end, w)
  | RecordEvent _ _ _ => Some (tt, w)
  | PoolGet v n => let '(r, p) := sim_pool_get v n (w_pools w) in Some (r, up_pools p w)
  | PoolUpdate v o => let '(r, p) := sim_pool_update v o (w_pools w) in Some (r, up_pools p w)
  | RandRead n => Some (replicate n 171, w)
  | Now => Some (1735689600000000000, w)
  | NowRFC3339 => Some ("2025-01-01T00:00:00Z", w)
  | SshDial _ _ _ => Some (Ok 7%nat, w)
  | SshClose _ => Some (tt, w)
  | RunnerRun _ cmd => Some (Ok (if decide (cmd = "cat /proc/uptime") then "100.00 99.00" else "true"), w)
  | Listen => Some (Ok "127.0.0.1:40000", w)
  | NewRequest _ _ => Some (Ok tt, w)
  | HttpDo method url body => let '(r, w') := sim_http method url body w in Some (Ok r, w')
  | CloseTunnel _ => Some (tt, w)
  | Spawn _ => Some (tt, w)
  | WgWait _ => Some (tt, w)
  | Panic _ => None
  end.

(** ** Sample objects *)

Definition demo_router : RouterSpec :=
  {| Host := "192.168.1.1"; Port := 22; User := "root"; SSHSecretRef := "router-ssh";
     Command := "/usr/local/bin/alloc_public_ip.sh"; WanParent := "eth9";
     Spec_WanInterface := ""; Spec_MacAddress := "" |}.

Definition demo_claim : PublicIPClaim :=
  {| Name := "ip-wan-001"; Namespace := ""; Generation := 1; DeletionTimestamp := None;
     Finalizers := ["serialx.net/cleanup-wan-interface"]; Annotations := ∅;
     Spec := {| PoolName := "public-pool"; Router := demo_router |}; Status := emptyStatus |}.

(** The same claim, assigned and being deleted. *)
Definition demo_deleted : PublicIPClaim :=
  {| Name := Name demo_claim; Namespace := ""; Generation := 1; DeletionTimestamp := Some 1;
     Finalizers := Finalizers demo_claim; Annotations := ∅; Spec := Spec demo_claim;
     Status := st_phase ClaimPhaseReady (st_ip "203.0.113.45" (st_wan "wan-ip-wan-001" emptyStatus)) |}.

Definition demo_block (cidr : string) : uval := UMap [("cidr", UStr cidr)].

Definition demo_pool (blocks : list uval) : uval :=
  UMap [("metadata", UMap [("name", UStr "public-pool")]); ("spec", UMap [("blocks", UList blocks)])].

Definition demo_world (blocks : list uval) : SimW :=
  {| w_claims := ∅; w_secrets := {["router-ssh" := {["id_rsa" := "key"]}]};
     w_pools := {| store := {[(gvrPoolV2, "public-pool") := demo_pool blocks]}; seen := ∅; acts := [] |};
     w_ip := "203.0.113.45"; w_leases := ∅; w_status_fails := false |}.

Definition demo_memory : Op :=
  {| heap := ∅; next := 0; cancelled := ∅; SSHRegistry := Some ∅; sshHandlers := ∅;
     routerAssignments := ∅; claimManagers := ∅ |}.

(** The trace of a program in an environment. *)
Definition sim_trace {A} (m : OpM A) (s : Op) (w : SimW) : list (event OpE) :=
  match trace sim (m s) w with Some (tr, _, _) => tr | None => [] end.
Definition sim_result {A} (m : OpM A) (s : Op) (w : SimW) : option (A * Op * SimW) :=
  match trace sim (m s) w with Some (_, a, w') => Some (a, w') | None => None end.

Lemma sim_runs {A} (m : OpM A) s w r :
  sim_result m s w = Some r → runs (m s) (sim_trace m s w) r.1.
Proof.
  unfold sim_result, sim_trace.
  destruct (trace sim (m s) w) as [[[tr a] w']|] eqn:Ht; [|done].
  intros [= <-]. by eapply trace_runs.
Qed.

(** How far it gets: to the end, or nowhere when a call has no answer. *)
Definition sim_end {A} (m : OpM A) (s : Op) (w : SimW) : proc OpE (A * Op) :=
  match trace sim (m s) w with Some (_, a, _) => Ret a | None => m s end.

Lemma sim_steps {A} (m : OpM A) s w : steps (m s) (sim_trace m s w) (sim_end m s w).
Proof.
  unfold sim_trace, sim_end.
  destruct (trace sim (m s) w) as [[[tr a] w']|] eqn:Ht; [|constructor].
  by eapply runs_steps, trace_runs.
Qed.

(** ** The pool operations on the sample pool *)

Lemma defaultEnsureIPInPool_correct_witness :
  wpM api_law (defaultEnsureIPInPool "public-pool" "203.0.113.45")
    (λ r s' w', s' = demo_memory ∧ ensured [] "public-pool" "203.0.113.45" r w')
    demo_memory (w_pools (demo_world [])).
Proof.
  exact (defaultEnsureIPInPool_correct (LL := SimLaws) "public-pool" "203.0.113.45" demo_memory
           (w_pools (demo_world []))).
Defined.

Lemma defaultRemoveIPFromPool_correct_witness :
  "203.0.113.45" ≠ "" ∧
  wpM api_law (defaultRemoveIPFromPool "public-pool" "203.0.113.45")
    (λ r s' w', s' = demo_memory ∧ removed [] "public-pool" "203.0.113.45" r w')
    demo_memory (w_pools (demo_world [demo_block "203.0.113.45/32"])).
Proof.
  split; [discriminate|]. 
  apply (defaultRemoveIPFromPool_correct (LL := SimLaws) "public-pool" "203.0.113.45" demo_memory
           (w_pools (demo_world [demo_block "203.0.113.45/32"]))). discriminate.
Defined.

Lemma ensure_remove_roundtrip_witness :
  ∃ pool1 pool2, NestedSlice pool1 blocks_path
    = Some [demo_block "198.51.100.7/32"; demo_block "203.0.113.45/32"] ∧
    NestedSlice pool2 blocks_path = Some [demo_block "198.51.100.7/32"].
Proof.
  destruct (ensure_remove_roundtrip (LL := SimLaws) "public-pool" "203.0.113.45" demo_memory
    {[(gvrPoolV2, "public-pool") := demo_pool [demo_block "198.51.100.7/32"]]}
    (demo_pool [demo_block "198.51.100.7/32"]) [demo_block "198.51.100.7/32"])
    as (p1 & p2 & H1 & H2 & _).
  - discriminate.
  - reflexivity.
  - reflexivity.
  - reflexivity.
  - repeat constructor. by eexists.
  - reflexivity.
  - by exists p1, p2.
Defined.
