(* ===== verification/SshCommands.v ===== *)
(** * Router commands over SSH (internal/ssh/commands.go)

    Interface-name validation, shell quoting and the commands the controller
    uses to inspect the router, each a program that runs one shell command on
    the manager's connection and reads its output. *)

From Stdlib Require Import SpecFloat.
From S2P Require Import Prelude Effects GoStd Json Http ClaimTypes Env SshManager.

Local Open Scope Z_scope.

(** ** Names and quoting *)

(** A character of [^[a-zA-Z0-9_.:-]+$]. *)
Definition iface_char (c : ascii) : bool :=
  inr 97 122 c || inr 65 90 c || inr 48 57 c
  || existsb (Z.eqb (code c)) [95; 46; 58; 45].

Definition ifaceNamePattern (s : string) : bool :=
  match bytes s with [] => false | l => forallb iface_char l end.

Definition squote : ascii := chr 39.
Definition dquote : ascii := chr 34.

(** [strings.ReplaceAll(arg, "'", "'\"'\"'")]. *)
Definition escape_quotes (l : list ascii) : list ascii :=
  l ≫= λ c, if bool_decide (c = squote) then [squote; dquote; squote; dquote; squote] else [c].

Definition shellQuote (arg : string) : string :=
  if decide (arg = "") then unbytes [squote; squote]
  else unbytes (squote :: escape_quotes (bytes arg) ++ [squote]).

Section commands.
Context `{L : Lib}.

Definition validateInterfaceName (name : string) : result string unit :=
  if decide (name = "") then Err "interface name must not be empty"
  else if ifaceNamePattern name then Ok tt
  else Err ("invalid interface name " +:+ Quote name).

(** ** Durations from floats *)

Definition f64_of_Z (z : Z) : spec_float := binary_normalize 53 1024 z 0 false.

(** [int64(x)]: truncation toward zero; out of range it is up to the platform. *)
Definition int64_of_f64 (x : spec_float) : Z :=
  match x with
  | S754_zero _ => 0
  | S754_finite s m e =>
    let a := if 0 <=? e then Zpos m * 2 ^ e else Zpos m / 2 ^ (- e) in
    let v := if s then - a else a in
    if decide (- 2 ^ 63 ≤ v < 2 ^ 63) then v else Int64OutOfRange x
  | _ => Int64OutOfRange x
  end.

(** [time.Duration.Seconds]. *)
Definition Duration_Seconds (d : Z) : spec_float :=
  f64_add (f64_of_Z (Z.quot d Second))
          (SFdiv 53 1024 (f64_of_Z (Z.rem d Second)) (f64_of_Z Second)).

(** [time.Duration(uptime * float64(time.Second))]. *)
Definition Duration_of_uptime (uptime : spec_float) : Z :=
  int64_of_f64 (SFmul 53 1024 uptime (f64_of_Z Second)).

(** ** Commands *)

Definition GetRouterUptime (m : nat) : OpM (result string Z) :=
  r ← RunCommand m "cat /proc/uptime";
  match r with
  | Err e => mret (Err e)
  | Ok output => match parseUptime output with
                 | Err e => mret (Err e)
                 | Ok u => mret (Ok (Duration_of_uptime u))
                 end
  end.

(** Validate the name, run the command, read its output. *)
Definition on_iface {A} (m : nat) (iface cmd : string) (read : string → result string A)
    : OpM (result string A) :=
  match validateInterfaceName iface with
  | Err e => mret (Err e)
  | Ok _ => r ← RunCommand m cmd;
            match r with
            | Err e => mret (Err e)
            | Ok out => mret (read out)
            end
  end.

Definition exists_cmd (iface : string) : string :=
  "if [ -d " +:+ shellQuote ("/sys/class/net/" +:+ iface)
  +:+ " ]; then echo true; else echo false; fi".

Definition InterfaceExists (m : nat) (iface : string) : OpM (result string bool) :=
  on_iface m iface (exists_cmd iface) (λ out, Ok (Contains out "true")).

Definition udhcpc_cmd : string :=
  "if pgrep -x udhcpc >/dev/null 2>&1; then echo true; else echo false; fi".

Definition IsUdhcpcRunning (m : nat) : OpM (result string bool) :=
  r ← RunCommand m udhcpc_cmd;
  match r with
  | Err e => mret (Err e)
  | Ok out => mret (Ok (Contains out "true"))
  end.

Definition GetInterfaceMAC (m : nat) (iface : string) : OpM (result string string) :=
  on_iface m iface ("cat " +:+ shellQuote ("/sys/class/net/" +:+ iface +:+ "/address"))
    (λ out, Ok (TrimSpace out)).

(** The awk program splits the fourth field of the first line at the slash. *)
Definition ip_cmd (iface : string) : string :=
  "ip -4 -o addr show dev " +:+ shellQuote iface
  +:+ " scope global | awk 'NR==1 {split($4, a, " +:+ unbytes [dquote; chr 47; dquote]
  +:+ "); print a[1]}'".

Definition GetInterfaceIP (m : nat) (iface : string) : OpM (result string string) :=
  on_iface m iface (ip_cmd iface)
    (λ out, let ip := TrimSpace out in
            if decide (ip = "") then Err "interface has no IPv4 address" else Ok ip).

Definition IsProxyARPEnabled (m : nat) (iface : string) : OpM (result string bool) :=
  on_iface m iface
    ("cat " +:+ shellQuote ("/proc/sys/net/ipv4/conf/" +:+ iface +:+ "/proxy_arp"))
    (λ out, Ok (bool_decide (TrimSpace out = "1"))).

Definition IsInterfaceUp (m : nat) (iface : string) : OpM (result string bool) :=
  on_iface m iface ("cat " +:+ shellQuote ("/sys/class/net/" +:+ iface +:+ "/operstate"))
    (λ out, Ok (bool_decide (TrimSpace out = "up"))).

Definition ListManagedInterfaces (m : nat) : OpM (result string (list string)) :=
  r ← RunCommand m "ls /sys/class/net";
  match r with
  | Err e => mret (Err e)
  | Ok out => mret (Ok (List.filter (λ i, bool_decide (i ≠ "") && ifaceNamePattern i) (Fields out)))
  end.
End commands.

(** ** What a POSIX shell makes of a quoted word

    [sh_word q l]: the value of the word at the front of [l] and the input
    after it; [q] is the quoting state.  [None] when the word is unterminated
    or contains an expansion. *)

Inductive quoting := Unquoted | SingleQuoted | DoubleQuoted.

(** Blanks and operators end a word. *)
Definition sh_delimiter (c : ascii) : bool :=
  existsb (Z.eqb (code c)) [32; 9; 10; 59; 38; 124; 60; 62; 40; 41].

(** Characters with a meaning of their own in an unquoted word. *)
Definition sh_special (c : ascii) : bool :=
  existsb (Z.eqb (code c)) [92; 36; 96; 42; 63; 91; 35; 126; 61; 37].

Fixpoint sh_word (q : quoting) (l : list ascii) : option (list ascii * list ascii) :=
  match l with
  | [] => match q with Unquoted => Some ([], []) | _ => None end
  | c :: l' =>
    match q with
    | Unquoted =>
      if bool_decide (c = squote) then sh_word SingleQuoted l'
      else if bool_decide (c = dquote) then sh_word DoubleQuoted l'
      else if sh_delimiter c then Some ([], l)
      else if sh_special c then None
      else '(w, r) ← sh_word Unquoted l'; Some (c :: w, r)
    | SingleQuoted =>
      if bool_decide (c = squote) then sh_word Unquoted l'
      else '(w, r) ← sh_word SingleQuoted l'; Some (c :: w, r)
    | DoubleQuoted =>
      if bool_decide (c = dquote) then sh_word Unquoted l'
      else if existsb (Z.eqb (code c)) [36; 96; 92] then None
      else '(w, r) ← sh_word DoubleQuoted l'; Some (c :: w, r)
    end
  end.

(** The input after a word: nothing, or a blank or an operator. *)
Definition word_end (rest : list ascii) : Prop :=
  match rest with [] => True | c :: _ => sh_delimiter c = true end.

Lemma sh_word_end rest : word_end rest → sh_word Unquoted rest = Some ([], rest).
Proof.
  destruct rest as [|c rest]; [done|]. simpl. intros Hc.
  rewrite (bool_decide_eq_false_2 (c = squote)), (bool_decide_eq_false_2 (c = dquote));
    [by rewrite Hc|intros ->; by vm_compute in Hc..].
Qed.

Lemma sh_word_escaped l rest :
  word_end rest →
  sh_word SingleQuoted (escape_quotes l ++ squote :: rest) = Some (l, rest).
Proof.
  intros Hrest. induction l as [|c l IH].
  - by apply sh_word_end.
  - unfold escape_quotes in *. rewrite bind_cons, <-app_assoc.
    destruct (decide (c = squote)) as [->|Hc].
    + rewrite bool_decide_eq_true_2 by done.
      transitivity ('(w, r) ← sh_word SingleQuoted
        ((l ≫= λ c, if bool_decide (c = squote)
                    then [squote; dquote; squote; dquote; squote] else [c]) ++ squote :: rest);
        Some (squote :: w, r)); [done|]. by rewrite IH.
    + rewrite bool_decide_eq_false_2 by done. cbn [app sh_word].
      rewrite bool_decide_eq_false_2 by done. by rewrite IH.
Qed.

(** C28: a shell reads [shellQuote arg], followed by a blank, an operator or the
    end of the line, as one word whose value is exactly [arg]: no argument can
    end the quotation, split into two words or be expanded. *)
Theorem shellQuote_one_word arg rest :
  word_end rest →
  sh_word Unquoted (bytes (shellQuote arg) ++ rest) = Some (bytes arg, rest).
Proof.
  intros Hrest. unfold shellQuote. case_decide as Ha.
  - subst. rewrite bytes_unbytes.
    change (sh_word Unquoted ([squote; squote] ++ rest)) with (sh_word Unquoted rest).
    by apply sh_word_end.
  - rewrite bytes_unbytes. change (sh_word Unquoted _) with
      (sh_word SingleQuoted ((escape_quotes (bytes arg) ++ [squote]) ++ rest)).
    rewrite <-app_assoc. by apply sh_word_escaped.
Qed.

Lemma shellQuote_one_word_witness :
  word_end [chr 32] ∧
  sh_word Unquoted (bytes (shellQuote "it's") ++ [chr 32]) = Some (bytes "it's", [chr 32]).
Proof.
  split; [reflexivity|]. apply (shellQuote_one_word "it's" [chr 32]). reflexivity.
Defined.
