(* ===== verification/Registry.v ===== *)
(** * The manager registry (internal/ssh/registry.go)

    One manager per configuration identity, grouped by router address. *)

From Stdlib Require Import SpecFloat.
From S2P Require Import Prelude Effects GoStd Json Http ClaimTypes Env SshManager Sim.

Local Open Scope Z_scope.

(** [pointerIdentity]: [reflect.ValueOf] never yields a value of kind
    [Interface], so the cases are a nil interface, the pointer-like kinds and
    the rest. *)
Definition pointerIdentity (value : option iface) : string :=
  match value with
  | None => "nil"
  | Some v =>
    match if_kind v with
    | KFunc | KPtr | KMap | KChan | KUnsafePointer =>
      if_type v +:+ ":" +:+ "0x" +:+ fmt_x (if_pointer v)
    | KOther => if_type v +:+ ":" +:+ if_repr v
    end
  end.

Definition config_parts (cfg : RouterConfig) : list string :=
  [Address cfg; Username cfg; Duration_String (Timeout cfg);
   Duration_String (KeepAliveInterval cfg); KeepAliveCommand cfg;
   Duration_String (MaxBackoff cfg); Duration_String (InitialBackoff cfg);
   pointerIdentity (AuthMethod cfg); pointerIdentity (HostKeyCallback cfg);
   pointerIdentity (Dial cfg); pointerIdentity (Runner cfg)].

Fixpoint join (sep : string) (l : list string) : string :=
  match l with
  | [] => ""
  | [s] => s
  | s :: l' => s +:+ sep +:+ join sep l'
  end.

Definition configIdentity (cfg : RouterConfig) : string := join "|" (config_parts cfg).

Abbreviation registry := (gmap string (gmap string nat)).

Definition NewRegistry : registry := ∅.

Definition reg_lookup (r : registry) (addr key : string) : option nat :=
  entries ← r !! addr; entries !! key.

Definition reg_insert (addr key : string) (l : nat) (r : registry) : registry :=
  <[addr := <[key := l]> (default ∅ (r !! addr))]> r.

(** [Len]: the number of tracked managers. *)
Definition Len (r : registry) : nat := map_fold (λ _ e n, (size e + n)%nat) 0%nat r.

(** Every manager the registry tracks, in map order. *)
Definition reg_managers (r : registry) : list nat :=
  map_to_list r ≫= λ '(_, e), map snd (map_to_list (e : gmap string nat)).

Section registry.
Context `{L : Lib}.

(** The receiver: a nil registry has no map to write to. *)
Definition get_registry : OpM registry := λ s,
  match SSHRegistry s with
  | Some r => Ret (r, s)
  | None => panic "invalid memory address or nil pointer dereference" s
  end.

Definition GetOrCreate (cfg : RouterConfig) : OpM (result string nat) :=
  r ← get_registry;
  match reg_lookup r (Address cfg) (configIdentity cfg) with
  | Some mgr => mret (Ok mgr)
  | None =>
    res ← NewSSHConnectionManager cfg;
    match res with
    | Err e => mret (Err e)
    | Ok mgr =>
      _ ← modify (λ s, set_registry
            (reg_insert (Address cfg) (configIdentity cfg) mgr <$> SSHRegistry s) s);
      mret (Ok mgr)
    end
  end.

Definition Remove (address : string) : OpM unit :=
  _ ← get_registry;
  modify (λ s, set_registry (delete address <$> SSHRegistry s) s).

Fixpoint close_all (l : list nat) : OpM unit :=
  match l with
  | [] => mret tt
  | m :: l' => _ ← Close m; close_all l'
  end.

Definition CloseAll : OpM unit :=
  r ← get_registry;
  _ ← modify (set_registry (Some ∅));
  close_all (reg_managers r).

(** ** Invariant *)

(** Every tracked manager is allocated, was built from a configuration with
    that address and identity, and is tracked only once. *)
Record reg_wf (s : Op) : Prop := {
  wf_heap : ∀ l, is_Some (heap s !! l) → (l < next s)%nat;
  wf_tracked : ∀ r a k l, SSHRegistry s = Some r → reg_lookup r a k = Some l →
    ∃ mgr cfg, heap s !! l = Some mgr ∧ config mgr = with_defaults cfg ∧
               Address cfg = a ∧ configIdentity cfg = k;
  wf_unique : ∀ r a k a' k' l, SSHRegistry s = Some r →
    reg_lookup r a k = Some l → reg_lookup r a' k' = Some l → a = a' ∧ k = k';
}.

Lemma reg_lookup_insert a k l r a' k' :
  reg_lookup (reg_insert a k l r) a' k'
  = if decide (a = a' ∧ k = k') then Some l else reg_lookup r a' k'.
Proof.
  unfold reg_lookup, reg_insert. destruct (decide (a = a')) as [<-|Ha].
  - rewrite lookup_insert_eq. cbn. destruct (decide (k = k')) as [<-|Hk].
    + rewrite lookup_insert_eq, decide_True; done.
    + rewrite lookup_insert_ne, decide_False by naive_solver.
      destruct (r !! a); simpl; [done|by rewrite lookup_empty].
  - rewrite lookup_insert_ne, decide_False by naive_solver. done.
Qed.

Lemma reg_lookup_delete a r a' k' :
  reg_lookup (delete a r) a' k' = if decide (a = a') then None else reg_lookup r a' k'.
Proof.
  unfold reg_lookup. case_decide; subst.
  - by rewrite lookup_delete_eq.
  - by rewrite lookup_delete_ne.
Qed.

(** The state in which a fresh manager for [cfg] has been registered. *)
Definition registered (cfg : RouterConfig) (r : registry) (s : Op) : Op :=
  set_registry (Some (reg_insert (Address cfg) (configIdentity cfg) (next s) r))
    (set_heap (<[next s := fresh_manager cfg]> (heap s)) (set_next (S (next s)) s)).

Lemma GetOrCreate_eq cfg s r :
  SSHRegistry s = Some r →
  GetOrCreate cfg s =
  match reg_lookup r (Address cfg) (configIdentity cfg) with
  | Some l => Ret (Ok l, s)
  | None => match Validate cfg with
            | Err e => Ret (Err e, s)
            | Ok _ => Ret (Ok (next s), registered cfg r s)
            end
  end.
Proof.
  intros Hr. unfold GetOrCreate, mbind, M_mbind, get_registry. rewrite Hr. simpl.
  destruct (reg_lookup r _ _); [done|].
  unfold NewSSHConnectionManager. destruct (Validate cfg); [|done]. simpl.
  unfold registered. by rewrite Hr.
Qed.

Lemma registered_wf cfg r s :
  SSHRegistry s = Some r → reg_lookup r (Address cfg) (configIdentity cfg) = None →
  reg_wf s → reg_wf (registered cfg r s).
Proof.
  intros Hr Hnone [Hheap Htr Huniq]. split; simpl.
  - intros l [m Hl]. destruct (decide (l = next s)) as [->|Hne]; [lia|].
    rewrite lookup_insert_ne in Hl by done. specialize (Hheap l ltac:(eauto)). lia.
  - intros r' a k l [= <-]. rewrite reg_lookup_insert. case_decide as Hak.
    + intros [= <-]. destruct Hak as [<- <-]. exists (fresh_manager cfg), cfg.
      by rewrite lookup_insert_eq.
    + intros Hl. destruct (Htr _ _ _ _ Hr Hl) as (m & c & Hm & ?).
      exists m, c. rewrite lookup_insert_ne; [done|].
      intros <-. specialize (Hheap (next s) ltac:(eauto)). lia.
  - intros r' a k a' k' l [= <-]. rewrite !reg_lookup_insert.
    assert (∀ a k l, reg_lookup r a k = Some l → l ≠ next s) as Hfresh.
    { intros a0 k0 l0 Hl0 ->. destruct (Htr _ _ _ _ Hr Hl0) as (m & c & Hm & _).
      specialize (Hheap (next s) ltac:(eauto)). lia. }
    repeat case_decide; intros; simplify_eq; invert_all; try done.
    + exfalso. eapply Hfresh; eauto.
    + exfalso. eapply Hfresh; eauto.
    + eauto.
Qed.

(** A configuration of another address or identity gets another manager. *)
Lemma GetOrCreate_other cfg cfg' s r l l' s'' :
  SSHRegistry s = Some r → reg_wf s → reg_lookup r (Address cfg) (configIdentity cfg) = Some l →
  GetOrCreate cfg' s = Ret (Ok l', s'') → l' = l →
  Address cfg' = Address cfg ∧ configIdentity cfg' = configIdentity cfg.
Proof.
  intros Hr Hwf Hl. rewrite (GetOrCreate_eq _ _ _ Hr).
  destruct (reg_lookup r (Address cfg') (configIdentity cfg')) as [l0|] eqn:Hl0.
  - intros [= -> _] ->. by eapply (wf_unique _ Hwf).
  - destruct (Validate cfg'); [|done]. intros [= <- _] Hn.
    destruct (wf_tracked _ Hwf _ _ _ _ Hr Hl) as (m & ? & Hm & _).
    pose proof (wf_heap _ Hwf l ltac:(eauto)). lia.
Qed.

(** C29: the registry gives one manager per address and identity.  After a
    successful [GetOrCreate] the configuration's manager is tracked and
    allocated, a second call with the same configuration returns the same
    manager and changes nothing, a call with another address or another
    identity (the rest of the configuration) returns another manager, and the
    invariant (tracked managers are allocated, built from their identity, and
    never shared between identities) is kept.  So there may be several managers
    for one address. *)
Theorem GetOrCreate_singleton cfg s r :
  SSHRegistry s = Some r → reg_wf s →
  ∃ res s', GetOrCreate cfg s = Ret (res, s') ∧ reg_wf s' ∧
    match res with
    | Ok l => is_Some (heap s' !! l) ∧ GetOrCreate cfg s' = Ret (Ok l, s') ∧
        ∀ cfg' l' s'', GetOrCreate cfg' s' = Ret (Ok l', s'') → l' = l →
          Address cfg' = Address cfg ∧ configIdentity cfg' = configIdentity cfg
    | Err e => Validate cfg = Err e ∧ s' = s
    end.
Proof.
  intros Hr Hwf. rewrite (GetOrCreate_eq _ _ _ Hr).
  destruct (reg_lookup r (Address cfg) (configIdentity cfg)) as [l|] eqn:Hl.
  - eexists _, _. split; [done|]. split; [done|]. split; [|split].
    + destruct (wf_tracked _ Hwf _ _ _ _ Hr Hl) as (m & ? & Hm & _). eauto.
    + by rewrite (GetOrCreate_eq _ _ _ Hr), Hl.
    + intros cfg' l' s''. by eapply GetOrCreate_other.
  - destruct (Validate cfg) eqn:Hv; (eexists _, _; split; [done|]); [|done].
    assert (reg_lookup (reg_insert (Address cfg) (configIdentity cfg) (next s) r)
      (Address cfg) (configIdentity cfg) = Some (next s)) as Hl' by (by rewrite reg_lookup_insert, decide_True).
    pose proof (registered_wf cfg r s Hr Hl Hwf) as Hwf'. split; [done|]. split; [|split].
    + exists (fresh_manager cfg). simpl. by rewrite lookup_insert_eq.
    + rewrite (GetOrCreate_eq cfg (registered cfg r s)
                 (reg_insert (Address cfg) (configIdentity cfg) (next s) r)) by done.
      by rewrite Hl'.
    + intros cfg' l' s''. eapply GetOrCreate_other; [done|done|exact Hl'].
Qed.
End registry.

(** A configuration and an empty registry. *)
Definition demo_config : RouterConfig :=
  {| Address := "192.168.1.1:22"; Username := "root"; AuthMethod := Some (PublicKeys "key");
     HostKeyCallback := Some InsecureIgnoreHostKey; Timeout := 30 * Second;
     KeepAliveInterval := 30 * Second; KeepAliveCommand := "cat /proc/uptime"; Dial := None;
     Runner := None; MaxBackoff := 0; InitialBackoff := 0 |}.

Lemma demo_memory_wf : reg_wf demo_memory.
Proof.
  split; simpl.
  - intros l [m Hl]. by rewrite lookup_empty in Hl.
  - intros r a k l [= <-] H. unfold reg_lookup in H. by rewrite lookup_empty in H.
  - intros r a k a' k' l [= <-] H. unfold reg_lookup in H. by rewrite lookup_empty in H.
Qed.

Lemma GetOrCreate_singleton_witness :
  ∃ s', GetOrCreate demo_config demo_memory = Ret (Ok 0%nat, s') ∧ reg_wf s' ∧
        GetOrCreate demo_config s' = Ret (Ok 0%nat, s').
Proof.
  destruct (GetOrCreate_singleton demo_config demo_memory ∅ eq_refl demo_memory_wf)
    as (res & s' & H & Hwf & Hres).
  injection H as <- Hs. exists s'. rewrite <-Hs. split; [reflexivity|].
  rewrite Hs. split; [exact Hwf|]. apply Hres.
Defined.
