(* ===== verification/Threads.v ===== *)
(** * Interleaved goroutines with ghost state

    A configuration is a list of goroutines and a shared memory; a step is one
    call of one goroutine.  A protocol gives every goroutine a ghost value that
    its calls change; an invariant relates the ghost values of all goroutines
    to the memory.  When the code of each goroutine keeps to the protocol, the
    invariant holds in every interleaving ([reaches_inv]). *)

From S2P Require Import Prelude Effects.

Section threads.
Context {E : Type → Type} {S R : Type}.

(** What a call may answer and do to the memory; the goroutines it starts; the
    body of a loop; the goroutines that may arrive from outside. *)
Context (resp : ∀ X, E X → S → X → S → Prop).
Context (spawned : ∀ X, E X → list (proc E (option R))).
Context (iter : R → proc E (option R)).
Context (arrival : proc E (option R) → Prop).

(** A loop ends an iteration with [Some] of the state of the next one. *)
Abbreviation goroutine := (proc E (option R)).

Inductive tstep : list goroutine * S → list goroutine * S → Prop :=
| tstep_call ts s k X (e : E X) cont x s' :
    ts !! k = Some (Vis e cont) → resp X e s x s' →
    tstep (ts, s) (<[k := cont x]> ts ++ spawned X e, s')
| tstep_again ts s k r :
    ts !! k = Some (Ret (Some r)) → tstep (ts, s) (<[k := iter r]> ts, s)
| tstep_arrive ts s t :
    arrival t → tstep (ts, s) (ts ++ [t], s).

Definition treaches : list goroutine * S → list goroutine * S → Prop := rtc tstep.

(** ** Protocols *)

Context {G : Type}.
Context (pre : ∀ X, E X → G → Prop).
Context (rely : ∀ X, E X → G → X → Prop).
Context (upd : ∀ X, E X → G → X → G).
Context (birth : ∀ X, E X → G → list G).
Context (fin : option R → G → Prop).

(** The specification a goroutine's code is checked against: [pre] before each
    call, [rely] of its answer. *)
Definition protocol : espec E G := ESpec pre (λ X e g x g', rely X e g x ∧ g' = upd X e g x).

Definition keeps (t : goroutine) (g : G) : Prop := wp protocol t fin g.

Context (Inv : list G → S → Prop).

(** The obligations: calls preserve the invariant and are answered as relied
    on; new goroutines and loop bodies keep to the protocol. *)
Record obligations : Prop := {
  ob_call : ∀ gs s k X (e : E X) g x s',
    Inv gs s → gs !! k = Some g → pre X e g → resp X e s x s' →
    rely X e g x ∧ Inv (<[k := upd X e g x]> gs ++ birth X e g) s';
  ob_birth : ∀ X (e : E X) g, pre X e g → Forall2 keeps (spawned X e) (birth X e g);
  ob_iter : ∀ r g, fin (Some r) g → keeps (iter r) g;
  ob_arrive : ∀ t, arrival t → ∃ g, keeps t g ∧ ∀ gs s, Inv gs s → Inv (gs ++ [g]) s;
}.

Definition good (c : list goroutine * S) : Prop := ∃ gs, Forall2 keeps c.1 gs ∧ Inv gs c.2.

Lemma good_step c c' : obligations → good c → tstep c c' → good c'.
Proof.
  intros Hob (gs & Hk & Hi) Hs.
  destruct Hs as [ts s k X e cont x s' Ht Hr|ts s k r Ht|ts s t Ha]; cbn [fst snd] in *.
  - destruct (Forall2_lookup_l _ _ _ _ _ Hk Ht) as (g & Hg & Hpre & Hcont).
    destruct (ob_call Hob _ _ _ _ _ _ _ _ Hi Hg Hpre Hr) as [Hrely Hi'].
    eexists. split; [|exact Hi']. apply Forall2_app; [|by apply (ob_birth Hob)].
    apply Forall2_insert; [done|]. by apply Hcont.
  - destruct (Forall2_lookup_l _ _ _ _ _ Hk Ht) as (g & Hg & Hfin).
    exists gs. split; [|done]. rewrite <-(list_insert_id gs k g Hg).
    apply Forall2_insert; [done|]. by apply (ob_iter Hob).
  - destruct (ob_arrive Hob t Ha) as (g & Hkg & Hi'). exists (gs ++ [g]).
    split; [|by apply Hi']. apply Forall2_app; [done|]. by repeat constructor.
Qed.

Lemma reaches_inv c c' : obligations → good c → treaches c c' → good c'.
Proof. intros Hob Hc Hr. induction Hr as [|c1 c2 c3 Hs Hr IH]; eauto using good_step. Qed.
End threads.
