(* ===== verification/Schedules.v ===== *)
(** * Schedules and budgets of interleaved goroutines

    The steps of [Threads.tstep] labelled with the goroutine that makes them,
    and the argument that a pool of goroutines comes to rest: each goroutine has
    a budget of calls, and the pool makes no more steps than the budgets allow
    ([budget_spent]). *)

From stdpp Require Import list_numbers.
From S2P Require Import Prelude Effects Threads.

Lemma sum_with_insert {A} (f : A → nat) l k x y :
  l !! k = Some x → sum_list_with f (<[k := y]> l) + f x = sum_list_with f l + f y.
Proof.
  revert k. induction l as [|z l IH]; intros [|k] Hk; simplify_eq/=; [lia|].
  specialize (IH k Hk). lia.
Qed.

(** Roles after one goroutine changed its own and others were born. *)
Lemma lookup_after {A} (gs : list A) k g' bs j h :
  (<[k := g']> gs ++ bs) !! j = Some h →
  (j = k ∧ h = g') ∨ (j ≠ k ∧ gs !! j = Some h) ∨ h ∈ bs.
Proof.
  intros Hj. apply lookup_app_Some in Hj as [Hj|[_ Hj]].
  - destruct (decide (j = k)) as [->|Hne].
    + left. pose proof (lookup_lt_Some _ _ _ Hj) as Hl. rewrite length_insert in Hl.
      rewrite list_lookup_insert_eq in Hj by done. naive_solver.
    + rewrite list_lookup_insert_ne in Hj by done. auto.
  - right. right. by eapply list_elem_of_lookup_2.
Qed.

Lemma lookup_stays {A} (gs : list A) k g' bs j h :
  j ≠ k → gs !! j = Some h → (<[k := g']> gs ++ bs) !! j = Some h.
Proof. intros Hne Hj. apply lookup_app_l_Some. by rewrite list_lookup_insert_ne. Qed.

Lemma lookup_changed {A} (gs : list A) k g g' bs :
  gs !! k = Some g → (<[k := g']> gs ++ bs) !! k = Some g'.
Proof.
  intros Hk. apply lookup_app_l_Some. apply list_lookup_insert_eq. by eapply lookup_lt_Some.
Qed.

(** ** Executions step by step

    The same steps, labelled with the goroutine that makes them ([None] for an
    arrival), and executions as the list of their labels. *)
Section schedules.
Context {E : Type → Type} {S R : Type}.
Context (resp : ∀ X, E X → S → X → S → Prop).
Context (spawned : ∀ X, E X → list (proc E (option R))).
Context (iter : R → proc E (option R)).
Context (arrival : proc E (option R) → Prop).

Abbreviation config := (list (proc E (option R)) * S)%type.

Inductive lstep : option nat → config → config → Prop :=
| lstep_call ts s k X (e : E X) cont x s' :
    ts !! k = Some (Vis e cont) → resp X e s x s' →
    lstep (Some k) (ts, s) (<[k := cont x]> ts ++ spawned X e, s')
| lstep_again ts s k r :
    ts !! k = Some (Ret (Some r)) → lstep (Some k) (ts, s) (<[k := iter r]> ts, s)
| lstep_arrive ts s t :
    arrival t → lstep None (ts, s) (ts ++ [t], s).

Inductive lexec : list (option nat) → config → config → Prop :=
| lexec_nil c : lexec [] c c
| lexec_cons l ls c1 c2 c3 : lstep l c1 c2 → lexec ls c2 c3 → lexec (l :: ls) c1 c3.

Lemma lstep_tstep l c c' : lstep l c c' → tstep resp spawned iter arrival c c'.
Proof. destruct 1; by econstructor. Qed.

Lemma lexec_treaches ls c c' : lexec ls c c' → treaches resp spawned iter arrival c c'.
Proof. induction 1 as [|l ls c1 c2 c3 Hs _ IH]; [apply rtc_refl|]. by eapply rtc_l; [eapply lstep_tstep|]. Qed.

(** ** Budgets

    In a phase of the memory that no call leaves, calls answer only what [may]
    allows.  [ends n t]: under such answers [t] returns after at most [n] units,
    one for every call and every new iteration, and [weight e] for the
    goroutines a call starts. *)
Context (may : ∀ X, E X → X → Prop) (weight : ∀ X, E X → nat).

Fixpoint ends (n : nat) (t : proc E (option R)) : Prop :=
  match t with
  | Ret None => True
  | Ret (Some r) => match n with O => False | Datatypes.S n => ends n (iter r) end
  | Vis e k =>
    match n with
    | O => False
    | Datatypes.S n => weight _ e ≤ n ∧ ∀ x, may _ e x → ends (n - weight _ e) (k x)
    end
  end.

(** At every point a goroutine can be at, whatever was answered so far. *)
Fixpoint always (P : proc E (option R) → Prop) (t : proc E (option R)) : Prop :=
  P t ∧ match t with Ret _ => True | Vis e k => ∀ x, always P (k x) end.

Lemma always_now P t : always P t → P t.
Proof. destruct t; by intros [? _]. Qed.

(** If all code a goroutine can run meets [P] at every point, every goroutine
    of every reachable configuration does. *)
Lemma always_reaches (P : proc E (option R) → Prop) c c' :
  (∀ r, always P (iter r)) → (∀ X (e : E X), Forall (always P) (spawned X e)) →
  (∀ t, arrival t → always P t) →
  treaches resp spawned iter arrival c c' → Forall (always P) c.1 → Forall (always P) c'.1.
Proof.
  intros Hi Hsp Ha Hr. induction Hr as [|c1 c2 c3 Hs _ IH]; [done|]. intros Hc. apply IH.
  destruct Hs as [ts s k X e cont x s' Ht _|ts s k r Ht|ts s t Hat]; simpl in *.
  - apply Forall_app. split; [|apply Hsp]. apply Forall_insert; [done|].
    destruct (Forall_lookup_1 _ _ _ _ Hc Ht) as [_ Hk]. apply Hk.
  - apply Forall_insert; [done|apply Hi].
  - apply Forall_app. split; [done|]. constructor; [by apply Ha|constructor].
Qed.

Context (phase : S → Prop).
Hypothesis phase_kept : ∀ X (e : E X) s x s', phase s → resp X e s x s' → may X e x ∧ phase s'.
Hypothesis weighed : ∀ X (e : E X), ∃ ws, Forall2 ends ws (spawned X e) ∧ sum_list ws ≤ weight X e.

(** In the phase, an execution without arrivals is no longer than the
    goroutines' budgets. *)
Lemma budget_spent ls c c' ns :
  lexec ls c c' → Forall is_Some ls → phase c.2 → Forall2 ends ns c.1 →
  length ls ≤ sum_list ns ∧ phase c'.2.
Proof.
  intros Hx. revert ns. induction Hx as [c|l ls c1 c2 c3 Hs Hx IH]; intros ns Hls Hp Hns.
  { split; [simpl; lia|done]. }
  apply Forall_cons in Hls as [Hl Hls].
  enough (∃ ns', Forall2 ends ns' c2.1 ∧ sum_list ns' < sum_list ns ∧ phase c2.2)
    as (ns' & Hns' & Hlt & Hp').
  { destruct (IH ns' Hls Hp' Hns'). split; [simpl; lia|done]. }
  clear IH Hx. destruct Hs as [ts s k X e cont x s' Ht Hr|ts s k r Ht|ts s t Ha]; simpl in *.
  - destruct (phase_kept _ _ _ _ _ Hp Hr) as [Hm Hp'].
    destruct (Forall2_lookup_r _ _ _ _ _ Hns Ht) as (n & Hn & He).
    destruct n as [|n]; [done|]. destruct He as [Hw He]. destruct (weighed X e) as (ws & Hws & Hsum).
    exists (<[k := n - weight X e]> ns ++ ws). repeat split; [| |done].
    + apply Forall2_app; [|done]. apply Forall2_insert; [done|by apply He].
    + rewrite sum_list_with_app. pose proof (sum_with_insert id ns k (Datatypes.S n) (n - weight X e) Hn) as Hsi.
      unfold id in Hsi at 2 4. lia.
  - destruct (Forall2_lookup_r _ _ _ _ _ Hns Ht) as (n & Hn & He).
    destruct n as [|n]; [done|]. exists (<[k := n]> ns).
    repeat split; [by apply Forall2_insert| |done].
    pose proof (sum_with_insert id ns k (Datatypes.S n) n Hn) as Hsi. unfold id in Hsi at 2 4. lia.
  - by destruct Hl.
Qed.

(** One goroutine makes no more steps than its own budget, whatever the others
    do and whoever arrives. *)
Definition steps_of (k : nat) (ls : list (option nat)) : nat :=
  length (filter (λ l, l = Some k) ls).

Lemma own_budget_spent ls c c' k n t :
  lexec ls c c' → phase c.2 → c.1 !! k = Some t → ends n t →
  phase c'.2 ∧ ∃ n' t', c'.1 !! k = Some t' ∧ ends n' t' ∧ steps_of k ls + n' ≤ n.
Proof.
  intros Hx. revert n t. induction Hx as [c|l ls c1 c2 c3 Hs Hx IH]; intros n t Hp Ht He.
  { split; [done|]. exists n, t. unfold steps_of. rewrite filter_nil. auto. }
  enough (phase c2.2 ∧ ∃ n2 t2, c2.1 !! k = Some t2 ∧ ends n2 t2 ∧ steps_of k [l] + n2 ≤ n)
    as (Hp2 & n2 & t2 & Ht2 & He2 & Hle).
  { destruct (IH n2 t2 Hp2 Ht2 He2) as (Hp3 & n3 & t3 & Ht3 & He3 & Hle3).
    split; [done|]. exists n3, t3. repeat split; [done..|]. change (l :: ls) with ([l] ++ ls).
    unfold steps_of in *. rewrite filter_app, length_app. lia. }
  assert (∀ j, j ≠ k → steps_of k [Some j] = 0) as Hother.
  { intros j Hj. unfold steps_of. rewrite filter_cons_False by congruence. done. }
  assert (steps_of k [Some k] = 1) as Hmine.
  { unfold steps_of. by rewrite filter_cons_True. }
  clear IH Hx. destruct Hs as [ts s j X e cont x s' Hj Hr|ts s j r Hj|ts s t0 Ha]; simpl in *.
  - destruct (phase_kept _ _ _ _ _ Hp Hr) as [Hm Hp']. split; [done|].
    destruct (decide (j = k)) as [->|Hjk].
    + rewrite Ht in Hj. simplify_eq. destruct n as [|n]; [done|]. destruct He as [Hw He].
      eexists _, (cont x). repeat split; [|by apply He|lia].
      rewrite lookup_app_l by (rewrite length_insert; by eapply lookup_lt_Some).
      rewrite list_lookup_insert_eq; [done|by eapply lookup_lt_Some].
    + exists n, t. rewrite (Hother j Hjk). repeat split; [|done|lia]. apply lookup_app_l_Some.
      by rewrite list_lookup_insert_ne.
  - split; [done|]. destruct (decide (j = k)) as [->|Hjk].
    + rewrite Ht in Hj. simplify_eq. destruct n as [|n]; [done|].
      exists n, (iter r). repeat split; [|done|lia].
      rewrite list_lookup_insert_eq; [done|by eapply lookup_lt_Some].
    + exists n, t. rewrite (Hother j Hjk). repeat split; [|done|lia].
      by rewrite list_lookup_insert_ne.
  - split; [done|]. exists n, t. repeat split; [by apply lookup_app_l_Some|done|].
    unfold steps_of. simpl. lia.
Qed.

(** The same for a goroutine that may not exist yet. *)
Lemma each_budget_spent ls c c' k n :
  (∀ r, always (ends n) (iter r)) → (∀ X (e : E X), Forall (always (ends n)) (spawned X e)) →
  (∀ t, arrival t → always (ends n) t) →
  lexec ls c c' → phase c.2 → Forall (always (ends n)) c.1 → steps_of k ls ≤ n.
Proof.
  intros Hi Hsp Ha Hx. induction Hx as [c|l ls c1 c2 c3 Hs Hx IH]; intros Hp Hf.
  { unfold steps_of. rewrite filter_nil. simpl. lia. }
  destruct (c1.1 !! k) as [t|] eqn:Hk.
  - pose proof (always_now _ _ (Forall_lookup_1 _ _ _ _ Hf Hk)) as He.
    destruct (own_budget_spent (l :: ls) c1 c3 k n t ltac:(by econstructor) Hp Hk He)
      as (_ & n' & _ & _ & _ & Hle). lia.
  - assert (phase c2.2) as Hp2.
    { destruct Hs; simpl in *; [|done..]. by eapply phase_kept. }
    assert (Forall (always (ends n)) c2.1) as Hf2.
    { eapply always_reaches; [done..| |exact Hf]. by eapply rtc_once, lstep_tstep. }
    assert (steps_of k (l :: ls) = steps_of k ls) as ->.
    { unfold steps_of. rewrite filter_cons_False; [done|]. intros ->. inversion Hs; simplify_eq/=. }
    by apply IH.
Qed.
End schedules.

(** ** Replaying executions

    With a function that picks an answer to each call, a list of moves is an
    execution. *)
Section replay.
Context {E : Type → Type} {S R : Type}.
Context (resp : ∀ X, E X → S → X → S → Prop).
Context (spawned : ∀ X, E X → list (proc E (option R))).
Context (iter : R → proc E (option R)).
Context (arrival : proc E (option R) → Prop).

(** [answer n e s] answers [e]; the number is the replay's choice among the
    possible answers. *)
Context (answer : nat → ∀ X, E X → S → option (X * S)).

Inductive replay_move :=
| Go (k n : nat)
| Arrive (t : proc E (option R)).

Definition move_label (m : replay_move) : option nat := match m with Go k _ => Some k | Arrive _ => None end.
Definition move_ok (m : replay_move) : Prop := match m with Go _ _ => True | Arrive t => arrival t end.

Definition do_replay (m : replay_move) (c : list (proc E (option R)) * S)
    : option (list (proc E (option R)) * S) :=
  let '(ts, s) := c in
  match m with
  | Arrive t => Some (ts ++ [t], s)
  | Go k n =>
    match ts !! k with
    | None | Some (Ret None) => None
    | Some (Ret (Some r)) => Some (<[k := iter r]> ts, s)
    | Some (Vis e cont) =>
      '(x, s') ← answer n _ e s; Some (<[k := cont x]> ts ++ spawned _ e, s')
    end
  end.

Fixpoint replay (ms : list replay_move) (c : list (proc E (option R)) * S)
    : option (list (proc E (option R)) * S) :=
  match ms with
  | [] => Some c
  | m :: ms => c' ← do_replay m c; replay ms c'
  end.

(** The configuration a replay ends in, if all of its moves are possible. *)
Definition replayed (ms : list replay_move) (c : list (proc E (option R)) * S)
    : list (proc E (option R)) * S := default c (replay ms c).

Hypothesis answer_resp : ∀ n X (e : E X) s x s', answer n X e s = Some (x, s') → resp X e s x s'.

Lemma do_replay_step m c c' :
  move_ok m → do_replay m c = Some c' → lstep resp spawned iter arrival (move_label m) c c'.
Proof using answer_resp.
  destruct c as [ts s]. destruct m as [k n|t]; simpl; intros Hm H; [|simplify_eq; by constructor].
  destruct (ts !! k) as [[[r|]|X e cont]|] eqn:Hk; simplify_eq; [by constructor|].
  destruct (answer n X e s) as [[x s']|] eqn:He; simplify_eq/=.
  econstructor; [done|by eapply answer_resp].
Qed.

Lemma replay_exec ms c :
  Forall move_ok ms → is_Some (replay ms c) →
  lexec resp spawned iter arrival (move_label <$> ms) c (replayed ms c).
Proof using answer_resp.
  intros Hok [c' Hc]. unfold replayed. rewrite Hc. simpl. revert c Hc.
  induction Hok as [|m ms Hm _ IH]; simpl; intros c H; [simplify_eq; constructor|].
  destruct (do_replay m c) as [c1|] eqn:Hd; simplify_eq/=.
  econstructor; [by apply do_replay_step|by apply IH].
Qed.
End replay.
