(* ===== verification/SshConcurrency.v ===== *)
(** * The SSH connection manager's goroutines (internal/ssh/manager.go)

    One manager, shared by the callers of its methods and by its two background
    loops ([keepAliveLoop], [reconnectLoop]).  A step of a goroutine is one
    section under the manager's mutex (the [_locked] functions of SshManager)
    or one external call; Threads interleaves the goroutines. *)

From Stdlib Require Import SpecFloat.
From S2P Require Import Prelude Effects GoStd Json Http ClaimTypes Env SshManager Threads.

Local Open Scope Z_scope.

(** ** The shared memory *)

(** The manager, its wait group, and what it was given by the libraries: the
    contexts created with their parents, those cancelled, and the connections
    that are open.  [fresh_id] is the next context or connection. *)
Record Sm := {
  mgr : SSHConnectionManager;
  wg : Z;
  parent_of : gmap ctx ctx;
  cancelled_ : gset ctx;
  open : gset connid;
  fresh_id : nat;
}.

Definition set_mgr (f : SSHConnectionManager → SSHConnectionManager) (s : Sm) : Sm :=
  {| mgr := f (mgr s); wg := wg s; parent_of := parent_of s; cancelled_ := cancelled_ s;
     open := open s; fresh_id := fresh_id s |}.
Definition add_wg (d : Z) (s : Sm) : Sm :=
  {| mgr := mgr s; wg := wg s + d; parent_of := parent_of s; cancelled_ := cancelled_ s;
     open := open s; fresh_id := fresh_id s |}.
Definition set_open (o : gset connid) (n : nat) (s : Sm) : Sm :=
  {| mgr := mgr s; wg := wg s; parent_of := parent_of s; cancelled_ := cancelled_ s;
     open := o; fresh_id := n |}.
Definition cancel_id (c : ctx) (s : Sm) : Sm :=
  {| mgr := mgr s; wg := wg s; parent_of := parent_of s; cancelled_ := {[c]} ∪ cancelled_ s;
     open := open s; fresh_id := fresh_id s |}.

(** [context.WithCancel]; a nil parent is the background context. *)
Definition with_cancel (p : option ctx) (s : Sm) : ctx * Sm :=
  (fresh_id s,
   {| mgr := mgr s; wg := wg s;
      parent_of := match p with Some p => <[fresh_id s := p]> (parent_of s) | None => parent_of s end;
      cancelled_ := cancelled_ s; open := open s; fresh_id := Datatypes.S (fresh_id s) |}).

(** A context is done when it or its parent was cancelled (contexts are at most
    two deep: the base context and its child). *)
Definition is_done (c : ctx) (s : Sm) : bool :=
  bool_decide (c ∈ cancelled_ s) ||
  match parent_of s !! c with Some p => bool_decide (p ∈ cancelled_ s) | None => false end.

Definition done_opt (p : option ctx) (s : Sm) : bool :=
  match p with Some c => is_done c s | None => false end.

(** ** Calls *)

Inductive Counter := CActive | CInactive | CDrops | CReconnects.

Definition count (c : Counter) : Metrics → Metrics :=
  match c with
  | CActive => IncActive | CInactive => DecActive | CDrops => IncDrops | CReconnects => IncReconnects
  end.

(** The loops, as goroutines to start. *)
Inductive Loop := KeepAlive | Reconnect (parent : option ctx) (backoff : Z).

Section calls.
Context `{L : Lib}.

Inductive SmE : Type → Type :=
(* sections under the mutex *)
| LStart : SmE bool                                        (* false: already started *)
| LEstablish (c : connid) : SmE (option connid * bool)     (* old connection, was connected *)
| LTransition : SmE (option (bool * option connid * option ctx * option ctx))
                                                           (* None: already reconnecting *)
| LReconnected (parent : option ctx) : SmE unit
| LClose : SmE (option (option ctx * option ctx * option connid * bool))
                                                           (* None: not started *)
| LContext : SmE (option ctx)
| LConn : SmE (option connid)
| LUptime (uptime : spec_float) : SmE spec_float           (* the previous one *)
(* the field m.ctx read without the mutex *)
| ReadCtx : SmE (option ctx)
(* atomic counters, contexts, goroutines *)
| Count (c : Counter) : SmE unit
| Cancel (c : ctx) : SmE unit
| Notify (e : Event) : SmE unit
| GoLoop (l : Loop) : SmE unit
| WgDone : SmE unit
| Wait : SmE unit                                          (* wg.Wait *)
(* the libraries *)
| Dial_ : SmE (result string connid)
| CloseConn (c : connid) : SmE unit
| Run (c : connid) (command : string) : SmE (result string string)
(* select: true for the ticker or the timer, false for a context that is done *)
| Tick (c : ctx) : SmE bool
| IsDone (p : option ctx) : SmE bool
| Timer (d : Z) (p : option ctx) : SmE bool
| NilPanic : SmE Empty_set.

Abbreviation SmP := (proc SmE).

(** What a call may answer and do. *)
Definition sm_resp X (e : SmE X) (s : Sm) : X → Sm → Prop :=
  match e in SmE X return X → Sm → Prop with
  | LStart => λ x s',
      if started (mgr s) then x = false ∧ s' = s
      else let '(base, s1) := with_cancel None s in
           let '(c, s2) := with_cancel (Some base) s1 in
           x = true ∧ s' = set_mgr (start_locked base c) s2
  | LEstablish c => λ x s',
      x = (conn (mgr s), connected (mgr s)) ∧ s' = set_mgr (establish_locked c) s
  | LTransition => λ x s',
      if reconnecting (mgr s) then x = None ∧ s' = s
      else x = Some (connected (mgr s), conn (mgr s), cancel (mgr s), baseCtx (mgr s)) ∧
           s' = set_mgr transition_locked s
  | LReconnected p => λ _ s',
      match mctx (mgr s), cancel (mgr s) with
      | Some c, Some _ => s' = set_mgr (reconnected_locked c) s
      | _, _ => let '(c, s1) := with_cancel p s in s' = set_mgr (reconnected_locked c) s1
      end
  | LClose => λ x s',
      if started (mgr s)
      then x = Some (cancel (mgr s), baseCancel (mgr s), conn (mgr s), connected (mgr s)) ∧
           s' = set_mgr close_locked s
      else x = None ∧ s' = s
  | LContext => λ x s', x = mctx (mgr s) ∧ s' = s
  | LConn => λ x s', x = conn (mgr s) ∧ s' = s
  | LUptime u => λ x s', x = lastUptime (mgr s) ∧ s' = set_mgr (check_locked u) s
  | ReadCtx => λ x s', x = mctx (mgr s) ∧ s' = s
  | Count c => λ _ s', s' = set_mgr (set_metrics (count c)) s
  | Cancel c => λ _ s', s' = cancel_id c s
  | Notify _ => λ _ s', s' = s
  | GoLoop _ => λ _ s', s' = add_wg 1 s
  | WgDone => λ _ s', s' = add_wg (-1) s
  | Wait => λ _ s', wg s = 0 ∧ s' = s
  | Dial_ => λ x s',
      match x with
      | Ok c => c = fresh_id s ∧
                s' = set_open ({[c]} ∪ open s) (Datatypes.S (fresh_id s)) s
      | Err _ => s' = s
      end
  | CloseConn c => λ _ s', s' = set_open (open s ∖ {[c]}) (fresh_id s) s
  | Run _ _ => λ _ s', s' = s
  | Tick c => λ x s', (x = false → is_done c s = true) ∧ s' = s
  | IsDone p => λ x s', x = done_opt p s ∧ s' = s
  | Timer _ p => λ x s', (x = false → done_opt p s = true) ∧ s' = s
  | NilPanic => λ _ _, False
  end.

(** ** The methods *)

(** The configuration the manager was made of, and the one it keeps. *)
Context (raw : RouterConfig).
Definition cfg : RouterConfig := with_defaults raw.

Definition nil_panic {A} : SmP A := Vis NilPanic (λ x : Empty_set, match x with end).

Definition close_opt (c : option connid) : SmP unit :=
  match c with Some c => trigger (CloseConn c) | None => mret tt end.
Definition cancel_opt (c : option ctx) : SmP unit :=
  match c with Some c => trigger (Cancel c) | None => mret tt end.

Definition establishConnection : SmP (result string unit) :=
  r ← trigger Dial_;
  match r with
  | Err e => mret (Err ("ssh dial failed: " +:+ e))
  | Ok c =>
    old ← trigger (LEstablish c);
    _ ← close_opt old.1;
    _ ← (if (old.2 : bool) then mret tt else trigger (Count CActive));
    _ ← trigger (Count CReconnects);
    _ ← trigger (Notify {| Reason := ReasonReconnectSuccess; Ev_Err := None |});
    mret (Ok tt)
  end.

Definition transitionToReconnecting (err : string) : SmP unit :=
  t ← trigger LTransition;
  match t with
  | None => mret tt
  | Some (wasConnected, c, cancel, baseCtx) =>
    _ ← cancel_opt cancel;
    _ ← close_opt c;
    _ ← (if (wasConnected : bool) then trigger (Count CInactive) else mret tt);
    _ ← trigger (Count CDrops);
    _ ← trigger (Notify {| Reason := ReasonConnectionDrop; Ev_Err := Some err |});
    trigger (GoLoop (Reconnect baseCtx (InitialBackoff cfg)))
  end.

Definition handleConnectionDrop (err : string) : SmP unit := transitionToReconnecting err.

(** [Start] with a context that lives as long as the operator. *)
Definition Start : SmP (result string unit) :=
  ok ← trigger LStart;
  if (ok : bool) then
    r ← establishConnection;
    match r with
    | Err e =>
      _ ← transitionToReconnecting e;
      mret (Err ("initial connection failed, reconnecting in background: " +:+ e))
    | Ok _ => _ ← trigger (GoLoop KeepAlive); mret (Ok tt)
    end
  else mret (Err "ssh manager already started").

Definition RunCommand (command : string) : SmP (result string string) :=
  c ← trigger LConn;
  match c with
  | None => mret (Err "ssh connection not established")
  | Some c => trigger (Run c command)
  end.

Definition checkConnection : SmP (result string unit) :=
  x ← trigger LContext;
  match x with
  | None => mret (Err "manager context unavailable")
  | Some _ =>
    r ← RunCommand (KeepAliveCommand cfg);
    match r with
    | Err e => mret (Err e)
    | Ok output =>
      match parseUptime output with
      | Err e => mret (Err e)
      | Ok uptime =>
        previous ← trigger (LUptime uptime);
        _ ← (if reboot_detected previous uptime
             then trigger (Notify {| Reason := ReasonReboot; Ev_Err := None |}) else mret tt);
        mret (Ok tt)
      end
    end
  end.

Definition Close : SmP unit :=
  r ← trigger LClose;
  match r with
  | None => mret tt
  | Some (cancel, baseCancel, c, wasConnected) =>
    _ ← cancel_opt cancel;
    _ ← cancel_opt baseCancel;
    _ ← trigger Wait;
    _ ← close_opt c;
    if (wasConnected : bool) then trigger (Count CInactive) else mret tt
  end.

(** ** The loops *)

(** One iteration of [keepAliveLoop]; the select reads the field [m.ctx]. *)
Definition keepAliveLoop : SmP (option Loop) :=
  x ← trigger ReadCtx;
  match x with
  | None => nil_panic
  | Some c =>
    fired ← trigger (Tick c);
    if (fired : bool) then
      r ← checkConnection;
      match r with
      | Ok _ => mret (Some KeepAlive)
      | Err e => _ ← handleConnectionDrop e; _ ← trigger WgDone; mret None
      end
    else _ ← trigger WgDone; mret None
  end.

(** [backoff *= 2], cut at [MaxBackoff]; [time.Duration] is an [int64]. *)
Definition grow (backoff : Z) : Z :=
  let b := wrap64s (backoff * 2) in if MaxBackoff cfg <? b then MaxBackoff cfg else b.

(** One iteration of [reconnectLoop]. *)
Definition reconnectLoop (parent : option ctx) (backoff : Z) : SmP (option Loop) :=
  d ← trigger (IsDone parent);
  if (d : bool) then _ ← trigger WgDone; mret None
  else
    r ← establishConnection;
    match r with
    | Err _ =>
      fired ← trigger (Timer backoff parent);
      if (fired : bool) then mret (Some (Reconnect parent (grow backoff)))
      else _ ← trigger WgDone; mret None
    | Ok _ =>
      _ ← trigger (LReconnected parent);
      _ ← trigger (GoLoop KeepAlive);
      _ ← trigger WgDone;
      mret None
    end.

Definition loop (l : Loop) : SmP (option Loop) :=
  match l with
  | KeepAlive => keepAliveLoop
  | Reconnect p b => reconnectLoop p b
  end.

Definition sm_spawned X (e : SmE X) : list (SmP (option Loop)) :=
  match e with GoLoop l => [loop l] | _ => [] end.

(** ** Callers *)

Definition call_Start : SmP (option Loop) := _ ← Start; mret None.
Definition call_Close : SmP (option Loop) := _ ← Close; mret None.
Definition call_Run (command : string) : SmP (option Loop) := _ ← RunCommand command; mret None.

(** Callers of every method; and callers of every method but [Close]. *)
Inductive caller : SmP (option Loop) → Prop :=
| caller_start : caller call_Start
| caller_close : caller call_Close
| caller_run command : caller (call_Run command).

Inductive user : SmP (option Loop) → Prop :=
| user_start : user call_Start
| user_run command : user (call_Run command).

Definition fresh_sm : Sm :=
  {| mgr := fresh_manager raw; wg := 0; parent_of := ∅; cancelled_ := ∅; open := ∅; fresh_id := 0 |}.
End calls.

Abbreviation SmP := (proc SmE).
