(* ===== verification/SshAccounts.v ===== *)
(** * Connections and counters of the SSH manager are accounted for

    In every interleaving of callers ([Start], [Close], [RunCommand]) with the
    manager's loops: a connection that was dialled is the manager's current one
    or a goroutine is about to close it, the current connection is never closed
    under the manager, and the gauge of active connections is right except for
    updates that are under way. *)

From Stdlib Require Import SpecFloat.
From S2P Require Import Prelude Effects GoStd Json Http ClaimTypes Env SshManager Threads.
From S2P Require Import SshConcurrency.

Local Open Scope Z_scope.

Lemma wrap64s_add a b : wrap64s (wrap64s a + b) = wrap64s (a + b).
Proof.
  unfold wrap64s. change (2 ^ 64) with 18446744073709551616.
  change (2 ^ 63) with 9223372036854775808. Z.div_mod_to_equations. lia.
Qed.

Lemma wrap64s_idemp a : wrap64s (wrap64s a) = wrap64s a.
Proof. pose proof (wrap64s_add a 0) as H. by rewrite !Z.add_0_r in H. Qed.

(** What a goroutine still has to do: count [delta] more active connections
    and close the connections it [owe]s. *)
Record Debt := { delta : Z; owe : gset connid }.

Definition clean (g : Debt) : Prop := delta g = 0 ∧ owe g = ∅.

Definition conns (c : option connid) : gset connid :=
  match c with Some c => {[c]} | None => ∅ end.

Section accounts.
Context `{L : Lib} (raw : RouterConfig).

Definition debt_pre X (e : SmE X) (g : Debt) : Prop :=
  match e with
  | LEstablish c => delta g = 0 ∧ owe g = {[c]}
  | CloseConn c => c ∈ owe g
  | LStart | LTransition | LClose | Dial_ | GoLoop _ | Tick _ | Timer _ _ => clean g
  | _ => True
  end.

Definition debt_upd X (e : SmE X) (g : Debt) : X → Debt :=
  match e in SmE X return X → Debt with
  | Dial_ => λ x, match x with
                  | Ok c => {| delta := delta g; owe := {[c]} ∪ owe g |}
                  | Err _ => g
                  end
  | LEstablish c => λ x, {| delta := delta g + (if x.2 then 0 else 1);
                            owe := (owe g ∖ {[c]}) ∪ conns x.1 |}
  | LTransition => λ x, match x with
                        | Some (was, c, _, _) => {| delta := delta g - (if was then 1 else 0);
                                                    owe := owe g ∪ conns c |}
                        | None => g
                        end
  | LClose => λ x, match x with
                   | Some (_, _, c, was) => {| delta := delta g - (if was then 1 else 0);
                                               owe := owe g ∪ conns c |}
                   | None => g
                   end
  | CloseConn c => λ _, {| delta := delta g; owe := owe g ∖ {[c]} |}
  | Count CActive => λ _, {| delta := delta g - 1; owe := owe g |}
  | Count CInactive => λ _, {| delta := delta g + 1; owe := owe g |}
  | _ => λ _, g
  end.

Definition debt_birth X (e : SmE X) (_ : Debt) : list Debt :=
  match e with GoLoop _ => [{| delta := 0; owe := ∅ |}] | _ => [] end.

Definition debt_fin (_ : option Loop) (g : Debt) : Prop := clean g.

Abbreviation debts := (protocol debt_pre (λ _ _ _ _, True) debt_upd).
Abbreviation pays := (keeps debt_pre (λ _ _ _ _, True) debt_upd debt_fin).

Definition no_debt : Debt := {| delta := 0; owe := ∅ |}.

Lemma clean_eq g : clean g → g = no_debt.
Proof. destruct g; intros [? ?]; simpl in *; by subst. Qed.

(** A call that changes no debt. *)
Lemma debt_call {X} (e : SmE X) (Q : X → Debt → Prop) g :
  debt_pre X e g → (∀ x, Q x (debt_upd X e g x)) → wp debts (trigger e) Q g.
Proof. intros Hp HQ. apply wp_trigger. split; [done|]. intros x g' [_ ->]. apply HQ. Qed.

Lemma pay_close c (Q : unit → Debt → Prop) d :
  Q tt {| delta := d; owe := ∅ |} → wp debts (close_opt c) Q {| delta := d; owe := conns c |}.
Proof.
  intros HQ. destruct c as [c|]; [|exact HQ]. apply debt_call; [simpl; set_solver|].
  intros []. simpl. by rewrite difference_diag_L.
Qed.

Lemma pay_cancel c (Q : unit → Debt → Prop) g : Q tt g → wp debts (cancel_opt c) Q g.
Proof. intros HQ. destruct c as [c|]; [|exact HQ]. apply debt_call; [done|]. by intros []. Qed.

(** Calls that have no result and change no debt. *)
Ltac pay := rewrite ?wp_bind; apply debt_call; [done|]; intros []; cbn [debt_upd delta owe no_debt].

Lemma establish_pays (Q : result string unit → Debt → Prop) :
  (∀ r, Q r no_debt) → wp debts establishConnection Q no_debt.
Proof.
  intros HQ. unfold establishConnection. rewrite wp_bind. apply debt_call; [done|].
  intros [c|e]; [|apply HQ]. rewrite wp_bind. apply debt_call; [simpl; split; [done|set_solver]|].
  intros [old was]. rewrite wp_bind. cbn [debt_upd fst snd delta owe no_debt].
  replace (({[c]} ∪ ∅) ∖ {[c]} ∪ conns old) with (conns old) by set_solver.
  apply pay_close. rewrite wp_bind. destruct was; [rewrite wp_ret|pay]; do 2 pay; apply HQ.
Qed.

Lemma transition_pays err (Q : unit → Debt → Prop) :
  Q tt no_debt → wp debts (transitionToReconnecting raw err) Q no_debt.
Proof.
  intros HQ. unfold transitionToReconnecting. rewrite wp_bind. apply debt_call; [done|].
  intros [[[[was c] cn] base]|]; [|apply HQ]. cbn [debt_upd delta owe no_debt].
  rewrite union_empty_l_L, wp_bind. apply pay_cancel. rewrite wp_bind. apply pay_close.
  rewrite wp_bind. destruct was; [pay|rewrite wp_ret]; do 3 pay; apply HQ.
Qed.

Lemma run_pays command (Q : result string string → Debt → Prop) :
  (∀ r, Q r no_debt) → wp debts (RunCommand command) Q no_debt.
Proof.
  intros HQ. unfold RunCommand. rewrite wp_bind. apply debt_call; [done|].
  intros [c|]; [|apply HQ]. by apply debt_call.
Qed.

Lemma check_pays (Q : result string unit → Debt → Prop) :
  (∀ r, Q r no_debt) → wp debts (checkConnection raw) Q no_debt.
Proof.
  intros HQ. unfold checkConnection. rewrite wp_bind. apply debt_call; [done|].
  intros [c|]; [|apply HQ]. rewrite wp_bind. apply run_pays. intros [out|e]; [|apply HQ].
  destruct (parseUptime out) as [u|e]; [|apply HQ]. rewrite wp_bind. apply debt_call; [done|].
  intros prev. rewrite wp_bind. destruct (reboot_detected prev u); [pay|rewrite wp_ret]; apply HQ.
Qed.

Lemma clean_fin o : debt_fin o no_debt.
Proof. done. Qed.

Lemma call_Start_pays : pays (call_Start raw) no_debt.
Proof.
  unfold keeps, call_Start, Start. rewrite !wp_bind. apply debt_call; [done|]. intros []; [|done].
  rewrite wp_bind. apply establish_pays. intros [[]|e]; rewrite wp_bind.
  - by pay.
  - by apply transition_pays.
Qed.

Lemma call_Run_pays command : pays (call_Run command) no_debt.
Proof. unfold keeps, call_Run. rewrite wp_bind. by apply run_pays. Qed.

Lemma call_Close_pays : pays call_Close no_debt.
Proof.
  unfold keeps, call_Close, Close. rewrite !wp_bind. apply debt_call; [done|].
  intros [[[[cn bc] c] was]|]; [|done]. cbn [debt_upd delta owe no_debt].
  rewrite union_empty_l_L, wp_bind. apply pay_cancel. rewrite wp_bind. apply pay_cancel.
  pay. rewrite wp_bind. apply pay_close. by destruct was; [pay|].
Qed.

Lemma loop_pays l : pays (loop raw l) no_debt.
Proof.
  unfold keeps. destruct l as [|p b]; cbn [loop].
  - unfold keepAliveLoop. rewrite wp_bind. apply debt_call; [done|]. intros [c|].
    + rewrite wp_bind. apply debt_call; [done|]. intros []; [|by pay].
      rewrite wp_bind. apply check_pays. intros [[]|e]; [done|]. rewrite wp_bind.
      apply transition_pays. by pay.
    + by split; [|intros []].
  - unfold reconnectLoop. rewrite wp_bind. apply debt_call; [done|]. intros []; [by pay|].
    rewrite wp_bind. apply establish_pays. intros [[]|e].
    + by do 3 pay.
    + rewrite wp_bind. apply debt_call; [done|]. intros []; [done|by pay].
Qed.

(** ** The invariant *)

Definition total (gs : list Debt) : Z := foldr (λ g z, delta g + z) 0 gs.

Lemma total_insert gs k g g' :
  gs !! k = Some g → total (<[k := g']> gs) = total gs - delta g + delta g'.
Proof.
  revert k. induction gs as [|g0 gs IH]; intros [|k] Hk; simplify_eq/=; [lia|].
  rewrite (IH k Hk). lia.
Qed.

Lemma total_app gs gs' : total (gs ++ gs') = total gs + total gs'.
Proof. induction gs as [|g gs IH]; simpl; lia. Qed.

(** The connections goroutine [k] has to close. *)
Definition owed (gs : list Debt) (k : nat) : gset connid :=
  match gs !! k with Some g => owe g | None => ∅ end.

Lemma owed_after gs k g g' bs k0 :
  gs !! k = Some g → Forall clean bs →
  owed (<[k := g']> gs ++ bs) k0 = if decide (k0 = k) then owe g' else owed gs k0.
Proof.
  intros Hk Hbs. unfold owed. rewrite lookup_app. case_decide as E.
  - subst. by rewrite list_lookup_insert_eq by (by eapply lookup_lt_Some).
  - rewrite list_lookup_insert_ne by done. destruct (gs !! k0) as [g0|]; [done|].
    destruct (bs !! _) as [g0|] eqn:Hb; [|done].
    rewrite Forall_lookup in Hbs. by destruct (Hbs _ _ Hb).
Qed.

Lemma owed_arrive gs k0 : owed (gs ++ [no_debt]) k0 = owed gs k0.
Proof.
  unfold owed. rewrite lookup_app. destruct (gs !! k0); [done|].
  by destruct (_ - _)%nat as [|[|]].
Qed.

(** A connection that is open is the manager's current one or has to be closed
    by exactly one goroutine. *)
Record accounted (D : nat → gset connid) (sum : Z) (s : Sm) : Prop := {
  ac_active : wrap64s (active (metrics (mgr s)) + sum) = Z.b2z (connected (mgr s));
  ac_range : wrap64s (active (metrics (mgr s))) = active (metrics (mgr s));
  ac_conn : is_Some (conn (mgr s)) ↔ connected (mgr s) = true;
  ac_open : ∀ c, c ∈ open s ↔ conn (mgr s) = Some c ∨ ∃ k, c ∈ D k;
  ac_current : ∀ c k, conn (mgr s) = Some c → c ∉ D k;
  ac_once : ∀ c k k', c ∈ D k → c ∈ D k' → k = k';
  ac_fresh : ∀ c, c ∈ open s → (c < fresh_id s)%nat;
}.

Definition accounts (gs : list Debt) (s : Sm) : Prop := accounted (owed gs) (total gs) s.

Lemma accounted_ext D D' n s :
  (∀ k, D k = D' k) → accounted D n s → accounted D' n s.
Proof.
  intros HD [H1 H2 H3 H4 H5 H6 H7]. split; try done.
  - intros c. rewrite H4. by setoid_rewrite HD.
  - intros c k. rewrite <-HD. apply H5.
  - intros c k k'. rewrite <-!HD. apply H6.
Qed.

(** The part of the memory the accounts are about. *)
Definition view (s : Sm) : Z * bool * option connid * gset connid :=
  (active (metrics (mgr s)), connected (mgr s), conn (mgr s), open s).

Lemma accounted_view D n s s' :
  accounted D n s → view s' = view s → (fresh_id s ≤ fresh_id s')%nat → accounted D n s'.
Proof.
  unfold view. intros [H1 H2 H3 H4 H5 H6 H7] [= E1 E2 E3 E4] Hf.
  split; rewrite ?E1, ?E2, ?E3, ?E4; try done. intros c Hc. specialize (H7 c Hc). lia.
Qed.

Definition set_owed (k : nat) (o : gset connid) (D : nat → gset connid) (k0 : nat) : gset connid :=
  if decide (k0 = k) then o else D k0.

(** A counter of active connections is brought up to date. *)
Lemma accounted_count D n s d f :
  accounted D n s → (∀ x, active (f x) = wrap64s (active x + d)) →
  accounted D (n - d) (set_mgr (set_metrics f) s).
Proof.
  intros [H1 H2 H3 H4 H5 H6 H7] Hf. split; simpl; try done.
  - rewrite Hf, wrap64s_add. rewrite <-H1. f_equal. lia.
  - by rewrite Hf, wrap64s_idemp.
Qed.

(** The manager's connection is given to goroutine [k] to close. *)
Lemma accounted_give D n k s s' :
  accounted D n s → D k = ∅ →
  view s' = (active (metrics (mgr s)), false, None, open s) → fresh_id s' = fresh_id s →
  accounted (set_owed k (conns (conn (mgr s))) D) (n - (if connected (mgr s) then 1 else 0)) s'.
Proof.
  unfold view. intros [H1 H2 H3 H4 H5 H6 H7] Hk [= E1 E2 E3 E4] Hf.
  unfold set_owed. split; rewrite ?E1, ?E2, ?E3, ?E4, ?Hf; try done.
  - replace (_ + (n - _)) with (active (metrics (mgr s)) + n + - (if connected (mgr s) then 1 else 0))
      by lia. rewrite <-wrap64s_add, H1. by destruct (connected (mgr s)).
  - intros c. rewrite H4. split.
    + intros [Hc|[k0 Hc]]; right; [exists k; rewrite decide_True by done; rewrite Hc; set_solver|].
      exists k0. rewrite decide_False; [done|]. intros ->. rewrite Hk in Hc. set_solver.
    + intros [[=]|[k0 Hc]]. case_decide; [|by eauto]. destruct (conn (mgr s)); set_solver.
  - intros c k1 k2. destruct (conn (mgr s)) as [c0|] eqn:Hc0.
    + pose proof (H5 c0 k1 eq_refl). pose proof (H5 c0 k2 eq_refl).
      repeat case_decide; subst; try done; [set_solver..|apply H6].
    + repeat case_decide; subst; try done; [set_solver..|apply H6].
Qed.


(** A dialled connection belongs to the goroutine that dialled it. *)
Lemma accounted_dial D n k s c :
  accounted D n s → D k = ∅ → c = fresh_id s →
  accounted (set_owed k {[c]} D) n (set_open ({[c]} ∪ open s) (S (fresh_id s)) s).
Proof.
  intros [H1 H2 H3 H4 H5 H6 H7] Hk ->.
  assert (fresh_id s ∉ open s) as Hnew by (intros Hc; apply H7 in Hc; lia).
  assert (∀ k0, fresh_id s ∉ D k0) as HnD by (intros k0 Hc; apply Hnew, H4; eauto).
  unfold set_owed. split; simpl; try done.
  - intros c. rewrite elem_of_union, H4, elem_of_singleton. split.
    + intros [->|[Hc|[k0 Hc]]]; [right; exists k; rewrite decide_True; set_solver|by left|].
      right. exists k0. rewrite decide_False; [done|]. intros ->. rewrite Hk in Hc. set_solver.
    + intros [Hc|[k0 Hc]]; [by auto|]. case_decide; [set_solver|by eauto].
  - intros c k0 Hc. case_decide; [|by apply H5]. rewrite elem_of_singleton. intros ->.
    apply Hnew, H4. by left.
  - intros c k1 k2. pose proof (HnD k1). pose proof (HnD k2).
    repeat case_decide; subst; try done; [set_solver..|apply H6].
  - intros c [->%elem_of_singleton|Hc]%elem_of_union; [lia|]. specialize (H7 c Hc). lia.
Qed.

(** The goroutine that dialled installs its connection and owes the old one. *)
Lemma accounted_install D n k s c :
  accounted D n s → D k = {[c]} →
  accounted (set_owed k (conns (conn (mgr s))) D) (n + (if connected (mgr s) then 0 else 1))
    (set_mgr (establish_locked c) s).
Proof.
  intros [H1 H2 H3 H4 H5 H6 H7] Hk. assert (c ∈ D k) as Hck by set_solver.
  assert (conn (mgr s) ≠ Some c) as Hne by (intros E; by apply (H5 c k)).
  assert (∀ k0, c ∈ D k0 → k0 = k) as Honly by (intros k0 Hc; by apply (H6 c)).
  unfold set_owed. split; simpl; try done.
  - replace (_ + (n + _)) with (active (metrics (mgr s)) + n + (if connected (mgr s) then 0 else 1))
      by lia. rewrite <-wrap64s_add, H1. by destruct (connected (mgr s)).
  - intros c0. rewrite H4. split.
    + intros [Hc|[k0 Hc]]; [right; exists k; rewrite decide_True, Hc; set_solver|].
      destruct (decide (k0 = k)) as [->|Hk0]; [left; set_solver|].
      right. exists k0. by rewrite decide_False.
    + intros [[= <-]|[k0 Hc]]; [by eauto|]. case_decide; [|by eauto].
      left. destruct (conn (mgr s)); set_solver.
  - intros c0 k0 [= <-]. case_decide; [destruct (conn (mgr s)); set_solver|]. naive_solver.
  - intros c0 k1 k2. destruct (conn (mgr s)) as [c1|] eqn:Hc1.
    + pose proof (H5 c1 k1 eq_refl). pose proof (H5 c1 k2 eq_refl).
      repeat case_decide; subst; try done; [set_solver..|apply H6].
    + repeat case_decide; subst; try done; [set_solver..|apply H6].
Qed.

(** A goroutine closes a connection it owes. *)
Lemma accounted_close D n k s c :
  accounted D n s → c ∈ D k →
  accounted (set_owed k (D k ∖ {[c]}) D) n (set_open (open s ∖ {[c]}) (fresh_id s) s).
Proof.
  intros [H1 H2 H3 H4 H5 H6 H7] Hk.
  unfold set_owed. split; simpl; try done.
  - intros c0. rewrite elem_of_difference, H4, elem_of_singleton. split.
    + intros [[Hc|[k0 Hc]] Hne]; [by left|]. right. exists k0. case_decide; subst; set_solver.
    + intros [Hc|[k0 Hc]].
      * split; [by left|]. intros ->. by apply (H5 c k).
      * case_decide; [set_solver|]. split; [by eauto|]. intros ->. by apply H6 with (k' := k) in Hc.
  - intros c0 k0 Hc. specialize (H5 c0 k0 Hc). case_decide; subst; set_solver.
  - intros c0 k1 k2. specialize (H6 c0 k1 k2). repeat case_decide; subst; set_solver.
  - intros c0 [Hc _]%elem_of_difference. by apply H7.
Qed.
(** ** Every interleaving *)

(** The accounts after a call of goroutine [k]. *)
Lemma accounts_after gs k g g' bs n s' :
  gs !! k = Some g → Forall clean bs → n = total gs - delta g + delta g' →
  accounted (set_owed k (owe g') (owed gs)) n s' → accounts (<[k := g']> gs ++ bs) s'.
Proof.
  intros Hk Hbs -> Ha. unfold accounts. rewrite total_app, (total_insert _ _ _ _ Hk).
  assert (total bs = 0) as ->.
  { induction Hbs as [|b bs [Hd _] _ IH]; [done|]. simpl. lia. }
  rewrite Z.add_0_r. eapply accounted_ext; [|exact Ha]. intros k0. by rewrite (owed_after gs k g).
Qed.

Lemma accounts_same gs k g bs s s' :
  accounts gs s → gs !! k = Some g → Forall clean bs → view s' = view s →
  (fresh_id s ≤ fresh_id s')%nat → accounts (<[k := g]> gs ++ bs) s'.
Proof.
  intros Ha Hk Hbs Hv Hf. apply (accounts_after gs k g g _ (total gs)); [done|done|lia|].
  eapply accounted_view; [|exact Hv|exact Hf]. eapply accounted_ext; [|exact Ha].
  intros k0. unfold set_owed. case_decide; [|done]. subst. unfold owed. by rewrite Hk.
Qed.

(** The connection and the count of a manager that gives both up pass to the
    goroutine that took them. *)
Lemma accounts_give gs k g bs s s' :
  accounts gs s → gs !! k = Some g → clean g → Forall clean bs →
  view s' = (active (metrics (mgr s)), false, None, open s) → fresh_id s' = fresh_id s →
  accounts (<[k := {| delta := delta g - (if connected (mgr s) then 1 else 0);
                      owe := owe g ∪ conns (conn (mgr s)) |}]> gs ++ bs) s'.
Proof.
  intros Ha Hk [Hd Hc] Hb Hv Hf. eapply accounts_after; [done|done|reflexivity|]. cbn [delta owe].
  rewrite Hd, Hc, union_empty_l_L.
  replace (total gs - 0 + _) with (total gs - (if connected (mgr s) then 1 else 0)) by lia.
  apply accounted_give; [done| |done..]. unfold owed. by rewrite Hk.
Qed.

(** A count that is written settles the debt of the goroutine that writes it. *)
Lemma accounts_count gs k g bs s d f :
  accounts gs s → gs !! k = Some g → Forall clean bs → (∀ x, active (f x) = wrap64s (active x + d)) →
  accounts (<[k := {| delta := delta g - d; owe := owe g |}]> gs ++ bs) (set_mgr (set_metrics f) s).
Proof.
  intros Ha Hk Hb Hf. eapply accounts_after; [done|done|reflexivity|]. cbn [delta owe].
  replace (total gs - _ + _) with (total gs - d) by lia. apply accounted_count; [|done].
  eapply accounted_ext; [|exact Ha]. intros k0. unfold set_owed. case_decide; [|done].
  subst. unfold owed. by rewrite Hk.
Qed.

Lemma debt_call_inv gs s k X (e : SmE X) g x s' :
  accounts gs s → gs !! k = Some g → debt_pre X e g → sm_resp X e s x s' →
  accounts (<[k := debt_upd X e g x]> gs ++ debt_birth X e g) s'.
Proof.
  intros Ha Hk Hpre Hr.
  assert (owed gs k = owe g) as Ho by (unfold owed; by rewrite Hk).
  assert (Forall clean (debt_birth X e g)) as Hb by (destruct e; repeat constructor).
  destruct e; cbn [debt_upd debt_pre sm_resp] in *;
    try (first [subst s'|destruct Hr as [_ ->]]; by apply (accounts_same gs k g _ s)).
  - (* LStart *)
    destruct (started (mgr s)); simpl in Hr; destruct Hr as [-> ->];
      apply (accounts_same gs k g _ s); try done; simpl; lia.
  - (* LEstablish *)
    destruct Hr as [-> ->]. destruct Hpre as [Hd Hc]. cbn [fst snd].
    eapply accounts_after; [done|done|reflexivity|]. cbn [delta owe]. rewrite Hd.
    replace (total gs - 0 + _) with (total gs + (if connected (mgr s) then 0 else 1)) by lia.
    replace (owe g ∖ {[c]} ∪ conns (conn (mgr s))) with (conns (conn (mgr s))) by set_solver.
    apply accounted_install; [done|congruence].
  - (* LTransition *)
    destruct (reconnecting (mgr s)).
    { destruct Hr as [-> ->]. by apply (accounts_same gs k g _ s). }
    destruct Hr as [-> ->]. by apply accounts_give.
  - (* LReconnected *)
    destruct x. destruct (mctx (mgr s)), (cancel (mgr s)); simpl in Hr; subst s';
      apply (accounts_same gs k g _ s); try done; simpl; lia.
  - (* LClose *)
    destruct (started (mgr s)); [|destruct Hr as [-> ->]; by apply (accounts_same gs k g _ s)].
    destruct Hr as [-> ->]. by apply accounts_give.
  - (* Count *)
    subst s'. destruct c; cbn [debt_upd]; try (by apply (accounts_same gs k g _ s)).
    + by apply accounts_count.
    + replace (delta g + 1) with (delta g - -1) by lia. by apply accounts_count.
  - (* Dial_ *)
    destruct x as [c|err]; [|subst s'; by apply (accounts_same gs k g _ s)].
    destruct Hr as [-> ->]. destruct Hpre as [Hd Hc].
    eapply accounts_after; [done|done|reflexivity|]. cbn [delta owe]. rewrite Hc, union_empty_r_L.
    replace (total gs - _ + _) with (total gs) by lia. apply accounted_dial; [done|congruence|done].
  - (* CloseConn *)
    subst s'. eapply accounts_after; [done|done|reflexivity|]. cbn [delta owe].
    replace (total gs - _ + _) with (total gs) by lia. rewrite <-Ho.
    apply accounted_close; [done|congruence].
  - (* NilPanic *) done.
Qed.

Lemma debts_paid : obligations sm_resp (sm_spawned raw) (loop raw) (caller raw) debt_pre
  (λ _ _ _ _, True) debt_upd debt_birth debt_fin accounts.
Proof.
  split.
  - intros gs s k X e g x s' Ha Hk Hpre Hr. split; [done|]. by eapply debt_call_inv.
  - intros X e g _. destruct e; try (by constructor). repeat constructor. apply loop_pays.
  - intros r g ->%clean_eq. apply loop_pays.
  - intros t Ht. exists no_debt. split.
    + destruct Ht; [apply call_Start_pays|apply call_Close_pays|apply call_Run_pays].
    + intros gs s Ha. unfold accounts. rewrite total_app. simpl. rewrite Z.add_0_r.
      eapply accounted_ext; [|exact Ha]. intros k. by rewrite owed_arrive.
Qed.

Lemma fresh_accounts : accounts [] (fresh_sm raw).
Proof.
  split; simpl; try done.
  intros c. split; [set_solver|]. intros [[=]|[k Hk]]. unfold owed in Hk. set_solver.
Qed.

(** A goroutine that has ended, or waits for its ticker or its timer. *)
Definition at_rest (t : SmP (option Loop)) : Prop :=
  match t with
  | Ret _ => True
  | Vis e _ => match e with Tick _ | Timer _ _ => True | _ => False end
  end.

Lemma at_rest_clean t g : at_rest t → pays t g → clean g.
Proof. destruct t as [r|X e k]; [done|]. intros He [Hp _]. by destruct e. Qed.

(** C12: connections and counters are accounted for.  Whatever callers start,
    close and use the manager, and however they interleave with its loops: the
    manager holds a connection exactly when it says it is connected, and that
    connection is open; and whenever every goroutine has ended or waits for a
    ticker or timer, no other connection is open (none has leaked) and the
    gauge of active connections is 1 when connected and 0 otherwise. *)
Theorem connections_accounted ts s :
  treaches sm_resp (sm_spawned raw) (loop raw) (caller raw) ([], fresh_sm raw) (ts, s) →
  (is_Some (conn (mgr s)) ↔ connected (mgr s) = true) ∧
  (∀ c, conn (mgr s) = Some c → c ∈ open s) ∧
  (Forall at_rest ts → open s = conns (conn (mgr s)) ∧
                       active (metrics (mgr s)) = Z.b2z (connected (mgr s))).
Proof.
  intros Hr. eapply reaches_inv in Hr as (gs & Hk & Ha); [|apply debts_paid|].
  2:{ exists []. split; [constructor|apply fresh_accounts]. }
  cbn [fst snd] in *. pose proof Ha as [H1 H2 H3 H4 H5 H6 H7].
  split; [done|]. split; [intros c Hc; apply H4; by left|]. intros Hrest.
  assert (Forall clean gs) as Hcl.
  { apply Forall_lookup. intros k g Hg. destruct (Forall2_lookup_r _ _ _ _ _ Hk Hg) as (t & Ht & Hp).
    rewrite Forall_lookup in Hrest. eapply at_rest_clean; [by eapply Hrest|done]. }
  assert (total gs = 0) as Htot.
  { clear -Hcl. induction Hcl as [|b bs [Hd _] _ IH]; [done|]. simpl. lia. }
  rewrite Htot, Z.add_0_r in H1. split; [|congruence].
  apply set_eq. intros c. rewrite H4. split.
  - intros [->|[k Hc]]; [set_solver|]. unfold owed in Hc. destruct (gs !! k) as [g|] eqn:Hg; [|set_solver].
    rewrite Forall_lookup in Hcl. destruct (Hcl _ _ Hg) as [_ Ho]. rewrite Ho in Hc. set_solver.
  - destruct (conn (mgr s)); set_solver.
Qed.
End accounts.
