(* ===== verification/SshMonitor.v ===== *)
(** * The SSH manager never stops watching its connection

    As long as nobody closes the manager, exactly one goroutine is in charge of
    the connection from the first [Start] on: it starts, keeps alive or
    reconnects, and hands over to its successor.  Closing is different: SshRaces. *)

From Stdlib Require Import SpecFloat.
From S2P Require Import Prelude Effects GoStd Json Http ClaimTypes Env SshManager Threads.
From S2P Require Import SshConcurrency.

Local Open Scope Z_scope.

(** A goroutine's part in the watch: none; watching (with the context it last
    saw in the manager); reconnecting under a base context, with a context it
    still has to cancel; connected again but without a context yet. *)
Inductive Watch :=
| Idle
| Watching (seen : option ctx)
| Reconnecting (p c : option ctx)
| Restored (p : option ctx).

#[export] Instance Watch_eq_dec : EqDecision Watch.
Proof. solve_decision. Defined.

Section monitor.
Context `{L : Lib} (raw : RouterConfig).

Definition watch_pre X (e : SmE X) (g : Watch) : Prop :=
  match e with
  | LStart | WgDone => g = Idle
  | Dial_ | LEstablish _ => (∃ x, g = Watching x) ∨ (∃ p, g = Reconnecting p None)
  | LTransition | ReadCtx | GoLoop KeepAlive => ∃ x, g = Watching x
  | Tick c => g = Watching (Some c)
  | Cancel c => ∃ p, g = Reconnecting p (Some c)
  | GoLoop (Reconnect p _) | IsDone p | Timer _ p => g = Reconnecting p None
  | LReconnected p => g = Restored p
  | LClose | Wait | NilPanic => False
  | _ => True
  end.

(** What a goroutine in charge may rely on. *)
Definition watch_rely X (e : SmE X) (_ : Watch) : X → Prop :=
  match e in SmE X return X → Prop with
  | LTransition => λ x, ∃ was c cn p, x = Some (was, c, Some cn, p)
  | ReadCtx => λ x, is_Some x
  | Tick _ | Timer _ _ => λ x, x = true
  | IsDone _ => λ x, x = false
  | _ => λ _, True
  end.

Definition watch_upd X (e : SmE X) (g : Watch) : X → Watch :=
  match e in SmE X return X → Watch with
  | LStart => λ x, if x then Watching None else g
  | LTransition => λ x, match x with Some (_, _, c, p) => Reconnecting p c | None => g end
  | Cancel _ => λ _, match g with Reconnecting p _ => Reconnecting p None | _ => g end
  | LEstablish _ => λ _, match g with Reconnecting p _ => Restored p | _ => g end
  | LReconnected _ => λ _, Watching None
  | ReadCtx => λ x, Watching x
  | GoLoop _ => λ _, Idle
  | _ => λ _, g
  end.

Definition loop_watch (l : Loop) : Watch :=
  match l with KeepAlive => Watching None | Reconnect p _ => Reconnecting p None end.

Definition watch_birth X (e : SmE X) (_ : Watch) : list Watch :=
  match e with GoLoop l => [loop_watch l] | _ => [] end.

Definition watch_fin (o : option Loop) (g : Watch) : Prop :=
  match o with
  | None => g = Idle
  | Some KeepAlive => ∃ x, g = Watching x
  | Some (Reconnect p _) => g = Reconnecting p None
  end.

Abbreviation watches := (keeps watch_pre watch_rely watch_upd watch_fin).
Abbreviation watch := (protocol watch_pre watch_rely watch_upd).

(** ** The code keeps to the protocol *)

Lemma watch_call {X} (e : SmE X) (Q : X → Watch → Prop) g :
  watch_pre X e g → (∀ x, watch_rely X e g x → Q x (watch_upd X e g x)) → wp watch (trigger e) Q g.
Proof. intros Hp HQ. apply wp_trigger. split; [done|]. intros x g' [Hx ->]. by apply HQ. Qed.

(** Calls without a result. *)
Ltac watch := rewrite ?wp_bind; apply watch_call; [simpl; by eauto|]; intros [] _; cbn [watch_upd].

Lemma close_watch c (Q : unit → Watch → Prop) g : Q tt g → wp watch (close_opt c) Q g.
Proof. intros HQ. destruct c as [c|]; [|exact HQ]. by watch. Qed.

Lemma establish_watch g (Q : result string unit → Watch → Prop) :
  (∃ x, g = Watching x) ∨ (∃ p, g = Reconnecting p None) →
  (∀ e, Q (Err e) g) →
  Q (Ok tt) (match g with Reconnecting p _ => Restored p | _ => g end) →
  wp watch establishConnection Q g.
Proof.
  intros Hg Herr Hok. unfold establishConnection. rewrite wp_bind. apply watch_call; [done|].
  intros [c|e] _; [|apply Herr]. rewrite wp_bind. apply watch_call; [done|].
  intros [old was] _. cbn [watch_upd fst snd]. rewrite wp_bind. apply close_watch.
  rewrite wp_bind. destruct was; [rewrite wp_ret|watch]; do 2 watch; exact Hok.
Qed.

Lemma transition_watch err x (Q : unit → Watch → Prop) :
  Q tt Idle → wp watch (transitionToReconnecting raw err) Q (Watching x).
Proof.
  intros HQ. unfold transitionToReconnecting. rewrite wp_bind. apply watch_call; [by eexists|].
  intros r (was & c & cn & p & ->). cbn [watch_upd cancel_opt]. watch. rewrite wp_bind.
  apply close_watch. rewrite wp_bind. destruct was; [watch|rewrite wp_ret]; do 3 watch; exact HQ.
Qed.

Lemma run_watch command g (Q : result string string → Watch → Prop) :
  (∀ r, Q r g) → wp watch (RunCommand command) Q g.
Proof.
  intros HQ. unfold RunCommand. rewrite wp_bind. apply watch_call; [done|].
  intros [c|] _; [|apply HQ]. by apply watch_call.
Qed.

Lemma check_watch g (Q : result string unit → Watch → Prop) :
  (∀ r, Q r g) → wp watch (checkConnection raw) Q g.
Proof.
  intros HQ. unfold checkConnection. rewrite wp_bind. apply watch_call; [done|].
  intros [c|] _; [|apply HQ]. rewrite wp_bind. apply run_watch. intros [out|e]; [|apply HQ].
  destruct (parseUptime out) as [u|e]; [|apply HQ]. rewrite wp_bind. apply watch_call; [done|].
  intros prev _. rewrite wp_bind. destruct (reboot_detected prev u); [watch|rewrite wp_ret]; apply HQ.
Qed.

Lemma loop_watches l : ∀ g, watch_fin (Some l) g → watches (loop raw l) g.
Proof.
  unfold keeps. destruct l as [|p b]; cbn [loop watch_fin].
  - intros g [x0 ->]. unfold keepAliveLoop. rewrite wp_bind. apply watch_call; [by eexists|].
    intros x [c ->]. cbn [watch_upd]. rewrite wp_bind. apply watch_call; [done|]. intros ? ->.
    rewrite wp_bind. apply check_watch. intros [[]|e]; [rewrite wp_ret; by eexists|].
    rewrite wp_bind. apply transition_watch. by watch.
  - intros g ->. unfold reconnectLoop. rewrite wp_bind. apply watch_call; [done|]. intros ? ->.
    rewrite wp_bind. apply establish_watch; [by eauto| |].
    + intros e. rewrite wp_bind. apply watch_call; [done|]. by intros ? ->.
    + by do 3 watch.
Qed.

Lemma user_watches t : user raw t → watches t Idle.
Proof.
  unfold keeps. intros [|command].
  - unfold call_Start, Start. rewrite !wp_bind. apply watch_call; [done|]. intros [] _; [|done].
    cbn [watch_upd]. rewrite wp_bind. apply establish_watch; [by eauto| |].
    + intros e. rewrite wp_bind. by apply transition_watch.
    + by watch.
  - unfold call_Run. rewrite wp_bind. by apply run_watch.
Qed.

(** ** The invariant *)

(** The contexts the memory knows are older than the next one. *)
Record sane (s : Sm) : Prop := {
  sn_cancelled : ∀ c, c ∈ cancelled_ s → (c < fresh_id s)%nat;
  sn_parent : ∀ c, is_Some (parent_of s !! c) → (c < fresh_id s)%nat;
}.

(** A base context, and a child of it, that are not done. *)
Definition base_ok (b : ctx) (s : Sm) : Prop :=
  b ∉ cancelled_ s ∧ parent_of s !! b = None ∧ (b < fresh_id s)%nat.
Definition child_ok (c b : ctx) (s : Sm) : Prop :=
  c ∉ cancelled_ s ∧ parent_of s !! c = Some b.

(** What the manager's fields are while a goroutine is in charge. *)
Definition fits (g : Watch) (s : Sm) : Prop :=
  match g with
  | Idle => True
  | Watching seen => reconnecting (mgr s) = false ∧
      ∃ b c, baseCtx (mgr s) = Some b ∧ base_ok b s ∧ mctx (mgr s) = Some c ∧
             cancel (mgr s) = Some c ∧ child_ok c b s ∧ ∀ x, seen = Some x → x = c
  | Reconnecting p c => reconnecting (mgr s) = true ∧ mctx (mgr s) = None ∧
      cancel (mgr s) = None ∧ ∃ b, p = Some b ∧ baseCtx (mgr s) = Some b ∧ base_ok b s ∧
      ∀ x, c = Some x → x ≠ b ∧ (x < fresh_id s)%nat
  | Restored p => reconnecting (mgr s) = false ∧ mctx (mgr s) = None ∧
      cancel (mgr s) = None ∧ ∃ b, p = Some b ∧ baseCtx (mgr s) = Some b ∧ base_ok b s
  end.

(** One goroutine is in charge once the manager was started. *)
Record watched (gs : list Watch) (s : Sm) : Prop := {
  wt_sane : sane s;
  wt_fits : ∀ k g, gs !! k = Some g → fits g s;
  wt_one : ∀ k k' g g', gs !! k = Some g → gs !! k' = Some g' → g ≠ Idle → g' ≠ Idle → k = k';
  wt_started : started (mgr s) = true ↔ ∃ k g, gs !! k = Some g ∧ g ≠ Idle;
  wt_rest : started (mgr s) = false → reconnecting (mgr s) = false;
}.

(** The part of the memory the watch is about. *)
Definition wview (s : Sm) :=
  (reconnecting (mgr s), mctx (mgr s), cancel (mgr s), baseCtx (mgr s), started (mgr s),
   cancelled_ s, parent_of s).

Lemma fits_view g s s' :
  fits g s → wview s' = wview s → (fresh_id s ≤ fresh_id s')%nat → fits g s'.
Proof.
  unfold wview. intros Hf [= E1 E2 E3 E4 E5 E6 E7] Hn. unfold fits, base_ok, child_ok in *.
  rewrite ?E1, ?E2, ?E3, ?E4, ?E6, ?E7. destruct g; [done|..].
  - destruct Hf as (H1 & b & c & H2 & (H3 & H4 & H5) & H6). split; [done|]. exists b, c.
    split_and!; try done; [lia|naive_solver..].
  - destruct Hf as (H1 & H2 & H3 & b & H4 & H5 & (H6 & H7 & H8) & H9). split_and!; try done.
    exists b. split_and!; try done; [lia|]. intros x Hx. destruct (H9 x Hx). split; [done|lia].
  - destruct Hf as (H1 & H2 & H3 & b & H4 & H5 & (H6 & H7 & H8)). split_and!; try done.
    exists b. split_and!; try done. lia.
Qed.

Lemma sane_view s s' :
  sane s → cancelled_ s' = cancelled_ s → parent_of s' = parent_of s →
  (fresh_id s ≤ fresh_id s')%nat → sane s'.
Proof.
  intros [H1 H2] E1 E2 Hn. split; rewrite ?E1, ?E2; intros c Hc;
    [specialize (H1 c Hc)|specialize (H2 c Hc)]; lia.
Qed.

Lemma watched_quiet gs s s' :
  watched gs s → wview s' = wview s → (fresh_id s ≤ fresh_id s')%nat → watched gs s'.
Proof.
  intros [H1 H2 H3 H4 H5] Hv Hn. pose proof Hv as Hv'. unfold wview in Hv'.
  injection Hv' as E1 E2 E3 E4 E5 E6 E7.
  split; [by eapply sane_view| |done|by rewrite E5|by rewrite E5, E1].
  intros k g Hk. by eapply fits_view; eauto.
Qed.

(** The goroutine in charge changes the memory and stays in charge. *)
Lemma watched_move gs s s' k g g' :
  watched gs s → gs !! k = Some g → g ≠ Idle → g' ≠ Idle → sane s' → fits g' s' →
  started (mgr s') = started (mgr s) → watched (<[k := g']> gs) s'.
Proof.
  intros [H1 H2 H3 H4 H5] Hk Hg Hg' Hs Hf Hst. pose proof (lookup_lt_Some _ _ _ Hk) as Hlt.
  assert (∀ k0 g0, <[k := g']> gs !! k0 = Some g0 → (k0 = k ∧ g0 = g') ∨ g0 = Idle) as Hc.
  { intros k0 g0. destruct (decide (k0 = k)) as [->|Hne].
    - rewrite list_lookup_insert_eq by done. intros [= <-]. by left.
    - rewrite list_lookup_insert_ne by done. intros Hk0. right.
      destruct (decide (g0 = Idle)) as [->|Hn0]; [done|]. by destruct (H3 k0 k g0 g). }
  assert (started (mgr s) = true) as Hstd by (apply H4; by exists k, g).
  split; [done| | | |congruence].
  - intros k0 g0 Hk0. by destruct (Hc _ _ Hk0) as [[-> ->]| ->].
  - intros k1 k2 g1 g2 Hk1 Hk2. destruct (Hc _ _ Hk1) as [[-> ->]| ->], (Hc _ _ Hk2) as [[-> ->]| ->]; done.
  - rewrite Hst, H4. split; intros _; [|by exists k, g].
    exists k, g'. by rewrite list_lookup_insert_eq.
Qed.

(** The goroutine in charge hands over to a new one. *)
Lemma watched_pass gs s s' k g g' :
  watched gs s → gs !! k = Some g → g ≠ Idle → g' ≠ Idle → sane s' → fits g' s' →
  started (mgr s') = started (mgr s) → watched (<[k := Idle]> gs ++ [g']) s'.
Proof.
  intros [H1 H2 H3 H4 H5] Hk Hg Hg' Hs Hf Hst. pose proof (lookup_lt_Some _ _ _ Hk) as Hlt.
  assert (∀ k0 g0, (<[k := Idle]> gs ++ [g']) !! k0 = Some g0 →
    (k0 = length gs ∧ g0 = g') ∨ g0 = Idle) as Hc.
  { intros k0 g0 [H|[H0 H]]%lookup_app_Some.
    - right. destruct (decide (k0 = k)) as [->|Hne].
      + rewrite list_lookup_insert_eq in H by done. by injection H as <-.
      + rewrite list_lookup_insert_ne in H by done.
        destruct (decide (g0 = Idle)) as [->|Hn0]; [done|]. by destruct (H3 k0 k g0 g).
    - left. rewrite length_insert in *. apply list_lookup_singleton_Some in H as [H <-].
      split; [lia|done]. }
  assert (started (mgr s) = true) as Hstd by (apply H4; by exists k, g).
  split; [done| | | |congruence].
  - intros k0 g0 Hk0. by destruct (Hc _ _ Hk0) as [[-> ->]| ->].
  - intros k1 k2 g1 g2 Hk1 Hk2. destruct (Hc _ _ Hk1) as [[-> ->]| ->], (Hc _ _ Hk2) as [[-> ->]| ->]; done.
  - rewrite Hst, H4. split; intros _; [|by exists k, g].
    exists (length gs), g'. split; [|done]. rewrite lookup_app_r by (rewrite length_insert; lia).
    by rewrite length_insert, Nat.sub_diag.
Qed.

(** ** Calls preserve it *)

Lemma with_cancel_fresh p s c s' :
  sane s → (∀ b, p = Some b → (b < fresh_id s)%nat) → with_cancel p s = (c, s') →
  sane s' ∧ mgr s' = mgr s ∧ c = fresh_id s ∧ fresh_id s' = S (fresh_id s) ∧
  cancelled_ s' = cancelled_ s ∧ c ∉ cancelled_ s' ∧ parent_of s' !! c = p ∧
  ∀ b : ctx, (b < fresh_id s)%nat → parent_of s' !! b = parent_of s !! b.
Proof.
  intros [H1 H2] Hp [= <- <-]. cbn [mgr fresh_id cancelled_ parent_of].
  assert (fresh_id s ∉ cancelled_ s) as Hc by (intros Hc; apply H1 in Hc; lia).
  assert (parent_of s !! fresh_id s = None) as Hn.
  { destruct (parent_of s !! fresh_id s) eqn:E; [|done].
    specialize (H2 (fresh_id s) ltac:(by eauto)). lia. }
  split_and!; try done.
  - split; simpl; [intros c0 Hc0; specialize (H1 c0 Hc0); lia|].
    intros c0. destruct p as [b|]; [|intros Hc0; specialize (H2 c0 Hc0); simpl; lia].
    destruct (decide (c0 = fresh_id s)) as [->|]; [lia|]. rewrite lookup_insert_ne by done.
    intros Hc0. specialize (H2 c0 Hc0). lia.
  - destruct p; [by rewrite lookup_insert_eq|exact Hn].
  - intros b Hb. destruct p; [|done]. rewrite lookup_insert_ne; [done|lia].
Qed.

Lemma start_fits gs s x s' k :
  watched gs s → gs !! k = Some Idle → sm_resp bool LStart s x s' →
  watched (<[k := if x then Watching None else Idle]> gs) s'.
Proof.
  intros Hw Hk Hr. cbn [sm_resp] in Hr. pose proof Hw as [H1 H2 H3 H4 H5].
  destruct (started (mgr s)) eqn:Hst.
  { destruct Hr as [-> ->]. by rewrite list_insert_id. }
  destruct (with_cancel None s) as [b s1] eqn:E1.
  destruct (with_cancel (Some b) s1) as [c s2] eqn:E2. destruct Hr as [-> ->].
  destruct (with_cancel_fresh None s b s1 H1 ltac:(done) E1) as (S1 & M1 & -> & F1 & C1 & N1 & P1 & _).
  destruct (with_cancel_fresh (Some (fresh_id s)) s1 c s2 S1) as (S2 & M2 & -> & F2 & C2 & N2 & P2 & O2);
    [intros ? [= <-]; lia|done|].
  assert (∀ k0 g0, gs !! k0 = Some g0 → g0 = Idle) as Hall.
  { intros k0 g0 Hk0. destruct (decide (g0 = Idle)) as [|Hne]; [done|]. exfalso.
    assert (false = true) by (apply H4; eauto). done. }
  assert (∀ k0 g0, <[k := Watching None]> gs !! k0 = Some g0 →
    (k0 = k ∧ g0 = Watching None) ∨ g0 = Idle) as Hc.
  { intros k0 g0. destruct (decide (k0 = k)) as [->|Hne].
    - rewrite list_lookup_insert_eq by (by eapply lookup_lt_Some). intros [= <-]. by left.
    - rewrite list_lookup_insert_ne by done. eauto. }
  split; [by eapply sane_view| | | |done].
  - intros k0 g0 Hk0. destruct (Hc _ _ Hk0) as [[-> ->]| ->]; [|done]. split.
    { simpl. rewrite M2, M1. by apply H5. }
    exists (fresh_id s), (fresh_id s1). unfold base_ok, child_ok.
    cbn [set_mgr mgr parent_of cancelled_ fresh_id].
    rewrite (O2 (fresh_id s)) by lia. split_and!; try done; [congruence|lia].
  - intros k1 k2 g1 g2 Hk1 Hk2. destruct (Hc _ _ Hk1) as [[-> ->]| ->], (Hc _ _ Hk2) as [[-> ->]| ->]; done.
  - split; [|done]. intros _. exists k, (Watching None).
    by rewrite list_lookup_insert_eq by (by eapply lookup_lt_Some).
Qed.

(** A call keeps the watch: its answer is what its caller relies on, and the
    invariant holds afterwards. *)
Definition keeps_watch X (e : SmE X) : Prop := ∀ gs s k g x s',
  watched gs s → gs !! k = Some g → watch_pre X e g → sm_resp X e s x s' →
  watch_rely X e g x ∧ watched (<[k := watch_upd X e g x]> gs ++ watch_birth X e g) s'.

(** Start a proof of it: the caller fits, and quiet changes are harmless. *)
Ltac open_watch :=
  let Hw := fresh "Hw" in let Hk := fresh "Hk" in let Hpre := fresh "Hpre" in let Hr := fresh "Hr" in
  intros gs s k g x s' Hw Hk Hpre Hr;
  pose proof (wt_fits _ _ Hw _ _ Hk) as Hfit; pose proof (wt_sane _ _ Hw) as Hsane;
  assert (∀ s2, wview s2 = wview s → (fresh_id s ≤ fresh_id s2)%nat →
    watched (<[k := g]> gs ++ []) s2) as Hquiet by
    (intros s2 Hv Hn; rewrite list_insert_id, app_nil_r by done; by eapply watched_quiet);
  cbn [watch_upd watch_pre watch_rely watch_birth sm_resp] in *.

Lemma keeps_establish c : keeps_watch _ (LEstablish c).
Proof.
  open_watch. split; [done|]. destruct Hr as [_ ->]. rewrite app_nil_r.
  destruct Hpre as [[y ->]|[p ->]]; eapply watched_move; try done.
  - eapply sane_view; done.
  - destruct Hfit as (H1 & b & c' & H2 & H3). split; [done|]. by exists b, c'.
  - eapply sane_view; done.
  - destruct Hfit as (H1 & H2 & H3 & b & H4 & H5 & H6 & _). split_and!; try done. by exists b.
Qed.

Lemma keeps_transition : keeps_watch _ LTransition.
Proof.
  open_watch. destruct Hpre as [y ->]. destruct Hfit as (H1 & b & c & H2 & H3 & H4 & H5 & H6 & H7).
  rewrite H1 in Hr. destruct Hr as [-> ->]. rewrite H5, H2. split; [by eauto 6|].
  rewrite app_nil_r. eapply watched_move; try done; [eapply sane_view; done|].
  split_and!; try done. exists b. split_and!; try done. intros ? [= <-].
  destruct H6 as [H6 H6'], H3 as (H3 & H3' & H3''). split; [congruence|].
  simpl. apply (sn_parent _ Hsane). exists b. exact H6'.
Qed.

Lemma keeps_reconnected p : keeps_watch _ (LReconnected p).
Proof.
  open_watch. subst g. split; [done|]. rewrite app_nil_r.
  destruct Hfit as (H1 & H2 & H3 & b & -> & H4 & (B1 & B2 & B3)). rewrite H2 in Hr.
  destruct (with_cancel (Some b) s) as [c s1] eqn:E. subst s'.
  destruct (with_cancel_fresh (Some b) s c s1 Hsane) as (S1 & M1 & -> & F1 & C1 & N1 & P1 & O1);
    [by intros ? [= <-]|done|].
  eapply watched_move; try done; [eapply sane_view; done| |cbn; by rewrite M1].
  split; [done|]. exists b, (fresh_id s). unfold base_ok, child_ok.
  cbn [set_mgr mgr parent_of cancelled_ fresh_id reconnected_locked baseCtx mctx cancel].
  rewrite M1, H2, C1, (O1 b B3). split_and!; try done; [lia|congruence].
Qed.

Lemma keeps_read : keeps_watch _ ReadCtx.
Proof.
  open_watch. destruct Hr as [-> ->], Hpre as [y ->].
  destruct Hfit as (H1 & b & c & H2 & H3 & H4 & H5 & H6 & H7). rewrite H4. split; [by eauto|].
  rewrite app_nil_r. eapply watched_move; try done. split; [done|]. exists b, c.
  split_and!; try done. by intros ? [= <-].
Qed.

Lemma keeps_cancel c : keeps_watch _ (Cancel c).
Proof.
  open_watch. subst s'. split; [done|]. rewrite app_nil_r. destruct Hpre as [p ->].
  destruct Hfit as (H1 & H2 & H3 & b & -> & H4 & (B1 & B2 & B3) & H5).
  destruct (H5 c eq_refl) as [Hne Hlt]. eapply watched_move; try done.
  - destruct Hsane as [S1 S2]. split; [|done]. simpl.
    intros c0 [->%elem_of_singleton|Hc0]%elem_of_union; [done|by apply S1].
  - split_and!; try done. exists b. split_and!; try done. split_and!; try done. simpl. set_solver.
Qed.

Lemma keeps_spawn l : keeps_watch _ (GoLoop l).
Proof.
  open_watch. subst s'. split; [done|]. destruct l as [|p b]; cbn [loop_watch].
  - destruct Hpre as [y ->]. eapply watched_pass; try done; [eapply sane_view; done|].
    destruct Hfit as (H1 & b & c & H2 & H3 & H4 & H5 & H6 & H7). split; [exact H1|]. by exists b, c.
  - subst g. eapply watched_pass; try done; eapply sane_view; done.
Qed.

Lemma keeps_tick c : keeps_watch _ (Tick c).
Proof.
  open_watch. destruct Hr as [Hx ->]. subst g.
  destruct Hfit as (H1 & b & c' & H2 & H3 & H4 & H5 & H6 & H7).
  split; [|by apply Hquiet]. specialize (H7 c eq_refl). subst c'.
  destruct x; [done|]. specialize (Hx eq_refl). unfold is_done in Hx.
  destruct H3 as (B1 & B2 & B3), H6 as [C1 C2]. rewrite C2 in Hx.
  rewrite !bool_decide_eq_false_2 in Hx by done. done.
Qed.

(** The context a reconnection waits on is not done. *)
Lemma reconnecting_not_done p c s : fits (Reconnecting p c) s → done_opt p s = false.
Proof.
  intros (_ & _ & _ & b & -> & _ & (B1 & B2 & _) & _). unfold done_opt, is_done. rewrite B2.
  by rewrite bool_decide_eq_false_2 by done.
Qed.

Lemma watch_call_inv X (e : SmE X) : keeps_watch X e.
Proof.
  destruct e;
    eauto using keeps_establish, keeps_transition, keeps_reconnected, keeps_read, keeps_cancel,
      keeps_spawn, keeps_tick; open_watch;
    try (split; [done|]; first [subst s'|destruct Hr as [_ ->]]; by apply Hquiet); try done.
  - (* LStart *) subst g. split; [done|]. rewrite app_nil_r. by eapply start_fits.
  - (* Dial_ *)
    split; [done|]. destruct x as [c|err]; [destruct Hr as [_ ->]|subst s']; apply Hquiet; [done|simpl; lia|done..].
  - (* IsDone *)
    destruct Hr as [-> ->]. subst g. split; [|by apply Hquiet]. by eapply reconnecting_not_done.
  - (* Timer *)
    destruct Hr as [Hx ->]. subst g. split; [|by apply Hquiet]. destruct x; [done|].
    apply reconnecting_not_done in Hfit. rewrite Hfit in Hx. by specialize (Hx eq_refl).
Qed.

Lemma watch_kept : obligations sm_resp (sm_spawned raw) (loop raw) (user raw) watch_pre
  watch_rely watch_upd watch_birth watch_fin watched.
Proof.
  split.
  - intros gs s k X e g x s'. apply (watch_call_inv X e).
  - intros X e g _. destruct e; try (by constructor). repeat constructor.
    apply loop_watches. destruct l; simpl; eauto.
  - intros r g. apply loop_watches.
  - intros t Ht. exists Idle. split; [by apply user_watches|].
    intros gs s [H1 H2 H3 H4 H5].
    assert (∀ k g, (gs ++ [Idle]) !! k = Some g → gs !! k = Some g ∨ g = Idle) as Hc.
    { intros k g [H|[_ [_ <-]%list_lookup_singleton_Some]]%lookup_app_Some; auto. }
    split; [done| | | |done].
    + intros k g Hk. destruct (Hc _ _ Hk) as [H| ->]; [by apply (H2 k)|done].
    + intros k k' g g' Hk Hk' Hg Hg'. destruct (Hc _ _ Hk), (Hc _ _ Hk'); try done. by apply (H3 k k' g g').
    + rewrite H4. split; intros (k & g & Hk & Hg).
      * exists k, g. split; [|done]. by apply lookup_app_l_Some.
      * destruct (Hc _ _ Hk); [by eauto|done].
Qed.

Lemma fresh_watched : watched [] (fresh_sm raw).
Proof.
  split; try done.
  - split; simpl; [set_solver|]. intros c [? H]. by rewrite lookup_empty in H.
  - split; [done|]. by intros (k & g & H & _).
Qed.

(** ** What it means *)

(** Calls of the goroutine in charge. *)
Definition in_charge X (e : SmE X) : Prop :=
  match e with
  | Dial_ | LEstablish _ | LTransition | LReconnected _ | ReadCtx | Cancel _ | GoLoop _
  | Tick _ | IsDone _ | Timer _ _ => True
  | _ => False
  end.

(** A goroutine that waits for its ticker or its timer. *)
Definition waiting (t : SmP (option Loop)) : Prop :=
  match t with Vis e _ => match e with Tick _ | Timer _ _ => True | _ => False end | Ret _ => False end.

Lemma in_charge_busy X (e : SmE X) g : in_charge X e → watch_pre X e g → g ≠ Idle.
Proof. intros Hc Hp ->. destruct e as [| | | | | | | | | | | |[]| | | | | | | | |]; naive_solver. Qed.

(** C11: the connection is never left unwatched.  As long as nobody closes the
    manager, however many callers start it and run commands on it and whatever
    the router answers: no goroutine panics, at most one goroutine at a time
    watches, dials or reconnects, and once the manager was started there is
    always one: when every goroutine has ended or waits, one of them waits for
    its next keep-alive or its next reconnection attempt. *)
Theorem monitoring_never_lost ts s :
  treaches sm_resp (sm_spawned raw) (loop raw) (user raw) ([], fresh_sm raw) (ts, s) →
  (∀ k cont, ts !! k ≠ Some (Vis NilPanic cont)) ∧
  (∀ k k' X X' (e : SmE X) (e' : SmE X') cont cont',
     ts !! k = Some (Vis e cont) → ts !! k' = Some (Vis e' cont') →
     in_charge X e → in_charge X' e' → k = k') ∧
  (started (mgr s) = true → Forall (λ t, t = Ret None ∨ waiting t) ts →
     ∃ k t, ts !! k = Some t ∧ waiting t).
Proof.
  intros Hr. eapply reaches_inv in Hr as (gs & Hk & Hw); [|apply watch_kept|].
  2:{ exists []. split; [constructor|apply fresh_watched]. }
  cbn [fst snd] in *. split; [|split].
  - intros k cont Ht. by destruct (Forall2_lookup_l _ _ _ _ _ Hk Ht) as (g & Hg & Hp & _).
  - intros k k' X X' e e' cont cont' Ht Ht' Hc Hc'.
    destruct (Forall2_lookup_l _ _ _ _ _ Hk Ht) as (g & Hg & Hp & _).
    destruct (Forall2_lookup_l _ _ _ _ _ Hk Ht') as (g' & Hg' & Hp' & _).
    eapply (wt_one _ _ Hw); [exact Hg|exact Hg'|exact (in_charge_busy _ _ _ Hc Hp)|exact (in_charge_busy _ _ _ Hc' Hp')].
  - intros Hst Hrest. apply (wt_started _ _ Hw) in Hst as (k & g & Hg & Hne).
    destruct (Forall2_lookup_r _ _ _ _ _ Hk Hg) as (t & Ht & Hp). exists k, t. split; [done|].
    rewrite Forall_lookup in Hrest. by destruct (Hrest _ _ Ht) as [->|].
Qed.
End monitor.
