(* ===== verification/SshRaces.v ===== *)
(** * Closing an SSH manager while its loop runs

    [Close] and [keepAliveLoop] race.  A scheduler replays interleavings of the
    model; the executions below need no answer of the router but a successful
    dial. *)

From Stdlib Require Import SpecFloat.
From S2P Require Import Prelude Effects GoStd Json Http ClaimTypes Env SshManager Threads.
From S2P Require Import SshConcurrency SshAccounts SshMonitor SimTime Sim.

Local Open Scope Z_scope.

(** ** A scheduler *)

(** One possible answer to each call: dialling succeeds, commands fail, and a
    timer fires unless its context is done. *)
Definition sm_exec X (e : SmE X) (s : Sm) : option (X * Sm) :=
  match e in SmE X return option (X * Sm) with
  | LStart =>
      if started (mgr s) then Some (false, s)
      else let '(base, s1) := with_cancel None s in
           let '(c, s2) := with_cancel (Some base) s1 in
           Some (true, set_mgr (start_locked base c) s2)
  | LEstablish c => Some ((conn (mgr s), connected (mgr s)), set_mgr (establish_locked c) s)
  | LTransition =>
      if reconnecting (mgr s) then Some (None, s)
      else Some (Some (connected (mgr s), conn (mgr s), cancel (mgr s), baseCtx (mgr s)),
                 set_mgr transition_locked s)
  | LReconnected p =>
      match mctx (mgr s), cancel (mgr s) with
      | Some c, Some _ => Some (tt, set_mgr (reconnected_locked c) s)
      | _, _ => let '(c, s1) := with_cancel p s in Some (tt, set_mgr (reconnected_locked c) s1)
      end
  | LClose =>
      if started (mgr s)
      then Some (Some (cancel (mgr s), baseCancel (mgr s), conn (mgr s), connected (mgr s)),
                 set_mgr close_locked s)
      else Some (None, s)
  | LContext => Some (mctx (mgr s), s)
  | LConn => Some (conn (mgr s), s)
  | LUptime u => Some (lastUptime (mgr s), set_mgr (check_locked u) s)
  | ReadCtx => Some (mctx (mgr s), s)
  | Count c => Some (tt, set_mgr (set_metrics (count c)) s)
  | Cancel c => Some (tt, cancel_id c s)
  | Notify _ => Some (tt, s)
  | GoLoop _ => Some (tt, add_wg 1 s)
  | WgDone => Some (tt, add_wg (-1) s)
  | Wait => if wg s =? 0 then Some (tt, s) else None
  | Dial_ => Some (Ok (fresh_id s), set_open ({[fresh_id s]} ∪ open s) (S (fresh_id s)) s)
  | CloseConn c => Some (tt, set_open (open s ∖ {[c]}) (fresh_id s) s)
  | Run _ _ => Some (Err "exit status 1", s)
  | Tick c => Some (negb (is_done c s), s)
  | IsDone p => Some (done_opt p s, s)
  | Timer _ p => Some (negb (done_opt p s), s)
  | NilPanic => None
  end.

Lemma sm_exec_resp X (e : SmE X) s x s' : sm_exec X e s = Some (x, s') → sm_resp X e s x s'.
Proof.
  destruct e; simpl; intros H; repeat case_match; simplify_eq; try done.
  - split; [by apply Z.eqb_eq|done].
  - split; [|done]. by intros H%negb_false_iff.
  - split; [|done]. by intros H%negb_false_iff.
Qed.

(** A goroutine's next step, or the arrival of a caller. *)
Inductive move := Step (k : nat) | ByStart | ByClose.

Section races.
Context `{L : Lib} (raw : RouterConfig).

Definition do_move (m : move) (c : list (SmP (option Loop)) * Sm)
    : option (list (SmP (option Loop)) * Sm) :=
  let '(ts, s) := c in
  match m with
  | ByStart => Some (ts ++ [call_Start raw], s)
  | ByClose => Some (ts ++ [call_Close], s)
  | Step k =>
    match ts !! k with
    | None | Some (Ret None) => None
    | Some (Ret (Some r)) => Some (<[k := loop raw r]> ts, s)
    | Some (Vis e cont) =>
      '(x, s') ← sm_exec _ e s; Some (<[k := cont x]> ts ++ sm_spawned raw _ e, s')
    end
  end.

Definition is_close (m : move) : bool := match m with ByClose => true | _ => false end.

(** The moves are steps among callers that include those that arrive. *)
Section arrivals.
Context (arrival : SmP (option Loop) → Prop) (Hstart : arrival (call_Start raw)).

Lemma do_move_step m c c' :
  (is_close m = true → arrival call_Close) → do_move m c = Some c' →
  tstep sm_resp (sm_spawned raw) (loop raw) arrival c c'.
Proof using Hstart.
  intros Hclose. destruct c as [ts s].
  destruct m as [k| |]; simpl; intros H; [|simplify_eq; constructor; auto..].
  destruct (ts !! k) as [[[r|]|X e cont]|] eqn:Hk; simplify_eq; [by constructor|].
  destruct (sm_exec X e s) as [[x s']|] eqn:He; simplify_eq/=.
  econstructor; [done|by apply sm_exec_resp].
Qed.

Fixpoint moves (l : list move) (c : list (SmP (option Loop)) * Sm)
    : option (list (SmP (option Loop)) * Sm) :=
  match l with
  | [] => Some c
  | m :: l' => c' ← do_move m c; moves l' c'
  end.

Lemma moves_reach_in l c c' :
  (existsb is_close l = true → arrival call_Close) → moves l c = Some c' →
  treaches sm_resp (sm_spawned raw) (loop raw) arrival c c'.
Proof using Hstart.
  revert c. induction l as [|m l IH]; intros c Hclose H; simplify_eq/=; [done|].
  destruct (do_move m c) as [c1|] eqn:E; simplify_eq/=. rewrite orb_true_iff in Hclose.
  eapply rtc_l; [eapply do_move_step; [|exact E]; auto|]. apply IH; [auto|done].
Qed.
End arrivals.

Abbreviation reachable := (treaches sm_resp (sm_spawned raw) (loop raw) (caller raw)).

Lemma moves_reach l c c' : moves l c = Some c' → reachable c c'.
Proof. apply moves_reach_in; [constructor|]. intros _. constructor. Qed.

(** ** A nil context *)

Definition steps_of (k n : nat) : list move := replicate n (Step k).

(** [Start] (goroutine 0) connects and starts the loop (goroutine 1); [Close]
    (goroutine 2) runs its section before the loop looks at [m.ctx]. *)
Definition crash : list move := ByStart :: steps_of 0 7 ++ ByClose :: Step 2 :: [Step 1].

(** C38: closing a manager can crash the operator.  There is an execution in which
    [Close] sets the manager's context to nil and the keep-alive loop, which
    reads that field on every iteration, dereferences it. *)
Theorem close_can_crash_loop :
  ∃ ts s cont, reachable ([], fresh_sm raw) (ts, s) ∧ ts !! 1%nat = Some (Vis NilPanic cont).
Proof.
  destruct (moves crash ([], fresh_sm raw)) as [[ts s]|] eqn:E; [|vm_compute in E; discriminate].
  pose proof (moves_reach _ _ _ E) as Hr. vm_compute in E. injection E as <- <-.
  eexists _, _, _. split; [exact Hr|]. reflexivity.
Qed.

(** ** A closed manager that connects again *)

(** The loop's ticker fires; [Close] (goroutine 2) cancels the contexts and
    waits for the loop; the loop finds no context, takes it for a dropped
    connection and starts a reconnection (goroutine 3) on the background
    context, which connects and starts a new loop (goroutine 4). *)
Definition revival : list move :=
  ByStart :: steps_of 0 7 ++ steps_of 1 2 ++ ByClose :: steps_of 2 3 ++ steps_of 1 6
  ++ steps_of 3 9 ++ steps_of 4 1.

(** The keep-alive loop at its select. *)
Definition ticking (c : ctx) : SmP (option Loop) :=
  fired ← trigger (Tick c);
  if (fired : bool) then
    r ← checkConnection raw;
    match r with
    | Ok _ => mret (Some KeepAlive)
    | Err e => _ ← handleConnectionDrop raw e; _ ← trigger WgDone; mret None
    end
  else _ ← trigger WgDone; mret None.

(** [Close] is goroutine 2 and waits for the manager's goroutines. *)
Definition waits_for_all (t : SmP (option Loop)) : bool :=
  match t with Vis e _ => match e with Wait => true | _ => false end | Ret _ => false end.

(** The manager is closed and connected, Close waits for one goroutine, and that
    is goroutine 4, a loop that watches the connection under a context that is
    not done; all others have returned. *)
Definition revived (c : list (SmP (option Loop)) * Sm) : Prop :=
  (∃ t, c.1 !! 2%nat = Some t ∧ waits_for_all t = true) ∧ wg c.2 = 1 ∧
  started (mgr c.2) = false ∧ connected (mgr c.2) = true ∧
  (∃ x d, c.1 !! 4%nat = Some (ticking x) ∧ mctx (mgr c.2) = Some x ∧ is_done x c.2 = false ∧
          conn (mgr c.2) = Some d) ∧
  ∀ k, k ≠ 2%nat → k ≠ 4%nat → ∀ t, c.1 !! k = Some t → t = Ret None.

Definition over (t : SmP (option Loop)) : bool := match t with Ret None => true | _ => false end.

Definition outcome (c : list (SmP (option Loop)) * Sm) :=
  (over <$> c.1, waits_for_all <$> c.1 !! 2%nat,
   (wg c.2, started (mgr c.2), connected (mgr c.2)), (mctx (mgr c.2), is_done 4%nat c.2, conn (mgr c.2))).

Lemma revival_outcome :
  outcome <$> moves revival ([], fresh_sm raw)
  = Some ([true; true; false; true; false], Some true, (1, false, true), (Some 4%nat, false, Some 3%nat)).
Proof. vm_compute. reflexivity. Qed.

Lemma revival_ticks :
  (λ c : list (SmP (option Loop)) * Sm, c.1 !! 4%nat) <$> moves revival ([], fresh_sm raw)
  = Some (Some (ticking 4%nat)).
Proof. reflexivity. Qed.

Lemma revival_revives : ∃ c, moves revival ([], fresh_sm raw) = Some c ∧ revived c.
Proof.
  pose proof revival_outcome as H. pose proof revival_ticks as Ht.
  destruct (moves revival _) as [c|]; [|done]. exists c. split; [done|].
  cbn [fmap option_fmap option_map] in H, Ht. injection Ht as Ht. injection H as Ho Hw H1 H2 H3 H4 H5 H6.
  split_and!; try done.
  - destruct (c.1 !! 2%nat) as [t|]; [|done]. injection Hw as Hw. by exists t.
  - by exists 4%nat, 3%nat.
  - intros k Hk2 Hk4 t Hk. assert (over <$> c.1 !! k = Some (over t)) as Hov by (by rewrite Hk).
    rewrite <-list_lookup_fmap, Ho in Hov.
    assert (over t = true) as Hot by (destruct k as [|[|[|[|[|k]]]]]; simplify_eq/=; done).
    by destruct t as [[r|]|].
Qed.

Abbreviation one_step := (tstep sm_resp (sm_spawned raw) (loop raw) (caller raw)).

(** Goroutine [k] makes a call that starts no goroutine. *)
Lemma go_on ts s k X (e : SmE X) cont x s' n c' :
  ts !! k = Some (Vis e cont) → sm_resp X e s x s' → sm_spawned raw X e = [] →
  nsteps one_step n (<[k := cont x]> ts, s') c' → nsteps one_step (S n) (ts, s) c'.
Proof.
  intros Hk Hr Hs Hn. eapply nsteps_l; [by eapply tstep_call|]. by rewrite Hs, app_nil_r.
Qed.

(** A round of the loop in which the router answers changes nothing but the
    uptime that is remembered. *)
Lemma healthy_round ts s k x d out u :
  parseUptime out = Ok u → ts !! k = Some (ticking x) → mctx (mgr s) = Some x → conn (mgr s) = Some d →
  ∃ m, nsteps one_step (S m) (ts, s) (ts, set_mgr (check_locked u) s).
Proof.
  intros Hu Hk Hx Hd. assert (k < length ts)%nat as Hlt by (by eapply lookup_lt_Some).
  assert (∀ t, <[k := t]> ts !! k = Some t) as Hset by (intros; by apply list_lookup_insert_eq).
  set (s' := set_mgr (check_locked u) s).
  assert (nsteps one_step 2 (<[k := Ret (Some KeepAlive)]> ts, s') (ts, s')) as Hback.
  { eapply nsteps_l; [eapply tstep_again, Hset|]. rewrite list_insert_insert_eq.
    eapply (go_on _ _ _ _ _ _ (Some x)); [apply Hset|by split; [rewrite <-Hx|]|done|].
    rewrite list_insert_insert_eq. change (nsteps one_step 0 (<[k := ticking x]> ts, s') (ts, s')).
    rewrite (list_insert_id ts k (ticking x) Hk). constructor. }
  assert (∃ n, nsteps one_step n (<[k := (r ← (_ ← (if reboot_detected (lastUptime (mgr s)) u
      then trigger (Notify {| Reason := ReasonReboot; Ev_Err := None |}) else mret tt); mret (Ok tt));
      match r with
      | Ok _ => mret (Some KeepAlive)
      | Err e => _ ← handleConnectionDrop raw e; _ ← trigger WgDone; mret None
      end)]> ts, s') (ts, s')) as [n Hn].
  { destruct (reboot_detected (lastUptime (mgr s)) u); [|by exists 2%nat].
    exists 3%nat. eapply (go_on _ _ _ _ _ _ tt); [apply Hset|done|done|]. by rewrite list_insert_insert_eq. }
  exists (4 + n)%nat. eapply (go_on _ _ _ _ _ _ true); [exact Hk|by split|done|].
  eapply (go_on _ _ _ _ _ _ (Some x)); [apply Hset|by split|done|]. rewrite list_insert_insert_eq.
  eapply (go_on _ _ _ _ _ _ (Some d)); [apply Hset|by split|done|]. rewrite list_insert_insert_eq.
  eapply (go_on _ _ _ _ _ _ (Ok out)); [apply Hset|reflexivity|done|]. rewrite list_insert_insert_eq.
  eapply (go_on _ _ _ _ (LUptime u) _ (lastUptime (mgr s)) s'); [|by split|done|].
  - rewrite Hset. cbv beta iota. rewrite Hu. reflexivity.
  - rewrite list_insert_insert_eq. exact Hn.
Qed.

Lemma healthy_rounds out u n c :
  parseUptime out = Ok u → revived c →
  ∃ m c', (n ≤ m)%nat ∧ nsteps one_step m c c' ∧ revived c'.
Proof.
  intros Hu. revert c. induction n as [|n IH]; intros [ts s] Hc.
  { exists 0%nat, (ts, s). split; [lia|]. split; [constructor|done]. }
  destruct Hc as (H2 & Hw & Hs & Hcn & (x & d & H4 & Hx & Hd & Hconn) & Ho). simpl in *.
  destruct (healthy_round ts s 4 x d out u Hu H4 Hx Hconn) as [m0 Hround].
  destruct (IH (ts, set_mgr (check_locked u) s)) as (m & c' & Hm & Hn & Hc').
  { split_and!; try done. by exists x, d. }
  exists (S m0 + m)%nat, c'. split; [lia|]. split; [|done]. by eapply nsteps_trans.
Qed.

(** C39: Close need not return, and a closed manager can stay connected.  If the
    router answers the keep-alive command with an uptime, there is an execution
    in which [Close] has cancelled the contexts and waits for the manager's
    goroutines, while the manager, no longer started, has been connected again
    and is watched by a new loop whose context is not done; and from there, for
    every [n], an execution of at least [n] more steps after which all this is
    still so.  [Close] cannot go on in any of these states, and every other
    goroutine has returned. *)
Theorem closed_manager_reconnects out u :
  parseUptime out = Ok u →
  ∃ c, reachable ([], fresh_sm raw) c ∧ revived c ∧
    ∀ n, ∃ m c', (n ≤ m)%nat ∧ nsteps one_step m c c' ∧ revived c'.
Proof.
  intros Hu. destruct revival_revives as (c & Hc & Hr). exists c. split; [by eapply moves_reach|].
  split; [done|]. intros n. by eapply healthy_rounds.
Qed.
End races.

(** ** The theorems about every interleaving, at replayed ones *)

Definition demo_raw : RouterConfig :=
  {| Address := "192.168.1.1:22"; Username := "root"; AuthMethod := None; HostKeyCallback := None;
     Timeout := 0; KeepAliveInterval := 0; KeepAliveCommand := ""; Dial := None; Runner := None;
     MaxBackoff := 0; InitialBackoff := 0 |}.

(** The sample environment reads an uptime. *)
Lemma closed_manager_reconnects_witness :
  ∃ out u c, parseUptime out = Ok u ∧ revived demo_raw c ∧
    ∃ m c', (1000 ≤ m)%nat ∧
      nsteps (tstep sm_resp (sm_spawned demo_raw) (loop demo_raw) (caller demo_raw)) m c c' ∧
      revived demo_raw c'.
Proof.
  assert (∃ u, parseUptime "100.00 99.00" = Ok u) as [u Hu] by (vm_compute; by eexists).
  destruct (closed_manager_reconnects demo_raw "100.00 99.00" u Hu) as (c & _ & Hr & Hn).
  exists "100.00 99.00", u, c. split; [exact Hu|]. split; [exact Hr|]. exact (Hn 1000%nat).
Defined.

(** Where the moves lead. *)
Definition moved (l : list move) : list (SmP (option Loop)) * Sm :=
  default ([], fresh_sm demo_raw) (moves demo_raw l ([], fresh_sm demo_raw)).

Lemma moved_reach arrival l :
  arrival (call_Start demo_raw) → (existsb is_close l = true → arrival call_Close) →
  treaches sm_resp (sm_spawned demo_raw) (loop demo_raw) arrival ([], fresh_sm demo_raw) (moved l).
Proof.
  intros Hs Hc. unfold moved. destruct (moves demo_raw l _) as [c|] eqn:E; [|apply rtc_refl].
  by eapply moves_reach_in.
Qed.

Lemma connections_accounted_witness :
  let s := (moved revival).2 in
  connected (mgr s) = true ∧ (is_Some (conn (mgr s)) ↔ connected (mgr s) = true) ∧
  (∀ c, conn (mgr s) = Some c → c ∈ open s).
Proof.
  split; [vm_compute; reflexivity|].
  destruct (connections_accounted demo_raw (moved revival).1 (moved revival).2) as (H1 & H2 & _).
  { rewrite <-surjective_pairing. apply moved_reach; repeat constructor. }
  split; [exact H1|exact H2].
Defined.

(** A manager that was started twice and watches its connection. *)
Definition watching_moves : list move :=
  ByStart :: steps_of 0 7 ++ ByStart :: steps_of 2 1 ++ steps_of 1 1.

Definition restingb (t : SmP (option Loop)) : bool :=
  match t with
  | Ret None => true
  | Ret (Some _) => false
  | Vis e _ => match e with Tick _ | Timer _ _ => true | _ => false end
  end.

Lemma restingb_ok ts : forallb restingb ts = true → Forall (λ t, t = Ret None ∨ waiting t) ts.
Proof.
  intros H%Is_true_true%forallb_True. eapply Forall_impl; [exact H|]. intros [[r|]|X e k]; [done|by left|].
  simpl. intros He. right. by destruct e.
Qed.

Lemma monitoring_never_lost_witness :
  let '(ts, s) := moved watching_moves in
  started (mgr s) = true ∧ (∀ k cont, ts !! k ≠ Some (Vis NilPanic cont)) ∧
  ∃ k t, ts !! k = Some t ∧ waiting t.
Proof.
  pose proof (monitoring_never_lost demo_raw (moved watching_moves).1 (moved watching_moves).2) as H.
  rewrite <-surjective_pairing in H.
  specialize (H (moved_reach (user demo_raw) watching_moves ltac:(constructor)
                   ltac:(vm_compute; discriminate))).
  assert (started (mgr (moved watching_moves).2) = true) as Hs by (vm_compute; reflexivity).
  assert (Forall (λ t, t = Ret None ∨ waiting t) (moved watching_moves).1) as Hw.
  { apply restingb_ok. vm_compute. reflexivity. }
  destruct H as (H1 & _ & H3). specialize (H3 Hs Hw).
  destruct (moved watching_moves) as [ts s]. split; [exact Hs|]. split; [exact H1|exact H3].
Defined.
