(* ===== verification/SshRunner.v ===== *)
(** * Running one command in an SSH session (internal/ssh/manager.go)

    sshCommandRunner.Run opens a session on the client, starts the command, and
    waits for it in a goroutine that reports over a channel of capacity one,
    while it watches the context itself.  The code and the memory it shares with
    that goroutine; the router may write output, end the command or drop the
    session, and the context may be cancelled, at any time. *)

From S2P Require Import Prelude Effects Threads Schedules.

(** ** Shared memory *)

(** What [session.Wait] reports: [None] for success. *)
Abbreviation exit_status := (option string).

Record Sess := {
  ctx_done : bool;
  session_open : bool;
  killed : bool;
  running : bool;
  exit : option exit_status;
  stdout : string;
  stderr : string;
  done_chan : option exit_status;
  returned : option (result string string);
}.

Definition fresh_sess : Sess :=
  {| ctx_done := false; session_open := false; killed := false; running := false; exit := None;
     stdout := ""; stderr := ""; done_chan := None; returned := None |}.

Definition set_session (o k r : bool) (s : Sess) : Sess :=
  {| ctx_done := ctx_done s; session_open := o; killed := k; running := r; exit := exit s;
     stdout := stdout s; stderr := stderr s; done_chan := done_chan s; returned := returned s |}.
Definition set_chan (d : option exit_status) (s : Sess) : Sess :=
  {| ctx_done := ctx_done s; session_open := session_open s; killed := killed s; running := running s;
     exit := exit s; stdout := stdout s; stderr := stderr s; done_chan := d;
     returned := returned s |}.
Definition set_env (c : bool) (e : option exit_status) (out err : string) (s : Sess) : Sess :=
  {| ctx_done := c; session_open := session_open s; killed := killed s; running := running s;
     exit := e; stdout := out; stderr := err; done_chan := done_chan s;
     returned := returned s |}.
Definition set_returned (r : result string string) (s : Sess) : Sess :=
  {| ctx_done := ctx_done s; session_open := session_open s; killed := killed s; running := running s;
     exit := exit s; stdout := stdout s; stderr := stderr s; done_chan := done_chan s;
     returned := Some r |}.

(** ** Calls *)

Inductive selected := FromDone (e : exit_status) | FromCtx.

Inductive RunE : Type → Type :=
| NewSession : RunE (result string unit)
| StartCommand (command : string) : RunE (result string unit)
| GoWait : RunE unit
| Select : RunE selected
| Signal (name : string) : RunE unit
| CloseSession : RunE unit
| RecvDone : RunE exit_status
| CtxErr : RunE string
| ReadStdout : RunE string
| ReadStderr : RunE string
| SessionWait : RunE exit_status
| SendDone (e : exit_status) : RunE unit
| Report (r : result string string) : RunE unit
| EnvOutput (out err : string) : RunE unit
| EnvExit (e : exit_status) : RunE unit
| EnvCancel : RunE unit.

(** The command was started and has not ended. *)
Definition still_running (s : Sess) : bool := running s && negb (bool_decide (is_Some (exit s))).

(** [NewSession], [Start] and [Wait] wait for the router.  [Wait] returns what
    the router, or the end of the connection, has made of the command
    ([EnvExit]), and not because this side has closed the session.  A channel of
    capacity one takes one value. *)
Definition run_resp X (e : RunE X) (s : Sess) : X → Sess → Prop :=
  match e in RunE X return X → Sess → Prop with
  | NewSession => λ r s', match r with
      | Ok _ => s' = set_session true (killed s) (running s) s | Err _ => s' = s end
  | StartCommand _ => λ r s', match r with
      | Ok _ => s' = set_session (session_open s) (killed s) true s | Err _ => s' = s end
  | GoWait => λ _ s', s' = s
  | Select => λ x s', match x with
      | FromDone e => done_chan s = Some e ∧ s' = set_chan None s
      | FromCtx => ctx_done s = true ∧ s' = s end
  | Signal _ => λ _ s', s' = set_session (session_open s) true (running s) s
  | CloseSession => λ _ s', s' = set_session false (killed s) (running s) s
  | RecvDone => λ e s', done_chan s = Some e ∧ s' = set_chan None s
  | CtxErr => λ _ s', s' = s
  | ReadStdout => λ x s', x = stdout s ∧ s' = s
  | ReadStderr => λ x s', x = stderr s ∧ s' = s
  | SessionWait => λ e s', s' = s ∧ exit s = Some e
  | SendDone e => λ _ s', done_chan s = None ∧ s' = set_chan (Some e) s
  | Report r => λ _ s', s' = set_returned r s
  | EnvOutput out err => λ _ s', s' = if still_running s
      then set_env (ctx_done s) (exit s) (stdout s +:+ out) (stderr s +:+ err) s else s
  | EnvExit e => λ _ s', s' = if still_running s
      then set_env (ctx_done s) (Some e) (stdout s) (stderr s) s else s
  | EnvCancel => λ _ s', s' = set_env true (exit s) (stdout s) (stderr s) s
  end.

(** ** The code *)

Abbreviation RunP := (proc RunE).

(** The deferred close runs on every return after the session was opened.
    [nil_client]: the client argument is nil. *)
Definition Run (nil_client : bool) (command : string) : RunP (result string string) :=
  if nil_client then mret (Err "ssh client is nil")
  else
    r ← trigger NewSession;
    match r with
    | Err e => mret (Err e)
    | Ok _ =>
      res ← (r' ← trigger (StartCommand command);
             match r' with
             | Err e => mret (Err e)
             | Ok _ =>
               _ ← trigger GoWait;
               x ← trigger Select;
               match x with
               | FromDone (Some e) =>
                 msg ← trigger ReadStderr;
                 mret (Err (if decide (msg ≠ "") then e +:+ ": " +:+ msg else e))
               | FromDone None => out ← trigger ReadStdout; mret (Ok out)
               | FromCtx =>
                 _ ← trigger (Signal "KILL");
                 _ ← trigger CloseSession;
                 _ ← trigger RecvDone;
                 e ← trigger CtxErr;
                 mret (Err e)
               end
             end);
      _ ← trigger CloseSession;
      mret res
    end.

(** The goroutine that waits. *)
Definition waiter : RunP (option Empty_set) :=
  e ← trigger SessionWait; _ ← trigger (SendDone e); mret None.

(** A call of Run, whose result is put on record. *)
Definition run_call (nil_client : bool) (command : string) : RunP (option Empty_set) :=
  r ← Run nil_client command; _ ← trigger (Report r); mret None.

Definition run_spawned X (e : RunE X) : list (RunP (option Empty_set)) :=
  match e with GoWait => [waiter] | _ => [] end.

Definition no_loop (r : Empty_set) : RunP (option Empty_set) := match r with end.

(** What the router and the caller's context do. *)
Inductive run_env : RunP (option Empty_set) → Prop :=
| env_output out err : run_env (_ ← trigger (EnvOutput out err); mret None)
| env_exit e : run_env (_ ← trigger (EnvExit e); mret None)
| env_cancel : run_env (_ ← trigger EnvCancel; mret None).
