(* ===== verification/SshRunnerProps.v ===== *)
(** * Properties of sshCommandRunner.Run

    In every interleaving of a call of Run with its waiting goroutine, the
    router and the context: the session is closed and the goroutine gone when
    Run returns, the result is the command's, and once the context is done Run
    waits for nothing but the router. *)

From stdpp Require Import list_numbers.
From S2P Require Import Prelude Effects Threads Schedules SshRunner.

(** ** Roles *)

Inductive run_phase :=
| PStart
| POpened
| PStarted
| PSelect
| PKill
| PKilled
| PDrain
| PDrained
| PStderr (e : string)
| PStdout
| PClose (r : result string string)
| PReport (r : result string string)
| PDone.

Inductive run_role :=
| Caller (p : run_phase)
| Waiting
| Sending (e : exit_status)
| Quiet.

(** The error of a command that failed with [e]. *)
Definition failure_text (e err : string) : string :=
  if decide (err ≠ "") then e +:+ ": " +:+ err else e.

(** Results that the session justifies: the whole output of a command that
    succeeded; the error of one that failed, with what it wrote to stderr; any
    error after the context was done and the command killed; any error if no
    command was started. *)
Definition result_ok (s : Sess) (r : result string string) : Prop :=
  match r with
  | Ok out => exit s = Some None ∧ out = stdout s
  | Err m => (∃ e, exit s = Some (Some e) ∧ m = failure_text e (stderr s)) ∨
             (ctx_done s = true ∧ killed s = true) ∨ running s = false
  end.

(** A status that [Wait] may have reported. *)
Definition status_ok (s : Sess) (e : exit_status) : Prop := exit s = Some e.

Definition phase_ok (p : run_phase) (s : Sess) : Prop :=
  match p with
  | PStart => session_open s = false ∧ running s = false
  | POpened => running s = false ∧ session_open s = true
  | PStarted | PSelect => session_open s = true
  | PKill => ctx_done s = true
  | PKilled => ctx_done s = true ∧ killed s = true
  | PDrain | PDrained => ctx_done s = true ∧ killed s = true ∧ session_open s = false
  | PStderr e => exit s = Some (Some e)
  | PStdout => exit s = Some None
  | PClose r => result_ok s r
  | PReport r => result_ok s r ∧ session_open s = false
  | PDone => session_open s = false ∧ ∃ r, returned s = Some r ∧ result_ok s r
  end ∧ (p ≠ PDone → returned s = None).

(** Statuses on their way to the caller: one, from the start of the waiting
    goroutine to the receive. *)
Definition expected (p : run_phase) : nat :=
  match p with PSelect | PKill | PKilled | PDrain => 1 | _ => 0 end.
Definition live (g : run_role) : nat := match g with Waiting | Sending _ => 1 | _ => 0 end.
Definition in_chan (s : Sess) : nat := match done_chan s with Some _ => 1 | None => 0 end.

Record run_inv (gs : list run_role) (s : Sess) : Prop := {
  ri_caller : ∃ p, gs !! 0 = Some (Caller p) ∧ phase_ok p s ∧
                   sum_list_with live gs + in_chan s = expected p;
  ri_one : ∀ k p, gs !! k = Some (Caller p) → k = 0;
  ri_sent : ∀ k e, gs !! k = Some (Sending e) → status_ok s e;
  ri_chan : ∀ e, done_chan s = Some e → status_ok s e;
}.

(** ** The protocol *)

Definition run_pre X (e : RunE X) (g : run_role) : Prop :=
  match e with
  | NewSession => g = Caller PStart
  | StartCommand _ => g = Caller POpened
  | GoWait => g = Caller PStarted
  | Select => g = Caller PSelect
  | Signal name => g = Caller PKill ∧ name = "KILL"
  | CloseSession => g = Caller PKilled ∨ ∃ r, g = Caller (PClose r)
  | RecvDone => g = Caller PDrain
  | CtxErr => g = Caller PDrained
  | ReadStdout => g = Caller PStdout
  | ReadStderr => ∃ e, g = Caller (PStderr e)
  | Report r => g = Caller (PReport r)
  | SessionWait => g = Waiting
  | SendDone e => g = Sending e
  | EnvOutput _ _ | EnvExit _ | EnvCancel => g = Quiet
  end.

Definition run_rely X (e : RunE X) (g : run_role) (_ : X) : Prop := True.

Definition run_upd X (e : RunE X) (g : run_role) : X → run_role :=
  match e in RunE X return X → run_role with
  | NewSession => λ r, match r with Ok _ => Caller POpened | Err m => Caller (PReport (Err m)) end
  | StartCommand _ => λ r, match r with Ok _ => Caller PStarted | Err m => Caller (PClose (Err m)) end
  | GoWait => λ _, Caller PSelect
  | Select => λ x, match x with
      | FromDone (Some m) => Caller (PStderr m)
      | FromDone None => Caller PStdout
      | FromCtx => Caller PKill end
  | Signal _ => λ _, Caller PKilled
  | CloseSession => λ _, match g with Caller (PClose r) => Caller (PReport r) | _ => Caller PDrain end
  | RecvDone => λ _, Caller PDrained
  | CtxErr => λ m, Caller (PClose (Err m))
  | ReadStdout => λ out, Caller (PClose (Ok out))
  | ReadStderr => λ err, match g with
      | Caller (PStderr m) => Caller (PClose (Err (failure_text m err))) | _ => g end
  | Report _ => λ _, Caller PDone
  | SessionWait => λ st, Sending st
  | SendDone _ => λ _, Quiet
  | _ => λ _, g
  end.

Definition run_birth X (e : RunE X) (_ : run_role) : list run_role :=
  match e with GoWait => [Waiting] | _ => [] end.

Definition run_fin (_ : option Empty_set) (g : run_role) : Prop := g = Caller PDone ∨ g = Quiet.

(** ** Every call keeps the invariant *)

(** What the router and the context do to what was established. *)
Definition run_le (s s' : Sess) : Prop :=
  (∀ e, exit s = Some e → exit s' = Some e ∧ stdout s' = stdout s ∧ stderr s' = stderr s) ∧
  (ctx_done s = true → ctx_done s' = true) ∧ killed s' = killed s ∧ running s' = running s ∧
  session_open s' = session_open s ∧ returned s' = returned s.

Lemma result_ok_le s s' r : run_le s s' → result_ok s r → result_ok s' r.
Proof.
  intros (He & Hc & Hk & Hr & Ho & _). destruct r as [out|m]; simpl.
  - intros [Hx ->]. destruct (He _ Hx) as (? & ? & ?). split; congruence.
  - intros [(e & Hx & ->)|[[Hd Hk']|Hn]].
    + left. destruct (He _ Hx) as (? & ? & Herr). exists e. by rewrite Herr.
    + right. left. split; [by apply Hc|congruence].
    + right. right. congruence.
Qed.

Lemma phase_ok_le s s' p : run_le s s' → phase_ok p s → phase_ok p s'.
Proof.
  intros Hle [Hp Hn]. pose proof Hle as (He & Hc & Hk & Hr & Ho & Ht). split; [|intros Hd; rewrite Ht; auto].
  destruct p; simpl in *; rewrite ?Hk, ?Hr, ?Ho, ?Ht; try tauto.
  - by destruct (He _ Hp).
  - by destruct (He _ Hp).
  - by eapply result_ok_le.
  - destruct Hp. split; [by eapply result_ok_le|done].
  - destruct Hp as (Hs & r & Hret & Hres). split; [done|]. exists r. split; [done|by eapply result_ok_le].
Qed.

Lemma status_ok_le s s' e : run_le s s' → status_ok s e → status_ok s' e.
Proof.
  intros (He & _) Hx. by destruct (He _ Hx).
Qed.

Lemma still_running_exit s : still_running s = true → exit s = None.
Proof.
  unfold still_running. intros [_ H]%andb_true_iff. apply negb_true_iff, bool_decide_eq_false in H.
  by apply eq_None_not_Some.
Qed.

Lemma env_le s e out err : exit s = None → run_le s (set_env (ctx_done s) e out err s).
Proof. intros Hx. split_and!; try done. intros e' He. congruence. Qed.

Lemma run_le_refl s : run_le s s.
Proof. by split_and!. Qed.
#[local] Hint Resolve run_le_refl : core.

(** A step of a goroutine that is not the caller. *)
Lemma other_step gs s k X (e : RunE X) g x s' :
  run_inv gs s → gs !! k = Some g → run_pre X e g → (∀ p, g ≠ Caller p) → run_resp X e s x s' →
  run_le s s' ∧ run_birth X e g = [] ∧ (∀ p, run_upd X e g x ≠ Caller p) ∧
  live (run_upd X e g x) + in_chan s' = live g + in_chan s ∧
  (∀ m, run_upd X e g x = Sending m → status_ok s' m) ∧
  (∀ m, done_chan s' = Some m → done_chan s = Some m ∨ status_ok s' m).
Proof.
  intros Hi Hk Hpre Hg Hr. pose proof (ri_sent _ _ Hi k) as Hsent. unfold in_chan.
  destruct e; simpl in Hpre, Hr; try (invert_all; try (destruct_or!; invert_all);
    by destruct (Hg _ eq_refl)).
  - destruct Hr as [-> Hst]. subst. split_and!; try done; auto. intros m Hm. by simplify_eq/=.
  - destruct Hr as [Hd ->]. subst. rewrite Hd. split_and!; try done; auto.
    intros m Hm. simplify_eq/=. right. by apply Hsent.
  - subst. destruct (still_running s) eqn:Hrun; split_and!; try done; auto.
    by apply env_le, still_running_exit.
  - subst. destruct (still_running s) eqn:Hrun; split_and!; try done; auto.
    by apply env_le, still_running_exit.
  - subst. split_and!; try done; auto.
Qed.

(** A step of the caller. *)
Ltac caller_done := eexists; (split; [reflexivity|]); split_and!; simpl; try done; try tauto; try lia; auto.

Lemma caller_step gs s X (e : RunE X) p x s' :
  run_inv gs s → gs !! 0 = Some (Caller p) → run_pre X e (Caller p) → run_resp X e s x s' →
  ∃ p', run_upd X e (Caller p) x = Caller p' ∧ phase_ok p' s' ∧
    sum_list_with live (run_birth X e (Caller p)) + in_chan s' + expected p = in_chan s + expected p' ∧
    (expected p = 0 ∨ ∀ m, status_ok s m → status_ok s' m) ∧
    (∀ m, done_chan s' = Some m → done_chan s = Some m).
Proof.
  intros Hi H0 Hpre Hr. destruct (ri_caller _ _ Hi) as (p0 & Hp0 & [Hp Hn] & Hsum).
  rewrite H0 in Hp0. injection Hp0 as <-. pose proof (ri_chan _ _ Hi) as Hchan. clear Hi H0.
  unfold in_chan, phase_ok, status_ok in *. destruct e; simpl in Hpre, Hr; try done.
  - simplify_eq. destruct x as [[]|m]; subst; simpl in *; caller_done.
  - simplify_eq. destruct x as [[]|m]; subst; simpl in *; caller_done.
  - simplify_eq. simpl in *. caller_done.
  - simplify_eq. simpl in *. destruct x as [[m|]|]; destruct Hr as [Hd ->]; try rewrite Hd.
    + caller_done.
    + caller_done.
    + caller_done.
  - destruct Hpre as [Hpre ->]. simplify_eq. simpl in *. caller_done.
  - subst. destruct Hpre as [Hpre|[r Hpre]]; simplify_eq; simpl in *; caller_done.
  - simplify_eq. destruct Hr as [Hd ->]. rewrite Hd. simpl in *. caller_done.
  - simplify_eq. simpl in *. caller_done.
  - simplify_eq. destruct Hr as [-> ->]. simpl in *. caller_done.
  - destruct Hpre as [m Hpre]. simplify_eq. destruct Hr as [-> ->]. simpl in *. caller_done.
    left. by exists m.
  - simplify_eq. simpl in *. destruct Hp as [Hres Hs]. caller_done. by exists r.
Qed.

Lemma no_sending gs s p k m :
  run_inv gs s → gs !! 0 = Some (Caller p) → expected p = 0 → gs !! k ≠ Some (Sending m).
Proof.
  intros Hi H0 Hz Hk. destruct (ri_caller _ _ Hi) as (p0 & Hp0 & _ & Hsum). simplify_eq.
  pose proof (sum_list_with_in (Sending m) live gs (list_elem_of_lookup_2 _ _ _ Hk)) as Hle.
  simpl in Hle. lia.
Qed.

Lemma run_inv_step gs s k X (e : RunE X) g x s' :
  run_inv gs s → gs !! k = Some g → run_pre X e g → run_resp X e s x s' →
  run_inv (<[k := run_upd X e g x]> gs ++ run_birth X e g) s'.
Proof.
  intros Hi Hk Hpre Hr. destruct (ri_caller _ _ Hi) as (p & H0 & Hp & Hsum).
  pose proof (sum_with_insert live gs k g (run_upd X e g x) Hk) as Hins.
  destruct (decide (k = 0)) as [->|Hne].
  - rewrite H0 in Hk. injection Hk as <-.
    destruct (caller_step _ _ _ _ _ _ _ Hi H0 Hpre Hr) as (p' & Hu & Hp' & Hcount & Hst & Hch).
    rewrite Hu in *. simpl in Hins. constructor.
    + exists p'. split; [by eapply lookup_changed|]. split; [done|].
      rewrite sum_list_with_app. lia.
    + intros j q Hj. apply lookup_after in Hj as [[-> _]|[[_ Hj]|Hj]]; [done|by eapply (ri_one _ _ Hi)|].
      destruct e; simpl in Hj; set_solver.
    + intros j m Hj. apply lookup_after in Hj as [[_ ?]|[[_ Hj]|Hj]]; [done| |destruct e; simpl in Hj; set_solver].
      destruct Hst as [Hz|Hst]; [by destruct (no_sending _ _ _ _ _ Hi H0 Hz Hj)|].
      by eapply Hst, (ri_sent _ _ Hi).
    + intros m Hm. apply Hch in Hm. destruct Hst as [Hz|Hst]; [|by apply Hst, (ri_chan _ _ Hi)].
      unfold in_chan in Hsum. rewrite Hm in Hsum. lia.
  - assert (∀ q, g ≠ Caller q) as Hg by (intros q ->; by destruct (Hne (ri_one _ _ Hi _ _ Hk))).
    destruct (other_step _ _ _ _ _ _ _ _ Hi Hk Hpre Hg Hr) as (Hle & Hb & Hu & Hcount & Hs & Hc).
    rewrite Hb, app_nil_r. constructor.
    + exists p. split; [by rewrite list_lookup_insert_ne|]. split; [by eapply phase_ok_le|]. lia.
    + intros j q Hj. rewrite <-(app_nil_r (<[k:=_]> gs)) in Hj.
      apply lookup_after in Hj as [[_ Hq]|[[_ Hj]|Hj]]; [by destruct (Hu q)|by eapply (ri_one _ _ Hi)|set_solver].
    + intros j m Hj. rewrite <-(app_nil_r (<[k:=_]> gs)) in Hj.
      apply lookup_after in Hj as [[_ Hq]|[[_ Hj]|Hj]]; [by apply Hs| |set_solver].
      eapply status_ok_le; [done|]. by eapply (ri_sent _ _ Hi).
    + intros m Hm. destruct (Hc m Hm) as [Hd|?]; [|done].
      eapply status_ok_le; [done|]. by apply (ri_chan _ _ Hi).
Qed.

(** ** The code keeps to the protocol *)

Abbreviation run_plays := (keeps run_pre run_rely run_upd run_fin).

Lemma run_play {X} (e : RunE X) (Q : X → run_role → Prop) g :
  run_pre X e g → (∀ x, Q x (run_upd X e g x)) → wp (protocol run_pre run_rely run_upd) (trigger e) Q g.
Proof. intros Hpre HQ. apply wp_trigger. split; [done|]. by intros x g' [_ ->]. Qed.

Tactic Notation "play" simple_intropattern(p) :=
  rewrite ?wp_bind; apply run_play; [simpl; by eauto|]; cbn [run_upd]; intros p.

Definition run_start (nil_client : bool) : run_role :=
  Caller (if nil_client then PReport (Err "ssh client is nil") else PStart).

Lemma run_call_plays nil_client command : run_plays (run_call nil_client command) (run_start nil_client).
Proof.
  unfold keeps, run_call, Run, run_start. destruct nil_client.
  { rewrite wp_bind. apply wp_ret. play []. by left. }
  rewrite !wp_bind. play [[]|m]; [|play []; by left].
  rewrite !wp_bind. play [[]|m]; [|do 2 play []; by left].
  play []. play [[m|]|].
  - play err. do 2 play []. by left.
  - play out. do 2 play []. by left.
  - do 2 play []. play st. play m. do 2 play []. by left.
Qed.

Lemma waiter_plays : run_plays waiter Waiting.
Proof. unfold keeps, waiter. play e. play []. by right. Qed.

Lemma run_env_plays t : run_env t → run_plays t Quiet.
Proof. destruct 1; unfold keeps; play []; by right. Qed.

Lemma run_obligations :
  obligations run_resp run_spawned no_loop run_env run_pre run_rely run_upd run_birth run_fin run_inv.
Proof.
  constructor.
  - intros gs s k X e g x s' Hi Hk Hpre Hr. split; [done|by eapply run_inv_step].
  - intros X e g _. destruct e; try apply Forall2_nil_2.
    apply Forall2_cons. split; [apply waiter_plays|apply Forall2_nil_2].
  - intros [].
  - intros t Ht. exists Quiet. split; [by apply run_env_plays|]. intros gs s Hi.
    assert (∀ j h, (gs ++ [Quiet]) !! j = Some h → gs !! j = Some h ∨ h = Quiet) as Hl.
    { intros j h Hj. apply lookup_app_Some in Hj as [Hj|[_ Hj]]; [by left|right].
      apply list_lookup_singleton_Some in Hj. by destruct Hj. }
    destruct (ri_caller _ _ Hi) as (p & H0 & Hp & Hsum). constructor.
    + exists p. split; [by apply lookup_app_l_Some|]. split; [done|].
      rewrite sum_list_with_app. simpl. lia.
    + intros k q Hk. apply Hl in Hk as [Hk|?]; [by eapply (ri_one _ _ Hi)|done].
    + intros k m Hk. apply Hl in Hk as [Hk|?]; [by eapply (ri_sent _ _ Hi)|done].
    + apply (ri_chan _ _ Hi).
Qed.

(** ** Executions of Run *)

Abbreviation run_config := (list (RunP (option Empty_set)) * Sess)%type.
Definition run_exec : list (option nat) → run_config → run_config → Prop :=
  lexec run_resp run_spawned no_loop run_env.
Definition calling (nil_client : bool) (command : string) : run_config :=
  ([run_call nil_client command], fresh_sess).

Lemma calling_good nil_client command ls c :
  run_exec ls (calling nil_client command) c → good run_pre run_rely run_upd run_fin run_inv c.
Proof.
  intros Hx. eapply reaches_inv; [apply run_obligations| |by eapply lexec_treaches].
  exists [run_start nil_client].
  split; [apply Forall2_cons; split; [apply run_call_plays|apply Forall2_nil_2]|].
  constructor; [|by intros [|k]|by intros [|k]|done].
  eexists. split; [reflexivity|]. destruct nil_client; [|done].
  split; [|done]. split; [|done]. split; [right; by right|done].
Qed.

(** A call that returns whatever the router and the context do next.  Opening a
    session and starting a command wait for the router's answer, and so does
    [Wait] until the router, or the end of the connection, has ended the
    command. *)
Definition run_sure (s : Sess) X (e : RunE X) : bool :=
  match e with
  | NewSession | StartCommand _ => false
  | Select => ctx_done s || bool_decide (is_Some (done_chan s))
  | RecvDone => bool_decide (is_Some (done_chan s))
  | SessionWait => bool_decide (is_Some (exit s))
  | SendDone _ => bool_decide (done_chan s = None)
  | EnvOutput _ _ | EnvExit _ | EnvCancel => false
  | _ => true
  end.
Definition run_can_go (s : Sess) (t : RunP (option Empty_set)) : bool :=
  match t with Vis e _ => run_sure s _ e | Ret _ => false end.

Lemma run_sure_answers s X (e : RunE X) : run_sure s X e = true → ∃ x s', run_resp X e s x s'.
Proof.
  destruct e; simpl; intros Hs; try done; try (by eexists "", _);
    try (by eexists tt, _); try (by eexists _, _).
  - apply orb_true_iff in Hs as [Hs|Hs]; [by exists FromCtx, s|].
    apply bool_decide_eq_true in Hs as [e He]. by eexists (FromDone e), _.
  - apply bool_decide_eq_true in Hs as [e He]. by eexists e, _.
  - apply bool_decide_eq_true in Hs as [e He]. by exists e, s.
  - apply bool_decide_eq_true in Hs. by eexists tt, _.
Qed.

(** Run is opening its session or starting its command. *)
Definition opening (t : RunP (option Empty_set)) : bool :=
  match t with Vis NewSession _ | Vis (StartCommand _) _ => true | _ => false end.

(** Run has sent KILL and closed its session, and the router has not ended the
    command. *)
Definition draining (s : Sess) : Prop := killed s = true ∧ session_open s = false ∧ exit s = None.

(** The statuses on their way are in the channel or with a live goroutine. *)
Lemma live_goroutine gs :
  0 < sum_list_with live gs → ∃ k g, gs !! k = Some g ∧ live g = 1.
Proof.
  induction gs as [|g gs IH]; simpl; [lia|]. intros Hs.
  destruct (decide (live g = 1)); [by exists 0, g|].
  destruct IH as (k & g' & Hk & Hg); [destruct g; simpl in *; lia|]. by exists (S k), g'.
Qed.

Lemma drain_goes gs s ts :
  run_inv gs s → Forall2 run_plays ts gs → gs !! 0 = Some (Caller PDrain) → done_chan s = None →
  (∃ k t, ts !! k = Some t ∧ run_can_go s t = true) ∨ draining s.
Proof.
  intros Hi Hts H0 Hd. destruct (ri_caller _ _ Hi) as (p & Hp0 & [Hp _] & Hsum). simplify_eq.
  destruct Hp as (_ & Hkilled & Hclosed). unfold in_chan in Hsum. rewrite Hd in Hsum. simpl in Hsum.
  destruct (exit s) as [st|] eqn:Hx; [left|by right].
  destruct (live_goroutine gs) as (k & g & Hk & Hg); [lia|].
  destruct (Forall2_lookup_r _ _ _ _ _ Hts Hk) as (t & Ht & Hplay). exists k, t. split; [done|].
  destruct t as [o|X e cont]; [by destruct Hplay as [-> | ->]|]. destruct Hplay as [Hpre _].
  destruct e; simpl in Hpre |- *; invert_all; try (destruct_or!; invert_all); try done.
  - rewrite Hx. by apply bool_decide_eq_true.
  - by apply bool_decide_eq_true.
Qed.

(** C13: what sshCommandRunner.Run returns.  In every interleaving with its
    waiting goroutine, the router and the context, once Run has returned: the
    session is closed and the goroutine it started has finished; a success
    carries the whole output of a command that succeeded; an error is that of a
    command that failed, with its stderr, or the context was done and the
    command had been sent KILL, or no command was started. *)
Theorem Run_result nil_client command ls c r :
  run_exec ls (calling nil_client command) c → returned c.2 = Some r →
  session_open c.2 = false ∧ result_ok c.2 r ∧
  ∀ k, (∀ cont, c.1 !! k ≠ Some (Vis SessionWait cont)) ∧
       (∀ e cont, c.1 !! k ≠ Some (Vis (SendDone e) cont)).
Proof.
  intros Hx Hret. destruct (calling_good _ _ _ _ Hx) as (gs & Hk & Hi).
  destruct (ri_caller _ _ Hi) as (p & H0 & [Hp Hn] & Hsum).
  assert (p = PDone) as ->.
  { destruct p; try reflexivity; rewrite Hn in Hret by done; done. }
  destruct Hp as (Hs & r' & Hr' & Hres). simplify_eq. split; [done|]. split; [done|].
  assert (∀ k g, gs !! k = Some g → live g = 0) as Hlive.
  { intros k g Hg. pose proof (sum_list_with_in g live gs (list_elem_of_lookup_2 _ _ _ Hg)).
    simpl in Hsum. lia. }
  intros k. split; [intros cont Ht|intros e cont Ht];
    destruct (Forall2_lookup_l _ _ _ _ _ Hk Ht) as (g & Hg & -> & _); by apply Hlive in Hg.
Qed.

Lemma run_call_fits nil_client command :
  always (ends no_loop (λ _ _ _, True) (λ _ _, 0) 11) (run_call nil_client command).
Proof.
  unfold run_call, Run. destruct nil_client.
  - cbn -[Nat.le]. repeat split; intros; try lia; exact I.
  - repeat first
      [ exact I | lia
      | match goal with
        | |- _ ∧ _ => split
        | |- True → _ => intros _
        | |- ∀ x : unit, _ => intros []
        | |- ∀ x : selected, _ => intros [[?|]|]
        | |- ∀ x : result _ unit, _ => intros [[]|?]
        | |- ∀ x : _, _ => intros ?
        end
      | progress cbn -[Nat.le] ].
Qed.

(** C14: once its context is done Run waits for nothing but the router.  Whatever
    happens, no goroutine of a call of Run makes more than eleven steps; and
    once the context is done, as long as Run has not returned: it or its waiting
    goroutine is at a call that is sure to return; or Run is opening its session
    or starting its command, which the context does not interrupt; or it has
    sent KILL and closed the session, and the router has not ended the command.
    So Run returns under every fair scheduling if the router answers. *)
Theorem Run_waits_only_for_router nil_client command ls c :
  run_exec ls (calling nil_client command) c →
  (∀ k, steps_of k ls ≤ 11) ∧
  (ctx_done c.2 = true →
   is_Some (returned c.2) ∨ (∃ k t, c.1 !! k = Some t ∧ run_can_go c.2 t = true) ∨
   (∃ t, c.1 !! 0 = Some t ∧ opening t = true) ∨ draining c.2).
Proof.
  intros Hx. split.
  - intros k. eapply (each_budget_spent run_resp run_spawned no_loop run_env (λ _ _ _, True) (λ _ _, 0)
      (λ _, True)); [done|..|exact Hx|done|].
    + intros [].
    + intros X e. destruct e; repeat constructor; simpl; repeat split; lia.
    + intros t Ht. destruct Ht; simpl; repeat split; lia.
    + constructor; [|constructor]. apply run_call_fits.
  - intros Hd. destruct (calling_good _ _ _ _ Hx) as (gs & Hk & Hi).
    destruct (ri_caller _ _ Hi) as (p & H0 & [Hp Hn] & Hsum).
    destruct (Forall2_lookup_r _ _ _ _ _ Hk H0) as (t & Ht & Hplay).
    destruct t as [o|X e cont].
    + left. destruct Hplay as [[= ->]|?]; [|done]. destruct Hp as (_ & r & Hr & _). by eauto.
    + right. destruct Hplay as [Hpre _].
      destruct e; simpl in Hpre; try done;
        first [ by right; left; eexists; split; [exact Ht|]
              | by left; exists 0; eexists; split; [exact Ht|]
              | idtac ].
      * left. exists 0. eexists. split; [exact Ht|]. simpl. by rewrite Hd.
      * destruct (done_chan c.2) as [m|] eqn:Hc.
        -- left. exists 0. eexists. split; [exact Ht|]. simpl. rewrite Hc. by apply bool_decide_eq_true.
        -- simplify_eq. destruct (drain_goes _ _ _ Hi Hk H0 Hc); auto.
Qed.

(** ** A replayed call *)

(** One possible answer to each call: everything succeeds; the choice decides
    what [select] sees. *)
Definition run_answer (n : nat) X (e : RunE X) (s : Sess) : option (X * Sess) :=
  match e in RunE X return option (X * Sess) with
  | NewSession => Some (Ok tt, set_session true (killed s) (running s) s)
  | StartCommand _ => Some (Ok tt, set_session (session_open s) (killed s) true s)
  | GoWait => Some (tt, s)
  | Select =>
    if decide (n = 0) then match done_chan s with Some e => Some (FromDone e, set_chan None s) | None => None end
    else if ctx_done s then Some (FromCtx, s) else None
  | Signal _ => Some (tt, set_session (session_open s) true (running s) s)
  | CloseSession => Some (tt, set_session false (killed s) (running s) s)
  | RecvDone => match done_chan s with Some e => Some (e, set_chan None s) | None => None end
  | CtxErr => Some ("context canceled", s)
  | ReadStdout => Some (stdout s, s)
  | ReadStderr => Some (stderr s, s)
  | SessionWait => match exit s with Some e => Some (e, s) | None => None end
  | SendDone e => match done_chan s with None => Some (tt, set_chan (Some e) s) | Some _ => None end
  | Report r => Some (tt, set_returned r s)
  | EnvOutput out err => Some (tt, if still_running s
      then set_env (ctx_done s) (exit s) (stdout s +:+ out) (stderr s +:+ err) s else s)
  | EnvExit e => Some (tt, if still_running s
      then set_env (ctx_done s) (Some e) (stdout s) (stderr s) s else s)
  | EnvCancel => Some (tt, set_env true (exit s) (stdout s) (stderr s) s)
  end.

Lemma run_answer_resp n X (e : RunE X) s x s' :
  run_answer n X e s = Some (x, s') → run_resp X e s x s'.
Proof. destruct e; simpl; intros H; repeat (case_decide || case_match); simplify_eq/=; eauto 6. Qed.

(** The command writes a line and fails. *)
Definition failing_moves : list (@replay_move RunE Empty_set) :=
  [Go 0 0; Go 0 0; Go 0 0; Arrive (_ ← trigger (EnvOutput "" "no such device"); mret None); Go 2 0;
   Arrive (_ ← trigger (EnvExit (Some "exit status 1")); mret None); Go 3 0;
   Go 1 0; Go 1 0; Go 0 0; Go 0 0; Go 0 0; Go 0 0].
(** The context is cancelled while the command runs on. *)
Definition cancelled_moves : list (@replay_move RunE Empty_set) :=
  [Go 0 0; Go 0 0; Go 0 0; Arrive (_ ← trigger EnvCancel; mret None); Go 2 0; Go 0 1; Go 0 0; Go 0 0].

Definition failed_run : run_config :=
  replayed run_spawned no_loop run_answer failing_moves (calling false "ip link").
Definition cancelled_run : run_config :=
  replayed run_spawned no_loop run_answer cancelled_moves (calling false "ip link").

Lemma failed_run_exec : run_exec (move_label <$> failing_moves) (calling false "ip link") failed_run.
Proof.
  apply replay_exec; [apply run_answer_resp| |vm_compute; by eexists].
  repeat constructor.
Qed.

Lemma cancelled_run_exec :
  run_exec (move_label <$> cancelled_moves) (calling false "ip link") cancelled_run.
Proof.
  apply replay_exec; [apply run_answer_resp| |vm_compute; by eexists].
  repeat constructor.
Qed.

Lemma Run_result_witness :
  returned failed_run.2 = Some (Err "exit status 1: no such device") ∧
  session_open failed_run.2 = false ∧ result_ok failed_run.2 (Err "exit status 1: no such device").
Proof.
  assert (returned failed_run.2 = Some (Err "exit status 1: no such device")) as Hr
    by (vm_compute; reflexivity).
  destruct (Run_result false "ip link" _ failed_run _ failed_run_exec Hr) as (Hs & Hres & _).
  split; [exact Hr|]. split; [exact Hs|exact Hres].
Defined.

Lemma Run_waits_only_for_router_witness :
  ctx_done cancelled_run.2 = true ∧
  (is_Some (returned cancelled_run.2) ∨
   (∃ k t, cancelled_run.1 !! k = Some t ∧ run_can_go cancelled_run.2 t = true) ∨
   (∃ t, cancelled_run.1 !! 0 = Some t ∧ opening t = true) ∨ draining cancelled_run.2).
Proof.
  assert (ctx_done cancelled_run.2 = true) as Hc by (vm_compute; reflexivity).
  split; [exact Hc|].
  exact (proj2 (Run_waits_only_for_router false "ip link" _ cancelled_run cancelled_run_exec) Hc).
Defined.

(** A goroutine that has returned or whose next call cannot return now. *)
Definition blocked (s : Sess) (t : RunP (option Empty_set)) : Prop :=
  match t with Vis e _ => ∀ x s', ¬ run_resp _ e s x s' | Ret _ => True end.

(** C37: a router that stops answering holds Run for ever.  There is an execution in
    which the context of a call of Run is done, Run has sent KILL and closed the
    session, and yet it has not returned, and none of its goroutines can take a
    step before the router answers or the connection ends: the timeout of a
    command does not bound the call. *)
Theorem Run_outlives_its_context command :
  ∃ ls c, run_exec ls (calling false command) c ∧ ctx_done c.2 = true ∧ draining c.2 ∧
    returned c.2 = None ∧ Forall (blocked c.2) c.1.
Proof.
  set (c := replayed run_spawned no_loop run_answer cancelled_moves (calling false command)).
  assert (run_exec (move_label <$> cancelled_moves) (calling false command) c) as Hx.
  { apply replay_exec; [apply run_answer_resp|repeat constructor|vm_compute; by eexists]. }
  exists (move_label <$> cancelled_moves), c. split; [exact Hx|].
  assert (∃ k1 k2, c = ([Vis RecvDone k1; Vis SessionWait k2; Ret None],
    {| ctx_done := true; session_open := false; killed := true; running := true; exit := None;
       stdout := ""; stderr := ""; done_chan := None; returned := None |})) as (k1 & k2 & ->)
    by (eexists _, _; vm_compute; reflexivity).
  split_and!; try done. repeat constructor; by intros x s' [? ?].
Qed.
