(* ===== verification/AgentClient.v ===== *)
(** * The operator's client of the router agent (internal/router/agent_client.go)

    The SSH tunnel's life cycle and the four HTTP requests.  The goroutines
    that copy bytes through the tunnel are below the level of this model: a
    request is one [HttpDo] call. *)

From S2P Require Import Prelude Effects GoStd Json Http ClaimTypes Env.

Local Open Scope Z_scope.

(** ** Wire structures *)

Record LeaseRequest := { lr_Interface : string; lr_WanParent : string; lr_MACAddress : string }.
Record LeaseResponse := { lresp_IPAddress : string; lresp_ExpiresAt : Z }.
Record LeaseStatus := {
  ls_IPAddress : string;
  ls_ExpiresAt : Z;
  ls_RenewalCount : Z;
  ls_Status : string;
  ls_InterfaceExists : bool;
}.
Record ErrorResponse := { er_Error : string }.

(** [json.Marshal] of a [LeaseRequest]. *)
Definition enc_LeaseRequest (r : LeaseRequest) : json :=
  JObj [("interface", JStr (lr_Interface r)); ("wanParent", JStr (lr_WanParent r));
        ("macAddress", JStr (lr_MACAddress r))].

Section client.
Context `{L : Lib}.

Definition upd_LeaseResponse (k : string) (j : json) (r : LeaseResponse) : option LeaseResponse :=
  if key_match "ipAddress" k then
    v ← dec_string j (lresp_IPAddress r);
    Some {| lresp_IPAddress := v; lresp_ExpiresAt := lresp_ExpiresAt r |}
  else if key_match "expiresAt" k then
    v ← dec_time ParseTime j (lresp_ExpiresAt r);
    Some {| lresp_IPAddress := lresp_IPAddress r; lresp_ExpiresAt := v |}
  else Some r.

Definition zero_LeaseResponse : LeaseResponse :=
  {| lresp_IPAddress := ""; lresp_ExpiresAt := zero_time |}.

Definition upd_LeaseStatus (k : string) (j : json) (r : LeaseStatus) : option LeaseStatus :=
  let mk ip ex rc st ie := {| ls_IPAddress := ip; ls_ExpiresAt := ex; ls_RenewalCount := rc;
                              ls_Status := st; ls_InterfaceExists := ie |} in
  if key_match "ipAddress" k then
    v ← dec_string j (ls_IPAddress r);
    Some (mk v (ls_ExpiresAt r) (ls_RenewalCount r) (ls_Status r) (ls_InterfaceExists r))
  else if key_match "expiresAt" k then
    v ← dec_time ParseTime j (ls_ExpiresAt r);
    Some (mk (ls_IPAddress r) v (ls_RenewalCount r) (ls_Status r) (ls_InterfaceExists r))
  else if key_match "renewalCount" k then
    v ← dec_int j (ls_RenewalCount r);
    Some (mk (ls_IPAddress r) (ls_ExpiresAt r) v (ls_Status r) (ls_InterfaceExists r))
  else if key_match "status" k then
    v ← dec_string j (ls_Status r);
    Some (mk (ls_IPAddress r) (ls_ExpiresAt r) (ls_RenewalCount r) v (ls_InterfaceExists r))
  else if key_match "interfaceExists" k then
    v ← dec_bool j (ls_InterfaceExists r);
    Some (mk (ls_IPAddress r) (ls_ExpiresAt r) (ls_RenewalCount r) (ls_Status r) v)
  else Some r.

Definition zero_LeaseStatus : LeaseStatus :=
  {| ls_IPAddress := ""; ls_ExpiresAt := zero_time; ls_RenewalCount := 0; ls_Status := "";
     ls_InterfaceExists := false |}.

Definition upd_ErrorResponse (k : string) (j : json) (r : ErrorResponse) : option ErrorResponse :=
  if key_match "error" k then v ← dec_string j (er_Error r); Some {| er_Error := v |}
  else Some r.

(** [agent returned %d: %s]; the error of decoding the body is ignored. *)
Definition agent_error (resp : HttpResponse) : string :=
  "agent returned " +:+ pretty (StatusCode resp) +:+ ": "
  +:+ er_Error (fst (Decode upd_ErrorResponse {| er_Error := "" |} (Body resp))).

(** Members of an array that is decoded element by element. *)
Definition dec_array {A} (upd : string → json → A → option A) (zero : A) (l : list json)
    : list A * bool :=
  (map (λ j, fst (dec_struct upd zero j)) l, forallb (λ j, snd (dec_struct upd zero j)) l).

Definition upd_LeaseListResponse (k : string) (j : json) (r : list LeaseStatus)
    : option (list LeaseStatus) :=
  if key_match "leases" k then
    match j with
    | JArr l => let '(a, ok) := dec_array upd_LeaseStatus zero_LeaseStatus l in
                if ok then Some a else None
    | JNull => Some []
    | _ => None
    end
  else Some r.

(** ** The tunnel *)

Record AgentClient := { sshClient : connid; localAddr : string }.

Definition NewAgentClient (routerAddr user : string) (auth : iface)
    : OpM (result string AgentClient) :=
  r ← call (SshDial (routerAddr +:+ ":22") user auth);
  match r with
  | Err e => mret (Err ("ssh dial failed: " +:+ e))
  | Ok c =>
    r' ← call Listen;
    match r' with
    | Err e => _ ← call (SshClose c); mret (Err ("local listen failed: " +:+ e))
    | Ok addr => mret (Ok {| sshClient := c; localAddr := addr |})
    end
  end.

Definition AgentClient_Close (c : AgentClient) : OpM unit := call (CloseTunnel (sshClient c)).

(** ** Requests *)

(** Create a request and send it. *)
Definition request (method url : string) (body : option json) : OpM (result string HttpResponse) :=
  r ← call (NewRequest method url);
  match r with
  | Err e => mret (Err ("failed to create request: " +:+ e))
  | Ok _ =>
    r' ← call (HttpDo method url body);
    match r' with
    | Err e => mret (Err ("agent request failed: " +:+ e))
    | Ok resp => mret (Ok resp)
    end
  end.

Definition AllocateLease (c : AgentClient) (iface wanParent macAddr : string)
    : OpM (result string string) :=
  let body := enc_LeaseRequest {| lr_Interface := iface; lr_WanParent := wanParent;
                                  lr_MACAddress := macAddr |} in
  r ← request "POST" ("http://" +:+ localAddr c +:+ "/leases") (Some body);
  match r with
  | Err e => mret (Err e)
  | Ok resp =>
    if decide (StatusCode resp ≠ StatusCreated) then mret (Err (agent_error resp))
    else match Decode upd_LeaseResponse zero_LeaseResponse (Body resp) with
         | (_, false) => mret (Err ("decode response failed: " +:+ JsonErrorText (Body resp)))
         | (result, true) => mret (Ok (lresp_IPAddress result))
         end
  end.

Definition ListLeases (c : AgentClient) : OpM (result string (list LeaseStatus)) :=
  r ← request "GET" ("http://" +:+ localAddr c +:+ "/leases") None;
  match r with
  | Err e => mret (Err e)
  | Ok resp =>
    if decide (StatusCode resp ≠ StatusOK) then mret (Err (agent_error resp))
    else match Decode upd_LeaseListResponse [] (Body resp) with
         | (_, false) => mret (Err ("decode response failed: " +:+ JsonErrorText (Body resp)))
         | (result, true) => mret (Ok result)
         end
  end.

(** [None] is the nil status of a lease the agent does not have. *)
Definition GetLease (c : AgentClient) (iface : string) : OpM (result string (option LeaseStatus)) :=
  r ← request "GET" ("http://" +:+ localAddr c +:+ "/leases/" +:+ iface) None;
  match r with
  | Err e => mret (Err e)
  | Ok resp =>
    if decide (StatusCode resp = StatusNotFound) then mret (Ok None)
    else if decide (StatusCode resp ≠ StatusOK) then mret (Err (agent_error resp))
    else match Decode upd_LeaseStatus zero_LeaseStatus (Body resp) with
         | (_, false) => mret (Err ("decode response failed: " +:+ JsonErrorText (Body resp)))
         | (status, true) => mret (Ok (Some status))
         end
  end.

Definition ReleaseLease (c : AgentClient) (iface : string) : OpM (result string unit) :=
  r ← request "DELETE" ("http://" +:+ localAddr c +:+ "/leases/" +:+ iface) None;
  match r with
  | Err e => mret (Err e)
  | Ok resp =>
    if decide (StatusCode resp = StatusNotFound) then mret (Ok tt)
    else if decide (StatusCode resp ≠ StatusNoContent) then mret (Err (agent_error resp))
    else mret (Ok tt)
  end.
End client.
