(* ===== verification/Controller.v ===== *)
(** * The reconciler (internal/controller/publicipclaim_controller.go)

    [Reconcile] and everything it calls, phase by phase, in the order of the
    source.  The claim is a mutable Go struct: it is threaded through the
    functions that write it. *)

From Stdlib Require Import SpecFloat.
From S2P Require Import Prelude Effects GoStd Helpers Json Http ClaimTypes Env Pool SshManager.
From S2P Require Import SshCommands Registry AgentClient.

Local Open Scope Z_scope.

Definition finalizerName : string := "serialx.net/cleanup-wan-interface".
Definition ann_event : string := "network.serialx.net/last-router-event".
Definition ann_reason : string := "network.serialx.net/last-router-event-reason".

(** [ctrl.Result]; durations in nanoseconds. *)
Record Result := { Requeue : bool; RequeueAfter : Z }.
Definition no_requeue : Result := {| Requeue := false; RequeueAfter := 0 |}.
Definition requeue_after (d : Z) : Result := {| Requeue := false; RequeueAfter := d |}.
Definition requeue_now : Result := {| Requeue := true; RequeueAfter := 0 |}.

(** What [Reconcile] returns: the result and the error, if any. *)
Definition outcome : Type := Result * option string.

Section controller.
Context `{L : Lib}.

(** The replaceable functions of the reconciler; all nil in production. *)
Record Hooks := {
  runRouterScriptFn : option (PublicIPClaim → string → string → OpM (result string string));
  ensureIPInPoolFn : option (string → string → OpM (result string unit));
  removeIPFromPoolFn : option (string → string → OpM (result string unit));
  cleanupRouterInterfaceFn : option (PublicIPClaim → OpM (result string unit));
}.
Definition no_hooks : Hooks :=
  {| runRouterScriptFn := None; ensureIPInPoolFn := None; removeIPFromPoolFn := None;
     cleanupRouterInterfaceFn := None |}.

(** ** Common pieces *)

Definition router (c : PublicIPClaim) : RouterSpec := Router (Spec c).

Definition secret_key (c : PublicIPClaim) : NamespacedName :=
  {| nn_namespace := "kube-system"; nn_name := SSHSecretRef (router c) |}.

(** [sec.Data["id_rsa"]]: a missing entry is the empty slice. *)
Definition id_rsa (data : gmap string string) : string := default "" (data !! "id_rsa").

Definition router_address (c : PublicIPClaim) : string :=
  Host (router c) +:+ ":" +:+ pretty (coalesceInt (Port (router c)) 22).

Definition handler_key (c : PublicIPClaim) : string := Namespace c +:+ "/" +:+ Name c.

Definition fail (c : PublicIPClaim) (err : string) : OpM outcome :=
  r ← call (StatusUpdate (set_status (st_message err ∘ st_phase ClaimPhaseFailed) c));
  match r with
  | Err e => mret (no_requeue, Some (err_msg e))
  | Ok _ => mret (no_requeue, Some err)
  end.

(** ** runRouterScript *)

Definition defaultRunRouterScript (c : PublicIPClaim) (wanIf macAddr : string)
    : OpM (result string string) :=
  r ← call (GetSecret (secret_key c));
  match r with
  | Err e => mret (Err ("failed to get SSH secret: " +:+ err_msg e))
  | Ok data =>
    if decide (id_rsa data = "") then
      mret (Err ("ssh private key not found in secret " +:+ SSHSecretRef (router c) +:+ "/id_rsa"))
    else match ParsePrivateKey (id_rsa data) with
    | Err e => mret (Err ("failed to parse SSH private key: " +:+ e))
    | Ok signer =>
      r' ← NewAgentClient (Host (router c)) (User (router c)) (PublicKeys signer);
      match r' with
      | Err e => mret (Err ("failed to connect to router agent: " +:+ e))
      | Ok ac =>
        ip ← AllocateLease ac wanIf (WanParent (router c)) macAddr;
        _ ← AgentClient_Close ac;
        match ip with
        | Err e => mret (Err ("agent lease allocation failed: " +:+ e))
        | Ok ip => mret (Ok ip)
        end
      end
    end
  end.

Definition runRouterScript (hk : Hooks) (c : PublicIPClaim) (wanIf macAddr : string)
    : OpM (result string string) :=
  match runRouterScriptFn hk with
  | Some f => f c wanIf macAddr
  | None => defaultRunRouterScript c wanIf macAddr
  end.

Definition ensureIPInPool (hk : Hooks) (poolName ip : string) : OpM (result string unit) :=
  match ensureIPInPoolFn hk with
  | Some f => f poolName ip
  | None => defaultEnsureIPInPool poolName ip
  end.

Definition removeIPFromPool (hk : Hooks) (poolName ip : string) : OpM (result string unit) :=
  match removeIPFromPoolFn hk with
  | Some f => f poolName ip
  | None => defaultRemoveIPFromPool poolName ip
  end.

(** ** getSSHManager *)

(** The configuration it asks the registry for. *)
Definition manager_config (c : PublicIPClaim) (signer : Signer) : RouterConfig :=
  {| Address := router_address c; Username := User (router c);
     AuthMethod := Some (PublicKeys signer); HostKeyCallback := Some InsecureIgnoreHostKey;
     Timeout := 30 * Second; KeepAliveInterval := 30 * Second;
     KeepAliveCommand := "cat /proc/uptime";
     Dial := Some {| if_type := "ssh.DialFunc"; if_kind := KFunc; if_pointer := 0; if_repr := "" |};
     Runner := None; MaxBackoff := 0; InitialBackoff := 0 |}.

(** The status field that records the connection's state. *)
Definition connection_state (m : SSHConnectionManager) : string :=
  if IsConnected m then "connected" else if IsReconnecting m then "reconnecting" else "disconnected".

(** Lines 882-924: the claim moved to another router; its handler is taken off
    the old manager, which is closed when it was the last one. *)
Definition cleanup_old_router (key previousRouter : string) : OpM unit :=
  oldHandler ← gets (λ s, sshHandlers s !! key);
  match oldHandler with
  | None => mret tt
  | Some oldHandlerID =>
    prev ← gets (λ s, claimManagers s !! key);
    match prev with
    | None => mret tt
    | Some prevMgr =>
      _ ← upd_mgr prevMgr (UnregisterHandler oldHandlerID);
      _ ← modify (λ s, set_sshHandlers (delete key (sshHandlers s)) s);
      _ ← modify (λ s, set_claimManagers (delete key (claimManagers s)) s);
      pm ← get_mgr prevMgr;
      if decide (HandlerCount pm = 0%nat) then
        _ ← Close prevMgr;
        Remove previousRouter
      else mret tt
    end
  end.

(** Lines 928-974: register the claim's handler unless it has one. *)
Definition register_once (c : PublicIPClaim) (key : string) (m : nat) : OpM unit :=
  existing ← gets (λ s, sshHandlers s !! key);
  match existing with
  | Some _ => mret tt
  | None =>
    mgr ← get_mgr m;
    let '(id, mgr') := RegisterHandler {| h_namespace := Namespace c; h_name := Name c |} mgr in
    _ ← upd_mgr m (λ _, mgr');
    modify (λ s, set_sshHandlers (<[key := id]> (sshHandlers s)) s)
  end.

Definition getSSHManager (c : PublicIPClaim) : OpM (result string nat * PublicIPClaim) :=
  reg ← gets SSHRegistry;
  match reg with
  | None => mret (Err "SSH registry not initialized", c)
  | Some _ =>
    r ← call (GetSecret (secret_key c));
    match r with
    | Err e => mret (Err ("failed to get SSH secret: " +:+ err_msg e), c)
    | Ok data =>
      if decide (id_rsa data = "") then
        mret (Err ("ssh private key not found in secret " +:+ SSHSecretRef (router c)
                   +:+ "/id_rsa"), c)
      else match ParsePrivateKey (id_rsa data) with
      | Err e => mret (Err ("failed to parse SSH private key: " +:+ e), c)
      | Ok signer =>
        let addr := router_address c in
        r' ← GetOrCreate (manager_config c signer);
        match r' with
        | Err e => mret (Err ("failed to get SSH manager: " +:+ e), c)
        | Ok m =>
          mgr ← get_mgr m;
          _ ← (if negb (connected mgr) && negb (reconnecting mgr)
               then _ ← Start m; mret tt else mret tt);
          mgr' ← get_mgr m;
          let c := set_status (st_connection (connection_state mgr')) c in
          let key := handler_key c in
          previousRouter ← gets (λ s, default "" (routerAssignments s !! key));
          _ ← (if bool_decide (previousRouter ≠ "") && bool_decide (previousRouter ≠ addr)
               then cleanup_old_router key previousRouter else mret tt);
          _ ← register_once c key m;
          _ ← modify (λ s, set_claimManagers (<[key := m]> (claimManagers s)) s);
          _ ← modify (λ s, set_routerAssignments (<[key := addr]> (routerAssignments s)) s);
          mret (Ok m, c)
        end
      end
    end
  end.

(** The body of the registered closure (lines 931-964), run in a goroutine
    for each event: it stamps the claim with two annotations. *)
Definition handle_event (h : Handler) (e : Event) : OpM unit :=
  r ← call (GetClaim {| nn_namespace := h_namespace h; nn_name := h_name h |});
  match r with
  | Err _ => mret tt
  | Ok c =>
    now ← call NowRFC3339;
    let c := set_annotations (<[ann_reason := reason_string (Reason e)]>
                               (<[ann_event := now]> (Annotations c))) c in
    _ ← call (UpdateClaim c);
    mret tt
  end.

(** ** verifyClaimState *)

Definition condition (c : PublicIPClaim) (typ : string) (status : bool) (reason msg : string)
    : Condition :=
  {| Cond_Type := typ; Cond_Status := status; Cond_Reason := reason; Cond_Message := msg;
     Cond_ObservedGeneration := Generation c |}.

Definition with_condition (cond : Condition) (c : PublicIPClaim) : PublicIPClaim :=
  set_status (λ st, st_conditions (SetStatusCondition (Conditions st) cond) st) c.

(** Lines 680-705: the agent answered with a lease. *)
Definition judge_lease (c : PublicIPClaim) (ls : LeaseStatus)
    : OpM (result string unit * PublicIPClaim) :=
  if bool_decide (ls_Status ls = "stale") || negb (ls_InterfaceExists ls) then
    _ ← call (RecordEvent "Warning" "ConfigurationDrift" "Lease stale or interface missing");
    mret (Err "lease stale or interface missing", set_status (st_reason "lease_stale") c)
  else
    let c := set_status (st_reason "verified_via_agent" ∘ st_verified true) c in
    mret (Ok tt, with_condition
      (condition c ConditionReady true "ConfigurationVerified"
        ("Lease verified via agent (renewals: " +:+ pretty (ls_RenewalCount ls) +:+ ")")) c).

(** A failed check of the SSH fallback: an event, the reason, the error. *)
Definition drift (c : PublicIPClaim) (event msg reason err : string)
    : OpM (result string unit * PublicIPClaim) :=
  _ ← call (RecordEvent "Warning" event msg);
  mret (Err err, set_status (st_reason reason) c).

(** [claim.Status.RouterUptime > 0 && currentUptime+1 < claim.Status.RouterUptime]
    on [int64]. *)
Definition uptime_reset (previous current : Z) : bool :=
  (0 <? previous) && (wrap64s (current + 1) <? previous).

(** Lines 714-808: the checks made with shell commands. *)
Definition verify_ssh (c : PublicIPClaim) (m : nat) : OpM (result string unit * PublicIPClaim) :=
  let ifname := WanInterface (Status c) in
  up ← GetRouterUptime m;
  match up with
  | Err e => mret (Err ("failed to get router uptime: " +:+ e), c)
  | Ok uptime =>
    let currentUptime := int64_of_f64 (Duration_Seconds uptime) in
    if uptime_reset (RouterUptime (Status c)) currentUptime then
      drift c "RouterRebooted" "Router reboot detected, reapplying configuration"
        "router_reboot" "router rebooted"
    else
      let c := set_status (st_uptime currentUptime) c in
      ex ← InterfaceExists m ifname;
      match ex with
      | Err e => mret (Err ("failed to check interface existence: " +:+ e), c)
      | Ok false => drift c "ConfigurationDrift" "Interface missing, reapplying configuration"
                      "interface_missing" "interface missing"
      | Ok true =>
        isup ← IsInterfaceUp m ifname;
        match isup with
        | Err e => mret (Err ("failed to check interface status: " +:+ e), c)
        | Ok false => drift c "ConfigurationDrift" "Interface is down, reapplying configuration"
                        "interface_down" "interface down"
        | Ok true =>
          running ← IsUdhcpcRunning m;
          match running with
          | Err e => mret (Err ("failed to check udhcpc status: " +:+ e), c)
          | Ok false => drift c "DHCPClientStopped"
                          "DHCP client not running, reapplying configuration"
                          "dhcp_client_stopped" "dhcp client not running"
          | Ok true =>
            arp ← IsProxyARPEnabled m ifname;
            match arp with
            | Err e => mret (Err ("failed to check proxy ARP: " +:+ e), c)
            | Ok false => drift c "ProxyARPDisabled" "Proxy ARP disabled, reapplying configuration"
                            "proxy_arp_disabled" "proxy arp disabled"
            | Ok true =>
              let c := set_status (st_reason "verified" ∘ st_verified true) c in
              mret (Ok tt, with_condition
                (condition c ConditionReady true "ConfigurationVerified"
                  "Interface, DHCP client, and proxy ARP verified") c)
            end
          end
        end
      end
  end.

(** The signer of a readable, parseable secret. *)
Definition usable_key (r : result apierr (gmap string string)) : option Signer :=
  match r with
  | Err _ => None
  | Ok data => if decide (id_rsa data = "") then None
               else match ParsePrivateKey (id_rsa data) with
                    | Ok signer => Some signer
                    | Err _ => None
                    end
  end.

Definition verifyClaimState (c : PublicIPClaim) (m : nat)
    : OpM (result string unit * PublicIPClaim) :=
  let ifname := WanInterface (Status c) in
  if decide (ifname = "") then mret (Err "interface not yet created", c) else
  r ← call (GetSecret (secret_key c));
  match usable_key r with
  | None => verify_ssh c m
  | Some signer =>
    r' ← NewAgentClient (Host (router c)) (User (router c)) (PublicKeys signer);
    match r' with
    | Err _ => verify_ssh c m
    | Ok ac =>
      ls ← GetLease ac ifname;
      res ← match ls with
            | Ok (Some l) => judge_lease c l
            | _ => verify_ssh c m
            end;
      _ ← AgentClient_Close ac;
      mret res
    end
  end.

(** ** cleanupRouterInterface *)

(** Lines 1056-1101: forget the claim's handler, and close the manager when no
    claim uses it any more. *)
Definition unregister_claim (c : PublicIPClaim) : OpM unit :=
  let key := handler_key c in
  sshMgr ← gets (λ s, claimManagers s !! key);
  h ← gets (λ s, sshHandlers s !! key);
  _ ← match h with
      | None => mret tt
      | Some id =>
        _ ← match sshMgr with
            | Some m => upd_mgr m (UnregisterHandler id)
            | None => mret tt
            end;
        modify (λ s, set_sshHandlers (delete key (sshHandlers s)) s)
      end;
  _ ← modify (λ s, set_routerAssignments (delete key (routerAssignments s)) s);
  _ ← modify (λ s, set_claimManagers (delete key (claimManagers s)) s);
  match sshMgr with
  | None => mret tt
  | Some m =>
    mgr ← get_mgr m;
    if decide (HandlerCount mgr = 0%nat) then
      _ ← Close m;
      Remove (router_address c)
    else mret tt
  end.

Definition defaultCleanupRouterInterface (c : PublicIPClaim) : OpM (result string unit) :=
  if decide (WanInterface (Status c) = "") then mret (Ok tt) else
  r ← call (GetSecret (secret_key c));
  match usable_key r with
  | None => mret (Ok tt)
  | Some signer =>
    r' ← NewAgentClient (Host (router c)) (User (router c)) (PublicKeys signer);
    match r' with
    | Err _ => mret (Ok tt)
    | Ok ac =>
      _ ← ReleaseLease ac (WanInterface (Status c));
      _ ← unregister_claim c;
      _ ← AgentClient_Close ac;
      mret (Ok tt)
    end
  end.

Definition cleanupRouterInterface (hk : Hooks) (c : PublicIPClaim) : OpM (result string unit) :=
  match cleanupRouterInterfaceFn hk with
  | Some f => f c
  | None => defaultCleanupRouterInterface c
  end.

(** ** Reconcile, phase by phase *)

(** Lines 105-136: the claim is being deleted. *)
Definition reconcile_delete (hk : Hooks) (c : PublicIPClaim) : OpM outcome :=
  if ContainsFinalizer (Finalizers c) finalizerName then
    r ← cleanupRouterInterface hk c;
    match r with
    | Err e => mret (no_requeue, Some e)
    | Ok _ =>
      r' ← (if decide (AssignedIP (Status c) = "") then mret (Ok tt)
            else removeIPFromPool hk (PoolName (Spec c)) (AssignedIP (Status c)));
      match r' with
      | Err e => mret (no_requeue, Some e)
      | Ok _ =>
        u ← call (UpdateClaim (set_finalizers (RemoveFinalizer (Finalizers c) finalizerName) c));
        match u with
        | Err e => mret (no_requeue, Some (err_msg e))
        | Ok _ => mret (no_requeue, None)
        end
      end
    end
  else mret (no_requeue, None).

(** Lines 138-148: add the finalizer. *)
Definition reconcile_finalizer (c : PublicIPClaim) : OpM outcome :=
  u ← call (UpdateClaim (set_finalizers (AddFinalizer (Finalizers c) finalizerName) c));
  match u with
  | Err e => mret (no_requeue, Some (err_msg e))
  | Ok _ => mret (requeue_after 1, None)
  end.

(** The status of a claim whose interface is gone after a router event. *)
Definition clear_after_event (reason : string) (c : PublicIPClaim) : PublicIPClaim :=
  set_status (st_uptime 0 ∘ st_ip "" ∘ st_wan ""
              ∘ st_message ("Re-provisioning after " +:+ reason)
              ∘ st_phase ClaimPhasePending) c.

(** Lines 190-198: clear the annotations and come back in a second. *)
Definition clear_event (c : PublicIPClaim) : OpM outcome :=
  _ ← call (UpdateClaim (set_annotations (delete ann_reason (delete ann_event (Annotations c))) c));
  mret (requeue_after Second, None).

(** Lines 150-199: a router event was stamped on the claim. *)
Definition reconcile_event (c : PublicIPClaim) : OpM outcome :=
  let eventReason := default "" (Annotations c !! ann_reason) in
  '(r, c) ← getSSHManager c;
  match r with
  | Err _ => clear_event c
  | Ok m =>
    if decide (WanInterface (Status c) = "") then clear_event c else
    ex ← InterfaceExists m (WanInterface (Status c));
    match ex with
    | Ok true => clear_event c
    | _ =>
      u ← call (StatusUpdate (clear_after_event eventReason c));
      match u with
      | Err e => mret (no_requeue, Some (err_msg e))
      | Ok c' => clear_event c'
      end
    end
  end.

(** The status of a Ready claim that failed verification. *)
Definition clear_after_drift (err : string) (c : PublicIPClaim) : PublicIPClaim :=
  let msg := "Configuration drift detected: " +:+ err in
  let c := set_status (st_uptime 0 ∘ st_verified false ∘ st_ip "" ∘ st_wan ""
                       ∘ st_message ("Re-provisioning after verification failed: " +:+ err)
                       ∘ st_phase ClaimPhasePending) c in
  with_condition (condition c ConditionRecovering true "ConfigurationDrift" msg)
    (with_condition (condition c ConditionReady false "ConfigurationDrift" msg) c).

(** Lines 201-272: periodic verification of a Ready claim. *)
Definition reconcile_verify (hk : Hooks) (c : PublicIPClaim) : OpM outcome :=
  '(r, c) ← getSSHManager c;
  match r with
  | Err e =>
    _ ← call (RecordEvent "Warning" "SSHError" e);
    mret (requeue_after (60 * Minute), None)
  | Ok m =>
    '(v, c) ← verifyClaimState c m;
    match v with
    | Ok _ => mret (requeue_after (60 * Minute), None)
    | Err e =>
      let oldIP := AssignedIP (Status c) in
      u ← call (StatusUpdate (clear_after_drift e c));
      match u with
      | Err e => mret (no_requeue, Some (err_msg e))
      | Ok c' =>
        _ ← (if decide (oldIP = "") then mret (Ok tt)
             else removeIPFromPool hk (PoolName (Spec c')) oldIP);
        mret (requeue_now, None)
      end
    end
  end.

(** Lines 287-311: the first missing required field. *)
Definition missing_field (sp : PublicIPClaimSpec) : option string :=
  if decide (PoolName sp = "") then Some "spec.poolName is required"
  else if decide (Host (Router sp) = "") then Some "spec.router.host is required"
  else if decide (SSHSecretRef (Router sp) = "") then Some "spec.router.sshSecretRef is required"
  else if decide (User (Router sp) = "") then Some "spec.router.user is required"
  else if decide (WanParent (Router sp) = "") then Some "spec.router.wanParent is required"
  else if decide (Command (Router sp) = "") then Some "spec.router.command is required"
  else None.

(** The status written when the address is assigned. *)
Definition assigned (ip : string) (now : Z) (c : PublicIPClaim) : PublicIPClaim :=
  let c := set_status (st_verified true ∘ st_last_verified (Some now)
                       ∘ st_reason "configuration_applied" ∘ st_message "Assigned"
                       ∘ st_phase ClaimPhaseReady ∘ st_ip ip) c in
  with_condition (condition c ConditionReady true "ConfigurationApplied"
                    "Configuration applied successfully") c.

(** Lines 340-393: run the allocation for the chosen interface and MAC. *)
Definition allocate (hk : Hooks) (c : PublicIPClaim) (wanIf macAddr : string) : OpM outcome :=
  r ← runRouterScript hk c wanIf macAddr;
  match r with
  | Err e => fail c ("router script: " +:+ e)
  | Ok ip =>
    match ParseIP ip with
    | None => fail c ("invalid IP returned by router: " +:+ Quote ip)
    | Some _ =>
      e ← ensureIPInPool hk (PoolName (Spec c)) ip;
      match e with
      | Err e => fail c ("ensure pool: " +:+ e)
      | Ok _ =>
        now ← call Now;
        u ← call (StatusUpdate (assigned ip now c));
        match u with
        | Err e => mret (no_requeue, Some (err_msg e))
        | Ok _ =>
          _ ← call (RecordEvent "Normal" "ConfigurationApplied"
                      ("Configuration applied successfully for IP " +:+ ip));
          mret (requeue_after (60 * Minute), None)
        end
      end
    end
  end.

(** Lines 313-394: choose the names, persist them, allocate. *)
Definition reconcile_allocate (hk : Hooks) (c : PublicIPClaim) : OpM outcome :=
  let wanIf := if decide (Spec_WanInterface (router c) = "")
               then default_wan_interface CaseTable (Name c)
               else Spec_WanInterface (router c) in
  macAddr ← (if decide (Spec_MacAddress (router c) = "")
             then buf ← call (RandRead 5); mret (generateUniqueMAC buf)
             else mret (Spec_MacAddress (router c)));
  u ← call (StatusUpdate (set_status (st_mac macAddr ∘ st_wan wanIf) c));
  match u with
  | Err e => mret (no_requeue, Some (err_msg e))
  | Ok c' => allocate hk c' wanIf macAddr
  end.

(** [!claim.DeletionTimestamp.IsZero()]. *)
Definition deleting (c : PublicIPClaim) : bool :=
  match DeletionTimestamp c with Some _ => true | None => false end.

(** [_, ok := claim.Annotations[...]]: a router event is pending. *)
Definition event_pending (c : PublicIPClaim) : bool :=
  match Annotations c !! ann_event with Some _ => true | None => false end.

(** Lines 105-394: what is done with a claim that was read. *)
Definition reconcile_claim (hk : Hooks) (c : PublicIPClaim) : OpM outcome :=
  if deleting c then reconcile_delete hk c
  else if negb (ContainsFinalizer (Finalizers c) finalizerName) then reconcile_finalizer c
  else if event_pending c then reconcile_event c
  else if bool_decide (Phase (Status c) = ClaimPhaseReady)
          && bool_decide (AssignedIP (Status c) ≠ "") then reconcile_verify hk c
  else if bool_decide (WanInterface (Status c) ≠ "")
          && bool_decide (Phase (Status c) ≠ ClaimPhaseFailed) then mret (no_requeue, None)
  else if bool_decide (Phase (Status c) = ClaimPhaseFailed)
       then mret (requeue_after (5 * Minute), None)
  else match missing_field (Spec c) with
       | Some e => fail c e
       | None => reconcile_allocate hk c
       end.

Definition Reconcile (hk : Hooks) (req : NamespacedName) : OpM outcome :=
  r ← call (GetClaim req);
  match r with
  | Err e => mret (no_requeue, if IsNotFound e then None else Some (err_msg e))
  | Ok c => reconcile_claim hk c
  end.
End controller.
