(* ===== verification/ControllerProps.v ===== *)
(** * Properties of the reconciler

    Safety of [Reconcile] on every trace, that is for every behaviour of the
    API server, the router and the agent. *)

From Stdlib Require Import SpecFloat.
From S2P Require Import Prelude Effects GoStd Helpers Json Http ClaimTypes Env Pool SshManager.
From S2P Require Import SshCommands Registry AgentClient Controller.

Local Open Scope Z_scope.

Section props.
Context `{L : Lib}.

(** ** Kinds of calls *)

(** Plain calls: neither a write to the claim nor anything of a tunnel. *)
Definition plain X (e : OpE X) : Prop :=
  match e with
  | UpdateClaim _ | StatusUpdate _ | Listen | HttpDo _ _ _ | CloseTunnel _ => False
  | _ => True
  end.

(** Quiet calls: everything but writes to the claim and lease allocation. *)

Definition quiet X (e : OpE X) : Prop :=
  match e with
  | UpdateClaim _ | StatusUpdate _ => False
  | HttpDo method _ _ => method ≠ "POST"
  | _ => True
  end.

Lemma plain_quiet {A} (m : OpM A) : callsM plain m → callsM quiet m.
Proof. apply callsM_impl. by intros X []. Qed.

Lemma panic_plain {A} msg : callsM plain (panic msg : OpM A).
Proof. intros s. by split. Qed.

Lemma get_mgr_plain m : callsM plain (get_mgr m).
Proof. intros s. unfold get_mgr. case_match; [done|apply panic_plain]. Qed.

Lemma upd_mgr_plain m f : callsM plain (upd_mgr m f).
Proof. apply callsM_modify. Qed.

Lemma fresh_plain : callsM plain fresh.
Proof. done. Qed.

Lemma get_registry_plain : callsM plain get_registry.
Proof. intros s. unfold get_registry. case_match; [done|apply panic_plain]. Qed.
End props.

#[export] Hint Resolve panic_plain get_mgr_plain upd_mgr_plain fresh_plain get_registry_plain
  : calls.

Section quiet.
Context `{L : Lib}.

Lemma cancel_ctx_plain c : callsM plain (cancel_ctx c).
Proof. unfold cancel_ctx. solve_calls. Qed.
Lemma close_conn_plain c : callsM plain (close_conn c).
Proof. unfold close_conn. solve_calls. Qed.
Lemma spawn_all_plain l ev : callsM plain (spawn_all l ev).
Proof. induction l; simpl; solve_calls. Qed.
#[local] Hint Resolve cancel_ctx_plain close_conn_plain spawn_all_plain : calls.
Lemma notifyHandlers_plain m ev : callsM plain (notifyHandlers m ev).
Proof. unfold notifyHandlers. solve_calls. Qed.
#[local] Hint Resolve notifyHandlers_plain : calls.
Lemma establishConnection_plain m : callsM plain (establishConnection m).
Proof. unfold establishConnection. solve_calls. Qed.
Lemma transition_plain m e : callsM plain (transitionToReconnecting m e).
Proof. unfold transitionToReconnecting. solve_calls. Qed.
#[local] Hint Resolve establishConnection_plain transition_plain : calls.
Lemma Start_plain m : callsM plain (Start m).
Proof. unfold Start. solve_calls. Qed.
Lemma Close_plain m : callsM plain (Close m).
Proof. unfold Close. solve_calls. Qed.
Lemma Remove_plain a : callsM plain (Remove a).
Proof. unfold Remove. solve_calls. Qed.
Lemma NewManager_plain cfg : callsM plain (NewSSHConnectionManager cfg).
Proof. unfold NewSSHConnectionManager. solve_calls. Qed.
#[local] Hint Resolve Start_plain Close_plain Remove_plain NewManager_plain : calls.
Lemma GetOrCreate_plain cfg : callsM plain (GetOrCreate cfg).
Proof. unfold GetOrCreate. solve_calls. Qed.
Lemma cleanup_old_router_plain k a : callsM plain (cleanup_old_router k a).
Proof. unfold cleanup_old_router. solve_calls. Qed.
Lemma register_once_plain c k m : callsM plain (register_once c k m).
Proof. unfold register_once. solve_calls. Qed.
#[local] Hint Resolve GetOrCreate_plain cleanup_old_router_plain register_once_plain : calls.
Lemma getSSHManager_plain c : callsM plain (getSSHManager c).
Proof. unfold getSSHManager. solve_calls. Qed.

Lemma RunCommand_plain m cmd : callsM plain (RunCommand m cmd).
Proof. unfold RunCommand. solve_calls. Qed.
#[local] Hint Resolve RunCommand_plain : calls.
Lemma on_iface_plain {A} m i cmd (f : string → result string A) :
  callsM plain (on_iface m i cmd f).
Proof. unfold on_iface. solve_calls. Qed.
#[local] Hint Resolve on_iface_plain : calls.
Lemma InterfaceExists_plain m i : callsM plain (InterfaceExists m i).
Proof. apply on_iface_plain. Qed.
Lemma verify_ssh_plain c m : callsM plain (verify_ssh c m).
Proof.
  unfold verify_ssh, GetRouterUptime, InterfaceExists, IsInterfaceUp, IsUdhcpcRunning,
    IsProxyARPEnabled, drift. solve_calls.
Qed.
Lemma unregister_claim_plain c : callsM plain (unregister_claim c).
Proof. unfold unregister_claim. solve_calls. Qed.
Lemma remove_plain n ip : callsM plain (defaultRemoveIPFromPool n ip).
Proof. unfold defaultRemoveIPFromPool, remove_from. solve_calls. Qed.
Lemma ensure_plain n ip : callsM plain (defaultEnsureIPInPool n ip).
Proof. unfold defaultEnsureIPInPool, ensure_in. solve_calls. Qed.
#[local] Hint Resolve plain_quiet unregister_claim_plain : calls.
Lemma NewAgentClient_quiet a u k : callsM quiet (NewAgentClient a u k).
Proof. unfold NewAgentClient. solve_calls. Qed.
Lemma request_quiet method url b : method ≠ "POST" → callsM quiet (request method url b).
Proof.
  intros Hm. unfold request. apply callsM_bind; [solve_calls|]. intros []; [|solve_calls].
  apply callsM_bind; [by apply callsM_call|]. solve_calls.
Qed.
#[local] Hint Resolve verify_ssh_plain NewAgentClient_quiet : calls.
#[local] Hint Extern 1 (callsM quiet (request _ _ _)) => by apply request_quiet : calls.
Lemma GetLease_quiet ac i : callsM quiet (GetLease ac i).
Proof. unfold GetLease. solve_calls. Qed.
Lemma ReleaseLease_quiet ac i : callsM quiet (ReleaseLease ac i).
Proof. unfold ReleaseLease. solve_calls. Qed.
Lemma AgentClient_Close_quiet ac : callsM quiet (AgentClient_Close ac).
Proof. unfold AgentClient_Close. solve_calls. Qed.
Lemma judge_lease_quiet c l : callsM quiet (judge_lease c l).
Proof. unfold judge_lease. solve_calls. Qed.
#[local] Hint Resolve GetLease_quiet ReleaseLease_quiet AgentClient_Close_quiet
  judge_lease_quiet : calls.
Lemma verifyClaimState_quiet c m : callsM quiet (verifyClaimState c m).
Proof. unfold verifyClaimState. solve_calls. Qed.
Lemma defaultCleanup_quiet c : callsM quiet (defaultCleanupRouterInterface c).
Proof. unfold defaultCleanupRouterInterface. solve_calls. Qed.
Lemma cleanup_quiet c : callsM quiet (cleanupRouterInterface no_hooks c).
Proof. apply defaultCleanup_quiet. Qed.
End quiet.

#[export] Hint Resolve plain_quiet cancel_ctx_plain close_conn_plain spawn_all_plain
  notifyHandlers_plain establishConnection_plain transition_plain Start_plain Close_plain
  Remove_plain NewManager_plain GetOrCreate_plain cleanup_old_router_plain register_once_plain
  getSSHManager_plain RunCommand_plain on_iface_plain InterfaceExists_plain verify_ssh_plain
  unregister_claim_plain remove_plain ensure_plain
  NewAgentClient_quiet GetLease_quiet ReleaseLease_quiet AgentClient_Close_quiet
  judge_lease_quiet verifyClaimState_quiet defaultCleanup_quiet cleanup_quiet : calls.

(** Programs that do not write the claim; they may ask for a lease. *)
Section no_write.
Context `{L : Lib}.

Definition no_write X (e : OpE X) : Prop :=
  match e with UpdateClaim _ | StatusUpdate _ => False | _ => True end.

Lemma quiet_no_write {A} (m : OpM A) : callsM quiet m → callsM no_write m.
Proof. apply callsM_impl. by intros X []. Qed.

#[local] Hint Resolve quiet_no_write : calls.
Lemma runRouterScript_no_write c i mac : callsM no_write (runRouterScript no_hooks c i mac).
Proof.
  unfold runRouterScript, no_hooks; simpl.
  unfold defaultRunRouterScript, AllocateLease, request. solve_calls.
Qed.
Lemma ensure_no_write n ip : callsM no_write (ensureIPInPool no_hooks n ip).
Proof. apply quiet_no_write, plain_quiet, ensure_plain. Qed.
Lemma remove_no_write n ip : callsM no_write (removeIPFromPool no_hooks n ip).
Proof. apply quiet_no_write, plain_quiet, remove_plain. Qed.
End no_write.

#[export] Hint Resolve quiet_no_write runRouterScript_no_write ensure_no_write remove_no_write
  : calls.

(** ** What a history shows *)

Section evidence.
Context `{L : Lib}.

Definition hist : Type := list (event OpE).

Definition has_block (ip : string) (obj : uval) : bool :=
  existsb (is_block (cidr32 ip)) (default [] (NestedSlice obj blocks_path)).

(** The history shows pool [n] with [b] saying whether it has the block of
    [ip]: the pool was read like that, or was then written like that. *)
Definition pool_shows (b : bool) (n ip : string) (h : hist) : Prop :=
  ∃ v obj0, Ev (PoolGet v n) (Ok obj0) ∈ h ∧
    (has_block ip obj0 = b ∨
     ∃ obj x, Ev (PoolUpdate v obj) (Ok x) ∈ h ∧ GetName obj = GetName obj0 ∧
              has_block ip obj = b).

Definition pool_has := pool_shows true.

(** The version [v] of the API was asked for the pool and has none. *)
Definition pool_missing (v : GVR) (n : string) (h : hist) : Prop :=
  ∃ e, Ev (PoolGet v n) (Err e) ∈ h ∧ IsNotFound e = true.

(** The pool has no block of [ip], or exists in neither version. *)
Definition pool_lacks (n ip : string) (h : hist) : Prop :=
  pool_shows false n ip h ∨ (pool_missing gvrPoolV2 n h ∧ pool_missing gvrPoolV2a n h).

(** The agent granted a lease for [ip]. *)
Definition lease_granted (ip : string) (h : hist) : Prop :=
  ∃ url body resp lr, Ev (HttpDo "POST" url body) (Ok resp) ∈ h ∧
    StatusCode resp = StatusCreated ∧
    Decode upd_LeaseResponse zero_LeaseResponse (Body resp) = (lr, true) ∧
    lresp_IPAddress lr = ip.

(** The interface and MAC of the request [body] were stored in the claim's
    status before. *)
Definition persisted (body : option json) (h : hist) : Prop :=
  ∃ c1 c2, Ev (StatusUpdate c1) (Ok c2) ∈ h ∧
    body = Some (enc_LeaseRequest
      {| lr_Interface := WanInterface (Status c1); lr_WanParent := WanParent (router c2);
         lr_MACAddress := MacAddress (Status c1) |}).

Lemma pool_shows_app b n ip h t : pool_shows b n ip h → pool_shows b n ip (h ++ t).
Proof.
  intros (v & o & Hin & H). exists v, o. split; [set_solver|].
  destruct H as [?|(obj & x & ? & ?)]; [by left|right]. exists obj, x. split; [set_solver|done].
Qed.

Lemma lease_granted_app ip h t : lease_granted ip h → lease_granted ip (h ++ t).
Proof. intros (u & b & r & l & Hin & H). exists u, b, r, l. split; [set_solver|done]. Qed.

Lemma persisted_app b h t : persisted b h → persisted b (h ++ t).
Proof. intros (c1 & c2 & Hin & H). exists c1, c2. split; [set_solver|done]. Qed.

Lemma pool_lacks_app n ip h t : pool_lacks n ip h → pool_lacks n ip (h ++ t).
Proof.
  assert (∀ v, pool_missing v n h → pool_missing v n (h ++ t)) as Hm.
  { intros v (e & Hin & H). exists e. split; [set_solver|done]. }
  intros [H|[H1 H2]]; [left; by apply pool_shows_app|right]. auto.
Qed.
End evidence.

(** ** Evidence left by the sub-programs *)

(** Histories only grow. *)
Ltac grow := repeat apply prefix_app_r; first [reflexivity | eassumption].

(** A return whose postcondition says how the history grew. *)
Ltac hist_ret := rewrite ?wpM_ret; split; [grow|].

Section gather.
Context `{L : Lib} {LL : LibLaws L}.
Context (P : ∀ X, list (event OpE) → OpE X → Prop).
Hypothesis Pquiet : ∀ X h e, quiet X e → P X h e.

Lemma wp_panic {A} msg (Q : A → Op → hist → Prop) s h : wpM (proto P) (panic msg) Q s h.
Proof using Pquiet. split; [by apply Pquiet|]. intros []. Qed.

(** A quiet call: any answer, recorded in the history. *)
Lemma wp_quiet {X} (e : OpE X) (Q : X → Op → hist → Prop) s h :
  quiet X e → (∀ x, Q x s (h ++ [Ev e x])) → wpM (proto P) (call e) Q s h.
Proof using Pquiet. intros He HQ. split; [by apply Pquiet|]. intros x h' ->. apply HQ. Qed.

(** A quiet program: any result, and the history grows. *)
Lemma wp_quietM {A} (m : OpM A) (Q : A → Op → hist → Prop) s h :
  callsM quiet m → (∀ a s' t, Q a s' (h ++ t)) → wpM (proto P) m Q s h.
Proof using Pquiet. intros Hm HQ. eapply callsM_wp; eauto. Qed.

Lemma remove_blocks_all cidr l acc rm res :
  remove_blocks cidr l acc rm = Some res → all_maps l.
Proof.
  revert acc rm. induction l as [|b l IH]; intros acc rm H; [constructor|].
  destruct b as [| | | | |m]; simplify_eq/=. constructor; [by eauto|].
  destruct (has_cidr cidr m); eapply IH; eauto.
Qed.

Lemma find_block_existsb cidr l b :
  find_block cidr l = Some b → b = true → existsb (is_block cidr) l = true.
Proof.
  induction l as [|x l IH]; simpl; [by intros [= <-]|].
  destruct x as [| | | | |m]; try done. simpl. destruct (has_cidr cidr m); [reflexivity|auto].
Qed.

Lemma ensure_has n ip s h :
  wpM (proto P) (defaultEnsureIPInPool n ip)
    (λ r s' h', h `prefix_of` h' ∧ (is_ok r = true → pool_has n ip h')) s h.
Proof using LL Pquiet.
  assert (∀ v h0 s, h `prefix_of` h0 → wpM (proto P) (ensure_in v n ip)
    (λ r s' h', h `prefix_of` h' ∧ (is_ok r = true → pool_has n ip h')) s h0) as Hin.
  { clear s. intros v h0 s Hpre. unfold ensure_in. rewrite wpM_bind. apply wp_quiet; [done|].
    intros [pool|e]; [|by hist_ret].
    destruct (find_block _ _) as [[]|] eqn:Hf; [| |apply wp_panic].
    - hist_ret. intros _. exists v, pool. split; [set_solver|]. left. by eapply find_block_existsb.
    - destruct (SetNestedSlice _ _ _) as [pool'|e] eqn:Hset;
        [|by hist_ret].
      rewrite wpM_bind. apply wp_quiet; [done|].
      intros [o|e]; hist_ret; [|done]. intros _. exists v, pool. split; [set_solver|]. right. exists pool', o.
      split; [set_solver|]. split; [by eapply set_blocks_name|].
      unfold has_block. rewrite (set_blocks_get _ _ _ Hset). simpl.
      rewrite existsb_app. simpl. by rewrite has_cidr_new, orb_true_r. }
  unfold defaultEnsureIPInPool. rewrite wpM_bind. apply wp_quiet; [done|].
  intros [pool|e]; [apply Hin; grow|].
  destruct (IsNotFound e); [apply Hin; grow|by hist_ret].
Qed.

Lemma remove_from_lacks v pool n ip s h :
  Ev (PoolGet v n) (Ok pool) ∈ h →
  wpM (proto P) (remove_from v pool n ip)
    (λ r s' h', h `prefix_of` h' ∧ (is_ok r = true → pool_lacks n ip h')) s h.
Proof using LL Pquiet.
  intros Hin. unfold remove_from.
  assert (∀ l, NestedSlice pool blocks_path = l →
    existsb (is_block (cidr32 ip)) (default [] l) = false → pool_lacks n ip h) as Hno.
  { intros l Hl Hb. left. exists v, pool. split; [done|]. left. unfold has_block. by rewrite Hl. }
  destruct (NestedSlice pool blocks_path) as [l|] eqn:Hl.
  2:{ hist_ret. eauto. }
  destruct l as [|b l]; [hist_ret; eauto|].
  destruct (remove_blocks _ _ _ _) as [[res []]|] eqn:Hr; [| |apply wp_panic].
  - pose proof (remove_blocks_all _ _ _ _ _ Hr) as Hm. rewrite remove_blocks_spec in Hr by done.
    injection Hr as <- _.
    destruct (SetNestedSlice _ _ _) as [pool'|e] eqn:Hset;
      [|by hist_ret].
    rewrite wpM_bind. apply wp_quiet; [done|].
    intros [o|e]; hist_ret; [|done]. intros _. left. exists v, pool. split; [set_solver|]. right. exists pool', o.
    split; [set_solver|]. split; [by eapply set_blocks_name|].
    unfold has_block. rewrite (set_blocks_get _ _ _ Hset).
    exact (existsb_filter_neg (cidr32 ip) (b :: l)).
  - pose proof (remove_blocks_all _ _ _ _ _ Hr) as Hm. rewrite remove_blocks_spec in Hr by done.
    injection Hr as _ Hb. hist_ret. eauto.
Qed.

Lemma remove_lacks n ip s h :
  ip ≠ "" →
  wpM (proto P) (defaultRemoveIPFromPool n ip)
    (λ r s' h', h `prefix_of` h' ∧ (is_ok r = true → pool_lacks n ip h')) s h.
Proof using LL Pquiet.
  intros Hip. unfold defaultRemoveIPFromPool. rewrite decide_False by done.
  rewrite wpM_bind. apply wp_quiet; [done|]. intros [pool|e].
  - eapply wpM_mono; [apply remove_from_lacks; set_solver|].
    intros r s' h' [Hp H]. split; [|done]. etrans; [|exact Hp]. grow.
  - destruct (IsNotFound e) eqn:Hnf0; [|by hist_ret].
    rewrite wpM_bind. apply wp_quiet; [done|]. intros [pool|e'].
    + eapply wpM_mono; [apply remove_from_lacks; set_solver|].
      intros r s' h' [Hp H]. split; [|done]. etrans; [|exact Hp]. grow.
    + destruct (IsNotFound e') eqn:Hnf; hist_ret; [|done]. intros _. right.
      split; [exists e|exists e']; (split; [set_solver|done]).
Qed.

Lemma AllocateLease_granted ac i w mac s h :
  (∀ t url, P _ (h ++ t) (HttpDo "POST" url (Some (enc_LeaseRequest
     {| lr_Interface := i; lr_WanParent := w; lr_MACAddress := mac |})))) →
  wpM (proto P) (AllocateLease ac i w mac)
    (λ r s' h', h `prefix_of` h' ∧ ∀ ip, r = Ok ip → lease_granted ip h') s h.
Proof using Pquiet.
  intros Hpost. unfold AllocateLease, request. rewrite !wpM_bind. apply wp_quiet; [done|].
  intros [[]|e]; [|by hist_ret].
  rewrite wpM_bind, wpM_call. split; [apply Hpost|]. intros [resp|e] h' ->;
    [|by hist_ret].
  rewrite wpM_ret. cbv beta.
  destruct (decide (StatusCode resp ≠ StatusCreated));
    [by hist_ret|].
  destruct (Decode _ _ _) as [lr []] eqn:Hd; hist_ret; [|done].
  intros ip [= <-]. eexists _, _, resp, lr. split; [apply elem_of_last|].
  split; [lia|]. done.
Qed.
End gather.

(** ** The protocol of a reconciliation *)

Section protocol.
Context `{L : Lib} {LL : LibLaws L}.

(** What [Reconcile], started on claim [c0], may do given what it has seen:
    - release the claim (the update that follows a deletion) only when the
      pool has no block of its address left;
    - ask the agent for a lease only for a claim that is not being deleted and
      has no interface yet, and only after the interface and MAC are stored;
    - declare an address assigned and the claim Ready only when the agent
      granted the address, it is a valid IP and the pool has its block. *)
Definition claim_protocol (c0 : PublicIPClaim) X (h : list (event OpE)) (e : OpE X) : Prop :=
  match e with
  | UpdateClaim _ =>
    deleting c0 = true → AssignedIP (Status c0) ≠ "" →
    pool_lacks (PoolName (Spec c0)) (AssignedIP (Status c0)) h
  | HttpDo method _ body =>
    method = "POST" →
    deleting c0 = false ∧ WanInterface (Status c0) = "" ∧
    Phase (Status c0) ≠ ClaimPhaseFailed ∧ persisted body h
  | StatusUpdate c' =>
    Phase (Status c') = ClaimPhaseReady → AssignedIP (Status c') ≠ "" →
    is_Some (ParseIP (AssignedIP (Status c'))) ∧ lease_granted (AssignedIP (Status c')) h ∧
    pool_has (PoolName (Spec c')) (AssignedIP (Status c')) h
  | _ => True
  end.

Lemma claim_protocol_quiet c0 X h (e : OpE X) : quiet X e → claim_protocol c0 X h e.
Proof. by destruct e; simpl. Qed.

(** The trivial postcondition. *)
Definition anyQ {A} : A → Op → list (event OpE) → Prop := λ _ _ _, True.

(** A status write of a claim that is not both Ready and assigned. *)
Lemma wp_status c0 (c : PublicIPClaim) (Q : result apierr PublicIPClaim → Op → hist → Prop) s h :
  Phase (Status c) ≠ ClaimPhaseReady ∨ AssignedIP (Status c) = "" →
  (∀ r, Q r s (h ++ [Ev (StatusUpdate c) r])) →
  wpM (proto (claim_protocol c0)) (call (StatusUpdate c)) Q s h.
Proof.
  intros Hc HQ. split; [simpl; intuition|]. intros x h' ->. apply HQ.
Qed.

Lemma fail_protocol c0 c e s h : wpM (proto (claim_protocol c0)) (fail c e) anyQ s h.
Proof.
  unfold fail. rewrite wpM_bind. apply wp_status; [by left|]. by intros [].
Qed.

Lemma delete_protocol c s h :
  deleting c = true →
  wpM (proto (claim_protocol c)) (reconcile_delete no_hooks c) anyQ s h.
Proof.
  intros Hd. unfold reconcile_delete. case_match; [|done].
  rewrite wpM_bind. eapply wp_quietM; [apply claim_protocol_quiet|solve [eauto with calls]|].
  intros [[]|e] s1 t1; [|done]. rewrite wpM_bind.
  case_decide as Hip.
  - rewrite wpM_ret, wpM_bind, wpM_call. split; [simpl; congruence|]. by intros [].
  - eapply wpM_mono; [apply remove_lacks; [apply claim_protocol_quiet|done]|].
    intros [[]|e] s2 h2 [Hp Hl]; [|done]. rewrite wpM_bind, wpM_call.
    split; [simpl; intros _ _; by apply Hl|]. by intros [].
Qed.

Lemma clear_event_protocol c0 c s h :
  deleting c0 = false → wpM (proto (claim_protocol c0)) (clear_event c) anyQ s h.
Proof.
  intros Hd. unfold clear_event. rewrite wpM_bind, wpM_call. split; [simpl; congruence|done].
Qed.

Lemma event_protocol c0 c s h :
  deleting c0 = false → wpM (proto (claim_protocol c0)) (reconcile_event c) anyQ s h.
Proof.
  intros Hd. unfold reconcile_event. rewrite wpM_bind.
  eapply wp_quietM; [apply claim_protocol_quiet|solve [eauto with calls]|].
  intros [[m|e] c'] s1 t1; [|by apply clear_event_protocol].
  case_decide; [by apply clear_event_protocol|]. rewrite wpM_bind.
  eapply wp_quietM; [apply claim_protocol_quiet|solve [eauto with calls]|].
  intros r s2 t2.
  assert (∀ s h, wpM (proto (claim_protocol c0))
    (u ← call (StatusUpdate (clear_after_event (default "" (Annotations c !! ann_reason)) c'));
     match u with Err e => mret (no_requeue, Some (err_msg e)) | Ok c' => clear_event c' end)
    anyQ s h) as Hclear.
  { intros s0 h0. rewrite wpM_bind. apply wp_status; [by left|].
    intros [c2|e]; [by apply clear_event_protocol|done]. }
  destruct r as [[]|e]; [by apply clear_event_protocol|apply Hclear|apply Hclear].
Qed.

Lemma verify_protocol c0 c s h :
  wpM (proto (claim_protocol c0)) (reconcile_verify no_hooks c) anyQ s h.
Proof.
  unfold reconcile_verify. rewrite wpM_bind.
  eapply wp_quietM; [apply claim_protocol_quiet|solve [eauto with calls]|].
  intros [[m|e] c'] s1 t1; [|rewrite wpM_bind; by apply wp_quiet; [apply claim_protocol_quiet|..]].
  rewrite wpM_bind. eapply wp_quietM; [apply claim_protocol_quiet|solve [eauto with calls]|].
  intros [[[]|e] c2] s2 t2; [done|]. rewrite wpM_bind. apply wp_status; [by left|].
  intros [c3|e']; [|done]. rewrite wpM_bind.
  case_decide; [done|].
  by eapply wp_quietM; [apply claim_protocol_quiet|apply plain_quiet, remove_plain|].
Qed.

Lemma runRouterScript_protocol c0 c wanIf mac s h :
  (∀ t url, claim_protocol c0 _ (h ++ t) (HttpDo "POST" url (Some (enc_LeaseRequest
     {| lr_Interface := wanIf; lr_WanParent := WanParent (router c); lr_MACAddress := mac |})))) →
  wpM (proto (claim_protocol c0)) (runRouterScript no_hooks c wanIf mac)
    (λ r s' h', h `prefix_of` h' ∧ ∀ ip, r = Ok ip → lease_granted ip h') s h.
Proof.
  intros Hpost. change (runRouterScript no_hooks c wanIf mac)
    with (defaultRunRouterScript c wanIf mac). unfold defaultRunRouterScript.
  rewrite wpM_bind. apply wp_quiet; [apply claim_protocol_quiet|done|].
  intros [data|e]; [|by hist_ret]. case_decide; [by hist_ret|].
  destruct (ParsePrivateKey (id_rsa data)); [|by hist_ret].
  rewrite wpM_bind. eapply wp_quietM; [apply claim_protocol_quiet|solve [eauto with calls]|].
  intros [ac|e] s1 t1; [|by hist_ret]. rewrite wpM_bind.
  eapply wpM_mono; [apply AllocateLease_granted; [apply claim_protocol_quiet|]|].
  { intros t url. rewrite <-!app_assoc. apply Hpost. }
  intros r s2 h2 [Hp Hg]. rewrite wpM_bind. apply wp_quiet; [apply claim_protocol_quiet|done|].
  intros []. assert (h `prefix_of` h2) by (etrans; [|exact Hp]; grow).
  destruct r as [ip|e]; hist_ret; [|done]. intros ip' [= <-].
  by apply lease_granted_app, Hg.
Qed.

Lemma allocate_protocol c0 c wanIf mac s h :
  deleting c0 = false → WanInterface (Status c0) = "" →
  Phase (Status c0) ≠ ClaimPhaseFailed →
  persisted (Some (enc_LeaseRequest {| lr_Interface := wanIf;
    lr_WanParent := WanParent (router c); lr_MACAddress := mac |})) h →
  wpM (proto (claim_protocol c0)) (allocate no_hooks c wanIf mac) anyQ s h.
Proof.
  intros Hd Hw Hph Hper. unfold allocate. rewrite wpM_bind.
  eapply wpM_mono; [apply runRouterScript_protocol|].
  { simpl. intros t url _. auto using persisted_app. }
  intros [ip|e] s1 h1 [Hp1 Hg]; [|apply fail_protocol]. specialize (Hg ip eq_refl).
  destruct (ParseIP ip) eqn:Hip; [|apply fail_protocol]. rewrite wpM_bind.
  eapply wpM_mono; [apply ensure_has, claim_protocol_quiet|].
  intros [[]|e] s2 h2 [[t ->] Hhas]; [|apply fail_protocol]. specialize (Hhas eq_refl).
  rewrite wpM_bind. apply wp_quiet; [apply claim_protocol_quiet|done|]. intros now.
  rewrite wpM_bind, wpM_call. split.
  { simpl. intros _ _. rewrite Hip. split; [done|].
    split; [by apply lease_granted_app, lease_granted_app|by apply pool_shows_app]. }
  intros [c'|e] h3 ->; [|done].
  rewrite wpM_bind. by apply wp_quiet; [apply claim_protocol_quiet|..].
Qed.

(** [Reconcile] follows the protocol on every claim and in every memory. *)
Lemma reconcile_claim_protocol c s :
  wpM (proto (claim_protocol c)) (reconcile_claim no_hooks c) anyQ s [].
Proof.
  unfold reconcile_claim. destruct (deleting c) eqn:Hd; [by apply delete_protocol|].
  destruct (negb _).
  { unfold reconcile_finalizer. rewrite wpM_bind, wpM_call. split; [simpl; congruence|].
    by intros []. }
  destruct (event_pending c); [by apply event_protocol|].
  destruct (bool_decide (Phase _ = _) && _) eqn:Hr; [apply verify_protocol|].
  destruct (bool_decide (WanInterface _ ≠ _) && _) eqn:Hw; [done|].
  destruct (bool_decide (Phase _ = ClaimPhaseFailed)) eqn:Hf; [done|].
  apply bool_decide_eq_false in Hf.
  assert (WanInterface (Status c) = "") as Hwan.
  { apply andb_false_iff in Hw as [Hw|Hw]; apply bool_decide_eq_false in Hw;
      destruct (decide (WanInterface (Status c) = "")); naive_solver. }
  destruct (missing_field (Spec c)); [apply fail_protocol|].
  unfold reconcile_allocate. rewrite wpM_bind.
  set (wanIf := if decide (Spec_WanInterface (router c) = "") then _ else _).
  assert (∀ mac s h, wpM (proto (claim_protocol c))
    (u ← call (StatusUpdate (set_status (st_mac mac ∘ st_wan wanIf) c));
     match u with Err e => mret (no_requeue, Some (err_msg e))
     | Ok c' => allocate no_hooks c' wanIf mac end) anyQ s h) as Halloc.
  { intros mac s0 h0. rewrite wpM_bind. apply wp_status.
    - simpl. apply andb_false_iff in Hr as [Hr|Hr]; apply bool_decide_eq_false in Hr; [by left|].
      right. destruct (decide (AssignedIP (Status c) = "")); naive_solver.
    - intros [c'|e]; [|done]. apply allocate_protocol; try done.
      eexists _, c'. split; [apply elem_of_last|done]. }
  destruct (decide (Spec_MacAddress (router c) = "")); [|apply Halloc]. rewrite wpM_bind.
  apply wp_quiet; [apply claim_protocol_quiet|done|]. intros buf. apply Halloc.
Qed.
End protocol.
