(* ===== verification/ReconcileProps.v ===== *)
(** * What a reconciliation guarantees

    The properties of [Reconcile] as a whole.  The safety properties are
    stated on partial executions ([steps]), so they also hold of a run that is
    cut short by a crash, a panic or a call that never returns, and they assume
    nothing of the API server, the router or the agent. *)

From Stdlib Require Import SpecFloat.
From S2P Require Import Prelude Effects GoStd Helpers Json Http ClaimTypes Env Pool SshManager Sim.
From S2P Require Import SshCommands Registry AgentClient Controller ControllerProps.

Local Open Scope Z_scope.

Section safety.
Context `{L : Lib} {LL : LibLaws L}.

(** C1: the finalizer is removed only after the address has left the pool.
    Whenever a reconciliation of a claim that is being deleted and had an
    address updates the claim (that update drops the finalizer and lets the
    API server delete the object), the calls made before show that the pool
    has no block of that address: it was read without it, or written without
    it, or does not exist under either API version. *)
Theorem finalizer_removed_after_pool_cleaned c s tr p' i c' r :
  steps (reconcile_claim no_hooks c s) tr p' →
  deleting c = true → AssignedIP (Status c) ≠ "" →
  tr !! i = Some (Ev (UpdateClaim c') r) →
  pool_lacks (PoolName (Spec c)) (AssignedIP (Status c)) (take i tr).
Proof.
  intros Hs Hd Hip Hi.
  exact (wp_steps _ _ _ _ _ _ (reconcile_claim_protocol c s) Hs i _ Hi Hd Hip).
Qed.

(** C2: at most one allocation, for names that are stored.  A lease is
    requested only for a claim that is not being deleted, has not failed and
    has no interface yet, and only after the interface name and the MAC
    address of the request were written to the claim's status. *)
Theorem lease_requested_after_persist c s tr p' i url body r :
  steps (reconcile_claim no_hooks c s) tr p' →
  tr !! i = Some (Ev (HttpDo "POST" url body) r) →
  deleting c = false ∧ WanInterface (Status c) = "" ∧
  Phase (Status c) ≠ ClaimPhaseFailed ∧ persisted body (take i tr).
Proof.
  intros Hs Hi.
  exact (wp_steps _ _ _ _ _ _ (reconcile_claim_protocol c s) Hs i _ Hi eq_refl).
Qed.

(** C3: a claim is declared Ready with an address only when the address is
    real.  Every status the reconciler writes with phase Ready and an address
    follows a 201 answer of the agent that granted exactly this address, the
    address parses as an IP, and the pool was seen or made to contain its /32
    block. *)
Theorem ready_status_justified c s tr p' i c' r :
  steps (reconcile_claim no_hooks c s) tr p' →
  tr !! i = Some (Ev (StatusUpdate c') r) →
  Phase (Status c') = ClaimPhaseReady → AssignedIP (Status c') ≠ "" →
  is_Some (ParseIP (AssignedIP (Status c'))) ∧
  lease_granted (AssignedIP (Status c')) (take i tr) ∧
  pool_has (PoolName (Spec c')) (AssignedIP (Status c')) (take i tr).
Proof.
  intros Hs Hi Hph Hip.
  exact (wp_steps _ _ _ _ _ _ (reconcile_claim_protocol c s) Hs i _ Hi Hph Hip).
Qed.
End safety.

(** ** Branches of [Reconcile] *)

Section branches.
Context `{L : Lib}.

(** A claim past the finalizer step with no router event waiting. *)
Definition settled (c : PublicIPClaim) : Prop :=
  deleting c = false ∧ ContainsFinalizer (Finalizers c) finalizerName = true ∧
  event_pending c = false.

(** A Failed claim is never retried.  The reconciler makes no call at all
    for it, whatever is in its status: it only asks to be called again in five
    minutes, when the same happens. *)
Theorem failed_claim_absorbing hk c s :
  settled c → Phase (Status c) = ClaimPhaseFailed →
  reconcile_claim hk c s = Ret ((requeue_after (5 * Minute), None), s).
Proof.
  intros (Hd & Hf & He) Hp. unfold reconcile_claim.
  rewrite Hd, Hf, He, Hp. simpl. by rewrite andb_false_r.
Qed.

(** A claim whose interface name is stored but which is neither Failed
    nor Ready with an address is left alone for good: no call is made and no
    further reconciliation is scheduled. *)
Theorem in_progress_claim_never_resumed hk c s :
  settled c → WanInterface (Status c) ≠ "" → Phase (Status c) ≠ ClaimPhaseFailed →
  ¬ (Phase (Status c) = ClaimPhaseReady ∧ AssignedIP (Status c) ≠ "") →
  reconcile_claim hk c s = Ret ((no_requeue, None), s).
Proof.
  intros (Hd & Hf & He) Hw Hp Hr. unfold reconcile_claim. rewrite Hd, Hf, He. simpl.
  rewrite <-bool_decide_and, (bool_decide_false _ Hr), !bool_decide_true by done. done.
Qed.

(** The required fields, in the order they are checked. *)
Definition required (sp : PublicIPClaimSpec) : list string :=
  [PoolName sp; Host (Router sp); SSHSecretRef (Router sp); User (Router sp);
   WanParent (Router sp); Command (Router sp)].

Lemma missing_field_spec sp : is_Some (missing_field sp) ↔ "" ∈ required sp.
Proof.
  unfold missing_field, required. repeat case_decide; simplify_eq/=.
  1-6: split; [intros _; set_solver|by eauto].
  split; [by intros []|set_solver].
Qed.

Lemma fail_spec c e s :
  wpM (proto anything) (fail c e) (λ out s' tr, ∃ r, s' = s ∧
    tr = [Ev (StatusUpdate (set_status (st_message e ∘ st_phase ClaimPhaseFailed) c)) r] ∧
    out = (no_requeue, Some (match r with Ok _ => e | Err x => err_msg x end))) s [].
Proof.
  unfold fail. apply wpM_bind, wpM_call. split; [done|]. intros r h ->.
  destruct r; eexists _; split_and!; reflexivity.
Qed.

(** An incomplete spec is rejected before anything is touched.  For a new
    claim with an empty required field the one call of the reconciliation is
    the status write that marks it Failed with the message it returns: no
    secret is read, no router contacted and no name chosen. *)
Theorem incomplete_spec_rejected hk c s tr out s' :
  settled c → Phase (Status c) ≠ ClaimPhaseReady → Phase (Status c) ≠ ClaimPhaseFailed →
  WanInterface (Status c) = "" → "" ∈ required (Spec c) →
  runs (reconcile_claim hk c s) tr (out, s') →
  ∃ e r, missing_field (Spec c) = Some e ∧ s' = s ∧
    tr = [Ev (StatusUpdate (set_status (st_message e ∘ st_phase ClaimPhaseFailed) c)) r] ∧
    out = (no_requeue, Some (match r with Ok _ => e | Err x => err_msg x end)).
Proof.
  intros (Hd & Hf & He) Hp1 Hp2 Hw Hreq. unfold reconcile_claim.
  rewrite Hd, Hf, He, Hw, (bool_decide_false _ Hp1), (bool_decide_false _ Hp2). simpl.
  apply missing_field_spec in Hreq as [e ->]. intros Hr.
  destruct (wpM_trace _ _ _ _ _ _ (fail_spec c e s) Hr) as (r & ? & ? & ?). by exists e, r.
Qed.
End branches.

(** ** The router's uptime is not remembered *)

Section uptime.
Context `{L : Lib}.

(** The API server answers a status write with the uptime it was given. *)
Definition stores_uptime X (e : OpE X) : X → Prop :=
  match e in OpE X return X → Prop with
  | StatusUpdate c => λ r, match r with
                           | Ok c' => RouterUptime (Status c') = RouterUptime (Status c)
                           | Err _ => True
                           end
  | _ => λ _, True
  end.

Definition writes_no_uptime X (e : OpE X) : Prop :=
  match e with StatusUpdate c => RouterUptime (Status c) = 0 | _ => True end.

Abbreviation Σup := (rg stores_uptime writes_no_uptime).

Lemma up_silent {A} (m : OpM A) (Q : A → Op → unit → Prop) s :
  callsM no_write m → (∀ a s', Q a s' tt) → wpM Σup m Q s tt.
Proof.
  intros Hm HQ. eapply callsM_any; [exact Hm|by intros X []|]. intros a s' []. apply HQ.
Qed.

(** Skip a program that does not write the claim. *)
Ltac up_skip := rewrite ?wpM_bind; apply up_silent; [solve [solve_calls]|].

(** A status write of uptime zero, answered as the server answers. *)
Lemma up_status c (Q : result apierr PublicIPClaim → Op → unit → Prop) s :
  RouterUptime (Status c) = 0 →
  (∀ r, (∀ c', r = Ok c' → RouterUptime (Status c') = 0) → Q r s tt) →
  wpM Σup (call (StatusUpdate c)) Q s tt.
Proof.
  intros Hc HQ. split; [done|]. intros [c'|e] [] H; apply HQ; [|done].
  intros ? [= <-]. simpl in H. congruence.
Qed.

Lemma up_fail c e s : RouterUptime (Status c) = 0 → wpM Σup (fail c e) (λ _ _ _, True) s tt.
Proof. intros Hc. unfold fail. rewrite wpM_bind. apply up_status; [done|]. by intros [] _. Qed.

(** [getSSHManager] changes nothing of the status but the connection state. *)
Lemma up_manager c s :
  wpM Σup (getSSHManager c) (λ r _ _, RouterUptime (Status r.2) = RouterUptime (Status c)) s tt.
Proof.
  unfold getSSHManager. rewrite wpM_bind, wpM_gets. case_match; [|done].
  up_skip. intros [data|e] s1; [|done]. case_decide; [done|]. case_match; [|done].
  up_skip. intros [m|e] s2; [|done]. do 8 (up_skip; intros ??). done.
Qed.

Lemma up_allocate c wanIf mac s :
  RouterUptime (Status c) = 0 → wpM Σup (allocate no_hooks c wanIf mac) (λ _ _ _, True) s tt.
Proof.
  intros Hc. unfold allocate. up_skip. intros [ip|e] s1; [|by apply up_fail].
  case_match; [|by apply up_fail]. up_skip. intros [[]|e] s2; [|by apply up_fail].
  up_skip. intros now s3. rewrite wpM_bind. apply up_status; [done|].
  intros [c'|e] _; [|done]. up_skip. done.
Qed.

Lemma up_event c s :
  RouterUptime (Status c) = 0 → wpM Σup (reconcile_event c) (λ _ _ _, True) s tt.
Proof.
  assert (∀ c s, wpM Σup (clear_event c) (λ _ _ _, True) s tt) as Hclear by done.
  intros Hc. unfold reconcile_event. rewrite wpM_bind.
  eapply wpM_mono; [apply up_manager|]. intros [[m|e] c'] s1 [] Hc'; [|apply Hclear].
  case_decide; [apply Hclear|]. up_skip.
  assert (∀ s, wpM Σup (u ← call (StatusUpdate (clear_after_event
      (default "" (Annotations c !! ann_reason)) c'));
    match u with Err e => mret (no_requeue, Some (err_msg e)) | Ok c' => clear_event c' end)
    (λ _ _ _, True) s tt) as Hev.
  { intros s2. rewrite wpM_bind. apply up_status; [done|]. by intros [c2|e] _. }
  intros [[]|e] s2; [apply Hclear|apply Hev|apply Hev].
Qed.

Lemma up_verify c s :
  RouterUptime (Status c) = 0 → wpM Σup (reconcile_verify no_hooks c) (λ _ _ _, True) s tt.
Proof.
  intros Hc. unfold reconcile_verify. rewrite wpM_bind.
  eapply wpM_mono; [apply up_manager|]. intros [[m|e] c'] s1 [] Hc'; [|by up_skip].
  up_skip. intros [[[]|e] c2] s2; [done|]. rewrite wpM_bind. apply up_status; [done|].
  intros [c3|e'] _; [|done]. rewrite wpM_bind. case_decide; [done|]. by up_skip.
Qed.

Lemma up_reconcile c s :
  RouterUptime (Status c) = 0 → wpM Σup (reconcile_claim no_hooks c) (λ _ _ _, True) s tt.
Proof.
  intros Hc. unfold reconcile_claim. destruct (deleting c).
  { unfold reconcile_delete. case_match; [|done]. up_skip. intros [[]|e] s1; [|done].
    up_skip. intros [[]|e] s2; [|done]. rewrite wpM_bind, wpM_call. split; [done|]. by intros []. }
  destruct (negb _).
  { unfold reconcile_finalizer. rewrite wpM_bind, wpM_call. split; [done|]. by intros []. }
  destruct (event_pending c); [by apply up_event|].
  destruct (_ && _); [by apply up_verify|]. destruct (_ && _); [done|].
  destruct (bool_decide _); [done|]. destruct (missing_field _); [by apply up_fail|].
  unfold reconcile_allocate. up_skip. intros mac s1. rewrite wpM_bind.
  apply up_status; [done|]. intros [c'|e] H; [|done]. apply up_allocate. by apply H.
Qed.

(** C34: the router's uptime is never recorded, so the uptime comparison that
    should detect a reboot between two verifications never fires.  With an API
    server that answers status writes with what was written, every status the
    reconciler writes for a claim of uptime 0 has uptime 0 again, whatever the
    router reports, and against that baseline no uptime looks like a reset. *)
Theorem router_uptime_never_recorded c s tr p' :
  RouterUptime (Status c) = 0 →
  steps (reconcile_claim no_hooks c s) tr p' → Forall (ans_sat stores_uptime) tr →
  Forall (ev_sat writes_no_uptime) tr ∧
  ∀ now, uptime_reset (RouterUptime (Status c)) now = false.
Proof.
  intros Hc Hs Htr. split.
  - exact (rg_steps _ _ _ _ _ _ (up_reconcile c s Hc) Hs Htr).
  - intros now. by rewrite Hc.
Qed.
End uptime.

(** ** The properties above on concrete runs *)

(** The trace of deleting the sample claim from a pool that has its block. *)
Definition deletion_trace : list (event OpE) :=
  sim_trace (reconcile_claim no_hooks demo_deleted) demo_memory
    (demo_world [demo_block "203.0.113.45/32"]).

(** The trace of a first allocation. *)
Definition allocation_trace : list (event OpE) :=
  sim_trace (reconcile_claim no_hooks demo_claim) demo_memory (demo_world []).

(** The claim after the two writes of its status. *)
Definition demo_named : PublicIPClaim :=
  set_status (st_mac "02:ab:ab:ab:ab:ab" ∘ st_wan "wan-ip-wan-001") demo_claim.
Definition demo_assigned : PublicIPClaim :=
  assigned "203.0.113.45" 1735689600000000000 demo_named.

Lemma finalizer_removed_after_pool_cleaned_witness :
  pool_lacks "public-pool" "203.0.113.45" (take 8 deletion_trace).
Proof.
  exact (finalizer_removed_after_pool_cleaned demo_deleted demo_memory deletion_trace _ 8
    (set_finalizers [] demo_deleted) (Ok (set_finalizers [] demo_deleted))
    (sim_steps _ _ _) eq_refl ltac:(done) ltac:(vm_compute; reflexivity)).
Defined.

Lemma lease_requested_after_persist_witness :
  persisted (Some (enc_LeaseRequest {| lr_Interface := "wan-ip-wan-001"; lr_WanParent := "eth9";
    lr_MACAddress := "02:ab:ab:ab:ab:ab" |})) (take 6 allocation_trace).
Proof.
  eapply (lease_requested_after_persist demo_claim demo_memory allocation_trace _ 6);
    [apply sim_steps|vm_compute; reflexivity].
Defined.

Lemma ready_status_justified_witness :
  lease_granted "203.0.113.45" (take 12 allocation_trace) ∧
  pool_has "public-pool" "203.0.113.45" (take 12 allocation_trace).
Proof.
  eapply (ready_status_justified demo_claim demo_memory allocation_trace _ 12 demo_assigned
    (Ok demo_assigned)); [apply sim_steps|vm_compute; reflexivity|done|done].
Defined.

(** The sample claim in other phases. *)
Definition demo_failed : PublicIPClaim := set_status (st_phase ClaimPhaseFailed) demo_claim.
Definition demo_incomplete : PublicIPClaim :=
  {| Name := Name demo_claim; Namespace := ""; Generation := 1; DeletionTimestamp := None;
     Finalizers := Finalizers demo_claim; Annotations := ∅;
     Spec := {| PoolName := ""; Router := demo_router |}; Status := emptyStatus |}.

(** An API server that refuses the write of a Ready status. *)
Definition refusing_world : SimW :=
  {| w_claims := ∅; w_secrets := w_secrets (demo_world []); w_pools := w_pools (demo_world []);
     w_ip := "203.0.113.45"; w_leases := ∅; w_status_fails := true |}.

(** What is stored after one reconciliation there. *)
Definition stuck_claim : option PublicIPClaim :=
  '(_, _, w) ← sim_result (reconcile_claim no_hooks demo_claim) demo_memory refusing_world;
  w_claims w !! "ip-wan-001".

Lemma failed_claim_absorbing_witness :
  reconcile_claim no_hooks demo_failed demo_memory
  = Ret ((requeue_after (5 * Minute), None), demo_memory).
Proof.
  apply (failed_claim_absorbing no_hooks demo_failed demo_memory);
    [repeat split; vm_compute; reflexivity|reflexivity].
Defined.

(** A refused status write after the lease was granted leaves such a claim. *)
Lemma in_progress_claim_never_resumed_witness :
  stuck_claim = Some demo_named ∧
  reconcile_claim no_hooks demo_named demo_memory = Ret ((no_requeue, None), demo_memory).
Proof.
  split; [vm_compute; reflexivity|].
  apply (in_progress_claim_never_resumed no_hooks demo_named demo_memory);
    [repeat split; vm_compute; reflexivity|discriminate|discriminate|by intros [? _]].
Defined.

Lemma incomplete_spec_rejected_witness :
  ∃ r, sim_trace (reconcile_claim no_hooks demo_incomplete) demo_memory (demo_world [])
       = [Ev (StatusUpdate (set_status (st_message "spec.poolName is required"
                                        ∘ st_phase ClaimPhaseFailed) demo_incomplete)) r].
Proof.
  destruct (incomplete_spec_rejected no_hooks demo_incomplete demo_memory
    (sim_trace (reconcile_claim no_hooks demo_incomplete) demo_memory (demo_world []))
    (no_requeue, Some "spec.poolName is required") demo_memory) as (e & r & He & _ & Htr & _).
  - repeat split; vm_compute; reflexivity.
  - discriminate.
  - discriminate.
  - reflexivity.
  - left.
  - eapply (sim_runs _ _ _ (_, _)). vm_compute. reflexivity.
  - exists r. rewrite Htr. by injection He as <-.
Defined.

Lemma router_uptime_never_recorded_witness :
  Forall (ev_sat writes_no_uptime) allocation_trace.
Proof.
  apply (router_uptime_never_recorded demo_claim demo_memory allocation_trace _ eq_refl
    (sim_steps _ _ _)).
  vm_compute. repeat constructor.
Defined.
