(* ===== verification/Tunnels.v ===== *)
(** * Tunnels to the agent

    The reconciler talks HTTP to the agent through an SSH tunnel that
    [NewAgentClient] opens and [Close] tears down.  An automaton follows the
    tunnel through a trace; the reconciler keeps to it. *)

From Stdlib Require Import SpecFloat.
From S2P Require Import Prelude Effects GoStd Helpers Json Http ClaimTypes Env Pool SshManager Sim.
From S2P Require Import SshCommands Registry AgentClient Controller ControllerProps.

Local Open Scope Z_scope.

(** ** The automaton *)

(** The last SSH client dialled, the open tunnel (its client and local
    address), and a client whose listener failed and must be closed next. *)
Record tunnels := {
  dialled : option connid;
  opened : option (connid * string);
  orphan : option connid;
}.
Definition no_tunnel : tunnels := {| dialled := None; opened := None; orphan := None |}.

Definition track_call `{L : Lib} X (e : OpE X) (st : tunnels) : X → tunnels :=
  match e in OpE X return X → tunnels with
  | SshDial _ _ _ => λ r, match r with
      | Ok c => {| dialled := Some c; opened := opened st; orphan := orphan st |}
      | Err _ => st
      end
  | Listen => λ r, match r with
      | Ok a => {| dialled := None; opened := (λ c, (c, a)) <$> dialled st; orphan := orphan st |}
      | Err _ => {| dialled := None; opened := opened st; orphan := dialled st |}
      end
  | SshClose _ => λ _, {| dialled := dialled st; opened := opened st; orphan := None |}
  | CloseTunnel _ => λ _, {| dialled := dialled st; opened := None; orphan := orphan st |}
  | _ => λ _, st
  end.

Definition track `{L : Lib} (st : tunnels) (o : event OpE) : tunnels :=
  match o with existT X (e, x) => track_call X e st x end.

Definition tunnel_after `{L : Lib} (h : list (event OpE)) : tunnels := fold_left track h no_tunnel.

(** What is allowed: one tunnel at a time, requests only through it and to its
    address, a tunnel closed as it was opened, an orphaned client closed at
    once. *)
Definition tunnel_discipline `{L : Lib} X (h : list (event OpE)) (e : OpE X) : Prop :=
  match e with
  | Listen => opened (tunnel_after h) = None ∧ orphan (tunnel_after h) = None ∧
              is_Some (dialled (tunnel_after h))
  | HttpDo _ url _ =>
    ∃ c a, opened (tunnel_after h) = Some (c, a) ∧
           String.prefix ("http://" +:+ a +:+ "/leases") url = true
  | CloseTunnel c => ∃ a, opened (tunnel_after h) = Some (c, a)
  | SshClose c => orphan (tunnel_after h) = None ∨ orphan (tunnel_after h) = Some c
  | _ => orphan (tunnel_after h) = None
  end.

Section tunnels.
Context `{L : Lib}.

Abbreviation Σt := (proto tunnel_discipline).

Lemma tunnel_after_app h o : tunnel_after (h ++ [o]) = track (tunnel_after h) o.
Proof. unfold tunnel_after. by rewrite fold_left_app. Qed.

(** The state in which tunnel [o] is open. *)
Definition open_is (o : option (connid * string)) (h : list (event OpE)) : Prop :=
  opened (tunnel_after h) = o ∧ orphan (tunnel_after h) = None.

Lemma plain_open o {A} (m : OpM A) (Q : A → Op → list (event OpE) → Prop) s h :
  callsM plain m → open_is o h → (∀ a s' h', open_is o h' → Q a s' h') → wpM Σt m Q s h.
Proof.
  intros Hm Hh HQ. eapply callsM_inv with (I := open_is o); [exact Hm| |done|done].
  intros X e w He [Ho Hn]. split; [destruct e; simpl; auto; done|]. intros x w' ->.
  unfold open_is. rewrite tunnel_after_app. destruct e; try done; by destruct x.
Qed.

(** Skip a program that has nothing to do with tunnels. *)
Ltac skip := rewrite ?wpM_bind; eapply plain_open; [solve [solve_calls]|eassumption|].

(** Writes to the claim do not disturb the tunnel. *)
Lemma write_open o {X} (e : OpE X) (Q : X → Op → list (event OpE) → Prop) s h :
  match e with UpdateClaim _ | StatusUpdate _ | NewRequest _ _ => True | _ => False end →
  open_is o h → (∀ x h', open_is o h' → Q x s h') → wpM Σt (call e) Q s h.
Proof.
  intros He [Ho Hn] HQ. split; [by destruct e|]. intros x h' ->. apply HQ.
  unfold open_is. rewrite tunnel_after_app. by destruct e.
Qed.

Lemma NewAgentClient_open a u k s h :
  open_is None h →
  wpM Σt (NewAgentClient a u k) (λ r _ h', match r with
    | Ok ac => open_is (Some (sshClient ac, localAddr ac)) h'
    | Err _ => open_is None h' end) s h.
Proof.
  intros [Ho Hn]. unfold NewAgentClient. rewrite wpM_bind, wpM_call. split; [done|].
  intros [c|e] h' ->; [|by rewrite wpM_ret; unfold open_is; rewrite tunnel_after_app].
  rewrite wpM_bind, wpM_call. split; [simpl; rewrite tunnel_after_app; by eauto|].
  intros [l|e] h' ->.
  - rewrite wpM_ret. unfold open_is. by rewrite !tunnel_after_app.
  - rewrite wpM_bind, wpM_call. split; [right; by rewrite !tunnel_after_app|].
    intros [] h' ->. rewrite wpM_ret. unfold open_is. by rewrite !tunnel_after_app.
Qed.

Lemma Close_open ac l (Q : unit → Op → list (event OpE) → Prop) s h :
  open_is (Some (sshClient ac, l)) h → (∀ h', open_is None h' → Q tt s h') →
  wpM Σt (AgentClient_Close ac) Q s h.
Proof.
  intros [Ho Hn] HQ. split; [by exists l|]. intros [] h' ->. apply HQ.
  unfold open_is. by rewrite tunnel_after_app.
Qed.

Lemma request_open c a method url b s h :
  open_is (Some (c, a)) h → String.prefix ("http://" +:+ a +:+ "/leases") url = true →
  wpM Σt (request method url b) (λ _ _ h', open_is (Some (c, a)) h') s h.
Proof.
  intros Ho Hu. unfold request. rewrite wpM_bind. eapply write_open; [done|exact Ho|].
  intros [[]|e] h1 H1; [|done]. rewrite wpM_bind, wpM_call. destruct H1 as [H1 H1'].
  split; [by exists c, a|]. intros x h' ->.
  assert (open_is (Some (c, a)) (h1 ++ [Ev (HttpDo method url b) x])) as H2
    by (unfold open_is; by rewrite tunnel_after_app).
  by destruct x.
Qed.

(** Everything done with a client leaves its tunnel open. *)
Definition uses {A} (ac : AgentClient) (m : OpM A) : Prop := ∀ s h,
  open_is (Some (sshClient ac, localAddr ac)) h →
  wpM Σt m (λ _ _ h', open_is (Some (sshClient ac, localAddr ac)) h') s h.

Lemma prefix_app_self a b : String.prefix a (a +:+ b) = true.
Proof.
  induction a as [|x a IH]; [by destruct b|]. change (String x a +:+ b) with (String x (a +:+ b)).
  simpl. destruct (ascii_dec x x); [done|congruence].
Qed.

Lemma str_app_assoc a b c : (a +:+ b) +:+ c = a +:+ (b +:+ c).
Proof. induction a as [|x a IH]; [done|]. change (String x ((a +:+ b) +:+ c) = String x (a +:+ (b +:+ c))). by rewrite IH. Qed.

Lemma leases_url_prefix l x :
  String.prefix ("http://" +:+ l +:+ "/leases") ("http://" +:+ l +:+ "/leases" +:+ x) = true.
Proof. rewrite <-(str_app_assoc l), <-(str_app_assoc _ (l +:+ _) x). apply prefix_app_self. Qed.

Lemma request_uses ac method x b :
  uses ac (request method ("http://" +:+ localAddr ac +:+ "/leases" +:+ x) b).
Proof. intros s h Ho. by apply request_open; [|apply leases_url_prefix]. Qed.

Lemma uses_bind {A B} ac (m : OpM A) (f : A → OpM B) :
  uses ac m → (∀ a, uses ac (f a)) → uses ac (m ≫= f).
Proof.
  intros Hm Hf s h Ho. rewrite wpM_bind. eapply wpM_mono; [by apply Hm|].
  intros a s' h' Ho'. by apply Hf.
Qed.

Lemma uses_ret {A} ac (a : A) : uses ac (mret a).
Proof. by intros s h. Qed.

Lemma uses_plain {A} ac (m : OpM A) : callsM plain m → uses ac m.
Proof. intros Hm s h Ho. by eapply plain_open. Qed.

Lemma AllocateLease_uses ac i w mac : uses ac (AllocateLease ac i w mac).
Proof.
  unfold AllocateLease. apply uses_bind; [apply (request_uses ac "POST" "")|].
  intros []; [repeat case_match|]; apply uses_ret.
Qed.
Lemma GetLease_uses ac i : uses ac (GetLease ac i).
Proof.
  unfold GetLease. apply uses_bind; [apply (request_uses ac "GET" ("/" +:+ i))|].
  intros []; [repeat case_match|]; apply uses_ret.
Qed.
Lemma ReleaseLease_uses ac i : uses ac (ReleaseLease ac i).
Proof.
  unfold ReleaseLease. apply uses_bind; [apply (request_uses ac "DELETE" ("/" +:+ i))|].
  intros []; [repeat case_match|]; apply uses_ret.
Qed.

(** ** The programs that use a tunnel close it *)

(** A program that starts and ends with no tunnel open. *)
Definition balanced {A} (m : OpM A) : Prop := ∀ s h,
  open_is None h → wpM Σt m (λ _ _ h', open_is None h') s h.

Lemma balanced_bind {A B} (m : OpM A) (f : A → OpM B) :
  balanced m → (∀ a, balanced (f a)) → balanced (m ≫= f).
Proof.
  intros Hm Hf s h Ho. rewrite wpM_bind. eapply wpM_mono; [by apply Hm|].
  intros a s' h' Ho'. by apply Hf.
Qed.
Lemma balanced_ret {A} (a : A) : balanced (mret a).
Proof. by intros s h. Qed.
Lemma balanced_plain {A} (m : OpM A) : callsM plain m → balanced m.
Proof. intros Hm s h Ho. by eapply plain_open. Qed.
Lemma balanced_status c : balanced (call (StatusUpdate c)).
Proof. intros s h Ho. by eapply write_open. Qed.
Lemma balanced_update c : balanced (call (UpdateClaim c)).
Proof. intros s h Ho. by eapply write_open. Qed.

(** The rest of a program that has a tunnel open and closes it. *)
Definition closes {A} (ac : AgentClient) (m : OpM A) : Prop := ∀ s h,
  open_is (Some (sshClient ac, localAddr ac)) h → wpM Σt m (λ _ _ h', open_is None h') s h.

Lemma closes_bind {A B} ac (m : OpM A) (f : A → OpM B) :
  uses ac m → (∀ a, closes ac (f a)) → closes ac (m ≫= f).
Proof.
  intros Hm Hf s h Ho. rewrite wpM_bind. eapply wpM_mono; [by apply Hm|].
  intros a s' h' Ho'. by apply Hf.
Qed.

Lemma closes_close {B} ac (f : unit → OpM B) :
  (∀ x, balanced (f x)) → closes ac (AgentClient_Close ac ≫= f).
Proof.
  intros Hf s h Ho. rewrite wpM_bind. eapply Close_open; [exact Ho|]. intros h' H'. by apply Hf.
Qed.

(** Open a tunnel, then close it on every path. *)
Lemma balanced_tunnel {B} a u k (f : result string AgentClient → OpM B) :
  (∀ ac, closes ac (f (Ok ac))) → (∀ e, balanced (f (Err e))) →
  balanced (NewAgentClient a u k ≫= f).
Proof.
  intros Hok Herr s h Ho. rewrite wpM_bind.
  eapply wpM_mono; [by apply NewAgentClient_open|].
  intros [ac|e] s1 h1 H1; [by apply Hok|by apply Herr].
Qed.
End tunnels.

Create HintDb tunnels.
#[export] Hint Resolve balanced_ret balanced_status balanced_update balanced_plain uses_ret
  uses_plain AllocateLease_uses GetLease_uses ReleaseLease_uses : tunnels.
#[export] Hint Extern 2 (callsM plain _) => solve [solve_calls] : tunnels.

(** Walk through a program that keeps the discipline. *)
Ltac balance :=
  repeat first
    [ solve [eauto 3 with tunnels]
    | apply balanced_tunnel; intros ?
    | apply balanced_bind; [|intros ?]
    | apply closes_close; intros ?
    | apply closes_bind; [|intros ?]
    | apply uses_bind; [|intros ?]
    | match goal with |- ∀ _, _ => intros ? end
    | progress simpl
    | case_match ].

Section reconcile.
Context `{L : Lib}.

Lemma script_balanced c i mac : balanced (runRouterScript no_hooks c i mac).
Proof.
  change (balanced (defaultRunRouterScript c i mac)). unfold defaultRunRouterScript. balance.
Qed.

Lemma verify_balanced c m : balanced (verifyClaimState c m).
Proof. unfold verifyClaimState, judge_lease. balance. Qed.

Lemma cleanup_balanced c : balanced (cleanupRouterInterface no_hooks c).
Proof.
  change (balanced (defaultCleanupRouterInterface c)).
  unfold defaultCleanupRouterInterface. balance.
Qed.

Lemma ensure_plain' n ip : callsM plain (ensureIPInPool no_hooks n ip).
Proof. apply ensure_plain. Qed.
Lemma remove_plain' n ip : callsM plain (removeIPFromPool no_hooks n ip).
Proof. apply remove_plain. Qed.
#[local] Hint Resolve script_balanced verify_balanced cleanup_balanced : tunnels.
#[local] Hint Resolve ensure_plain' remove_plain' : calls.

Lemma fail_balanced c e : balanced (fail c e).
Proof. unfold fail. balance. Qed.
Lemma clear_event_balanced c : balanced (clear_event c).
Proof. unfold clear_event. balance. Qed.
#[local] Hint Resolve fail_balanced clear_event_balanced : tunnels.
Lemma event_balanced c : balanced (reconcile_event c).
Proof. unfold reconcile_event. balance. Qed.
Lemma reconcile_verify_balanced c : balanced (reconcile_verify no_hooks c).
Proof. unfold reconcile_verify. balance. Qed.
Lemma delete_balanced c : balanced (reconcile_delete no_hooks c).
Proof. unfold reconcile_delete. balance. Qed.
Lemma allocate_balanced c i mac : balanced (allocate no_hooks c i mac).
Proof. unfold allocate. balance. Qed.
#[local] Hint Resolve event_balanced reconcile_verify_balanced delete_balanced
  allocate_balanced : tunnels.

Lemma reconcile_balanced c : balanced (reconcile_claim no_hooks c).
Proof.
  unfold reconcile_claim, reconcile_finalizer, reconcile_allocate. balance.
Qed.

(** C18: no tunnel is leaked and no request goes astray.  In every partial
    execution of a reconciliation at most one tunnel to the agent is open at a
    time, every HTTP request is sent while one is open and to its local
    address, a tunnel is closed with the SSH client it was opened with, and a
    client whose listener failed is closed by the very next call; and when the
    reconciliation returns, on whatever path, no tunnel is open. *)
Theorem tunnels_never_leak c s tr p' :
  steps (reconcile_claim no_hooks c s) tr p' →
  (∀ i o, tr !! i = Some o → ev_ok tunnel_discipline (take i tr) o) ∧
  ∀ a, p' = Ret a → open_is None tr.
Proof.
  intros Hs. pose proof (reconcile_balanced c s [] (conj eq_refl eq_refl)) as Hwp. split.
  - exact (wp_steps _ _ _ _ _ _ Hwp Hs).
  - intros [out s'] ->. apply steps_runs in Hs. by apply (wp_runs _ _ _ _ _ _ Hwp) in Hs as [? _].
Qed.
End reconcile.

Lemma tunnels_never_leak_witness :
  open_is None (sim_trace (reconcile_claim no_hooks demo_claim) demo_memory (demo_world [])).
Proof.
  eapply (tunnels_never_leak demo_claim demo_memory); [apply sim_steps|vm_compute; reflexivity].
Defined.
