(* ===== verification/Forward.v ===== *)
(** * The tunnel's goroutines (internal/router/agent_client.go)

    Underneath an [AgentClient] run a goroutine that accepts local connections
    and, for every one of them, copyConn with its two copying goroutines.  Their
    code is here, with the memory they share: the cancellation of the tunnel's
    context, the listener, the SSH client, the connections and the wait groups.
    One call is one step; goroutines interleave between calls ([Threads]). *)

From S2P Require Import Prelude Effects Threads.

(** ** Connections *)

(** The dynamic type of a [net.Conn]: what the TCP listener accepts, and what
    else the SSH client's [Dial] may return. *)
Inductive ConnType := TCPConn | ChanConn.
#[export] Instance ConnType_eq_dec : EqDecision ConnType.
Proof. solve_decision. Defined.

Record Conn := { cid : nat; ctype : ConnType }.
#[export] Instance Conn_eq_dec : EqDecision Conn.
Proof. solve_decision. Defined.

(** What is known of a connection: whether the goroutine that has to close it has
    not done so yet, whether its write side was shut down, whether reading it has come to an end, whether it
    is broken, so that writing fails as well, and whether it was dialled through
    the SSH client. *)
Record ConnState := {
  c_owned : bool;
  c_shut : bool;
  c_eof : bool;
  c_broken : bool;
  c_dialled : bool;
  c_type : ConnType;
}.

Definition fresh_conn (dialled : bool) (t : ConnType) : ConnState :=
  {| c_owned := true; c_shut := false; c_eof := false; c_broken := false; c_dialled := dialled;
     c_type := t |}.
Definition closed_conn (c : ConnState) : ConnState :=
  {| c_owned := false; c_shut := c_shut c; c_eof := c_eof c; c_broken := c_broken c;
     c_dialled := c_dialled c; c_type := c_type c |}.
Definition shut_conn (c : ConnState) : ConnState :=
  {| c_owned := c_owned c; c_shut := true; c_eof := c_eof c; c_broken := c_broken c;
     c_dialled := c_dialled c; c_type := c_type c |}.
Definition ended_conn (c : ConnState) : ConnState :=
  {| c_owned := c_owned c; c_shut := c_shut c; c_eof := true; c_broken := c_broken c;
     c_dialled := c_dialled c; c_type := c_type c |}.
Definition broken_conn (c : ConnState) : ConnState :=
  {| c_owned := c_owned c; c_shut := c_shut c; c_eof := true; c_broken := true;
     c_dialled := c_dialled c; c_type := c_type c |}.

(** ** Shared memory *)

(** The client's wait group, or the one of a copyConn call. *)
Inductive wgid := ClientWg | CopyWg (n : nat).
#[export] Instance wgid_eq_dec : EqDecision wgid.
Proof. solve_decision. Defined.

Record Tun := {
  cancelled : bool;
  deadline : bool;
  listening : bool;
  ssh_open : bool;
  conns : gmap nat ConnState;
  client_wg : nat;
  copy_wgs : gmap nat nat;
}.

Definition fresh_tun : Tun :=
  {| cancelled := false; deadline := false; listening := false; ssh_open := false;
     conns := ∅; client_wg := 0; copy_wgs := ∅ |}.

Definition set_conns (f : gmap nat ConnState → gmap nat ConnState) (s : Tun) : Tun :=
  {| cancelled := cancelled s; deadline := deadline s; listening := listening s;
     ssh_open := ssh_open s; conns := f (conns s); client_wg := client_wg s;
     copy_wgs := copy_wgs s |}.
Definition set_flags (c d l o : bool) (s : Tun) : Tun :=
  {| cancelled := c; deadline := d; listening := l; ssh_open := o; conns := conns s;
     client_wg := client_wg s; copy_wgs := copy_wgs s |}.
Definition set_wg (w : wgid) (n : nat) (s : Tun) : Tun :=
  match w with
  | ClientWg => {| cancelled := cancelled s; deadline := deadline s; listening := listening s;
      ssh_open := ssh_open s; conns := conns s; client_wg := n; copy_wgs := copy_wgs s |}
  | CopyWg k => {| cancelled := cancelled s; deadline := deadline s; listening := listening s;
      ssh_open := ssh_open s; conns := conns s; client_wg := client_wg s;
      copy_wgs := <[k := n]> (copy_wgs s) |}
  end.
Definition wg_count (w : wgid) (s : Tun) : nat :=
  match w with ClientWg => client_wg s | CopyWg k => default 0 (copy_wgs s !! k) end.

(** ** Calls *)

Inductive accepted := Accepted (c : Conn) | AcceptTimeout | AcceptError.

Inductive TunE : Type → Type :=
| SshDial : TunE (result string unit)
| Listen : TunE (result string unit)
| SshClose : TunE unit
| CtxDone : TunE bool
| Cancel : TunE unit
| SetDeadline : TunE unit
| Accept : TunE accepted
| CloseListener : TunE unit
| DialAgent (addr : string) : TunE (option Conn)
| CloseConn (c : Conn) : TunE unit
| CloseWrite (c : Conn) : TunE unit
| Copy (dst src : Conn) : TunE unit
| NewWg : TunE nat
| WgAdd (w : wgid) (n : nat) : TunE unit
| WgDone (w : wgid) : TunE unit
| WgWait (w : wgid) : TunE unit
| GoAcceptLoop : TunE unit
| GoCopyConn (l r : Conn) : TunE unit
| GoCopyDir (w : nat) (dst src : Conn) : TunE unit
| PeerEnds (c : nat) : TunE unit
| PeerBreaks (c : nat) : TunE unit.

Abbreviation TunP := (proc TunE).

(** Open on this side: its owner has not closed it and, if it was dialled through
    the SSH client, nor has the client been closed, which closes the connections
    dialled through it. *)
Definition is_open (s : Tun) (c : nat) : Prop :=
  ∃ st, conns s !! c = Some st ∧ c_owned st = true ∧ (c_dialled st = true → ssh_open s = true).

(** Reading the connection waits for its other end: it is not closed here and
    has not come to an end. *)
Definition delivers (s : Tun) (c : Conn) : bool :=
  match conns s !! cid c with Some st => c_owned st && negb (c_eof st) | None => false end.

(** Nothing has ended the source or made the destination unusable. *)
Definition flowing (s : Tun) (dst src : Conn) : bool :=
  match conns s !! cid src, conns s !! cid dst with
  | Some a, Some b => c_owned a && negb (c_eof a) && c_owned b && negb (c_broken b) && negb (c_shut b)
  | _, _ => false
  end.

(** What a call may answer, and the memory after it.  [dial_type] is the type of
    the connections the SSH client returns.  [Accept] fails on its deadline only
    when one is set, and may fail otherwise at any time; [io.Copy] may return when
    its source has ended or one of the two connections cannot be used; a wait
    group's [Done] below zero panics, and [Wait] returns at zero; closing the SSH
    client closes every connection dialled through it, so that reading it ends
    and writing it fails. *)
Definition tun_resp (dial_type : ConnType) X (e : TunE X) (s : Tun) : X → Tun → Prop :=
  match e in TunE X return X → Tun → Prop with
  | SshDial => λ r s', match r with
      | Ok _ => s' = set_flags (cancelled s) (deadline s) (listening s) true s
      | Err _ => s' = s end
  | Listen => λ r s', match r with
      | Ok _ => s' = set_flags (cancelled s) (deadline s) true (ssh_open s) s
      | Err _ => s' = s end
  | SshClose => λ _ s', s' = set_conns (fmap (λ c, if c_dialled c then broken_conn c else c))
                               (set_flags (cancelled s) (deadline s) (listening s) false s)
  | CtxDone => λ b s', b = cancelled s ∧ s' = s
  | Cancel => λ _ s', s' = set_flags true (deadline s) (listening s) (ssh_open s) s
  | SetDeadline => λ _ s', s' = set_flags (cancelled s) true (listening s) (ssh_open s) s
  | Accept => λ a s', match a with
      | Accepted c => listening s = true ∧ conns s !! cid c = None ∧ ctype c = TCPConn ∧
                      s' = set_conns <[cid c := fresh_conn false TCPConn]> s
      | AcceptTimeout => deadline s = true ∧ s' = s
      | AcceptError => s' = s end
  | CloseListener => λ _ s', s' = set_flags (cancelled s) (deadline s) false (ssh_open s) s
  | DialAgent _ => λ r s', match r with
      | Some c => ssh_open s = true ∧ conns s !! cid c = None ∧ ctype c = dial_type ∧
                  s' = set_conns <[cid c := fresh_conn true dial_type]> s
      | None => s' = s end
  | CloseConn c => λ _ s', s' = set_conns (alter closed_conn (cid c)) s
  | CloseWrite c => λ _ s', s' = set_conns (alter shut_conn (cid c)) s
  | Copy dst src => λ _ s', flowing s dst src = false ∧ s' = s
  | NewWg => λ n s', copy_wgs s !! n = None ∧ s' = set_wg (CopyWg n) 0 s
  | WgAdd w n => λ _ s', s' = set_wg w (wg_count w s + n) s
  | WgDone w => λ _ s', 0 < wg_count w s ∧ s' = set_wg w (wg_count w s - 1) s
  | WgWait w => λ _ s', wg_count w s = 0 ∧ s' = s
  | GoAcceptLoop | GoCopyConn _ _ | GoCopyDir _ _ _ => λ _ s', s' = s
  | PeerEnds c => λ _ s', s' = set_conns (alter ended_conn c) s
  | PeerBreaks c => λ _ s', s' = set_conns (alter broken_conn c) s
  end.

(** ** The code *)

(** How the body of the loop is left: for the next round, or for good. *)
Inductive round := Continue | Return.

Definition agent_addr : string := "127.0.0.1:8692".

(** One round of the accept loop. *)
Definition accept_round : TunP round :=
  d ← trigger CtxDone;
  if (d : bool) then mret Return
  else
    _ ← trigger SetDeadline;
    a ← trigger Accept;
    match a with
    | AcceptTimeout => mret Continue
    | AcceptError => mret Return
    | Accepted localConn =>
      d' ← trigger CtxDone;
      if (d' : bool) then _ ← trigger (CloseConn localConn); mret Return
      else
        r ← trigger (DialAgent agent_addr);
        match r with
        | None => _ ← trigger (CloseConn localConn); mret Continue
        | Some remoteConn => _ ← trigger (GoCopyConn localConn remoteConn); mret Continue
        end
    end.

(** The goroutine: rounds until one returns, then the deferred calls, the last
    one first. *)
Definition accept_loop (_ : unit) : TunP (option unit) :=
  c ← accept_round;
  match c with
  | Continue => mret (Some tt)
  | Return => _ ← trigger CloseListener; _ ← trigger (WgDone ClientWg); mret None
  end.

(** One direction of copyConn. *)
Definition copy_dir (w : nat) (dst src : Conn) : TunP (option unit) :=
  _ ← trigger (Copy dst src);
  _ ← (if decide (ctype dst = TCPConn) then trigger (CloseWrite dst) else mret tt);
  _ ← trigger (WgDone (CopyWg w));
  mret None.

Definition copyConn (local remote : Conn) : TunP (option unit) :=
  w ← trigger NewWg;
  _ ← trigger (WgAdd (CopyWg w) 2);
  _ ← trigger (GoCopyDir w remote local);
  _ ← trigger (GoCopyDir w local remote);
  _ ← trigger (WgWait (CopyWg w));
  _ ← trigger (CloseConn remote);
  _ ← trigger (CloseConn local);
  mret None.

(** NewAgentClient: the SSH client, the listener, the goroutine. *)
Definition NewAgentClient : TunP (result string unit) :=
  r ← trigger SshDial;
  match r with
  | Err e => mret (Err ("ssh dial failed: " +:+ e))
  | Ok _ =>
    r' ← trigger Listen;
    match r' with
    | Err e => _ ← trigger SshClose; mret (Err ("local listen failed: " +:+ e))
    | Ok _ => _ ← trigger (WgAdd ClientWg 1); _ ← trigger GoAcceptLoop; mret (Ok tt)
    end
  end.

Definition Close : TunP unit :=
  _ ← trigger Cancel; _ ← trigger (WgWait ClientWg); trigger SshClose.

(** The life of a client: it is created and, if that succeeds, closed at some
    time. *)
Definition session : TunP (option unit) :=
  r ← NewAgentClient;
  match r with
  | Err _ => mret None
  | Ok _ => _ ← Close; mret None
  end.

Definition tun_spawned X (e : TunE X) : list (TunP (option unit)) :=
  match e with
  | GoAcceptLoop => [mret (Some tt)]
  | GoCopyConn l r => [copyConn l r]
  | GoCopyDir w dst src => [copy_dir w dst src]
  | _ => []
  end.

(** The other ends of the connections: the HTTP client and the agent may end or
    break a connection at any time. *)
Inductive peer : TunP (option unit) → Prop :=
| peer_ends c : peer (_ ← trigger (PeerEnds c); mret None)
| peer_breaks c : peer (_ ← trigger (PeerBreaks c); mret None).
