(* ===== verification/ForwardInv.v ===== *)
(** * The invariant of the tunnel's goroutines

    Every goroutine of a tunnel has a role, and holds tokens for what it must
    still do: close a connection or the listener, leave a wait group.  In every
    interleaving the tokens of all goroutines together are what the memory says
    is open and counted ([tun_inv], [tun_obligations]). *)

From stdpp Require Import list_numbers.
From S2P Require Import Prelude Effects Threads Schedules Forward.

(** ** Roles and tokens *)

Inductive main_phase :=
  MStart | MDialled | MOpen | MAdded | MRunning | MCancelled | MWaited | MDone.
Inductive copy_phase :=
| CNew
| CNamed (w : nat)
| CAdded (w n : nat)
| CWaited (w : nat)
| CHalf (w : nat)
| CDone (w : nat).

(** [LoopRun armed held]: in a round, [armed] once the deadline is set, with the
    connections accepted and dialled in this round. *)
Inductive role :=
| Main (p : main_phase)
| LoopRun (armed : bool) (held : list Conn)
| LoopClosed
| LoopDone
| Copying (l r : Conn) (p : copy_phase)
| Dir (w : nat) (dst src : Conn)
| DirDone
| Peer.

Inductive token := TSsh | TListener | TWg (w : wgid) | TConn (c : nat) | TName (w : nat).
#[export] Instance token_eq_dec : EqDecision token.
Proof. solve_decision. Defined.

Definition tokens (g : role) : list token :=
  match g with
  | Main MStart | Main MDone => []
  | Main MOpen => [TSsh; TListener]
  | Main MAdded => [TSsh; TListener; TWg ClientWg]
  | Main _ => [TSsh]
  | LoopRun _ held => TWg ClientWg :: TListener :: ((λ c, TConn (cid c)) <$> held)
  | LoopClosed => [TWg ClientWg]
  | Copying l r p =>
    match p with
    | CNew => [TConn (cid l); TConn (cid r)]
    | CNamed w | CWaited w => [TConn (cid l); TConn (cid r); TName w]
    | CAdded w n => [TConn (cid l); TConn (cid r); TName w] ++ replicate n (TWg (CopyWg w))
    | CHalf w => [TConn (cid l); TName w]
    | CDone w => [TName w]
    end
  | Dir w _ _ => [TWg (CopyWg w)]
  | LoopDone | DirDone | Peer => []
  end.

Definition tally (t : token) (g : role) : nat :=
  sum_list_with (λ x, if decide (x = t) then 1 else 0) (tokens g).
Definition total (t : token) (gs : list role) : nat := sum_list_with (tally t) gs.

Lemma tally_pos t g : 0 < tally t g ↔ t ∈ tokens g.
Proof.
  unfold tally. induction (tokens g) as [|x l IH]; simpl; [by split; [lia|intros ?%elem_of_nil]|].
  rewrite elem_of_cons, <-IH. case_decide; naive_solver lia.
Qed.

(** What the memory says of a token. *)
Definition held (s : Tun) (t : token) : nat :=
  match t with
  | TSsh => if ssh_open s then 1 else 0
  | TListener => if listening s then 1 else 0
  | TWg w => wg_count w s
  | TConn c => match conns s !! c with Some st => if c_owned st then 1 else 0 | None => 0 end
  | TName w => if decide (is_Some (copy_wgs s !! w)) then 1 else 0
  end.

(** ** The protocol *)

Definition no_conns_held (g : role) : Prop :=
  match g with Main MStart | Main MDone | LoopDone | Copying _ _ (CDone _) | DirDone | Peer => True
             | _ => False end.

Definition tun_pre X (e : TunE X) (g : role) : Prop :=
  match e with
  | SshDial => g = Main MStart
  | Listen => g = Main MDialled
  | SshClose => g = Main MDialled ∨ g = Main MWaited
  | Cancel => g = Main MRunning
  | CtxDone => ∃ b cs, g = LoopRun b cs
  | SetDeadline => ∃ b, g = LoopRun b []
  | Accept => g = LoopRun true []
  | CloseListener => ∃ b, g = LoopRun b []
  | DialAgent a => (∃ b c, g = LoopRun b [c]) ∧ a = agent_addr
  | CloseConn c =>
    (∃ b, g = LoopRun b [c]) ∨ (∃ l w, g = Copying l c (CWaited w)) ∨ (∃ r w, g = Copying c r (CHalf w))
  | CloseWrite c => (∃ w src, g = Dir w c src) ∧ ctype c = TCPConn
  | Copy dst src => ∃ w, g = Dir w dst src
  | NewWg => ∃ l r, g = Copying l r CNew
  | WgAdd w n => (w = ClientWg ∧ n = 1 ∧ g = Main MOpen) ∨
                 (∃ l r k, w = CopyWg k ∧ n = 2 ∧ g = Copying l r (CNamed k))
  | WgDone w => (w = ClientWg ∧ g = LoopClosed) ∨ (∃ k dst src, w = CopyWg k ∧ g = Dir k dst src)
  | WgWait w => (w = ClientWg ∧ g = Main MCancelled) ∨
                (∃ l r k, w = CopyWg k ∧ g = Copying l r (CAdded k 0))
  | GoAcceptLoop => g = Main MAdded
  | GoCopyConn l r => ∃ b, g = LoopRun b [l; r]
  | GoCopyDir w dst src => ∃ l r n, g = Copying l r (CAdded w (S n)) ∧
      ((dst = r ∧ src = l) ∨ (dst = l ∧ src = r))
  | PeerEnds _ | PeerBreaks _ => g = Peer
  end.

Definition tun_rely (dial_type : ConnType) X (e : TunE X) (_ : role) : X → Prop :=
  match e in TunE X return X → Prop with
  | Accept => λ a, match a with Accepted c => ctype c = TCPConn | _ => True end
  | DialAgent _ => λ r, match r with Some c => ctype c = dial_type | _ => True end
  | _ => λ _, True
  end.

Definition tun_upd X (e : TunE X) (g : role) : X → role :=
  match e in TunE X return X → role with
  | SshDial => λ r, if is_ok r then Main MDialled else g
  | Listen => λ r, if is_ok r then Main MOpen else g
  | SshClose => λ _, Main MDone
  | Cancel => λ _, Main MCancelled
  | SetDeadline => λ _, LoopRun true []
  | Accept => λ a, match a with Accepted c => LoopRun true [c] | _ => g end
  | CloseListener => λ _, LoopClosed
  | DialAgent _ => λ r, match r, g with Some c, LoopRun b [l] => LoopRun b [l; c] | _, _ => g end
  | CloseConn c => λ _, match g with
      | LoopRun b _ => LoopRun b []
      | Copying l r (CWaited w) => Copying l r (CHalf w)
      | Copying l r (CHalf w) => Copying l r (CDone w)
      | _ => g end
  | NewWg => λ w, match g with Copying l r _ => Copying l r (CNamed w) | _ => g end
  | WgAdd _ _ => λ _, match g with
      | Main _ => Main MAdded
      | Copying l r (CNamed w) => Copying l r (CAdded w 2)
      | _ => g end
  | WgDone _ => λ _, match g with LoopClosed => LoopDone | _ => DirDone end
  | WgWait _ => λ _, match g with
      | Main _ => Main MWaited
      | Copying l r (CAdded w _) => Copying l r (CWaited w)
      | _ => g end
  | GoAcceptLoop => λ _, Main MRunning
  | GoCopyConn _ _ => λ _, match g with LoopRun b _ => LoopRun b [] | _ => g end
  | GoCopyDir _ _ _ => λ _, match g with
      | Copying l r (CAdded w (S n)) => Copying l r (CAdded w n) | _ => g end
  | _ => λ _, g
  end.

Definition tun_birth X (e : TunE X) (_ : role) : list role :=
  match e with
  | GoAcceptLoop => [LoopRun false []]
  | GoCopyConn l r => [Copying l r CNew]
  | GoCopyDir w dst src => [Dir w dst src]
  | _ => []
  end.

Definition tun_fin (o : option unit) (g : role) : Prop :=
  match o with
  | Some _ => ∃ b, g = LoopRun b []
  | None => no_conns_held g
  end.

(** ** The invariant *)

Definition main_ok (p : main_phase) (s : Tun) : Prop :=
  match p with
  | MStart => cancelled s = false ∧ client_wg s = 0 ∧ listening s = false ∧ ssh_open s = false
  | MDialled => cancelled s = false ∧ client_wg s = 0 ∧ listening s = false
  | MOpen => cancelled s = false ∧ client_wg s = 0
  | MAdded => cancelled s = false ∧ client_wg s = 1
  | MRunning => cancelled s = false ∧ client_wg s ≤ 1
  | MCancelled => cancelled s = true ∧ client_wg s ≤ 1
  | MWaited => cancelled s = true ∧ client_wg s = 0
  | MDone => client_wg s = 0 ∧ ssh_open s = false
  end.

(** The connections a goroutine works with. *)
Definition role_conns (g : role) : list Conn :=
  match g with
  | LoopRun _ cs => cs
  | Copying l r _ => [l; r]
  | Dir _ dst src => [dst; src]
  | _ => []
  end.

Definition known_conn (s : Tun) (c : Conn) : Prop :=
  ∃ st, conns s !! cid c = Some st ∧ c_type st = ctype c.

Record tun_inv (gs : list role) (s : Tun) : Prop := {
  ti_tokens : ∀ t, total t gs = held s t;
  ti_main : ∃ p, gs !! 0 = Some (Main p) ∧ main_ok p s;
  ti_one : ∀ k p, gs !! k = Some (Main p) → k = 0;
  ti_armed : ∀ k cs, gs !! k = Some (LoopRun true cs) → deadline s = true;
  ti_dirs : ∀ k w dst src, gs !! k = Some (Dir w dst src) →
    ∃ j l r n, gs !! j = Some (Copying l r (CAdded w n)) ∧
               ((dst = r ∧ src = l) ∨ (dst = l ∧ src = r));
  ti_conns : ∀ k g c, gs !! k = Some g → c ∈ role_conns g → known_conn s c;
  ti_shut : ∀ c st, conns s !! c = Some st → c_shut st = true → c_type st = TCPConn;
  ti_gone : ssh_open s = false → ∀ c st, conns s !! c = Some st → c_dialled st = true → c_eof st = true;
}.

(** Tokens after one goroutine changed its role and others were born. *)
Lemma total_after t gs k g g' bs :
  gs !! k = Some g →
  total t (<[k := g']> gs ++ bs) + tally t g = total t gs + tally t g' + total t bs.
Proof.
  intros Hk. unfold total. rewrite sum_list_with_app.
  pose proof (sum_with_insert (tally t) gs k g g' Hk). lia.
Qed.

Lemma total_one t gs k g : gs !! k = Some g → tally t g ≤ total t gs.
Proof.
  intros Hk. apply (sum_list_with_in g (tally t)). by eapply list_elem_of_lookup_2.
Qed.

Lemma total_two t gs k g k' g' :
  k ≠ k' → gs !! k = Some g → gs !! k' = Some g' → tally t g + tally t g' ≤ total t gs.
Proof.
  intros Hne Hk Hk'. pose proof (sum_with_insert (tally t) gs k g Peer Hk) as Hs.
  assert (tally t g' ≤ total t (<[k := Peer]> gs)) as Hle.
  { eapply total_one. by rewrite list_lookup_insert_ne. }
  unfold total in *. change (tally t Peer) with 0 in Hs. lia.
Qed.

Lemma total_some t gs : 0 < total t gs → ∃ k g, gs !! k = Some g ∧ 0 < tally t g.
Proof.
  unfold total. induction gs as [|g gs IH]; simpl; [lia|]. intros Ht.
  destruct (decide (0 < tally t g)); [by exists 0, g|].
  destruct IH as (k & g' & Hk & Hg); [lia|]. by exists (S k), g'.
Qed.

Lemma tun_held gs s k g t : tun_inv gs s → gs !! k = Some g → tally t g ≤ held s t.
Proof. intros Hi Hk. rewrite <-(ti_tokens _ _ Hi). by eapply total_one. Qed.

(** The state of a connection after each call that touches it keeps its type. *)
Lemma known_alter f c s s' x :
  s' = set_conns (alter f c) s → (∀ st, c_type (f st) = c_type st) →
  known_conn s x → known_conn s' x.
Proof.
  intros -> Hf (st & Hst & Ht). destruct (decide (c = cid x)) as [->|Hne].
  - exists (f st). simpl. rewrite lookup_alter_eq, Hst. by rewrite Hf.
  - exists st. simpl. by rewrite lookup_alter_ne.
Qed.
Lemma known_insert i st0 s x :
  conns s !! i = None → known_conn s x → known_conn (set_conns <[i := st0]> s) x.
Proof.
  intros Hi (st & Hst & Ht). exists st. simpl. rewrite lookup_insert_ne; [done|congruence].
Qed.

(** ** Every call keeps the invariant *)

(** What a call does to the tokens of the memory; [is_token x t] counts [x]. *)
Abbreviation is_token x t := (if decide (x = t) then 1 else 0).

Lemma held_same f c s t :
  (∀ st, c_owned (f st) = c_owned st) → held (set_conns (alter f c) s) t = held s t.
Proof.
  intros Hf. destruct t as [| |[|w]|c'|w]; try done. simpl. rewrite lookup_alter.
  case_decide; [subst|done]. destruct (conns s !! c'); simpl; [by rewrite Hf|done].
Qed.

Lemma held_insert i d ty s t :
  conns s !! i = None →
  held (set_conns <[i := fresh_conn d ty]> s) t = held s t + is_token (TConn i) t.
Proof.
  intros Hi. destruct t as [| |[|w]|c'|w]; simpl; try lia.
  destruct (decide (i = c')) as [->|Hne].
  - rewrite lookup_insert_eq, Hi, decide_True by done. done.
  - rewrite lookup_insert_ne, decide_False by congruence. lia.
Qed.

Lemma held_close c s t :
  1 ≤ held s (TConn c) →
  held (set_conns (alter closed_conn c) s) t + is_token (TConn c) t = held s t.
Proof.
  intros Hc. destruct t as [| |[|w]|c'|w]; simpl; try lia. simpl in Hc.
  destruct (decide (c = c')) as [->|Hne].
  - rewrite lookup_alter_eq, decide_True by done. destruct (conns s !! c') as [st|]; simpl in *; [|lia].
    destruct (c_owned st); lia.
  - rewrite lookup_alter_ne, decide_False by congruence. lia.
Qed.

Lemma held_wg w n s t :
  match w with CopyWg k => is_Some (copy_wgs s !! k) | ClientWg => True end →
  held (set_wg w n s) t + is_token (TWg w) t * wg_count w s = held s t + is_token (TWg w) t * n.
Proof.
  intros Hw. destruct w as [|k], t as [| |[|k']|c'|w']; simpl; try lia.
  - destruct (decide (k = k')) as [->|Hne].
    + rewrite lookup_insert_eq, decide_True by done. simpl. lia.
    + rewrite lookup_insert_ne, (decide_False (P := TWg _ = _)) by congruence. lia.
  - destruct (decide (k = w')) as [->|Hne].
    + rewrite lookup_insert_eq. rewrite !decide_True by eauto. lia.
    + rewrite lookup_insert_ne by done. lia.
Qed.

Lemma held_new_wg k s t :
  copy_wgs s !! k = None → held (set_wg (CopyWg k) 0 s) t = held s t + is_token (TName k) t.
Proof.
  intros Hk. destruct t as [| |[|k']|c'|w']; simpl; try lia.
  - destruct (decide (k = k')) as [->|Hne]; [by rewrite lookup_insert_eq, Hk|].
    rewrite lookup_insert_ne by done. lia.
  - destruct (decide (k = w')) as [->|Hne].
    + rewrite lookup_insert_eq, Hk. rewrite decide_True by eauto.
      rewrite decide_False by (intros [? ?]; done). rewrite decide_True by done. lia.
    + rewrite lookup_insert_ne by done. rewrite (decide_False (P := TName _ = _)) by congruence. lia.
Qed.

Lemma held_sshclose c d l o s t :
  held (set_conns (fmap (λ st, if c_dialled st then broken_conn st else st)) (set_flags c d l o s)) t
  = held (set_flags c d l o s) t.
Proof.
  destruct t as [| |[|w]|c'|w]; try done. simpl. rewrite lookup_fmap.
  destruct (conns s !! c') as [st|]; simpl; [|done]. by destruct (c_dialled st).
Qed.

Lemma held_flags c d l o s t :
  held (set_flags c d l o s) t + is_token TSsh t * (if ssh_open s then 1 else 0)
    + is_token TListener t * (if listening s then 1 else 0)
  = held s t + is_token TSsh t * (if o then 1 else 0) + is_token TListener t * (if l then 1 else 0).
Proof. destruct t as [| |[|w]|c'|w]; simpl; lia. Qed.

#[local] Arguments set_wg : simpl never.
#[local] Arguments wg_count : simpl never.
#[local] Arguments held : simpl never.

(** Rewrite the tokens of a new role as sums. *)
Ltac count_tokens := unfold tally, total; simpl; try lia.

Section calls.
Context (dial_type : ConnType).

(** A call moves tokens between its caller, the goroutine it starts and the
    memory. *)
Definition moves_tokens X (e : TunE X) : Prop := ∀ s g x s' t,
  (∀ t, tally t g ≤ held s t) → tun_pre X e g → tun_resp dial_type X e s x s' →
  held s' t + tally t g = held s t + tally t (tun_upd X e g x) + total t (tun_birth X e g).

Lemma tokens_close c : moves_tokens _ (CloseConn c).
Proof.
  intros s g x s' t Hh Hpre Hr. simpl in Hpre, Hr. unfold tun_birth, tun_upd. subst s'.
  specialize (Hh (TConn (cid c))).
  assert (1 ≤ tally (TConn (cid c)) g) as H1.
  { destruct Hpre as [(b & ->)|[(l & w & ->)|(r & w & ->)]]; unfold tally; simpl;
      rewrite ?(decide_True (P := TConn (cid c) = _)) by done; lia. }
  pose proof (held_close (cid c) s t ltac:(lia)).
  destruct Hpre as [(b & ->)|[(l & w & ->)|(r & w & ->)]]; count_tokens.
Qed.

Lemma tokens_add v n : moves_tokens _ (WgAdd v n).
Proof.
  intros s g x s' t Hh Hpre Hr. simpl in Hpre, Hr. unfold tun_birth, tun_upd. subst s'.
  destruct Hpre as [(-> & -> & ->)|(l & r & w0 & -> & -> & ->)].
  - pose proof (held_wg ClientWg (wg_count ClientWg s + 1) s t I) as Hw. count_tokens.
  - assert (is_Some (copy_wgs s !! w0)) as Hsome.
    { specialize (Hh (TName w0)). unfold tally, held in Hh. simpl in Hh.
      rewrite (decide_True (P := TName _ = _)) in Hh by done. case_decide; [done|lia]. }
    pose proof (held_wg (CopyWg w0) (wg_count (CopyWg w0) s + 2) s t Hsome) as Hw. count_tokens.
Qed.

Lemma tokens_done v : moves_tokens _ (WgDone v).
Proof.
  intros s g x s' t Hh Hpre [Hpos Hr]. simpl in Hpre. unfold tun_birth, tun_upd. subst s'.
  destruct Hpre as [(-> & ->)|(w0 & dst & src & -> & ->)].
  - pose proof (held_wg ClientWg (wg_count ClientWg s - 1) s t I) as Hw. count_tokens. case_decide; lia.
  - assert (is_Some (copy_wgs s !! w0)) as Hsome.
    { unfold wg_count in *. destruct (copy_wgs s !! w0); [eauto|simpl in *; lia]. }
    pose proof (held_wg (CopyWg w0) (wg_count (CopyWg w0) s - 1) s t Hsome) as Hw.
    count_tokens. case_decide; lia.
Qed.

Lemma tokens_step gs s k X (e : TunE X) g x s' t :
  tun_inv gs s → gs !! k = Some g → tun_pre X e g → tun_resp dial_type X e s x s' →
  held s' t + tally t g = held s t + tally t (tun_upd X e g x) + total t (tun_birth X e g).
Proof.
  intros Hi Hk Hpre Hr. pose proof (λ t, tun_held _ _ _ _ t Hi Hk) as Hh.
  destruct (ti_main _ _ Hi) as (p & H0 & Hp).
  assert (∀ q, g = Main q → main_ok q s) as Hmain.
  { intros q ->. rewrite (ti_one _ _ Hi _ _ Hk) in Hk. congruence. }
  clear Hi Hk H0 Hp.
  destruct e; try (by eapply tokens_close); try (by eapply tokens_add); try (by eapply tokens_done);
    simpl in Hpre, Hr; unfold tun_birth, tun_upd; invert_all; try solve [count_tokens].
  - destruct (Hmain _ eq_refl) as (_ & _ & _ & Hs). destruct x; subst; [|count_tokens].
    pose proof (held_flags (cancelled s) (deadline s) (listening s) true s t) as Hf.
    rewrite Hs in Hf. count_tokens.
  - destruct (Hmain _ eq_refl) as (_ & _ & Hs). destruct x; subst; [|count_tokens].
    pose proof (held_flags (cancelled s) (deadline s) true (ssh_open s) s t) as Hf.
    rewrite Hs in Hf. count_tokens.
  - rewrite held_sshclose.
    assert (1 ≤ held s TSsh) as H1 by (destruct Hpre as [-> | ->]; exact (Hh TSsh)).
    pose proof (held_flags (cancelled s) (deadline s) (listening s) false s t) as Hf.
    unfold held in H1. destruct (ssh_open s); [|lia]. destruct Hpre as [-> | ->]; count_tokens.
  - pose proof (held_flags true (deadline s) (listening s) (ssh_open s) s t). count_tokens.
  - pose proof (held_flags (cancelled s) true (listening s) (ssh_open s) s t). count_tokens.
  - destruct x as [c| |]; invert_all; try count_tokens. rewrite held_insert by done. count_tokens.
  - assert (1 ≤ held s TListener) as H1 by exact (Hh TListener). unfold held in H1.
    pose proof (held_flags (cancelled s) (deadline s) false (ssh_open s) s t).
    destruct (listening s); [|lia]. count_tokens.
  - destruct x as [c|]; invert_all; try count_tokens. rewrite held_insert by done. count_tokens.
  - rewrite held_same by done. lia.
  - rewrite held_new_wg by done. count_tokens.
  - destruct Hpre as [(-> & ->)|(l & r & w0 & -> & ->)]; count_tokens.
  - rewrite held_same by done. lia.
  - rewrite held_same by done. lia.
Qed.

(** The role of the session itself. *)
Lemma main_step gs s k X (e : TunE X) g x s' :
  tun_inv gs s → gs !! k = Some g → tun_pre X e g → tun_resp dial_type X e s x s' →
  ∃ p, (<[k := tun_upd X e g x]> gs ++ tun_birth X e g) !! 0 = Some (Main p) ∧ main_ok p s'.
Proof.
  intros Hi Hk Hpre Hr. destruct (ti_main _ _ Hi) as (p & H0 & Hp).
  destruct (decide (k = 0)) as [->|Hne].
  - rewrite H0 in Hk. simplify_eq.
    rewrite (lookup_changed _ _ (Main p)) by done. clear H0 Hi.
    destruct e; simpl in Hpre, Hr; invert_all; try (destruct_or!; invert_all);
      try (destruct x); subst; eexists; (split; [reflexivity|]); simpl in *; unfold wg_count in *; naive_solver lia.
  - exists p. split; [by apply lookup_stays|].
    assert (∀ q, g ≠ Main q) as Hg.
    { intros q ->. by destruct (Hne (ti_one _ _ Hi _ _ Hk)). }
    assert (g = LoopClosed → p ≠ MAdded) as Hadd.
    { intros -> ->. pose proof (total_two (TWg ClientWg) gs k _ 0 _ Hne Hk H0) as Ht.
      rewrite (ti_tokens _ _ Hi) in Ht. simpl in Hp. unfold tally, held, wg_count in Ht. simpl in Ht. lia. }
    clear Hi H0 Hk Hne.
    destruct e; simpl in Hpre, Hr; invert_all; try (by destruct (Hg _ eq_refl)); try done;
      try (destruct_or!; invert_all); try (by destruct (Hg _ eq_refl)); try (destruct x; invert_all);
      destruct p; simpl in *; unfold wg_count in *; simpl in *; naive_solver lia.
Qed.

(** A deadline, once set, stays; so does what is known of a connection. *)
Lemma deadline_stays X (e : TunE X) s x s' :
  tun_resp dial_type X e s x s' → deadline s = true → deadline s' = true.
Proof.
  intros Hr Hd. destruct e as [| | | | | | | | | | | | | |[]| | | | | |]; simpl in Hr;
    try (destruct x); invert_all; try done; by destruct w.
Qed.

Lemma known_stays X (e : TunE X) s x s' c :
  tun_resp dial_type X e s x s' → known_conn s c → known_conn s' c.
Proof.
  intros Hr Hc. destruct e; simpl in Hr; try (destruct x); invert_all;
    try (by eapply known_alter); try (by apply known_insert); try exact Hc; try (by destruct w).
  destruct Hc as (st & Hst & Ht). unfold known_conn. simpl. rewrite lookup_fmap, Hst. simpl.
  eexists. split; [reflexivity|]. by destruct (c_dialled st).
Qed.

Lemma armed_step gs s k X (e : TunE X) g x s' j cs :
  tun_inv gs s → gs !! k = Some g → tun_pre X e g → tun_resp dial_type X e s x s' →
  (<[k := tun_upd X e g x]> gs ++ tun_birth X e g) !! j = Some (LoopRun true cs) →
  deadline s' = true.
Proof.
  intros Hi Hk Hpre Hr Hj. apply lookup_after in Hj as [[-> Hj]|[[_ Hj]|Hj]].
  - assert (∀ b ds, g = LoopRun b ds → b = true → deadline s = true) as Ha.
    { intros b ds -> ->. by eapply (ti_armed _ _ Hi). }
    destruct e; simpl in Hpre, Hr, Hj; try (destruct x); invert_all; try (destruct_or!; invert_all);
      try done; try (by eapply Ha); simpl; by eauto.
  - eapply deadline_stays; [done|]. by eapply (ti_armed _ _ Hi).
  - destruct e; simpl in Hj; set_solver.
Qed.

Lemma one_step gs s k X (e : TunE X) g x s' j p :
  tun_inv gs s → gs !! k = Some g → tun_pre X e g → tun_resp dial_type X e s x s' →
  (<[k := tun_upd X e g x]> gs ++ tun_birth X e g) !! j = Some (Main p) → j = 0.
Proof.
  intros Hi Hk Hpre Hr Hj. apply lookup_after in Hj as [[-> Hj]|[[_ Hj]|Hj]].
  - enough (∃ q, g = Main q) as [q ->] by (by eapply (ti_one _ _ Hi)).
    destruct e; simpl in Hpre, Hr, Hj; try (destruct x); invert_all; try (destruct_or!; invert_all); by eauto.
  - by eapply (ti_one _ _ Hi).
  - destruct e; simpl in Hj; set_solver.
Qed.

Lemma dirs_step gs s k X (e : TunE X) g x s' j w dst src :
  tun_inv gs s → gs !! k = Some g → tun_pre X e g → tun_resp dial_type X e s x s' →
  let gs' := <[k := tun_upd X e g x]> gs ++ tun_birth X e g in
  gs' !! j = Some (Dir w dst src) →
  ∃ j l r n, gs' !! j = Some (Copying l r (CAdded w n)) ∧
             ((dst = r ∧ src = l) ∨ (dst = l ∧ src = r)).
Proof.
  intros Hi Hk Hpre Hr gs' Hj.
  assert ((∃ j, gs !! j = Some (Dir w dst src)) ∨ tun_birth X e g = [Dir w dst src]) as [[i Hd]|Hb].
  { apply lookup_after in Hj as [[-> Hj]|[[_ Hj]|Hj]]; [|by eauto|].
    - left. exists k. rewrite Hk. f_equal. destruct e; simpl in Hpre, Hr, Hj; try (destruct x); invert_all;
        try (destruct_or!; invert_all); done.
    - right. destruct e; simpl in Hj |- *; set_solver. }
  - destruct (ti_dirs _ _ Hi _ _ _ _ Hd) as (jp & l & r & n & Hp & Hends).
    destruct (decide (jp = k)) as [->|Hne]; [|exists jp, l, r, n; split; [by apply lookup_stays|done]].
    rewrite Hp in Hk. simplify_eq.
    assert (∃ n', tun_upd X e (Copying l r (CAdded w n)) x = Copying l r (CAdded w n')) as [n' Hn'].
    { pose proof (tun_held _ _ _ _ (TWg (CopyWg w)) Hi Hd) as Hw. unfold tally, held in Hw. simpl in Hw.
      rewrite decide_True in Hw by done.
      destruct e; simpl in Hpre, Hr |- *; invert_all; try (destruct_or!; invert_all); try done; eauto; lia. }
    exists k, l, r, n'. split; [|done]. subst gs'. rewrite Hn'. by eapply lookup_changed.
  - destruct e; simpl in Hb, Hpre; simplify_eq. destruct Hpre as (l & r & n & -> & Hends).
    exists k, l, r, n. split; [by eapply lookup_changed|done].
Qed.

Lemma conns_step gs s k X (e : TunE X) g x s' j h c :
  tun_inv gs s → gs !! k = Some g → tun_pre X e g → tun_resp dial_type X e s x s' →
  (<[k := tun_upd X e g x]> gs ++ tun_birth X e g) !! j = Some h → c ∈ role_conns h →
  known_conn s' c.
Proof.
  intros Hi Hk Hpre Hr Hj Hc. pose proof (known_stays _ _ _ _ _ c Hr) as Hks.
  pose proof (ti_conns _ _ Hi) as Hold.
  assert (∀ y, y ∈ role_conns g → known_conn s y) as Hg by eauto.
  apply lookup_after in Hj as [[-> ->]|[[_ Hj]|Hj]]; [|by eauto|].
  - destruct e; simpl in Hpre, Hr, Hc; try (destruct x); invert_all; try (destruct_or!; invert_all);
      simpl in *; try (by eauto); try (set_solver).
    + apply list_elem_of_singleton in Hc as ->. exists (fresh_conn false TCPConn). simpl.
      by rewrite lookup_insert_eq.
    + apply elem_of_cons in Hc as [->|Hc]; [apply known_insert; [done|]; set_solver|].
      apply list_elem_of_singleton in Hc as ->. exists (fresh_conn true (ctype c0)). simpl.
      by rewrite lookup_insert_eq.
  - apply Hks, Hg. destruct e; simpl in Hpre, Hj; try set_solver; invert_all;
      apply list_elem_of_singleton in Hj as ->; simpl in *; set_solver.
Qed.

(** What holds of every connection, call by call. *)
Lemma alter_forall (P : ConnState → Prop) f i (m : gmap nat ConnState) :
  (∀ c st, m !! c = Some st → P st) → (∀ st, m !! i = Some st → P st → P (f st)) →
  ∀ c st, alter f i m !! c = Some st → P st.
Proof.
  intros Hm Hf c st Hc. rewrite lookup_alter in Hc. case_decide; [subst|by eauto].
  apply fmap_Some in Hc as (st' & Hst' & ->). eauto.
Qed.

Lemma insert_forall (P : ConnState → Prop) i st0 (m : gmap nat ConnState) :
  (∀ c st, m !! c = Some st → P st) → P st0 → ∀ c st, <[i := st0]> m !! c = Some st → P st.
Proof.
  intros Hm H0 c st Hc. destruct (decide (i = c)) as [->|Hne].
  - rewrite lookup_insert_eq in Hc. by simplify_eq.
  - rewrite lookup_insert_ne in Hc by done. eauto.
Qed.

Lemma fmap_forall (P : ConnState → Prop) f (m : gmap nat ConnState) :
  (∀ c st, m !! c = Some st → P st) → (∀ st, P st → P (f st)) →
  ∀ c st, (f <$> m) !! c = Some st → P st.
Proof.
  intros Hm Hf c st Hc. rewrite lookup_fmap in Hc. apply fmap_Some in Hc as (st' & Hst' & ->). eauto.
Qed.

(** Only TCP connections are shut down for writing. *)
Lemma shut_step gs s k X (e : TunE X) g x s' :
  tun_inv gs s → gs !! k = Some g → tun_pre X e g → tun_resp dial_type X e s x s' →
  ∀ c st, conns s' !! c = Some st → c_shut st = true → c_type st = TCPConn.
Proof.
  intros Hi Hk Hpre Hr. pose proof (ti_shut _ _ Hi) as Hs.
  set (P st := c_shut st = true → c_type st = TCPConn).
  destruct e; simpl in Hpre, Hr; try (destruct x); invert_all; try (destruct_or!; invert_all);
    simpl; try exact Hs; try (by apply (alter_forall P)); try (by apply (insert_forall P)).
  1,2: apply (fmap_forall P); [done|]; intros st Hst; by destruct (c_dialled st).
  apply (alter_forall P); [done|]. intros st Hst _ _. simpl.
  destruct (ti_conns _ _ Hi _ _ c Hk) as (st' & Hst' & Ht); [simpl; set_solver|].
  rewrite Hst in Hst'. simplify_eq. congruence.
Qed.

(** Without the SSH client every connection dialled through it has ended. *)
Lemma gone_step gs s k X (e : TunE X) g x s' :
  tun_inv gs s → gs !! k = Some g → tun_pre X e g → tun_resp dial_type X e s x s' →
  ssh_open s' = false → ∀ c st, conns s' !! c = Some st → c_dialled st = true → c_eof st = true.
Proof.
  intros Hi Hk Hpre Hr. pose proof (ti_gone _ _ Hi) as Hs.
  set (P st := c_dialled st = true → c_eof st = true).
  destruct e; simpl in Hpre, Hr; try (destruct x); invert_all; try (destruct_or!; invert_all);
    simpl; try exact Hs; try congruence;
    try (intros Ho; specialize (Hs Ho); by first [apply (alter_forall P)|apply (insert_forall P)]).
  all: intros _; intros c st Hc; rewrite lookup_fmap in Hc; apply fmap_Some in Hc as (st' & _ & ->);
       by destruct (c_dialled st') eqn:Hd; [|rewrite Hd].
Qed.

Lemma inv_step gs s k X (e : TunE X) g x s' :
  tun_inv gs s → gs !! k = Some g → tun_pre X e g → tun_resp dial_type X e s x s' →
  tun_inv (<[k := tun_upd X e g x]> gs ++ tun_birth X e g) s'.
Proof.
  intros Hi Hk Hpre Hr. constructor; try (intros; eauto using main_step, armed_step, one_step,
    conns_step, shut_step, gone_step; fail).
  - intros t. pose proof (total_after t gs k g (tun_upd X e g x) (tun_birth X e g) Hk).
    pose proof (tokens_step _ _ _ _ _ _ _ _ t Hi Hk Hpre Hr).
    pose proof (tun_held _ _ _ _ t Hi Hk). rewrite (ti_tokens _ _ Hi) in *. lia.
  - intros j w dst src Hj. by eapply dirs_step.
Qed.

Lemma rely_step X (e : TunE X) g s x s' :
  tun_resp dial_type X e s x s' → tun_rely dial_type X e g x.
Proof. intros Hr. destruct e; try exact I; destruct x; simpl in *; naive_solver. Qed.

(** ** The code keeps to the protocol *)

Abbreviation plays := (keeps tun_pre (tun_rely dial_type) tun_upd tun_fin).
Abbreviation Σtun := (protocol tun_pre (tun_rely dial_type) tun_upd).

Lemma play {X} (e : TunE X) (Q : X → role → Prop) g :
  tun_pre X e g → (∀ x, tun_rely dial_type X e g x → Q x (tun_upd X e g x)) →
  wp Σtun (trigger e) Q g.
Proof. intros Hpre HQ. apply wp_trigger. split; [done|]. by intros x g' [Hx ->]; apply HQ. Qed.

Tactic Notation "step" simple_intropattern(p) :=
  rewrite ?wp_bind; apply play; [simpl; by eauto 8|]; cbn [tun_upd tun_rely is_ok]; intros p ?.
Tactic Notation "step" := step [].

Lemma accept_loop_plays b : plays (accept_loop tt) (LoopRun b []).
Proof.
  unfold keeps, accept_loop, accept_round. rewrite !wp_bind.
  step [|]; [by do 2 step|]. step. step [c| |]; [|by eexists|by do 2 step].
  step [|]; [by do 3 step|]. step [r|]; step; by eexists.
Qed.

Lemma copyConn_plays l r : plays (copyConn l r) (Copying l r CNew).
Proof. unfold keeps, copyConn. step w. by do 6 step. Qed.

Lemma copy_dir_plays w dst src : plays (copy_dir w dst src) (Dir w dst src).
Proof.
  unfold keeps, copy_dir. step. rewrite wp_bind. case_decide; [step|apply wp_ret]; by step.
Qed.

Lemma session_plays : plays session (Main MStart).
Proof.
  unfold keeps, session, NewAgentClient. rewrite !wp_bind. step [[]|err]; [|done].
  step [[]|err]; [|by step]. do 2 step. unfold Close. by do 3 step.
Qed.

Lemma lookup_snoc_peer (gs : list role) j h :
  (gs ++ [Peer]) !! j = Some h → gs !! j = Some h ∨ h = Peer.
Proof.
  intros Hj. apply lookup_app_Some in Hj as [Hj|[_ Hj]]; [by left|right].
  apply list_lookup_singleton_Some in Hj. by destruct Hj.
Qed.

Lemma peer_plays t : peer t → plays t Peer.
Proof. destruct 1; unfold keeps; by step. Qed.

Lemma inv_arrive gs s : tun_inv gs s → tun_inv (gs ++ [Peer]) s.
Proof.
  intros Hi. pose proof (λ j h Hj, lookup_snoc_peer gs j h Hj) as Hl.
  constructor; try apply Hi.
  - intros tk. unfold total. rewrite sum_list_with_app. rewrite <-(ti_tokens _ _ Hi). apply Nat.add_0_r.
  - destruct (ti_main _ _ Hi) as (p & H0 & Hp). exists p. split; [by apply lookup_app_l_Some|done].
  - intros k p Hk. apply Hl in Hk as [Hk|?]; [by eapply (ti_one _ _ Hi)|done].
  - intros k cs Hk. apply Hl in Hk as [Hk|?]; [by eapply (ti_armed _ _ Hi)|done].
  - intros k w dst src Hk. apply Hl in Hk as [Hk|?]; [|done].
    destruct (ti_dirs _ _ Hi _ _ _ _ Hk) as (j & l & r & n & Hj & Hd). exists j, l, r, n.
    split; [by apply lookup_app_l_Some|done].
  - intros k g c Hk Hc. apply Hl in Hk as [Hk| ->]; [by eapply (ti_conns _ _ Hi)|].
    by apply elem_of_nil in Hc.
Qed.

Lemma birth_plays X (e : TunE X) g : Forall2 plays (tun_spawned X e) (tun_birth X e g).
Proof.
  destruct e; try apply Forall2_nil_2; (apply Forall2_cons; split; [|apply Forall2_nil_2]).
  - by exists false.
  - apply copyConn_plays.
  - apply copy_dir_plays.
Qed.

Lemma tun_obligations :
  obligations (tun_resp dial_type) tun_spawned accept_loop peer tun_pre (tun_rely dial_type) tun_upd
    tun_birth tun_fin tun_inv.
Proof.
  constructor.
  - intros gs s k X e g x s' Hi Hk Hpre Hr. split; [by eapply rely_step|by eapply inv_step].
  - intros X e g _. apply birth_plays.
  - intros [] g [b ->]. apply accept_loop_plays.
  - intros t Ht. exists Peer. split; [by apply peer_plays|apply inv_arrive].
Qed.

Lemma fresh_tun_good : good tun_pre (tun_rely dial_type) tun_upd tun_fin tun_inv ([session], fresh_tun).
Proof.
  exists [Main MStart]. split; [apply Forall2_cons; split; [apply session_plays|apply Forall2_nil_2]|].
  constructor; try done.
  - by intros [| |[]| |].
  - by exists MStart.
  - by intros [|k] p Hk.
  - by intros [|k] cs Hk.
  - by intros [|k] w dst src Hk.
  - intros [|k] g c Hk Hc; simplify_eq/=. by apply elem_of_nil in Hc.
Qed.

(** In every interleaving of a client with its goroutines and peers. *)
Abbreviation runs_to c := (treaches (tun_resp dial_type) tun_spawned accept_loop peer ([session], fresh_tun) c).

Lemma tunnel_good c : runs_to c → good tun_pre (tun_rely dial_type) tun_upd tun_fin tun_inv c.
Proof. intros Hr. eapply reaches_inv; [apply tun_obligations|apply fresh_tun_good|exact Hr]. Qed.
End calls.
