(* ===== verification/ForwardProps.v ===== *)
(** * Properties of the tunnel's goroutines

    In every interleaving of a client with its accept loop, its copying
    goroutines and the other ends of its connections: no connection is closed
    while bytes are copied over it but by closing the SSH client, everything that
    was opened is closed in the end, Close waits for nothing but a [Dial] under
    way, and after it the tunnel drains. *)

From stdpp Require Import list_numbers.
From S2P Require Import Prelude Effects Threads Schedules Forward ForwardInv.

(** ** Executions *)

Abbreviation tun_config := (list (TunP (option unit)) * Tun)%type.
Definition tunnel_reaches (dial_type : ConnType) : tun_config → tun_config → Prop :=
  treaches (tun_resp dial_type) tun_spawned accept_loop peer.
Definition tunnel_exec (dial_type : ConnType) : list (option nat) → tun_config → tun_config → Prop :=
  lexec (tun_resp dial_type) tun_spawned accept_loop peer.
Definition new_tunnel : tun_config := ([session], fresh_tun).

(** A call that returns whatever the other goroutines, the peers and the router
    do.  [Accept] is sure to return only because of its deadline, and [io.Copy]
    only when its source has come to an end; dialling waits for the router, with
    no timeout. *)
Definition sure (s : Tun) X (e : TunE X) : bool :=
  match e with
  | SshDial | DialAgent _ => false
  | Accept => deadline s
  | Copy _ src => negb (delivers s src)
  | WgWait w => bool_decide (wg_count w s = 0)
  | WgDone w => bool_decide (0 < wg_count w s)
  | _ => true
  end.

Definition can_go (s : Tun) (t : TunP (option unit)) : bool :=
  match t with
  | Ret None => false
  | Ret (Some _) => true
  | Vis e _ => sure s _ e
  end.

(** The goroutine waits for the router to accept a connection. *)
Definition dialling (t : TunP (option unit)) : bool :=
  match t with Vis SshDial _ | Vis (DialAgent _) _ => true | _ => false end.

(** The goroutine copies from a connection that still delivers; without the SSH
    client that is a local one. *)
Definition copying (s : Tun) (t : TunP (option unit)) : Prop :=
  ∃ dst src cont st, t = Vis (Copy dst src) cont ∧ conns s !! cid src = Some st ∧
    c_eof st = false ∧ is_open s (cid src).

Section tunnel.
Context (dial_type : ConnType).

Abbreviation plays := (keeps tun_pre (tun_rely dial_type) tun_upd tun_fin).

(** A call that is sure to return has an answer. *)
Lemma sure_answers s X (e : TunE X) : sure s X e = true → ∃ x s', tun_resp dial_type X e s x s'.
Proof.
  destruct e; simpl; intros Hs.
  - done.
  - by eexists (Err ""), _.
  - by eexists tt, _.
  - by eexists _, _.
  - by eexists tt, _.
  - by eexists tt, _.
  - by exists AcceptTimeout, s.
  - by eexists tt, _.
  - done.
  - by eexists tt, _.
  - by eexists tt, _.
  - exists tt, s. split; [|done]. unfold delivers in Hs. unfold flowing.
    destruct (conns s !! cid src) as [a|]; [|done]. by destruct (conns s !! cid dst), (c_owned a), (c_eof a).
  - exists (fresh (dom (copy_wgs s))), (set_wg (CopyWg (fresh (dom (copy_wgs s)))) 0 s).
    split; [|done]. apply not_elem_of_dom, is_fresh.
  - by eexists tt, _.
  - eexists tt, _. split; [by apply bool_decide_eq_true in Hs|done].
  - eexists tt, _. split; [by apply bool_decide_eq_true in Hs|done].
  - by eexists tt, _.
  - by eexists tt, _.
  - by eexists tt, _.
  - by eexists tt, _.
  - by eexists tt, _.
Qed.

Lemma tunnel_good' c : tunnel_reaches dial_type new_tunnel c →
  good tun_pre (tun_rely dial_type) tun_upd tun_fin tun_inv c.
Proof. apply tunnel_good. Qed.

(** ** Progress *)

(** What a goroutine in a role does next. *)
Lemma next_move gs s k g t :
  tun_inv gs s → gs !! k = Some g → plays t g →
  t = Ret None ∨ can_go s t = true ∨ copying s t ∨ dialling t = true ∨
  ∃ w cont, t = Vis (WgWait w) cont ∧ 0 < wg_count w s.
Proof.
  intros Hi Hk Hp. destruct t as [[r|]|X e cont]; [by right; left|by left|].
  destruct Hp as [Hpre _]. right. pose proof (λ t, tun_held _ _ _ _ t Hi Hk) as Hh.
  destruct e; simpl in Hpre |- *; try (by left); try (by right; right; left).
  - subst. left. by eapply (ti_armed _ _ Hi).
  - destruct (delivers s src) eqn:Hf; [|by left]. right. left. unfold delivers in Hf.
    destruct (conns s !! cid src) as [st|] eqn:Hst; [|done].
    apply andb_true_iff in Hf as [Ho He]. apply negb_true_iff in He.
    exists dst, src, cont, st. split_and!; try done. exists st. split_and!; try done. intros Hd.
    destruct (ssh_open s) eqn:Hs; [done|]. by rewrite (ti_gone _ _ Hi Hs _ _ Hst Hd) in He.
  - left. apply bool_decide_eq_true. specialize (Hh (TWg w)).
    assert (0 < tally (TWg w) g); [|change (held s (TWg w)) with (wg_count w s) in Hh; lia].
    apply tally_pos. destruct Hpre as [[-> ->]|(n & dst & src & -> & ->)]; simpl; set_solver.
  - destruct (decide (wg_count w s = 0)) as [H0|H0]; [left; by apply bool_decide_eq_true|].
    right. right. right. exists w, cont. split; [done|lia].
Qed.

(** Who a wait group is waiting for. *)
Lemma wg_holder gs s k g w :
  tun_inv gs s → gs !! k = Some g → tun_pre unit (WgWait w) g → 0 < wg_count w s →
  ∃ j h, gs !! j = Some h ∧ 0 < tally (TWg w) h ∧
    match h with LoopRun _ _ | LoopClosed => w = ClientWg | Dir _ _ _ => True | _ => False end.
Proof.
  intros Hi Hk Hpre Hw.
  destruct (total_some (TWg w) gs) as (j & h & Hj & Ht); [by rewrite (ti_tokens _ _ Hi)|].
  exists j, h. split; [done|]. split; [done|]. apply tally_pos in Ht.
  destruct h as [p|b cs| | |l r p| | |]; try done; simpl in Ht; try (by apply elem_of_nil in Ht).
  - destruct Hpre as [[-> ->]|(l & r & n & -> & ->)]; [|destruct p; set_solver].
    rewrite (ti_one _ _ Hi _ _ Hk) in Hk. rewrite (ti_one _ _ Hi _ _ Hj) in Hj. simplify_eq. set_solver.
  - destruct w; [done|]. exfalso. set_solver.
  - set_solver.
  - assert (∃ n m, w = CopyWg n ∧ p = CAdded n (S m)) as (n & m & -> & ->).
    { destruct p as [| |w' [|m]| | |]; simpl in Ht; try set_solver. exists w', m.
      rewrite !elem_of_cons, elem_of_replicate in Ht. naive_solver. }
    destruct Hpre as [[? _]|(l' & r' & n' & ? & ->)]; simplify_eq.
    destruct (decide (j = k)) as [->|Hne]; [congruence|].
    pose proof (total_two (TName n') gs j _ k _ Hne Hj Hk) as H2. rewrite (ti_tokens _ _ Hi) in H2.
    assert (0 < tally (TName n') (Copying l r (CAdded n' (S m)))) by (apply tally_pos; simpl; set_solver).
    assert (0 < tally (TName n') (Copying l' r' (CAdded n' 0))) by (apply tally_pos; simpl; set_solver).
    unfold held in H2. case_decide; lia.
Qed.

(** ** Budgets after the cancellation *)

(** Once the context is cancelled it is seen to be. *)
Definition sees_cancel X (e : TunE X) : X → Prop :=
  match e in TunE X return X → Prop with CtxDone => λ b, b = true | _ => λ _, True end.

(** What the goroutines that a call starts may cost. *)
Definition start_cost X (e : TunE X) : nat :=
  match e with GoAcceptLoop => 4 | GoCopyConn _ _ => 13 | GoCopyDir _ _ _ => 3 | _ => 0 end.
Definition no_cost X (e : TunE X) : nat := 0.

Lemma cancelled_stays X (e : TunE X) s x s' :
  cancelled s = true → tun_resp dial_type X e s x s' → sees_cancel X e x ∧ cancelled s' = true.
Proof.
  intros Hc Hr. destruct e as [| | | | | | | | | | | | |[]|[]|[]| | | | |]; simpl in Hr |- *;
    try (destruct x); invert_all; split; congruence || done.
Qed.

Lemma cancelled_exec ls c c' :
  tunnel_exec dial_type ls c c' → cancelled c.2 = true → cancelled c'.2 = true.
Proof.
  induction 1 as [|l ls c1 c2 c3 Hs _ IH]; [done|]. intros Hc. apply IH.
  destruct Hs as [ts s k X e cont x s' _ Hr| |]; [by eapply cancelled_stays|done..].
Qed.

Ltac budget :=
  unfold no_cost; repeat first
    [ exact I | lia | done
    | match goal with
      | |- _ ∧ _ => split
      | |- ?P → _ => match type of P with Prop => intros ? end
      | |- ∀ x : unit, _ => intros []
      | |- ∀ x : bool, _ => intros [|]
      | |- ∀ x : accepted, _ => intros [?| |]
      | |- ∀ x : option Conn, _ => intros [?|]
      | |- ∀ x : result _ unit, _ => intros [[]|?]
      | |- ∀ x : nat, _ => intros ?
      end
    | progress cbn -[Nat.le]
    | case_decide ].

Abbreviation fits cost n := (always (ends accept_loop sees_cancel cost n)).

Lemma accept_loop_fits u : fits start_cost 19 (accept_loop u) ∧ fits no_cost 7 (accept_loop u).
Proof. unfold accept_loop, accept_round. budget. Qed.
Lemma copyConn_fits l r : fits start_cost 19 (copyConn l r) ∧ fits no_cost 7 (copyConn l r).
Proof. unfold copyConn. budget. Qed.
Lemma copy_dir_fits w d s : fits start_cost 19 (copy_dir w d s) ∧ fits no_cost 7 (copy_dir w d s).
Proof. unfold copy_dir. budget. Qed.
Lemma session_fits : fits start_cost 19 session ∧ fits no_cost 7 session.
Proof. unfold session, NewAgentClient, Close. budget. Qed.
Lemma peer_fits t : peer t → fits start_cost 19 t ∧ fits no_cost 7 t.
Proof. destruct 1; budget. Qed.

Lemma all_fit c : tunnel_reaches dial_type new_tunnel c →
  Forall (fits start_cost 19) c.1 ∧ Forall (fits no_cost 7) c.1.
Proof.
  intros Hr. split; (eapply always_reaches; [| | |exact Hr|]);
    try (intros; by apply accept_loop_fits); try (intros; by apply peer_fits);
    try (constructor; [by apply session_fits|constructor]).
  all: intros X e; destruct e; repeat constructor; try apply copyConn_fits; try apply copy_dir_fits.
  all: budget.
Qed.

Lemma starts_weighed X (e : TunE X) :
  ∃ ws, Forall2 (ends accept_loop sees_cancel start_cost) ws (tun_spawned X e) ∧
        sum_list ws ≤ start_cost X e.
Proof.
  destruct e; try (by exists []; split; [constructor|]).
  - exists [4]. split; [|done]. constructor; [budget|constructor].
  - exists [13]. split; [|done]. constructor; [unfold copyConn; budget|constructor].
  - exists [3]. split; [|done]. constructor; [unfold copy_dir; budget|constructor].
Qed.

(** ** What is left when goroutines return *)

Lemma returned_role g : plays (Ret None) g → no_conns_held g.
Proof. done. Qed.

Lemma done_tokens g t : no_conns_held g → t ∈ tokens g → ∃ w, t = TName w.
Proof. destruct g as [[]| | | |l r []| | |]; simpl; try done; set_solver. Qed.

(** With the session over, the tunnel is shut: no loop, no listener, no client. *)
Lemma session_over gs s :
  tun_inv gs s → gs !! 0 = Some (Main MStart) ∨ gs !! 0 = Some (Main MDone) →
  client_wg s = 0 ∧ ssh_open s = false ∧ listening s = false.
Proof.
  intros Hi H0. destruct (ti_main _ _ Hi) as (p & Hp & Hok).
  assert (client_wg s = 0 ∧ ssh_open s = false) as [Hw Hs].
  { destruct H0 as [H0|H0]; rewrite H0 in Hp; simplify_eq; simpl in Hok; tauto. }
  split; [done|]. split; [done|]. destruct (listening s) eqn:Hl; [|done]. exfalso.
  destruct (total_some TListener gs) as (k & g & Hk & Ht).
  { rewrite (ti_tokens _ _ Hi). simpl. rewrite Hl. lia. }
  apply tally_pos in Ht.
  assert (0 < tally (TWg ClientWg) g ∨ ∃ q, g = Main q) as [Hg|[q ->]].
  { destruct g as [q|b cs| | |l r p'| | |]; [by eauto|left; apply tally_pos; simpl; set_solver|..];
      exfalso; try destruct p'; simpl in Ht;
      rewrite ?elem_of_cons, ?elem_of_nil, ?elem_of_app, ?elem_of_replicate in Ht; naive_solver. }
  - pose proof (tun_held _ _ _ _ (TWg ClientWg) Hi Hk) as Hh. simpl in Hh. lia.
  - rewrite (ti_one _ _ Hi _ _ Hk) in Hk. destruct H0 as [H0|H0]; rewrite H0 in Hk; simplify_eq;
      simpl in Ht; set_solver.
Qed.

Lemma token_owned gs s k g c :
  tun_inv gs s → gs !! k = Some g → TConn c ∈ tokens g →
  ∃ st, conns s !! c = Some st ∧ c_owned st = true.
Proof.
  intros Hi Hk Hc. apply tally_pos in Hc. pose proof (tun_held _ _ _ _ (TConn c) Hi Hk) as Hh.
  simpl in Hh. destruct (conns s !! c) as [st|]; [|lia].
  exists st. split; [done|]. by destruct (c_owned st); [|lia].
Qed.

Lemma loop_counted gs s k g :
  tun_inv gs s → gs !! k = Some g → TWg ClientWg ∈ tokens g → 0 < client_wg s.
Proof.
  intros Hi Hk Hc. apply tally_pos in Hc. pose proof (tun_held _ _ _ _ (TWg ClientWg) Hi Hk) as Hh.
  simpl in Hh. lia.
Qed.

Lemma main_returned gs s :
  tun_inv gs s → ∀ g, gs !! 0 = Some g → no_conns_held g →
  gs !! 0 = Some (Main MStart) ∨ gs !! 0 = Some (Main MDone).
Proof.
  intros Hi g H0 Hn. destruct (ti_main _ _ Hi) as (p & Hp & _). rewrite H0 in Hp. simplify_eq.
  rewrite H0. destruct p; simpl in Hn; try done; by auto.
Qed.

Lemma all_closed c :
  tunnel_reaches dial_type new_tunnel c → Forall (λ t, t = Ret None) c.1 →
  ∀ i st, conns c.2 !! i = Some st → c_owned st = false.
Proof.
  intros Hr Hall i st Hst. destruct (c_owned st) eqn:Ho; [exfalso|done]. destruct (tunnel_good' _ Hr) as (gs & Hk & Hi).
  destruct (total_some (TConn i) gs) as (k & g & Hg & Ht).
  { rewrite (ti_tokens _ _ Hi). simpl. rewrite Hst, Ho. lia. }
  destruct (Forall2_lookup_r _ _ _ _ _ Hk Hg) as (t & Htk & Hp).
  pose proof (Forall_lookup_1 _ _ _ _ Hall Htk) as ->. simpl in Hp.
  apply tally_pos in Ht. by destruct (done_tokens _ _ Hp Ht).
Qed.

(** The goroutine of a copy, and the connections it works on. *)
Lemma copy_owned gs c k dst src cont x :
  tun_inv gs c.2 → Forall2 plays c.1 gs → c.1 !! k = Some (Vis (Copy dst src) cont) → x = dst ∨ x = src →
  ∃ st, conns c.2 !! cid x = Some st ∧ c_owned st = true.
Proof.
  intros Hi Hk Hc Hx. destruct (Forall2_lookup_l _ _ _ _ _ Hk Hc) as (g & Hg & [w ->] & _).
  destruct (ti_dirs _ _ Hi _ _ _ _ Hg) as (j & l & r & n & Hj & Hd).
  eapply token_owned; [done|exact Hj|].
  destruct Hd as [[-> ->]|[-> ->]], Hx as [-> | ->]; simpl; set_solver.
Qed.

(** C19: connections of a tunnel are neither cut nor leaked.  In every
    interleaving of a client, its accept loop, its copying goroutines and the
    other ends: while bytes are copied between two connections, copyConn has
    closed neither, and each of them is open on this side unless it was dialled
    through the SSH client and that client has been closed (Close does not wait
    for the copies); once the session has returned, the listener and the SSH
    client are closed and no goroutine accepts a connection or dials the agent
    any more; and when all goroutines have returned, every connection that was
    accepted or dialled has been closed by its owner. *)
Theorem connections_neither_cut_nor_leaked c :
  tunnel_reaches dial_type new_tunnel c →
  (∀ k dst src cont x, c.1 !! k = Some (Vis (Copy dst src) cont) → x = dst ∨ x = src →
     ∃ st, conns c.2 !! cid x = Some st ∧ c_owned st = true ∧
       (is_open c.2 (cid x) ∨ (c_dialled st = true ∧ ssh_open c.2 = false))) ∧
  (c.1 !! 0 = Some (Ret None) →
     listening c.2 = false ∧ ssh_open c.2 = false ∧
     ∀ k cont, c.1 !! k ≠ Some (Vis Accept cont) ∧
     ∀ a cont', c.1 !! k ≠ Some (Vis (DialAgent a) cont')) ∧
  (Forall (λ t, t = Ret None) c.1 → ∀ i st, conns c.2 !! i = Some st → c_owned st = false).
Proof.
  intros Hr. destruct (tunnel_good' _ Hr) as (gs & Hk & Hi). split; [|split].
  - intros k dst src cont x Hc Hx. destruct (copy_owned _ _ _ _ _ _ _ Hi Hk Hc Hx) as (st & Hst & Ho).
    exists st. split_and!; try done. destruct (c_dialled st) eqn:Hd, (ssh_open c.2) eqn:Hs; auto.
    all: left; exists st; split_and!; congruence.
  - intros Ho. destruct (Forall2_lookup_l _ _ _ _ _ Hk Ho) as (g0 & H0 & Hn).
    pose proof (session_over _ _ Hi (main_returned _ _ Hi _ H0 Hn)) as (Hw & Hs & Hl).
    split; [done|]. split; [done|]. intros k cont. split.
    + intros Ha. destruct (Forall2_lookup_l _ _ _ _ _ Hk Ha) as (g & Hg & -> & _).
      pose proof (loop_counted _ _ _ _ Hi Hg ltac:(simpl; set_solver)). lia.
    + intros a cont' Ha. destruct (Forall2_lookup_l _ _ _ _ _ Hk Ha) as (g & Hg & [(b & c0 & ->) _] & _).
      pose proof (loop_counted _ _ _ _ Hi Hg ltac:(simpl; set_solver)). lia.
  - by apply all_closed.
Qed.

(** Only TCP connections are half-closed.  copyConn signals the end of one
    direction with CloseWrite when the connection is a [*net.TCPConn]; a
    connection through the SSH client that is of another type is never told
    that its peer has stopped sending, as long as it is open. *)
Theorem half_close_only_tcp c i st :
  tunnel_reaches dial_type new_tunnel c → conns c.2 !! i = Some st → c_type st ≠ TCPConn →
  c_shut st = false.
Proof.
  intros Hr Hst Ht. destruct (tunnel_good' _ Hr) as (gs & _ & Hi).
  destruct (c_shut st) eqn:Hs; [|done]. destruct Ht. by eapply (ti_shut _ _ Hi).
Qed.

(** ** Close returns *)

Definition is_loop (g : role) : Prop := match g with LoopRun _ _ | LoopClosed => True | _ => False end.

(** After the cancellation the only accept loop there can be is goroutine [l]. *)
Definition loop_at (l : nat) (gs : list role) (s : Tun) : Prop :=
  tun_inv gs s ∧ cancelled s = true ∧ ∀ k g, gs !! k = Some g → is_loop g → k = l.

Lemma loop_token g : is_loop g → TWg ClientWg ∈ tokens g.
Proof. destruct g; simpl; set_solver. Qed.

Lemma one_loop gs s :
  tun_inv gs s → ∃ l, is_Some (gs !! l) ∧ ∀ k g, gs !! k = Some g → is_loop g → k = l.
Proof.
  intros Hi. destruct (ti_main _ _ Hi) as (p & Hm & Hp).
  assert (client_wg s ≤ 1) as Hle by (destruct p; simpl in Hp; lia).
  destruct (decide (0 < total (TWg ClientWg) gs)) as [H0|H0].
  - destruct (total_some _ _ H0) as (l & h & Hl & Ht). exists l. split; [by eauto|]. intros k g Hk Hg.
    destruct (decide (k = l)) as [|Hne]; [done|]. exfalso.
    apply loop_token, tally_pos in Hg. pose proof (total_two (TWg ClientWg) _ _ _ _ _ Hne Hk Hl) as H2.
    rewrite (ti_tokens _ _ Hi) in H2. simpl in H2. lia.
  - exists 0. split; [by eauto|]. intros k g Hk Hg. apply loop_token, tally_pos in Hg.
    pose proof (total_one (TWg ClientWg) _ _ _ Hk). lia.
Qed.

Lemma loop_at_obligations l :
  obligations (tun_resp dial_type) tun_spawned accept_loop peer tun_pre (tun_rely dial_type) tun_upd
    tun_birth tun_fin (loop_at l).
Proof.
  constructor.
  - intros gs s k X e g x s' (Hi & Hc & Hl) Hk Hpre Hr. split; [by eapply rely_step|].
    split; [by eapply inv_step|]. split; [by eapply cancelled_stays|].
    intros j h Hj Hh. apply lookup_after in Hj as [[-> ->]|[[_ Hj]|Hj]]; [|by eauto|].
    + eapply Hl; [exact Hk|]. clear Hi. destruct e; simpl in Hpre, Hh; try (destruct x); invert_all;
        try (destruct_or!; invert_all); done.
    + destruct e; simpl in Hj, Hpre; try set_solver. subst.
      rewrite (ti_one _ _ Hi _ _ Hk) in Hk. destruct (ti_main _ _ Hi) as (p & Hp & Hok).
      rewrite Hk in Hp. simplify_eq. simpl in Hok. destruct Hok. congruence.
  - intros X e g _. apply birth_plays.
  - intros [] g [b ->]. apply accept_loop_plays.
  - intros t Ht. exists Peer. split; [by apply peer_plays|]. intros gs s (Hi & Hc & Hl).
    split; [by apply inv_arrive|]. split; [done|]. intros k g Hk Hg.
    apply lookup_snoc_peer in Hk as [Hk| ->]; [by eauto|done].
Qed.

(** The goroutine is dialling the agent through the SSH client. *)
Definition dials (t : TunP (option unit)) : bool :=
  match t with Vis (DialAgent _) _ => true | _ => false end.

(** After the cancellation only the loop dials. *)
Lemma dialling_loop gs s k g t :
  tun_inv gs s → cancelled s = true → gs !! k = Some g → plays t g → dialling t = true →
  dials t = true ∧ is_loop g.
Proof.
  intros Hi Hc Hk Hp Hd. destruct t as [o|X e cont]; [done|]. destruct Hp as [Hpre _].
  destruct e; simpl in Hd, Hpre; try done; [|by destruct Hpre as [(b & c & ->) _]].
  subst. rewrite (ti_one _ _ Hi _ _ Hk) in Hk. destruct (ti_main _ _ Hi) as (p & Hp & Hok).
  rewrite Hk in Hp. simplify_eq. simpl in Hok. destruct Hok. congruence.
Qed.

(** The session waits only for the loop, and the loop only for its [Dial]. *)
Lemma close_progress l c :
  good tun_pre (tun_rely dial_type) tun_upd tun_fin (loop_at l) c →
  c.1 !! 0 = Some (Ret None) ∨
  (∃ k t, (k = 0 ∨ k = l) ∧ c.1 !! k = Some t ∧ can_go c.2 t = true) ∨
  ∃ t, c.1 !! l = Some t ∧ dials t = true.
Proof.
  intros (gs & Hk & Hi & Hc & Hl). destruct (ti_main _ _ Hi) as (p & H0 & Hp).
  destruct (Forall2_lookup_r _ _ _ _ _ Hk H0) as (t & Ht & Hplay).
  destruct (next_move _ _ _ _ _ Hi H0 Hplay) as [->|[Hgo|[Hcopy|[Hd|(w & cont & -> & Hw)]]]].
  - by left.
  - right. left. exists 0, t. auto.
  - destruct Hcopy as (dst & src & cont & st & -> & _). by destruct Hplay as [[w ?] _].
  - by destruct (dialling_loop _ _ _ _ _ Hi Hc H0 Hplay Hd).
  - destruct Hplay as [[[-> _]|(? & ? & ? & _ & ?)] _]; [|done]. right.
    destruct (wg_holder _ _ _ _ ClientWg Hi H0) as (j & h & Hj & Hth & Hh); [|done|].
    { destruct (Forall2_lookup_r _ _ _ _ _ Hk H0) as (t & Ht' & Hp'). rewrite Ht in Ht'.
      simplify_eq. by destruct Hp'. }
    apply tally_pos in Hth.
    assert (is_loop h) as Hloop by (destruct h; simpl in Hth; try done; set_solver).
    rewrite (Hl _ _ Hj Hloop) in Hj. destruct (Forall2_lookup_r _ _ _ _ _ Hk Hj) as (t' & Ht' & Hp').
    destruct (next_move _ _ _ _ _ Hi Hj Hp') as [->|[Hgo|[Hcopy|[Hd|(w & cont' & -> & Hw')]]]].
    + by destruct h.
    + left. exists l, t'. auto.
    + destruct Hcopy as (dst & src & cont' & st & -> & _). destruct Hp' as [[w ->] _]. done.
    + right. exists t'. split; [done|]. by eapply dialling_loop.
    + destruct Hp' as [[[-> ->]|(? & ? & ? & _ & ->)] _]; done.
Qed.

Lemma few_steps ls c c' k t :
  tunnel_reaches dial_type new_tunnel c → cancelled c.2 = true → c.1 !! k = Some t →
  tunnel_exec dial_type ls c c' → steps_of k ls ≤ 7.
Proof.
  intros Hr Hc Hk Hx. destruct (all_fit _ Hr) as [_ Hf].
  pose proof (always_now _ _ (Forall_lookup_1 _ _ _ _ Hf Hk)) as He.
  destruct (own_budget_spent (tun_resp dial_type) tun_spawned accept_loop peer sees_cancel no_cost
    (λ s, cancelled s = true) (λ X e s x s' H1 H2, cancelled_stays X e s x s' H1 H2)
    ls c c' k 7 t Hx Hc Hk He) as (_ & n' & _ & _ & _ & Hle). lia.
Qed.

(** C20: Close waits for nothing but a [Dial] that is under way.  Once Close has
    cancelled the tunnel's context there is a goroutine [l], the accept loop,
    such that in every continuation, whatever the copying goroutines and the
    other ends do, the session and [l] make at most seven more steps each, and as
    long as the session has not returned, one of the two is at a call that is
    sure to return, or [l] is at the [Dial] of the agent through the SSH client,
    which has no timeout and waits for the router: neither is ever blocked on a
    connection.  So under every fair scheduling Close returns if the router
    answers that [Dial]. *)
Theorem Close_waits_only_for_dial c :
  tunnel_reaches dial_type new_tunnel c → cancelled c.2 = true →
  ∃ l, ∀ ls c', tunnel_exec dial_type ls c c' →
    steps_of 0 ls ≤ 7 ∧ steps_of l ls ≤ 7 ∧
    (c'.1 !! 0 = Some (Ret None) ∨
     (∃ k t, (k = 0 ∨ k = l) ∧ c'.1 !! k = Some t ∧ can_go c'.2 t = true) ∨
     ∃ t, c'.1 !! l = Some t ∧ dials t = true).
Proof.
  intros Hr Hc. destruct (tunnel_good' _ Hr) as (gs & Hk & Hi).
  destruct (one_loop _ _ Hi) as (l & [g Hg] & Hl).
  destruct (Forall2_lookup_r _ _ _ _ _ Hk Hg) as (t & Ht & _).
  destruct (ti_main _ _ Hi) as (p & H0 & _). destruct (Forall2_lookup_r _ _ _ _ _ Hk H0) as (t0 & Ht0 & _).
  exists l. intros ls c' Hx. split; [by eapply few_steps|]. split; [by eapply few_steps|].
  apply close_progress. eapply reaches_inv; [apply loop_at_obligations| |by eapply lexec_treaches].
  by exists gs.
Qed.

(** ** The tunnel drains *)

Definition finished (t : TunP (option unit)) : bool := match t with Ret None => true | _ => false end.

(** Who is not waiting for a wait group is copying, can go on or has returned;
    who is waiting waits for such a goroutine. *)
Lemma drain_progress c :
  good tun_pre (tun_rely dial_type) tun_upd tun_fin tun_inv c →
  (∃ k t, c.1 !! k = Some t ∧ (can_go c.2 t = true ∨ copying c.2 t ∨ dialling t = true)) ∨
  Forall (λ t, t = Ret None) c.1.
Proof.
  intros (gs & Hk & Hi). destruct (decide (Forall finished c.1)) as [Hall|Hsome].
  { right. eapply Forall_impl; [exact Hall|]. by intros [[|]|]. }
  left. apply not_Forall_Exists in Hsome; [|apply _].
  apply Exists_exists in Hsome as (t & Ht & Hf). apply list_elem_of_lookup_1 in Ht as [k Ht].
  destruct (Forall2_lookup_l _ _ _ _ _ Hk Ht) as (g & Hg & Hp).
  destruct (next_move _ _ _ _ _ Hi Hg Hp) as [->|[Hgo|[Hcopy|[Hd|(w & cont & -> & Hw)]]]];
    [by destruct Hf|by eauto 6..|].
  destruct (wg_holder _ _ _ _ w Hi Hg (proj1 Hp) Hw) as (j & h & Hj & Hth & Hh).
  destruct (Forall2_lookup_r _ _ _ _ _ Hk Hj) as (t' & Ht' & Hp'). exists j, t'. split; [done|].
  destruct (next_move _ _ _ _ _ Hi Hj Hp') as [->|[Hgo|[Hcopy|[Hd|(w' & cont' & -> & _)]]]]; [|by auto..|].
  - simpl in Hp'. apply tally_pos in Hth. by destruct (done_tokens _ _ Hp' Hth).
  - destruct Hp' as [[[-> ->]|(? & ? & ? & _ & ->)] _]; done.
Qed.

(** C21: a cancelled tunnel drains.  Once the context is cancelled, an execution in
    which no new peer event arrives is at most nineteen steps per goroutine
    long; and at every point some goroutine is at a call that is sure to return,
    or one copies from a connection that is open and whose other end has not
    finished (a local one, if the SSH client is closed), or the accept loop is
    waiting for the router to answer its [Dial], or every goroutine has returned
    and every connection has been closed by its owner.  So when the router has
    answered and the local ends have hung up after Close, everything is closed. *)
Theorem tunnel_drains c ls c' :
  tunnel_reaches dial_type new_tunnel c → cancelled c.2 = true →
  tunnel_exec dial_type ls c c' → Forall is_Some ls →
  length ls ≤ 19 * length c.1 ∧
  ((∃ k t, c'.1 !! k = Some t ∧ (can_go c'.2 t = true ∨ copying c'.2 t ∨ dials t = true)) ∨
   (Forall (λ t, t = Ret None) c'.1 ∧ ∀ i st, conns c'.2 !! i = Some st → c_owned st = false)).
Proof.
  intros Hr Hc Hx Hls. split.
  - destruct (all_fit _ Hr) as [Hf _].
    destruct (budget_spent (tun_resp dial_type) tun_spawned accept_loop peer sees_cancel start_cost
      (λ s, cancelled s = true) (λ X e s x s' H1 H2, cancelled_stays X e s x s' H1 H2) starts_weighed
      ls c c' (replicate (length c.1) 19) Hx Hls Hc) as [Hle _].
    { apply Forall2_replicate_l; [done|]. eapply Forall_impl; [exact Hf|]. apply always_now. }
    rewrite sum_list_replicate in Hle. lia.
  - assert (tunnel_reaches dial_type new_tunnel c') as Hr' by (etrans; [exact Hr|by eapply lexec_treaches]).
    destruct (tunnel_good' _ Hr') as (gs & Hk & Hi).
    pose proof (cancelled_exec _ _ _ Hx Hc) as Hc'.
    destruct (drain_progress c') as [(k & t & Ht & Hgo)|Hall]; [by exists gs|left|right].
    + exists k, t. split; [done|]. destruct Hgo as [?|[?|Hd]]; auto. right. right.
      destruct (Forall2_lookup_l _ _ _ _ _ Hk Ht) as (g & Hg & Hp). by eapply dialling_loop.
    + split; [done|]. by apply all_closed.
Qed.
End tunnel.
