(* ===== verification/ForwardSim.v ===== *)
(** * Replayed tunnels

    A scheduler for the tunnel's goroutines, and the theorems of ForwardProps at
    an execution that forwards one connection and is then closed. *)

From stdpp Require Import list_numbers.
From S2P Require Import Prelude Effects Threads Schedules Forward ForwardInv ForwardProps.

(** One possible answer to each call; [n] chooses a connection, or a failure
    when it is 0. *)
Definition tun_answer (dial_type : ConnType) (n : nat) X (e : TunE X) (s : Tun) : option (X * Tun) :=
  match e in TunE X return option (X * Tun) with
  | SshDial => Some (Ok tt, set_flags (cancelled s) (deadline s) (listening s) true s)
  | Listen => Some (Ok tt, set_flags (cancelled s) (deadline s) true (ssh_open s) s)
  | SshClose => Some (tt, set_conns (fmap (λ c, if c_dialled c then broken_conn c else c))
                            (set_flags (cancelled s) (deadline s) (listening s) false s))
  | CtxDone => Some (cancelled s, s)
  | Cancel => Some (tt, set_flags true (deadline s) (listening s) (ssh_open s) s)
  | SetDeadline => Some (tt, set_flags (cancelled s) true (listening s) (ssh_open s) s)
  | Accept =>
    if decide (n = 0) then if deadline s then Some (AcceptTimeout, s) else None
    else if listening s && bool_decide (conns s !! n = None)
    then Some (Accepted {| cid := n; ctype := TCPConn |}, set_conns <[n := fresh_conn false TCPConn]> s)
    else None
  | CloseListener => Some (tt, set_flags (cancelled s) (deadline s) false (ssh_open s) s)
  | DialAgent _ =>
    if ssh_open s && bool_decide (conns s !! n = None)
    then Some (Some {| cid := n; ctype := dial_type |}, set_conns <[n := fresh_conn true dial_type]> s)
    else Some (None, s)
  | CloseConn c => Some (tt, set_conns (alter closed_conn (cid c)) s)
  | CloseWrite c => Some (tt, set_conns (alter shut_conn (cid c)) s)
  | Copy dst src => if flowing s dst src then None else Some (tt, s)
  | NewWg => if decide (copy_wgs s !! n = None) then Some (n, set_wg (CopyWg n) 0 s) else None
  | WgAdd w m => Some (tt, set_wg w (wg_count w s + m) s)
  | WgDone w => if decide (0 < wg_count w s) then Some (tt, set_wg w (wg_count w s - 1) s) else None
  | WgWait w => if decide (wg_count w s = 0) then Some (tt, s) else None
  | GoAcceptLoop | GoCopyConn _ _ | GoCopyDir _ _ _ => Some (tt, s)
  | PeerEnds c => Some (tt, set_conns (alter ended_conn c) s)
  | PeerBreaks c => Some (tt, set_conns (alter broken_conn c) s)
  end.

Lemma tun_answer_resp dt n X (e : TunE X) s x s' :
  tun_answer dt n X e s = Some (x, s') → tun_resp dt X e s x s'.
Proof.
  destruct e; simpl; intros H; repeat (case_decide || case_match); simplify_eq/=; try done;
    repeat match goal with
    | H : _ && _ = true |- _ => apply andb_true_iff in H as [? ?]
    | H : bool_decide _ = true |- _ => apply bool_decide_eq_true in H
    end; done.
Qed.

(** The configuration after a list of moves. *)
Abbreviation tun_move := (@replay_move TunE unit).
Definition tun_at (dt : ConnType) : list tun_move → tun_config → tun_config :=
  replayed tun_spawned accept_loop (tun_answer dt).
Definition tun_possible (dt : ConnType) (ms : list tun_move) (c : tun_config) : bool :=
  match replay tun_spawned accept_loop (tun_answer dt) ms c with Some _ => true | None => false end.

Lemma tun_at_exec dt ms c :
  Forall (move_ok peer) ms → tun_possible dt ms c = true →
  tunnel_exec dt (move_label <$> ms) c (tun_at dt ms c).
Proof.
  intros Hok Hp. apply replay_exec; [apply tun_answer_resp|done|].
  unfold tun_possible in Hp. by case_match.
Qed.

Definition ends (c : nat) : TunP (option unit) := _ ← trigger (PeerEnds c); mret None.

(** A client is created; its loop accepts connection 1 and dials connection 2;
    copyConn starts both directions; Close cancels the context. *)
Definition forwarding : list tun_move :=
  [Go 0 0; Go 0 0; Go 0 0; Go 0 0;
   Go 1 0; Go 1 0; Go 1 0; Go 1 1; Go 1 0; Go 1 2; Go 1 0;
   Go 2 7; Go 2 0; Go 2 0; Go 2 0; Go 0 0].

(** The loop notices, the SSH client is closed, the HTTP client hangs up, both
    directions end and the connections are closed. *)
Definition draining : list tun_move :=
  [Go 1 0; Go 1 0; Go 1 0; Go 1 0; Go 0 0; Go 0 0; Go 4 0; Go 4 0; Go 4 0].
Definition hanging_up : list tun_move :=
  [Arrive (ends 1); Go 5 0; Go 3 0; Go 3 0; Go 2 0; Go 2 0; Go 2 0].

Definition demo_closing : tun_config := tun_at ChanConn forwarding new_tunnel.
Definition demo_drained : tun_config := tun_at ChanConn draining demo_closing.
Definition demo_over : tun_config := tun_at ChanConn (forwarding ++ draining ++ hanging_up) new_tunnel.

Lemma demo_closing_reached :
  tunnel_reaches ChanConn new_tunnel demo_closing ∧ cancelled demo_closing.2 = true.
Proof.
  split; [|vm_compute; reflexivity]. eapply lexec_treaches. apply tun_at_exec.
  - by repeat constructor.
  - vm_compute. reflexivity.
Qed.

(** The same execution, played to the end. *)
Lemma demo_over_reached : tunnel_reaches ChanConn new_tunnel demo_over.
Proof.
  eapply lexec_treaches. apply tun_at_exec; [|vm_compute; reflexivity].
  by repeat constructor.
Qed.

Lemma demo_drained_exec : tunnel_exec ChanConn (move_label <$> draining) demo_closing demo_drained.
Proof. apply tun_at_exec; [by repeat constructor|vm_compute; reflexivity]. Qed.

Lemma demo_over_finished : Forall (λ t, t = Ret None) demo_over.1.
Proof.
  assert (forallb finished demo_over.1 = true) as Hf by (vm_compute; reflexivity).
  revert Hf. generalize demo_over.1. intros l Hf. apply Forall_forall. intros t Ht.
  rewrite forallb_forall in Hf. specialize (Hf t). rewrite <-list_elem_of_In in Hf.
  specialize (Hf Ht). by destruct t as [[|]|].
Qed.

Lemma connections_neither_cut_nor_leaked_witness :
  Forall (λ t, t = Ret None) demo_over.1 ∧
  ∀ i st, conns demo_over.2 !! i = Some st → c_owned st = false.
Proof.
  split; [exact demo_over_finished|].
  exact (proj2 (proj2 (connections_neither_cut_nor_leaked ChanConn demo_over demo_over_reached))
           demo_over_finished).
Defined.

Lemma half_close_only_tcp_witness :
  ∃ st, conns demo_over.2 !! 2 = Some st ∧ c_shut st = false.
Proof.
  refine (ex_intro _ {| c_owned := false; c_shut := false; c_eof := true; c_broken := true;
                        c_dialled := true; c_type := ChanConn |} _).
  assert (conns demo_over.2 !! 2 = Some {| c_owned := false; c_shut := false; c_eof := true;
    c_broken := true; c_dialled := true; c_type := ChanConn |}) as H2 by (vm_compute; reflexivity).
  split; [exact H2|].
  exact (half_close_only_tcp ChanConn demo_over 2 _ demo_over_reached H2 ltac:(done)).
Defined.

Lemma Close_waits_only_for_dial_witness :
  cancelled demo_closing.2 = true ∧
  ∃ l, ∀ ls c', tunnel_exec ChanConn ls demo_closing c' →
    steps_of 0 ls ≤ 7 ∧ steps_of l ls ≤ 7 ∧
    (c'.1 !! 0 = Some (Ret None) ∨
     (∃ k t, (k = 0 ∨ k = l) ∧ c'.1 !! k = Some t ∧ can_go c'.2 t = true) ∨
     ∃ t, c'.1 !! l = Some t ∧ dials t = true).
Proof.
  destruct demo_closing_reached as [Hr Hc]. split; [exact Hc|].
  exact (Close_waits_only_for_dial ChanConn demo_closing Hr Hc).
Defined.

Lemma tunnel_drains_witness :
  length (move_label <$> draining) ≤ 19 * length demo_closing.1 ∧
  ((∃ k t, demo_drained.1 !! k = Some t ∧
      (can_go demo_drained.2 t = true ∨ copying demo_drained.2 t ∨ dials t = true)) ∨
   (Forall (λ t, t = Ret None) demo_drained.1 ∧
    ∀ i st, conns demo_drained.2 !! i = Some st → c_owned st = false)).
Proof.
  destruct demo_closing_reached as [Hr Hc].
  refine (tunnel_drains ChanConn demo_closing (move_label <$> draining) demo_drained Hr Hc demo_drained_exec _).
  repeat constructor; by eexists.
Defined.
