(* ===== verification/HandlerBooks.v ===== *)
(** * Event handlers and their managers

    The reconciler keeps three maps beside the registry: which handler a claim
    registered, on which manager, for which router.  As long as all claims that
    name the same router log in to it in the same way, these maps, the registry
    and the managers' own handler tables agree after every call that changes
    them ([booked]). *)

From Stdlib Require Import SpecFloat.
From S2P Require Import Prelude Effects GoStd Helpers Json Http ClaimTypes Env Pool SshManager Sim.
From S2P Require Import SshCommands Registry AgentClient Controller.

Local Open Scope Z_scope.

(** The claim a handler belongs to. *)
Definition hkey (h : Handler) : string := h_namespace h +:+ "/" +:+ h_name h.

(** ** The invariant *)

(** [ident] gives the identity under which a router's address is registered. *)
Record booked (ident : string → string) (s : Op) : Prop := {
  bk_heap : ∀ m, is_Some (heap s !! m) → (m < next s)%nat;
  bk_reg : ∃ r, SSHRegistry s = Some r ∧
    (∀ a k m, reg_lookup r a k = Some m → k = ident a ∧
       ∃ mgr, heap s !! m = Some mgr ∧ Address (config mgr) = a) ∧
    (∀ key m, claimManagers s !! key = Some m →
       ∃ a, routerAssignments s !! key = Some a ∧ a ≠ "" ∧ reg_lookup r a (ident a) = Some m);
  bk_both : ∀ key, is_Some (claimManagers s !! key) → is_Some (sshHandlers s !! key);
  bk_claim : ∀ key id, sshHandlers s !! key = Some id →
    ∃ m mgr h, claimManagers s !! key = Some m ∧ heap s !! m = Some mgr ∧
               handlers mgr !! id = Some h ∧ hkey h = key;
  bk_handler : ∀ m mgr id h, heap s !! m = Some mgr → handlers mgr !! id = Some h →
    sshHandlers s !! hkey h = Some id ∧ claimManagers s !! hkey h = Some m;
  bk_seq : ∀ m mgr, heap s !! m = Some mgr → 0 ≤ handlerSeq mgr ∧
    ∀ id, is_Some (handlers mgr !! id) → 0 < id ≤ handlerSeq mgr;
}.

(** Identifiers are 64-bit counters; there is room for another one. *)
Definition room (s : Op) : Prop := ∀ m mgr, heap s !! m = Some mgr → handlerSeq mgr + 1 < 2 ^ 64.

(** ** Operations that leave the books alone *)

Definition book_view (m : SSHConnectionManager) : RouterConfig * gmap Z Handler * Z :=
  (config m, handlers m, handlerSeq m).

Record same_books (s s' : Op) : Prop := {
  sb_heap : ∀ m, book_view <$> (heap s' !! m) = book_view <$> (heap s !! m);
  sb_next : (next s ≤ next s')%nat;
  sb_reg : SSHRegistry s' = SSHRegistry s;
  sb_handlers : sshHandlers s' = sshHandlers s;
  sb_assigned : routerAssignments s' = routerAssignments s;
  sb_managers : claimManagers s' = claimManagers s;
}.

#[export] Instance same_books_preorder : PreOrder same_books.
Proof.
  split.
  - intros s. by constructor.
  - intros s1 s2 s3 [H1 ? ? ? ? ?] [H2 ? ? ? ? ?]. constructor; [|lia|congruence..].
    intros m. by rewrite H2.
Qed.

Section books.
Context `{L : Lib}.

(** A program that leaves the books alone, whatever is answered. *)
Definition quiet {A} (m : OpM A) : Prop :=
  ∀ s h, wpM (proto anything) m (λ _ s' _, same_books s s') s h.

Lemma quiet_ret {A} (a : A) : quiet (mret a).
Proof. intros s h. apply wpM_ret. reflexivity. Qed.

Lemma quiet_bind {A B} (m : OpM A) (f : A → OpM B) : quiet m → (∀ a, quiet (f a)) → quiet (m ≫= f).
Proof.
  intros Hm Hf s h. apply wpM_bind. eapply wpM_mono; [apply Hm|]. intros a s1 h1 H1.
  eapply wpM_mono; [apply Hf|]. intros b s2 h2 H2. by transitivity s1.
Qed.

Lemma quiet_call {X} (e : OpE X) : quiet (call e).
Proof. intros s h. apply wpM_call. split; [done|]. intros. reflexivity. Qed.

Lemma quiet_gets {A} (f : Op → A) : quiet (gets f).
Proof. intros s h. apply wpM_gets. reflexivity. Qed.

Lemma quiet_panic {A} msg : quiet (panic (A := A) msg).
Proof. intros s h. split; [done|]. by intros []. Qed.

Lemma quiet_get m : quiet (get_mgr m).
Proof. intros s h. unfold get_mgr, wpM. destruct (heap s !! m); [done|]. by apply (quiet_panic _ s h). Qed.

Lemma quiet_fresh : quiet fresh.
Proof. intros s h. split; simpl; try done. lia. Qed.

Lemma quiet_upd m f : (∀ x, book_view (f x) = book_view x) → quiet (upd_mgr m f).
Proof.
  intros Hf s h. apply wpM_modify. constructor; try done. intros m'. simpl.
  rewrite lookup_alter. case_decide; [subst|done]. destruct (heap s !! m'); simpl; [by rewrite Hf|done].
Qed.

Lemma quiet_cancel c : quiet (cancel_ctx c).
Proof. destruct c; [|apply quiet_ret]. intros s h. by apply wpM_modify. Qed.
End books.

Create HintDb quiet.
#[export] Hint Resolve quiet_ret quiet_call quiet_gets quiet_panic quiet_get quiet_fresh
  quiet_cancel : quiet.
#[export] Hint Extern 1 (quiet (upd_mgr _ _)) => apply quiet_upd; reflexivity : quiet.

Ltac solve_quiet :=
  repeat first
    [ solve [eauto 2 with quiet]
    | apply quiet_bind; [|intros ?]
    | progress simpl
    | case_match ].

Section methods.
Context `{L : Lib}.

Lemma close_conn_quiet c : quiet (close_conn c).
Proof. unfold close_conn. solve_quiet. Qed.
Lemma spawn_all_quiet l ev : quiet (spawn_all l ev).
Proof. induction l; simpl; solve_quiet. Qed.
Hint Resolve close_conn_quiet spawn_all_quiet : quiet.
Lemma notify_quiet m ev : quiet (notifyHandlers m ev).
Proof. unfold notifyHandlers. solve_quiet. Qed.
Hint Resolve notify_quiet : quiet.
Lemma establish_quiet m : quiet (establishConnection m).
Proof. unfold establishConnection. solve_quiet. Qed.
Lemma transition_quiet m err : quiet (transitionToReconnecting m err).
Proof. unfold transitionToReconnecting. solve_quiet. Qed.
Hint Resolve establish_quiet transition_quiet : quiet.
Lemma Start_quiet m : quiet (Start m).
Proof. unfold Start. solve_quiet. Qed.
Lemma Close_quiet m : quiet (Close m).
Proof. unfold Close. solve_quiet. Qed.
End methods.
#[export] Hint Resolve Start_quiet Close_quiet : quiet.

(** ** What each change does to the books *)

Section changes.
Context `{L : Lib} (ident : string → string).

Lemma same_mgr s s' m mgr' :
  same_books s s' → heap s' !! m = Some mgr' →
  ∃ mgr, heap s !! m = Some mgr ∧ config mgr' = config mgr ∧ handlers mgr' = handlers mgr ∧
         handlerSeq mgr' = handlerSeq mgr.
Proof.
  intros Hs Hm. pose proof (sb_heap _ _ Hs m) as Hv. rewrite Hm in Hv. simpl in Hv.
  destruct (heap s !! m) as [mgr|]; [|done]. exists mgr. unfold book_view in Hv. by simplify_eq/=.
Qed.

Lemma same_books_sym_mgr s s' m mgr :
  same_books s s' → heap s !! m = Some mgr →
  ∃ mgr', heap s' !! m = Some mgr' ∧ config mgr' = config mgr ∧ handlers mgr' = handlers mgr ∧
          handlerSeq mgr' = handlerSeq mgr.
Proof.
  intros Hs Hm. pose proof (sb_heap _ _ Hs m) as Hv. rewrite Hm in Hv. simpl in Hv.
  destruct (heap s' !! m) as [mgr'|]; [|done]. exists mgr'. unfold book_view in Hv. by simplify_eq/=.
Qed.

Lemma booked_same s s' : same_books s s' → booked ident s → booked ident s'.
Proof.
  intros Hs Hb. pose proof Hs as [_ Hn Hr Hh Ha Hc]. constructor; rewrite ?Hh, ?Hc.
  - intros m [mgr' Hm]. destruct (same_mgr _ _ _ _ Hs Hm) as (mgr & Hm' & _).
    pose proof (bk_heap _ _ Hb m ltac:(eauto)). lia.
  - destruct (bk_reg _ _ Hb) as (r & Hreg & H1 & H2). exists r. rewrite Hr, Ha. split; [done|].
    split; [|done]. intros a k m Hl. destruct (H1 _ _ _ Hl) as (Hk & mgr & Hm & Hcfg). split; [done|].
    destruct (same_books_sym_mgr _ _ _ _ Hs Hm) as (mgr' & Hm' & Hcfg' & _). exists mgr'. by rewrite Hcfg'.
  - apply (bk_both _ _ Hb).
  - intros key id Hid. destruct (bk_claim _ _ Hb _ _ Hid) as (m & mgr & h & ? & Hm & Hl & ?).
    destruct (same_books_sym_mgr _ _ _ _ Hs Hm) as (mgr' & Hm' & _ & Hhs & _).
    exists m, mgr', h. by rewrite Hhs.
  - intros m mgr' id h Hm' Hl. destruct (same_mgr _ _ _ _ Hs Hm') as (mgr & Hm & _ & Hhs & _).
    rewrite Hhs in Hl. by eapply (bk_handler _ _ Hb).
  - intros m mgr' Hm'. destruct (same_mgr _ _ _ _ Hs Hm') as (mgr & Hm & _ & Hhs & Hsq).
    rewrite Hhs, Hsq. by eapply (bk_seq _ _ Hb).
Qed.

Lemma room_same s s' : same_books s s' → room s → room s'.
Proof.
  intros Hs Hr m mgr' Hm'. destruct (same_mgr _ _ _ _ Hs Hm') as (mgr & Hm & _ & _ & ->). by eapply Hr.
Qed.

(** A fresh manager for an address that has none. *)
Lemma booked_registered cfg r s :
  SSHRegistry s = Some r → reg_lookup r (Address cfg) (configIdentity cfg) = None →
  configIdentity cfg = ident (Address cfg) → booked ident s → booked ident (registered cfg r s).
Proof.
  intros Hr Hnone Hid Hb.
  assert (∀ m mgr, heap s !! m = Some mgr → m ≠ next s) as Hne.
  { intros m mgr Hm ->. pose proof (bk_heap _ _ Hb (next s) ltac:(eauto)). lia. }
  destruct (bk_reg _ _ Hb) as (r0 & Hr0 & H1 & H2). rewrite Hr in Hr0. injection Hr0 as <-.
  constructor; simpl.
  - intros m [mgr Hm]. destruct (decide (m = next s)) as [->|Hn]; [lia|].
    rewrite lookup_insert_ne in Hm by done. pose proof (bk_heap _ _ Hb m ltac:(eauto)). lia.
  - eexists. split; [done|]. split.
    + intros a k m. rewrite reg_lookup_insert. case_decide as Hak.
      * intros [= <-]. destruct Hak as [<- <-]. split; [done|]. exists (fresh_manager cfg).
        by rewrite lookup_insert_eq.
      * intros Hl. destruct (H1 _ _ _ Hl) as (Hk & mgr & Hm & Hcfg). split; [done|]. exists mgr.
        rewrite lookup_insert_ne; [done|]. by apply not_eq_sym, (Hne _ _ Hm).
    + intros key m Hm. destruct (H2 _ _ Hm) as (a & Ha & Hne' & Hl). exists a. split; [done|]. split; [done|].
      rewrite reg_lookup_insert. case_decide as Hak; [|done]. destruct Hak as [<- _]. congruence.
  - apply (bk_both _ _ Hb).
  - intros key id Hk. destruct (bk_claim _ _ Hb _ _ Hk) as (m & mgr & h & Hc & Hm & ?).
    exists m, mgr, h. rewrite lookup_insert_ne; [done|]. by apply not_eq_sym, (Hne _ _ Hm).
  - intros m mgr id h Hm Hl. destruct (decide (m = next s)) as [->|Hn].
    + rewrite lookup_insert_eq in Hm. simplify_eq/=.
    + rewrite lookup_insert_ne in Hm by done. by eapply (bk_handler _ _ Hb).
  - intros m mgr Hm. destruct (decide (m = next s)) as [->|Hn].
    + rewrite lookup_insert_eq in Hm. simplify_eq/=. split; [lia|]. by intros id [? ?].
    + rewrite lookup_insert_ne in Hm by done. by eapply (bk_seq _ _ Hb).
Qed.

(** The claim's handler is taken off its manager and forgotten. *)
Definition dropped (key : string) (id : Z) (m : nat) (s : Op) : Op :=
  set_claimManagers (delete key (claimManagers s))
    (set_sshHandlers (delete key (sshHandlers s))
      (set_heap (alter (UnregisterHandler id) m (heap s)) s)).

Lemma unregister_handlers id x :
  0 < id → handlers (UnregisterHandler id x) = delete id (handlers x) ∧
  handlerSeq (UnregisterHandler id x) = handlerSeq x ∧ config (UnregisterHandler id x) = config x.
Proof. intros Hid. unfold UnregisterHandler. rewrite (proj2 (Z.eqb_neq id 0)) by lia. done. Qed.

Lemma dropped_mgr s key id m k mgr :
  0 < id → heap (dropped key id m s) !! k = Some mgr →
  ∃ old, heap s !! k = Some old ∧ config mgr = config old ∧ handlerSeq mgr = handlerSeq old ∧
         handlers mgr = if decide (k = m) then delete id (handlers old) else handlers old.
Proof.
  intros Hid. simpl. rewrite lookup_alter. destruct (decide (m = k)) as [->|Hne].
  - destruct (heap s !! k) as [old|]; [|done]. intros [= <-].
    destruct (unregister_handlers id old Hid) as (-> & -> & ->). exists old. by rewrite decide_True.
  - intros Hk. exists mgr. by rewrite decide_False by congruence.
Qed.

Lemma dropped_lookup s key id m k old :
  heap s !! k = Some old → ∃ mgr, heap (dropped key id m s) !! k = Some mgr ∧
    (0 < id → config mgr = config old ∧ handlers mgr = if decide (k = m) then delete id (handlers old)
                                                        else handlers old).
Proof.
  intros Hk. simpl. rewrite lookup_alter. destruct (decide (m = k)) as [->|Hne].
  - rewrite Hk. eexists. split; [done|]. intros Hid. rewrite decide_True by done.
    by destruct (unregister_handlers id old Hid) as (-> & _ & ->).
  - exists old. by rewrite decide_False by congruence.
Qed.

Lemma booked_id s key id : booked ident s → sshHandlers s !! key = Some id → 0 < id.
Proof.
  intros Hb Hk. destruct (bk_claim _ _ Hb _ _ Hk) as (m & mgr & h & _ & Hm & Hl & _).
  destruct (bk_seq _ _ Hb _ _ Hm) as [_ Hs]. destruct (Hs id); [by eauto|lia].
Qed.

Lemma booked_dropped s key id m :
  booked ident s → sshHandlers s !! key = Some id → claimManagers s !! key = Some m →
  booked ident (dropped key id m s).
Proof.
  intros Hb Hk Hm. pose proof (booked_id _ _ _ Hb Hk) as Hid.
  destruct (bk_claim _ _ Hb _ _ Hk) as (m0 & mgr0 & h0 & Hm0 & Hg0 & Hl0 & Hh0).
  assert (m0 = m) as -> by congruence. subst key.
  constructor.
  - intros k [mgr Hmg]. destruct (dropped_mgr _ _ _ _ _ _ Hid Hmg) as (old & Hold & _).
    simpl. eapply (bk_heap _ _ Hb). by eauto.
  - destruct (bk_reg _ _ Hb) as (r & Hr & H1 & H2). exists r. split; [done|]. split.
    + intros a k l Hl. destruct (H1 _ _ _ Hl) as (? & mgr & Hmg & Hc). split; [done|].
      destruct (dropped_lookup s (hkey h0) id m _ _ Hmg) as (mgr' & Hmg' & Hv).
      exists mgr'. split; [done|]. by rewrite (proj1 (Hv Hid)).
    + intros key' m' H. simpl in H. rewrite lookup_delete_Some in H. destruct H as [_ H]. by apply H2.
  - intros key'. simpl. destruct (decide (key' = hkey h0)) as [->|Hne].
    + rewrite lookup_delete_eq. by intros [? ?].
    + rewrite !lookup_delete_ne by done. apply (bk_both _ _ Hb).
  - intros key' id' H. simpl in H. rewrite lookup_delete_Some in H. destruct H as [Hne Hid'].
    destruct (bk_claim _ _ Hb _ _ Hid') as (m' & mgr & h & Hc & Hmg & Hl & Hh).
    destruct (dropped_lookup s (hkey h0) id m _ _ Hmg) as (mgr' & Hmg' & Hv).
    exists m', mgr', h. split; [simpl; by rewrite lookup_delete_ne|]. split; [done|].
    split; [|done]. rewrite (proj2 (Hv Hid)). case_decide as Heq; [|done]. subst m'.
    rewrite lookup_delete_ne; [done|]. intros <-. destruct Hne. congruence.
  - intros k mgr id' h Hmg Hl. destruct (dropped_mgr _ _ _ _ _ _ Hid Hmg) as (old & Hold & _ & _ & Hhs).
    assert (handlers old !! id' = Some h ∧ hkey h ≠ hkey h0) as [Hlo Hne].
    { rewrite Hhs in Hl. case_decide as Heq.
      - subst k. rewrite lookup_delete_Some in Hl. destruct Hl as [Hne Hl]. split; [done|]. intros Hh.
        destruct (bk_handler _ _ Hb _ _ _ _ Hold Hl) as [H _]. rewrite Hh, Hk in H. congruence.
      - split; [done|]. intros Hh. destruct (bk_handler _ _ Hb _ _ _ _ Hold Hl) as [_ H].
        rewrite Hh, Hm in H. congruence. }
    simpl. rewrite !lookup_delete_ne by done. by eapply (bk_handler _ _ Hb).
  - intros k mgr Hmg. destruct (dropped_mgr _ _ _ _ _ _ Hid Hmg) as (old & Hold & _ & -> & Hhs).
    destruct (bk_seq _ _ Hb _ _ Hold) as [H0 Hs]. split; [done|]. intros id' [h Hl]. apply Hs.
    rewrite Hhs in Hl. case_decide; [rewrite lookup_delete_Some in Hl|]; naive_solver.
Qed.

(** The router of a claim that is not tracked may be forgotten or changed. *)
Lemma booked_assign s key f :
  booked ident s → claimManagers s !! key = None →
  (∀ k, k ≠ key → f (routerAssignments s) !! k = routerAssignments s !! k) →
  booked ident (set_routerAssignments (f (routerAssignments s)) s).
Proof.
  intros Hb Hn Hf. destruct Hb as [? (r & Hr & H1 & H2) ? ? ? ?]. constructor; try done.
  exists r. split; [done|]. split; [done|]. simpl. intros k m Hm. destruct (H2 _ _ Hm) as (a & Ha & Hl).
  exists a. split; [|done]. rewrite Hf; [done|]. congruence.
Qed.

(** A router that no claim is tracked for may be removed from the registry. *)
Lemma booked_removed s a :
  booked ident s →
  (∀ key m, claimManagers s !! key = Some m → routerAssignments s !! key ≠ Some a) →
  booked ident (set_registry (delete a <$> SSHRegistry s) s).
Proof.
  intros Hb Hno. destruct Hb as [? (r & Hr & H1 & H2) ? ? ? ?]. constructor; try done.
  exists (delete a r). simpl. rewrite Hr. split; [done|]. split.
  - intros a' k m Hl. rewrite reg_lookup_delete in Hl. case_decide; [done|]. by apply H1.
  - intros key m Hm. destruct (H2 _ _ Hm) as (a' & Ha & Hne & Hl). exists a'. split; [done|]. split; [done|].
    rewrite reg_lookup_delete. case_decide as Heq; [|done]. subst a'. by destruct (Hno _ _ Hm).
Qed.

(** A manager without handlers is tracked for no claim; nor is its address. *)
Lemma no_handlers_untracked s m mgr :
  booked ident s → heap s !! m = Some mgr → HandlerCount mgr = 0%nat →
  ∀ key, claimManagers s !! key ≠ Some m.
Proof.
  intros Hb Hm Hz key Hk. destruct (bk_both _ _ Hb key ltac:(eauto)) as [id Hid].
  destruct (bk_claim _ _ Hb _ _ Hid) as (m' & mgr' & h & Hc & Hm' & Hl & _). simplify_eq.
  unfold HandlerCount in Hz. apply map_size_empty_inv in Hz. by rewrite Hz, lookup_empty in Hl.
Qed.

Lemma untracked_address s m a r :
  booked ident s → SSHRegistry s = Some r → reg_lookup r a (ident a) = Some m →
  (∀ key, claimManagers s !! key ≠ Some m) →
  ∀ key m', claimManagers s !! key = Some m' → routerAssignments s !! key ≠ Some a.
Proof.
  intros Hb Hr Hl Hno key m' Hm' Ha. destruct (bk_reg _ _ Hb) as (r0 & Hr0 & _ & H2).
  destruct (H2 _ _ Hm') as (a' & Ha' & _ & Hl'). simplify_eq. by destruct (Hno key).
Qed.

(** A new handler for a claim that has none. *)
Definition added (key a : string) (m : nat) (mgr : SSHConnectionManager) (h : Handler) (s : Op) : Op :=
  let '(id, mgr') := RegisterHandler h mgr in
  set_routerAssignments (<[key := a]> (routerAssignments s))
    (set_claimManagers (<[key := m]> (claimManagers s))
      (set_sshHandlers (<[key := id]> (sshHandlers s))
        (set_heap (alter (λ _, mgr') m (heap s)) s))).

Lemma booked_added s r a m mgr h :
  booked ident s → SSHRegistry s = Some r → reg_lookup r a (ident a) = Some m →
  heap s !! m = Some mgr → handlerSeq mgr + 1 < 2 ^ 64 → a ≠ "" →
  sshHandlers s !! hkey h = None → claimManagers s !! hkey h = None →
  booked ident (added (hkey h) a m mgr h s) ∧
  ∃ id mgr', sshHandlers (added (hkey h) a m mgr h s) !! hkey h = Some id ∧
             heap (added (hkey h) a m mgr h s) !! m = Some mgr' ∧ handlers mgr' !! id = Some h.
Proof.
  intros Hb Hr Hl Hm Hroom Hane Hs Hc. unfold added, RegisterHandler. simpl.
  destruct (bk_seq _ _ Hb _ _ Hm) as [H0 Hseq].
  assert (wrap64u (handlerSeq mgr + 1) = handlerSeq mgr + 1) as -> by (apply wrap64u_small; lia).
  set (id := handlerSeq mgr + 1).
  set (mgr' := set_handlers (<[id := h]> (handlers mgr)) id mgr).
  assert (alter (λ _, mgr') m (heap s) !! m = Some mgr') as Hm'.
  { by rewrite lookup_alter_eq, Hm. }
  assert (∀ k x, alter (λ _, mgr') m (heap s) !! k = Some x → (k = m ∧ x = mgr') ∨ (k ≠ m ∧ heap s !! k = Some x))
    as Hinv.
  { intros k x. rewrite lookup_alter. case_decide as Hd; [subst; rewrite Hm; simpl; naive_solver|naive_solver]. }
  assert (handlers mgr !! id = None) as Hfresh.
  { apply eq_None_not_Some. intros H%Hseq. unfold id in H. lia. }
  split; [|exists id, mgr'; simpl; rewrite !lookup_insert_eq; done].
  constructor; simpl.
  - intros k [x Hx]. apply Hinv in Hx as [[-> _]|[_ Hx]]; eapply (bk_heap _ _ Hb); by eauto.
  - destruct (bk_reg _ _ Hb) as (r0 & Hr0 & H1 & H2). rewrite Hr in Hr0. injection Hr0 as <-.
    exists r. split; [done|]. split.
    + intros a' k m' Hl'. destruct (H1 _ _ _ Hl') as (Hk & x & Hx & Ha). split; [done|].
      destruct (decide (m' = m)) as [->|Hne]; [exists mgr'; split; [done|]; simpl; congruence|].
      exists x. by rewrite lookup_alter_ne.
    + intros key m'. destruct (decide (key = hkey h)) as [->|Hne].
      * rewrite !lookup_insert_eq. intros [= <-]. by exists a.
      * rewrite !lookup_insert_ne by done. apply H2.
  - intros key. destruct (decide (key = hkey h)) as [->|Hne]; [by rewrite !lookup_insert_eq|].
    rewrite !lookup_insert_ne by done. apply (bk_both _ _ Hb).
  - intros key id'. destruct (decide (key = hkey h)) as [->|Hne].
    + rewrite !lookup_insert_eq. intros [= <-]. exists m, mgr', h. simpl. by rewrite lookup_insert_eq.
    + rewrite !lookup_insert_ne by done. intros Hid.
      destruct (bk_claim _ _ Hb _ _ Hid) as (m' & x & h' & Hc' & Hx & Hl' & Hh').
      destruct (decide (m' = m)) as [->|Hnm].
      * exists m, mgr', h'. simplify_eq. split; [done|]. split; [done|]. split; [|done].
        simpl. rewrite lookup_insert_ne; [done|]. congruence.
      * exists m', x, h'. by rewrite lookup_alter_ne.
  - intros k x id' h' Hx Hl'. apply Hinv in Hx as [[-> ->]|[Hne Hx]].
    + simpl in Hl'. apply lookup_insert_Some in Hl' as [[<- <-]|[Hid Hl']]; [by rewrite !lookup_insert_eq|].
      destruct (bk_handler _ _ Hb _ _ _ _ Hm Hl') as [H1 H2].
      rewrite !lookup_insert_ne by congruence. done.
    + destruct (bk_handler _ _ Hb _ _ _ _ Hx Hl') as [H1 H2].
      rewrite !lookup_insert_ne by congruence. done.
  - intros k x Hx. apply Hinv in Hx as [[-> ->]|[_ Hx]]; [|by eapply (bk_seq _ _ Hb)].
    simpl. split; [unfold id; lia|]. intros id' [h' Hl'].
    apply lookup_insert_Some in Hl' as [[<- _]|[_ Hl']]; [unfold id; lia|].
    specialize (Hseq id' ltac:(eauto)). unfold id. lia.
Qed.
End changes.

(** ** The code keeps the books *)

Section code.
Context `{L : Lib} (ident : string → string).

Abbreviation Σa := (proto anything).

(** Whoever looks after claim [c] logs in to its router in the router's way. *)
Definition one_login (c : PublicIPClaim) : Prop :=
  ∀ signer, configIdentity (manager_config c signer) = ident (router_address c).

(** The address's manager is [m]. *)
Definition manages (a : string) (m : nat) (s : Op) : Prop :=
  ∃ r, SSHRegistry s = Some r ∧ reg_lookup r a (ident a) = Some m.

Lemma use_quiet {A} (m : OpM A) (Q : A → Op → list (event OpE) → Prop) s h :
  quiet m → (∀ a s' h', same_books s s' → Q a s' h') → wpM Σa m Q s h.
Proof. intros Hm HQ. eapply wpM_mono; [apply Hm|]. by auto. Qed.

Lemma manages_same a m s s' : same_books s s' → manages a m s → manages a m s'.
Proof. intros Hs (r & Hr & Hl). exists r. by rewrite (sb_reg _ _ Hs). Qed.

Lemma manages_mgr a m s : booked ident s → manages a m s → ∃ mgr, heap s !! m = Some mgr ∧ Address (config mgr) = a.
Proof.
  intros Hb (r & Hr & Hl). destruct (bk_reg _ _ Hb) as (r0 & Hr0 & H1 & _).
  rewrite Hr in Hr0. injection Hr0 as <-. by destruct (H1 _ _ _ Hl).
Qed.

Lemma wpM_get_mgr m mgr (Q : SSHConnectionManager → Op → list (event OpE) → Prop) s h :
  heap s !! m = Some mgr → Q mgr s h → wpM Σa (get_mgr m) Q s h.
Proof. intros Hm HQ. unfold wpM, get_mgr. by rewrite Hm. Qed.

Lemma GetOrCreate_books cfg s h :
  booked ident s → room s → configIdentity cfg = ident (Address cfg) →
  wpM Σa (GetOrCreate cfg) (λ r s' _, booked ident s' ∧ room s' ∧
    sshHandlers s' = sshHandlers s ∧ claimManagers s' = claimManagers s ∧
    routerAssignments s' = routerAssignments s ∧
    match r with Ok m => manages (Address cfg) m s' | Err _ => True end) s h.
Proof.
  intros Hb Hroom Hid. destruct (bk_reg _ _ Hb) as (r & Hr & H1 & _).
  unfold wpM. rewrite (GetOrCreate_eq _ _ _ Hr).
  destruct (reg_lookup r (Address cfg) (configIdentity cfg)) as [m|] eqn:Hl.
  - simpl. split_and!; try done. exists r. by rewrite <-Hid.
  - destruct (Validate cfg); simpl; [|by split_and!]. split_and!; try done.
    + by apply booked_registered.
    + intros k mgr. simpl. destruct (decide (k = next s)) as [->|Hne].
      * rewrite lookup_insert_eq. intros [= <-]. simpl. lia.
      * rewrite lookup_insert_ne by done. apply Hroom.
    + eexists. split; [done|]. rewrite reg_lookup_insert. by rewrite decide_True by by rewrite Hid.
Qed.

Lemma Remove_books a s h :
  booked ident s →
  (∀ key m, claimManagers s !! key = Some m → routerAssignments s !! key ≠ Some a) →
  wpM Σa (Remove a) (λ _ s' _, booked ident s' ∧ heap s' = heap s ∧ sshHandlers s' = sshHandlers s ∧
    claimManagers s' = claimManagers s ∧ routerAssignments s' = routerAssignments s ∧
    ∀ a' m, a' ≠ a → manages a' m s → manages a' m s') s h.
Proof.
  intros Hb Hno. destruct (bk_reg _ _ Hb) as (r & Hr & _ & _).
  unfold Remove. rewrite wpM_bind. unfold wpM at 1, get_registry. rewrite Hr. simpl.
  apply wpM_modify. split_and!; try done; [by apply booked_removed|].
  intros a' m Hne (r' & Hr' & Hl). simplify_eq. exists (delete a r). simpl. rewrite Hr. split; [done|].
  rewrite reg_lookup_delete. by rewrite decide_False by congruence.
Qed.

(** The last steps of both cleanups: a manager that lost its last handler is
    closed, and its address removed. *)
Lemma close_if_idle_books m0 mgr0 a s h :
  booked ident s → room s → heap s !! m0 = Some mgr0 → manages a m0 s →
  wpM Σa (pm ← get_mgr m0; if decide (HandlerCount pm = 0%nat) then _ ← Close m0; Remove a else mret tt)
    (λ _ s' _, booked ident s' ∧ room s' ∧ sshHandlers s' = sshHandlers s ∧
       claimManagers s' = claimManagers s ∧ routerAssignments s' = routerAssignments s ∧
       ∀ a' m, a' ≠ a → manages a' m s → manages a' m s') s h.
Proof.
  intros Hb Hroom Hm0 Hman. rewrite wpM_bind. eapply wpM_get_mgr; [exact Hm0|].
  case_decide as Hz; [|by apply wpM_ret]. rewrite wpM_bind. apply use_quiet; [apply Close_quiet|].
  intros _ s1 h1 Hs. pose proof (booked_same _ _ _ Hs Hb) as Hb1.
  destruct (same_books_sym_mgr _ _ _ _ Hs Hm0) as (mgr1 & Hm1 & _ & Hhs & _).
  destruct (manages_same _ _ _ _ Hs Hman) as (r & Hr & Hl).
  eapply wpM_mono; [apply Remove_books; [done|]|].
  - eapply untracked_address; [exact Hb1|exact Hr|exact Hl|].
    eapply no_handlers_untracked; [exact Hb1|exact Hm1|]. unfold HandlerCount in *. by rewrite Hhs.
  - intros _ s2 h2 (Hb2 & Hheap & H1 & H2 & H3 & H4). split_and!; try done.
    + intros k mgr Hk. rewrite Hheap in Hk. by eapply room_same.
    + by rewrite H1, (sb_handlers _ _ Hs).
    + by rewrite H2, (sb_managers _ _ Hs).
    + by rewrite H3, (sb_assigned _ _ Hs).
    + intros a' m' Hne Hma. apply H4; [done|]. by eapply manages_same.
Qed.

Lemma room_dropped key id m s : 0 < id → room s → room (dropped key id m s).
Proof.
  intros Hid Hroom k mgr Hk. destruct (dropped_mgr _ _ _ _ _ _ Hid Hk) as (old & Hold & _ & -> & _).
  by eapply Hroom.
Qed.

Lemma tracked_manages key m s :
  booked ident s → claimManagers s !! key = Some m →
  ∃ a, routerAssignments s !! key = Some a ∧ a ≠ "" ∧ manages a m s.
Proof.
  intros Hb Hm. destruct (bk_reg _ _ Hb) as (r & Hr & _ & H2). destruct (H2 _ _ Hm) as (a & Ha & Hne & Hl).
  exists a. split; [done|]. split; [done|]. by exists r.
Qed.

Lemma untracked_managers key s :
  booked ident s → sshHandlers s !! key = None → claimManagers s !! key = None.
Proof.
  intros Hb Hn. apply eq_None_not_Some. intros H. destruct (bk_both _ _ Hb _ H). congruence.
Qed.

(** The claim moves away from [prev]. *)
Lemma cleanup_old_router_books key prev a m s h :
  booked ident s → room s → manages a m s → routerAssignments s !! key = Some prev → prev ≠ a →
  wpM Σa (cleanup_old_router key prev) (λ _ s' _, booked ident s' ∧ room s' ∧ manages a m s' ∧
    sshHandlers s' !! key = None ∧ claimManagers s' !! key = None) s h.
Proof.
  intros Hb Hroom Hman Ha Hne. unfold cleanup_old_router. rewrite wpM_bind, wpM_gets.
  destruct (sshHandlers s !! key) as [id|] eqn:Hid.
  2: { apply wpM_ret. split_and!; try done. by eapply untracked_managers. }
  rewrite wpM_bind, wpM_gets. pose proof (booked_id _ _ _ _ Hb Hid) as Hpos.
  destruct (bk_claim _ _ Hb _ _ Hid) as (m0 & mgr0 & h0 & Hm0 & Hg0 & _). rewrite Hm0.
  rewrite wpM_bind. apply wpM_modify. rewrite wpM_bind, wpM_modify, wpM_bind, wpM_modify. simpl.
  change (set_claimManagers _ _) with (dropped key id m0 s).
  destruct (dropped_lookup s key id m0 _ _ Hg0) as (mgr1 & Hg1 & _).
  destruct (tracked_manages _ _ _ Hb Hm0) as (a0 & Ha0 & _ & Hman0). rewrite Ha in Ha0. injection Ha0 as <-.
  eapply wpM_mono; [eapply close_if_idle_books|].
  - by apply booked_dropped.
  - by apply room_dropped.
  - exact Hg1.
  - exact Hman0.
  - intros _ s' h' (Hb' & Hroom' & H1 & H2 & _ & H4). rewrite H1, H2. simpl. rewrite !lookup_delete_eq.
    split_and!; try done. by apply H4.
Qed.

Lemma router_address_nonempty c : router_address c ≠ "".
Proof. unfold router_address. by destruct (Host (router c)). Qed.

(** The claim has exactly one handler, on the manager of its router. *)
Definition tracked (c : PublicIPClaim) (m : nat) (s : Op) : Prop :=
  claimManagers s !! handler_key c = Some m ∧
  routerAssignments s !! handler_key c = Some (router_address c) ∧
  manages (router_address c) m s ∧
  ∃ id mgr h, sshHandlers s !! handler_key c = Some id ∧ heap s !! m = Some mgr ∧
              handlers mgr !! id = Some h ∧ hkey h = handler_key c.

Lemma register_books c m s h :
  booked ident s → room s → manages (router_address c) m s →
  (sshHandlers s !! handler_key c = None ∧ claimManagers s !! handler_key c = None) ∨
  (claimManagers s !! handler_key c = Some m ∧
   routerAssignments s !! handler_key c = Some (router_address c)) →
  wpM Σa (_ ← register_once c (handler_key c) m;
          _ ← modify (λ s, set_claimManagers (<[handler_key c := m]> (claimManagers s)) s);
          modify (λ s, set_routerAssignments (<[handler_key c := router_address c]> (routerAssignments s)) s))
    (λ _ s' _, booked ident s' ∧ tracked c m s') s h.
Proof.
  intros Hb Hroom Hman Hcase. destruct (manages_mgr _ _ _ Hb Hman) as (mgr & Hm & _).
  rewrite wpM_bind. unfold register_once. rewrite wpM_bind, wpM_gets.
  destruct Hcase as [[Hn Hc]|[Hc Ha]].
  - rewrite Hn, wpM_bind. eapply wpM_get_mgr; [exact Hm|].
    set (hd := {| h_namespace := Namespace c; h_name := Name c |}).
    cbn [RegisterHandler]. rewrite wpM_bind. apply wpM_modify, wpM_modify.
    rewrite wpM_bind. apply wpM_modify, wpM_modify.
    destruct Hman as (r & Hr & Hl).
    destruct (booked_added ident s r (router_address c) m mgr hd Hb Hr Hl Hm (Hroom _ _ Hm)
      (router_address_nonempty c) Hn Hc)
      as [Hb' (id & mgr' & Hid & Hm' & Hh)].
    split; [exact Hb'|]. split; [simpl; apply lookup_insert_eq|]. split; [simpl; apply lookup_insert_eq|].
    split; [by exists r|]. by exists id, mgr', hd.
  - destruct (bk_both _ _ Hb (handler_key c) ltac:(eauto)) as [id Hid].
    rewrite Hid, wpM_ret, wpM_bind. apply wpM_modify, wpM_modify.
    assert (same_books s (set_routerAssignments (<[handler_key c:=router_address c]> (routerAssignments s))
       (set_claimManagers (<[handler_key c:=m]> (claimManagers s)) s))) as Hsame.
    { constructor; try done; simpl; by rewrite insert_id. }
    pose proof (booked_same _ _ _ Hsame Hb) as Hb'. split; [exact Hb'|].
    split; [simpl; apply lookup_insert_eq|]. split; [simpl; apply lookup_insert_eq|].
    split; [by eapply manages_same|].
    destruct (bk_claim _ _ Hb _ _ Hid) as (m0 & mgr0 & h0 & Hm0 & Hg0 & Hl0 & Hk0). simplify_eq.
    by exists id, mgr, h0.
Qed.

(** The end of getSSHManager, with the claim's new status. *)
Lemma finish_books c c' m s h :
  handler_key c' = handler_key c → register_once c' = register_once c →
  booked ident s → room s → manages (router_address c) m s →
  (sshHandlers s !! handler_key c = None ∧ claimManagers s !! handler_key c = None) ∨
  (claimManagers s !! handler_key c = Some m ∧
   routerAssignments s !! handler_key c = Some (router_address c)) →
  wpM Σa (_ ← register_once c' (handler_key c) m;
          _ ← modify (λ s, set_claimManagers (<[handler_key c := m]> (claimManagers s)) s);
          _ ← modify (λ s, set_routerAssignments (<[handler_key c := router_address c]> (routerAssignments s)) s);
          mret ((Ok m : result string nat), c'))
    (λ r s' _, booked ident s' ∧ match r.1 with Ok m => tracked c m s' | Err _ => True end) s h.
Proof.
  intros _ -> Hb Hr Hm Hcase. pose proof (register_books c m s h Hb Hr Hm Hcase) as Hreg.
  rewrite wpM_bind in Hreg |- *. eapply wpM_mono; [exact Hreg|].
  intros [] s4 h5 Hk. rewrite wpM_bind in Hk |- *. by rewrite wpM_modify, wpM_bind in *.
Qed.

Lemma getSSHManager_books c s h :
  booked ident s → room s → one_login c →
  wpM Σa (getSSHManager c) (λ r s' _, booked ident s' ∧
    match r.1 with Ok m => tracked c m s' | Err _ => True end) s h.
Proof.
  intros Hb Hroom Hone. destruct (bk_reg _ _ Hb) as (r & Hr & _).
  unfold getSSHManager. rewrite wpM_bind, wpM_gets, Hr, wpM_bind, wpM_call. split; [done|].
  intros [data|e] h1 _; [|by apply wpM_ret]. case_decide; [by apply wpM_ret|].
  destruct (ParsePrivateKey (id_rsa data)) as [signer|e]; [|by apply wpM_ret]. rewrite wpM_bind.
  eapply wpM_mono; [apply GetOrCreate_books; [done|done|apply Hone]|].
  intros [m|e] s1 h2 (Hb1 & Hroom1 & Hh1 & Hc1 & Ha1 & Hman1); [|by apply wpM_ret].
  destruct (manages_mgr _ _ _ Hb1 Hman1) as (mgr & Hm & _).
  rewrite wpM_bind. eapply wpM_get_mgr; [exact Hm|]. rewrite wpM_bind.
  apply use_quiet; [case_match; solve_quiet|]. intros _ s2 h3 Hs.
  pose proof (booked_same _ _ _ Hs Hb1) as Hb2. pose proof (room_same _ _ Hs Hroom1) as Hroom2.
  pose proof (manages_same _ _ _ _ Hs Hman1) as Hman2.
  destruct (manages_mgr _ _ _ Hb2 Hman2) as (mgr2 & Hm2 & _).
  rewrite wpM_bind. eapply wpM_get_mgr; [exact Hm2|]. rewrite wpM_bind, wpM_gets, wpM_bind.
  set (c' := set_status _ c).
  change (handler_key c') with (handler_key c). change (Address (manager_config c signer)) with (router_address c) in *.
  clear Hs Hb1 Hroom1 Hman1 Hm Hh1 Hc1 Ha1.
  destruct (claimManagers s2 !! handler_key c) as [m0|] eqn:Hc0.
  - destruct (tracked_manages _ _ _ Hb2 Hc0) as (a & Ha & Hane & Hman0). rewrite Ha. simpl.
    rewrite (bool_decide_eq_true_2 (a ≠ "")) by done. simpl. case_bool_decide as Hmoved.
    + eapply wpM_mono; [by apply (cleanup_old_router_books _ a (router_address c) m)|].
      intros [] s3 h4 (Hb3 & Hr3 & Hm3 & Hs3 & Hc3). apply (finish_books c c'); auto.
    + subst a. apply wpM_ret, (finish_books c c'); try done. right. split; [|done].
      destruct Hman0 as (r0 & Hr0 & Hl0), Hman2 as (r2 & Hr2 & Hl2). congruence.
  - assert (sshHandlers s2 !! handler_key c = None) as Hs0.
    { apply eq_None_not_Some. intros [id Hid].
      destruct (bk_claim _ _ Hb2 _ _ Hid) as (? & ? & ? & Hx & _). congruence. }
    case_match; [|apply wpM_ret, (finish_books c c'); auto].
    unfold cleanup_old_router. rewrite wpM_bind, wpM_gets, Hs0. apply wpM_ret, (finish_books c c'); auto.
Qed.

(** Deleting a claim whose router is the one it is tracked for. *)
Lemma unregister_claim_books c s h :
  booked ident s → room s →
  (∀ a, routerAssignments s !! handler_key c = Some a → a = router_address c) →
  wpM Σa (unregister_claim c) (λ _ s' _, booked ident s' ∧
    sshHandlers s' !! handler_key c = None ∧ claimManagers s' !! handler_key c = None ∧
    routerAssignments s' !! handler_key c = None) s h.
Proof.
  intros Hb Hroom Hsame. unfold unregister_claim. rewrite wpM_bind, wpM_gets, wpM_bind, wpM_gets, wpM_bind.
  destruct (sshHandlers s !! handler_key c) as [id|] eqn:Hid.
  - pose proof (booked_id _ _ _ _ Hb Hid) as Hpos.
    destruct (bk_claim _ _ Hb _ _ Hid) as (m & mgr & h0 & Hm & Hg & _). rewrite Hm.
    rewrite wpM_bind. apply wpM_modify, wpM_modify. rewrite wpM_bind. apply wpM_modify.
    rewrite wpM_bind. apply wpM_modify. simpl.
    destruct (tracked_manages _ _ _ Hb Hm) as (a & Ha & _ & Hman). rewrite (Hsame _ Ha) in Hman.
    destruct (dropped_lookup s (handler_key c) id m _ _ Hg) as (mgr1 & Hg1 & _).
    pose proof (booked_dropped _ _ _ _ _ Hb Hid Hm) as Hb1.
    assert (claimManagers (dropped (handler_key c) id m s) !! handler_key c = None) as Hn
      by (simpl; apply lookup_delete_eq).
    pose proof (booked_assign ident _ (handler_key c) (delete (handler_key c)) Hb1 Hn) as Hb2.
    specialize (Hb2 ltac:(intros k Hk; by rewrite lookup_delete_ne)).
    eapply wpM_mono; [eapply (close_if_idle_books m mgr1 (router_address c)); [exact Hb2| |exact Hg1|]|].
    + intros k x Hk. by eapply (room_dropped (handler_key c) id m).
    + exact Hman.
    + intros _ s' h' (Hb' & _ & H1 & H2 & H3 & _). rewrite H1, H2, H3. simpl.
      by rewrite !lookup_delete_eq.
  - pose proof (untracked_managers _ _ Hb Hid) as Hn. rewrite Hn.
    apply wpM_ret. rewrite wpM_bind. apply wpM_modify. rewrite wpM_bind. apply wpM_modify, wpM_ret.
    simpl. rewrite delete_id, !lookup_delete_eq by done. split; [|done].
    apply (booked_assign ident s (handler_key c) (delete (handler_key c)) Hb Hn).
    intros k Hk. by rewrite lookup_delete_ne.
Qed.

(** The tunnel to the router's agent was opened. *)
Definition is_tunnel (o : event OpE) : bool :=
  match o with
  | existT X (e, x) => (match e in OpE X return X → bool with Listen => λ r, is_ok r | _ => λ _, false end) x
  end.

Definition reached (h : list (event OpE)) : bool := existsb is_tunnel h.

Lemma reached_prefix h h' : h `prefix_of` h' → reached h = true → reached h' = true.
Proof. intros [t ->] Hr. unfold reached in *. by rewrite existsb_app, Hr. Qed.

(** Nothing is left of the claim: no record, and no handler on any manager. *)
Definition forgotten (c : PublicIPClaim) (s : Op) : Prop :=
  sshHandlers s !! handler_key c = None ∧ claimManagers s !! handler_key c = None ∧
  routerAssignments s !! handler_key c = None ∧
  ∀ m mgr id h, heap s !! m = Some mgr → handlers mgr !! id = Some h → hkey h ≠ handler_key c.

(** Deleting a claim: the books stay right; the claim is forgotten if its router
    was reached, and otherwise everything stays as it is. *)
Lemma cleanup_books c s :
  booked ident s → room s →
  (∀ a, routerAssignments s !! handler_key c = Some a → a = router_address c) →
  wpM Σa (defaultCleanupRouterInterface c) (λ r s' h', r = Ok tt ∧ booked ident s' ∧
    if reached h' then forgotten c s' else same_books s s') s [].
Proof.
  intros Hb Hroom Hsame. unfold defaultCleanupRouterInterface.
  case_decide; [by apply wpM_ret|]. rewrite wpM_bind, wpM_call. split; [done|]. intros r h1 ->.
  destruct (usable_key r) as [signer|]; [|by apply wpM_ret]. rewrite wpM_bind. unfold NewAgentClient.
  rewrite wpM_bind, wpM_call. split; [done|]. intros [cn|e] h2 ->; [|by apply wpM_ret, wpM_ret].
  rewrite wpM_bind, wpM_call. split; [done|]. intros [addr|e] h3 ->.
  2:{ rewrite wpM_bind, wpM_call. split; [done|]. intros x h4 ->. by apply wpM_ret, wpM_ret. }
  set (h3 := _ ++ _). assert (reached h3 = true) as Hre by done. clearbody h3.
  apply wpM_ret. eapply wpM_mono;
    [apply wpM_grows with (Q := λ r s' _, r = Ok tt ∧ booked ident s' ∧ forgotten c s')|].
  - rewrite wpM_bind. apply use_quiet; [unfold ReleaseLease, request; solve_quiet|]. intros _ s1 h4 Hs.
    rewrite wpM_bind. eapply wpM_mono;
      [apply unregister_claim_books; [by eapply booked_same|by eapply room_same|by rewrite (sb_assigned _ _ Hs)]|].
    intros _ s2 h5 (Hb2 & H1 & H2 & H3). rewrite wpM_bind. unfold AgentClient_Close. apply wpM_call.
    split; [done|]. intros [] h6 _. apply wpM_ret. split; [done|]. split; [done|]. split_and!; try done.
    intros m mgr id h Hm Hl Hk. destruct (bk_handler _ _ Hb2 _ _ _ _ Hm Hl) as [Hx _].
    rewrite Hk in Hx. congruence.
  - intros r' s' h' [(-> & Hb' & Hf) Hp]. split; [done|]. split; [done|].
    by rewrite (reached_prefix _ _ Hp Hre).
Qed.
End code.

(** ** Histories of lookups and deletions *)

Section histories.
Context `{L : Lib} (ident : string → string).

Definition no_books (s : Op) : Prop :=
  heap s = ∅ ∧ SSHRegistry s = Some ∅ ∧ sshHandlers s = ∅ ∧ claimManagers s = ∅.

(** Claims are looked after and deleted in any order, with any answers of the
    cluster and the routers. *)
Inductive keeping : Op → Prop :=
| keeping_start s : no_books s → keeping s
| keeping_look s c tr r s' :
    keeping s → room s → one_login ident c → runs (getSSHManager c s) tr (r, s') → keeping s'
| keeping_forget s c tr r s' :
    keeping s → room s → (∀ a, routerAssignments s !! handler_key c = Some a → a = router_address c) →
    runs (defaultCleanupRouterInterface c s) tr (r, s') → keeping s'.

Lemma no_books_booked s : no_books s → booked ident s.
Proof.
  intros (Hh & Hr & Hs & Hc). constructor; rewrite ?Hh, ?Hs, ?Hc.
  - intros m [? Hm]. by rewrite lookup_empty in Hm.
  - exists ∅. split; [done|]. split.
    + intros a k m Hl. unfold reg_lookup in Hl. by rewrite lookup_empty in Hl.
    + intros key m Hm. by rewrite lookup_empty in Hm.
  - intros key [? Hk]. by rewrite lookup_empty in Hk.
  - intros key id Hk. by rewrite lookup_empty in Hk.
  - intros m mgr id h Hm. by rewrite lookup_empty in Hm.
  - intros m mgr Hm. by rewrite lookup_empty in Hm.
Qed.

Lemma keeping_booked s : keeping s → booked ident s.
Proof.
  induction 1 as [s Hs|s c tr r s' _ IH Hroom Hone Hr|s c tr r s' _ IH Hroom Hsame Hr].
  - by apply no_books_booked.
  - by apply (wpM_trace _ _ _ _ _ _ (getSSHManager_books ident c s [] IH Hroom Hone) Hr).
  - by apply (wpM_trace _ _ _ _ _ _ (cleanup_books ident c s IH Hroom Hsame) Hr).
Qed.

(** C4: handlers follow their claims.  Suppose that all claims of a router log in
    to it in the same way, that no claim is deleted with a router other than the
    one it is recorded with, and that the 64-bit counters of handler numbers
    have room.  Then after any sequence of lookups ([getSSHManager]) and
    deletions ([cleanupRouterInterface]), whatever the cluster and the routers
    answer: a recorded claim's handler is registered on its recorded manager,
    that manager is the registered one of the claim's recorded router, and every
    handler of every manager is that of a recorded claim.  A lookup that
    succeeds leaves the claim with its handler on the manager of its present
    router.  A deletion that opens the tunnel to the router leaves no record and
    no handler of the claim; one that returns before that (no interface, no
    usable key, no connection) changes nothing of this, so that the handler of
    the deleted claim stays. *)
Theorem handlers_follow_claims s :
  keeping s →
  booked ident s ∧
  (∀ c tr m c' s', room s → one_login ident c → runs (getSSHManager c s) tr ((Ok m, c'), s') →
     booked ident s' ∧ tracked ident c m s') ∧
  (∀ c tr r s', room s → (∀ a, routerAssignments s !! handler_key c = Some a → a = router_address c) →
     runs (defaultCleanupRouterInterface c s) tr (r, s') →
     r = Ok tt ∧ booked ident s' ∧ if reached tr then forgotten c s' else same_books s s').
Proof.
  intros Hk. pose proof (keeping_booked _ Hk) as Hb. split; [done|]. split.
  - intros c tr m c' s' Hroom Hone Hr.
    exact (wpM_trace _ _ _ _ _ _ (getSSHManager_books ident c s [] Hb Hroom Hone) Hr).
  - intros c tr r s' Hroom Hsame Hr.
    exact (wpM_trace _ _ _ _ _ _ (cleanup_books ident c s Hb Hroom Hsame) Hr).
Qed.
End histories.

(** ** When a claim changes its login *)

Definition with_router (name user host : string) : PublicIPClaim :=
  {| Name := name; Namespace := ""; Generation := 1; DeletionTimestamp := None; Finalizers := [];
     Annotations := ∅;
     Spec := {| PoolName := "public-pool"; Router :=
       {| Host := host; Port := 22; User := user; SSHSecretRef := "router-ssh"; Command := "";
          WanParent := "eth9"; Spec_WanInterface := ""; Spec_MacAddress := "" |} |};
     Status := emptyStatus |}.

(** The memory after looking after claims one by one. *)
Fixpoint look_all (cs : list PublicIPClaim) (s : Op) : option Op :=
  match cs with
  | [] => Some s
  | c :: cs =>
    '(_, s', _) ← sim_result (getSSHManager c) s (demo_world []);
    look_all cs s'
  end.

(** Claim a is seen as root, then as admin; claim b as admin; then a moves to
    another router; and b is looked after again. *)
Definition login_story : list PublicIPClaim :=
  [with_router "a" "root" "192.168.1.1"; with_router "a" "admin" "192.168.1.1";
   with_router "b" "admin" "192.168.1.1"; with_router "a" "admin" "192.168.1.2";
   with_router "b" "admin" "192.168.1.1"].

Definition handlers_at (s : Op) (m : nat) : option (list (Z * Handler)) :=
  (λ x, map_to_list (handlers x)) <$> heap s !! m.

(** C36: a changed login costs another claim its handler.  The handler's number is
    looked up by claim, but the manager it is taken off is the one the claim was
    last seen with: claim a registered number 1 on its first manager, changed
    its user name, and moved away; that removes number 1 of the second manager,
    which is claim b's.  Afterwards b is recorded with handler 1 on a manager
    that has no handlers, however often it is looked after: it hears of no
    reboot or reconnection any more; and a's first handler stays registered on
    the manager it left. *)
Theorem changed_login_removes_other_handler :
  ∃ s, look_all login_story demo_memory = Some s ∧
    sshHandlers s !! "/b" = Some 1 ∧
    (∃ m, claimManagers s !! "/b" = Some m ∧ handlers_at s m = Some []) ∧
    claimManagers s !! "/a" ≠ Some 0%nat ∧
    handlers_at s 0 = Some [(1, {| h_namespace := ""; h_name := "a" |})].
Proof.
  assert ((λ s, (sshHandlers s !! "/b", claimManagers s !! "/b" ≫= handlers_at s,
                 claimManagers s !! "/a", handlers_at s 0)) <$> look_all login_story demo_memory
    = Some (Some 1, Some [], Some 6%nat, Some [(1, {| h_namespace := ""; h_name := "a" |})])) as Hv
    by (vm_compute; reflexivity).
  revert Hv. generalize (look_all login_story demo_memory). intros [s|] Hv; [|discriminate].
  injection Hv as H1 H2 H3 H4. exists s. split; [reflexivity|]. split; [exact H1|]. split.
  - destruct (claimManagers s !! "/b") as [m|]; [|discriminate]. by exists m.
  - rewrite H3. split; [discriminate|exact H4].
Qed.

(** ** The theorem at a history *)

(** All claims log in to the router as the sample claim does. *)
Definition demo_ident (_ : string) : string := configIdentity (manager_config demo_claim "key").

Lemma demo_one_login : one_login demo_ident demo_claim.
Proof. intros signer. reflexivity. Qed.

Lemma demo_look :
  ∃ tr c' s', runs (getSSHManager demo_claim demo_memory) tr ((Ok 0%nat, c'), s').
Proof.
  assert ((λ r, r.1.1.1) <$> sim_result (getSSHManager demo_claim) demo_memory (demo_world [])
          = Some (Ok 0%nat)) as Hv by (vm_compute; reflexivity).
  pose proof (sim_runs (getSSHManager demo_claim) demo_memory (demo_world [])) as Hr.
  revert Hv Hr. generalize (sim_result (getSSHManager demo_claim) demo_memory (demo_world [])).
  intros [[[[r c'] s'] w]|] Hv Hr; [|discriminate]. injection Hv as Hv. simpl in Hv. subst r.
  eexists _, c', s'. exact (Hr _ eq_refl).
Qed.

Lemma handlers_follow_claims_witness :
  booked demo_ident demo_memory ∧
  ∃ tr c' s', runs (getSSHManager demo_claim demo_memory) tr ((Ok 0%nat, c'), s') ∧
    booked demo_ident s' ∧ tracked demo_ident demo_claim 0 s'.
Proof.
  assert (no_books demo_memory) as H0 by (by split_and!).
  destruct (handlers_follow_claims demo_ident demo_memory (keeping_start _ _ H0)) as (Hb & Hlook & _).
  split; [exact Hb|]. destruct demo_look as (tr & c' & s' & Hr). exists tr, c', s'. split; [exact Hr|].
  refine (Hlook demo_claim tr 0%nat c' s' _ demo_one_login Hr).
  intros m mgr Hm. simpl in Hm. by rewrite lookup_empty in Hm.
Defined.
