(* ===== verification/Entry.v ===== *)
(** * The operator's entry point (cmd/main.go) and SetupWithManager

    Flags become the options of the two servers and of the controller manager;
    then the manager is set up step by step and started.  The libraries behind
    the steps answer as they like; those that end the process on failure
    (...OrDie) answer only on success. *)

From Stdlib Require Import SpecFloat.
From S2P Require Import Prelude Effects GoStd Helpers Json Http ClaimTypes Env Pool SshManager Sim.
From S2P Require Import SshCommands Registry AgentClient Controller HandlerBooks.

Local Open Scope Z_scope.

(** ** Flags and options *)

Record Flags := {
  metricsAddr : string;
  probeAddr : string;
  enableLeaderElection : bool;
  secureMetrics : bool;
  webhookCertPath : string;
  webhookCertName : string;
  webhookCertKey : string;
  metricsCertPath : string;
  metricsCertName : string;
  metricsCertKey : string;
  enableHTTP2 : bool;
}.

(** The values when no flag is given. *)
Definition default_flags : Flags :=
  {| metricsAddr := "0"; probeAddr := ":8081"; enableLeaderElection := false; secureMetrics := true;
     webhookCertPath := ""; webhookCertName := "tls.crt"; webhookCertKey := "tls.key";
     metricsCertPath := ""; metricsCertName := "tls.crt"; metricsCertKey := "tls.key";
     enableHTTP2 := false |}.

(** The part of [tls.Config] that is set. *)
Record TlsConfig := { NextProtos : list string }.

(** Options are functions that each server applies to its configuration, in
    order. *)
Definition apply_tls (opts : list (TlsConfig → TlsConfig)) (c : TlsConfig) : TlsConfig :=
  fold_left (λ c f, f c) opts c.

Definition disableHTTP2 (c : TlsConfig) : TlsConfig := {| NextProtos := ["http/1.1"] |}.

Definition tlsOpts (f : Flags) : list (TlsConfig → TlsConfig) :=
  if enableHTTP2 f then [] else [disableHTTP2].

Record WebhookOptions := {
  wh_TLSOpts : list (TlsConfig → TlsConfig);
  wh_CertDir : string;
  wh_CertName : string;
  wh_KeyName : string;
}.

Definition webhookServerOptions (f : Flags) : WebhookOptions :=
  if decide (webhookCertPath f = "")
  then {| wh_TLSOpts := tlsOpts f; wh_CertDir := ""; wh_CertName := ""; wh_KeyName := "" |}
  else {| wh_TLSOpts := tlsOpts f; wh_CertDir := webhookCertPath f; wh_CertName := webhookCertName f;
          wh_KeyName := webhookCertKey f |}.

(** [FilterProvider]: [true] for WithAuthenticationAndAuthorization. *)
Record MetricsOptions := {
  BindAddress : string;
  SecureServing : bool;
  ms_TLSOpts : list (TlsConfig → TlsConfig);
  FilterProvider : bool;
  ms_CertDir : string;
  ms_CertName : string;
  ms_KeyName : string;
}.

Definition metricsServerOptions (f : Flags) : MetricsOptions :=
  let certs := negb (bool_decide (metricsCertPath f = "")) in
  {| BindAddress := metricsAddr f; SecureServing := secureMetrics f; ms_TLSOpts := tlsOpts f;
     FilterProvider := secureMetrics f;
     ms_CertDir := if certs then metricsCertPath f else "";
     ms_CertName := if certs then metricsCertName f else "";
     ms_KeyName := if certs then metricsCertKey f else "" |}.

Record ManagerOptions := {
  Metrics_ : MetricsOptions;
  WebhookServer : WebhookOptions;
  HealthProbeBindAddress : string;
  LeaderElection : bool;
  LeaderElectionID : string;
}.

Definition manager_options (f : Flags) : ManagerOptions :=
  {| Metrics_ := metricsServerOptions f; WebhookServer := webhookServerOptions f;
     HealthProbeBindAddress := probeAddr f; LeaderElection := enableLeaderElection f;
     LeaderElectionID := "9acbf85b.serialx.net" |}.

(** ** The reconciler before and after SetupWithManager *)

(** The fields that SetupWithManager may fill in; nil maps are [None]. *)
Record Reconciler := {
  r_SSHRegistry : option registry;
  r_sshHandlers : option (gmap string Z);
  r_routerAssignments : option (gmap string string);
  r_claimManagers : option (gmap string nat);
  r_Recorder : option string;
}.

(** ** Calls *)

(** What is handed to the manager to run until it stops. *)
Inductive Runnable := CloseRegistry.

Inductive MainE : Type → Type :=
| GetConfigOrDie : MainE unit
| NewManager (o : ManagerOptions) : MainE (result string unit)
| MgrAdd (r : Runnable) : MainE (result string unit)
| NewForConfigOrDie (client : string) : MainE unit
| CompleteController (name : string) (r : Reconciler) : MainE (result string unit)
| AddHealthzCheck (name : string) : MainE (result string unit)
| AddReadyzCheck (name : string) : MainE (result string unit)
| MgrStart : MainE (result string unit).

Abbreviation MainP := (proc MainE).

Definition setup_maps (r : Reconciler) : Reconciler :=
  {| r_SSHRegistry := r_SSHRegistry r;
     r_sshHandlers := Some (default ∅ (r_sshHandlers r));
     r_routerAssignments := Some (default ∅ (r_routerAssignments r));
     r_claimManagers := Some (default ∅ (r_claimManagers r));
     r_Recorder := Some (default "publicipclaim-controller" (r_Recorder r)) |}.

Definition SetupWithManager (r : Reconciler) : MainP (result string unit) :=
  trigger (CompleteController "publicipclaim" (setup_maps r)).

(** The reconciler that main builds around a new registry. *)
Definition main_reconciler : Reconciler :=
  {| r_SSHRegistry := Some NewRegistry; r_sshHandlers := None; r_routerAssignments := None;
     r_claimManagers := None; r_Recorder := None |}.

(** ** main *)

(** Go on if a step succeeded, otherwise exit with code 1. *)
Definition or_exit (m : MainP (result string unit)) (k : MainP Z) : MainP Z :=
  r ← m; match r with Err _ => mret 1 | Ok _ => k end.

(** The process's exit code. *)
Definition main (f : Flags) : MainP Z :=
  _ ← trigger GetConfigOrDie;
  or_exit (trigger (NewManager (manager_options f))) (
  or_exit (trigger (MgrAdd CloseRegistry)) (
  _ ← trigger (NewForConfigOrDie "kubernetes");
  _ ← trigger (NewForConfigOrDie "dynamic");
  or_exit (SetupWithManager main_reconciler) (
  or_exit (trigger (AddHealthzCheck "healthz")) (
  or_exit (trigger (AddReadyzCheck "readyz")) (
  or_exit (trigger MgrStart) (mret 0)))))).

(** What the runnable does when the manager's context ends. *)
Definition run_runnable `{L : Lib} (r : Runnable) : OpM unit :=
  match r with CloseRegistry => CloseAll end.

(** The operator's memory that a reconciler's fields make up; with a nil map
    the first write would panic. *)
Definition reconciler_memory (r : Reconciler) : option Op :=
  h ← r_sshHandlers r; a ← r_routerAssignments r; m ← r_claimManagers r;
  Some {| heap := ∅; next := 0; cancelled := ∅; SSHRegistry := r_SSHRegistry r;
          sshHandlers := h; routerAssignments := a; claimManagers := m |}.

(** ** What main does *)

Inductive Step :=
| SConfig
| SNewManager (o : ManagerOptions)
| SAdd (r : Runnable)
| SClient (name : string)
| SController (name : string) (r : Reconciler)
| SHealthz (name : string)
| SReadyz (name : string)
| SStart.

(** A call of main as a step, and whether it succeeded. *)
Definition call_step X (e : MainE X) : X → Step * bool :=
  match e in MainE X return X → Step * bool with
  | GetConfigOrDie => λ _, (SConfig, true)
  | NewManager o => λ r, (SNewManager o, is_ok r)
  | MgrAdd r => λ x, (SAdd r, is_ok x)
  | NewForConfigOrDie c => λ _, (SClient c, true)
  | CompleteController n r => λ x, (SController n r, is_ok x)
  | AddHealthzCheck n => λ r, (SHealthz n, is_ok r)
  | AddReadyzCheck n => λ r, (SReadyz n, is_ok r)
  | MgrStart => λ r, (SStart, is_ok r)
  end.
Definition ev_step (o : event MainE) : Step * bool := match o with existT X (e, x) => call_step X e x end.

(** The steps in their order. *)
Definition script (f : Flags) : list Step :=
  [SConfig; SNewManager (manager_options f); SAdd CloseRegistry; SClient "kubernetes";
   SClient "dynamic"; SController "publicipclaim" (setup_maps main_reconciler);
   SHealthz "healthz"; SReadyz "readyz"; SStart].

Abbreviation succeeded steps := ((λ s, (s, true)) <$> steps).

(** [h] is the first [n] steps, all successful, and what is left returns the
    right code. *)
Definition scripted (f : Flags) (code : Z) (h : list (event MainE)) : Prop :=
  (code = 0 ∧ ev_step <$> h = succeeded (script f)) ∨
  (code = 1 ∧ ∃ n s, script f !! n = Some s ∧
     ev_step <$> h = succeeded (take n (script f)) ++ [(s, false)]).

Lemma or_exit_step f n s (e : MainE (result string unit)) (k : MainP Z) h :
  (∀ r, call_step _ e r = (s, is_ok r)) → script f !! n = Some s →
  ev_step <$> h = succeeded (take n (script f)) →
  (∀ h', ev_step <$> h' = succeeded (take (S n) (script f)) → wp (proto anything) k (scripted f) h') →
  wp (proto anything) (or_exit (trigger e) k) (scripted f) h.
Proof.
  intros He Hs Hh Hk. unfold or_exit. rewrite wp_bind. apply wp_trigger. split; [done|].
  assert (∀ r, ev_step <$> (h ++ [Ev e r]) = succeeded (take n (script f)) ++ [(s, is_ok r)]) as Hev.
  { intros r. rewrite fmap_app, Hh. simpl. by rewrite He. }
  intros [[]|msg] h' ->.
  - apply Hk. rewrite (Hev (Ok tt)), (take_S_r _ _ _ Hs). by rewrite fmap_app.
  - right. split; [done|]. exists n, s. split; [done|]. apply (Hev (Err msg)).
Qed.

Lemma plain_step f n s (e : MainE unit) (k : MainP Z) h :
  (∀ r, call_step _ e r = (s, true)) → script f !! n = Some s →
  ev_step <$> h = succeeded (take n (script f)) →
  (∀ h', ev_step <$> h' = succeeded (take (S n) (script f)) → wp (proto anything) k (scripted f) h') →
  wp (proto anything) (_ ← trigger e; k) (scripted f) h.
Proof.
  intros He Hs Hh Hk. rewrite wp_bind. apply wp_trigger. split; [done|]. intros [] h' ->. apply Hk.
  rewrite (take_S_r _ _ _ Hs), !fmap_app, Hh. simpl. by rewrite He.
Qed.

Lemma main_scripted f : wp (proto anything) (main f) (scripted f) [].
Proof.
  unfold main, SetupWithManager.
  apply (plain_step f 0 SConfig); [done..|]. intros h0 H0.
  eapply (or_exit_step f 1); [done|done|exact H0|]. intros h1 H1.
  eapply (or_exit_step f 2); [done|done|exact H1|]. intros h2 H2.
  eapply (plain_step f 3); [done|done|exact H2|]. intros h3 H3.
  eapply (plain_step f 4); [done|done|exact H3|]. intros h4 H4.
  eapply (or_exit_step f 5); [done|done|exact H4|]. intros h5 H5.
  eapply (or_exit_step f 6); [done|done|exact H5|]. intros h6 H6.
  eapply (or_exit_step f 7); [done|done|exact H6|]. intros h7 H7.
  eapply (or_exit_step f 8); [done|done|exact H7|]. intros h8 H8.
  by left.
Qed.

(** C30: how the operator starts.  main performs its setup steps in order and stops
    at the first that fails, with exit code 1, so that the manager is started
    only when the registry's cleanup is registered, the controller complete and
    both probes in place; it exits with 0 only after all of them, the manager's
    run included, succeeded.  The controller is given a reconciler with empty,
    not nil, maps: the state from which its books are kept.  The metrics and the
    webhook server offer nothing but HTTP/1.1 unless HTTP/2 is enabled, and
    metrics served over TLS are authenticated. *)
Theorem main_runs_its_script f tr code :
  runs (main f) tr code →
  scripted f code tr ∧
  (∃ s, reconciler_memory (setup_maps main_reconciler) = Some s ∧ no_books s) ∧
  (∀ c, NextProtos (apply_tls (ms_TLSOpts (Metrics_ (manager_options f))) c)
        = (if enableHTTP2 f then NextProtos c else ["http/1.1"]) ∧
        NextProtos (apply_tls (wh_TLSOpts (WebhookServer (manager_options f))) c)
        = (if enableHTTP2 f then NextProtos c else ["http/1.1"])) ∧
  (SecureServing (Metrics_ (manager_options f)) = true → FilterProvider (Metrics_ (manager_options f)) = true).
Proof.
  intros Hr. split; [exact (wp_trace _ _ _ _ (main_scripted f) Hr)|]. split; [by eexists|]. split; [|done].
  intros c. unfold manager_options, metricsServerOptions, webhookServerOptions, tlsOpts. simpl.
  case_decide; simpl; by destruct (enableHTTP2 f).
Qed.

(** The run in which the controller cannot be completed. *)
Lemma main_runs_its_script_witness :
  scripted default_flags 1
    [Ev GetConfigOrDie tt; Ev (NewManager (manager_options default_flags)) (Ok tt);
     Ev (MgrAdd CloseRegistry) (Ok tt); Ev (NewForConfigOrDie "kubernetes") tt;
     Ev (NewForConfigOrDie "dynamic") tt;
     Ev (CompleteController "publicipclaim" (setup_maps main_reconciler)) (Err "name taken")].
Proof.
  apply (main_runs_its_script default_flags _ 1). repeat constructor.
Defined.
