(* ===== verification/AgentEnv.v ===== *)
(** * The router agent's environment and memory

    The agent is a concurrent program: one goroutine per HTTP request and one
    renewal goroutine per lease.  A goroutine is a [proc] whose calls are the
    sections it runs on the shared memory ([MemOp]) and its calls to code that
    is not the agent's ([ExtOp]: netlink, files, sockets, the DHCP library, the
    clock).  What a section does to the memory is defined with the component
    that owns it (LeaseStore, Agent); AgentThreads interleaves goroutines. *)

From S2P Require Import Prelude Effects GoStd Json Http.

Local Open Scope Z_scope.

(** ** Data of external packages *)

(** An error of netlink, and whether it is a [LinkNotFoundError]. *)
Record nlerr := { nl_msg : string; nl_notfound : bool }.

(** An error of package os, and what [os.IsNotExist] says of it. *)
Record oserr := { os_msg : string; os_notexist : bool }.

(** The DHCP library and what [encoding/json] needs of package time. *)
Class AgLib := {
  Packet : Type;                                  (* dhcpv4.DHCPv4 *)
  YourIPAddr : Packet → option IP;                (* nil is None *)
  SubnetMask : Packet → option (list Z);
  ServerIdentifier : Packet → option IP;
  IPAddressLeaseTime : Packet → Z → Z;            (* with the default *)
  IPAddressRenewalTime : Packet → Z → Z;
  IPAddressRebindingTime : Packet → Z → Z;
  IsAck : Packet → bool;                          (* MessageType() == MessageTypeAck *)
  MessageTypeString : Packet → string;
  ToBytes : Packet → list Z;
  FromBytes : list Z → result string Packet;
  (* &DHCPv4{ClientIPAddr: ip, ClientHWAddr: mac}, and requests made of it *)
  ClientPacket : IP → HardwareAddr → Packet;
  NewRequestFromOffer : Packet → result string Packet;
  WithServerIdentifier : IP → Packet → Packet;
  (* time.Time as JSON: RFC 3339, only for years 0 to 9999 *)
  FormatTime : Z → option string;
  ParseTime : string → option Z;
  (* texts of errors *)
  JsonErrorText : option json → string;
  ParseMACErrorText : string → string;
}.

Class AgLaws (L : AgLib) : Prop := {
  ParseTime_Format t s : FormatTime t = Some s → ParseTime s = Some t;
}.

(** [nclient4.Lease]. *)
Record NLease `{AgLib} := { nl_Offer : option Packet; nl_ACK : option Packet }.

(** ** Leases (internal/agent/lease/types.go) *)

(** Durations and times in nanoseconds. *)
Record Lease := {
  Interface : string;
  WanParent : string;
  IPAddress : IP;
  DHCPServerIP : IP;
  MACAddress : HardwareAddr;
  ExpiresAt : Z;
  LeaseTime : Z;
  RenewalCount : Z;
  Status : string;
  InterfaceExists : bool;
  CreatedAt : Z;
  DHCPOffer : list Z;
  DHCPAck : list Z;
}.

Definition StatusActive : string := "active".
Definition StatusStale : string := "stale".
Definition StatusExpired : string := "expired".

(** ** The agent's memory *)

(** A context is a number. *)
Definition actx := nat.

(** Leases are shared by pointer: [heap] holds them by address.  The store's
    map may be nil ([None]) and may hold nil pointers.  [mu] is the store's
    lock when it is held across calls, [saveMu] the lock of [save]. *)
Record Ag := {
  heap : gmap nat Lease;
  next : nat;
  leases : option (gmap string (option nat));
  mu : bool;
  saveMu : bool;
  inflight : gmap string nat;
  renewalCancels : gmap string actx;
  cancelled : gset actx;
  shutdown : bool;
}.

(** ** Sections on the memory *)

Inductive MemOp : Type → Type :=
(* lease.Store *)
| OGet (iface : string) : MemOp (option (option nat))
| OList : MemOp (list (option nat))
| OPut (iface : string) (l : nat) : MemOp bool      (* false: the map is nil *)
| ODel (iface : string) : MemOp unit
| OAcquire (iface : string) : MemOp bool
| ORelease (iface : string) : MemOp unit
| OMarshal : MemOp (result string json)
| OLoad (m : option (list (string * option Lease))) : MemOp unit
| OLockSave : MemOp unit
| OUnlockSave : MemOp unit
| OLockMu : MemOp unit
| OUnlockMu : MemOp unit
| OMarkInterface (iface : string) (exists_ : bool) : MemOp unit
(* lease objects *)
| ONew (l : Lease) : MemOp nat
| ORead (l : nat) : MemOp Lease
| OWrite (l : nat) (f : Lease → Lease) : MemOp unit
(* renewal contexts *)
| OContext (iface : string) : MemOp actx
| OStop (iface : string) : MemOp unit
| OForget (iface : string) : MemOp unit
| OShutdown : MemOp unit
| OIsShutdown : MemOp bool.

(** ** External calls *)

(** File contents: a text, or a document read and written as JSON ([None]
    when it is not valid JSON). *)
Inductive content := Text (s : string) | JsonDoc (j : option json).

Section ext.
Context `{L : AgLib}.

Inductive ExtOp : Type → Type :=
(* netlink; a macvlan object that was just added is found by its name *)
| LinkByName (name : string) : ExtOp (result nlerr nat)
| LinkAdd (name : string) (parent : nat) (mac : HardwareAddr) : ExtOp (result string unit)
| LinkSetUp (name : string) : ExtOp (result string unit)
| LinkDelNew (name : string) : ExtOp (result string unit)
| LinkDel (index : nat) : ExtOp (result string unit)
| NeighSet (index : nat) (ip : IP) : ExtOp (result oserr unit)
| NeighDel (index : nat) (ip : IP) : ExtOp (result oserr unit)
(* files *)
| WriteFile (path : string) (data : content) : ExtOp (result oserr unit)
| Rename (from to : string) : ExtOp (result oserr unit)
| ReadFile (path : string) : ExtOp (result oserr content)
| MkdirAll (path : string) : ExtOp (result oserr unit)
(* packet sockets *)
| InterfaceByName (name : string) : ExtOp (result string nat)
| Socket (protocol : Z) : ExtOp (result string nat)
| CloseFd (fd : nat) : ExtOp unit
| Sendto (fd : nat) (packet : list Z) (protocol : Z) (ifindex : nat) : ExtOp (result string unit)
| Sleep (d : Z) : ExtOp unit
(* the DHCP client library *)
| NclientNew (iface : string) (mac : HardwareAddr) : ExtOp (result string nat)
| NclientClose (c : nat) : ExtOp unit
| NclientRequest (c : nat) : ExtOp (result string NLease)
| NclientRenew (c : nat) (offer ack : Packet) : ExtOp (result string (option NLease))
| NclientSendAndRead (c : nat) (server : IP) (req : Packet) : ExtOp (result string Packet)
| NclientRelease (c : nat) (ack : Packet) : ExtOp (result string unit)
(* the clock, timers and goroutines *)
| Now : ExtOp Z
| Select (timer : Z) (ctx : actx) : ExtOp bool     (* true: the timer fired *)
| Spawn (iface : string) (l : nat) (ctx : actx) : ExtOp unit
| Respond (r : HttpResponse) : ExtOp unit           (* sent when the handler returns *)
| HttpServerShutdown : ExtOp (option string)
| WaitRenewals (timeout : Z) : ExtOp bool
| Panic (msg : string) : ExtOp Empty_set.

Inductive AgE (X : Type) : Type :=
| Mem (o : MemOp X)
| Ext (o : ExtOp X).

Definition mem {X} (o : MemOp X) : proc AgE X := trigger (Mem X o).
Definition ext {X} (o : ExtOp X) : proc AgE X := trigger (Ext X o).

Definition panic {A} (msg : string) : proc AgE A :=
  Vis (Ext _ (Panic msg)) (λ x : Empty_set, match x with end).
End ext.
Arguments Mem {L X} o.
Arguments Ext {L X} o.

(** The code of a goroutine. *)
Abbreviation AgP := (proc AgE).

(** ** Updates of the memory *)

Definition set_heap (x : gmap nat Lease) (s : Ag) : Ag :=
  {| heap := x; next := next s; leases := leases s; mu := mu s; saveMu := saveMu s;
     inflight := inflight s; renewalCancels := renewalCancels s; cancelled := cancelled s;
     shutdown := shutdown s |}.
Definition set_next (x : nat) (s : Ag) : Ag :=
  {| heap := heap s; next := x; leases := leases s; mu := mu s; saveMu := saveMu s;
     inflight := inflight s; renewalCancels := renewalCancels s; cancelled := cancelled s;
     shutdown := shutdown s |}.
Definition set_leases (x : option (gmap string (option nat))) (s : Ag) : Ag :=
  {| heap := heap s; next := next s; leases := x; mu := mu s; saveMu := saveMu s;
     inflight := inflight s; renewalCancels := renewalCancels s; cancelled := cancelled s;
     shutdown := shutdown s |}.
Definition set_mu (x : bool) (s : Ag) : Ag :=
  {| heap := heap s; next := next s; leases := leases s; mu := x; saveMu := saveMu s;
     inflight := inflight s; renewalCancels := renewalCancels s; cancelled := cancelled s;
     shutdown := shutdown s |}.
Definition set_saveMu (x : bool) (s : Ag) : Ag :=
  {| heap := heap s; next := next s; leases := leases s; mu := mu s; saveMu := x;
     inflight := inflight s; renewalCancels := renewalCancels s; cancelled := cancelled s;
     shutdown := shutdown s |}.
Definition set_inflight (x : gmap string nat) (s : Ag) : Ag :=
  {| heap := heap s; next := next s; leases := leases s; mu := mu s; saveMu := saveMu s;
     inflight := x; renewalCancels := renewalCancels s; cancelled := cancelled s;
     shutdown := shutdown s |}.
Definition set_cancels (x : gmap string actx) (s : Ag) : Ag :=
  {| heap := heap s; next := next s; leases := leases s; mu := mu s; saveMu := saveMu s;
     inflight := inflight s; renewalCancels := x; cancelled := cancelled s;
     shutdown := shutdown s |}.
Definition set_cancelled (x : gset actx) (s : Ag) : Ag :=
  {| heap := heap s; next := next s; leases := leases s; mu := mu s; saveMu := saveMu s;
     inflight := inflight s; renewalCancels := renewalCancels s; cancelled := x;
     shutdown := shutdown s |}.
Definition set_shutdown (x : bool) (s : Ag) : Ag :=
  {| heap := heap s; next := next s; leases := leases s; mu := mu s; saveMu := saveMu s;
     inflight := inflight s; renewalCancels := renewalCancels s; cancelled := cancelled s;
     shutdown := x |}.
