(* ===== verification/Garp.v ===== *)
(** * Gratuitous ARP (internal/agent/network/garp.go)

    The 42-byte announcement frame, built byte by byte as in the source, and
    the loop that sends it. *)

From S2P Require Import Prelude Effects GoStd Json Http AgentEnv.

Local Open Scope Z_scope.

(** [copy(packet[lo:hi], src)]. *)
Definition copy_at (lo hi : nat) (src packet : list Z) : list Z :=
  list_inserts lo (take (hi - lo) src) packet.

Definition buildGratuitousARP (mac : HardwareAddr) (ip : IP) : list Z :=
  let packet := replicate 42 0 in
  let packet := copy_at 0 6 [255; 255; 255; 255; 255; 255] packet in
  let packet := copy_at 6 12 mac packet in
  let packet := <[12%nat := 8]> packet in
  let packet := <[13%nat := 6]> packet in
  let packet := <[14%nat := 0]> packet in
  let packet := <[15%nat := 1]> packet in
  let packet := <[16%nat := 8]> packet in
  let packet := <[17%nat := 0]> packet in
  let packet := <[18%nat := 6]> packet in
  let packet := <[19%nat := 4]> packet in
  let packet := <[20%nat := 0]> packet in
  let packet := <[21%nat := 1]> packet in
  let packet := copy_at 22 28 mac packet in
  let packet := copy_at 28 32 (To4 ip) packet in
  let packet := copy_at 32 38 [0; 0; 0; 0; 0; 0] packet in
  copy_at 38 42 (To4 ip) packet.

(** [(v << 8) | (v >> 8)] on [uint16]. *)
Definition htons (v : Z) : Z := Z.lor (wrap16u (Z.shiftl v 8)) (Z.shiftr v 8).

Definition ETH_P_ARP : Z := 2054.
Definition Millisecond : Z := 1000000.

Section garp.
Context `{L : AgLib}.

(** The loop body for [i], [i+1], ..., [count-1]; [n] iterations are left. *)
Fixpoint send_loop (fd ifindex : nat) (packet : list Z) (count i n : nat)
    : AgP (result string unit) :=
  match n with
  | O => mret (Ok tt)
  | S n' =>
    r ← ext (Sendto fd packet (htons ETH_P_ARP) ifindex);
    match r with
    | Err e => mret (Err ("failed to send gratuitous ARP (attempt " +:+ pretty (Z.of_nat (i + 1))
                          +:+ "/" +:+ pretty (Z.of_nat count) +:+ "): " +:+ e))
    | Ok _ =>
      _ ← (if decide (i < count - 1)%nat then ext (Sleep (200 * Millisecond)) else mret tt);
      send_loop fd ifindex packet count (i + 1) n'
    end
  end.

Definition SendGratuitousARP (ifaceName : string) (ip : IP) (mac : HardwareAddr) (count : nat)
    : AgP (result string unit) :=
  r ← ext (InterfaceByName ifaceName);
  match r with
  | Err e => mret (Err ("failed to get interface: " +:+ e))
  | Ok index =>
    r' ← ext (Socket (htons ETH_P_ARP));
    match r' with
    | Err e => mret (Err ("failed to create raw socket: " +:+ e))
    | Ok fd =>
      res ← send_loop fd index (buildGratuitousARP mac ip) count 0 count;
      _ ← ext (CloseFd fd);
      mret res
    end
  end.
End garp.

(** ** The frame *)

(** An ARP frame taken apart: the fields of the Ethernet and ARP headers. *)
Record arp_frame := {
  eth_dst : list Z; eth_src : list Z; eth_type : Z;
  hw_type : Z; proto_type : Z; hw_size : Z; proto_size : Z; opcode : Z;
  sender_mac : list Z; sender_ip : list Z; target_mac : list Z; target_ip : list Z;
}.

Definition be16 (l : list Z) (i : nat) : Z := nth i l 0 * 256 + nth (i + 1) l 0.

Definition slice (i n : nat) (l : list Z) : list Z := take n (drop i l).

(** RFC 826 over Ethernet: 14 bytes of Ethernet header and 28 of ARP. *)
Definition parse_arp (l : list Z) : option arp_frame :=
  if decide (length l = 42%nat) then
    Some {| eth_dst := slice 0 6 l; eth_src := slice 6 6 l; eth_type := be16 l 12;
            hw_type := be16 l 14; proto_type := be16 l 16; hw_size := nth 18 l 0;
            proto_size := nth 19 l 0; opcode := be16 l 20; sender_mac := slice 22 6 l;
            sender_ip := slice 28 4 l; target_mac := slice 32 6 l; target_ip := slice 38 4 l |}
  else None.

Lemma To4_length ip : (length (To4 ip) ≤ 4)%nat.
Proof.
  unfold To4. repeat case_decide; simpl; try lia.
  rewrite length_drop. destruct_and?. lia.
Qed.

Lemma six {A} (l : list A) : length l = 6%nat → ∃ a b c d e f, l = [a; b; c; d; e; f].
Proof. destruct l as [|a [|b [|c [|d [|e [|f []]]]]]]; intros [=]. by eauto 7. Qed.

Lemma four {A} (l : list A) : length l = 4%nat → ∃ a b c d, l = [a; b; c; d].
Proof. destruct l as [|a [|b [|c [|d []]]]]; intros [=]. by eauto 5. Qed.

(** C31: the announcement is a well-formed gratuitous ARP request.  For an IPv4
    address and a MAC of at least six bytes (an EUI-64 is cut to its first
    six), the frame parses as an ARP request over Ethernet and IPv4 that is
    broadcast from the MAC and announces the address: sender and target
    protocol address are both the IP and the target hardware address is zero. *)
Theorem buildGratuitousARP_frame mac ip :
  (6 ≤ length mac)%nat → length (To4 ip) = 4%nat →
  parse_arp (buildGratuitousARP mac ip) =
  Some {| eth_dst := replicate 6 255; eth_src := take 6 mac; eth_type := ETH_P_ARP;
          hw_type := 1; proto_type := 2048; hw_size := 6; proto_size := 4; opcode := 1;
          sender_mac := take 6 mac; sender_ip := To4 ip; target_mac := replicate 6 0;
          target_ip := To4 ip |}.
Proof.
  intros Hm Hi. assert (length (take 6 mac) = 6%nat) as H6 by (rewrite length_take; lia).
  unfold buildGratuitousARP, copy_at.
  change (12 - 6)%nat with 6%nat. change (28 - 22)%nat with 6%nat.
  change (32 - 28)%nat with 4%nat. change (42 - 38)%nat with 4%nat.
  rewrite !(take_ge (To4 ip)) by lia.
  destruct (six _ H6) as (a & b & c & d & e & f & ->).
  destruct (four _ Hi) as (p & q & r & s & ->). reflexivity.
Qed.

(** The length does not depend on the inputs. *)
Lemma buildGratuitousARP_length mac ip : length (buildGratuitousARP mac ip) = 42%nat.
Proof.
  unfold buildGratuitousARP, copy_at. cbv zeta.
  by rewrite ?length_inserts, ?length_insert, ?length_inserts, ?length_insert, ?length_inserts.
Qed.

(** [htons] is the byte swap: the value whose big-endian bytes are the
    little-endian bytes of the argument; so it is its own inverse. *)
Theorem htons_swaps hi lo :
  is_byte hi → is_byte lo →
  htons (256 * hi + lo) = 256 * lo + hi ∧ htons (htons (256 * hi + lo)) = 256 * hi + lo.
Proof.
  unfold is_byte. intros Hh Hl.
  assert (∀ h l, 0 ≤ h < 256 → 0 ≤ l < 256 → htons (256 * h + l) = 256 * l + h) as E.
  { intros h l H1 H2. unfold htons, wrap16u. rewrite Z.shiftl_mul_pow2, Z.shiftr_div_pow2 by lia.
    change (2 ^ 16) with 65536. change (2 ^ 8) with 256.
    replace (((256 * h + l) * 256) `mod` 65536) with (l * 2 ^ 8)
      by (change (2 ^ 8) with 256; Z.div_mod_to_equations; lia).
    replace ((256 * h + l) `div` 256) with h by (Z.div_mod_to_equations; lia).
    rewrite <-Z.shiftl_mul_pow2 by lia. rewrite <-Z.add_nocarry_lor.
    - rewrite Z.shiftl_mul_pow2 by lia. lia.
    - apply Z.bits_inj_iff'. intros n Hn. rewrite Z.land_spec, Z.bits_0, Z.shiftl_spec by lia.
      destruct (decide (n < 8)).
      + by rewrite Z.testbit_neg_r by lia.
      + rewrite (Z.bits_above_log2 h n), andb_false_r; [done|lia|].
        destruct (decide (h = 0)) as [->|]; [simpl; lia|].
        apply Z.log2_lt_pow2; [lia|]. apply Z.lt_le_trans with (2 ^ 8); [simpl; lia|].
        apply Z.pow_le_mono_r; lia. }
  rewrite E by done. split; [done|]. by apply E.
Qed.

(** ** Samples *)

Lemma buildGratuitousARP_frame_witness :
  let mac := [2; 0; 0; 0; 0; 1] in let ip := [203; 0; 113; 45] in
  (6 ≤ length mac)%nat ∧ length (To4 ip) = 4%nat ∧
  parse_arp (buildGratuitousARP mac ip) =
  Some {| eth_dst := replicate 6 255; eth_src := take 6 mac; eth_type := ETH_P_ARP;
          hw_type := 1; proto_type := 2048; hw_size := 6; proto_size := 4; opcode := 1;
          sender_mac := take 6 mac; sender_ip := To4 ip; target_mac := replicate 6 0;
          target_ip := To4 ip |}.
Proof.
  split; [simpl; lia|]. split; [reflexivity|].
  apply (buildGratuitousARP_frame [2; 0; 0; 0; 0; 1] [203; 0; 113; 45]); [simpl; lia|reflexivity].
Defined.

Lemma htons_swaps_witness :
  is_byte 8 ∧ is_byte 6 ∧ htons (256 * 8 + 6) = 256 * 6 + 8 ∧
  htons (htons (256 * 8 + 6)) = 256 * 8 + 6.
Proof.
  split; [done|]. split; [done|]. apply (htons_swaps 8 6); done.
Defined.
