(* ===== verification/NetConfig.v ===== *)
(** * Network configuration (internal/agent/network/config.go)

    Creating, configuring, cleaning up and deleting the macvlan interface of a
    lease. *)

From S2P Require Import Prelude Effects GoStd Json Http AgentEnv.

Local Open Scope Z_scope.

Definition conf_path (ifaceName file : string) : string :=
  "/proc/sys/net/ipv4/conf/" +:+ ifaceName +:+ "/" +:+ file.

Section config.
Context `{L : AgLib}.

(** The subnet mask is accepted and not used. *)
Definition SetupInterface (ifaceName : string) (ip : IP) (subnetMask : list Z)
    : AgP (result string unit) :=
  r ← ext (LinkByName ifaceName);
  match r with
  | Err e => mret (Err ("failed to get interface: " +:+ nl_msg e))
  | Ok index =>
    w ← ext (WriteFile (conf_path ifaceName "proxy_arp") (Text "1"));
    match w with
    | Err e => mret (Err ("failed to enable proxy ARP: " +:+ os_msg e))
    | Ok _ =>
      n ← ext (NeighSet index ip);
      match n with
      | Err e => mret (Err ("failed to add neighbor proxy: " +:+ os_msg e))
      | Ok _ =>
        w' ← ext (WriteFile (conf_path ifaceName "rp_filter") (Text "0"));
        match w' with
        | Err e => mret (Err ("failed to disable rp_filter: " +:+ os_msg e))
        | Ok _ => mret (Ok tt)
        end
      end
    end
  end.

(** An error that only says the thing is gone already is no error. *)
Definition tolerate (what : string) (r : result oserr unit) : result string unit :=
  match r with
  | Ok _ => Ok tt
  | Err e => if os_notexist e then Ok tt else Err (what +:+ os_msg e)
  end.

Definition CleanupInterface (ifaceName : string) (ip : IP) : AgP (result string unit) :=
  r ← ext (LinkByName ifaceName);
  match r with
  | Err e => mret (if nl_notfound e then Ok tt
                   else Err ("failed to get interface: " +:+ nl_msg e))
  | Ok index =>
    n ← ext (NeighDel index ip);
    match tolerate "failed to remove neighbor proxy: " n with
    | Err e => mret (Err e)
    | Ok _ =>
      w ← ext (WriteFile (conf_path ifaceName "proxy_arp") (Text "0"));
      match tolerate "failed to disable proxy ARP: " w with
      | Err e => mret (Err e)
      | Ok _ =>
        w' ← ext (WriteFile (conf_path ifaceName "rp_filter") (Text "1"));
        mret (tolerate "failed to re-enable rp_filter: " w')
      end
    end
  end.

Definition CreateMacvlan (ifaceName parentIface : string) (mac : HardwareAddr)
    : AgP (result string unit) :=
  r ← ext (LinkByName parentIface);
  match r with
  | Err e => mret (Err ("failed to get parent interface " +:+ parentIface +:+ ": " +:+ nl_msg e))
  | Ok parent =>
    x ← ext (LinkByName ifaceName);
    match x with
    | Ok _ => mret (Err ("interface " +:+ ifaceName +:+ " already exists"))
    | Err _ =>
      a ← ext (LinkAdd ifaceName parent mac);
      match a with
      | Err e => mret (Err ("failed to create macvlan interface: " +:+ e))
      | Ok _ =>
        u ← ext (LinkSetUp ifaceName);
        match u with
        | Err e =>
          _ ← ext (LinkDelNew ifaceName);
          mret (Err ("failed to bring interface up: " +:+ e))
        | Ok _ => mret (Ok tt)
        end
      end
    end
  end.

Definition DeleteMacvlan (ifaceName : string) : AgP (result string unit) :=
  r ← ext (LinkByName ifaceName);
  match r with
  | Err e => mret (if nl_notfound e then Ok tt
                   else Err ("failed to get interface: " +:+ nl_msg e))
  | Ok index =>
    d ← ext (LinkDel index);
    match d with
    | Err e => mret (Err ("failed to delete interface: " +:+ e))
    | Ok _ => mret (Ok tt)
    end
  end.
End config.
