(* ===== verification/DhcpClient.v ===== *)
(** * The DHCP client (internal/agent/dhcp/client.go)

    Acquiring, renewing, rebinding and releasing a lease through the DHCP
    library, and what is read out of the server's ACK. *)

From S2P Require Import Prelude Effects GoStd Json Http AgentEnv.

Local Open Scope Z_scope.

Definition Second : Z := 1000000000.
Definition Minute : Z := 60 * Second.
Definition Hour : Z := 60 * Minute.

(** [net.CIDRMask(24, 32)]. *)
Definition mask24 : list Z := [255; 255; 255; 0].

(** [leaseTime * 7 / 8] on [time.Duration], an [int64]. *)
Definition seven_eighths (d : Z) : Z := wrap64s (d * 7) ÷ 8.

Section dhcp.
Context `{L : AgLib}.

Record LeaseInfo := {
  li_IPAddress : IP;
  li_SubnetMask : list Z;
  li_DHCPServerIP : IP;
  li_LeaseTime : Z;
  li_RenewalTime : Z;
  li_RebindTime : Z;
  li_Offer : option Packet;
  li_ACK : option Packet;
}.

(** [ip == nil || ip.IsUnspecified()]. *)
Definition usable (ip : option IP) : option IP :=
  match ip with
  | Some ip => if IsUnspecified ip then None else Some ip
  | None => None
  end.

(** The times of an ACK, with their defaults. *)
Definition lease_info (ip server : IP) (offer : option Packet) (ack : Packet) : LeaseInfo :=
  let leaseTime := IPAddressLeaseTime ack Hour in
  {| li_IPAddress := ip; li_SubnetMask := default mask24 (SubnetMask ack);
     li_DHCPServerIP := server; li_LeaseTime := leaseTime;
     li_RenewalTime := IPAddressRenewalTime ack (leaseTime ÷ 2);
     li_RebindTime := IPAddressRebindingTime ack (seven_eighths leaseTime);
     li_Offer := offer; li_ACK := Some ack |}.

(** The end of [AcquireLease] and of [RebindLease]: a fresh lease must name an
    address and a server. *)
Definition fresh_lease (lease : NLease) : result string LeaseInfo :=
  match nl_ACK lease with
  | None => Err "no ACK received from DHCP server"
  | Some ack =>
    match usable (YourIPAddr ack) with
    | None => Err "no IP address in DHCP ACK"
    | Some ip =>
      match usable (ServerIdentifier ack) with
      | None => Err "no DHCP server identifier in ACK"
      | Some server => Ok (lease_info ip server (nl_Offer lease) ack)
      end
    end
  end.

(** The end of [RenewLease]: what the ACK leaves out is taken from the lease. *)
Definition renewed_lease (currentIP dhcpServerIP : IP) (lease : option NLease)
    : result string LeaseInfo :=
  match lease with
  | None => Err "no ACK received from DHCP server"
  | Some lease =>
    match nl_ACK lease with
    | None => Err "no ACK received from DHCP server"
    | Some ack =>
      Ok (lease_info (default currentIP (usable (YourIPAddr ack)))
            (default dhcpServerIP (usable (ServerIdentifier ack))) (nl_Offer lease) ack)
    end
  end.

(** [nclient4.New], the body, and the deferred [client.Close]. *)
Definition with_client {A} (iface : string) (mac : HardwareAddr)
    (body : nat → AgP (result string A)) : AgP (result string A) :=
  r ← ext (NclientNew iface mac);
  match r with
  | Err e => mret (Err ("failed to create DHCP client: " +:+ e))
  | Ok c =>
    res ← body c;
    _ ← ext (NclientClose c);
    mret res
  end.

(** [AcquireLease] and [RebindLease] are the same exchange. *)
Definition request_lease (c : nat) : AgP (result string LeaseInfo) :=
  r ← ext (NclientRequest c);
  mret (match r with
        | Err e => Err ("DHCP request failed: " +:+ e)
        | Ok lease => fresh_lease lease
        end).

Definition AcquireLease (iface : string) (mac : HardwareAddr) : AgP (result string LeaseInfo) :=
  with_client iface mac request_lease.

Definition RebindLease (iface : string) (mac : HardwareAddr) (currentIP : IP)
    : AgP (result string LeaseInfo) :=
  with_client iface mac request_lease.

(** Renewal with the saved packets. *)
Definition renew_saved (c : nat) (previousOffer previousAck : list Z)
    : AgP (result string (option NLease)) :=
  match FromBytes previousOffer with
  | Err e => mret (Err ("failed to parse previous OFFER: " +:+ e))
  | Ok offer =>
    match FromBytes previousAck with
    | Err e => mret (Err ("failed to parse previous ACK: " +:+ e))
    | Ok ack =>
      r ← ext (NclientRenew c offer ack);
      mret (match r with
            | Err e => Err ("RENEW request failed: " +:+ e)
            | Ok l => Ok l
            end)
    end
  end.

(** Renewal of an old lease without saved packets. *)
Definition renew_manual (c : nat) (mac : HardwareAddr) (currentIP dhcpServerIP : IP)
    : AgP (result string (option NLease)) :=
  match NewRequestFromOffer (ClientPacket currentIP mac) with
  | Err e => mret (Err ("failed to create RENEW request: " +:+ e))
  | Ok req =>
    r ← ext (NclientSendAndRead c dhcpServerIP (WithServerIdentifier dhcpServerIP req));
    mret (match r with
          | Err e => Err ("RENEW request failed: " +:+ e)
          | Ok resp =>
            if IsAck resp then Ok (Some {| nl_Offer := None; nl_ACK := Some resp |})
            else Err ("expected ACK, got " +:+ MessageTypeString resp)
          end)
  end.

Definition RenewLease (iface : string) (mac : HardwareAddr) (currentIP dhcpServerIP : IP)
    (previousOffer previousAck : list Z) : AgP (result string LeaseInfo) :=
  with_client iface mac (λ c,
    r ← (if decide (previousOffer ≠ [] ∧ previousAck ≠ [])
         then renew_saved c previousOffer previousAck
         else renew_manual c mac currentIP dhcpServerIP);
    mret (match r with
          | Err e => Err e
          | Ok lease => renewed_lease currentIP dhcpServerIP lease
          end)).

Definition ReleaseLease (iface : string) (mac : HardwareAddr) (currentIP dhcpServerIP : IP)
    : AgP (result string unit) :=
  with_client iface mac (λ c,
    r ← ext (NclientRelease c (WithServerIdentifier dhcpServerIP (ClientPacket currentIP mac)));
    mret (match r with
          | Err e => Err ("failed to send RELEASE: " +:+ e)
          | Ok _ => Ok tt
          end)).
End dhcp.
