(* ===== verification/LeaseJson.v ===== *)
(** * The lease file's format (encoding/json on lease.Lease)

    How [json.MarshalIndent] writes the map of leases and [json.Unmarshal]
    reads it back: addresses as text, byte slices in base64, times in RFC 3339,
    the two packets only when they are not empty. *)

From S2P Require Import Prelude Effects GoStd Base64 Json Http AgentEnv.

Local Open Scope Z_scope.

Definition zero_Lease : Lease :=
  {| Interface := ""; WanParent := ""; IPAddress := []; DHCPServerIP := []; MACAddress := [];
     ExpiresAt := zero_time; LeaseTime := 0; RenewalCount := 0; Status := "";
     InterfaceExists := false; CreatedAt := zero_time; DHCPOffer := []; DHCPAck := [] |}.

(** [net.IP.MarshalText] and [UnmarshalText]. *)
Definition enc_IP (ip : IP) : option json :=
  if decide (length ip = 0%nat) then Some (JStr "")
  else if decide (length ip = 4%nat ∨ length ip = 16%nat) then Some (JStr (IP_String ip))
  else None.

Definition dec_IP (j : json) : option IP :=
  match j with
  | JNull => Some []
  | JStr s => if decide (s = "") then Some [] else ParseIP s
  | _ => None
  end.

(** A [[]byte]: a nil slice is null; an array of numbers is accepted too. *)
Definition enc_bytes (l : list Z) : json :=
  match l with [] => JNull | _ => JStr (unbytes (EncodeToString l)) end.

Definition dec_byte (j : json) : option Z :=
  match j with
  | JNum n => if decide (0 ≤ n < 256) then Some n else None
  | JNull => Some 0
  | _ => None
  end.

Definition dec_bytes (j : json) : option (list Z) :=
  match j with
  | JNull => Some []
  | JStr s => DecodeString (bytes s)
  | JArr l => mapM dec_byte l
  | _ => None
  end.

(** [omitempty]. *)
Definition opt_bytes (k : string) (l : list Z) : list (string * json) :=
  match l with [] => [] | _ => [(k, enc_bytes l)] end.

Section format.
Context `{L : AgLib}.

Definition enc_time (t : Z) : option json := JStr <$> FormatTime t.

(** [json.Marshal] of one lease; [None] is an error. *)
Definition enc_Lease (l : Lease) : option json :=
  ip ← enc_IP (IPAddress l); srv ← enc_IP (DHCPServerIP l);
  exp ← enc_time (ExpiresAt l); cre ← enc_time (CreatedAt l);
  Some (JObj ([("interface", JStr (Interface l)); ("wanParent", JStr (WanParent l));
    ("ipAddress", ip); ("dhcpServerIP", srv); ("macAddress", enc_bytes (MACAddress l));
    ("expiresAt", exp); ("leaseTime", JNum (LeaseTime l));
    ("renewalCount", JNum (RenewalCount l)); ("status", JStr (Status l));
    ("interfaceExists", JBool (InterfaceExists l)); ("createdAt", cre)]
    ++ opt_bytes "dhcpOffer" (DHCPOffer l) ++ opt_bytes "dhcpAck" (DHCPAck l))).

(** The member a name denotes. *)
Definition upd_Lease (k : string) (j : json) (l : Lease) : option Lease :=
  let mk i w ip sv mac ex lt rc st ie cr off ack :=
    {| Interface := i; WanParent := w; IPAddress := ip; DHCPServerIP := sv; MACAddress := mac;
       ExpiresAt := ex; LeaseTime := lt; RenewalCount := rc; Status := st;
       InterfaceExists := ie; CreatedAt := cr; DHCPOffer := off; DHCPAck := ack |} in
  let '(Build_Lease i w ip sv mac ex lt rc st ie cr off ack) := l in
  if key_match "interface" k then
    v ← dec_string j i; Some (mk v w ip sv mac ex lt rc st ie cr off ack)
  else if key_match "wanParent" k then
    v ← dec_string j w; Some (mk i v ip sv mac ex lt rc st ie cr off ack)
  else if key_match "ipAddress" k then
    v ← dec_IP j; Some (mk i w v sv mac ex lt rc st ie cr off ack)
  else if key_match "dhcpServerIP" k then
    v ← dec_IP j; Some (mk i w ip v mac ex lt rc st ie cr off ack)
  else if key_match "macAddress" k then
    v ← dec_bytes j; Some (mk i w ip sv v ex lt rc st ie cr off ack)
  else if key_match "expiresAt" k then
    v ← dec_time ParseTime j ex; Some (mk i w ip sv mac v lt rc st ie cr off ack)
  else if key_match "leaseTime" k then
    v ← dec_int j lt; Some (mk i w ip sv mac ex v rc st ie cr off ack)
  else if key_match "renewalCount" k then
    v ← dec_int j rc; Some (mk i w ip sv mac ex lt v st ie cr off ack)
  else if key_match "status" k then
    v ← dec_string j st; Some (mk i w ip sv mac ex lt rc v ie cr off ack)
  else if key_match "interfaceExists" k then
    v ← dec_bool j ie; Some (mk i w ip sv mac ex lt rc st v cr off ack)
  else if key_match "createdAt" k then
    v ← dec_time ParseTime j cr; Some (mk i w ip sv mac ex lt rc st ie v off ack)
  else if key_match "dhcpOffer" k then
    v ← dec_bytes j; Some (mk i w ip sv mac ex lt rc st ie cr v ack)
  else if key_match "dhcpAck" k then
    v ← dec_bytes j; Some (mk i w ip sv mac ex lt rc st ie cr off v)
  else Some l.

(** A [map[string]*Lease] as an object; a nil pointer is null. *)
Definition enc_entry (e : string * option Lease) : option (string * json) :=
  match e.2 with
  | None => Some (e.1, JNull)
  | Some l => j ← enc_Lease l; Some (e.1, j)
  end.

Definition enc_leases (m : option (list (string * option Lease))) : option json :=
  match m with
  | None => Some JNull
  | Some m => l ← mapM enc_entry m; Some (JObj l)
  end.

Definition dec_entry (e : string * json) : option (string * option Lease) :=
  match e.2 with
  | JNull => Some (e.1, None)
  | j => match dec_struct upd_Lease zero_Lease j with
         | (l, true) => Some (e.1, Some l)
         | (_, false) => None
         end
  end.

(** [json.Unmarshal] into a nil map: the entries in order ([None] for the
    nil map of a null document); an outer [None] is an error. *)
Definition dec_leases (doc : option json) : option (option (list (string * option Lease))) :=
  match doc with
  | Some JNull => Some None
  | Some (JObj l) => m ← mapM dec_entry l; Some (Some m)
  | _ => None
  end.

(** ** Round trip *)

(** An address as it is after a restart: an IPv4 address is read back in its
    16-byte form. *)
Definition norm_IP (ip : IP) : IP :=
  match ip with [] => [] | _ => v4InV6Prefix ++ To4 ip end.

Definition norm_Lease (l : Lease) : Lease :=
  {| Interface := Interface l; WanParent := WanParent l; IPAddress := norm_IP (IPAddress l);
     DHCPServerIP := norm_IP (DHCPServerIP l); MACAddress := MACAddress l;
     ExpiresAt := ExpiresAt l; LeaseTime := LeaseTime l; RenewalCount := RenewalCount l;
     Status := Status l; InterfaceExists := InterfaceExists l; CreatedAt := CreatedAt l;
     DHCPOffer := DHCPOffer l; DHCPAck := DHCPAck l |}.

(** No address, or an IPv4 address. *)
Definition ip_ok (ip : IP) : Prop :=
  ip = [] ∨ (Forall is_byte ip ∧ length (To4 ip) = 4%nat).

(** What every lease of the agent satisfies: IPv4 addresses, bytes that are
    bytes, and numbers of 64 bits. *)
Record lease_ok (l : Lease) : Prop := {
  ok_ip : ip_ok (IPAddress l);
  ok_server : ip_ok (DHCPServerIP l);
  ok_mac : Forall is_byte (MACAddress l);
  ok_offer : Forall is_byte (DHCPOffer l);
  ok_ack : Forall is_byte (DHCPAck l);
  ok_time : - 2 ^ 63 ≤ LeaseTime l < 2 ^ 63;
  ok_count : - 2 ^ 63 ≤ RenewalCount l < 2 ^ 63;
}.

Lemma dec_enc_bytes l : Forall is_byte l → dec_bytes (enc_bytes l) = Some l.
Proof.
  intros Hl. destruct l as [|b l]; [done|]. cbn -[EncodeToString].
  by rewrite bytes_unbytes, DecodeString_Encode.
Qed.

Lemma dec_enc_IP ip j : ip_ok ip → enc_IP ip = Some j → dec_IP j = Some (norm_IP ip).
Proof.
  intros [->|[Hb H4]] Hj; unfold enc_IP in Hj.
  - by simplify_eq/=.
  - assert (ip ≠ []) as Hne by (intros ->; done). case_decide as H0.
    { by apply nil_length_inv in H0. }
    case_decide; simplify_eq/=. case_decide as He.
    { pose proof (ParseIP_String ip Hb H4) as Hp. by rewrite He in Hp. }
    rewrite ParseIP_String by done. by destruct ip.
Qed.

Lemma dec_members_opt k l0 (l : list (string * json)) x x' :
  (l0 ≠ [] → upd_Lease k (enc_bytes l0) x = Some x') → (l0 = [] → x' = x) →
  dec_members upd_Lease (opt_bytes k l0 ++ l) x = dec_members upd_Lease l x'.
Proof.
  intros Hne He. destruct l0 as [|b l0]; simpl; [by rewrite He|].
  apply dec_members_cons. by apply Hne.
Qed.

Context {LL : AgLaws L}.

Lemma dec_enc_Lease l j :
  lease_ok l → enc_Lease l = Some j →
  dec_struct upd_Lease zero_Lease j = (norm_Lease l, true).
Proof.
  intros [Hip Hsv Hmac Hoff Hack Hlt Hrc] Hj. unfold enc_Lease in Hj.
  destruct (enc_IP (IPAddress l)) as [ip|] eqn:E1; simplify_eq/=.
  destruct (enc_IP (DHCPServerIP l)) as [sv|] eqn:E2; simplify_eq/=.
  unfold enc_time in Hj. destruct (FormatTime (ExpiresAt l)) as [ex|] eqn:E3; simplify_eq/=.
  destruct (FormatTime (CreatedAt l)) as [cr|] eqn:E4; simplify_eq/=.
  apply dec_enc_IP in E1, E2; [|done..]. apply ParseTime_Format in E3, E4.
  pose proof (dec_enc_bytes _ Hmac) as E5. pose proof (dec_enc_bytes _ Hoff) as E6.
  pose proof (dec_enc_bytes _ Hack) as E7.
  unfold dec_struct, zero_Lease.
  do 11 (erewrite dec_members_cons; [|unfold upd_Lease; keys; cbn -[dec_IP dec_bytes enc_bytes];
    rewrite ?E1, ?E2, ?E3, ?E4, ?E5, ?(decide_True _ _ Hlt), ?(decide_True _ _ Hrc);
    reflexivity]).
  erewrite dec_members_opt with (k := "dhcpOffer");
    [|intros _; unfold upd_Lease; keys; rewrite E6; reflexivity|intros Hz; by rewrite Hz].
  rewrite <-(app_nil_r (opt_bytes _ _)).
  erewrite dec_members_opt with (k := "dhcpAck");
    [|intros _; unfold upd_Lease; keys; rewrite E7; reflexivity|intros Hz; by rewrite Hz].
  done.
Qed.

Lemma mapM_roundtrip {A B} (f : A → option B) (g : B → option A) (n : A → A) l l' :
  (∀ a b, a ∈ l → f a = Some b → g b = Some (n a)) →
  mapM f l = Some l' → mapM g l' = Some (map n l).
Proof.
  intros H. revert l'. induction l as [|a l IH]; intros l' Hl.
  { by injection Hl as <-. }
  simpl in Hl. destruct (f a) as [b|] eqn:Hb; [|done]. simpl in Hl.
  destruct (mapM f l) as [l1|] eqn:Hl1; [|done]. injection Hl as <-. simpl.
  rewrite (H a b) by (done || set_solver). simpl. by rewrite (IH ltac:(set_solver) l1 eq_refl).
Qed.

Lemma enc_Lease_obj l j : enc_Lease l = Some j → ∃ o, j = JObj o.
Proof.
  unfold enc_Lease. intros Hj.
  repeat match type of Hj with context [?x ≫= _] => destruct x; simplify_eq/= end. eauto.
Qed.

Lemma dec_enc_leases m doc :
  (∀ k l, (k, Some l) ∈ m → lease_ok l) →
  enc_leases (Some m) = Some doc →
  dec_leases (Some doc) = Some (Some (map (λ '(k, o), (k, norm_Lease <$> o)) m)).
Proof.
  intros Hok H. unfold enc_leases in H. destruct (mapM enc_entry m) as [l|] eqn:Hl; simplify_eq/=.
  erewrite mapM_roundtrip; [done| |exact Hl].
  intros [k [x|]] b Hin Hb; unfold enc_entry in Hb; simplify_eq/=; [|done].
  destruct (enc_Lease x) as [j|] eqn:Hj; simplify_eq/=.
  pose proof (dec_enc_Lease x j (Hok _ _ Hin) Hj) as E.
  apply enc_Lease_obj in Hj as [o ->]. unfold dec_entry. cbn [snd fst]. by rewrite E.
Qed.
(** The lease file is read back as it was written.  Whenever the leases
    can be marshalled, unmarshalling the document gives the same entries in
    the same order, nil pointers included, each lease equal field by field up
    to the form of its IPv4 addresses (16 bytes after a restart). *)
Theorem leases_roundtrip m doc :
  (∀ k l, (k, Some l) ∈ m → lease_ok l) →
  enc_leases (Some m) = Some doc →
  dec_leases (Some doc) = Some (Some (map (λ '(k, o), (k, norm_Lease <$> o)) m)).
Proof. apply dec_enc_leases. Qed.
End format.
