(* ===== verification/AgentMem.v ===== *)
(** * What the agent's sections do to its memory

    One function per section: the statements the store runs under its lock
    (internal/agent/lease/types.go), accesses to a lease object, and the
    statements on the renewal contexts (internal/agent/agent.go).  [exec_mem]
    runs a section; it has no result while the section must wait for a lock. *)

From stdpp Require Import sorting.
From S2P Require Import Prelude Effects GoStd Base64 Json Http AgentEnv LeaseJson.

Local Open Scope Z_scope.

(** ** lease.Store *)

(** Reading a nil map finds nothing. *)
Definition get_section (iface : string) (s : Ag) : option (option nat) :=
  m ← leases s; m !! iface.

(** Go visits a map in an arbitrary order; here it is the map's own, on which
    no theorem depends. *)
Definition list_section (s : Ag) : list (option nat) :=
  map snd (map_to_list (default ∅ (leases s))).

(** Writing a nil map panics: the result is [false]. *)
Definition put_section (iface : string) (l : nat) (s : Ag) : bool * Ag :=
  match leases s with
  | None => (false, s)
  | Some m => (true, set_leases (Some (<[iface := Some l]> m)) s)
  end.

Definition del_section (iface : string) (s : Ag) : Ag :=
  set_leases (delete iface <$> leases s) s.

(** The channel that marks an operation in progress is a fresh object. *)
Definition acquire_section (iface : string) (s : Ag) : bool * Ag :=
  match inflight s !! iface with
  | Some _ => (false, s)
  | None => (true, set_next (S (next s)) (set_inflight (<[iface := next s]> (inflight s)) s))
  end.

Definition release_section (iface : string) (s : Ag) : Ag :=
  set_inflight (delete iface (inflight s)) s.

(** The entries behind the store's map, pointers followed. *)
Definition deref (h : gmap nat Lease) (e : string * option nat) : string * option Lease :=
  (e.1, p ← e.2; h !! p).

(** [encoding/json] writes the members of a map sorted by name. *)
Definition entry_le (a b : string * option Lease) : Prop := String.leb a.1 b.1 = true.
#[export] Instance entry_le_dec a b : Decision (entry_le a b).
Proof. unfold entry_le. apply _. Defined.

Definition snapshot (s : Ag) : option (list (string * option Lease)) :=
  (λ m : gmap string (option nat),
     merge_sort entry_le (map (deref (heap s)) (map_to_list m))) <$> leases s.

Definition marshal_section `{L : AgLib} (s : Ag) : result string json :=
  match enc_leases (snapshot s) with
  | Some j => Ok j
  | None => Err "json: error calling MarshalText or MarshalJSON"
  end.

(** The decoded entries become objects of the heap. *)
Fixpoint alloc_entries (m : list (string * option Lease)) (s : Ag)
    : gmap string (option nat) * Ag :=
  match m with
  | [] => (∅, s)
  | (k, o) :: m' =>
    let '(p, s1) := match o with
                    | None => (None, s)
                    | Some l => (Some (next s), set_next (S (next s))
                                   (set_heap (<[next s := l]> (heap s)) s))
                    end in
    let '(r, s2) := alloc_entries m' s1 in
    (match r !! k with Some _ => r | None => <[k := p]> r end, s2)
  end.

Definition load_section (m : option (list (string * option Lease))) (s : Ag) : Ag :=
  match m with
  | None => set_leases None s
  | Some m => let '(r, s') := alloc_entries m s in set_leases (Some r) s'
  end.

Definition with_status (st : string) (l : Lease) : Lease :=
  {| Interface := Interface l; WanParent := WanParent l; IPAddress := IPAddress l;
     DHCPServerIP := DHCPServerIP l; MACAddress := MACAddress l; ExpiresAt := ExpiresAt l;
     LeaseTime := LeaseTime l; RenewalCount := RenewalCount l; Status := st;
     InterfaceExists := InterfaceExists l; CreatedAt := CreatedAt l;
     DHCPOffer := DHCPOffer l; DHCPAck := DHCPAck l |}.

Definition with_exists (b : bool) (l : Lease) : Lease :=
  {| Interface := Interface l; WanParent := WanParent l; IPAddress := IPAddress l;
     DHCPServerIP := DHCPServerIP l; MACAddress := MACAddress l; ExpiresAt := ExpiresAt l;
     LeaseTime := LeaseTime l; RenewalCount := RenewalCount l; Status := Status l;
     InterfaceExists := b; CreatedAt := CreatedAt l; DHCPOffer := DHCPOffer l;
     DHCPAck := DHCPAck l |}.

(** The body of [UpdateInterfaceStatus]. *)
Definition mark_section (iface : string) (b : bool) (s : Ag) : Ag :=
  match get_section iface s with
  | Some (Some p) =>
    set_heap (alter (λ l, if b then with_exists b l
                          else with_status StatusStale (with_exists b l)) p (heap s)) s
  | _ => s
  end.

(** ** Renewal contexts *)

(** [context.WithCancel] and [renewalCancels[iface] = cancel]. *)
Definition context_section (iface : string) (s : Ag) : actx * Ag :=
  (next s, set_next (S (next s))
             (set_cancels (<[iface := next s]> (renewalCancels s)) s)).

(** [stopRenewalLoop]. *)
Definition stop_section (iface : string) (s : Ag) : Ag :=
  match renewalCancels s !! iface with
  | None => s
  | Some c => set_cancels (delete iface (renewalCancels s))
                (set_cancelled ({[c]} ∪ cancelled s) s)
  end.

Definition forget_section (iface : string) (s : Ag) : Ag :=
  set_cancels (delete iface (renewalCancels s)) s.

(** ** Running a section *)

(** A section under the store's lock waits while the lock is held. *)
Definition unless_mu {A} (s : Ag) (r : A) : option A := if mu s then None else Some r.

Definition exec_mem `{L : AgLib} X (o : MemOp X) (s : Ag) : option (X * Ag) :=
  match o in MemOp X return option (X * Ag) with
  | OGet i => unless_mu s (get_section i s, s)
  | OList => unless_mu s (list_section s, s)
  | OPut i l => unless_mu s (put_section i l s)
  | ODel i => unless_mu s (tt, del_section i s)
  | OAcquire i => Some (acquire_section i s)
  | ORelease i => Some (tt, release_section i s)
  | OMarshal => unless_mu s (marshal_section s, s)
  | OLoad m => unless_mu s (tt, load_section m s)
  | OLockSave => if saveMu s then None else Some (tt, set_saveMu true s)
  | OUnlockSave => Some (tt, set_saveMu false s)
  | OLockMu => unless_mu s (tt, set_mu true s)
  | OUnlockMu => Some (tt, set_mu false s)
  | OMarkInterface i b => Some (tt, mark_section i b s)
  | ONew l => Some (next s, set_next (S (next s)) (set_heap (<[next s := l]> (heap s)) s))
  | ORead p => l ← heap s !! p; Some (l, s)
  | OWrite p f => Some (tt, set_heap (alter f p (heap s)) s)
  | OContext i => Some (context_section i s)
  | OStop i => Some (tt, stop_section i s)
  | OForget i => Some (tt, forget_section i s)
  | OShutdown => Some (tt, set_shutdown true s)
  | OIsShutdown => Some (shutdown s, s)
  end.
