(* ===== verification/LeaseStore.v ===== *)
(** * The lease store (internal/agent/lease/types.go)

    The map from interfaces to leases, its file, and the per-interface marks
    of operations in progress. *)

From S2P Require Import Prelude Effects GoStd Base64 Json Http AgentEnv LeaseJson AgentMem.

Local Open Scope Z_scope.

Section store.
Context `{L : AgLib}.

(** The store's file is fixed when it is created. *)
Context (stateFile : string).

Definition Get (iface : string) : AgP (option (option nat)) := mem (OGet iface).
Definition List_ : AgP (list (option nat)) := mem OList.
Definition AcquireInflight (iface : string) : AgP bool := mem (OAcquire iface).
Definition ReleaseInflight (iface : string) : AgP unit := mem (ORelease iface).

Definition tmpFile : string := stateFile +:+ ".tmp".

Definition save : AgP (result string unit) :=
  _ ← mem OLockSave;
  d ← mem OMarshal;
  res ← match d with
        | Err e => mret (Err ("failed to marshal leases: " +:+ e))
        | Ok data =>
          w ← ext (WriteFile tmpFile (JsonDoc (Some data)));
          match w with
          | Err e => mret (Err ("failed to write temp file: " +:+ os_msg e))
          | Ok _ =>
            r ← ext (Rename tmpFile stateFile);
            match r with
            | Err e => mret (Err ("failed to rename temp file: " +:+ os_msg e))
            | Ok _ => mret (Ok tt)
            end
          end
        end;
  _ ← mem OUnlockSave;
  mret res.

(** [Set] of the lease at [l], whose interface is [iface]. *)
Definition Set_ (l : nat) : AgP (result string unit) :=
  x ← mem (ORead l);
  ok ← mem (OPut (Interface x) l);
  if (ok : bool) then save else panic "assignment to entry in nil map".

Definition Delete (iface : string) : AgP (result string unit) :=
  _ ← mem (ODel iface);
  save.

(** The file as JSON; a text that is none is invalid. *)
Definition as_json (c : content) : option json :=
  match c with JsonDoc j => j | Text _ => None end.

Definition load : AgP (result string unit) :=
  r ← ext (ReadFile stateFile);
  match r with
  | Err e => mret (if os_notexist e then Ok tt
                   else Err ("failed to read state file: " +:+ os_msg e))
  | Ok data =>
    match dec_leases (as_json data) with
    | None => mret (Err ("failed to unmarshal leases: " +:+ JsonErrorText (as_json data)))
    | Some m => _ ← mem (OLoad m); mret (Ok tt)
    end
  end.

(** The store [NewStore] allocates before it loads. *)
Definition empty_store : Ag :=
  {| heap := ∅; next := 0; leases := Some ∅; mu := false; saveMu := false; inflight := ∅;
     renewalCancels := ∅; cancelled := ∅; shutdown := false |}.

Definition NewStore (stateDir : string) : AgP (result string unit) :=
  r ← ext (MkdirAll stateDir);
  match r with
  | Err e => mret (Err ("failed to create state directory: " +:+ os_msg e))
  | Ok _ =>
    l ← load;
    mret (match l with
          | Err e => Err ("failed to load state: " +:+ e)
          | Ok _ => Ok tt
          end)
  end.

Definition VerifyInterfaceExists (iface : string) : AgP (result string bool) :=
  r ← ext (LinkByName iface);
  mret (match r with
        | Ok _ => Ok true
        | Err e => if nl_notfound e then Ok false
                   else Err ("failed to check interface: " +:+ nl_msg e)
        end).

(** [save] is called with the store's lock held. *)
Definition UpdateInterfaceStatus (iface : string) (b : bool) : AgP (result string unit) :=
  _ ← mem OLockMu;
  _ ← mem (OMarkInterface iface b);
  r ← save;
  _ ← mem OUnlockMu;
  mret r.
End store.
