(* ===== verification/AgentApi.v ===== *)
(** * The agent's wire types (internal/agent/api/types.go)

    How the agent reads a request and writes its responses. *)

From S2P Require Import Prelude Effects GoStd Base64 Json Http AgentEnv LeaseJson.

Local Open Scope Z_scope.

Record LeaseRequest := { rq_Interface : string; rq_WanParent : string; rq_MACAddress : string }.
Definition zero_LeaseRequest : LeaseRequest :=
  {| rq_Interface := ""; rq_WanParent := ""; rq_MACAddress := "" |}.

Definition upd_LeaseRequest (k : string) (j : json) (r : LeaseRequest) : option LeaseRequest :=
  if key_match "interface" k then
    v ← dec_string j (rq_Interface r);
    Some {| rq_Interface := v; rq_WanParent := rq_WanParent r; rq_MACAddress := rq_MACAddress r |}
  else if key_match "wanParent" k then
    v ← dec_string j (rq_WanParent r);
    Some {| rq_Interface := rq_Interface r; rq_WanParent := v; rq_MACAddress := rq_MACAddress r |}
  else if key_match "macAddress" k then
    v ← dec_string j (rq_MACAddress r);
    Some {| rq_Interface := rq_Interface r; rq_WanParent := rq_WanParent r; rq_MACAddress := v |}
  else Some r.

Section api.
Context `{L : AgLib}.

Record LeaseResponse := { rs_IPAddress : string; rs_ExpiresAt : Z }.

(** An encoding error (a time out of range) leaves the body unfinished. *)
Definition enc_LeaseResponse (r : LeaseResponse) : option json :=
  t ← enc_time (rs_ExpiresAt r);
  Some (JObj [("ipAddress", JStr (rs_IPAddress r)); ("expiresAt", t)]).

Record LeaseStatus := {
  st_IPAddress : string;
  st_ExpiresAt : Z;
  st_RenewalCount : Z;
  st_Status : string;
  st_InterfaceExists : bool;
}.

Definition enc_LeaseStatus (r : LeaseStatus) : option json :=
  t ← enc_time (st_ExpiresAt r);
  Some (JObj [("ipAddress", JStr (st_IPAddress r)); ("expiresAt", t);
              ("renewalCount", JNum (st_RenewalCount r)); ("status", JStr (st_Status r));
              ("interfaceExists", JBool (st_InterfaceExists r))]).

Record LeaseListResponse := { Leases : list LeaseStatus }.

Definition enc_LeaseListResponse (r : LeaseListResponse) : option json :=
  l ← mapM enc_LeaseStatus (Leases r); Some (JObj [("leases", JArr l)]).

Record ErrorResponse := { ErrorText : string }.

Definition enc_ErrorResponse (r : ErrorResponse) : json := JObj [("error", JStr (ErrorText r))].
End api.
