(* ===== verification/Agent.v ===== *)
(** * The router agent (internal/agent/agent.go)

    The HTTP handlers, allocation, release, the check of stored leases at
    start-up and the renewal loop.  Every function is the code of a goroutine
    ([AgP]); several run at once (AgentThreads). *)

From S2P Require Import Prelude Effects GoStd Base64 Json Http AgentEnv LeaseJson AgentMem.
From S2P Require Import LeaseStore Garp NetConfig DhcpClient AgentApi.

Local Open Scope Z_scope.

Section agent.
Context `{L : AgLib}.
Context (stateFile : string).

(** ** Lease objects *)

Definition read (l : nat) : AgP Lease := mem (ORead l).
Definition write (l : nat) (f : Lease → Lease) : AgP unit := mem (OWrite l f).

(** A pointer that may be nil. *)
Definition deref_ptr (p : option nat) : AgP nat :=
  match p with
  | Some l => mret l
  | None => panic "invalid memory address or nil pointer dereference"
  end.

(** The assignments that follow a successful renewal.  [server] is the new
    server address of a rebinding; [RenewalCount] is an [int]. *)
Definition renewed (expires leaseTime : Z) (server : option IP) (offer ack : option Packet)
    (l : Lease) : Lease :=
  {| Interface := Interface l; WanParent := WanParent l; IPAddress := IPAddress l;
     DHCPServerIP := default (DHCPServerIP l) server; MACAddress := MACAddress l;
     ExpiresAt := expires; LeaseTime := leaseTime;
     RenewalCount := wrap64s (RenewalCount l + 1); Status := StatusActive;
     InterfaceExists := InterfaceExists l; CreatedAt := CreatedAt l;
     DHCPOffer := match offer with Some p => ToBytes p | None => DHCPOffer l end;
     DHCPAck := match ack with Some p => ToBytes p | None => DHCPAck l end |}.

(** ** Renewal *)

(** [renewLease]. *)
Definition renewLease (l : nat) : AgP (result string unit) :=
  x ← read l;
  r ← RenewLease (Interface x) (MACAddress x) (IPAddress x) (DHCPServerIP x)
        (DHCPOffer x) (DHCPAck x);
  match r with
  | Err e => mret (Err e)
  | Ok info =>
    now ← ext Now;
    _ ← write l (renewed (now + li_LeaseTime info) (li_LeaseTime info) None
                   (li_Offer info) (li_ACK info));
    Set_ stateFile l
  end.

(** [rebindLease]. *)
Definition rebindLease (l : nat) : AgP (result string unit) :=
  x ← read l;
  r ← RebindLease (Interface x) (MACAddress x) (IPAddress x);
  match r with
  | Err e => mret (Err e)
  | Ok info =>
    now ← ext Now;
    _ ← write l (renewed (now + li_LeaseTime info) (li_LeaseTime info)
                   (Some (li_DHCPServerIP info)) (li_Offer info) (li_ACK info));
    Set_ stateFile l
  end.

(** The state of a renewal goroutine between two iterations of its loop: its
    lease and context, the duration its timer is set to and the back-off. *)
Record Renewal := {
  rn_iface : string;
  rn_lease : nat;
  rn_ctx : actx;
  rn_timer : Z;
  rn_backoff : Z;
}.

Definition maxBackoff : Z := 15 * Minute.

Definition next_backoff (backoff : Z) : Z :=
  let b := wrap64s (backoff * 2) in if maxBackoff <? b then maxBackoff else b.

(** The start of the goroutine: [None] is the moment before its timer is set. *)
Definition start_renewal (iface : string) (l : nat) (ctx : actx) : AgP (option Renewal) :=
  x ← read l;
  mret (Some {| rn_iface := iface; rn_lease := l; rn_ctx := ctx; rn_timer := LeaseTime x ÷ 2;
                rn_backoff := Minute |}).

(** After a successful attempt the timer is set to half the lease's duration
    and the back-off starts again. *)
Definition on_success (r : Renewal) : AgP (option Renewal) :=
  x ← read (rn_lease r);
  mret (Some {| rn_iface := rn_iface r; rn_lease := rn_lease r; rn_ctx := rn_ctx r;
                rn_timer := LeaseTime x ÷ 2; rn_backoff := Minute |}).

(** After a failed one the lease is stale and the timer is set to the back-off. *)
Definition on_failure (r : Renewal) : AgP (option Renewal) :=
  _ ← write (rn_lease r) (with_status StatusStale);
  _ ← Set_ stateFile (rn_lease r);
  mret (Some {| rn_iface := rn_iface r; rn_lease := rn_lease r; rn_ctx := rn_ctx r;
                rn_timer := rn_backoff r; rn_backoff := next_backoff (rn_backoff r) |}).

(** One iteration of the loop; [None] when the goroutine returns. *)
Definition renewal_iter (r : Renewal) : AgP (option Renewal) :=
  fired ← ext (Select (rn_timer r) (rn_ctx r));
  if (fired : bool) then
    e ← renewLease (rn_lease r);
    match e with
    | Ok _ => on_success r
    | Err _ =>
      e' ← rebindLease (rn_lease r);
      match e' with
      | Ok _ => on_success r
      | Err _ => on_failure r
      end
    end
  else
    _ ← mem (OForget (rn_iface r));
    mret None.

(** [stopRenewalLoop]. *)
Definition stopRenewalLoop (iface : string) : AgP unit := mem (OStop iface).

(** [startRenewalLoop]. *)
Definition startRenewalLoop (l : nat) : AgP unit :=
  x ← read l;
  c ← mem (OContext (Interface x));
  ext (Spawn (Interface x) l c).

(** ** Allocation and release *)

(** The statements of [allocateLease] after the interface was created. *)
Definition allocate_on (iface wanParent : string) (mac : HardwareAddr) : AgP (result string nat) :=
  a ← AcquireLease iface mac;
  match a with
  | Err e => mret (Err ("failed to acquire DHCP lease: " +:+ e))
  | Ok info =>
    g ← SendGratuitousARP iface (li_IPAddress info) mac 3;
    match g with
    | Err e => mret (Err ("gratuitous ARP failed: " +:+ e))
    | Ok _ =>
      n ← SetupInterface iface (li_IPAddress info) (li_SubnetMask info);
      match n with
      | Err e => mret (Err ("network setup failed: " +:+ e))
      | Ok _ =>
        now ← ext Now;
        now' ← ext Now;
        l ← mem (ONew
          {| Interface := iface; WanParent := wanParent; IPAddress := li_IPAddress info;
             DHCPServerIP := li_DHCPServerIP info; MACAddress := mac;
             ExpiresAt := now + li_LeaseTime info; LeaseTime := li_LeaseTime info;
             RenewalCount := 0; Status := StatusActive; InterfaceExists := true;
             CreatedAt := now';
             DHCPOffer := match li_Offer info with Some p => ToBytes p | None => [] end;
             DHCPAck := match li_ACK info with Some p => ToBytes p | None => [] end |});
        s ← Set_ stateFile l;
        match s with
        | Err e => mret (Err ("failed to save lease: " +:+ e))
        | Ok _ => _ ← startRenewalLoop l; mret (Ok l)
        end
      end
    end
  end.

(** [allocateLease], with its deferred clean-up. *)
Definition allocateLease (iface wanParent : string) (mac : HardwareAddr)
    : AgP (result string nat) :=
  c ← CreateMacvlan iface wanParent mac;
  match c with
  | Err e => mret (Err ("failed to create macvlan: " +:+ e))
  | Ok _ =>
    r ← allocate_on iface wanParent mac;
    match r with
    | Ok l => mret (Ok l)
    | Err e => _ ← DeleteMacvlan iface; mret (Err e)
    end
  end.

(** [releaseLease]: everything but the last step is best effort. *)
Definition releaseLease (l : nat) : AgP (result string unit) :=
  x ← read l;
  _ ← stopRenewalLoop (Interface x);
  y ← read l;
  _ ← ReleaseLease (Interface y) (MACAddress y) (IPAddress y) (DHCPServerIP y);
  _ ← CleanupInterface (Interface x) (IPAddress x);
  _ ← DeleteMacvlan (Interface x);
  d ← Delete stateFile (Interface x);
  mret (match d with
        | Err e => Err ("failed to delete lease from store: " +:+ e)
        | Ok _ => Ok tt
        end).

(** ** Handlers *)

Definition sendError (code : Z) (message : string) : HttpResponse :=
  {| StatusCode := code; Body := Some (enc_ErrorResponse {| ErrorText := message |}) |}.

(** Between acquiring and releasing the interface. *)
Definition allocate_exclusive (iface wanParent : string) (mac : HardwareAddr)
    : AgP HttpResponse :=
  g ← Get iface;
  match g with
  | Some _ => mret (sendError StatusConflict ("interface " +:+ iface +:+ " already has active lease"))
  | None =>
    r ← allocateLease iface wanParent mac;
    match r with
    | Err e => mret (sendError StatusServiceUnavailable ("failed to allocate lease: " +:+ e))
    | Ok l =>
      x ← read l;
      mret {| StatusCode := StatusCreated;
              Body := enc_LeaseResponse {| rs_IPAddress := IP_String (IPAddress x);
                                           rs_ExpiresAt := ExpiresAt x |} |}
    end
  end.

Definition in_progress (iface : string) : HttpResponse :=
  sendError StatusConflict ("operation already in progress for interface " +:+ iface).

Definition handleAllocateLease (body : option json) : AgP HttpResponse :=
  match Decode upd_LeaseRequest zero_LeaseRequest body with
  | (_, false) => mret (sendError StatusBadRequest ("invalid request body: " +:+ JsonErrorText body))
  | (req, true) =>
    if decide (rq_Interface req = "" ∨ rq_WanParent req = "" ∨ rq_MACAddress req = "") then
      mret (sendError StatusBadRequest "interface, wanParent, and macAddress are required")
    else match ParseMAC (rq_MACAddress req) with
    | None => mret (sendError StatusBadRequest
                      ("invalid MAC address: " +:+ ParseMACErrorText (rq_MACAddress req)))
    | Some mac =>
      ok ← AcquireInflight (rq_Interface req);
      if (ok : bool) then
        resp ← allocate_exclusive (rq_Interface req) (rq_WanParent req) mac;
        _ ← ReleaseInflight (rq_Interface req);
        mret resp
      else mret (in_progress (rq_Interface req))
    end
  end.

Definition status_of (x : Lease) : LeaseStatus :=
  {| st_IPAddress := IP_String (IPAddress x); st_ExpiresAt := ExpiresAt x;
     st_RenewalCount := RenewalCount x; st_Status := Status x;
     st_InterfaceExists := InterfaceExists x |}.

Fixpoint read_all (l : list (option nat)) : AgP (list LeaseStatus) :=
  match l with
  | [] => mret []
  | p :: l' =>
    q ← deref_ptr p;
    x ← read q;
    r ← read_all l';
    mret (status_of x :: r)
  end.

Definition handleListLeases : AgP HttpResponse :=
  ls ← List_;
  statuses ← read_all ls;
  mret {| StatusCode := StatusOK; Body := enc_LeaseListResponse {| Leases := statuses |} |}.

Definition handleGetLease (iface : string) : AgP HttpResponse :=
  g ← Get iface;
  match g with
  | None => mret (sendError StatusNotFound ("lease not found: " +:+ iface))
  | Some p =>
    l ← deref_ptr p;
    x ← read l;
    mret {| StatusCode := StatusOK; Body := enc_LeaseStatus (status_of x) |}
  end.

Definition release_exclusive (iface : string) : AgP HttpResponse :=
  g ← Get iface;
  match g with
  | None => mret (sendError StatusNotFound ("lease not found: " +:+ iface))
  | Some p =>
    l ← deref_ptr p;
    r ← releaseLease l;
    match r with
    | Err e => mret (sendError StatusInternalServerError ("failed to release lease: " +:+ e))
    | Ok _ => mret {| StatusCode := StatusNoContent; Body := None |}
    end
  end.

Definition handleReleaseLease (iface : string) : AgP HttpResponse :=
  ok ← AcquireInflight iface;
  if (ok : bool) then
    resp ← release_exclusive iface;
    _ ← ReleaseInflight iface;
    mret resp
  else mret (in_progress iface).

Definition handleHealth : AgP HttpResponse :=
  down ← mem OIsShutdown;
  mret {| StatusCode := if (down : bool) then StatusServiceUnavailable else StatusOK;
          Body := None |}.

(** The routes of [New], on the method and the segments of the path.  A GET
    pattern also serves HEAD. *)
Definition route (method : string) (path : list string) (body : option json) : AgP HttpResponse :=
  let get := bool_decide (method = "GET") || bool_decide (method = "HEAD") in
  let other := {| StatusCode := StatusMethodNotAllowed; Body := None |} in
  match path with
  | ["leases"] => if decide (method = "POST") then handleAllocateLease body
                  else if get then handleListLeases else mret other
  | ["leases"; iface] =>
    if decide (iface = "") then mret {| StatusCode := StatusNotFound; Body := None |}
    else if get then handleGetLease iface
    else if decide (method = "DELETE") then handleReleaseLease iface else mret other
  | ["health"] => if get then handleHealth else mret other
  | _ => mret {| StatusCode := StatusNotFound; Body := None |}
  end.

(** ** Start and shutdown *)

(** One lease of [verifyLeases]. *)
Definition verify_lease (l : nat) : AgP unit :=
  x ← read l;
  e ← VerifyInterfaceExists (Interface x);
  match e with
  | Err _ => mret tt
  | Ok false =>
    _ ← write l (λ x, with_exists false (with_status StatusStale x));
    _ ← Set_ stateFile l;
    mret tt
  | Ok true =>
    _ ← write l (with_exists true);
    r ← RenewLease (Interface x) (MACAddress x) (IPAddress x) (DHCPServerIP x)
          (DHCPOffer x) (DHCPAck x);
    match r with
    | Err _ =>
      _ ← write l (with_status StatusStale);
      _ ← Set_ stateFile l;
      mret tt
    | Ok info =>
      now ← ext Now;
      _ ← write l (renewed (now + li_LeaseTime info) (li_LeaseTime info) None
                     (li_Offer info) (li_ACK info));
      _ ← Set_ stateFile l;
      startRenewalLoop l
    end
  end.

Fixpoint verify_all (ls : list (option nat)) : AgP unit :=
  match ls with
  | [] => mret tt
  | p :: ls' => l ← deref_ptr p; _ ← verify_lease l; verify_all ls'
  end.

Definition verifyLeases : AgP unit := ls ← List_; verify_all ls.

(** [New] (whose store is [NewStore]), [Start] without the server goroutine,
    and [Shutdown]. *)
Definition New (stateDir : string) : AgP (result string unit) :=
  r ← NewStore stateFile stateDir;
  mret (match r with
        | Err e => Err ("failed to create lease store: " +:+ e)
        | Ok _ => Ok tt
        end).

Definition Start : AgP unit := verifyLeases.

Definition Shutdown : AgP unit :=
  _ ← ext HttpServerShutdown;
  _ ← mem OShutdown;
  _ ← ext (WaitRenewals (30 * Second));
  mret tt.
End agent.
