(* ===== verification/AgentThreads.v ===== *)
(** * Goroutines of the agent, interleaved

    Requests arrive at any time, each is served by its own goroutine, and a
    granted lease starts a renewal goroutine.  A step is one section on the
    memory or one external call of one goroutine. *)

From S2P Require Import Prelude Effects GoStd Base64 Json Http AgentEnv LeaseJson AgentMem.
From S2P Require Import LeaseStore Garp NetConfig DhcpClient AgentApi Agent.

Local Open Scope Z_scope.

(** A goroutine; a renewal goroutine ends an iteration of its loop with
    [Some] of the state of the next one. *)
Abbreviation thread := (proc AgE (option Renewal)).

Section threads.
Context `{L : AgLib}.
Context (stateFile : string).

Definition config : Type := list thread * Ag.

Definition serve (method : string) (path : list string) (body : option json) : thread :=
  resp ← route stateFile method path body; _ ← ext (Respond resp); mret None.

(** What an external call may answer: [Select] reports a cancelled context
    only when it is one, or when the agent shuts down. *)
Definition answers X (o : ExtOp X) (s : Ag) : X → Prop :=
  match o in ExtOp X return X → Prop with
  | Select _ c => λ fired, fired = false → c ∈ cancelled s ∨ shutdown s = true
  | _ => λ _, True
  end.

(** The goroutine a call starts. *)
Definition spawned X (o : ExtOp X) : list thread :=
  match o with
  | Spawn iface l c => [start_renewal iface l c]
  | _ => []
  end.

(** A step of goroutine [k] with the call it makes; [None] for the arrival of
    a request and for the jump back to the head of a renewal loop. *)
Inductive step : config → option (nat * event AgE) → config → Prop :=
| step_mem ts s k X (o : MemOp X) cont x s' :
    ts !! k = Some (Vis (Mem o) cont) → exec_mem X o s = Some (x, s') →
    step (ts, s) (Some (k, Ev (Mem o) x)) (<[k := cont x]> ts, s')
| step_ext ts s k X (o : ExtOp X) cont x :
    ts !! k = Some (Vis (Ext o) cont) → answers X o s x →
    step (ts, s) (Some (k, Ev (Ext o) x)) (<[k := cont x]> ts ++ spawned X o, s)
| step_again ts s k r :
    ts !! k = Some (Ret (Some r)) →
    step (ts, s) None (<[k := renewal_iter stateFile r]> ts, s)
| step_request ts s method path body :
    step (ts, s) None (ts ++ [serve method path body], s).

(** Executions with the calls made, in order. *)
Inductive reaches (c0 : config) : list (nat * event AgE) → config → Prop :=
| reaches_start : reaches c0 [] c0
| reaches_step tr c1 o c2 :
    reaches c0 tr c1 → step c1 o c2 →
    reaches c0 (tr ++ match o with Some e => [e] | None => [] end) c2.

(** ** Protocols of a single goroutine

    A goroutine's own history determines a ghost value; [pre] says what it may
    call at a value and [upd] how a call and its answer change it.  When every
    goroutine of the agent keeps to the protocol, so does every goroutine of
    every execution. *)

(** The agent when it starts: the goroutine that checks the stored leases.
    (Requests may arrive at once, which allows more executions than [Start]
    does: it opens the server when the check is done.) *)
Definition startup : thread := _ ← Start stateFile; mret None.

Definition initial (s : Ag) : config := ([startup], s).

Section local.
Context {G : Type} (g0 : G).
Context (pre : ∀ X, AgE X → G → Prop) (upd : ∀ X, AgE X → G → X → G).

Definition local : espec AgE G := ESpec pre (λ X e g x g', g' = upd X e g x).

Definition ghost_step (k : nat) (g : G) (o : nat * event AgE) : G :=
  if decide (o.1 = k) then match o.2 with existT X (e, x) => upd X e g x end else g.

(** The ghost value of goroutine [k] after a trace. *)
Definition ghost (tr : list (nat * event AgE)) (k : nat) : G := fold_left (ghost_step k) tr g0.

(** A program that keeps to the protocol and ends where it started. *)
Definition neutral {A} (p : AgP A) : Prop := wp local p (λ _ g, g = g0) g0.

Lemma neutral_ret {A} (a : A) : neutral (mret a).
Proof. done. Qed.

Lemma neutral_bind {A B} (p : AgP A) (f : A → AgP B) :
  neutral p → (∀ a, neutral (f a)) → neutral (p ≫= f).
Proof.
  intros Hp Hf. unfold neutral. rewrite wp_bind. eapply wp_mono; [exact Hp|].
  intros a g ->. apply Hf.
Qed.

(** A call that is always allowed and changes nothing. *)
Lemma neutral_trigger {X} (e : AgE X) :
  pre X e g0 → (∀ x, upd X e g0 x = g0) → neutral (trigger e).
Proof. intros He Hu. split; [done|]. intros x g ->. apply Hu. Qed.

Context (Hstartup : neutral startup).
Context (Hserve : ∀ method path body, neutral (serve method path body)).
Context (Hiter : ∀ r, neutral (renewal_iter stateFile r)).
Context (Hstart : ∀ i l c, neutral (start_renewal i l c)).

Lemma ghost_snoc tr k e : ghost (tr ++ [e]) k = ghost_step k (ghost tr k) e.
Proof. unfold ghost. by rewrite fold_left_app. Qed.

Definition keeps (ts : list thread) (tr : list (nat * event AgE)) : Prop :=
  ∀ k, match ts !! k with
       | Some t => wp local t (λ _ g, g = g0) (ghost tr k)
       | None => ghost tr k = g0
       end.

Lemma keeps_app ts (ts' : list thread) tr :
  keeps ts tr → Forall neutral ts' → keeps (ts ++ ts') tr.
Proof.
  intros Hk Hn k. pose proof (Hk k) as Hkk. rewrite lookup_app.
  destruct (ts !! k) as [t|]; [done|].
  destruct (ts' !! (k - length ts)%nat) as [t|] eqn:Ht; [|done].
  rewrite Hkk. rewrite Forall_lookup in Hn. by eapply Hn.
Qed.

(** Goroutine [k] makes a call; the others keep their values. *)
Lemma keeps_call ts tr k X (e : AgE X) cont x :
  ts !! k = Some (Vis e cont) → keeps ts tr →
  pre X e (ghost tr k) ∧ keeps (<[k := cont x]> ts) (tr ++ [(k, Ev e x)]).
Proof.
  intros Hts Hk. pose proof (Hk k) as Hkk. rewrite Hts in Hkk. destruct Hkk as [Hpre Hcont].
  split; [done|]. intros k0. rewrite ghost_snoc. unfold ghost_step. cbn [fst snd Ev].
  destruct (decide (k = k0)) as [<-|Hne].
  - rewrite list_lookup_insert_eq by (by eapply lookup_lt_Some). by apply Hcont.
  - rewrite list_lookup_insert_ne by done. apply Hk.
Qed.

Lemma reaches_keeps s tr c : reaches (initial s) tr c → keeps c.1 tr.
Proof using Hstartup Hserve Hiter Hstart.
  intros Hr.
  induction Hr as [|tr c1 o c2 Hr IH Hstep]; [by intros [|k]|].
  destruct Hstep as [ts s1 k X o cont x s' Hk He|ts s1 k X o cont x Hk Ha|ts s1 k r Hk|
    ts s1 method path body]; simpl in *.
  - by eapply (keeps_call _ _ _ _ _ _ _ Hk).
  - apply keeps_app; [by eapply (keeps_call _ _ _ _ _ _ _ Hk)|].
    destruct o; first [by apply Forall_nil|apply Forall_singleton, Hstart].
  - rewrite app_nil_r. intros k0. destruct (decide (k = k0)) as [<-|Hne].
    + rewrite list_lookup_insert_eq by (by eapply lookup_lt_Some).
      specialize (IH k). rewrite Hk in IH. simpl in IH. rewrite IH. apply Hiter.
    + rewrite list_lookup_insert_ne by done. apply IH.
  - rewrite app_nil_r. apply keeps_app; [done|]. apply Forall_singleton, Hserve.
Qed.

(** What every pending call of an execution satisfies. *)
Lemma reaches_pending s tr ts s' k X (e : AgE X) cont :
  reaches (initial s) tr (ts, s') → ts !! k = Some (Vis e cont) → pre X e (ghost tr k).
Proof using Hstartup Hserve Hiter Hstart.
  intros Hr Hk. pose proof (reaches_keeps _ _ _ Hr k) as H. simpl in H. rewrite Hk in H. apply H.
Qed.

Lemma reaches_finished s tr ts s' k r :
  reaches (initial s) tr (ts, s') → ts !! k = Some (Ret r) → ghost tr k = g0.
Proof using Hstartup Hserve Hiter Hstart.
  intros Hr Hk. pose proof (reaches_keeps _ _ _ Hr k) as H. simpl in H. by rewrite Hk in H.
Qed.

(** Induction over an execution: an invariant of the trace and the memory may
    use that every call made keeps to the protocol. *)
Lemma reaches_ind_local (Inv : list (nat * event AgE) → Ag → Prop) s :
  Inv [] s →
  (∀ tr s1 k X (o : MemOp X) x s2, Inv tr s1 → pre X (Mem o) (ghost tr k) →
     exec_mem X o s1 = Some (x, s2) → Inv (tr ++ [(k, Ev (Mem o) x)]) s2) →
  (∀ tr s1 k X (o : ExtOp X) x, Inv tr s1 → pre X (Ext o) (ghost tr k) →
     answers X o s1 x → Inv (tr ++ [(k, Ev (Ext o) x)]) s1) →
  ∀ tr c, reaches (initial s) tr c → Inv tr c.2.
Proof using Hstartup Hserve Hiter Hstart.
  intros H0 Hmem Hext tr c Hr.
  induction Hr as [|tr c1 o c2 Hr IH Hstep]; [done|].
  destruct Hstep as [ts s1 k X o cont x s' Hk He|ts s1 k X o cont x Hk Ha|ts s1 k r Hk|
    ts s1 method path body]; simpl in *; rewrite ?app_nil_r; [| |done|done].
  - eapply Hmem; eauto. by eapply reaches_pending.
  - eapply Hext; eauto. by eapply reaches_pending.
Qed.
End local.
End threads.
