(* ===== verification/AgentFile.v ===== *)
(** * The state file is never torn

    [save] writes a temporary file and renames it, under a lock of its own.
    In every interleaving, and at whatever moment the agent is killed, the
    state file is either untouched or a complete document. *)

From S2P Require Import Prelude Effects GoStd Base64 Json Http AgentEnv LeaseJson AgentMem.
From S2P Require Import LeaseStore Garp NetConfig DhcpClient AgentApi Agent AgentThreads.

Local Open Scope Z_scope.

(** ** Files along a trace *)

(** A file is whole, or broken by a write that failed half-way. *)
Inductive fstate := Whole (c : content) | Broken.

Section files.
Context `{L : AgLib}.

Definition file_call X (e : AgE X) (f : gmap string fstate) : X → gmap string fstate :=
  match e with
  | Mem _ => λ _, f
  | Ext o => match o in ExtOp X return X → gmap string fstate with
             | WriteFile p c => λ r, match r with
                 | Ok _ => <[p := Whole c]> f
                 | Err _ => <[p := Broken]> f
                 end
             | Rename a b => λ r, match r with
                 | Ok _ => match f !! a with
                           | Some x => <[b := x]> (delete a f)
                           | None => f
                           end
                 | Err _ => f
                 end
             | _ => λ _, f
             end
  end.

Definition file_step (f : gmap string fstate) (o : nat * event AgE) : gmap string fstate :=
  match o.2 with existT X (e, x) => file_call X e f x end.

(** The files after a trace that started with [f0]. *)
Definition files_after (f0 : gmap string fstate) (tr : list (nat * event AgE))
    : gmap string fstate := fold_left file_step tr f0.

(** ** The protocol of [save] *)

(** Where a goroutine is in [save]: outside, with the lock, with a marshalled
    document, with the document written to the temporary file. *)
Inductive saving := Outside | Locked | Marshalled (j : json) | Written (j : json).

Context (sf : string).

Definition save_call X (e : AgE X) (g : saving) : X → saving :=
  match e with
  | Mem o => match o in MemOp X return X → saving with
             | OLockSave => λ _, Locked
             | OUnlockSave => λ _, Outside
             | OMarshal => λ r, match r, g with
                 | Ok j, Locked => Marshalled j
                 | _, _ => g
                 end
             | _ => λ _, g
             end
  | Ext o => match o in ExtOp X return X → saving with
             | WriteFile p c => λ r,
                 if decide (p = tmpFile sf) then
                   match r, g with Ok _, Marshalled j => Written j | _, _ => Locked end
                 else g
             | Rename _ _ => λ _, Locked
             | _ => λ _, g
             end
  end.

Definition save_may X (e : AgE X) (g : saving) : Prop :=
  match e with
  | Mem OLockSave => g = Outside
  | Mem OUnlockSave => g ≠ Outside
  | Ext (WriteFile p c) => p ≠ sf ∧ (p = tmpFile sf → ∃ j, g = Marshalled j ∧ c = JsonDoc (Some j))
  | Ext (Rename a b) => a = tmpFile sf ∧ b = sf ∧ ∃ j, g = Written j
  | _ => True
  end.

Definition saving_of : list (nat * event AgE) → nat → saving := ghost Outside save_call.

(** The state file is not one of the kernel settings the agent writes. *)
Definition state_path_ok : Prop :=
  ∀ i f, conf_path i f ≠ sf ∧ conf_path i f ≠ tmpFile sf.

Lemma tmp_ne : tmpFile sf ≠ sf.
Proof.
  unfold tmpFile. intros H%(f_equal String.length). rewrite <-!length_bytes, bytes_app in H.
  rewrite length_app in H. simpl in H. lia.
Qed.
End files.

Abbreviation outside sf := (neutral Outside (save_may sf) (save_call sf)).

Section outside.
Context `{L : AgLib} (sf : string) (Hsf : state_path_ok sf).

Lemma outside_panic {A} msg : outside sf (panic msg : AgP A).
Proof. split; [done|]. intros []. Qed.

Lemma outside_conf i f s : outside sf (ext (WriteFile (conf_path i f) (Text s))).
Proof using Hsf.
  destruct (Hsf i f) as [H1 H2]. apply neutral_trigger; [by split|].
  intros x. simpl. by rewrite decide_False.
Qed.

Lemma outside_save : outside sf (save sf).
Proof.
  unfold save, neutral, mem, ext. rewrite wp_bind, wp_trigger. split; [done|]. intros [] g ->.
  rewrite wp_bind, wp_trigger. split; [done|]. intros d g ->. rewrite wp_bind.
  apply (wp_mono _ _ (λ _ g, g ≠ Outside)).
  - destruct d as [j|e]; cbv iota; [|done]. rewrite wp_bind, wp_trigger.
    split; [split; [apply tmp_ne|by eauto]|]. intros w g ->.
    simpl. rewrite decide_True by done. destruct w as [[]|e]; cbv iota; [|done].
    split; [simpl; by eauto|]. intros r g ->. by destruct r.
  - intros r g Hg. rewrite wp_bind, wp_trigger. split; [done|]. by intros [] g' ->.
Qed.
End outside.

Create HintDb outside.
#[export] Hint Resolve neutral_ret outside_panic outside_conf outside_save : outside.

(** Walk through a program that does not touch the state file except by [save]. *)
Ltac walk :=
  repeat first
    [ solve [eauto with outside]
    | apply neutral_bind; [|intros ?]
    | unfold mem, ext; apply neutral_trigger; [exact I|intros ?; reflexivity]
    | match goal with |- ∀ _, _ => intros ? end
    | progress cbv beta iota zeta
    | case_match ].

Section programs.
Context `{L : AgLib} (sf : string) (Hsf : state_path_ok sf).

Abbreviation out := (outside sf).

Lemma Set_out l : out (Set_ sf l).
Proof. unfold Set_. walk. Qed.
Lemma Delete_out i : out (Delete sf i).
Proof. unfold Delete. walk. Qed.
Lemma with_client_out {A} i m (f : nat → AgP (result string A)) :
  (∀ c, out (f c)) → out (with_client i m f).
Proof. intros Hf. unfold with_client. walk. Qed.
Lemma Renew_out i m a b c d : out (RenewLease i m a b c d).
Proof. apply with_client_out. intros ?. unfold renew_saved, renew_manual. walk. Qed.
Lemma Acquire_out i m : out (AcquireLease i m).
Proof. apply with_client_out. intros ?. unfold request_lease. walk. Qed.
Lemma Rebind_out i m a : out (RebindLease i m a).
Proof. apply with_client_out. intros ?. unfold request_lease. walk. Qed.
Lemma Release_out i m a b : out (ReleaseLease i m a b).
Proof. apply with_client_out. intros ?. walk. Qed.
Lemma send_loop_out fd ix p c i n : out (send_loop fd ix p c i n).
Proof. revert i. induction n; intros i; cbn [send_loop]; walk. Qed.
#[local] Hint Resolve Set_out Delete_out Renew_out Acquire_out Rebind_out Release_out
  send_loop_out : outside.
Lemma Garp_out i ip mac n : out (SendGratuitousARP i ip mac n).
Proof. unfold SendGratuitousARP. walk. Qed.
Lemma Setup_out i ip mask : out (SetupInterface i ip mask).
Proof using Hsf. unfold SetupInterface. walk. Qed.
Lemma Cleanup_out i ip : out (CleanupInterface i ip).
Proof using Hsf. unfold CleanupInterface. walk. Qed.
Lemma DeleteMacvlan_out i : out (DeleteMacvlan i).
Proof. unfold DeleteMacvlan. walk. Qed.
Lemma Create_out i p mac : out (CreateMacvlan i p mac).
Proof. unfold CreateMacvlan. walk. Qed.
#[local] Hint Resolve Garp_out Setup_out Cleanup_out DeleteMacvlan_out Create_out : outside.
Lemma startRenewalLoop_out l : out (startRenewalLoop l).
Proof. unfold startRenewalLoop, read. walk. Qed.
Lemma renewLease_out l : out (renewLease sf l).
Proof. unfold renewLease, read, write. walk. Qed.
Lemma rebindLease_out l : out (rebindLease sf l).
Proof. unfold rebindLease, read, write. walk. Qed.
#[local] Hint Resolve startRenewalLoop_out renewLease_out rebindLease_out : outside.
Lemma renewal_iter_out r : out (renewal_iter sf r).
Proof. unfold renewal_iter, on_success, on_failure, read, write. walk. Qed.
Lemma start_renewal_out i l c : out (start_renewal i l c).
Proof. unfold start_renewal, read. walk. Qed.
Lemma verify_lease_out l : out (verify_lease sf l).
Proof. unfold verify_lease, VerifyInterfaceExists, read, write. walk. Qed.
#[local] Hint Resolve verify_lease_out : outside.
Lemma verify_all_out l : out (verify_all sf l).
Proof. induction l as [|p l IH]; cbn [verify_all]; unfold deref_ptr; walk. Qed.
#[local] Hint Resolve verify_all_out : outside.
Lemma startup_out : out (startup sf).
Proof. unfold startup, Start, verifyLeases, List_. walk. Qed.
Lemma allocateLease_out i w mac : out (allocateLease sf i w mac).
Proof using Hsf. unfold allocateLease, allocate_on. walk. Qed.
Lemma releaseLease_out l : out (releaseLease sf l).
Proof using Hsf. unfold releaseLease, read, stopRenewalLoop. walk. Qed.
#[local] Hint Resolve allocateLease_out releaseLease_out : outside.
Lemma read_all_out l : out (read_all l).
Proof. induction l as [|p l IH]; cbn [read_all]; unfold deref_ptr, read; walk. Qed.
#[local] Hint Resolve read_all_out : outside.
Lemma route_out method path body : out (route sf method path body).
Proof using Hsf.
  unfold route, handleAllocateLease, handleListLeases, handleGetLease, handleReleaseLease,
    handleHealth, allocate_exclusive, release_exclusive, AcquireInflight, ReleaseInflight,
    Get, List_, read, deref_ptr. walk.
Qed.
#[local] Hint Resolve route_out : outside.
Lemma serve_out method path body : out (serve sf method path body).
Proof using Hsf. unfold serve. walk. Qed.
End programs.

(** ** The invariant *)

Section invariant.
Context `{L : AgLib} (sf : string) (f0 : gmap string fstate).

Abbreviation sv := (saving_of sf).

(** The document was marshalled by a goroutine of the trace. *)
Definition marshalled (tr : list (nat * event AgE)) (j : json) : Prop :=
  ∃ k, (k, Ev (Mem OMarshal) (Ok j)) ∈ tr.

Definition doc (j : json) : fstate := Whole (JsonDoc (Some j)).

Record file_inv (tr : list (nat * event AgE)) (s : Ag) : Prop := {
  fi_one : ∀ k k', sv tr k ≠ Outside → sv tr k' ≠ Outside → k = k';
  fi_lock : ∀ k, sv tr k ≠ Outside → saveMu s = true;
  fi_holder : saveMu s = true → ∃ k, sv tr k ≠ Outside;
  fi_tmp : ∀ k j, sv tr k = Written j → files_after f0 tr !! tmpFile sf = Some (doc j);
  fi_doc : ∀ k j, sv tr k = Marshalled j ∨ sv tr k = Written j → marshalled tr j;
  fi_file : files_after f0 tr !! sf = f0 !! sf ∨
            ∃ j, files_after f0 tr !! sf = Some (doc j) ∧ marshalled tr j;
}.

Lemma sv_snoc tr k X (e : AgE X) x k0 :
  sv (tr ++ [(k, Ev e x)]) k0 = if decide (k = k0) then save_call sf X e (sv tr k0) x
                                else sv tr k0.
Proof. unfold saving_of. by rewrite ghost_snoc. Qed.

Lemma files_snoc tr k X (e : AgE X) x :
  files_after f0 (tr ++ [(k, Ev e x)]) = file_call X e (files_after f0 tr) x.
Proof. unfold files_after. by rewrite fold_left_app. Qed.

Lemma marshalled_app tr tr' j : marshalled tr j → marshalled (tr ++ tr') j.
Proof. intros [k H]. exists k. set_solver. Qed.

Lemma exec_mem_saveMu X (o : MemOp X) s x s' :
  exec_mem X o s = Some (x, s') →
  match o with
  | OLockSave => saveMu s = false ∧ saveMu s' = true
  | OUnlockSave => saveMu s' = false
  | _ => saveMu s' = saveMu s
  end.
Proof.
  assert (∀ m s r s', alloc_entries m s = (r, s') → saveMu s' = saveMu s) as Ha.
  { intros m. induction m as [|[k [l|]] m IH]; intros s0 r s0' H; simplify_eq/=; [done|..];
      destruct (alloc_entries m _) as [r1 s1] eqn:E; simplify_eq/=; by apply IH in E. }
  destruct o; simpl; unfold unless_mu, put_section, load_section, mark_section, context_section,
    stop_section, acquire_section; intros H; repeat case_match; simplify_eq/=; try done.
  - by eapply Ha.
  - destruct (heap s !! l); by simplify_eq/=.
Qed.

(** A step that leaves the goroutine where it is and the two files alone. *)
Lemma file_inv_frame tr s s' k X (e : AgE X) x :
  file_inv tr s → saveMu s' = saveMu s →
  save_call sf X e (sv tr k) x = sv tr k →
  (∀ p, p = sf ∨ p = tmpFile sf →
     file_call X e (files_after f0 tr) x !! p = files_after f0 tr !! p) →
  file_inv (tr ++ [(k, Ev e x)]) s'.
Proof.
  intros [H1 H2 H2' H3 H4 H5] Hmu Hsv Hf.
  assert (∀ k0, sv (tr ++ [(k, Ev e x)]) k0 = sv tr k0) as E.
  { intros k0. rewrite sv_snoc. by case_decide; subst. }
  split.
  - intros k1 k2. rewrite !E. apply H1.
  - intros k1. rewrite E, Hmu. apply H2.
  - rewrite Hmu. intros [k1 Hk]%H2'. exists k1. by rewrite E.
  - intros k1 j. rewrite E, files_snoc, Hf by auto. apply H3.
  - intros k1 j. rewrite E. intros Hj. by apply marshalled_app, H4 with k1.
  - rewrite files_snoc, Hf by auto. destruct H5 as [H5|(j & Hj & Hm)]; [by left|right].
    exists j. auto using marshalled_app.
Qed.

(** A step of the goroutine [k] that is the only one in [save]. *)
Lemma file_inv_move tr s' k X (e : AgE X) x g :
  (∀ k', k' ≠ k → sv tr k' = Outside) → save_call sf X e (sv tr k) x = g →
  (g ≠ Outside ↔ saveMu s' = true) →
  (∀ j, g = Written j → file_call X e (files_after f0 tr) x !! tmpFile sf = Some (doc j)) →
  (∀ j, g = Marshalled j ∨ g = Written j → marshalled (tr ++ [(k, Ev e x)]) j) →
  (file_call X e (files_after f0 tr) x !! sf = f0 !! sf ∨
   ∃ j, file_call X e (files_after f0 tr) x !! sf = Some (doc j) ∧
        marshalled (tr ++ [(k, Ev e x)]) j) →
  file_inv (tr ++ [(k, Ev e x)]) s'.
Proof.
  intros Ho Hg Hmu Htmp Hdoc Hfile.
  assert (∀ k0, sv (tr ++ [(k, Ev e x)]) k0 = if decide (k = k0) then g else Outside) as E.
  { intros k0. rewrite sv_snoc. case_decide; [by subst|]. by apply Ho. }
  split.
  - intros k1 k2. rewrite !E. repeat case_decide; naive_solver.
  - intros k1. rewrite E. case_decide; naive_solver.
  - intros Hg'%Hmu. exists k. by rewrite E, decide_True.
  - intros k1 j. rewrite E, files_snoc. case_decide; naive_solver.
  - intros k1 j. rewrite E. case_decide; naive_solver.
  - by rewrite files_snoc.
Qed.

(** The goroutine in [save] is alone there. *)
Lemma alone tr s k : file_inv tr s → sv tr k ≠ Outside → ∀ k', k' ≠ k → sv tr k' = Outside.
Proof.
  intros Hi Hk k' Hne. destruct (sv tr k') eqn:E; [done|..];
    exfalso; apply Hne, (fi_one _ _ Hi); congruence.
Qed.

Lemma file_inv_mem tr s1 k X (o : MemOp X) x s2 :
  file_inv tr s1 → save_may sf X (Mem o) (sv tr k) → exec_mem X o s1 = Some (x, s2) →
  file_inv (tr ++ [(k, Ev (Mem o) x)]) s2.
Proof.
  intros Hi Hmay He. pose proof (exec_mem_saveMu X o s1 x s2 He) as Hmu.
  pose proof (fi_file _ _ Hi) as Hfile.
  assert (files_after f0 tr !! sf = f0 !! sf ∨ ∃ j, files_after f0 tr !! sf = Some (doc j) ∧
    marshalled (tr ++ [(k, Ev (Mem o) x)]) j) as Hfile'.
  { destruct Hfile as [?|(j & ? & ?)]; [by left|right; eauto using marshalled_app]. }
  destruct o; try (eapply file_inv_frame; [done|exact Hmu|done|done]).
  - (* OMarshal *)
    destruct x as [j|e]; [|eapply file_inv_frame; [done|exact Hmu|done|done]].
    destruct (sv tr k) eqn:Hk; try (eapply file_inv_frame; [done|exact Hmu| |done]; by rewrite Hk).
    eapply file_inv_move; rewrite ?Hk; [eapply alone; [done|congruence]|done| |done| |done].
    + rewrite Hmu, (fi_lock _ _ Hi k) by congruence. done.
    + intros j' Hj. destruct Hj as [[= ->]|[=]]. exists k. apply elem_of_last.
  - (* OLockSave *)
    destruct Hmu as [Hf Ht]. simpl in Hmay.
    eapply file_inv_move with (g := Locked); [|done|done|done|by intros j [|]|done].
    intros k' _. destruct (sv tr k') eqn:E; [done|..];
      pose proof (fi_lock _ _ Hi k' ltac:(congruence)); congruence.
  - (* OUnlockSave *)
    eapply file_inv_move with (g := Outside); [by eapply alone|done|by rewrite Hmu|done|by intros j [|]|done].
Qed.

Lemma file_inv_ext tr s k X (o : ExtOp X) x :
  file_inv tr s → save_may sf X (Ext o) (sv tr k) → file_inv (tr ++ [(k, Ev (Ext o) x)]) s.
Proof.
  intros Hi Hmay. pose proof (tmp_ne sf) as Hne. pose proof (fi_file _ _ Hi) as Hfile.
  assert (files_after f0 tr !! sf = f0 !! sf ∨ ∃ j, files_after f0 tr !! sf = Some (doc j) ∧
    marshalled (tr ++ [(k, Ev (Ext o) x)]) j) as Hfile'.
  { destruct Hfile as [?|(j & ? & ?)]; [by left|right; eauto using marshalled_app]. }
  destruct o; try (eapply file_inv_frame; [done|done|done|done]).
  - (* WriteFile *)
    destruct Hmay as [Hp Htmp]. destruct (decide (path = tmpFile sf)) as [->|Hpt].
    + destruct (Htmp eq_refl) as (j & Hk & ->).
      assert (marshalled tr j) as Hj by (apply (fi_doc _ _ Hi k); auto).
      eapply file_inv_move; [eapply alone; [done|congruence]| | | | |].
      * simpl. rewrite Hk, decide_True by done. reflexivity.
      * rewrite (fi_lock _ _ Hi k) by congruence. by destruct x as [[]|].
      * intros j' Hj'. destruct x as [[]|e]; simplify_eq/=. by rewrite lookup_insert_eq.
      * intros j' Hj'. destruct x as [[]|e]; destruct Hj' as [[=]|[=]]; subst.
        by apply marshalled_app.
      * destruct x as [[]|e]; simpl; rewrite lookup_insert_ne by done; exact Hfile'.
    + eapply file_inv_frame; [done|done| |].
      * simpl. by rewrite decide_False.
      * intros p Hp'. destruct x; simpl; rewrite lookup_insert_ne; naive_solver.
  - (* Rename *)
    destruct Hmay as (-> & -> & j & Hk).
    assert (marshalled tr j) as Hj by (apply (fi_doc _ _ Hi k); auto).
    pose proof (fi_tmp _ _ Hi k j Hk) as Ht.
    eapply file_inv_move with (g := Locked); [eapply alone; [done|congruence]|done| |done|by intros ? [|]|].
    + by rewrite (fi_lock _ _ Hi k) by congruence.
    + destruct x as [[]|e]; simpl; [|exact Hfile']. rewrite Ht, lookup_insert_eq.
      right. exists j. auto using marshalled_app.
Qed.

Context (Hsf : state_path_ok sf).

Lemma reaches_file_inv s tr c :
  saveMu s = false → reaches sf (initial sf s) tr c → file_inv tr c.2.
Proof using Hsf.
  intros Hs Hr.
  apply (reaches_ind_local sf Outside (save_may sf) (save_call sf) (startup_out sf)
    (serve_out sf Hsf) (renewal_iter_out sf) (start_renewal_out sf) file_inv s) with (c := c);
    [|eauto using file_inv_mem, file_inv_ext..|exact Hr].
  split; [done|done|by rewrite Hs|done|by intros k j [|]|by left].
Qed.

(** C7: the state file is never torn.  In every interleaving of the agent's
    goroutines and at every moment (so also when the agent is killed there;
    the order in which the kernel brings writes to the disk is not modelled, and
    the code does not call fsync), the state file is still the one from before or
    holds a complete document that one goroutine marshalled from the whole
    store, although writes may fail half-way; and no write ever targets the
    state file itself. *)
Theorem state_file_never_torn s tr ts s' :
  saveMu s = false → reaches sf (initial sf s) tr (ts, s') →
  (files_after f0 tr !! sf = f0 !! sf ∨
   ∃ j, files_after f0 tr !! sf = Some (Whole (JsonDoc (Some j))) ∧ marshalled tr j) ∧
  (∀ k p c cont, ts !! k = Some (Vis (Ext (WriteFile p c)) cont) → p ≠ sf).
Proof using Hsf.
  intros Hs Hr. split; [exact (fi_file _ _ (reaches_file_inv _ _ _ Hs Hr))|].
  intros k p c cont Hk.
  exact (proj1 (reaches_pending sf Outside (save_may sf) (save_call sf) (startup_out sf)
    (serve_out sf Hsf) (renewal_iter_out sf) (start_renewal_out sf) _ _ _ _ _ _ _ _ Hr Hk)).
Qed.
End invariant.
