(* ===== verification/AgentSafety.v ===== *)
(** * The agent neither panics nor deadlocks

    A logic for goroutines that share leases by pointer.  A goroutine may rely
    on what the others never undo (a lease object stays where it is and keeps
    its identity) and has to keep the store consistent. *)

From S2P Require Import Prelude Effects GoStd Base64 Json Http AgentEnv LeaseJson AgentMem.
From S2P Require Import LeaseStore Garp NetConfig DhcpClient AgentApi Agent AgentThreads AgentFile.

Local Open Scope Z_scope.

(** What a lease is for: its interface, parent, address, MAC and age. *)
Definition identity (x : Lease) : string * string * IP * HardwareAddr * Z :=
  (Interface x, WanParent x, IPAddress x, MACAddress x, CreatedAt x).

(** [s'] is later than [s]: lease objects have stayed, with their identity. *)
Definition later (s s' : Ag) : Prop :=
  ∀ l x, heap s !! l = Some x → ∃ y, heap s' !! l = Some y ∧ identity y = identity x.

#[export] Instance later_preorder : PreOrder later.
Proof.
  split; [by intros s l x Hx; eauto|]. intros s1 s2 s3 H1 H2 l x Hx.
  destruct (H1 l x Hx) as (y & Hy & E1). destruct (H2 l y Hy) as (z & Hz & E2).
  exists z. split; [done|congruence].
Qed.

(** A lease object for interface [i] is at [l]. *)
Definition known (l : nat) (i : string) (s : Ag) : Prop :=
  ∃ x, heap s !! l = Some x ∧ Interface x = i.

Lemma known_later l i s s' : known l i s → later s s' → known l i s'.
Proof.
  intros (x & Hx & <-) Hs. destruct (Hs l x Hx) as (y & Hy & E). exists y. split; [done|].
  unfold identity in E. congruence.
Qed.

(** The store's map exists, holds no nil pointer, and files every lease under
    its own interface; its lock is free between sections. *)
Record consistent (s : Ag) : Prop := {
  co_mu : mu s = false;
  co_fresh : ∀ l, is_Some (heap s !! l) → (l < next s)%nat;
  co_map : ∃ m, leases s = Some m ∧
             ∀ i p, m !! i = Some p → ∃ l, p = Some l ∧ known l i s;
}.

Section safe.
Context `{L : AgLib}.

(** A section that has to wait. *)
Definition waits X (o : MemOp X) (s : Ag) : Prop :=
  match o with OLockSave => saveMu s = true | _ => False end.

(** What a goroutine may do: run a section that is possible, or wait for the
    file lock, and leave the store consistent; start the renewal of a lease
    object; never panic. *)
Definition allowed X (e : AgE X) (s : Ag) : Prop :=
  match e with
  | Mem o => (is_Some (exec_mem X o s) ∨ waits X o s) ∧
             ∀ x s', exec_mem X o s = Some (x, s') → consistent s' ∧ later s s'
  | Ext (Panic _) => False
  | Ext (Spawn i l c) => known l i s
  | Ext _ => True
  end.

Definition responds X (e : AgE X) (s : Ag) (x : X) (s' : Ag) : Prop :=
  match e with
  | Mem o => exec_mem X o s = Some (x, s')
  | Ext _ => s' = s
  end.

(** [safe p Q s]: started when the memory is [s] or later, with other
    goroutines running in between, every call of [p] is allowed, and [Q]
    holds when it returns. *)
Fixpoint safe {A} (p : AgP A) (Q : A → Ag → Prop) (s : Ag) : Prop :=
  ∀ s1, later s s1 → consistent s1 →
    match p with
    | Ret a => Q a s1
    | Vis e k => allowed _ e s1 ∧ ∀ x s2, responds _ e s1 x s2 → safe (k x) Q s2
    end.

Lemma safe_unfold {A} (p : AgP A) Q s :
  safe p Q s = ∀ s1, later s s1 → consistent s1 →
    match p with
    | Ret a => Q a s1
    | Vis e k => allowed _ e s1 ∧ ∀ x s2, responds _ e s1 x s2 → safe (k x) Q s2
    end.
Proof. by destruct p. Qed.

Lemma safe_later {A} (p : AgP A) Q s s' : safe p Q s → later s s' → safe p Q s'.
Proof.
  rewrite !safe_unfold. intros H Hs s1 Hs1. apply H. by transitivity s'.
Qed.

(** It is enough to look at consistent states. *)
Lemma safe_intro {A} (p : AgP A) Q s :
  (∀ s1, later s s1 → consistent s1 → safe p Q s1) → safe p Q s.
Proof.
  intros H. rewrite safe_unfold. intros s1 Hs Hc. specialize (H s1 Hs Hc).
  rewrite safe_unfold in H. by apply H.
Qed.

Lemma safe_bind {A B} (p : AgP A) (f : A → AgP B) Q s :
  safe p (λ a s', safe (f a) Q s') s → safe (p ≫= f) Q s.
Proof.
  revert s. induction p as [a|X e k IH]; intros s H.
  - apply safe_intro. rewrite safe_unfold in H. exact H.
  - rewrite safe_unfold in H. change (safe (Vis e (λ x, k x ≫= f)) Q s). rewrite safe_unfold.
    intros s1 Hs Hc. destruct (H s1 Hs Hc) as [Ha Hk]. split; [done|].
    intros x s2 Hr. by apply IH, Hk.
Qed.

Lemma safe_ret {A} (a : A) (Q : A → Ag → Prop) s :
  (∀ s', later s s' → Q a s') → safe (mret a) Q s.
Proof. intros H s1 Hs _. by apply H. Qed.

Lemma safe_mono {A} (p : AgP A) (Q Q' : A → Ag → Prop) s :
  safe p Q s → (∀ a s', later s s' → consistent s' → Q a s' → Q' a s') → safe p Q' s.
Proof.
  revert s. induction p as [a|X e k IH]; intros s H HQ; rewrite safe_unfold in *; intros s1 Hs Hc.
  - apply HQ; auto.
  - destruct (H s1 Hs Hc) as [Ha Hk]. split; [done|]. intros x s2 Hr.
    apply IH; [by apply Hk|]. intros a s' Hs'. apply HQ. transitivity s1; [done|].
    transitivity s2; [|done]. destruct e as [o|o]; simpl in *; [by eapply Ha|by subst].
Qed.

Lemma safe_mem {X} (o : MemOp X) (Q : X → Ag → Prop) s :
  (∀ s1, later s s1 → consistent s1 →
     (is_Some (exec_mem X o s1) ∨ waits X o s1) ∧
     ∀ x s2, exec_mem X o s1 = Some (x, s2) →
       consistent s2 ∧ later s1 s2 ∧ ∀ s3, later s2 s3 → Q x s3) →
  safe (mem o) Q s.
Proof.
  intros H. unfold mem, trigger. rewrite safe_unfold. intros s1 Hs Hc.
  destruct (H s1 Hs Hc) as [He Hx]. split.
  - split; [done|]. intros x s2 E. by destruct (Hx x s2 E) as (? & ? & ?).
  - intros x s2 E. apply safe_ret. by eapply Hx.
Qed.

(** Programs that touch neither the memory nor other goroutines. *)
Definition external X (e : AgE X) : Prop :=
  match e with
  | Mem _ => False
  | Ext (Panic _) | Ext (Spawn _ _ _) => False
  | Ext _ => True
  end.

Lemma safe_external {A} (p : AgP A) (Q : A → Ag → Prop) s :
  calls external p → (∀ a s', later s s' → Q a s') → safe p Q s.
Proof.
  revert s. induction p as [a|X e k IH]; intros s Hp HQ; rewrite safe_unfold; intros s1 Hs Hc.
  - by apply HQ.
  - destruct Hp as [He Hk]. destruct e as [o|o]; [done|]. split; [by destruct o|].
    intros x s2 ->. apply IH; [done|]. intros a s' Hs'. apply HQ. by transitivity s1.
Qed.
End safe.

(** ** Sections *)

Section sections.
Context `{L : AgLib}.

Lemma later_heap s s' : heap s = heap s' → later s s'.
Proof. intros E l x Hx. exists x. by rewrite <-E. Qed.

Lemma consistent_frame s s' :
  consistent s → heap s' = heap s → leases s' = leases s → mu s' = mu s →
  (next s ≤ next s')%nat → consistent s'.
Proof.
  intros [H1 H2 (m & Hm & H3)] Eh El Em En. split.
  - congruence.
  - rewrite Eh. intros l Hl. specialize (H2 l Hl). lia.
  - exists m. split; [congruence|]. intros i p Hp. destruct (H3 i p Hp) as (l & -> & Hk).
    exists l. split; [done|]. unfold known. by rewrite Eh.
Qed.

(** Sections that leave the leases alone. *)
Definition quiet X (o : MemOp X) : Prop :=
  match o with
  | OGet _ | OList | OAcquire _ | ORelease _ | OMarshal | OLockSave | OUnlockSave
  | OContext _ | OStop _ | OForget _ | OShutdown | OIsShutdown => True
  | _ => False
  end.

(** What the lookups may be relied on to answer. *)
Definition finds X (o : MemOp X) : X → Ag → Prop :=
  match o in MemOp X return X → Ag → Prop with
  | OGet i => λ r s, match r with Some p => ∃ l, p = Some l ∧ known l i s | None => True end
  | OList => λ r s, Forall (λ p, ∃ l i, p = Some l ∧ known l i s) r
  | _ => λ _ _, True
  end.

Lemma exec_quiet X (o : MemOp X) s x s' :
  quiet X o → exec_mem X o s = Some (x, s') →
  heap s' = heap s ∧ leases s' = leases s ∧ mu s' = mu s ∧ (next s ≤ next s')%nat.
Proof.
  destruct o; try done; intros _; simpl; unfold unless_mu, acquire_section, context_section,
    stop_section; intros H; repeat case_match; simplify_eq/=; auto with lia.
Qed.

Lemma finds_ok X (o : MemOp X) s x s' :
  quiet X o → consistent s → exec_mem X o s = Some (x, s') → ∀ s3, later s' s3 → finds X o x s3.
Proof.
  intros Hq [Hmu _ (m & Hm & Hc)] He s3 Hs3. destruct o; try done; simpl in *;
    unfold unless_mu in He; rewrite Hmu in He; simplify_eq.
  - unfold get_section. rewrite Hm. simpl. destruct (m !! iface) as [p|] eqn:Hp; [|done].
    destruct (Hc _ _ Hp) as (l & -> & Hl). eauto using known_later.
  - unfold list_section. rewrite Hm. simpl. apply Forall_fmap, Forall_forall. intros [i p] Hin.
    apply elem_of_map_to_list in Hin. destruct (Hc _ _ Hin) as (l & -> & Hl).
    exists l, i. eauto using known_later.
Qed.

Lemma safe_quiet {X} (o : MemOp X) (Q : X → Ag → Prop) s :
  quiet X o → (∀ x s', later s s' → finds X o x s' → Q x s') → safe (mem o) Q s.
Proof.
  intros Hq HQ. apply safe_mem. intros s1 Hs Hc. split.
  - destruct o; try done; simpl; unfold unless_mu; rewrite ?(co_mu _ Hc); eauto.
    destruct (saveMu s1); eauto.
  - intros x s2 He. destruct (exec_quiet _ _ _ _ _ Hq He) as (Eh & El & Em & En).
    split; [by eapply consistent_frame|]. split; [by apply later_heap|]. intros s3 Hs3.
    apply HQ; [|by eapply finds_ok]. transitivity s1; [done|].
    transitivity s2; [by apply later_heap|done].
Qed.

Lemma safe_read l i (Q : Lease → Ag → Prop) s :
  known l i s → (∀ x s', later s s' → Interface x = i → Q x s') → safe (read l) Q s.
Proof.
  intros Hk HQ. apply safe_mem. intros s1 Hs Hc.
  destruct (known_later _ _ _ _ Hk Hs) as (x & Hx & Hi). simpl. rewrite Hx. simpl.
  split; [by eauto|]. intros y s2 [= <- <-]. split; [done|]. split; [done|].
  intros s3 Hs3. apply HQ; [|done]. by transitivity s1.
Qed.

Lemma safe_write l f (Q : unit → Ag → Prop) s :
  (∀ x, identity (f x) = identity x) → (∀ s', later s s' → Q tt s') → safe (write l f) Q s.
Proof.
  intros Hf HQ. apply safe_mem. intros s1 Hs Hc. simpl. split; [by eauto|].
  intros [] s2 [= <-]. set (s2 := set_heap _ _).
  assert (later s1 s2) as Hs2.
  { intros p x Hx. simpl. destruct (decide (p = l)) as [->|Hne].
    - rewrite lookup_alter_eq, Hx. by eauto.
    - rewrite lookup_alter_ne by done. by eauto. }
  split; [|split; [done|]].
  - destruct Hc as [H1 H2 (m & Hm & H3)]. split; [done| |].
    + intros p. simpl. destruct (decide (p = l)) as [->|Hne].
      * rewrite lookup_alter_eq, fmap_is_Some. apply H2.
      * rewrite lookup_alter_ne by done. apply H2.
    + exists m. split; [done|]. intros i p Hp. destruct (H3 i p Hp) as (q & -> & Hq).
      exists q. split; [done|]. by eapply known_later.
  - intros s3 Hs3. apply HQ. transitivity s1; [done|]. by transitivity s2.
Qed.

Lemma safe_new x (Q : nat → Ag → Prop) s :
  (∀ l s', later s s' → known l (Interface x) s' → Q l s') → safe (mem (ONew x)) Q s.
Proof.
  intros HQ. apply safe_mem. intros s1 Hs Hc. simpl. split; [by eauto|].
  intros l s2 [= <- <-]. set (s2 := set_next _ _). pose proof (co_fresh _ Hc) as Hfr.
  assert (later s1 s2) as Hs2.
  { intros p y Hy. simpl. rewrite lookup_insert_ne; [by eauto|].
    intros <-. specialize (Hfr (next s1) ltac:(by eauto)). lia. }
  split; [|split; [done|]].
  - destruct Hc as [H1 H2 (m & Hm & H3)]. split; [done| |].
    + intros p. simpl. destruct (decide (p = next s1)) as [->|Hne]; [lia|].
      rewrite lookup_insert_ne by done. intros Hp. specialize (H2 p Hp). lia.
    + exists m. split; [done|]. intros i p Hp. destruct (H3 i p Hp) as (q & -> & Hq).
      exists q. split; [done|]. by eapply known_later.
  - intros s3 Hs3. apply HQ; [transitivity s1; [done|by transitivity s2]|].
    eapply known_later; [|done]. exists x. simpl. by rewrite lookup_insert_eq.
Qed.

Lemma safe_put i l (Q : bool → Ag → Prop) s :
  known l i s → (∀ s', later s s' → Q true s') → safe (mem (OPut i l)) Q s.
Proof.
  intros Hk HQ. apply safe_mem. intros s1 Hs Hc. pose proof Hc as [H1 H2 (m & Hm & H3)].
  simpl. unfold unless_mu, put_section. rewrite H1, Hm. split; [by eauto|].
  intros b s2 [= <- <-]. split; [split; [done|done|]|split; [by apply later_heap|]].
  - eexists. split; [done|]. intros i' p. destruct (decide (i = i')) as [<-|Hne].
    + rewrite lookup_insert_eq. intros [= <-]. exists l. split; [done|].
      exact (known_later _ _ _ _ Hk Hs).
    + rewrite lookup_insert_ne by done. intros Hp. destruct (H3 i' p Hp) as (q & -> & Hq). by eauto.
  - intros s3 Hs3. apply HQ. transitivity s1; [done|]. etransitivity; [|exact Hs3].
    by apply later_heap.
Qed.

Lemma safe_del i (Q : unit → Ag → Prop) s :
  (∀ s', later s s' → Q tt s') → safe (mem (ODel i)) Q s.
Proof.
  intros HQ. apply safe_mem. intros s1 Hs Hc. pose proof Hc as [H1 H2 (m & Hm & H3)].
  simpl. unfold unless_mu. rewrite H1. split; [by eauto|].
  intros [] s2 [= <-]. split; [split; [done|done|]|split; [by apply later_heap|]].
  - exists (delete i m). simpl. rewrite Hm. split; [done|]. intros i' p Hp.
    apply lookup_delete_Some in Hp as [_ Hp]. destruct (H3 i' p Hp) as (q & -> & Hq). by eauto.
  - intros s3 Hs3. apply HQ. transitivity s1; [done|]. etransitivity; [|exact Hs3].
    by apply later_heap.
Qed.
End sections.

(** ** The agent's programs *)

(** Nothing to know about the result. *)
Abbreviation any := (λ _ _, True).

Section seq.
Context `{L : AgLib}.

Lemma safe_any {A} (p : AgP A) (Q : A → Ag → Prop) s :
  safe p any s → (∀ a s', later s s' → Q a s') → safe p Q s.
Proof. intros H HQ. eapply safe_mono; [exact H|]. auto. Qed.

Lemma safe_seq {A B} (p : AgP A) (f : A → AgP B) Q s :
  safe p any s → (∀ a s', later s s' → safe (f a) Q s') → safe (p ≫= f) Q s.
Proof. intros Hp Hf. apply safe_bind. by eapply safe_any. Qed.

Lemma safe_seq_ext {A B} (p : AgP A) (f : A → AgP B) Q s :
  calls external p → (∀ a s', later s s' → safe (f a) Q s') → safe (p ≫= f) Q s.
Proof. intros Hp Hf. apply safe_seq; [by apply safe_external|done]. Qed.

Lemma safe_seq_quiet {X B} (o : MemOp X) (f : X → AgP B) Q s :
  quiet X o → (∀ x s', later s s' → finds X o x s' → safe (f x) Q s') → safe (mem o ≫= f) Q s.
Proof. intros Ho Hf. by apply safe_bind, safe_quiet. Qed.

Lemma safe_seq_read {B} l i (f : Lease → AgP B) Q s :
  known l i s → (∀ x s', later s s' → Interface x = i → safe (f x) Q s') →
  safe (read l ≫= f) Q s.
Proof. intros Hk Hf. apply safe_bind. by eapply safe_read. Qed.

Lemma safe_seq_write {B} l g (f : unit → AgP B) Q s :
  (∀ x, identity (g x) = identity x) → (∀ s', later s s' → safe (f tt) Q s') →
  safe (write l g ≫= f) Q s.
Proof. intros Hg Hf. by apply safe_bind, safe_write. Qed.

Lemma safe_deref {B} l (f : nat → AgP B) Q s : safe (f l) Q s → safe (deref_ptr (Some l) ≫= f) Q s.
Proof. done. Qed.

Lemma safe_done {A} (a : A) s : safe (mret a) any s.
Proof. by apply safe_ret. Qed.
End seq.

(** Bring what is known to the later memory. *)
Ltac later s' Hs :=
  repeat match goal with
    | Hk : known _ _ _ |- _ => apply (λ k, known_later _ _ _ _ k Hs) in Hk
    end; clear Hs.

Ltac outward := unfold ext; solve_pcalls.

Section programs.
Context `{L : AgLib} (sf : string).

Lemma ext_with_client {A} i m (f : nat → AgP (result string A)) :
  (∀ c, calls external (f c)) → calls external (with_client i m f).
Proof. intros Hf. unfold with_client. outward. Qed.
Lemma ext_Renew i m a b c d : calls external (RenewLease i m a b c d).
Proof. apply ext_with_client. intros ?. unfold renew_saved, renew_manual. outward. Qed.
Lemma ext_Acquire i m : calls external (AcquireLease i m).
Proof. apply ext_with_client. intros ?. unfold request_lease. outward. Qed.
Lemma ext_Rebind i m a : calls external (RebindLease i m a).
Proof. apply ext_with_client. intros ?. unfold request_lease. outward. Qed.
Lemma ext_Release i m a b : calls external (ReleaseLease i m a b).
Proof. apply ext_with_client. intros ?. outward. Qed.
Lemma ext_send_loop fd ix p c i n : calls external (send_loop fd ix p c i n).
Proof. revert i. induction n; intros i; simpl; [done|]. outward. Qed.
#[local] Hint Resolve ext_send_loop : pcalls.
Lemma ext_Garp i ip mac n : calls external (SendGratuitousARP i ip mac n).
Proof. unfold SendGratuitousARP. outward. Qed.
Lemma ext_Setup i ip mask : calls external (SetupInterface i ip mask).
Proof. unfold SetupInterface. outward. Qed.
Lemma ext_Cleanup i ip : calls external (CleanupInterface i ip).
Proof. unfold CleanupInterface. outward. Qed.
Lemma ext_DeleteMacvlan i : calls external (DeleteMacvlan i).
Proof. unfold DeleteMacvlan. outward. Qed.
Lemma ext_Create i p mac : calls external (CreateMacvlan i p mac).
Proof. unfold CreateMacvlan. outward. Qed.
Lemma ext_Verify i : calls external (VerifyInterfaceExists i).
Proof. unfold VerifyInterfaceExists. outward. Qed.
Lemma ext_Now : calls external (ext Now).
Proof. by apply calls_trigger. Qed.

Lemma safe_save s : safe (save sf) any s.
Proof.
  unfold save. apply safe_seq_quiet; [done|]. intros [] s1 _ _.
  apply safe_seq_quiet; [done|]. intros d s2 _ _.
  apply safe_seq_ext; [outward|]. intros r s3 _.
  apply safe_seq_quiet; [done|]. intros. apply safe_done.
Qed.

Lemma safe_Set l i s : known l i s → safe (Set_ sf l) any s.
Proof.
  intros Hk. unfold Set_. eapply safe_seq_read; [done|]. intros x s1 Hs ->. later s1 Hs.
  apply safe_bind, safe_put; [done|]. intros s2 _. apply safe_save.
Qed.

Lemma safe_Delete i s : safe (Delete sf i) any s.
Proof. apply safe_bind, safe_del. intros. apply safe_save. Qed.

Lemma safe_startRenewalLoop l i s : known l i s → safe (startRenewalLoop l) any s.
Proof.
  intros Hk. unfold startRenewalLoop. eapply safe_seq_read; [done|]. intros x s1 Hs ->.
  later s1 Hs. apply safe_seq_quiet; [done|]. intros c s2 Hs _. later s2 Hs.
  intros s3 Hs Hc. later s3 Hs. split; [done|]. intros [] s4 ->. apply safe_done.
Qed.

(** The lease is changed by an identity-preserving update and stored. *)
Lemma safe_update l i g s :
  known l i s → (∀ x, identity (g x) = identity x) →
  safe (_ ← write l g; Set_ sf l) any s.
Proof.
  intros Hk Hg. apply safe_seq_write; [done|]. intros s1 Hs. later s1 Hs. by eapply safe_Set.
Qed.

Lemma safe_renewLease l i s : known l i s → safe (renewLease sf l) any s.
Proof.
  intros Hk. unfold renewLease. eapply safe_seq_read; [done|]. intros x s1 Hs ->. later s1 Hs.
  apply safe_seq_ext; [apply ext_Renew|]. intros [info|e] s2 Hs; [|apply safe_done]. later s2 Hs.
  apply safe_seq_ext; [apply ext_Now|]. intros now s3 Hs. later s3 Hs. by eapply safe_update.
Qed.

Lemma safe_rebindLease l i s : known l i s → safe (rebindLease sf l) any s.
Proof.
  intros Hk. unfold rebindLease. eapply safe_seq_read; [done|]. intros x s1 Hs ->. later s1 Hs.
  apply safe_seq_ext; [apply ext_Rebind|]. intros [info|e] s2 Hs; [|apply safe_done]. later s2 Hs.
  apply safe_seq_ext; [apply ext_Now|]. intros now s3 Hs. later s3 Hs. by eapply safe_update.
Qed.

(** A renewal goroutine goes on with the lease object it has. *)
Definition goes_on (o : option Renewal) (s : Ag) : Prop :=
  match o with Some r => ∃ i, known (rn_lease r) i s | None => True end.

Lemma goes_on_ret r i s : known (rn_lease r) i s → safe (mret (Some r) : AgP _) goes_on s.
Proof. intros Hk. apply safe_ret. intros s' Hs. exists i. by eapply known_later. Qed.

Lemma safe_on_success r i s : known (rn_lease r) i s → safe (on_success r) goes_on s.
Proof.
  intros Hk. unfold on_success. eapply safe_seq_read; [done|]. intros x s1 Hs _. later s1 Hs.
  by eapply goes_on_ret.
Qed.

Lemma safe_on_failure r i s : known (rn_lease r) i s → safe (on_failure sf r) goes_on s.
Proof.
  intros Hk. unfold on_failure. apply safe_seq_write; [done|]. intros s1 Hs. later s1 Hs.
  apply safe_seq; [by eapply safe_Set|]. intros _ s2 Hs. later s2 Hs. by eapply goes_on_ret.
Qed.

Lemma safe_renewal_iter r i s : known (rn_lease r) i s → safe (renewal_iter sf r) goes_on s.
Proof.
  intros Hk. unfold renewal_iter. apply safe_seq_ext; [by apply calls_trigger|].
  intros [] s1 Hs; later s1 Hs.
  - apply safe_seq; [by eapply safe_renewLease|]. intros [[]|e] s2 Hs; later s2 Hs;
      [by eapply safe_on_success|].
    apply safe_seq; [by eapply safe_rebindLease|]. intros [[]|e'] s3 Hs; later s3 Hs;
      [by eapply safe_on_success|by eapply safe_on_failure].
  - apply safe_seq_quiet; [done|]. intros. by apply safe_ret.
Qed.

Lemma safe_start_renewal iface l c i s :
  known l i s → safe (start_renewal iface l c) goes_on s.
Proof.
  intros Hk. unfold start_renewal. eapply safe_seq_read; [done|]. intros x s1 Hs _. later s1 Hs.
  by eapply goes_on_ret.
Qed.
End programs.

(** ** Handlers and start-up *)

Section handlers.
Context `{L : AgLib} (sf : string).

Lemma safe_allocate_on i w mac s :
  safe (allocate_on sf i w mac)
    (λ r s', match r with Ok l => known l i s' | Err _ => True end) s.
Proof.
  unfold allocate_on. apply safe_seq_ext; [apply ext_Acquire|].
  intros [info|e] s1 _; [|by apply safe_ret].
  apply safe_seq_ext; [apply ext_Garp|]. intros [[]|e] s2 _; [|by apply safe_ret].
  apply safe_seq_ext; [apply ext_Setup|]. intros [[]|e] s3 _; [|by apply safe_ret].
  apply safe_seq_ext; [apply ext_Now|]. intros now s4 _.
  apply safe_seq_ext; [apply ext_Now|]. intros now' s5 _.
  apply safe_bind, safe_new. cbn [Interface]. intros l s6 _ Hk.
  apply safe_seq; [by eapply safe_Set|]. intros [[]|e] s7 Hs; [|by apply safe_ret]. later s7 Hs.
  apply safe_seq; [by eapply safe_startRenewalLoop|]. intros _ s8 Hs. later s8 Hs.
  apply safe_ret. intros s9 Hs. by later s9 Hs.
Qed.

Lemma safe_allocateLease i w mac s :
  safe (allocateLease sf i w mac)
    (λ r s', match r with Ok l => known l i s' | Err _ => True end) s.
Proof.
  unfold allocateLease. apply safe_seq_ext; [apply ext_Create|].
  intros [[]|e] s1 _; [|by apply safe_ret].
  apply safe_bind. eapply safe_mono; [apply safe_allocate_on|].
  intros [l|e] s2 _ _ Hk.
  - apply safe_ret. intros s3 Hs. by later s3 Hs.
  - apply safe_seq_ext; [apply ext_DeleteMacvlan|]. intros. by apply safe_ret.
Qed.

Lemma safe_releaseLease l i s : known l i s → safe (releaseLease sf l) any s.
Proof.
  intros Hk. unfold releaseLease. eapply safe_seq_read; [done|]. intros x s1 Hs _. later s1 Hs.
  apply safe_seq_quiet; [done|]. intros _ s2 Hs _. later s2 Hs.
  eapply safe_seq_read; [done|]. intros y s2' _ _.
  apply safe_seq_ext; [apply ext_Release|]. intros _ s3 _.
  apply safe_seq_ext; [apply ext_Cleanup|]. intros _ s4 _.
  apply safe_seq_ext; [apply ext_DeleteMacvlan|]. intros _ s5 _.
  apply safe_seq; [apply safe_Delete|]. intros. apply safe_done.
Qed.

(** Mark, work, release. *)
Lemma safe_marked i (body : AgP HttpResponse) busy s :
  (∀ s', safe body any s') →
  safe (ok ← AcquireInflight i;
        if (ok : bool) then resp ← body; _ ← ReleaseInflight i; mret resp else mret busy) any s.
Proof.
  intros Hb. apply safe_seq_quiet; [done|]. intros [] s1 _ _; [|apply safe_done].
  apply safe_seq; [apply Hb|]. intros resp s2 _. apply safe_seq_quiet; [done|].
  intros. apply safe_done.
Qed.

Lemma safe_handleAllocateLease body s : safe (handleAllocateLease sf body) any s.
Proof.
  unfold handleAllocateLease. destruct (Decode _ _ _) as [req []]; [|apply safe_done].
  case_decide; [apply safe_done|]. case_match; [|apply safe_done].
  apply safe_marked. clear s. intros s. unfold allocate_exclusive.
  apply safe_seq_quiet; [done|]. intros [p|] s1 _ _; [apply safe_done|].
  apply safe_bind. eapply safe_mono; [apply safe_allocateLease|].
  intros [l|e] s2 _ _ Hk; [|apply safe_done].
  eapply safe_seq_read; [done|]. intros. apply safe_done.
Qed.

Lemma safe_handleReleaseLease i s : safe (handleReleaseLease sf i) any s.
Proof.
  apply safe_marked. clear s. intros s. unfold release_exclusive.
  apply safe_seq_quiet; [done|]. intros [p|] s1 _ Hf; [|apply safe_done].
  destruct Hf as (l & -> & Hk). apply safe_deref, safe_seq; [by eapply safe_releaseLease|].
  intros [] s2 _; apply safe_done.
Qed.

Lemma safe_handleGetLease i s : safe (handleGetLease i) any s.
Proof.
  apply safe_seq_quiet; [done|]. intros [p|] s1 _ Hf; [|apply safe_done].
  destruct Hf as (l & -> & Hk). apply safe_deref. eapply safe_seq_read; [done|]. intros. apply safe_done.
Qed.

Definition pointers (ls : list (option nat)) (s : Ag) : Prop :=
  Forall (λ p, ∃ l i, p = Some l ∧ known l i s) ls.

Lemma pointers_later ls s s' : pointers ls s → later s s' → pointers ls s'.
Proof.
  intros H Hs. eapply Forall_impl; [exact H|]. intros p (l & i & -> & Hk).
  exists l, i. split; [done|]. by eapply known_later.
Qed.

Lemma safe_read_all ls s : pointers ls s → safe (read_all ls) any s.
Proof.
  revert s. induction ls as [|p ls IH]; intros s Hp; [apply safe_done|].
  apply Forall_cons in Hp as [(l & i & -> & Hk) Hp]. cbn [read_all].
  apply safe_deref.   eapply safe_seq_read; [done|]. intros x s1 Hs _. apply safe_seq; [by eapply IH, pointers_later|].
  intros. apply safe_done.
Qed.

Lemma safe_verify_lease l i s : known l i s → safe (verify_lease sf l) any s.
Proof.
  intros Hk. unfold verify_lease. eapply safe_seq_read; [done|]. intros x s1 Hs ->. later s1 Hs.
  apply safe_seq_ext; [apply ext_Verify|]. intros [[]|e] s2 Hs; [| |apply safe_done]; later s2 Hs.
  - apply safe_seq_write; [done|]. intros s3 Hs. later s3 Hs.
    apply safe_seq_ext; [apply ext_Renew|]. intros [info|e] s4 Hs; later s4 Hs.
    + apply safe_seq_ext; [apply ext_Now|]. intros now s5 Hs. later s5 Hs.
      apply safe_seq_write; [done|]. intros s6 Hs. later s6 Hs.
      apply safe_seq; [by eapply safe_Set|]. intros _ s7 Hs. later s7 Hs.
      by eapply safe_startRenewalLoop.
    + apply safe_seq_write; [done|]. intros s5 Hs. later s5 Hs.
      apply safe_seq; [by eapply safe_Set|]. intros. apply safe_done.
  - apply safe_seq_write; [done|]. intros s3 Hs. later s3 Hs.
    apply safe_seq; [by eapply safe_Set|]. intros. apply safe_done.
Qed.

Lemma safe_verify_all ls s : pointers ls s → safe (verify_all sf ls) any s.
Proof.
  revert s. induction ls as [|p ls IH]; intros s Hp; [apply safe_done|].
  apply Forall_cons in Hp as [(l & i & -> & Hk) Hp]. cbn [verify_all].
  apply safe_deref, safe_seq; [by eapply safe_verify_lease|]. intros _ s1 Hs. by eapply IH, pointers_later.
Qed.

Lemma safe_route method path body s : safe (route sf method path body) any s.
Proof.
  assert (∀ s, safe handleListLeases any s) as Hlist.
  { intros s'. apply safe_seq_quiet; [done|]. intros ls s1 _ Hf.
    apply safe_seq; [by apply safe_read_all|]. intros. apply safe_done. }
  assert (∀ s, safe handleHealth any s) as Hhealth.
  { intros s'. apply safe_seq_quiet; [done|]. intros. apply safe_done. }
  unfold route. repeat case_match; auto using safe_done, safe_handleAllocateLease,
    safe_handleReleaseLease, safe_handleGetLease.
Qed.

Lemma safe_serve method path body s : safe (serve sf method path body) goes_on s.
Proof.
  apply safe_seq; [apply safe_route|]. intros resp s1 _.
  apply safe_seq_ext; [by apply calls_trigger|]. intros. by apply safe_ret.
Qed.

Lemma safe_startup s : safe (startup sf) goes_on s.
Proof.
  apply safe_seq; [|intros; by apply safe_ret].
  apply safe_seq_quiet; [done|]. intros ls s1 _ Hf. by apply safe_verify_all.
Qed.
End handlers.

(** ** Every execution *)

Section executions.
Context `{L : AgLib} (sf : string).

Definition all_safe (c : config) : Prop :=
  consistent c.2 ∧ Forall (λ t, safe t goes_on c.2) c.1.

Lemma step_safe c o c' : all_safe c → step sf c o c' → all_safe c' ∧ later c.2 c'.2.
Proof.
  intros [Hc Hts] Hstep.
  assert (∀ k t, c.1 !! k = Some t → safe t goes_on c.2) as Hk
    by (by apply Forall_lookup).
  assert (∀ k X (e : AgE X) cont, c.1 !! k = Some (Vis e cont) →
    allowed X e c.2 ∧ ∀ x s2, responds X e c.2 x s2 → safe (cont x) goes_on s2) as Hv.
  { intros k X e cont H. specialize (Hk _ _ H). rewrite safe_unfold in Hk. by apply Hk. }
  destruct Hstep as [ts s1 k X o cont x s' H He|ts s1 k X o cont x H Ha|ts s1 k r H|
    ts s1 method path body]; cbn [fst snd] in *.
  - destruct (Hv _ _ _ _ H) as [[_ Hok] Hcont]. destruct (Hok _ _ He) as [Hc' Hl].
    split; [split; [done|]|done]. apply Forall_insert; [|apply Hcont; exact He].
    eapply Forall_impl; [exact Hts|]. intros t Ht. exact (safe_later _ _ _ _ Ht Hl).
  - destruct (Hv _ _ _ _ H) as [Hok Hcont]. split; [split; [done|]|done].
    apply Forall_app. split; [apply Forall_insert; [done|by apply (Hcont x)]|].
    destruct o; try (by apply Forall_nil). apply Forall_singleton. by eapply safe_start_renewal.
  - split; [split; [done|]|done]. apply Forall_insert; [done|].
    specialize (Hk _ _ H). rewrite safe_unfold in Hk. destruct (Hk s1 ltac:(done) Hc) as [i Hi].
    by eapply safe_renewal_iter.
  - split; [split; [done|]|done]. apply Forall_app. split; [done|].
    apply Forall_singleton, safe_serve.
Qed.

Lemma reaches_safe c tr c' :
  reaches sf c tr c' → all_safe c → all_safe c' ∧ later c.2 c'.2.
Proof.
  induction 1 as [|tr c1 o c2 Hr IH Hstep]; intros Hc; [done|].
  destruct (IH Hc) as [H1 H2]. destruct (step_safe _ _ _ H1 Hstep) as [H3 H4].
  split; [done|]. by transitivity c1.2.
Qed.

Lemma initial_safe s : consistent s → all_safe (initial sf s).
Proof. intros Hs. split; [done|]. apply Forall_singleton, safe_startup. Qed.

(** C26: a lease keeps its identity for ever.  In every execution, a lease object
    that exists at one moment exists at every later one, with the same
    interface, parent, address, MAC and creation time, whatever the DHCP server
    has answered to renewals and rebindings in between. *)
Theorem lease_identity_permanent s tr c tr' c' l x :
  consistent s → reaches sf (initial sf s) tr c → reaches sf c tr' c' →
  heap c.2 !! l = Some x →
  ∃ y, heap c'.2 !! l = Some y ∧ identity y = identity x.
Proof.
  intros Hs Hr Hr' Hx. destruct (reaches_safe _ _ _ Hr (initial_safe _ Hs)) as [H1 _].
  destruct (reaches_safe _ _ _ Hr' H1) as [_ H2]. by apply H2.
Qed.

(** Goroutine [k] can make its next call now. *)
Definition can_step (k : nat) (c : config) : Prop := ∃ e c', step sf c (Some (k, e)) c'.

Lemma answerable X (o : ExtOp X) s :
  match o with Panic _ => False | _ => True end → ∃ x, answers X o s x.
Proof.
  destruct o; try done; intros _; simpl;
    first [ by exists tt | by exists (Err "") | by exists 0
          | by exists true | by exists None
          | by exists (Err {| nl_msg := ""; nl_notfound := true |})
          | by exists (Err {| os_msg := ""; os_notexist := true |}) ].
Qed.

Lemma allowed_step ts s k X (e : AgE X) cont :
  ts !! k = Some (Vis e cont) → allowed X e s →
  match e with Mem o => ¬ waits X o s | Ext _ => True end → can_step k (ts, s).
Proof.
  intros Hk Ha Hw. destruct e as [o|o].
  - destruct Ha as [[[[x s'] He]|?] _]; [|done]. eexists _, _. by eapply step_mem.
  - destruct (answerable _ o s) as [x Hx]; [by destruct o|]. eexists _, _. by eapply step_ext.
Qed.

Context (Hsf : state_path_ok sf).

Lemma pending_allowed s tr ts s' k X (e : AgE X) cont :
  consistent s → reaches sf (initial sf s) tr (ts, s') → ts !! k = Some (Vis e cont) →
  allowed X e s'.
Proof.
  intros Hs Hr Hk. destruct (reaches_safe _ _ _ Hr (initial_safe _ Hs)) as [[Hc Hts] _].
  simpl in *. rewrite Forall_lookup in Hts. specialize (Hts _ _ Hk). rewrite safe_unfold in Hts.
  by apply Hts.
Qed.

Lemma pending_save s tr ts s' k :
  reaches sf (initial sf s) tr (ts, s') →
  match (ts !! k : option thread) with
  | Some (Vis e _) => save_may sf _ e (saving_of sf tr k)
  | _ => saving_of sf tr k = Outside
  end.
Proof using Hsf.
  intros Hr. pose proof (reaches_keeps sf Outside (save_may sf) (save_call sf) (startup_out sf)
    (serve_out sf Hsf) (renewal_iter_out sf) (start_renewal_out sf) _ _ _ Hr k) as Hkeep.
  cbn [fst] in Hkeep. fold (saving_of sf tr k) in Hkeep.
  destruct (ts !! k) as [[r|X e cont]|]; [done|by destruct Hkeep|done].
Qed.

(** The goroutine that holds the file lock is not waiting for it. *)
Lemma holder_steps s tr ts s' :
  consistent s → saveMu s = false → reaches sf (initial sf s) tr (ts, s') → saveMu s' = true →
  ∃ k, saving_of sf tr k ≠ Outside ∧ can_step k (ts, s').
Proof using Hsf.
  intros Hs Hmu Hr Hlock.
  destruct (fi_holder _ _ _ _ (reaches_file_inv sf ∅ Hsf _ _ _ Hmu Hr) Hlock) as [k Hk].
  exists k. split; [done|]. pose proof (pending_save _ _ _ _ k Hr) as Hmay.
  destruct (ts !! k) as [[r|X e cont]|] eqn:Hkt; [done| |done].
  eapply allowed_step; [done|by eapply pending_allowed|].
  destruct e as [o|o]; [|done]. by destruct o; intros [].
Qed.

(** C5: the agent neither panics nor deadlocks.  Started on a consistent store
    it stays consistent, whatever requests arrive, however goroutines
    interleave and whatever fails outside: no goroutine ever reaches a panic
    (a nil map or a nil pointer), and every goroutine that has not returned can
    make its next call at once, except that one may wait for the file lock, and
    then another goroutine holds it and can go on. *)
Theorem agent_never_stuck s tr ts s' :
  consistent s → saveMu s = false → reaches sf (initial sf s) tr (ts, s') →
  consistent s' ∧
  (∀ k msg cont, ts !! k ≠ Some (Vis (Ext (Panic msg)) cont)) ∧
  (∀ k X (e : AgE X) cont, ts !! k = Some (Vis e cont) →
     can_step k (ts, s') ∨ (saveMu s' = true ∧ ∃ k', k' ≠ k ∧ can_step k' (ts, s'))).
Proof using Hsf.
  intros Hs Hmu Hr. split; [|split].
  - by destruct (reaches_safe _ _ _ Hr (initial_safe _ Hs)) as [[Hc _] _].
  - intros k msg cont Hk. by apply (pending_allowed _ _ _ _ _ _ _ _ Hs Hr) in Hk.
  - intros k X e cont Hk. pose proof (pending_allowed _ _ _ _ _ _ _ _ Hs Hr Hk) as Hall.
    pose proof (pending_save _ _ _ _ k Hr) as Hmay. rewrite Hk in Hmay.
    destruct e as [o|o]; [|left; by eapply allowed_step].
    destruct (saveMu s') eqn:Hlock.
    + destruct (holder_steps _ _ _ _ Hs Hmu Hr Hlock) as (k' & Hk' & Hcan).
      destruct o; try (left; eapply allowed_step; [done|done|by intros []]).
      right. split; [done|]. exists k'. split; [|done]. intros ->. by apply Hk', Hmay.
    + left. eapply allowed_step; [done|done|]. destruct o; try (by intros []).
      simpl. by rewrite Hlock.
Qed.
End executions.
