(* ===== verification/AgentMarks.v ===== *)
(** * Exclusive operations on an interface

    The per-interface marks of the lease store ([AcquireInflight],
    [ReleaseInflight]) make the operations on one interface exclude each other,
    in every interleaving of the agent's goroutines. *)

From S2P Require Import Prelude Effects GoStd Base64 Json Http AgentEnv LeaseJson AgentMem.
From S2P Require Import LeaseStore Garp NetConfig DhcpClient AgentApi Agent AgentThreads AgentFile.
From S2P Require Import AgentSafety.

Local Open Scope Z_scope.

(** What a goroutine has at a moment: the interfaces it has marked as in
    progress, the lease objects it looked up with the interfaces it looked them
    up for, and the link it looked up last, by name. *)
Record Marked := mkMarked {
  mk_held : gset string;
  mk_lease : gmap nat string;
  mk_link : option (string * nat);
}.

Section marks.
Context `{L : AgLib}.

Definition mark_call X (e : AgE X) (g : Marked) : X → Marked :=
  match e with
  | Mem o => match o in MemOp X return X → Marked with
             | OAcquire i => λ ok, if ok then mkMarked ({[i]} ∪ mk_held g) (mk_lease g) (mk_link g) else g
             | ORelease i => λ _, mkMarked (mk_held g ∖ {[i]}) (mk_lease g) (mk_link g)
             | OGet i => λ r, match r with
                              | Some (Some l) => mkMarked (mk_held g) (<[l := i]> (mk_lease g)) (mk_link g)
                              | _ => g
                              end
             | _ => λ _, g
             end
  | Ext o => match o in ExtOp X return X → Marked with
             | LinkByName n => λ r, match r with
                                    | Ok ix => mkMarked (mk_held g) (mk_lease g) (Some (n, ix))
                                    | Err _ => g
                                    end
             | _ => λ _, g
             end
  end.

Definition nothing_marked : Marked := mkMarked ∅ ∅ None.

(** What goroutine [k] has after a trace, and the marks it holds. *)
Definition marked : list (nat * event AgE) → nat → Marked := ghost nothing_marked mark_call.
Definition holds (tr : list (nat * event AgE)) (k : nat) : gset string := mk_held (marked tr k).

(** The link [ix] is that of an interface whose mark is held. *)
Definition own_link (ix : nat) (g : Marked) : Prop :=
  ∃ n, mk_link g = Some (n, ix) ∧ n ∈ mk_held g.

(** A goroutine releases only marks it holds, and creates, raises, deletes or
    configures the link of an interface only while it holds its mark. *)
Definition may X (e : AgE X) (g : Marked) : Prop :=
  match e with
  | Mem (ORelease i) => i ∈ mk_held g
  | Ext (LinkAdd i _ _) | Ext (LinkSetUp i) | Ext (LinkDelNew i) => i ∈ mk_held g
  | Ext (LinkDel ix) | Ext (NeighSet ix _) | Ext (NeighDel ix _) => own_link ix g
  | _ => True
  end.

(** What it relies on: a lease object found under an interface is for it. *)
Definition relies X (e : AgE X) (g : Marked) : X → Prop :=
  match e with
  | Mem o => match o in MemOp X return X → Prop with
             | ORead l => λ x, match mk_lease g !! l with Some i => Interface x = i | None => True end
             | _ => λ _, True
             end
  | Ext _ => λ _, True
  end.

Definition marking : espec AgE Marked :=
  ESpec may (λ X e g x g', relies X e g x ∧ g' = mark_call X e g x).

(** Calls that are fine for a goroutine that holds [h] and keep [h]. *)
Definition within (h : gset string) X (e : AgE X) : Prop :=
  match e with
  | Mem (OAcquire _) | Mem (ORelease _) => False
  | Ext (LinkAdd i _ _) | Ext (LinkSetUp i) | Ext (LinkDelNew i) => i ∈ h
  | Ext (LinkDel _) | Ext (NeighSet _ _) | Ext (NeighDel _ _) => False
  | _ => True
  end.

Lemma within_wp h {A} (p : AgP A) (Q : A → Marked → Prop) g :
  calls (within h) p → mk_held g = h → (∀ a g', mk_held g' = h → Q a g') → wp marking p Q g.
Proof.
  intros Hp Hg HQ. eapply calls_inv with (I := λ g', mk_held g' = h); [exact Hp| |done|by eauto].
  intros X e w He Hw. destruct e as [o|o]; (split; [destruct o; simpl in *; congruence || done|]);
    intros x w' [_ ->]; destruct o; try done; simpl; repeat case_match; done.
Qed.

(** A goroutine that holds exactly [h] when it starts [p] and when it ends. *)
Definition under {A} (h : gset string) (p : AgP A) : Prop :=
  ∀ g, mk_held g = h → wp marking p (λ _ g', mk_held g' = h) g.

Lemma under_bind {A B} h (p : AgP A) (f : A → AgP B) :
  under h p → (∀ a, under h (f a)) → under h (p ≫= f).
Proof.
  intros Hp Hf g Hg. rewrite wp_bind. eapply wp_mono; [by apply Hp|]. intros a g'. apply Hf.
Qed.

Lemma under_within {A} h (p : AgP A) : calls (within h) p → under h p.
Proof. intros Hp g Hg. by eapply within_wp. Qed.

Lemma under_ret {A} h (a : A) : under h (mret a).
Proof. by intros g Hg. Qed.

(** A lookup of the link [i] by a goroutine that holds its mark: whatever it
    does next may use the link's index. *)
Lemma under_lookup {A} h i (f : result nlerr nat → AgP A) :
  i ∈ h → (∀ e, under h (f (Err e))) →
  (∀ ix g, mk_held g = h → mk_link g = Some (i, ix) → wp marking (f (Ok ix)) (λ _ g', mk_held g' = h) g) →
  under h (r ← ext (LinkByName i); f r).
Proof.
  intros Hi He Hok g Hg. unfold ext. rewrite wp_bind, wp_trigger. split; [done|].
  intros [ix|e] g' [_ ->]; [by apply Hok|by apply He].
Qed.

(** A call on that link. *)
Lemma wp_own {X A} (o : ExtOp X) (f : X → AgP A) Q g :
  may X (Ext o) g → (∀ x, mark_call X (Ext o) g x = g) → (∀ x, wp marking (f x) Q g) →
  wp marking (x ← ext o; f x) Q g.
Proof.
  intros Hm Hg Hf. unfold ext. rewrite wp_bind, wp_trigger. split; [done|].
  intros x g' [_ ->]. rewrite Hg. apply Hf.
Qed.
End marks.

(** Walk through a program. *)
Ltac prog := unfold mem, ext in *; solve_pcalls.

(** Walk through the calls on a link that was looked up. *)
Ltac on_link :=
  repeat first
    [ rewrite wp_ret; done
    | apply wp_own; [first [exact I | eexists; split; [eassumption|set_solver]]|done|intros ?]
    | case_match ].

Section within.
Context `{L : AgLib} (sf : string) (h : gset string).

Abbreviation ok := (calls (within h)).

Lemma panic_within {A} msg : ok (panic msg : AgP A).
Proof. by split. Qed.
#[local] Hint Resolve panic_within : pcalls.
Lemma save_within : ok (save sf).
Proof. unfold save. prog. Qed.
#[local] Hint Resolve save_within : pcalls.
Lemma Set_within l : ok (Set_ sf l).
Proof. unfold Set_. prog. Qed.
Lemma Delete_within i : ok (Delete sf i).
Proof. unfold Delete. prog. Qed.
Lemma with_client_within {A} i m (f : nat → AgP (result string A)) :
  (∀ c, ok (f c)) → ok (with_client i m f).
Proof. intros Hf. unfold with_client. prog. Qed.
Lemma Renew_within i m a b c d : ok (RenewLease i m a b c d).
Proof. apply with_client_within. intros ?. unfold renew_saved, renew_manual. prog. Qed.
Lemma Acquire_within i m : ok (AcquireLease i m).
Proof. apply with_client_within. intros ?. unfold request_lease. prog. Qed.
Lemma Rebind_within i m a : ok (RebindLease i m a).
Proof. apply with_client_within. intros ?. unfold request_lease. prog. Qed.
Lemma Release_within i m a b : ok (ReleaseLease i m a b).
Proof. apply with_client_within. intros ?. prog. Qed.
Lemma send_loop_within fd ix p c i n : ok (send_loop fd ix p c i n).
Proof. revert i. induction n; intros i; simpl; [done|]. prog. Qed.
#[local] Hint Resolve send_loop_within : pcalls.
Lemma Garp_within i ip mac n : ok (SendGratuitousARP i ip mac n).
Proof. unfold SendGratuitousARP. prog. Qed.
Lemma Create_within i p mac : i ∈ h → ok (CreateMacvlan i p mac).
Proof.
  intros Hi. unfold CreateMacvlan.
  repeat first [ apply calls_ret | apply calls_bind; [|intros ?] | by apply calls_trigger
               | case_match ].
Qed.
#[local] Hint Resolve Set_within Delete_within Renew_within Acquire_within Rebind_within
  Release_within Garp_within : pcalls.
Lemma startRenewalLoop_within l : ok (startRenewalLoop l).
Proof. unfold startRenewalLoop, read. prog. Qed.
Lemma renewLease_within l : ok (renewLease sf l).
Proof. unfold renewLease, read, write. prog. Qed.
Lemma rebindLease_within l : ok (rebindLease sf l).
Proof. unfold rebindLease, read, write. prog. Qed.
#[local] Hint Resolve startRenewalLoop_within renewLease_within rebindLease_within : pcalls.
Lemma renewal_iter_within r : ok (renewal_iter sf r).
Proof. unfold renewal_iter, on_success, on_failure, read, write. prog. Qed.
Lemma start_renewal_within i l c : ok (start_renewal i l c).
Proof. unfold start_renewal, read. prog. Qed.
Lemma verify_lease_within l : ok (verify_lease sf l).
Proof. unfold verify_lease, VerifyInterfaceExists, read, write. prog. Qed.
#[local] Hint Resolve verify_lease_within : pcalls.
Lemma verify_all_within l : ok (verify_all sf l).
Proof. induction l as [|p l IH]; cbn [verify_all]; unfold deref_ptr; prog. Qed.
#[local] Hint Resolve verify_all_within : pcalls.
Lemma Start_within : ok (Start sf).
Proof. unfold Start, verifyLeases, List_. prog. Qed.
Lemma read_all_within l : ok (read_all l).
Proof. induction l as [|p l IH]; cbn [read_all]; unfold deref_ptr, read; prog. Qed.
#[local] Hint Resolve read_all_within : pcalls.
Lemma list_within : ok handleListLeases.
Proof. unfold handleListLeases, List_. prog. Qed.
Lemma getLease_within i : ok (handleGetLease i).
Proof. unfold handleGetLease, Get, read, deref_ptr. prog. Qed.
Lemma health_within : ok handleHealth.
Proof. unfold handleHealth. prog. Qed.
End within.

(** ** The programs that work on links *)

Section links.
Context `{L : AgLib} (sf : string) (h : gset string).

Lemma Setup_under i ip mask : i ∈ h → under h (SetupInterface i ip mask).
Proof.
  intros Hi. unfold SetupInterface. apply under_lookup; [done|intros; apply under_ret|].
  intros ix g Hg Hl. on_link.
Qed.

Lemma Cleanup_under i ip : i ∈ h → under h (CleanupInterface i ip).
Proof.
  intros Hi. unfold CleanupInterface. apply under_lookup; [done|intros; apply under_ret|].
  intros ix g Hg Hl. on_link.
Qed.

Lemma DeleteMacvlan_under i : i ∈ h → under h (DeleteMacvlan i).
Proof.
  intros Hi. unfold DeleteMacvlan. apply under_lookup; [done|intros; apply under_ret|].
  intros ix g Hg Hl. on_link.
Qed.

Lemma allocate_on_under i w mac : i ∈ h → under h (allocate_on sf i w mac).
Proof.
  intros Hi. unfold allocate_on. apply under_bind; [apply under_within, Acquire_within|].
  intros [info|e]; [|apply under_ret].
  apply under_bind; [apply under_within, Garp_within|]. intros [[]|e]; [|apply under_ret].
  apply under_bind; [by apply Setup_under|]. intros [[]|e]; [|apply under_ret].
  apply under_within. pose proof Set_within. pose proof startRenewalLoop_within. prog.
Qed.

Lemma allocate_exclusive_under i w mac : i ∈ h → under h (allocate_exclusive sf i w mac).
Proof.
  intros Hi. unfold allocate_exclusive, Get. apply under_bind; [apply under_within; prog|].
  intros [p|]; [apply under_ret|]. apply under_bind.
  - unfold allocateLease. apply under_bind; [by apply under_within, Create_within|].
    intros [[]|e]; [|apply under_ret]. apply under_bind; [by apply allocate_on_under|].
    intros [l|e]; [apply under_ret|]. apply under_bind; [by apply DeleteMacvlan_under|].
    intros. apply under_ret.
  - intros r. apply under_within. unfold read. prog.
Qed.

(** The release of a lease that was found under [i] works on the link [i]. *)
Lemma releaseLease_under i l g :
  i ∈ h → mk_held g = h → mk_lease g !! l = Some i →
  wp marking (releaseLease sf l) (λ _ g', mk_held g' = h) g.
Proof.
  intros Hi Hg Hl. unfold releaseLease, read, mem. rewrite wp_bind, wp_trigger.
  split; [done|]. intros x g' [Hx ->]. simpl in Hx. rewrite Hl in Hx. rewrite Hx. revert g Hg Hl Hx.
  intros g Hg _ _. revert g Hg. apply under_bind; [apply under_within; unfold stopRenewalLoop; prog|].
  intros _. apply under_bind; [apply under_within; unfold read; prog|]. intros y.
  apply under_bind; [apply under_within, Release_within|]. intros _.
  apply under_bind; [by apply Cleanup_under|]. intros _.
  apply under_bind; [by apply DeleteMacvlan_under|]. intros _.
  apply under_bind; [apply under_within, Delete_within|]. intros. apply under_ret.
Qed.

Lemma release_exclusive_under i : i ∈ h → under h (release_exclusive sf i).
Proof.
  intros Hi g Hg. unfold release_exclusive, Get, mem. rewrite wp_bind, wp_trigger. split; [done|].
  intros [[l|]|] g' [_ ->]; [| |done].
  - unfold deref_ptr. rewrite wp_bind, wp_ret, wp_bind.
    eapply wp_mono; [apply (releaseLease_under i); [done|done|by simpl; rewrite lookup_insert_eq]|].
    intros r g' Hg'. by destruct r.
  - unfold deref_ptr. rewrite wp_bind. split; [done|]. by intros [].
Qed.
End links.

Section exclusion.
Context `{L : AgLib} (sf : string).

(** A goroutine that starts and ends without marks. *)
Abbreviation clean := (under ∅).

(** Mark, work, release. *)
Lemma clean_marked i (body : AgP HttpResponse) (busy : HttpResponse) :
  under {[i]} body →
  clean (ok ← AcquireInflight i;
         if (ok : bool) then resp ← body; _ ← ReleaseInflight i; mret resp else mret busy).
Proof.
  intros Hb g Hg. unfold AcquireInflight, ReleaseInflight, mem.
  rewrite wp_bind, wp_trigger. split; [done|]. intros [] g' [_ ->]; [|done]. cbn [mark_call].
  rewrite Hg, union_empty_r_L, wp_bind. eapply wp_mono; [by apply Hb|]. intros resp g' Hg'.
  rewrite wp_bind, wp_trigger. split; [simpl; set_solver|]. intros [] g'' [_ ->]. cbn [mark_call].
  rewrite wp_ret. simpl. set_solver.
Qed.

Lemma route_clean method path body : clean (route sf method path body).
Proof.
  assert (∀ i, clean (handleReleaseLease sf i)) as Hrel.
  { intros i. unfold handleReleaseLease. apply clean_marked, release_exclusive_under. set_solver. }
  assert (clean (handleAllocateLease sf body)) as Hall.
  { unfold handleAllocateLease. destruct (Decode _ _ _) as [req []]; [|apply under_ret].
    case_decide; [apply under_ret|]. case_match; [|apply under_ret].
    apply clean_marked, allocate_exclusive_under. set_solver. }
  pose proof (under_within _ _ (list_within ∅)). pose proof (under_within _ _ (health_within ∅)).
  assert (∀ i, clean (handleGetLease i)) by (intros i; apply under_within, getLease_within).
  unfold route. repeat case_match; first [apply under_ret | auto].
Qed.

Lemma serve_clean method path body : clean (serve sf method path body).
Proof.
  unfold serve. apply under_bind; [apply route_clean|]. intros resp. apply under_within.
  unfold ext. prog.
Qed.

Lemma clean_startup : clean (startup sf).
Proof. unfold startup. apply under_within. apply calls_bind; [apply Start_within|done]. Qed.
Lemma clean_iter r : clean (renewal_iter sf r).
Proof. apply under_within, renewal_iter_within. Qed.
Lemma clean_start i l c : clean (start_renewal i l c).
Proof. apply under_within, start_renewal_within. Qed.

Lemma alloc_entries_inflight m s r s' :
  alloc_entries m s = (r, s') → inflight s' = inflight s.
Proof.
  revert s r s'. induction m as [|[k [l|]] m IH]; intros s r s' H; simplify_eq/=; [done|..];
    destruct (alloc_entries m _) as [r1 s1] eqn:E; simplify_eq/=; by apply IH in E.
Qed.

(** Only the two sections on the marks change them. *)
Lemma exec_mem_inflight X (o : MemOp X) s x s' :
  exec_mem X o s = Some (x, s') →
  match o with OAcquire _ | ORelease _ => True | _ => inflight s' = inflight s end.
Proof.
  destruct o; simpl; unfold unless_mu, put_section, load_section, mark_section, context_section,
    stop_section; intros H; repeat case_match; simplify_eq/=; try done.
  - by eapply alloc_entries_inflight.
  - destruct (heap s !! l); by simplify_eq/=.
Qed.

(** What the sections on the marks do, whoever runs them. *)
Lemma exec_marks X (o : MemOp X) s x s' (g : Marked) :
  exec_mem X o s = Some (x, s') → may X (Mem o) g →
  (∀ i, i ∈ mk_held g → is_Some (inflight s !! i)) →
  let h' := mk_held (mark_call X (Mem o) g x) in
  (∀ i, i ∈ h' → i ∉ mk_held g → inflight s !! i = None) ∧
  (∀ i, is_Some (inflight s' !! i) ↔ (i ∈ h') ∨ ((i ∉ mk_held g) ∧ is_Some (inflight s !! i))).
Proof.
  intros He Hmay Hh. pose proof (exec_mem_inflight X o s x s' He) as Hfr.
  assert (∀ g', mk_held g' = mk_held g → inflight s' = inflight s →
    let h' := mk_held g' in
    (∀ i, i ∈ h' → i ∉ mk_held g → inflight s !! i = None) ∧
    (∀ i, is_Some (inflight s' !! i) ↔ (i ∈ h') ∨ ((i ∉ mk_held g) ∧ is_Some (inflight s !! i)))) as Hsame.
  { intros g' -> ->. split; [by intros|]. intros i0. destruct (decide (i0 ∈ mk_held g)); naive_solver. }
  destruct o; try (apply Hsame; [simpl; repeat case_match; done|done]).
  - simpl in He. injection He as He. unfold acquire_section in He.
    destruct (inflight s !! iface) eqn:Hi; simplify_eq/=; [by apply Hsame|].
    split; [set_solver|]. intros i0. destruct (decide (i0 = iface)) as [->|].
    + rewrite lookup_insert_eq. set_solver.
    + rewrite lookup_insert_ne by done. destruct (decide (i0 ∈ mk_held g)); set_solver.
  - simpl in *. simplify_eq/=. split; [set_solver|]. intros i0.
    destruct (decide (i0 = iface)) as [->|].
    + rewrite lookup_delete_eq. split; [by intros []|]. set_solver.
    + rewrite lookup_delete_ne by done. destruct (decide (i0 ∈ mk_held g)); set_solver.
Qed.

Lemma marked_snoc tr k X (e : AgE X) x k0 :
  marked (tr ++ [(k, Ev e x)]) k0 = if decide (k = k0) then mark_call X e (marked tr k0) x
                                    else marked tr k0.
Proof. unfold marked. by rewrite ghost_snoc. Qed.

(** No mark is held twice, the store's marks are exactly those held, and the
    lease objects found are for the interfaces they were found under. *)
Record marks_inv (tr : list (nat * event AgE)) (s : Ag) : Prop := {
  mi_once : ∀ k k' i, i ∈ holds tr k → i ∈ holds tr k' → k = k';
  mi_store : ∀ i, is_Some (inflight s !! i) ↔ ∃ k, i ∈ holds tr k;
  mi_lease : ∀ k l i, mk_lease (marked tr k) !! l = Some i → known l i s;
}.

(** A lookup under the invariant of the store. *)
Lemma lease_found tr s1 k X (o : MemOp X) x s2 :
  (∀ k l i, mk_lease (marked tr k) !! l = Some i → known l i s1) →
  consistent s1 → later s1 s2 → exec_mem X o s1 = Some (x, s2) →
  ∀ k0 l i, mk_lease (marked (tr ++ [(k, Ev (Mem o) x)]) k0) !! l = Some i → known l i s2.
Proof.
  intros Hk Hc Hl He k0 l i. rewrite marked_snoc. case_decide as E; [|eauto using known_later].
  assert (∀ g, mk_lease g = mk_lease (marked tr k0) → mk_lease g !! l = Some i → known l i s2) as Hsame.
  { intros g ->. eauto using known_later. }
  destruct o; try (apply Hsame; simpl; repeat case_match; done).
  pose proof (finds_ok _ (OGet iface) _ _ _ I Hc He s2 ltac:(done)) as Hf. simpl in *.
  destruct x as [[l'|]|]; [|by apply Hsame..]. destruct Hf as (l1 & [= <-] & Hf). simpl.
  intros [[<- <-]|[_ Hm]]%lookup_insert_Some; [done|eauto using known_later].
Qed.

Lemma marks_inv_mem tr s1 k X (o : MemOp X) x s2 :
  marks_inv tr s1 → consistent s1 → later s1 s2 → may X (Mem o) (marked tr k) →
  exec_mem X o s1 = Some (x, s2) → marks_inv (tr ++ [(k, Ev (Mem o) x)]) s2.
Proof.
  intros [Hd Hs Hls] Hc Hl Hmay He.
  destruct (exec_marks X o s1 x s2 (marked tr k) He Hmay) as [Hnew Hst].
  { intros i Hi. apply Hs. by exists k. }
  set (h' := mk_held (mark_call X (Mem o) (marked tr k) x)) in *.
  assert (∀ k0, holds (tr ++ [(k, Ev (Mem o) x)]) k0 = if decide (k = k0) then h' else holds tr k0) as Hsn.
  { intros k0. unfold holds. rewrite marked_snoc. by case_decide; subst. }
  assert (∀ k0 i, k0 ≠ k → i ∈ holds tr k0 → i ∉ h') as Hfresh.
  { intros k0 i Hne Hi Hi'. destruct (decide (i ∈ holds tr k)); [naive_solver|].
    assert (is_Some (inflight s1 !! i)) as [c Hch] by (apply Hs; eauto).
    rewrite Hnew in Hch; done. }
  split; [| |by eapply lease_found].
  - intros k1 k2 i. rewrite !Hsn. repeat case_decide; subst; naive_solver.
  - intros i. rewrite Hst, Hs. split.
    + intros [Hi|[Hn [k0 Hi]]].
      * exists k. by rewrite Hsn, decide_True.
      * exists k0. rewrite Hsn, decide_False; [done|]. intros ->. done.
    + intros [k0 Hi]. rewrite Hsn in Hi. case_decide as E; [by left|].
      right. split; [|by eauto]. intros Hi'. by apply E, (Hd k k0 i).
Qed.

Lemma marks_inv_ext tr s1 k X (o : ExtOp X) x :
  marks_inv tr s1 → marks_inv (tr ++ [(k, Ev (Ext o) x)]) s1.
Proof.
  assert (∀ k0, holds (tr ++ [(k, Ev (Ext o) x)]) k0 = holds tr k0 ∧
    mk_lease (marked (tr ++ [(k, Ev (Ext o) x)]) k0) = mk_lease (marked tr k0)) as E.
  { intros k0. unfold holds. rewrite marked_snoc. case_decide; [|done].
    destruct o; try done. simpl. by case_match. }
  intros [Hd Hs Hls]. split.
  - intros k1 k2 i. rewrite !(proj1 (E _)). apply Hd.
  - intros i. rewrite Hs. by split; intros [k0 Hk]; exists k0; rewrite ?(proj1 (E _)) in *.
  - intros k0 l i. rewrite (proj2 (E k0)). apply Hls.
Qed.

(** A read of a lease object is answered as relied on. *)
Lemma relies_mem tr s1 k X (o : MemOp X) x s2 :
  marks_inv tr s1 → exec_mem X o s1 = Some (x, s2) → relies X (Mem o) (marked tr k) x.
Proof.
  intros Hi He. destruct o; try done. simpl in *.
  destruct (mk_lease (marked tr k) !! l) as [i|] eqn:E; [|done].
  destruct (mi_lease _ _ Hi _ _ _ E) as (y & Hy & Hyi). rewrite Hy in He. by simplify_eq/=.
Qed.

(** Every goroutine keeps to its protocol, with the marks it has. *)
Definition all_marked (tr : list (nat * event AgE)) (ts : list thread) : Prop :=
  ∀ k, match ts !! k with
       | Some t => wp marking t (λ _ g, mk_held g = ∅) (marked tr k)
       | None => marked tr k = nothing_marked
       end.

Lemma all_marked_app tr ts (ts' : list thread) :
  all_marked tr ts → Forall clean ts' → all_marked tr (ts ++ ts').
Proof.
  intros Hk Hn k. pose proof (Hk k) as Hkk. rewrite lookup_app.
  destruct (ts !! k) as [t|]; [done|].
  destruct (ts' !! (k - length ts)%nat) as [t|] eqn:Ht; [|done].
  rewrite Hkk. rewrite Forall_lookup in Hn. by eapply Hn.
Qed.

Lemma all_marked_call tr ts k X (e : AgE X) cont x :
  ts !! k = Some (Vis e cont) → all_marked tr ts → relies X e (marked tr k) x →
  all_marked (tr ++ [(k, Ev e x)]) (<[k := cont x]> ts).
Proof.
  intros Hts Hk Hr k0. pose proof (Hk k) as Hkk. rewrite Hts in Hkk. destruct Hkk as [Hpre Hcont].
  rewrite marked_snoc. destruct (decide (k = k0)) as [<-|Hne].
  - rewrite list_lookup_insert_eq by (by eapply lookup_lt_Some). by apply Hcont.
  - rewrite list_lookup_insert_ne by done. apply Hk.
Qed.

Lemma all_marked_pending tr ts k X (e : AgE X) cont :
  all_marked tr ts → ts !! k = Some (Vis e cont) → may X e (marked tr k).
Proof. intros Hk Ht. specialize (Hk k). rewrite Ht in Hk. apply Hk. Qed.

Lemma reaches_marked s tr c :
  consistent s → inflight s = ∅ → reaches sf (initial sf s) tr c →
  all_marked tr c.1 ∧ marks_inv tr c.2.
Proof.
  intros Hs Hi Hr. induction Hr as [|tr c1 o c2 Hr [Hk Hm] Hstep].
  { split; [intros [|k]; [by apply clean_startup|done]|]. split; [set_solver| |done].
    intros i. simpl. rewrite Hi, lookup_empty. split; [by intros []|]. by intros (k & Hk). }
  destruct (reaches_safe _ _ _ _ Hr (initial_safe sf s Hs)) as [Hsafe _].
  destruct (step_safe _ _ _ _ Hsafe Hstep) as [_ Hl]. destruct Hsafe as [Hc _].
  destruct Hstep as [ts s1 k X o cont x s' Ht He|ts s1 k X o cont x Ht Ha|ts s1 k r Ht|
    ts s1 method path body]; cbn [fst snd] in *; rewrite ?app_nil_r.
  - split; [|eapply marks_inv_mem; eauto using all_marked_pending].
    eapply all_marked_call; eauto using relies_mem.
  - split; [|by apply marks_inv_ext]. apply all_marked_app; [by eapply all_marked_call|].
    destruct o; first [by apply Forall_nil|apply Forall_singleton, clean_start].
  - split; [|done]. intros k0. destruct (decide (k = k0)) as [<-|Hne].
    + rewrite list_lookup_insert_eq by (by eapply lookup_lt_Some).
      specialize (Hk k). rewrite Ht in Hk. by apply clean_iter.
    + rewrite list_lookup_insert_ne by done. apply Hk.
  - split; [|done]. apply all_marked_app; [done|]. apply Forall_singleton, serve_clean.
Qed.

(** C6: operations on one interface exclude each other.  In every execution of
    the agent on a consistent store without marks, whatever requests arrive and
    however the goroutines interleave: at most one goroutine holds the mark of
    an interface, the store's marks are exactly those held, a goroutine that
    has finished holds none, and a goroutine creates, raises, deletes or
    configures the link of an interface, in an allocation, in its clean-up and
    in a release, only while it holds the mark of that interface. *)
Theorem interface_operations_exclusive s tr ts s' :
  consistent s → inflight s = ∅ → reaches sf (initial sf s) tr (ts, s') →
  (∀ k k' i, i ∈ holds tr k → i ∈ holds tr k' → k = k') ∧
  (∀ i, is_Some (inflight s' !! i) ↔ ∃ k, i ∈ holds tr k) ∧
  (∀ k r, ts !! k = Some (Ret r) → holds tr k = ∅) ∧
  (∀ k X (e : AgE X) cont, ts !! k = Some (Vis e cont) → may X e (marked tr k)).
Proof.
  intros Hc Hs Hr. destruct (reaches_marked _ _ _ Hc Hs Hr) as [Hk [Hd Hst _]].
  split; [done|]. split; [done|]. split; [|eauto using all_marked_pending].
  intros k r Ht. specialize (Hk k). cbn [fst] in Hk. by rewrite Ht in Hk.
Qed.
End exclusion.
