(* ===== verification/AgentRestart.v ===== *)
(** * Restarting the agent

    [New] on the file the last [save] left behind gives a consistent store with
    the leases that were saved. *)

From stdpp Require Import sorting.
From S2P Require Import Prelude Effects GoStd Base64 Json Http AgentEnv LeaseJson AgentMem.
From S2P Require Import LeaseStore Garp NetConfig DhcpClient AgentApi Agent AgentThreads AgentFile.
From S2P Require Import AgentSafety.

Local Open Scope Z_scope.

(** The lease stored for an interface. *)
Definition lookup_lease (i : string) (s : Ag) : option Lease :=
  m ← leases s; p ← m !! i; l ← p; heap s !! l.

Definition fresh (s : Ag) : Prop := ∀ l, is_Some (heap s !! l) → (l < next s)%nat.

(** The object the decoder allocates for a lease. *)
Definition alloc_lease (x : Lease) (s : Ag) : Ag :=
  set_next (S (next s)) (set_heap (<[next s := x]> (heap s)) s).

Lemma alloc_lease_fresh x s :
  fresh s → fresh (alloc_lease x s) ∧ heap s ⊆ heap (alloc_lease x s) ∧
            heap (alloc_lease x s) !! next s = Some x.
Proof.
  intros Hf. simpl. rewrite lookup_insert_eq. split_and!; [|apply insert_subseteq|done].
  - intros l. simpl. destruct (decide (l = next s)) as [->|Hne]; [lia|].
    rewrite lookup_insert_ne by done. intros Hl. specialize (Hf l Hl). lia.
  - destruct (heap s !! next s) eqn:E; [|done]. specialize (Hf (next s) ltac:(by eauto)). lia.
Qed.

Lemma alloc_entries_ok (m : list (string * option Lease)) s r s' :
  NoDup m.*1 → fresh s → alloc_entries m s = (r, s') →
  fresh s' ∧ heap s ⊆ heap s' ∧ mu s' = mu s ∧ saveMu s' = saveMu s ∧
  (∀ k, k ∉ m.*1 → r !! k = None) ∧
  (∀ k x, (k, Some x) ∈ m → ∃ l, r !! k = Some (Some l) ∧ heap s' !! l = Some x) ∧
  (∀ k, (k, None) ∈ m → r !! k = Some None).
Proof.
  revert s r s'. induction m as [|[k o] m IH]; intros s r s' Hnd Hf H.
  { simplify_eq/=. split_and!; set_solver. }
  apply NoDup_cons in Hnd as [Hk Hnd]. cbn [alloc_entries] in H.
  set (s1 := match o with Some x => alloc_lease x s | None => s end).
  assert (fresh s1 ∧ heap s ⊆ heap s1 ∧ mu s1 = mu s ∧ saveMu s1 = saveMu s) as (Hf1 & Hh1 & Hm1 & Hv1).
  { destruct o as [x|]; [|done]. destruct (alloc_lease_fresh x s Hf) as (? & ? & ?). done. }
  destruct (alloc_entries m s1) as [r1 s2] eqn:E.
  assert (r1 !! k = None ∧ s' = s2 ∧ r = <[k := (λ _, next s) <$> o]> r1) as (Hr1 & -> & ->).
  { destruct (IH _ _ _ Hnd Hf1 E) as (_ & _ & _ & _ & Hno & _). specialize (Hno k Hk).
    destruct o as [x|]; simpl in H; unfold s1, alloc_lease in E; rewrite E in H;
      rewrite Hno in H; by simplify_eq. }
  destruct (IH _ _ _ Hnd Hf1 E) as (Hf2 & Hh2 & Hm2 & Hv2 & Hno & Hsome & Hnone).
  split_and!; [done|by etransitivity|congruence|congruence|..].
  - intros k0 Hk0. rewrite lookup_insert_ne by set_solver. apply Hno. set_solver.
  - intros k0 x [Heq|Hin]%elem_of_cons.
    + simplify_eq. exists (next s). rewrite lookup_insert_eq. split; [done|].
      eapply lookup_weaken; [|exact Hh2]. by destruct (alloc_lease_fresh x s Hf) as (? & ? & ?).
    + rewrite lookup_insert_ne; [by apply Hsome|]. intros ->. apply Hk, list_elem_of_fmap.
      by exists (k0, Some x).
  - intros k0 [Heq|Hin]%elem_of_cons.
    + simplify_eq. by rewrite lookup_insert_eq.
    + rewrite lookup_insert_ne; [by apply Hnone|]. intros ->. apply Hk, list_elem_of_fmap.
      by exists (k0, None).
Qed.

Lemma lookup_lease_stored s i l x m :
  leases s = Some m → m !! i = Some (Some l) → heap s !! l = Some x → lookup_lease i s = Some x.
Proof. intros Hm Hi Hx. unfold lookup_lease. rewrite Hm. simpl. rewrite Hi. simpl. done. Qed.

(** The entries of the document of a consistent store. *)
Lemma snapshot_entries s :
  consistent s →
  ∃ m, snapshot s = Some m ∧ NoDup m.*1 ∧ (∀ k, (k, None) ∉ m) ∧
       (∀ k x, (k, Some x) ∈ m ↔ lookup_lease k s = Some x) ∧
       (∀ k x, (k, Some x) ∈ m → Interface x = k).
Proof.
  intros [_ _ (m & Hm & Hc)]. unfold snapshot. rewrite Hm. simpl.
  assert (∀ k o, (k, o) ∈ map (deref (heap s)) (map_to_list m) →
    ∃ l x, m !! k = Some (Some l) ∧ heap s !! l = Some x ∧ o = Some x ∧ Interface x = k) as Hin.
  { intros k o ([k' p] & Heq & Hp)%list_elem_of_fmap. apply elem_of_map_to_list in Hp.
    destruct (Hc _ _ Hp) as (l & -> & x & Hx & Hi). unfold deref in Heq. simplify_eq/=.
    exists l, x. by rewrite Hx. }
  eexists. split; [done|]. setoid_rewrite (merge_sort_Permutation entry_le). split_and!.
  - rewrite <-list_fmap_compose. apply NoDup_fst_map_to_list.
  - intros k Hk. destruct (Hin _ _ Hk) as (l & x & _ & _ & [=] & _).
  - intros k x. split.
    + intros Hk. destruct (Hin _ _ Hk) as (l & y & Hl & Hx & [= ->] & _).
      by eapply lookup_lease_stored.
    + unfold lookup_lease. rewrite Hm. simpl. destruct (m !! k) as [[l|]|] eqn:Hk; simpl; [|done..].
      intros Hx. apply list_elem_of_fmap. exists (k, Some l). unfold deref. simpl. rewrite Hx.
      split; [done|]. by apply elem_of_map_to_list.
  - intros k x Hk. destruct (Hin _ _ Hk) as (l & y & _ & _ & [= ->] & Hi). done.
Qed.

(** Loading such entries into an empty store. *)
Lemma load_entries (m : list (string * option Lease)) :
  NoDup m.*1 → (∀ k, (k, None) ∉ m) → (∀ k x, (k, Some x) ∈ m → Interface x = k) →
  let s' := load_section (Some m) empty_store in
  consistent s' ∧ saveMu s' = false ∧ ∀ k x, lookup_lease k s' = Some x ↔ (k, Some x) ∈ m.
Proof.
  intros Hnd Hnone Hint. unfold load_section.
  destruct (alloc_entries m empty_store) as [r s'] eqn:E.
  destruct (alloc_entries_ok m empty_store r s') as (Hf & _ & Hmu & Hsv & Hno & Hsome & _);
    [done|by intros l []|done|].
  assert (∀ k p, r !! k = Some p → ∃ l x, p = Some l ∧ heap s' !! l = Some x ∧ (k, Some x) ∈ m) as Hr.
  { intros k p Hp. destruct (decide (k ∈ m.*1)) as [Hk|Hk]; [|by rewrite Hno in Hp].
    apply list_elem_of_fmap in Hk as ([k' [x|]] & -> & Hin); [|by apply Hnone in Hin].
    destruct (Hsome _ _ Hin) as (l & Hl & Hx). simpl in Hp. exists l, x. split; [congruence|done]. }
  split_and!; [|done|].
  - split; [done|done|]. exists r. split; [done|]. intros i p Hp.
    destruct (Hr i p Hp) as (l & x & -> & Hx & Hin). exists l. split; [done|]. exists x. eauto.
  - intros k x. split.
    + unfold lookup_lease. simpl. destruct (r !! k) as [p|] eqn:Hk; [|done]. simpl.
      destruct (Hr k p Hk) as (l & y & -> & Hy & Hin). simpl. rewrite Hy. intros [= <-]. done.
    + intros Hin. destruct (Hsome _ _ Hin) as (l & Hl & Hx). by eapply lookup_lease_stored.
Qed.

Section restart.
Context `{L : AgLib} {LL : AgLaws L} (sf : string).

(** A disk on which the state file holds [c]; sections run alone. *)
Definition disk_law (c : content) : espec AgE Ag :=
  ESpec (λ X e s, match e with Mem o => is_Some (exec_mem X o s) | Ext _ => True end)
        (λ X e s x s', match e with
                       | Mem o => exec_mem X o s = Some (x, s')
                       | Ext o => s' = s ∧
                           match o in ExtOp X return X → Prop with
                           | ReadFile p => λ r, p = sf → r = Ok c
                           | _ => λ _, True
                           end x
                       end).

(** C17: a restart brings the leases back.  When the state file holds the
    document [save] marshals from a consistent store whose leases are valid,
    the agent that starts on it fails only if the state directory cannot be
    created; otherwise its store is consistent and holds for every interface
    exactly the lease that was saved, up to the form of the IPv4 addresses. *)
Theorem restart_restores_leases s doc stateDir :
  consistent s → (∀ i x, lookup_lease i s = Some x → lease_ok x) →
  marshal_section s = Ok doc →
  wp (disk_law (JsonDoc (Some doc))) (New sf stateDir) (λ r s',
    match r with
    | Ok _ => consistent s' ∧ saveMu s' = false ∧
              ∀ i, lookup_lease i s' = norm_Lease <$> lookup_lease i s
    | Err e => ∃ e', e = "failed to create lease store: failed to create state directory: " +:+ e'
    end) empty_store.
Proof using LL.
  intros Hc Hok Hdoc. destruct (snapshot_entries _ Hc) as (m & Hm & Hnd & Hnone & Hlk & Hint).
  unfold marshal_section in Hdoc. rewrite Hm in Hdoc.
  destruct (enc_leases (Some m)) as [j|] eqn:Hj; simplify_eq.
  assert (dec_leases (Some doc) = Some (Some (map (λ '(k, o), (k, norm_Lease <$> o)) m))) as Hdec.
  { apply dec_enc_leases; [|done]. intros k l Hin. by apply (Hok k), Hlk. }
  set (m' := map _ m) in Hdec.
  assert (∀ k o, (k, o) ∈ m' ↔ ∃ o', o = norm_Lease <$> o' ∧ (k, o') ∈ m) as Hin.
  { intros k o. unfold m'. rewrite list_elem_of_fmap. split.
    - intros ([k' o'] & [= -> ->] & H). eauto.
    - intros (o' & -> & H). by exists (k, o'). }
  destruct (load_entries m') as (Hc' & Hsv & Hlk').
  { unfold m'. rewrite <-list_fmap_compose. erewrite list_fmap_ext; [exact Hnd|].
    by intros _ [k o] _. }
  { intros k (o' & Ho & H)%Hin. destruct o'; [done|]. by apply (Hnone k). }
  { intros k x (o' & Ho & H)%Hin. destruct o' as [y|]; simplify_eq/=. by apply Hint. }
  unfold New, NewStore, load. rewrite !wp_bind. apply wp_trigger. split; [done|].
  intros r s1 [-> _]. destruct r as [[]|e]; [|by eexists].
  rewrite !wp_bind. apply wp_trigger. split; [done|]. intros r s1 [-> Hr].
  rewrite (Hr eq_refl). cbn [as_json]. rewrite Hdec, wp_bind. apply wp_trigger. split; [by eexists|].
  intros [] s1 [= <-]. rewrite !wp_ret. split; [done|]. split; [done|]. intros i.
  apply option_eq. intros x. rewrite (Hlk' i x), Hin. split.
  - intros ([y|] & [= ->] & H). by rewrite (proj1 (Hlk i y) H).
  - destruct (lookup_lease i s) as [y|] eqn:Hy; [|done]. intros [= <-].
    exists (Some y). split; [done|]. by apply Hlk.
Qed.
End restart.
