(* ===== verification/AgentAlloc.v ===== *)
(** * What allocation and release leave behind

    [allocateLease], [releaseLease] and their handlers, run by one goroutine
    on a router whose every call may fail.  The router keeps links; its log has
    all external calls with their answers, so that what the code leaves behind
    is stated together with the failures that explain it. *)

From S2P Require Import Prelude Effects GoStd Base64 Json Http AgentEnv LeaseJson AgentMem.
From S2P Require Import LeaseStore Garp NetConfig DhcpClient AgentApi Agent.

Local Open Scope Z_scope.

Section law.
Context `{L : AgLib}.

(** The router's links, by name, with their indices, and the external calls
    made so far. *)
Record Rt := { rt_links : gmap string nat; rt_log : list (event AgE) }.

(** The agent's memory and the router. *)
Abbreviation world := (Ag * Rt)%type.
Abbreviation at_ s ls lg := (s, {| rt_links := ls; rt_log := lg |}).

(** What a call may do to the links.  A link that is found exists, and one that
    is reported missing does not; any call may fail for another reason, and
    then changes nothing. *)
Definition link_post X (o : ExtOp X) (ls : gmap string nat) : X → gmap string nat → Prop :=
  match o in ExtOp X return X → gmap string nat → Prop with
  | LinkByName n => λ r ls', ls' = ls ∧
      match r with
      | Ok i => ls !! n = Some i
      | Err e => nl_notfound e = true → ls !! n = None
      end
  | LinkAdd n _ _ => λ r ls',
      match r with
      | Ok _ => ls !! n = None ∧ ∃ i, (∀ n', ls !! n' ≠ Some i) ∧ ls' = <[n := i]> ls
      | Err _ => ls' = ls
      end
  | LinkDelNew n => λ r ls', match r with Ok _ => ls' = delete n ls | Err _ => ls' = ls end
  | LinkDel i => λ r ls',
      match r with Ok _ => ls' = filter (λ kv, kv.2 ≠ i) ls | Err _ => ls' = ls end
  | _ => λ _ ls', ls' = ls
  end.

(** A section must not have to wait, and nothing may panic. *)
Definition router_law : espec AgE world :=
  ESpec (λ X e w, match e with
                  | Mem o => is_Some (exec_mem X o w.1)
                  | Ext (Panic _) => False
                  | Ext _ => True
                  end)
        (λ X e w x w', match e with
                       | Mem o => exec_mem X o w.1 = Some (x, w'.1) ∧ w'.2 = w.2
                       | Ext o => w'.1 = w.1 ∧ link_post X o (rt_links w.2) x (rt_links w'.2) ∧
                                  rt_log w'.2 = rt_log w.2 ++ [Ev (Ext o) x]
                       end).

(** External calls that do not change the links. *)
Definition inert X (e : AgE X) : Prop :=
  match e with
  | Mem _ => False
  | Ext (LinkAdd _ _ _) | Ext (LinkDelNew _) | Ext (LinkDel _) | Ext (Panic _) => False
  | Ext _ => True
  end.

Lemma wp_mem {X} (o : MemOp X) x s' s (rt : Rt) (Q : X → world → Prop) :
  exec_mem X o s = Some (x, s') → Q x (s', rt) → wp router_law (mem o) Q (s, rt).
Proof.
  intros He HQ. apply wp_trigger. simpl. split; [by rewrite He|].
  intros x' [s'' rt'] [He' Hls]; simpl in *. by simplify_eq.
Qed.

Lemma wp_ext {X} (o : ExtOp X) s ls lg (Q : X → world → Prop) :
  match o with Panic _ => False | _ => True end →
  (∀ x ls', link_post X o ls x ls' → Q x (at_ s ls' (lg ++ [Ev (Ext o) x]))) →
  wp router_law (ext o) Q (at_ s ls lg).
Proof.
  intros Ho HQ. apply wp_trigger. simpl. split; [by destruct o|].
  intros x [s'' [ls' lg']] (Hs & Hls & Hlg); simpl in *. subst. by apply HQ.
Qed.

(** A program of inert calls changes neither the memory nor the links, and the
    log gets its own calls. *)
Lemma wp_inert {A} (p : AgP A) (Q : A → world → Prop) s ls lg :
  calls inert p → (∀ a t, runs p t a → Q a (at_ s ls (lg ++ t))) → wp router_law p Q (at_ s ls lg).
Proof.
  revert lg. induction p as [a|X e k IH]; intros lg Hp HQ; simpl.
  - rewrite <-(app_nil_r lg). apply HQ. constructor.
  - destruct Hp as [He Hk]. destruct e as [o|o]; [done|]. split; [by destruct o|].
    intros x [s' [ls' lg']] (Hs & Hls & Hlg). simpl in *. subst s' lg'.
    assert (ls' = ls) as -> by (destruct o; simpl in *; try done; by destruct Hls).
    apply IH; [by apply Hk|]. intros a t Ht. rewrite <-app_assoc. apply HQ. by constructor.
Qed.

Lemma wp_inert_any {A} (p : AgP A) (Q : A → world → Prop) s ls lg :
  calls inert p → (∀ a t, Q a (at_ s ls (lg ++ t))) → wp router_law p Q (at_ s ls lg).
Proof. intros Hp HQ. apply wp_inert; [done|]. by intros a t _. Qed.

(** What was true with an empty log is true of the calls since any time. *)
Lemma wp_since {A} (p : AgP A) (Q : A → world → Prop) s ls lg :
  wp router_law p Q (at_ s ls []) →
  wp router_law p (λ a w', ∃ t, rt_log w'.2 = lg ++ t ∧ Q a (at_ w'.1 (rt_links w'.2) t)) (at_ s ls lg).
Proof.
  enough (∀ t, wp router_law p Q (at_ s ls t) → wp router_law p (λ a w', ∃ t,
    rt_log w'.2 = lg ++ t ∧ Q a (at_ w'.1 (rt_links w'.2) t)) (at_ s ls (lg ++ t))) as Hall
    by (intros Hp; specialize (Hall [] Hp); by rewrite app_nil_r in Hall).
  revert s ls. induction p as [a|X e k IH]; intros s ls t; simpl; [by eauto|].
  intros [Hpre Hk]. split; [by destruct e|]. intros x [s' [ls' lg']] Hpost.
  destruct e as [o|o]; simpl in *.
  - destruct Hpost as [He [= -> ->]]. apply IH. by apply (Hk x (at_ s' ls t)).
  - destruct Hpost as (-> & Hls & ->). rewrite <-app_assoc. apply IH.
    by apply (Hk x (at_ s ls' (t ++ [Ev (Ext o) x]))).
Qed.

(** ** Calls on links *)

Definition is_link (o : event AgE) : bool :=
  match o with
  | existT X (Ext op, _) =>
    match op with
    | LinkByName _ | LinkAdd _ _ _ | LinkSetUp _ | LinkDelNew _ | LinkDel _ => true
    | _ => false
    end
  | _ => false
  end.

Definition link_calls (t : list (event AgE)) : list (event AgE) := List.filter is_link t.

(** A call that should have removed the link of [i] and did not: its lookup or
    its deletion failed. *)
Definition fails_to_remove (i : string) (o : event AgE) : Prop :=
  match o with
  | existT X (Ext op, x) =>
    (match op in ExtOp X return X → Prop with
     | LinkByName n => λ r, n = i ∧ ∃ e, r = Err e ∧ nl_notfound e = false
     | LinkDelNew n => λ r, n = i ∧ ∃ e, r = Err e
     | LinkDel _ => λ r, ∃ e, r = Err e
     | _ => λ _, False
     end) x
  | _ => False
  end.

(** The last thing done to the links was such a call. *)
Definition removal_failed (i : string) (t : list (event AgE)) : Prop :=
  ∃ o, last (link_calls t) = Some o ∧ fails_to_remove i o.

Lemma removal_failed_snoc i t o : is_link o = true → fails_to_remove i o → removal_failed i (t ++ [o]).
Proof.
  intros Hl Hf. exists o. split; [|done]. unfold link_calls. rewrite List.filter_app. simpl.
  by rewrite Hl, last_snoc.
Qed.

(** Calls that are not on links. *)
Definition aside X (e : AgE X) : Prop :=
  match e with
  | Ext (LinkByName _) | Ext (LinkAdd _ _ _) | Ext (LinkSetUp _) | Ext (LinkDelNew _)
  | Ext (LinkDel _) => False
  | _ => True
  end.

Lemma removal_failed_app i t t' :
  Forall (ev_sat aside) t' → removal_failed i t → removal_failed i (t ++ t').
Proof.
  intros Ht (o & Ho & Hf). exists o. split; [|done]. unfold link_calls in *. rewrite List.filter_app.
  assert (List.filter is_link t' = []) as ->; [|by rewrite app_nil_r].
  induction Ht as [|[X [e x]] t' He Ht IH]; [done|]. simpl. rewrite IH.
  destruct e as [m|op]; [done|]. by destruct op.
Qed.
End law.
Abbreviation at_ s ls lg := (s, {| rt_links := ls; rt_log := lg |}).

Section alloc.
Context `{L : AgLib} (sf : string).
Abbreviation world := (Ag * Rt)%type.

(** A store whose locks are free. *)
Definition free (s : Ag) : Prop := mu s = false ∧ saveMu s = false.

Lemma unlock_lock s : saveMu s = false → set_saveMu false (set_saveMu true s) = s.
Proof. intros <-. by destruct s. Qed.

(** The calls [t] of a [save] of the memory [s] that returns [r]: the whole
    store is marshalled, written to the temporary file and renamed, and the
    result is that of the first step that fails. *)
Definition saved (s : Ag) (r : result string unit) (t : list (event AgE)) : Prop :=
  match marshal_section s with
  | Err _ => is_ok r = false ∧ t = []
  | Ok j => ∃ w : result oserr unit,
      if is_ok w
      then ∃ n : result oserr unit,
             is_ok r = is_ok n ∧ t = [Ev (Ext (WriteFile (tmpFile sf) (JsonDoc (Some j)))) w;
                                      Ev (Ext (Rename (tmpFile sf) sf)) n]
      else is_ok r = false ∧ t = [Ev (Ext (WriteFile (tmpFile sf) (JsonDoc (Some j)))) w]
  end.

Lemma saved_aside s r t : saved s r t → Forall (ev_sat aside) t.
Proof.
  unfold saved. destruct (marshal_section s); [|by intros [_ ->]].
  intros (w & Hw). destruct (is_ok w); [destruct Hw as (n & _ & ->)|destruct Hw as [_ ->]]; by repeat constructor.
Qed.

(** A save that returns without an error has replaced the file. *)
Lemma saved_ok s t : saved s (Ok tt) t → Ev (Ext (Rename (tmpFile sf) sf)) (Ok tt) ∈ t.
Proof.
  unfold saved. destruct (marshal_section s); [|by intros [? _]].
  intros (w & Hw). destruct (is_ok w); [|by destruct Hw]. destruct Hw as ([[]|?] & H & ->); [set_solver|done].
Qed.

(** [save] leaves the memory and the links as they are. *)
Lemma save_wp s ls lg (Q : result string unit → world → Prop) :
  free s → (∀ r t, saved s r t → Q r (at_ s ls (lg ++ t))) →
  wp router_law (save sf) Q (at_ s ls lg).
Proof.
  intros [Hm Hs] HQ. unfold save. rewrite wp_bind.
  eapply wp_mem; [simpl; by rewrite Hs|]. rewrite wp_bind.
  eapply wp_mem; [simpl; unfold unless_mu; simpl; by rewrite Hm|].
  change (marshal_section (set_saveMu true s)) with (marshal_section s). rewrite wp_bind.
  assert (∀ r t, saved s r t → wp router_law (_ ← mem OUnlockSave; mret r) Q
    (at_ (set_saveMu true s) ls (lg ++ t))) as Hend.
  { intros r t Ht. rewrite wp_bind. eapply wp_mem; [done|]. rewrite wp_ret, unlock_lock by done. by apply HQ. }
  unfold saved in Hend. destruct (marshal_section s) as [j|e].
  - rewrite wp_bind. apply wp_ext; [done|]. intros [[]|e] ls' ->.
    + rewrite wp_bind. apply wp_ext; [done|]. intros n ls' ->. rewrite <-app_assoc.
      destruct n as [[]|e]; rewrite wp_ret; apply Hend; exists (Ok tt); simpl; [by exists (Ok tt)|by exists (Err e)].
    + rewrite wp_ret. apply Hend. by exists (Err e).
  - rewrite wp_ret, <-(app_nil_r lg). by apply Hend.
Qed.

Lemma Set_wp l x m s ls lg (Q : result string unit → world → Prop) :
  free s → heap s !! l = Some x → leases s = Some m →
  (∀ r t, let s' := set_leases (Some (<[Interface x := Some l]> m)) s in
     saved s' r t → Q r (at_ s' ls (lg ++ t))) →
  wp router_law (Set_ sf l) Q (at_ s ls lg).
Proof.
  intros Hf Hl Hm HQ. unfold Set_. rewrite wp_bind.
  eapply wp_mem; [simpl; by rewrite Hl|]. rewrite wp_bind.
  eapply wp_mem; [simpl; unfold unless_mu, put_section; destruct Hf as [-> _]; by rewrite Hm|].
  by apply save_wp.
Qed.

(** The server granted [info] in the exchange [t]. *)
Definition acquired (i : string) (mac : HardwareAddr) (info : LeaseInfo) (t : list (event AgE)) : Prop :=
  ∃ c nl, Ev (Ext (NclientNew i mac)) (Ok c) ∈ t ∧ Ev (Ext (NclientRequest c)) (Ok nl) ∈ t ∧
          fresh_lease nl = Ok info.

Lemma acquired_mono i mac info t t' : t ⊆ t' → acquired i mac info t → acquired i mac info t'.
Proof. intros Hs (c & nl & H1 & H2 & H3). exists c, nl. split_and!; auto. Qed.

Lemma fresh_usable nl info : fresh_lease nl = Ok info → IsUnspecified (li_IPAddress info) = false.
Proof.
  unfold fresh_lease, usable. destruct (nl_ACK nl) as [ack|]; [|done].
  destruct (YourIPAddr ack) as [ip|]; [|done]. destruct (IsUnspecified ip) eqn:E; [done|].
  intros H. by repeat case_match; simplify_eq/=.
Qed.

Lemma Acquire_wp i mac s ls lg (Q : result string LeaseInfo → world → Prop) :
  (∀ r t, (∀ info, r = Ok info → acquired i mac info t) → Q r (at_ s ls (lg ++ t))) →
  wp router_law (AcquireLease i mac) Q (at_ s ls lg).
Proof.
  intros HQ. unfold AcquireLease, with_client, request_lease. rewrite wp_bind.
  apply wp_ext; [done|]. intros [c|e] ls' ->; [|by apply HQ]. rewrite !wp_bind.
  apply wp_ext; [done|]. intros r ls' ->. rewrite wp_ret, wp_bind. apply wp_ext; [done|].
  intros [] ls' ->. rewrite wp_ret, <-!app_assoc. apply HQ. intros info H.
  destruct r as [nl|e]; [|done]. exists c, nl. split_and!; [set_solver|set_solver|done].
Qed.

Lemma calls_garp i ip mac n : calls inert (SendGratuitousARP i ip mac n).
Proof.
  assert (∀ fd ix p c k n, calls inert (send_loop fd ix p c k n)) as H.
  { intros fd ix p c k m. revert k. induction m; intros k; cbn [send_loop]; unfold ext; solve_pcalls. }
  unfold SendGratuitousARP, ext. apply calls_bind; [by apply calls_trigger|].
  intros [ix|e]; [|done]. apply calls_bind; [by apply calls_trigger|]. intros [fd|e]; [|done].
  apply calls_bind; [apply H|]. intros r. apply calls_bind; [by apply calls_trigger|]. done.
Qed.

Lemma calls_setup i ip mask : calls inert (SetupInterface i ip mask).
Proof. unfold SetupInterface, ext. solve_pcalls. Qed.

Lemma calls_cleanup i ip : calls inert (CleanupInterface i ip).
Proof. unfold CleanupInterface, ext. solve_pcalls. Qed.

Lemma calls_release i mac a b : calls inert (ReleaseLease i mac a b).
Proof. unfold ReleaseLease, with_client, ext. solve_pcalls. Qed.

(** The links are what they were, or the new link of [i] is left over because
    its removal failed. *)
Definition undone (i : string) (ls : gmap string nat) (rt : Rt) : Prop :=
  rt_links rt = ls ∨
  (∃ ix, ls !! i = None ∧ rt_links rt = <[i := ix]> ls ∧ removal_failed i (rt_log rt)).

(** Creating an interface adds it, or changes nothing, or cannot take back what
    it added. *)
Lemma Create_wp i p mac s ls lg (Q : result string unit → world → Prop) :
  (∀ ix t, ls !! i = None → (∀ n, ls !! n ≠ Some ix) → Q (Ok tt) (at_ s (<[i := ix]> ls) (lg ++ t))) →
  (∀ e rt, undone i ls rt → Q (Err e) (s, rt)) →
  wp router_law (CreateMacvlan i p mac) Q (at_ s ls lg).
Proof.
  intros Hok Hund. assert (∀ e t, Q (Err e) (at_ s ls (lg ++ t))) as Herr by (intros; apply Hund; by left).
  unfold CreateMacvlan. rewrite wp_bind. apply wp_ext; [done|].
  intros r ls' [-> _]. destruct r as [parent|e]; [|apply Herr].
  rewrite wp_bind. apply wp_ext; [done|]. intros r ls' [-> Hr]. rewrite <-app_assoc.
  destruct r as [ix0|e]; [apply Herr|].
  rewrite wp_bind. apply wp_ext; [done|]. intros r ls' Hadd. rewrite <-app_assoc.
  destruct r as [[]|e']; [|simpl in Hadd; subst; apply Herr].
  destruct Hadd as (Hno & ix & Hfresh & ->). rewrite wp_bind. apply wp_ext; [done|].
  intros r ls' Hup. simpl in Hup. subst. rewrite <-app_assoc. destruct r as [[]|e']; [by apply Hok|].
  rewrite wp_bind. apply wp_ext; [done|]. intros [[]|e''] ls' ->; rewrite wp_ret.
  - rewrite delete_insert_id by done. apply Hund. by left.
  - apply Hund. right. exists ix. split_and!; [done|done|]. apply removal_failed_snoc; [done|]. simpl. by eauto.
Qed.

Lemma filter_fresh i ix (ls : gmap string nat) :
  ls !! i = None → (∀ n, ls !! n ≠ Some ix) →
  filter (λ kv, kv.2 ≠ ix) (<[i := ix]> ls) = ls.
Proof.
  intros Hi Hf. apply map_eq. intros n. rewrite map_lookup_filter.
  destruct (decide (n = i)) as [->|Hn].
  - rewrite lookup_insert_eq, Hi. simpl. by case_guard.
  - rewrite lookup_insert_ne by done. destruct (ls !! n) as [j|] eqn:E; [|done]. simpl.
    case_guard as Hg; [done|]. simpl in Hg. destruct (decide (j = ix)); [|done].
    subst. by apply Hf in E.
Qed.

(** What deleting the interface [i] makes of the links. *)
Definition without (i : string) (ls : gmap string nat) : gmap string nat :=
  match ls !! i with Some ix => filter (λ kv, kv.2 ≠ ix) ls | None => ls end.

Lemma DeleteMacvlan_wp i s ls lg (Q : result string unit → world → Prop) :
  (∀ t, Q (Ok tt) (at_ s (without i ls) (lg ++ t))) →
  (∀ e t, removal_failed i (lg ++ t) → Q (Err e) (at_ s ls (lg ++ t))) →
  wp router_law (DeleteMacvlan i) Q (at_ s ls lg).
Proof.
  intros Hok Herr. unfold DeleteMacvlan. rewrite wp_bind. apply wp_ext; [done|].
  intros [ix|e] ls' [-> Hr]; simpl in Hr.
  - rewrite wp_bind. apply wp_ext; [done|]. intros [[]|e] ls' ->; rewrite wp_ret, <-app_assoc.
    + unfold without in Hok. rewrite Hr in Hok. apply Hok.
    + apply Herr. rewrite app_assoc. apply removal_failed_snoc; [done|]. by eexists.
  - rewrite wp_ret. destruct (nl_notfound e) eqn:Hnf.
    + unfold without in Hok. rewrite Hr in Hok by done. apply Hok.
    + apply Herr. apply removal_failed_snoc; [done|]. simpl. by eauto.
Qed.

(** ** Allocation *)

(** What a successful allocation leaves: the lease object, stored under its
    interface with the address, the server and the duration the DHCP server
    granted and expires that long after a reading of the clock; the link; and, as the last call, a renewal goroutine for this lease
    under the context whose cancel function is kept. *)
Record allocated (i w : string) (mac : HardwareAddr) (m : gmap string (option nat))
    (ls : gmap string nat) (l : nat) (x : Lease) (w' : world) : Prop := {
  al_heap : heap w'.1 !! l = Some x;
  al_iface : Interface x = i;
  al_parent : WanParent x = w;
  al_mac : MACAddress x = mac;
  al_granted : ∃ info, acquired i mac info (rt_log w'.2) ∧ IPAddress x = li_IPAddress info ∧
    DHCPServerIP x = li_DHCPServerIP info ∧ LeaseTime x = li_LeaseTime info ∧
    ∃ now, Ev (Ext Now) now ∈ rt_log w'.2 ∧ ExpiresAt x = now + li_LeaseTime info;
  al_usable : IsUnspecified (IPAddress x) = false;
  al_active : Status x = StatusActive ∧ InterfaceExists x = true ∧ RenewalCount x = 0;
  al_stored : leases w'.1 = Some (<[i := Some l]> m);
  al_saved : Ev (Ext (Rename (tmpFile sf) sf)) (Ok tt) ∈ rt_log w'.2;
  al_renewal : ∃ c, renewalCancels w'.1 !! i = Some c ∧
    last (rt_log w'.2) = Some (Ev (Ext (Spawn i l c)) tt);
  al_link : ∃ ix, ls !! i = None ∧ (∀ n, ls !! n ≠ Some ix) ∧ rt_links w'.2 = <[i := ix]> ls;
}.

(** What a failed one leaves: the links as before, unless the removal of the new
    one failed; and the stored leases as before, unless the error [e] says that
    the lease could not be saved. *)
Definition not_allocated (i : string) (m : gmap string (option nat)) (ls : gmap string nat)
    (e : string) (w' : world) : Prop :=
  undone i ls w'.2 ∧
  (leases w'.1 = Some m ∨
   ∃ l e', e = "failed to save lease: " +:+ e' ∧ leases w'.1 = Some (<[i := Some l]> m)).

(** The marks and the locks, which allocation does not touch. *)
Definition same_marks (s : Ag) (w' : world) : Prop :=
  inflight w'.1 = inflight s ∧ free w'.1.

Lemma allocate_on_wp i w mac m s ls lg (Q : result string nat → world → Prop) :
  free s → leases s = Some m →
  (∀ l x s' t info c, heap s' !! l = Some x → Interface x = i → WanParent x = w → MACAddress x = mac →
     acquired i mac info t → IPAddress x = li_IPAddress info → DHCPServerIP x = li_DHCPServerIP info →
     LeaseTime x = li_LeaseTime info →
     (∃ now, Ev (Ext Now) now ∈ t ∧ ExpiresAt x = now + li_LeaseTime info) → Status x = StatusActive → InterfaceExists x = true →
     RenewalCount x = 0 → Ev (Ext (Rename (tmpFile sf) sf)) (Ok tt) ∈ t → leases s' = Some (<[i := Some l]> m) → renewalCancels s' !! i = Some c →
     last t = Some (Ev (Ext (Spawn i l c)) tt) → inflight s' = inflight s → free s' →
     Q (Ok l) (at_ s' ls (lg ++ t))) →
  (∀ e s' t, leases s' = Some m ∨
     (∃ l e', e = "failed to save lease: " +:+ e' ∧ leases s' = Some (<[i := Some l]> m)) →
     inflight s' = inflight s → free s' → Q (Err e) (at_ s' ls (lg ++ t))) →
  wp router_law (allocate_on sf i w mac) Q (at_ s ls lg).
Proof.
  intros Hf Hm Hok Herr.
  assert (∀ e t, Q (Err e) (at_ s ls (lg ++ t))) as Herr0 by (intros e t; apply Herr; auto; done).
  unfold allocate_on. rewrite wp_bind. apply Acquire_wp. intros r t0 Hgr.
  destruct r as [info|e]; [|apply Herr0]. specialize (Hgr info eq_refl).
  rewrite wp_bind. apply wp_inert_any; [apply calls_garp|]. intros [[]|e] t1; rewrite <-app_assoc; [|apply Herr0].
  rewrite wp_bind. apply wp_inert_any; [apply calls_setup|]. intros [[]|e] t2; rewrite <-app_assoc; [|apply Herr0].
  rewrite wp_bind. apply wp_ext; [done|]. intros now ls' ->.
  rewrite wp_bind. apply wp_ext; [done|]. intros now' ls' ->.
  rewrite wp_bind. eapply wp_mem; [done|]. cbv beta.
  set (x := Build_Lease _ _ _ _ _ _ _ _ _ _ _ _ _).
  rewrite wp_bind. eapply Set_wp with (x := x); [done|simpl; by rewrite lookup_insert_eq|exact Hm|].
  intros r t5 ? Hsaved. rewrite <-!app_assoc. destruct r as [[]|e]; [|apply Herr; [right; by eauto|done|done]].
  rewrite wp_bind. unfold startRenewalLoop. rewrite wp_bind.
  eapply wp_mem; [simpl; by rewrite lookup_insert_eq|]. rewrite wp_bind.
  eapply wp_mem; [done|]. apply wp_ext; [done|]. intros [] ls' ->. rewrite wp_ret, <-!app_assoc.
  eapply (Hok _ x _ _ info); simpl; rewrite ?lookup_insert_eq; try done.
  - eapply acquired_mono; [|exact Hgr]. set_solver.
  - exists now. split; [set_solver|done].
  - apply saved_ok in Hsaved. set_solver.
  - rewrite !last_app. rewrite !last_cons, last_snoc. done.
Qed.

Lemma allocateLease_wp i w mac m s ls lg (Q : result string nat → world → Prop) :
  free s → leases s = Some m →
  (∀ l x w', allocated i w mac m ls l x w' → same_marks s w' → Q (Ok l) w') →
  (∀ e w', not_allocated i m ls e w' → same_marks s w' → Q (Err e) w') →
  wp router_law (allocateLease sf i w mac) Q (at_ s ls lg).
Proof.
  intros Hf Hm Hok Herr. unfold allocateLease. rewrite wp_bind. apply Create_wp.
  - intros ix t0 Hno Hfresh. rewrite wp_bind. apply (allocate_on_wp _ _ _ m); [done|done|..].
    + intros l x s' t info c Hx Hi Hw Hmac Hgr Hip Hsv Hlt Hexp Hst Hex Hrc Hsv2 Hle Hcn Hsp Hin Hf'. rewrite wp_ret.
      apply (Hok l x); [|done]. assert (t ≠ []) by (by intros ->).
      split; simpl; try done.
      * exists info. split_and!; try done; [eapply acquired_mono; [|exact Hgr]; set_solver|].
        destruct Hexp as (now & Hnow & Hexp). exists now. split; [set_solver|done].
      * destruct Hgr as (? & nl & _ & _ & Hfr). apply fresh_usable in Hfr. congruence.
      * set_solver.
      * exists c. split; [done|]. by rewrite last_app, Hsp.
      * by eauto.
    + intros e s' t Hle Hin Hf'. rewrite wp_bind. apply DeleteMacvlan_wp.
      * intros t'. rewrite wp_ret. apply Herr; [|done]. split; [|done]. left. simpl. unfold without.
        rewrite lookup_insert_eq. by apply filter_fresh.
      * intros e' t' Hrm. rewrite wp_ret. apply Herr; [|done]. split; [|done]. right. eauto.
  - intros e rt Hun. rewrite wp_ret. apply Herr; [|done]. split; [done|by left].
Qed.

(** The response to a successful request. *)
Definition granted (x : Lease) : HttpResponse :=
  {| StatusCode := StatusCreated;
     Body := enc_LeaseResponse {| rs_IPAddress := IP_String (IPAddress x);
                                  rs_ExpiresAt := ExpiresAt x |} |}.

(** The response to a failed one. *)
Definition refused (e : string) : HttpResponse :=
  sendError StatusServiceUnavailable ("failed to allocate lease: " +:+ e).

(** The outcome of a valid request on the memory [s] with the leases [m]. *)
Definition answered (req : LeaseRequest) (mac : HardwareAddr) (m : gmap string (option nat)) (s : Ag)
    (ls : gmap string nat) (resp : HttpResponse) (w' : world) : Prop :=
  inflight w'.1 = inflight s ∧ free w'.1 ∧
  match inflight s !! rq_Interface req, m !! rq_Interface req with
  | None, None =>
    (∃ l x, resp = granted x ∧ allocated (rq_Interface req) (rq_WanParent req) mac m ls l x w') ∨
    (∃ e, resp = refused e ∧ not_allocated (rq_Interface req) m ls e w')
  | _, _ => StatusCode resp = StatusConflict ∧ leases w'.1 = Some m ∧ w'.2 = {| rt_links := ls; rt_log := [] |}
  end.

(** Releasing the mark at the end of a handler. *)
Lemma ReleaseInflight_wp i s ch (w' : world) (resp : HttpResponse) (P : HttpResponse → world → Prop) :
  inflight s !! i = None → inflight w'.1 = <[i := ch]> (inflight s) → free w'.1 →
  (∀ s2, s2 = release_section i w'.1 → inflight s2 = inflight s → free s2 → P resp (s2, w'.2)) →
  wp router_law (_ ← ReleaseInflight i; mret resp) P w'.
Proof.
  destruct w' as [s' rt]. intros Hn Hi Hf HP. rewrite wp_bind. eapply wp_mem; [done|]. rewrite wp_ret.
  apply HP; [done| |done]. simpl in *. rewrite Hi. by rewrite delete_insert_id.
Qed.

Lemma handleAllocateLease_wp body req mac m s ls :
  free s → leases s = Some m →
  Decode upd_LeaseRequest zero_LeaseRequest body = (req, true) →
  rq_Interface req ≠ "" → rq_WanParent req ≠ "" → rq_MACAddress req ≠ "" →
  ParseMAC (rq_MACAddress req) = Some mac →
  wp router_law (handleAllocateLease sf body) (answered req mac m s ls) (at_ s ls []).
Proof.
  intros Hf Hm Hd H1 H2 H3 Hmac. unfold handleAllocateLease, answered. rewrite Hd.
  rewrite decide_False by naive_solver. rewrite Hmac, wp_bind. unfold AcquireInflight.
  destruct (inflight s !! rq_Interface req) as [ch|] eqn:Hfl.
  { eapply wp_mem; [simpl; unfold acquire_section; by rewrite Hfl|]. by destruct Hf. }
  eapply wp_mem; [simpl; unfold acquire_section; by rewrite Hfl|]. cbv iota beta.
  set (s1 := set_next _ _). assert (free s1 ∧ leases s1 = Some m) as [Hf1 Hm1] by by destruct Hf.
  rewrite wp_bind. unfold allocate_exclusive, Get. rewrite wp_bind.
  eapply wp_mem; [simpl; unfold unless_mu; destruct Hf1 as [-> _]; done|].
  assert (get_section (rq_Interface req) s1 = m !! rq_Interface req) as ->
    by (unfold get_section; by rewrite Hm1).
  destruct (m !! rq_Interface req) as [p|] eqn:Hp.
  { rewrite wp_ret. apply (ReleaseInflight_wp _ s (next s)); [done..|]. by intros s2 ->. }
  rewrite wp_bind. apply (allocateLease_wp _ _ _ m); [done|done|..].
  - intros l x w' Ha [Hin Hf']. destruct w' as [s' rt]. rewrite wp_bind.
    pose proof (al_heap _ _ _ _ _ _ _ _ Ha) as Hx. simpl in Hx. eapply wp_mem; [simpl; by rewrite Hx|].
    rewrite wp_ret. apply (ReleaseInflight_wp _ s (next s)); [done..|]. intros s2 -> Hi Hf2. split; [done|].
    split; [done|]. left. exists l, x. split; [done|]. by destruct Ha.
  - intros e w' Hn [Hin Hf']. rewrite wp_ret. apply (ReleaseInflight_wp _ s (next s)); [done..|]. intros s2 -> Hi Hf2.
    split; [done|]. split; [done|]. right. by exists e.
Qed.


(** ** Release *)

(** What is left of a released lease on interface [i]: it is forgotten and its
    renewal cancelled; its link is deleted, unless the last thing done to the
    links was a removal that failed, which leaves them as they were. *)
Definition released (i : string) (m : gmap string (option nat)) (ls : gmap string nat)
    (s : Ag) (w' : world) : Prop :=
  leases w'.1 = Some (delete i m) ∧ renewalCancels w'.1 !! i = None ∧
  (∀ c, renewalCancels s !! i = Some c → c ∈ cancelled w'.1) ∧
  (rt_links w'.2 = without i ls ∨ (rt_links w'.2 = ls ∧ removal_failed i (rt_log w'.2))).

Lemma stop_section_frame i s :
  leases (stop_section i s) = leases s ∧ inflight (stop_section i s) = inflight s ∧
  mu (stop_section i s) = mu s ∧ saveMu (stop_section i s) = saveMu s ∧
  heap (stop_section i s) = heap s ∧
  renewalCancels (stop_section i s) !! i = None ∧
  (∀ c, renewalCancels s !! i = Some c → c ∈ cancelled (stop_section i s)).
Proof.
  unfold stop_section. destruct (renewalCancels s !! i) as [c|] eqn:E; simpl.
  - rewrite lookup_delete_eq. split_and!; try done. intros c' [= ->]. set_solver.
  - by rewrite E.
Qed.

Lemma releaseLease_wp l x m s ls lg (Q : result string unit → world → Prop) :
  free s → leases s = Some m → heap s !! l = Some x →
  (∀ r w', released (Interface x) m ls s w' → same_marks s w' →
     (r = Ok tt → Ev (Ext (Rename (tmpFile sf) sf)) (Ok tt) ∈ rt_log w'.2) → Q r w') →
  wp router_law (releaseLease sf l) Q (at_ s ls lg).
Proof.
  intros Hf Hm Hx HQ. unfold releaseLease. rewrite wp_bind.
  eapply wp_mem; [simpl; by rewrite Hx|]. rewrite wp_bind. unfold stopRenewalLoop.
  eapply wp_mem; [done|]. destruct (stop_section_frame (Interface x) s) as (Hl & Hi & Hmu & Hsm & Hh & Hc & Hcc).
  set (s1 := stop_section (Interface x) s) in *. destruct Hf as [Hf1 Hf2].
  rewrite wp_bind. eapply wp_mem; [simpl; by rewrite Hh, Hx|].
  rewrite wp_bind. apply wp_inert_any; [apply calls_release|]. intros _ t1.
  rewrite wp_bind. apply wp_inert_any; [apply calls_cleanup|]. intros _ t2. rewrite wp_bind.
  assert (∀ (r0 : result string unit) rt,
    rt_links rt = without (Interface x) ls ∨ (rt_links rt = ls ∧ removal_failed (Interface x) (rt_log rt)) →
    wp router_law (d ← Delete sf (Interface x); mret (match d with
      | Err e => Err ("failed to delete lease from store: " +:+ e) | Ok _ => Ok tt end)) Q (s1, rt)) as Hdel.
  { intros r0 [ls' lg'] Hls. rewrite wp_bind. unfold Delete. rewrite wp_bind.
    eapply wp_mem; [simpl; unfold unless_mu; by rewrite Hmu, Hf1|]. apply save_wp.
    { by split; simpl; rewrite ?Hmu, ?Hsm. }
    intros r t Ht. pose proof (saved_ok (del_section (Interface x) s1) t) as Hsok.
    rewrite wp_ret. apply HQ.
    - split_and!; simpl; [by rewrite Hl, Hm|done|done|].
      simpl in Hls. destruct Hls as [->|[-> Hrm]]; [by left|right]. split; [done|]. apply removal_failed_app; [|done].
      by eapply saved_aside.
    - by split; [|split]; simpl; rewrite ?Hi, ?Hmu, ?Hsm.
    - destruct r as [[]|]; [|done]. intros _. simpl. set_solver. }
  apply DeleteMacvlan_wp.
  - intros t. apply (Hdel (Ok tt)). by left.
  - intros e t Hrm. apply (Hdel (Err e)). by right.
Qed.

(** The outcome of a release. *)
Definition let_go (i : string) (m : gmap string (option nat)) (s : Ag) (ls : gmap string nat)
    (resp : HttpResponse) (w' : world) : Prop :=
  ((StatusCode resp = StatusNoContent ∧ Ev (Ext (Rename (tmpFile sf) sf)) (Ok tt) ∈ rt_log w'.2) ∨
   StatusCode resp = StatusInternalServerError) ∧
  released i m ls s w' ∧ inflight w'.1 = inflight s ∧ free w'.1.

Lemma handleReleaseLease_wp i l x m s ls :
  free s → leases s = Some m → m !! i = Some (Some l) → heap s !! l = Some x →
  Interface x = i → inflight s !! i = None →
  wp router_law (handleReleaseLease sf i) (let_go i m s ls) (at_ s ls []).
Proof.
  intros Hf Hm Hl Hx <- Hfl. unfold handleReleaseLease. rewrite wp_bind. unfold AcquireInflight.
  eapply wp_mem; [simpl; unfold acquire_section; by rewrite Hfl|]. cbv iota beta.
  set (s1 := set_next _ _). assert (free s1 ∧ leases s1 = Some m) as [Hf1 Hm1] by by destruct Hf.
  rewrite wp_bind. unfold release_exclusive, Get. rewrite wp_bind.
  eapply wp_mem; [simpl; unfold unless_mu; destruct Hf1 as [-> _]; done|].
  assert (get_section (Interface x) s1 = Some (Some l)) as ->
    by (unfold get_section; rewrite Hm1; exact Hl).
  unfold deref_ptr. rewrite wp_bind, wp_ret, wp_bind.
  apply (releaseLease_wp _ x m); [done|done|done|]. intros r [s' rt] Hrel [Hi Hf'] Hsv.
  assert (∀ resp, ((StatusCode resp = StatusNoContent ∧
      Ev (Ext (Rename (tmpFile sf) sf)) (Ok tt) ∈ rt_log rt) ∨ StatusCode resp = StatusInternalServerError) →
    wp router_law (_ ← ReleaseInflight (Interface x); mret resp) (let_go (Interface x) m s ls) (s', rt)) as Hend.
  { intros resp Hc. apply (ReleaseInflight_wp _ s (next s)); [done|done|done|]. intros s2 -> Hi2 Hf2.
    split; [done|]. split; [by apply Hrel|done]. }
  destruct r as [[]|]; rewrite wp_ret; apply Hend; [left; auto|by right].
Qed.


(** C24: allocating and releasing an interface is a round trip, unless a removal
    fails.  After a granted request and a release the stored leases are what
    they were before, and so are the router's links unless the last thing done
    to them was a removal that failed, which leaves the interface's own link
    and no other. *)
Theorem allocate_release_roundtrip body req mac m s ls :
  free s → leases s = Some m →
  Decode upd_LeaseRequest zero_LeaseRequest body = (req, true) →
  rq_Interface req ≠ "" → rq_WanParent req ≠ "" → rq_MACAddress req ≠ "" →
  ParseMAC (rq_MACAddress req) = Some mac →
  inflight s !! rq_Interface req = None → m !! rq_Interface req = None →
  wp router_law (a ← handleAllocateLease sf body;
                 if decide (StatusCode a = StatusCreated)
                 then handleReleaseLease sf (rq_Interface req) else mret a)
    (λ resp w', undone (rq_Interface req) ls w'.2 ∧
       (leases w'.1 = Some m ∨ ∃ e, resp = refused ("failed to save lease: " +:+ e)) ∧
       inflight w'.1 = inflight s ∧ free w'.1) (at_ s ls []).
Proof.
  intros Hf Hm Hd H1 H2 H3 Hmac Hfl Hno. rewrite wp_bind.
  eapply wp_mono; [by eapply (handleAllocateLease_wp _ _ _ m)|].
  intros a [s' [ls' lg']] (Hi & Hf' & Hres). rewrite Hfl, Hno in Hres.
  destruct Hres as [(l & x & -> & Ha)|(e & -> & Hun & Hle)].
  - rewrite decide_True by done. destruct (al_link _ _ _ _ _ _ _ _ Ha) as (ix & Hnone & Hfresh & Hls).
    simpl in Hls, Hi. subst ls'.
    eapply wp_mono; [apply wp_since, (handleReleaseLease_wp _ l x); [done|by apply Ha| |by apply Ha|by apply Ha|by rewrite Hi]|].
    { by rewrite lookup_insert_eq. }
    intros resp w' (t & Hlog & _ & (Hle' & _ & _ & Hls') & Hi' & Hf'').
    split; [|split; [left|split; [simpl in Hi'; congruence|done]]].
    + destruct Hls' as [Hls'|[Hls' Hrm]]; simpl in Hls'.
      * left. rewrite Hls'. unfold without. rewrite lookup_insert_eq. by apply filter_fresh.
      * right. exists ix. split; [done|]. split; [done|]. rewrite Hlog.
        destruct Hrm as (o & Ho & Hof). exists o. split; [|done]. unfold link_calls in *.
        simpl in Ho. by rewrite List.filter_app, last_app, Ho.
    + simpl in Hle'. by rewrite Hle', delete_insert_id.
  - rewrite decide_False by done. rewrite wp_ret. simpl in *. split; [done|]. split; [|done].
    destruct Hle as [Hle|(l & e' & -> & Hle)]; [by left|right; by exists e'].
Qed.
End alloc.
