(* ===== verification/AgentRenewal.v ===== *)
(** * Renewal

    The back-off of the renewal loop, what one iteration does to a lease, and
    what no goroutine ever changes of it. *)

From S2P Require Import Prelude Effects GoStd Base64 Json Http AgentEnv LeaseJson AgentMem.
From S2P Require Import LeaseStore Garp NetConfig DhcpClient AgentApi Agent AgentThreads AgentFile.
From S2P Require Import AgentSafety AgentAlloc.

Local Open Scope Z_scope.

(** ** Back-off *)

Lemma next_backoff_step b :
  0 ≤ b ≤ maxBackoff → next_backoff b = Z.min (2 * b) maxBackoff.
Proof.
  unfold next_backoff, maxBackoff, Minute, Second. intros Hb.
  rewrite wrap64s_small by lia. destruct (_ <? _) eqn:E; [apply Z.ltb_lt in E|apply Z.ltb_ge in E]; lia.
Qed.

(** The back-off doubles from one minute and saturates at fifteen.  After
    [n] failed attempts in a row it is exactly the smaller of [2^n] and fifteen
    minutes, for every [n]: the multiplication on 64-bit durations never
    overflows. *)
Theorem backoff_doubles_and_saturates n :
  Nat.iter n next_backoff Minute = Z.min (2 ^ Z.of_nat n * Minute) maxBackoff.
Proof.
  induction n as [|n IH]; [reflexivity|].
  rewrite Nat.iter_succ, IH, Nat2Z.inj_succ, Z.pow_succ_r by lia.
  assert (0 < 2 ^ Z.of_nat n) by (apply Z.pow_pos_nonneg; lia).
  rewrite next_backoff_step; unfold maxBackoff, Minute, Second in *; lia.
Qed.

Section renewal.
Context `{L : AgLib} (sf : string).
Abbreviation world := (Ag * Rt)%type.

(** ** Exchanges with the DHCP server *)










(** ** One attempt *)









(** ** One iteration *)






End renewal.
