(* ===== verification/Wire.v ===== *)
(** * The operator and the agent together

    The operator's requests ([AllocateLease], [GetLease], [ReleaseLease] of
    AgentClient) served by the agent's own handlers ([route] of Agent): what a
    result the operator sees says about the router. *)

From S2P Require Import Prelude Effects GoStd Base64 Json Http ClaimTypes Env AgentClient.
From S2P Require Import AgentEnv LeaseJson AgentMem LeaseStore Garp NetConfig DhcpClient AgentApi.
From S2P Require Import Agent AgentThreads AgentFile AgentSafety AgentAlloc.

Local Open Scope Z_scope.

(** ** URLs *)

(** The segments of a URL's path: what follows "http://host/", cut at every
    slash.  (The names below contain nothing that would have to be escaped.) *)
Fixpoint segments (l : list ascii) : list (list ascii) :=
  match l with
  | [] => [[]]
  | c :: l' =>
    if Ascii.eqb c "/" then [] :: segments l'
    else match segments l' with [] => [[c]] | x :: r => (c :: x) :: r end
  end.

Definition url_path (url : string) : list string :=
  map unbytes (drop 3 (segments (bytes url))).

(** Names that stand for themselves in a URL: the characters RFC 3986 leaves
    unreserved, and the colon of a host and port. *)
Definition plain_char (c : ascii) : bool :=
  let n := Z.of_nat (nat_of_ascii c) in
  ((48 <=? n) && (n <=? 57)) || ((65 <=? n) && (n <=? 90)) || ((97 <=? n) && (n <=? 122))
  || (n =? 45) || (n =? 46) || (n =? 58) || (n =? 95).

Definition plain (s : string) : Prop := Forall (λ c, plain_char c = true) (bytes s).

Lemma segments_plain l l' :
  Forall (λ c, plain_char c = true) l → segments (l ++ "/"%char :: l') = l :: segments l'.
Proof.
  induction 1 as [|c l Hc Hl IH]; [done|]. simpl.
  destruct (Ascii.eqb_spec c "/") as [->|_]; [done|]. by rewrite IH.
Qed.

Lemma segments_last l : Forall (λ c, plain_char c = true) l → segments l = [l].
Proof.
  induction 1 as [|c l Hc Hl IH]; [done|]. simpl.
  destruct (Ascii.eqb_spec c "/") as [->|_]; [done|]. by rewrite IH.
Qed.

Lemma url_path_leases addr : plain addr → url_path ("http://" +:+ addr +:+ "/leases") = ["leases"].
Proof.
  intros Ha. unfold url_path. rewrite !bytes_app.
  change (bytes "http://") with (bytes "http:" ++ ["/"; "/"]%char).
  change (bytes "/leases") with ("/"%char :: bytes "leases"). rewrite <-app_assoc. simpl.
  rewrite segments_plain by done. reflexivity.
Qed.

Lemma url_path_lease addr i :
  plain addr → plain i → url_path ("http://" +:+ addr +:+ "/leases/" +:+ i) = ["leases"; i].
Proof.
  intros Ha Hi. unfold url_path. rewrite !bytes_app.
  change (bytes "http://") with (bytes "http:" ++ ["/"; "/"]%char).
  change (bytes "/leases/") with ("/"%char :: bytes "leases" ++ ["/"%char]).
  rewrite <-!app_assoc. simpl. rewrite segments_plain by done. simpl.
  rewrite segments_last by done. simpl. by rewrite unbytes_bytes.
Qed.

(** ** Requests and responses *)

(** What the operator's JSON time parser is documented to accept: the text the
    agent's encoder writes. *)
Class WireLaws (O : Env.Lib) (A : AgLib) : Prop := {
  ParseTime_wire t s : FormatTime t = Some s → Env.ParseTime s = Some t;
}.

Section wire.
Context `{O : Env.Lib} `{A : AgLib} {W : WireLaws O A} (sf : string).
Abbreviation world := (Ag * Rt)%type.

(** The agent reads the request the operator wrote. *)
Lemma request_decodes iface parent mac :
  Decode upd_LeaseRequest zero_LeaseRequest
    (Some (enc_LeaseRequest {| lr_Interface := iface; lr_WanParent := parent;
                               lr_MACAddress := mac |})) =
  ({| rq_Interface := iface; rq_WanParent := parent; rq_MACAddress := mac |}, true).
Proof. reflexivity. Qed.

(** The operator reads the response the agent wrote. *)
Lemma response_decodes r j :
  enc_LeaseResponse r = Some j →
  Decode upd_LeaseResponse zero_LeaseResponse (Some j) =
  ({| lresp_IPAddress := rs_IPAddress r; lresp_ExpiresAt := rs_ExpiresAt r |}, true).
Proof using W.
  unfold enc_LeaseResponse, enc_time. destruct (FormatTime (rs_ExpiresAt r)) as [t|] eqn:Ht; [|done].
  intros [= <-]. apply ParseTime_wire in Ht. unfold Decode, dec_struct, dec_members. simpl.
  unfold upd_LeaseResponse. keys. simpl. by rewrite Ht.
Qed.

Definition status_seen (x : Lease) : AgentClient.LeaseStatus :=
  {| ls_IPAddress := IP_String (IPAddress x); ls_ExpiresAt := ExpiresAt x;
     ls_RenewalCount := RenewalCount x; ls_Status := Status x;
     ls_InterfaceExists := InterfaceExists x |}.

Lemma status_decodes x j :
  - 2 ^ 63 ≤ RenewalCount x < 2 ^ 63 → enc_LeaseStatus (status_of x) = Some j →
  Decode upd_LeaseStatus zero_LeaseStatus (Some j) = (status_seen x, true).
Proof using W.
  unfold enc_LeaseStatus, enc_time. intros Hrc. cbn [status_of st_ExpiresAt].
  destruct (FormatTime (ExpiresAt x)) as [t|] eqn:Ht; [|done].
  intros [= <-]. apply ParseTime_wire in Ht. unfold Decode, dec_struct.
  repeat (erewrite dec_members_cons; [|unfold upd_LeaseStatus; keys; cbn -[Z.pow];
    rewrite ?Ht, ?(decide_True _ _ Hrc); reflexivity]). reflexivity.
Qed.

(** ** The connection *)

(** The agent may answer [resp] and leave [w']: whatever can be proved of the
    handler of the request holds. *)
Definition serves (method url : string) (body : option json) (w : world) (resp : HttpResponse)
    (w' : world) : Prop :=
  ∀ Q, wp router_law (route sf method (url_path url) body) Q w → Q resp w'.

(** A request that fails in transport may or may not have been served. *)
Definition http_post X (e : Env.OpE X) (w : world) : X → world → Prop :=
  match e in Env.OpE X return X → world → Prop with
  | HttpDo m u b => λ r w',
      match r with
      | Ok resp => serves m u b w resp w'
      | Err _ => w' = w ∨ ∃ resp, serves m u b w resp w'
      end
  | _ => λ _ w', w' = w
  end.

Definition wire_law : espec Env.OpE world := ESpec (λ _ _ _, True) (λ X e w, http_post X e w).

Lemma request_wp method url body (Q : result string HttpResponse → Op → world → Prop) o w
    (R : HttpResponse → world → Prop) :
  wp router_law (route sf method (url_path url) body) R w →
  (∀ resp w', R resp w' → Q (Ok resp) o w') →
  (∀ e, Q (Err ("failed to create request: " +:+ e)) o w) →
  (∀ e w', w' = w ∨ (∃ resp, R resp w') → Q (Err ("agent request failed: " +:+ e)) o w') →
  wpM wire_law (request method url body) Q o w.
Proof.
  intros HR Hok Hcreate Hlost. unfold request. rewrite wpM_bind, wpM_call. split; [done|].
  intros [[]|e] w1 Hw1; simpl in Hw1; subst; [|by apply Hcreate].
  rewrite wpM_bind, wpM_call. split; [done|]. intros [resp|e] w2 Hw2; [by apply Hok, Hw2|].
  apply Hlost. destruct Hw2 as [->|[resp Hw2]]; [by left|right]. exists resp. by apply Hw2.
Qed.

(** ** What the operator's calls mean on the router *)

Context (c : AgentClient) (Hc : plain (localAddr c)).
Context (i : string) (Hi : plain i) (Hne : i ≠ "").

Lemma route_post body : route sf "POST" ["leases"] body = handleAllocateLease sf body.
Proof. reflexivity. Qed.

Lemma route_get : route sf "GET" ["leases"; i] None = handleGetLease i.
Proof using Hne. unfold route. by rewrite decide_False. Qed.


(** An error whose cause is the connection or the text of the response. *)
Definition lost (e : string) : Prop :=
  (∃ e', e = "agent request failed: " +:+ e') ∨ (∃ e', e = "decode response failed: " +:+ e').

(** What an error [e] of a request for a lease says of the router, on which
    the request came upon [w]: the request was not made; or the agent refused
    it, with its reason; or the response was lost, and then the agent may have
    done either. *)
Definition allocate_error (parent : string) (mac : HardwareAddr) (m : gmap string (option nat))
    (w : world) (e : string) (w' : world) : Prop :=
  (∃ e', e = "failed to create request: " +:+ e' ∧ w' = w) ∨
  (∃ e', e = "agent returned 503: failed to allocate lease: " +:+ e' ∧
         not_allocated i m (rt_links w.2) e' w') ∨
  (lost e ∧ (w' = w ∨ (∃ e', not_allocated i m (rt_links w.2) e' w') ∨
             ∃ l x, allocated sf i parent mac m (rt_links w.2) l x w')).

(** C10: what the operator's request for a lease says about the router.  When
    the operator asks for a lease on a free interface with a valid MAC and gets
    an address, the agent has stored an active lease with exactly that address,
    its link exists and its renewal goroutine was started.  An error that is
    the agent's own answer means that the router's links are as before unless
    the removal of the new link failed, and the stored leases are as before
    unless that answer says that the lease could not be saved.  An error of the
    connection says nothing: the request was not served, or refused, or
    granted.  The operator's memory does not change. *)
Theorem AllocateLease_over_wire parent macs mac m s ls o :
  parent ≠ "" → macs ≠ "" → ParseMAC macs = Some mac →
  free s → leases s = Some m → inflight s !! i = None → m !! i = None →
  wpM wire_law (AllocateLease c i parent macs) (λ r o' w', o' = o ∧
    match r with
    | Ok ip => ∃ l x, ip = IP_String (IPAddress x) ∧ allocated sf i parent mac m ls l x w'
    | Err e => allocate_error parent mac m (at_ s ls []) e w'
    end) o (at_ s ls []).
Proof using W Hc Hne.
  intros Hp Hm0 Hmac Hf Hm Hfl Hno. unfold AllocateLease. rewrite wpM_bind.
  pose proof (handleAllocateLease_wp sf _ _ mac m s ls Hf Hm (request_decodes i parent macs)
                Hne Hp Hm0 Hmac) as Hspec.
  unfold answered in Hspec. cbn [rq_Interface rq_WanParent] in Hspec. rewrite Hfl, Hno in Hspec.
  eapply request_wp; [rewrite url_path_leases by done; exact Hspec|..].
  - intros resp w' (_ & _ & [(l & x & -> & Ha)|(e & -> & Hn)]).
    + cbn [granted StatusCode Body]. rewrite decide_False by (by intros []).
      destruct (enc_LeaseResponse _) as [j|] eqn:Hj.
      * rewrite (response_decodes _ _ Hj). cbv iota. rewrite wpM_ret. eauto.
      * cbn [Decode]. rewrite wpM_ret. split; [done|]. right. right. split; [right; by eauto|eauto].
    + rewrite decide_True by done. rewrite wpM_ret. split; [done|]. right. left. by exists e.
  - intros e. rewrite wpM_ret. split; [done|]. left. by exists e.
  - intros e w' Hw'. rewrite wpM_ret. split; [done|]. right. right. split; [left; by eauto|].
    destruct Hw' as [->|(resp & _ & _ & [(l & x & _ & Ha)|(e' & _ & Hn)])]; eauto.
Qed.

Lemma handleGetLease_wp m s (rt : Rt) :
  consistent s → leases s = Some m → wp router_law (handleGetLease i) (λ resp w', w' = (s, rt) ∧
    match m !! i with
    | None => StatusCode resp = StatusNotFound
    | Some p => ∃ l x, p = Some l ∧ heap s !! l = Some x ∧
                  resp = {| StatusCode := StatusOK; Body := enc_LeaseStatus (status_of x) |}
    end) (s, rt).
Proof.
  intros [Hmu _ (m' & Hm' & Hk)] Hm. assert (m' = m) as -> by congruence.
  unfold handleGetLease, Get. rewrite wp_bind.
  eapply wp_mem; [simpl; unfold unless_mu; by rewrite Hmu|].
  assert (get_section i s = m !! i) as -> by (unfold get_section; by rewrite Hm).
  destruct (m !! i) as [p|] eqn:Hp; [|by rewrite wp_ret].
  destruct (Hk _ _ Hp) as (l & -> & x & Hx & _). unfold deref_ptr. rewrite wp_bind, wp_ret, wp_bind.
  eapply wp_mem; [simpl; by rewrite Hx|]. rewrite wp_ret. eauto 6.
Qed.

(** C22: the operator sees the lease the agent has.  A status the operator
    obtains is that of the stored lease, field by field; "no lease" means that
    the agent has none for the interface; and asking changes nothing. *)
Theorem GetLease_over_wire m s (rt : Rt) o :
  consistent s → leases s = Some m →
  (∀ l x, heap s !! l = Some x → - 2 ^ 63 ≤ RenewalCount x < 2 ^ 63) →
  wpM wire_law (GetLease c i) (λ r o' w', o' = o ∧
    match r with
    | Ok (Some st) => w' = (s, rt) ∧
        ∃ l x, m !! i = Some (Some l) ∧ heap s !! l = Some x ∧ st = status_seen x
    | Ok None => w' = (s, rt) ∧ m !! i = None
    | Err _ => True
    end) o (s, rt).
Proof using W Hc Hi Hne.
  intros Hcs Hm Hrc. unfold GetLease. rewrite wpM_bind.
  pose proof (handleGetLease_wp m s rt Hcs Hm) as Hspec.
  eapply request_wp; [rewrite url_path_lease, route_get by done; exact Hspec|..].
  - intros resp w' [-> Hresp]. destruct (m !! i) as [p|] eqn:Hp.
    + destruct Hresp as (l & x & -> & Hx & ->). cbn [StatusCode Body].
      rewrite decide_False by done. rewrite decide_False by (by intros []).
      destruct (enc_LeaseStatus _) as [j|] eqn:Hj; [|cbn [Decode]; by rewrite wpM_ret].
      rewrite (status_decodes _ _ (Hrc _ _ Hx) Hj). cbv iota. rewrite wpM_ret. eauto 8.
    + rewrite decide_True by done. by rewrite wpM_ret.
  - intros e. by rewrite wpM_ret.
  - intros e w'. by rewrite wpM_ret.
Qed.

End wire.
