(* ===== verification/AgentSim.v ===== *)
(** * A concrete environment for the agent

    A small router with the documented behaviour (links, files, a DHCP server)
    and a scheduler for goroutines.  It shows that the hypotheses of the
    theorems can be met and replays interleavings; it models no code of the
    repository. *)

From S2P Require Import Prelude Effects GoStd Base64 Json Http AgentEnv LeaseJson AgentMem.
From S2P Require Import LeaseStore Garp NetConfig DhcpClient AgentApi Agent AgentThreads.
From S2P Require Import SimTime.

Local Open Scope Z_scope.

(** ** Library *)

(** A packet is the offered address; the server leases for an hour. *)
#[export] Instance SimAgLib : AgLib := {|
  Packet := list Z;
  YourIPAddr p := Some p;
  SubnetMask _ := None;
  ServerIdentifier _ := Some [192; 168; 1; 254];
  IPAddressLeaseTime _ d := d;
  IPAddressRenewalTime _ d := d;
  IPAddressRebindingTime _ d := d;
  IsAck _ := true;
  MessageTypeString _ := "ACK";
  ToBytes p := p;
  FromBytes b := Ok b;
  ClientPacket ip _ := ip;
  NewRequestFromOffer p := Ok p;
  WithServerIdentifier _ p := p;
  FormatTime t := Some (show_time t);
  ParseTime := read_time;
  JsonErrorText _ := "invalid character";
  ParseMACErrorText m := "address " +:+ m +:+ ": invalid MAC address";
|}.

#[export] Instance SimAgLaws : AgLaws SimAgLib.
Proof.
  split. intros t s [= <-]. apply read_show_time.
Qed.

(** ** The router *)

Record Router := {
  links : gmap string nat;
  files : gmap string content;
  write_fails : bool;          (* the state directory is not writable *)
  offered : IP;
}.

Definition no_link : nlerr := {| nl_msg := "Link not found"; nl_notfound := true |}.
Definition no_space : oserr := {| os_msg := "no space left on device"; os_notexist := false |}.
Definition no_file : oserr := {| os_msg := "file does not exist"; os_notexist := true |}.

Definition set_links (l : gmap string nat) (w : Router) : Router :=
  {| links := l; files := files w; write_fails := write_fails w; offered := offered w |}.
Definition set_files (f : gmap string content) (w : Router) : Router :=
  {| links := links w; files := f; write_fails := write_fails w; offered := offered w |}.

Definition is_json (c : content) : bool := match c with JsonDoc _ => true | Text _ => false end.

Definition agsim X (o : ExtOp X) (s : Ag) (w : Router) : option (X * Router) :=
  match o in ExtOp X return option (X * Router) with
  | LinkByName n => Some (match links w !! n with Some i => Ok i | None => Err no_link end, w)
  | LinkAdd n _ _ => Some (Ok tt, set_links (<[n := S (size (links w))]> (links w)) w)
  | LinkSetUp _ => Some (Ok tt, w)
  | LinkDelNew n => Some (Ok tt, set_links (delete n (links w)) w)
  | LinkDel i => Some (Ok tt, set_links (filter (λ kv, kv.2 ≠ i) (links w)) w)
  | NeighSet _ _ => Some (Ok tt, w)
  | NeighDel _ _ => Some (Ok tt, w)
  | WriteFile p c => if write_fails w && is_json c then Some (Err no_space, w)
                     else Some (Ok tt, set_files (<[p := c]> (files w)) w)
  | Rename a b => match files w !! a with
                  | Some c => Some (Ok tt, set_files (<[b := c]> (delete a (files w))) w)
                  | None => Some (Err no_file, w)
                  end
  | ReadFile p => Some (match files w !! p with Some c => Ok c | None => Err no_file end, w)
  | MkdirAll _ => Some (Ok tt, w)
  | InterfaceByName n => Some (match links w !! n with
                               | Some i => Ok i | None => Err "no such network interface" end, w)
  | Socket _ => Some (Ok 5%nat, w)
  | CloseFd _ => Some (tt, w)
  | Sendto _ _ _ _ => Some (Ok tt, w)
  | Sleep _ => Some (tt, w)
  | NclientNew _ _ => Some (Ok 6%nat, w)
  | NclientClose _ => Some (tt, w)
  | NclientRequest _ => Some (Ok {| nl_Offer := Some (offered w); nl_ACK := Some (offered w) |}, w)
  | NclientRenew _ o a => Some (Ok (Some {| nl_Offer := Some o; nl_ACK := Some a |}), w)
  | NclientSendAndRead _ _ req => Some (Ok req, w)
  | NclientRelease _ _ => Some (Ok tt, w)
  | Now => Some (1735689600000000000, w)
  | Select _ c => Some (negb (bool_decide (c ∈ cancelled s) || shutdown s), w)
  | Spawn _ _ _ => Some (tt, w)
  | Respond _ => Some (tt, w)
  | HttpServerShutdown => Some (None, w)
  | WaitRenewals _ => Some (true, w)
  | Panic _ => None
  end.

Lemma agsim_answers X (o : ExtOp X) w x w' s : agsim X o s w = Some (x, w') → answers X o s x.
Proof.
  destruct o; try done. intros [= <- _] H. apply negb_false_iff, orb_true_iff in H.
  by rewrite bool_decide_eq_true in H.
Qed.

(** ** A scheduler *)

(** An order: a goroutine's next step, or the arrival of a request. *)
Inductive order := Go (k : nat) | Request (method : string) (path : list string) (body : option json).

Section sched.
Context (sf : string).

Definition turn (o : order) (c : config) (w : Router)
    : option (option (nat * event AgE) * config * Router) :=
  let '(ts, s) := c in
  match o with
  | Request m p b => Some (None, (ts ++ [serve sf m p b], s), w)
  | Go k =>
    match ts !! k with
    | None => None
    | Some (Ret None) => None
    | Some (Ret (Some r)) => Some (None, (<[k := renewal_iter sf r]> ts, s), w)
    | Some (Vis e cont) =>
      match e with
      | Mem o => '(x, s') ← exec_mem _ o s;
                 Some (Some (k, Ev (Mem o) x), (<[k := cont x]> ts, s'), w)
      | Ext o => '(x, w') ← agsim _ o s w;
                 Some (Some (k, Ev (Ext o) x), (<[k := cont x]> ts ++ spawned _ o, s), w')
      end
    end
  end.

Lemma turn_step o c w e c' w' : turn o c w = Some (e, c', w') → step sf c e c'.
Proof.
  destruct c as [ts s]. destruct o as [k|m p b]; simpl; intros H; [|simplify_eq; constructor].
  destruct (ts !! k) as [[[r|]|X e0 cont]|] eqn:Hk; simplify_eq; [by constructor|].
  destruct e0 as [o|o].
  - destruct (exec_mem X o s) as [[x s']|] eqn:He; simplify_eq/=. by constructor.
  - destruct (agsim X o s w) as [[x w1]|] eqn:He; simplify_eq/=.
    constructor; [done|]. by eapply agsim_answers.
Qed.

(** Follow a list of orders, from a trace already made. *)
Fixpoint play (l : list order) (tr : list (nat * event AgE)) (c : config) (w : Router)
    : option (list (nat * event AgE) * config * Router) :=
  match l with
  | [] => Some (tr, c, w)
  | o :: l' =>
    '(e, c', w') ← turn o c w;
    play l' (tr ++ match e with Some x => [x] | None => [] end) c' w'
  end.

Lemma play_reaches l c0 tr c w tr' c' w' :
  reaches sf c0 tr c → play l tr c w = Some (tr', c', w') → reaches sf c0 tr' c'.
Proof.
  revert tr c w. induction l as [|o l IH]; intros tr c w Hr H; simplify_eq/=; [done|].
  destruct (turn o c w) as [[[e c1] w1]|] eqn:Ht; simplify_eq/=.
  eapply IH; [|exact H]. econstructor; [exact Hr|]. by eapply turn_step.
Qed.

(** Where the orders lead from a configuration, and the trace. *)
Definition played_from (l : list order) (c : config) (w : Router) : list (nat * event AgE) * config :=
  match play l [] c w with Some (tr, c', _) => (tr, c') | None => ([], c) end.

Lemma played_from_reaches l c w :
  reaches sf c (played_from l c w).1 (played_from l c w).2.
Proof.
  unfold played_from. destruct (play l [] c w) as [[[tr c'] w']|] eqn:E; [|constructor].
  eapply play_reaches; [constructor|exact E].
Qed.

(** ... and from the start. *)
Definition played (l : list order) (s : Ag) (w : Router) : list (nat * event AgE) * config :=
  played_from l (initial sf s) w.

Lemma played_reaches l s w : reaches sf (initial sf s) (played l s w).1 (played l s w).2.
Proof. apply played_from_reaches. Qed.
End sched.

(** ** Sample requests *)

Definition demo_body : option json :=
  Some (JObj [("interface", JStr "wan-a"); ("wanParent", JStr "eth9");
              ("macAddress", JStr "02:00:00:00:00:01")]).

Definition demo_router : Router :=
  {| links := {["eth9" := 1%nat]}; files := ∅; write_fails := false; offered := [203; 0; 113; 45] |}.

Definition post : order := Request "POST" ["leases"] demo_body.
Definition delete_ : order := Request "DELETE" ["leases"; "wan-a"] None.
