(* ===== verification/AgentMain.v ===== *)
(** * The agent's entry point (cmd/agent/main.go)

    The process creates the agent, checks the stored leases, opens the server,
    waits for a signal and shuts down.  The agent's own calls are those of the
    agent's model; the process adds the server goroutine and the signal. *)

From S2P Require Import Prelude Effects GoStd Base64 Json Http AgentEnv LeaseJson AgentMem.
From S2P Require Import LeaseStore Garp NetConfig DhcpClient AgentApi Agent AgentThreads AgentSim.

Local Open Scope Z_scope.

(** ** Flags *)

Record AgentFlags := { listenAddr : string; stateDir : string; logLevel : string }.

Definition default_agent_flags : AgentFlags :=
  {| listenAddr := "127.0.0.1:8692"; stateDir := "/var/lib/dhcp-wan-agent"; logLevel := "info" |}.

(** [slog]'s levels. *)
Inductive Level := LevelDebug | LevelInfo | LevelWarn | LevelError.

Definition level_of (s : string) : Level :=
  if decide (s = "debug") then LevelDebug
  else if decide (s = "info") then LevelInfo
  else if decide (s = "warn") then LevelWarn
  else if decide (s = "error") then LevelError
  else LevelInfo.

(** ** The process *)

Section process.
Context `{L : AgLib}.

Inductive ProcE : Type → Type :=
| InAgent X (e : AgE X) : ProcE X
| SetDefaultLogger (l : Level) : ProcE unit
| GoListenAndServe (addr : string) : ProcE unit
| WaitSignal : ProcE unit.

(** The agent's code as part of the process. *)
Fixpoint embed {A} (p : AgP A) : proc ProcE A :=
  match p with
  | Ret a => Ret a
  | Vis e k => Vis (InAgent _ e) (λ x, embed (k x))
  end.

(** [Start] and [Shutdown] as main calls them: both always return a nil error
    ([None]). *)
Definition agent_Start (stateFile addr : string) : proc ProcE (option string) :=
  _ ← embed (Start stateFile);
  _ ← trigger (GoListenAndServe addr);
  mret None.
Definition agent_Shutdown : proc ProcE (option string) := _ ← embed Shutdown; mret None.

(** The process's exit code. *)
Definition agent_main (stateFile : string) (f : AgentFlags) : proc ProcE Z :=
  _ ← trigger (SetDefaultLogger (level_of (logLevel f)));
  r ← embed (New stateFile (stateDir f));
  match r with
  | Err _ => mret 1
  | Ok _ =>
    e ← agent_Start stateFile (listenAddr f);
    match e with
    | Some _ => mret 1
    | None =>
      _ ← trigger WaitSignal;
      e' ← agent_Shutdown;
      match e' with Some _ => mret 1 | None => mret 0 end
    end
  end.

(** ** The life of the process *)

Definition in_agent (o : event AgE) : event ProcE :=
  match o with existT X (e, x) => existT X (InAgent X e, x) end.

Lemma runs_embed {A} (p : AgP A) tr a :
  runs (embed p) tr a → ∃ tr', runs p tr' a ∧ tr = in_agent <$> tr'.
Proof.
  revert tr. induction p as [a'|X e k IH]; intros tr Hr; simpl in Hr.
  - apply runs_ret_inv in Hr as [-> ->]. exists []. split; [constructor|done].
  - apply runs_vis_inv in Hr as (x & tr' & -> & Hr). apply IH in Hr as (tr1 & H1 & ->).
    exists (Ev e x :: tr1). split; [by constructor|done].
Qed.

(** The life of the agent process.  A run of main is: the logger is set to the
    level of the flag; the agent is created, and if that fails the process exits
    with code 1 at once.  Otherwise the stored leases are all checked before the
    server is opened on the flag's address, then a signal is awaited, then the
    agent shuts down, and the exit code is 0, whatever the server's and the
    renewals' shutdown answered. *)
Theorem agent_process_life stateFile f tr code :
  runs (agent_main stateFile f) tr code →
  ∃ tr1 r, runs (New stateFile (stateDir f)) tr1 r ∧
    let start := Ev (SetDefaultLogger (level_of (logLevel f))) tt :: (in_agent <$> tr1) in
    match r with
    | Err _ => code = 1 ∧ tr = start
    | Ok _ => code = 0 ∧ ∃ tr2 tr3, runs (Start stateFile) tr2 tt ∧ runs Shutdown tr3 tt ∧
        tr = start ++ (in_agent <$> tr2) ++ [Ev (GoListenAndServe (listenAddr f)) tt]
             ++ [Ev WaitSignal tt] ++ (in_agent <$> tr3)
    end.
Proof.
  unfold agent_main. intros Hr.
  apply runs_bind_inv in Hr as (t0 & [] & tr' & H0 & Hr & ->). apply runs_trigger_inv in H0 as ->.
  apply runs_bind_inv in Hr as (t1 & r & tr2 & H1 & Hr & ->). apply runs_embed in H1 as (tr1 & H1 & ->).
  exists tr1, r. split; [exact H1|]. destruct r as [[]|err].
  - apply runs_bind_inv in Hr as (t2 & e & tr3 & H2 & Hr & ->). unfold agent_Start in H2.
    apply runs_bind_inv in H2 as (t3 & [] & tr4 & H3 & H2 & ->). apply runs_embed in H3 as (ts & H3 & ->).
    apply runs_bind_inv in H2 as (t4 & [] & tr5 & H4 & H2 & ->). apply runs_trigger_inv in H4 as ->.
    apply runs_ret_inv in H2 as [-> ->].
    apply runs_bind_inv in Hr as (t6 & [] & tr6 & H6 & Hr & ->). apply runs_trigger_inv in H6 as ->.
    apply runs_bind_inv in Hr as (t7 & e' & tr7 & H7 & Hr & ->). unfold agent_Shutdown in H7.
    apply runs_bind_inv in H7 as (t8 & [] & tr8 & H8 & H7 & ->). apply runs_embed in H8 as (td & H8 & ->).
    apply runs_ret_inv in H7 as [-> ->]. apply runs_ret_inv in Hr as [-> ->].
    split; [done|]. exists ts, td. split; [done|]. split; [done|]. by rewrite !app_nil_r, <-!app_assoc.
  - apply runs_ret_inv in Hr as [-> ->]. split; [done|]. by rewrite app_nil_r.
Qed.
End process.

(** The state directory cannot be created. *)
Definition read_only : oserr := {| os_msg := "read-only file system"; os_notexist := false |}.

Lemma agent_process_life_witness :
  ∃ tr1 r, runs (New "leases.json" (stateDir default_agent_flags)) tr1 r ∧
    let start := Ev (SetDefaultLogger LevelInfo) tt :: (in_agent <$> tr1) in
    match r with
    | Err _ => 1 = 1 ∧ [Ev (SetDefaultLogger LevelInfo) tt;
                        in_agent (Ev (Ext (MkdirAll "/var/lib/dhcp-wan-agent")) (Err read_only))] = start
    | Ok _ => 1 = 0 ∧ ∃ tr2 tr3, runs (Start "leases.json") tr2 tt ∧ runs Shutdown tr3 tt ∧
        [Ev (SetDefaultLogger LevelInfo) tt;
         in_agent (Ev (Ext (MkdirAll "/var/lib/dhcp-wan-agent")) (Err read_only))]
        = start ++ (in_agent <$> tr2) ++ [Ev (GoListenAndServe (listenAddr default_agent_flags)) tt]
             ++ [Ev WaitSignal tt] ++ (in_agent <$> tr3)
    end.
Proof.
  apply (agent_process_life "leases.json" default_agent_flags _ 1). repeat constructor.
Defined.
