(* ===== verification/AgentRaces.v ===== *)
(** * Executions that go wrong

    Interleavings and failures the agent does not handle, each as a concrete
    execution of the model or as a statement about all executions. *)

From S2P Require Import Prelude Effects GoStd Base64 Json Http AgentEnv LeaseJson AgentMem.
From S2P Require Import LeaseStore Garp NetConfig DhcpClient AgentApi Agent AgentThreads AgentFile.
From S2P Require Import AgentSafety AgentRestart AgentSim.

Local Open Scope Z_scope.

Section observe.
Context `{L : AgLib}.

(** The responses of a trace: goroutine and status code. *)
Definition response (o : nat * event AgE) : option (nat * Z) :=
  match o.2 with
  | existT _ (e, _) => match e with Ext (Respond r) => Some (o.1, StatusCode r) | _ => None end
  end.

Definition responses (tr : list (nat * event AgE)) : list (nat * Z) := omap response tr.

Definition finished (t : thread) : bool := match t with Ret None => true | _ => false end.

Definition panicking (t : thread) : bool :=
  match t with Vis e _ => match e with Ext (Panic _) => true | _ => false end | _ => false end.
End observe.

Definition demo_file : string := "/var/lib/dhcp-wan-agent/leases.json".

(** What an execution looks like in the end: whether every goroutine has
    finished, the responses, the status of the lease of an interface, and the
    number of renewals that can be cancelled. *)
Definition summary (i : string) (r : list (nat * event AgE) * config)
    : bool * list (nat * Z) * option string * nat :=
  (forallb finished r.2.1, responses r.1, Status <$> lookup_lease i r.2.2,
   size (renewalCancels r.2.2)).

Lemma summary_inv i r b rs st n :
  summary i r = (b, rs, Some st, n) →
  forallb finished r.2.1 = b ∧ responses r.1 = rs ∧
  (∃ x, lookup_lease i r.2.2 = Some x ∧ Status x = st) ∧ size (renewalCancels r.2.2) = n.
Proof.
  unfold summary. intros H. simplify_eq. split_and!; try done.
  destruct (lookup_lease i r.2.2); simplify_eq/=. eauto.
Qed.

Definition go (k n : nat) : list order := replicate n (Go k).

(** ** A released lease comes back *)

(** A lease is granted (goroutine 1) and its renewal (goroutine 2) has its
    answer from the server and is about to store the lease when a release
    (goroutine 3) runs from start to end.  Then the renewal goes on, and a new
    request (goroutine 4) arrives. *)
Definition comeback : list order :=
  Go 0 :: post :: go 1 37 ++ go 2 10 ++ delete_ :: go 3 22 ++ go 2 10 ++ post :: go 4 4.

Lemma comeback_summary :
  summary "wan-a" (played demo_file comeback empty_store demo_router) =
  (true, [(1%nat, 201); (3%nat, 204); (4%nat, 409)], Some StatusActive, 0%nat).
Proof. vm_compute. reflexivity. Qed.

(** C35: a renewal that is under way when its lease is released puts the lease
    back.  There is an execution in which the release is answered with 204 and
    deletes the link, every goroutine ends, and yet the store holds an active
    lease for the interface that no goroutine renews; a new request for the
    interface is answered with 409. *)
Theorem released_lease_comes_back :
  ∃ tr ts s x, reaches demo_file (initial demo_file empty_store) tr (ts, s) ∧
    forallb finished ts = true ∧ responses tr = [(1%nat, 201); (3%nat, 204); (4%nat, 409)] ∧
    lookup_lease "wan-a" s = Some x ∧ Status x = StatusActive ∧ renewalCancels s = ∅.
Proof.
  pose proof (played_reaches demo_file comeback empty_store demo_router) as Hr.
  pose proof comeback_summary as Hs. revert Hr Hs.
  generalize (played demo_file comeback empty_store demo_router). intros [tr [ts s]] Hr Hs.
  apply summary_inv in Hs as (H1 & H2 & (x & Hx & Hst) & H3). apply map_size_empty_inv in H3.
  exists tr, ts, s, x. by split_and!.
Qed.

(** ** A lease that could not be saved *)

Definition full_disk : Router :=
  {| links := links demo_router; files := ∅; write_fails := true; offered := offered demo_router |}.

Definition unsaved : list order := Go 0 :: post :: go 1 34 ++ post :: go 2 4.

Lemma unsaved_summary :
  summary "wan-a" (played demo_file unsaved empty_store full_disk) =
  (true, [(1%nat, 503); (2%nat, 409)], Some StatusActive, 0%nat).
Proof. vm_compute. reflexivity. Qed.

(** When only saving the state file fails, the request is answered with 503
    and its link is deleted, but the lease stays in memory: the next request
    for the interface is answered with 409 although nothing was allocated. *)
Theorem failed_save_blocks_interface :
  ∃ tr ts s x, reaches demo_file (initial demo_file empty_store) tr (ts, s) ∧
    forallb finished ts = true ∧ responses tr = [(1%nat, 503); (2%nat, 409)] ∧
    lookup_lease "wan-a" s = Some x ∧ renewalCancels s = ∅.
Proof.
  pose proof (played_reaches demo_file unsaved empty_store full_disk) as Hr.
  pose proof unsaved_summary as Hs. revert Hr Hs.
  generalize (played demo_file unsaved empty_store full_disk). intros [tr [ts s]] Hr Hs.
  apply summary_inv in Hs as (H1 & H2 & (x & Hx & _) & H3). apply map_size_empty_inv in H3.
  exists tr, ts, s, x. by split_and!.
Qed.

(** ** A state file that says null *)

Definition poisoned : list order := Go 0 :: post :: go 1 26.

Lemma poisoned_panics :
  panicking <$> (played demo_file poisoned (set_leases None empty_store) demo_router).2.1 !! 1%nat
  = Some true.
Proof. vm_compute. reflexivity. Qed.

(** A state file that holds the JSON value null is accepted and leaves the
    store without a map; the first lease that is granted then makes its
    goroutine panic. *)
Theorem null_state_file_panics :
  (∀ dir, wp (disk_law demo_file (JsonDoc (Some JNull))) (New demo_file dir)
     (λ r s, r = Ok tt → s = set_leases None empty_store) empty_store) ∧
  ∃ tr ts s t, reaches demo_file (initial demo_file (set_leases None empty_store)) tr (ts, s) ∧
    ts !! 1%nat = Some t ∧ panicking t = true.
Proof.
  split.
  - intros dir. unfold New, NewStore, load. rewrite !wp_bind. apply wp_trigger. split; [done|].
    intros r s1 [-> _]. destruct r as [[]|e]; [|by intros [=]].
    rewrite !wp_bind. apply wp_trigger. split; [done|]. intros r s1 [-> Hr].
    rewrite (Hr eq_refl). cbn [as_json dec_leases]. rewrite wp_bind. apply wp_trigger.
    split; [by eexists|]. by intros [] s1 [= <-].
  - pose proof (played_reaches demo_file poisoned (set_leases None empty_store) demo_router) as Hr.
    pose proof poisoned_panics as Hp. revert Hr Hp.
    generalize (played demo_file poisoned (set_leases None empty_store) demo_router).
    intros [tr [ts s]] Hr Hp. cbn [fst snd] in *. destruct (ts !! 1%nat) as [t|] eqn:Ht; [|done].
    exists tr, ts, s, t. simplify_eq/=. auto.
Qed.

(** ** A store operation that waits for itself *)

Section self.
Context `{L : AgLib} (sf : string).

(** One goroutine alone; a section that has to wait has no answer. *)
Definition alone_law : espec AgE Ag :=
  ESpec (λ _ _ _, True)
        (λ X e s x s', match e with Mem o => exec_mem X o s = Some (x, s') | Ext _ => s' = s end).

(** [UpdateInterfaceStatus] never returns: it holds the store's lock when it
    calls [save], which waits for it.  (Nothing in the agent calls it.) *)
Theorem UpdateInterfaceStatus_never_returns i b s :
  wp alone_law (UpdateInterfaceStatus sf i b) (λ _ _, False) s.
Proof.
  unfold UpdateInterfaceStatus. rewrite wp_bind. apply wp_trigger. split; [done|].
  intros [] s1 H1. simpl in H1. unfold unless_mu in H1. destruct (mu s) eqn:Hmu; simplify_eq.
  rewrite wp_bind. apply wp_trigger. split; [done|]. intros [] s2 [= <-].
  assert (mu (mark_section i b (set_mu true s)) = true) as Hm
    by (unfold mark_section; by repeat case_match).
  rewrite wp_bind. unfold save. rewrite wp_bind. apply wp_trigger. split; [done|].
  intros [] s3 H3. simpl in H3. case_match; simplify_eq.
  rewrite wp_bind. apply wp_trigger. split; [done|]. intros d s4 H4. simpl in H4.
  unfold unless_mu in H4. simpl in H4. by rewrite Hm in H4.
Qed.
End self.
