(* ===== verification/AgentWitness.v ===== *)
(** * The agent's theorems at concrete inputs

    Each hypothesis of the theorems about the agent is met by the sample
    environment, a sample store or a replayed execution. *)

From S2P Require Import Prelude Effects GoStd Base64 Json Http AgentEnv LeaseJson AgentMem.
From S2P Require Import LeaseStore Garp NetConfig DhcpClient AgentApi Agent AgentThreads AgentFile.
From S2P Require Import AgentSafety AgentMarks AgentRestart AgentAlloc AgentRenewal AgentSim AgentRaces.

Local Open Scope Z_scope.

(** ** A store with one lease *)

Definition demo_lease : Lease :=
  {| Interface := "wan-a"; WanParent := "eth9"; IPAddress := [203; 0; 113; 45];
     DHCPServerIP := [192; 168; 1; 254]; MACAddress := [2; 0; 0; 0; 0; 1];
     ExpiresAt := 1735693200000000000; LeaseTime := Hour; RenewalCount := 0;
     Status := StatusActive; InterfaceExists := true; CreatedAt := 1735689600000000000;
     DHCPOffer := [203; 0; 113; 45]; DHCPAck := [203; 0; 113; 45] |}.

Definition demo_store : Ag :=
  {| heap := {[0%nat := demo_lease]}; next := 1; leases := Some {["wan-a" := Some 0%nat]};
     mu := false; saveMu := false; inflight := ∅; renewalCancels := ∅; cancelled := ∅;
     shutdown := false |}.

Definition demo_links : gmap string nat := {["eth9" := 1%nat]}.
Definition demo_mac : HardwareAddr := [2; 0; 0; 0; 0; 1].

Definition demo_request : LeaseRequest :=
  {| rq_Interface := "wan-a"; rq_WanParent := "eth9"; rq_MACAddress := "02:00:00:00:00:01" |}.

Lemma demo_ok : lease_ok demo_lease.
Proof.
  split; simpl; try done; repeat constructor; try (right; split); repeat constructor; unfold is_byte; lia.
Qed.

Lemma demo_consistent : consistent demo_store.
Proof.
  split; [done| |].
  - intros l. simpl. rewrite lookup_singleton_is_Some. intros <-. lia.
  - exists {["wan-a" := Some 0%nat]}. split; [done|]. intros i p [<- <-]%lookup_singleton_Some.
    exists 0%nat. split; [done|]. exists demo_lease. split; reflexivity.
Qed.

Lemma empty_consistent : consistent empty_store.
Proof. split; [done|by intros l []|]. by exists ∅. Qed.

Lemma demo_lookup i x : lookup_lease i demo_store = Some x → x = demo_lease.
Proof.
  unfold lookup_lease. simpl. intros H.
  destruct (({["wan-a" := Some 0%nat]} : gmap string (option nat)) !! i) as [[l|]|] eqn:E; try done.
  simpl in H. by apply lookup_singleton_Some in H as [_ ->].
Qed.

Lemma demo_path_ok : state_path_ok demo_file.
Proof. intros i f. split; unfold conf_path, demo_file, tmpFile; simpl; discriminate. Qed.

(** The execution of [comeback], and a shorter one that it continues. *)
Definition demo_run := played demo_file comeback empty_store demo_router.
Definition demo_prefix := played demo_file (Go 0 :: post :: go 1 37) empty_store demo_router.
Definition demo_rest := played_from demo_file (go 2 10) demo_prefix.2 demo_router.

(** ** A router that keeps the law

    It answers as the sample router does and keeps a log. *)

Definition held_links : gmap string nat := <["wan-a" := 2%nat]> demo_links.

Definition law_ext X (o : ExtOp X) (s : Ag) (ls : gmap string nat) : option (X * gmap string nat) :=
  (match o in ExtOp X return option (X * gmap string nat) → option (X * gmap string nat) with
   | LinkByName n => λ _, Some (match ls !! n with Some i => Ok i | None => Err no_link end, ls)
   | LinkAdd n _ _ => λ _, Some (match ls !! n with
                                 | Some _ => (Err "file exists", ls)
                                 | None => (Ok tt, <[n := base.fresh (map_img ls : gset nat)]> ls)
                                 end)
   | LinkDelNew n => λ _, Some (Ok tt, delete n ls)
   | LinkDel i => λ _, Some (Ok tt, filter (λ kv, kv.2 ≠ i) ls)
   | WriteFile _ _ | Rename _ _ => λ _, Some (Ok tt, ls)
   | _ => λ r, r
   end) ('(x, _) ← agsim X o s (set_links held_links demo_router); Some (x, ls)).

Definition law_router : handler AgE (Ag * Rt) := λ X e w,
  match e with
  | Mem o => '(x, s') ← exec_mem X o w.1; Some (x, (s', w.2))
  | Ext o => '(x, ls') ← law_ext X o w.1 (rt_links w.2);
             Some (x, at_ w.1 ls' (rt_log w.2 ++ [Ev (Ext o) x]))
  end.

Lemma law_router_implements : implements law_router router_law.
Proof.
  intros X e [s [ls lg]] Hpre. destruct e as [o|o]; simpl in *.
  - destruct Hpre as [[x s'] He]. exists x, (s', {| rt_links := ls; rt_log := lg |}). by rewrite He.
  - assert (∃ x ls', law_ext X o s ls = Some (x, ls') ∧ link_post X o ls x ls') as (x & ls' & E & Hp);
      [|eexists x, _; rewrite E; by split].
    destruct o; try done; simpl; try (by eexists _, _); repeat case_match; simplify_eq/=; try (by eexists _, _).
    all: eexists _, _; split; [reflexivity|]; simpl; try done.
    split; [done|]. eexists. split; [|reflexivity]. intros n' Hn.
    eapply (is_fresh (map_img ls : gset nat)), elem_of_map_img. by exists n'.
Qed.

(** ** Witnesses *)

Lemma leases_roundtrip_witness :
  let m := [("wan-a", Some demo_lease); ("wan-b", None)] in
  ∃ doc, enc_leases (Some m) = Some doc ∧
    dec_leases (Some doc) = Some (Some (map (λ '(k, o), (k, norm_Lease <$> o)) m)).
Proof.
  eexists. split; [vm_compute; reflexivity|].
  apply (leases_roundtrip [("wan-a", Some demo_lease); ("wan-b", None)]); [|vm_compute; reflexivity].
  intros k l [[= -> ->]|[[=]|[]%elem_of_nil]%elem_of_cons]%elem_of_cons. apply demo_ok.
Defined.

Lemma interface_operations_exclusive_witness :
  consistent empty_store ∧ inflight empty_store = ∅ ∧
  (∀ k k' i, i ∈ holds demo_prefix.1 k → i ∈ holds demo_prefix.1 k' → k = k').
Proof.
  split; [apply empty_consistent|]. split; [reflexivity|].
  apply (interface_operations_exclusive demo_file empty_store demo_prefix.1 demo_prefix.2.1
           demo_prefix.2.2); [apply empty_consistent|reflexivity|].
  rewrite <-surjective_pairing. apply played_reaches.
Defined.

Lemma state_file_never_torn_witness :
  saveMu empty_store = false ∧
  (files_after ∅ demo_run.1 !! demo_file = (∅ : gmap string fstate) !! demo_file ∨
   ∃ j, files_after ∅ demo_run.1 !! demo_file = Some (Whole (JsonDoc (Some j))) ∧
        marshalled demo_run.1 j).
Proof.
  split; [reflexivity|].
  apply (state_file_never_torn demo_file ∅ demo_path_ok empty_store demo_run.1 demo_run.2.1
           demo_run.2.2); [reflexivity|].
  rewrite <-surjective_pairing. apply played_reaches.
Defined.

Lemma agent_never_stuck_witness :
  consistent empty_store ∧ saveMu empty_store = false ∧ consistent demo_run.2.2 ∧
  (∀ k msg cont, demo_run.2.1 !! k ≠ Some (Vis (Ext (Panic msg)) cont)).
Proof.
  pose proof (agent_never_stuck demo_file demo_path_ok empty_store demo_run.1 demo_run.2.1
                demo_run.2.2 empty_consistent eq_refl) as H.
  split; [apply empty_consistent|]. split; [reflexivity|].
  rewrite <-surjective_pairing in H.
  destruct (H (played_reaches demo_file comeback empty_store demo_router)) as (H1 & H2 & _).
  split; [exact H1|exact H2].
Defined.

Lemma lease_identity_permanent_witness :
  consistent empty_store ∧
  ∀ l x, heap demo_prefix.2.2 !! l = Some x →
    ∃ y, heap demo_rest.2.2 !! l = Some y ∧ identity y = identity x.
Proof.
  split; [apply empty_consistent|]. intros l x.
  apply (lease_identity_permanent demo_file empty_store demo_prefix.1 demo_prefix.2 demo_rest.1
           demo_rest.2); [apply empty_consistent|apply played_reaches|apply played_from_reaches].
Defined.

Lemma restart_restores_leases_witness :
  consistent demo_store ∧ ∃ doc, marshal_section demo_store = Ok doc ∧
  wp (disk_law demo_file (JsonDoc (Some doc))) (New demo_file "/var/lib/dhcp-wan-agent") (λ r s',
    match r with
    | Ok _ => consistent s' ∧ saveMu s' = false ∧
              ∀ i, lookup_lease i s' = norm_Lease <$> lookup_lease i demo_store
    | Err e => ∃ e', e = "failed to create lease store: failed to create state directory: " +:+ e'
    end) empty_store.
Proof.
  split; [apply demo_consistent|]. eexists. split; [vm_compute; reflexivity|].
  apply (restart_restores_leases demo_file demo_store);
    [apply demo_consistent| |vm_compute; reflexivity].
  intros i x ->%demo_lookup. apply demo_ok.
Defined.



Lemma allocate_release_roundtrip_witness :
  ∃ resp w', run law_router (a ← handleAllocateLease demo_file demo_body;
                 if decide (StatusCode a = StatusCreated)
                 then handleReleaseLease demo_file (rq_Interface demo_request) else mret a)
               (at_ empty_store demo_links []) = Some (resp, w') ∧
             undone (rq_Interface demo_request) demo_links w'.2 ∧
             (leases w'.1 = Some ∅ ∨ ∃ e, resp = refused ("failed to save lease: " +:+ e)).
Proof.
  destruct (wp_run law_router router_law _ _ _ law_router_implements
    (allocate_release_roundtrip demo_file demo_body demo_request demo_mac ∅ empty_store
       demo_links (conj eq_refl eq_refl) eq_refl eq_refl ltac:(done) ltac:(done) ltac:(done) eq_refl
       eq_refl eq_refl)) as (resp & w' & Hrun & Hu & Hl & _).
  exists resp, w'. split; [exact Hrun|]. split; [exact Hu|exact Hl].
Defined.


