(* ===== verification/WireWitness.v ===== *)
(** * The theorems about operator and agent together, at a concrete input

    The two sample environments share their format of times. *)

From S2P Require Import SimTime Prelude Effects GoStd Base64 Json Http ClaimTypes Env AgentClient Sim.
From S2P Require Import AgentEnv LeaseJson AgentMem LeaseStore Garp NetConfig DhcpClient AgentApi.
From S2P Require Import Agent AgentThreads AgentFile AgentSafety AgentAlloc Wire.
From S2P Require Import AgentSim AgentRaces AgentWitness.

Local Open Scope Z_scope.

#[export] Instance SimWireLaws : WireLaws SimLib SimAgLib.
Proof. split. intros t s [= <-]. apply read_show_time. Qed.

Definition demo_client : AgentClient := {| sshClient := 3%nat; localAddr := "127.0.0.1:40001" |}.

Lemma demo_addr_plain : plain (localAddr demo_client).
Proof. repeat constructor. Qed.

Lemma demo_iface_plain : plain "wan-a".
Proof. repeat constructor. Qed.

(** The operator when it starts. *)
Definition demo_op : Op :=
  {| Env.heap := ∅; Env.next := 0; Env.cancelled := ∅; SSHRegistry := Some ∅; sshHandlers := ∅;
     routerAssignments := ∅; claimManagers := ∅ |}.

(** The law of the connection can be met: the sample router serves requests. *)
Lemma law_router_serves method url body w resp w' :
  run law_router (route demo_file method (url_path url) body) w = Some (resp, w') →
  serves demo_file method url body w resp w'.
Proof.
  intros Hr Q HQ. destruct (wp_run _ _ _ _ _ law_router_implements HQ) as (a & w1 & Hr' & H).
  by simplify_eq.
Qed.

Lemma allocation_served :
  ∃ resp w', serves demo_file "POST" "http://127.0.0.1:40001/leases" demo_body
               (at_ empty_store demo_links []) resp w' ∧ StatusCode resp = StatusCreated.
Proof.
  eexists _, _. split; [apply law_router_serves; vm_compute; reflexivity|]. reflexivity.
Qed.

Lemma AllocateLease_over_wire_witness :
  ParseMAC "02:00:00:00:00:01" = Some demo_mac ∧ free empty_store ∧
  wpM (wire_law demo_file) (AllocateLease demo_client "wan-a" "eth9" "02:00:00:00:00:01")
    (λ r o' w', o' = demo_op ∧
      match r with
      | Ok ip => ∃ l x, ip = IP_String (IPAddress x) ∧
                        allocated demo_file "wan-a" "eth9" demo_mac ∅ demo_links l x w'
      | Err e => allocate_error demo_file "wan-a" "eth9" demo_mac ∅ (at_ empty_store demo_links []) e w'
      end) demo_op (at_ empty_store demo_links []).
Proof.
  split; [reflexivity|]. split; [done|].
  exact (AllocateLease_over_wire demo_file demo_client demo_addr_plain "wan-a" ltac:(done) "eth9"
    "02:00:00:00:00:01" demo_mac ∅ empty_store demo_links demo_op ltac:(done) ltac:(done) eq_refl
    (conj eq_refl eq_refl) eq_refl eq_refl eq_refl).
Defined.

Lemma demo_counts l x :
  heap demo_store !! l = Some x → - 2 ^ 63 ≤ RenewalCount x < 2 ^ 63.
Proof. simpl. intros [_ <-]%lookup_singleton_Some. done. Qed.

Lemma GetLease_over_wire_witness :
  consistent demo_store ∧
  wpM (wire_law demo_file) (GetLease demo_client "wan-a") (λ r o' w', o' = demo_op ∧
    match r with
    | Ok (Some st) => w' = at_ demo_store demo_links [] ∧
        ∃ l x, ({["wan-a" := Some 0%nat]} : gmap string (option nat)) !! "wan-a" = Some (Some l) ∧
               heap demo_store !! l = Some x ∧ st = status_seen x
    | Ok None => w' = at_ demo_store demo_links [] ∧
                 ({["wan-a" := Some 0%nat]} : gmap string (option nat)) !! "wan-a" = None
    | Err _ => True
    end) demo_op (at_ demo_store demo_links []).
Proof.
  split; [apply demo_consistent|].
  exact (GetLease_over_wire demo_file demo_client demo_addr_plain "wan-a" demo_iface_plain
    ltac:(done) _ demo_store {| rt_links := demo_links; rt_log := [] |} demo_op demo_consistent eq_refl demo_counts).
Defined.

